(* ===== verification/_CoqProject ===== *)
-Q . S2P
Prelude.v
KVConfig.v
RdmaConfig.v
Hash.v
LeafNode.v
InnerTree.v
SkipVector.v
SlabAllocator.v
Verbs.v
ReplicaGroup.v
Allocators.v
LocalLockTable.v
RandomGen.v
InlineSkipList.v
SkipListShape.v
SkipListThreads.v
DMCache.v
CacheIndex.v
Tree.v
TreeChain.v
TreeLeaf.v
TreeInner.v
TreeFind.v
TreeGrow.v
TreeInsert.v
TreeOps.v
TreeWrite.v
TreeScan.v
TreeBoot.v
TreeRefine.v
TreeAlloc.v
Index.v
LsmCoding.v
LsmCrc32c.v
LsmFile.v
LsmLog.v
LsmLogWrite.v
LsmLogRead.v
LsmLogRecovery.v
LsmFormat.v
LsmBatch.v
LsmMemTable.v
LsmRecovery.v
LsmWrite.v
LsmFlush.v
LsmWriteSafety.v
LsmBlock.v
LsmBlockRefine.v
LsmFilter.v
LsmTable.v
LsmTableBuild.v
LsmTableGet.v
LsmEdit.v
LsmVersion.v
LsmVersionGet.v
LsmVersionEdit.v
