(* ===== verification/Prelude.v ===== *)
(** * SkipVectorDM and dLSM, indexes on disaggregated memory

    The program is a B+-tree-like index kept in the memory of remote nodes and
    used by compute servers through one-sided RDMA verbs, together with the
    building blocks of a replicated skip vector ([src/SkipVectorDM]).  Servers
    cache inner nodes and fingerprint tables, combine writes and delegate reads
    among their threads, and allocate remote memory in chunks from the nodes'
    directories.  The other directories of the repository hold the systems it is
    compared with.  One of them is modelled as well: dLSM ([src/dLSM]), a
    log-structured store derived from LevelDB, whose writes go to a redo log and
    to memtables that background jobs flush to tables.

    ** Files

    - [Prelude]: errors and monads, machine integers, bytes, lists, sorting,
      tactics.
    - [KVConfig], [RdmaConfig], [Hash]: keys and values ([KVConfig.h]), global
      addresses and the registered buffers ([RdmaConfig.h]), the hash of
      fingerprints ([third_party/hash.h]).
    - [LeafNode], [InnerTree]: the nodes of the index and their byte layout
      ([LeafNode.h], [InnerTree.h]).
    - [SkipVector], [SlabAllocator], [ReplicaGroup]: leaf handles and contents,
      the slab allocator and the replica group ([include/skipvector/*.h],
      [src/skipvector/ReplicaGroup.cc]).
    - [Verbs]: work requests, completion polling, the verbs of a client and the
      registration of threads ([src/rdma/Operation.cpp], [src/DMVerbs.cc]).
    - [Allocators]: chunk directory and remote allocation ([Directory.h],
      [Directory.cc], [DMVerbs.h]).
    - [LocalLockTable]: read delegation and write combining
      ([LocalLockTable.h]).
    - [RandomGen], [InlineSkipList]: the random heights and the concurrent skip
      list ([third_party/random.h], [third_party/inlineskiplist.h]);
      [SkipListShape]: its levels and searches; [SkipListThreads]: threads that
      use it together.
    - [DMCache]: the cache of inner nodes ([DMCache.h], [DMCache.cc]);
      [CacheIndex]: the skip list as its index.
    - [Tree]: the operations of the index and its constructor ([DMInner.cc],
      [SkipVectorDM.cc], [SkipVectorDM.h]) over the shared memory and the state
      of one server.
    - [TreeChain], [TreeLeaf], [TreeInner]: what a well-formed index is: chains
      of cells whose ranges follow one another, leaves and the pairs they hold,
      inner levels over the level below.
    - [TreeFind], [TreeGrow], [TreeInsert]: searching the inner levels, adding a
      record to a level (with splits and a new root), and adding a new leaf.
      [TreeGrow] states what the index asks of the allocator ([AllocatorSpec]).
    - [TreeOps], [TreeWrite], [TreeScan], [TreeBoot]: the searches, writes and
      scans of leaves, and the start of servers.
    - [TreeRefine]: the public operations between the local locks, servers in
      turn, and the refinement of a map; [TreeAlloc]: the allocators of
      [Allocators] meet [AllocatorSpec]; [Index]: the theorems about whole runs.

    For dLSM:

    - [LsmCoding], [LsmCrc32c], [LsmFile]: encodings of numbers and strings
      ([util/coding.h]), checksums ([util/crc32c.cc]), buffered files over a file
      system of which a crash keeps what was synced ([util/env_posix.h]).
    - [LsmLog]: the writer and the reader of the redo log ([db/log_writer.cc],
      [db/log_reader.cc]); [LsmLogWrite], [LsmLogRead]: the bytes that are
      written, and how a reader takes them; [LsmLogRecovery]: crashes.
    - [LsmFormat], [LsmBatch]: internal keys and comparators ([db/dbformat.h],
      [util/comparator.cc]), write batches ([db/write_batch.cc]).
    - [LsmMemTable]: the memtable ([db/memtable.cc]) over the inline skip list;
      [LsmRecovery]: [DBImpl::RecoverLogFile].
    - [LsmWrite]: writers and flush jobs as threads ([DBImpl::Write],
      [PickupTableToWrite], [CompactMemTable], [db/memtable_list.cc]);
      [LsmFlush]: the table a flush builds; [LsmWriteSafety]: the invariant of
      the threads.
    - [LsmBlock], [LsmBlockRefine]: blocks, their builder and iterator
      ([table/block_builder.cc], [table/block.cc]) and the cursor in a sorted
      list that they implement; [LsmFilter]: the Bloom filter of a table
      ([util/hash.cc], [util/bloom_impl.h], [table/full_filter_block.cc]).
    - [LsmTable]: byte-addressable tables in remote memory, the builder with its
      ring of buffers, the network card that carries out its writes, opening and
      lookups ([table/table_builder_bacs.cpp], [table/format.cc],
      [table/table.cc]); [LsmTableBuild]: the invariant of the builder and the
      card; [LsmTableGet]: reading a table back.
    - [LsmEdit]: table metadata and version edits with their encoding
      ([db/version_edit.cc]); [LsmVersion]: the levels of tables, lookups in
      them, the builder of versions and [LogAndApply] ([db/version_set.cc],
      [db/table_cache.cc]); [LsmVersionGet], [LsmVersionEdit]: what lookups and
      edits do.

    Each C++ class is a [Record] with one definition per method, with the
    source's names; a method that asserts or indexes an array returns a
    [result].  Code outside the repository is a parameter: CityHash
    ([CityHash]), the CRC of boost ([BoostCrc]) and the network card ([Nic],
    with its documented behaviour in [NicSpec] and an executable instance).

    ** Theorems

    - Nodes: searching an inner node is a floor search, inserting a map update,
      splitting a partition; entries and fingerprint tables return what was
      stored; layouts and packings round-trip.
    - Memory: blocks handed out by remote allocation and by the slabs never
      overlap and allocation is total while memory lasts; the slab allocator
      refines a set of slots; buffers of threads and coroutines are disjoint.
    - Verbs and replicas: remote writes are read back, compare-and-swap is
      atomic, chained requests take effect in order; majority reads see majority
      writes, and at most one client wins a majority of compare-and-swaps.
    - Threads of a server: the ticket queues exclude each other's threads and
      keep a front; a batch of combined writes is one write of the last value,
      and a late writer's value is lost.
    - Skip list: threads that insert and search together never fail and see an
      atomic sorted list; every search and iterator call ends, with the nodes
      the order promises; the arithmetic of the generator is multiplication
      modulo 2^31 - 1, except for one seed.
    - Cache: any sequence of calls runs to its end, hits come from inserted
      nodes, and accepted nodes are found; the calls it makes on the skip list
      return what they return on the sorted list of the model.
    - Index: servers on compute nodes that start on a blank memory and run reads,
      writes and scans in turn always get replies, those of a map; the memory
      stays a well-formed tree of logarithmic height with no lock held, whose
      blocks, tables and local copies share no byte; the search from the root
      finds the leaf of every key; and a cached node, however old, is either
      right or seen to be outdated by its version.  The same holds end to end
      over the chunk directories of the code, with its own sizes, for sixteen
      processes and a million writes.
    - dLSM, log and recovery: a log survives the death of its writer in the
      middle of a call, a reader can start anywhere in it, and replaying it,
      where the log is reused, gives a memtable that answers for a prefix of the
      batches with all those whose bytes are left; encodings and batches
      round-trip, and the table-driven checksum is the bitwise one.
    - dLSM, writes: in a database opened on an empty directory, with user keys of
      at least eight bytes, whatever writers and flush jobs do together, no
      assertion fails, no write that has returned is lost, and reads through a
      super version see the newest version at their snapshot in the memtables it
      has.
    - dLSM, tables: the iterator of a block is a cursor in a sorted list; the
      filter matches every key that was added; whatever the order in which the
      table builder and the card take their steps, no assertion fails, no buffer
      is overwritten before its write was carried out, the table gets finished,
      and it answers lookups with the newest version at the snapshot.
    - dLSM, versions: edits round-trip through their encoding; an edit that
      leaves no overlaps passes the builder's assertions and gives exactly the
      tables kept and added; lookups over byte-addressable tables in remote
      memory, through the cache of opened tables, return the newest version at
      the snapshot, also after a flush has been installed, but an older one where
      the numbers of level 0 contradict the age of its tables.

    ** Bounds and fuel

    Loops over arrays are structural.  Loops that wait or retry ([goto], [while])
    carry fuel and report [OutOfFuel]; polling loops consume a list of poll
    results.  The runs of the index need fuel linear in the number of leaves for
    scans, and in the number of inner nodes for reads and writes
    ([provisioned]); the same record bounds the blocks and tables the allocator
    must give, and the inner nodes that keep the cache below the fill at which
    [adapt_capacity] doubles the capacity of new leaves.  Machine integers are
    kept at their width where they can wrap.  The loops of the skip list need as
    many iterations as it has levels and keys, an insert that runs alone twice
    the levels more.  The log loops need as many iterations as the file has bytes;
    the memtables of dLSM never have more than [MEMTABLE_SEQ_SIZE] entries, which
    bounds the fuel of its searches.  The loops of a block iterator need as many
    iterations as the block has bytes.  A table is built by steps, and the
    entries must fit in the chunks the code reserves for the index, the filter
    and a buffer ([room]).  The search of a level halves a range of its tables,
    and a decoded edit has at most the hundred thousand fields the code allows.

    The operations of the index run one after the other: servers take turns
    between operations, and a server runs one thread.  Threads inside a server
    interleave in [LocalLockTable], clients at the replicas in [ReplicaGroup],
    clients at the directories in [Allocators], users of the skip list at each
    shared access in [SkipListThreads], where the accesses are sequentially
    consistent but for the relaxed loads of the list's height.  Writers and flush
    jobs of dLSM interleave in [LsmWrite] between any two accesses to shared
    state, with an insertion in a memtable as one step, and so the change to a
    new memtable under its lock, super version included.  The card takes its steps
    between any two calls of the table builder, and the polls of its wait.

    ** Not modelled

    Torn reads and interleavings inside an operation of the index, servers on
    memory nodes, whose copies of tables overwrite blocks (an error of the model),
    connection set-up and rendezvous (libibverbs and memcached calls), two-sided
    messages below the directory's handler, the inserts of the skip list that
    reuse a splice (nothing calls them) and benchmarks.  Of dLSM: the block-based tables
    and the iterators over tables, compaction and the floating-point scores that
    trigger it, which cached tables are evicted, the merger and the disk format of
    edits, the reclamation of super versions and memtables, the connections and
    memory pools of the RDMA manager and the memory node.  A path of the code that
    is left out in a modelled function, such as a lookup in a block-based table,
    is the error [Unmodelled].  The other systems kept for comparison (DMTree,
    FPTree, Sherman, SMART, CHIME, ROLEX) are not modelled: they are research
    baselines that share their building blocks with the modelled sources. *)

From stdpp Require Export base tactics numbers list gmap sorting.
From Stdlib Require Export ZArith Lia.

Open Scope Z_scope.

(** ** Errors

    The C++ code stops in ways the model keeps apart: an [assert] that fails, an
    access outside an array, and (for a loop the model bounds) fuel that runs
    out.  [Unmodelled] is where the code would take a branch that the model leaves
    out.  Every fallible operation returns a [result]. *)

Inductive error := AssertionFailure | OutOfBounds | OutOfFuel | Unmodelled.

Inductive result (A : Type) :=
| Ok (a : A)
| Err (e : error).
Arguments Ok {A} a.
Arguments Err {A} e.

#[export] Instance error_eq_dec : EqDecision error.
Proof. solve_decision. Defined.

#[export] Instance result_eq_dec {A} `{!EqDecision A} : EqDecision (result A).
Proof. solve_decision. Defined.

#[export] Instance result_ret : MRet result := λ A a, Ok a.
#[export] Instance result_bind : MBind result := λ A B f r,
  match r with Ok a => f a | Err e => Err e end.

(** [assert(b)] of the source. *)
Definition require (b : bool) : result unit :=
  if b then Ok tt else Err AssertionFailure.

(** [a[i]] of the source, undefined behaviour outside the array. *)
Definition at_index {A} (l : list A) (i : nat) : result A :=
  match l !! i with Some x => Ok x | None => Err OutOfBounds end.

Definition is_ok {A} (r : result A) : bool :=
  match r with Ok _ => true | Err _ => false end.

Lemma bind_Ok {A B} (r : result A) (f : A → result B) (b : B) :
  r ≫= f = Ok b ↔ ∃ a, r = Ok a ∧ f a = Ok b.
Proof. destruct r as [a|e]; cbn; split; [eauto|by intros (? & [= <-] & ?)|done|by intros (? & ? & ?)]. Qed.

Lemma require_Ok (b : bool) (u : unit) : require b = Ok u ↔ b = true.
Proof. destruct b, u; cbn; naive_solver. Qed.

Lemma at_index_Ok {A} (l : list A) i x : at_index l i = Ok x ↔ l !! i = Some x.
Proof. unfold at_index. case_match; naive_solver. Qed.

(** Stateful code that can fail: a function from the state to its result and
    the state it leaves. *)
Definition M (S A : Type) : Type := S → result (A * S).

#[export] Instance M_ret {S} : MRet (M S) := λ A a s, Ok (a, s).
#[export] Instance M_bind {S} : MBind (M S) := λ A B f m s,
  match m s with Ok (a, s') => f a s' | Err e => Err e end.

Definition lift {S A} (r : result A) : M S A := λ s,
  match r with Ok a => Ok (a, s) | Err e => Err e end.
Definition get {S} : M S S := λ s, Ok (s, s).
Definition modify {S} (f : S → S) : M S unit := λ s, Ok (tt, f s).

Lemma M_bind_Ok {S A B} (m : M S A) (f : A → M S B) s b s' :
  (m ≫= f) s = Ok (b, s') ↔ ∃ a s1, m s = Ok (a, s1) ∧ f a s1 = Ok (b, s').
Proof.
  unfold mbind, M_bind. destruct (m s) as [[a s1]|e]; split.
  - intros H. by exists a, s1.
  - by intros (? & ? & [= <- <-] & ?).
  - done.
  - by intros (? & ? & ? & ?).
Qed.

Lemma M_bind_eq {S A B} (m : M S A) (f : A → M S B) s x s' : m s = Ok (x, s') → (m ≫= f) s = f x s'.
Proof. unfold mbind, M_bind. by intros ->. Qed.

(** What a call that runs to its end establishes. *)
Definition wp {S A} (m : M S A) (s : S) (Q : A → S → Prop) : Prop :=
  match m s with Ok (x, s') => Q x s' | Err _ => False end.

Section wp.
Context {S A B : Type}.
Implicit Types (m : M S A) (s : S) (Q : A → S → Prop).

Lemma wp_Ok m s Q : wp m s Q ↔ ∃ x s', m s = Ok (x, s') ∧ Q x s'.
Proof. unfold wp. destruct (m s) as [[x s']|e]; naive_solver. Qed.

Lemma wp_mono m s P Q : wp m s P → (∀ x s', P x s' → Q x s') → wp m s Q.
Proof. unfold wp. destruct (m s) as [[x s']|e]; auto. Qed.

Lemma wp_bind m (f : A → M S B) s (R : B → S → Prop) :
  wp m s (λ x s', wp (f x) s' R) → wp (m ≫= f) s R.
Proof. unfold wp at 1 3, mbind, M_bind. by destruct (m s) as [[x s']|e]. Qed.

Lemma wp_seq m (f : A → M S B) s P (R : B → S → Prop) :
  wp m s P → (∀ x s', P x s' → wp (f x) s' R) → wp (m ≫= f) s R.
Proof. intros Hm Hf. apply wp_bind. by eapply wp_mono. Qed.

(** A call whose result is known. *)
Lemma wp_eq m (f : A → M S B) s x s' (R : B → S → Prop) :
  m s = Ok (x, s') → wp (f x) s' R → wp (m ≫= f) s R.
Proof. unfold wp, mbind, M_bind. by intros ->. Qed.

Lemma wp_ret (x : A) s Q : Q x s → wp (mret x) s Q.
Proof. done. Qed.

Lemma wp_get (f : S → M S B) s (R : B → S → Prop) : wp (f s) s R → wp (get ≫= f) s R.
Proof. done. Qed.

Lemma wp_modify (g : S → S) (f : unit → M S B) s (R : B → S → Prop) :
  wp (f tt) (g s) R → wp (modify g ≫= f) s R.
Proof. done. Qed.

Lemma wp_lift (r : result A) (f : A → M S B) s x (R : B → S → Prop) :
  r = Ok x → wp (f x) s R → wp (lift r ≫= f) s R.
Proof. by intros ->. Qed.
End wp.

(** ** Machine integers

    A [w]-bit unsigned integer is a [Z] in [0, 2^w); arithmetic wraps. *)

Definition wrap (w x : Z) : Z := x mod 2 ^ w.
Abbreviation u8 := (wrap 8).
Abbreviation u16 := (wrap 16).
Abbreviation u32 := (wrap 32).
Abbreviation u64 := (wrap 64).

(** Conversion to a signed [int] (32 bits, two's complement). *)
Definition int32 (x : Z) : Z := (x + 2 ^ 31) mod 2 ^ 32 - 2 ^ 31.

Definition fits (w x : Z) : Prop := 0 ≤ x < 2 ^ w.

#[export] Instance fits_dec w x : Decision (fits w x).
Proof. unfold fits. apply _. Defined.

Lemma wrap_fits w x : 0 ≤ w → fits w (wrap w x).
Proof. intros. apply Z.mod_pos_bound. apply Z.pow_pos_nonneg; lia. Qed.

Lemma wrap_small w x : fits w x → wrap w x = x.
Proof. apply Z.mod_small. Qed.

Lemma wrap_wrap w x : 0 ≤ w → wrap w (wrap w x) = wrap w x.
Proof. intros. by apply wrap_small, wrap_fits. Qed.

Lemma int32_small x : - 2 ^ 31 ≤ x < 2 ^ 31 → int32 x = x.
Proof. intros. unfold int32. rewrite Z.mod_small; lia. Qed.

Lemma fits_le w w' x : 0 ≤ w ≤ w' → fits w x → fits w' x.
Proof.
  unfold fits. intros ? [? ?]. pose proof (Z.pow_le_mono_r 2 w w'). lia.
Qed.

(** A word packed from a low field of [w] bits and a high field. *)
Lemma lor_shiftl w a b : 0 ≤ w → fits w a → Z.lor a (Z.shiftl b w) = a + b * 2 ^ w.
Proof.
  intros Hw [Ha Ha']. rewrite Z.shiftl_mul_pow2 by lia. rewrite <- Z.add_lor_land.
  assert (Z.land a (b * 2 ^ w) = 0) as ->; [|lia].
  apply Z.bits_inj'. intros i Hi. rewrite Z.land_spec, Z.bits_0.
  destruct (Z.lt_ge_cases i w) as [Hlt|Hge].
  - rewrite Z.mul_pow2_bits_low by lia. apply andb_false_r.
  - destruct (decide (a = 0)) as [->|]; [by rewrite Z.bits_0|].
    rewrite (Z.bits_above_log2 a); [done|lia|].
    apply Z.log2_lt_pow2; [lia|]. pose proof (Z.pow_le_mono_r 2 w i). lia.
Qed.

Create HintDb mach discriminated.
#[export] Hint Resolve wrap_fits : mach.
#[export] Hint Extern 5 (_ ≤ _) => lia : mach.
#[export] Hint Extern 5 (_ < _) => lia : mach.
#[export] Hint Extern 5 (_ ≠ _) => lia : mach.

(** Little-endian bytes of an integer field. *)
Fixpoint le_bytes (n : nat) (x : Z) : list Z :=
  match n with
  | O => []
  | S n => x mod 256 :: le_bytes n (x / 256)
  end.

Fixpoint le_num (l : list Z) : Z :=
  match l with
  | [] => 0
  | b :: l => b + 256 * le_num l
  end.

Definition byte (b : Z) : Prop := fits 8 b.

Lemma length_le_bytes n x : length (le_bytes n x) = n.
Proof. revert x; induction n; naive_solver. Qed.

Lemma le_bytes_byte n x : Forall byte (le_bytes n x).
Proof.
  revert x; induction n as [|n IH]; intros x; constructor; [|done].
  unfold byte, fits. change (2 ^ 8) with 256. pose proof (Z.mod_pos_bound x 256). lia.
Qed.

Lemma le_num_le_bytes n x : fits (8 * Z.of_nat n) x → le_num (le_bytes n x) = x.
Proof.
  revert x; induction n as [|n IH]; intros x Hx; cbn.
  { unfold fits in Hx. cbn in Hx. lia. }
  rewrite IH; [pose proof (Z.div_mod x 256); lia|].
  unfold fits in *. replace (8 * Z.of_nat (S n)) with (8 + 8 * Z.of_nat n) in Hx by lia.
  rewrite Z.pow_add_r in Hx by lia. change (2 ^ 8) with 256 in Hx.
  split; [apply Z.div_pos; lia|apply Z.div_lt_upper_bound; lia].
Qed.

Lemma le_num_range l : Forall byte l → 0 ≤ le_num l < 256 ^ Z.of_nat (length l).
Proof.
  induction 1 as [|b l Hb _ IH]; cbn -[Z.pow]; [lia|].
  rewrite Nat2Z.inj_succ, Z.pow_succ_r by lia.
  unfold byte, fits in Hb. change (2 ^ 8) with 256 in Hb. lia.
Qed.

Lemma le_bytes_inj n x y :
  fits (8 * Z.of_nat n) x → fits (8 * Z.of_nat n) y → le_bytes n x = le_bytes n y → x = y.
Proof.
  intros Hx Hy H. by rewrite <- (le_num_le_bytes n x), <- (le_num_le_bytes n y), H.
Qed.

(** The field [x] of a packed structure [pre ++ x ++ post]. *)
Lemma take_drop_field {A} (pre x post : list A) n m :
  n = length pre → m = length x → take m (drop n (pre ++ x ++ post)) = x.
Proof. intros -> ->. by rewrite drop_app_length, take_app_length. Qed.

Lemma length_concat_const {A B} (f : A → list B) n l :
  (∀ x, length (f x) = n) → length (concat (f <$> l)) = (n * length l)%nat.
Proof.
  intros Hf. induction l as [|x l IH]; cbn; [lia|]. rewrite length_app, Hf, IH. lia.
Qed.

(** ** Loops that stop at the first element satisfying a test

    Most loops of the source scan an array and act on the first slot that
    satisfies a condition: [first_index] is that scan. *)

Fixpoint first_index {A} (p : A → bool) (l : list A) : option nat :=
  match l with
  | [] => None
  | x :: l => if p x then Some O else S <$> first_index p l
  end.

Section first_index.
Context {A : Type} (p : A → bool).
Implicit Types (l : list A) (x : A) (i j : nat).

Lemma first_index_Some l i :
  first_index p l = Some i ↔
  (∃ x, l !! i = Some x ∧ p x = true) ∧
  (∀ j y, (j < i)%nat → l !! j = Some y → p y = false).
Proof.
  revert i; induction l as [|x l IH]; intros i; cbn.
  { split; [done|]. intros [(? & ? & ?) _]. done. }
  destruct (p x) eqn:Hp; split.
  - intros [= <-]. split; [eauto|lia].
  - intros [_ H]. destruct i as [|i]; [done|].
    specialize (H 0%nat x ltac:(lia) eq_refl). congruence.
  - intros (i' & Hi & ->)%fmap_Some. apply IH in Hi as [(y & ? & ?) Hj].
    split; [eauto|]. intros [|j] z Hlt Hz; simplify_eq/=; [done|]. apply (Hj j z); [lia|done].
  - intros [(y & Hy & Hpy) H]. destruct i as [|i]; simplify_eq/=; [congruence|].
    apply fmap_Some. exists i; split; [|done]. apply IH.
    split; [eauto|]. intros j z Hj Hz. apply (H (S j) z); [lia|done].
Qed.

Lemma first_index_None l : first_index p l = None ↔ ∀ j y, l !! j = Some y → p y = false.
Proof.
  induction l as [|x l IH]; cbn; [naive_solver|].
  destruct (p x) eqn:Hp.
  { split; [done|]. intros H. specialize (H 0%nat x eq_refl). congruence. }
  rewrite fmap_None, IH. split; [intros H [|j] y; cbn; naive_solver|].
  intros H j y. apply (H (S j) y).
Qed.

Lemma first_index_lt l i : first_index p l = Some i → (i < length l)%nat.
Proof. intros [(x & Hx & _) _]%first_index_Some. by eapply lookup_lt_Some. Qed.
End first_index.

Lemma first_index_app {A} (p : A → bool) l1 l2 :
  first_index p (l1 ++ l2) =
  match first_index p l1 with
  | Some i => Some i
  | None => Nat.add (length l1) <$> first_index p l2
  end.
Proof.
  induction l1 as [|x l1 IH]; cbn; [by destruct (first_index p l2)|].
  destruct (p x); [done|]. rewrite IH.
  destruct (first_index p l1); [done|]. by destruct (first_index p l2).
Qed.

Lemma first_index_ext {A} (p q : A → bool) l :
  (∀ x, x ∈ l → p x = q x) → first_index p l = first_index q l.
Proof.
  induction l as [|x l IH]; intros H; cbn; [done|].
  rewrite (H x), IH; [done| |]; set_solver.
Qed.

(** ** Counting *)

Definition countb {A} (p : A → bool) (l : list A) : nat := length (filter (λ x, p x = true) l).

Lemma countb_cons {A} (p : A → bool) x l :
  countb p (x :: l) = ((if p x then 1 else 0) + countb p l)%nat.
Proof.
  unfold countb. rewrite filter_cons. destruct (p x); case_decide; cbn; congruence.
Qed.

Lemma countb_app {A} (p : A → bool) l1 l2 :
  countb p (l1 ++ l2) = (countb p l1 + countb p l2)%nat.
Proof. unfold countb. by rewrite filter_app, length_app. Qed.

Lemma countb_le {A} (p : A → bool) l : (countb p l ≤ length l)%nat.
Proof. unfold countb. apply length_filter. Qed.

Lemma countb_insert {A} (p : A → bool) l i x y :
  l !! i = Some x →
  (countb p (<[i:=y]> l) + (if p x then 1 else 0) = countb p l + (if p y then 1 else 0))%nat.
Proof.
  revert i; induction l as [|z l IH]; intros [|i] H; try done.
  - injection H as ->. change (<[0%nat:=y]> (x :: l)) with (y :: l).
    rewrite !countb_cons. destruct (p x), (p y); lia.
  - change (<[S i:=y]> (z :: l)) with (z :: <[i:=y]> l). rewrite !countb_cons. specialize (IH i H). lia.
Qed.

Lemma countb_full {A} (p : A → bool) l :
  countb p l = length l → ∀ i x, l !! i = Some x → p x = true.
Proof.
  induction l as [|z l IH]; intros H i x Hx; [done|].
  rewrite countb_cons in H. pose proof (countb_le p l). cbn in H.
  destruct (p z) eqn:E; [|lia]. destruct i as [|i]; simplify_eq/=; [done|].
  apply (IH ltac:(lia) i x Hx).
Qed.

Lemma countb_all {A} (p : A → bool) l : Forall (λ x, p x = true) l → countb p l = length l.
Proof. induction 1 as [|x l Hx _ IH]; [done|]. by rewrite countb_cons, Hx, IH. Qed.

Lemma countb_none {A} (p : A → bool) l : Forall (λ x, p x = false) l → countb p l = 0%nat.
Proof. induction 1 as [|x l Hx _ IH]; [done|]. by rewrite countb_cons, Hx, IH. Qed.

Lemma countb_lt_ex {A} (p : A → bool) l :
  (countb p l < length l)%nat → ∃ i x, l !! i = Some x ∧ p x = false.
Proof.
  induction l as [|z l IH]; intros H; [cbn in H; lia|].
  rewrite countb_cons in H. cbn in H. destruct (p z) eqn:E.
  - destruct IH as (i & x & ? & ?); [lia|]. by exists (S i), x.
  - by exists 0%nat, z.
Qed.

(** Set bits of a mask among its low [n] bits ([__builtin_popcount]). *)
Definition popcount (n : nat) (x : Z) : nat := countb (λ i, Z.testbit x i) (seqZ 0 (Z.of_nat n)).

Lemma countb_disjoint {A} (p q : A → bool) l :
  (∀ x, x ∈ l → p x = true → q x = false) → (countb p l + countb q l ≤ length l)%nat.
Proof.
  induction l as [|x l IH]; intros H; [done|]. rewrite !countb_cons. cbn [length].
  pose proof (IH (λ y Hy, H y (list_elem_of_further y x l Hy))) as Hl.
  pose proof (H x (list_elem_of_here x l)) as Hx.
  destruct (p x); [rewrite Hx by done; lia|]. destruct (q x); lia.
Qed.

(** Masks with no bit from [n] on: only the low [n] bits count. *)
Lemma popcount_low n m x :
  (n ≤ m)%nat → (∀ i, Z.of_nat n ≤ i → Z.testbit x i = false) → popcount m x = popcount n x.
Proof.
  intros Hnm H. unfold popcount. replace (Z.of_nat m) with (Z.of_nat n + Z.of_nat (m - n)) by lia.
  rewrite seqZ_app, countb_app by lia. rewrite (countb_none _ (seqZ _ (Z.of_nat (m - n)))); [lia|].
  apply Forall_forall. intros i Hi%elem_of_seqZ. apply H. lia.
Qed.

(** Two masks over [n] positions with more than [n] bits in all share one. *)
Lemma popcount_intersect n x y :
  (n < popcount n x + popcount n y)%nat →
  ∃ i, 0 ≤ i < Z.of_nat n ∧ Z.testbit x i = true ∧ Z.testbit y i = true.
Proof.
  intros H. unfold popcount in H.
  destruct (decide (Exists (λ i, Z.testbit x i = true ∧ Z.testbit y i = true) (seqZ 0 (Z.of_nat n))))
    as [(i & Hi%elem_of_seqZ & ? & ?)%Exists_exists|Hno].
  { exists i. split_and!; [lia|lia|done|done]. }
  exfalso. pose proof (countb_disjoint (λ i, Z.testbit x i) (λ i, Z.testbit y i) (seqZ 0 (Z.of_nat n))) as Hd.
  rewrite length_seqZ, Nat2Z.id in Hd. enough (n < n)%nat by lia. eapply Nat.lt_le_trans; [exact H|]. apply Hd.
  intros i Hi Hx. apply not_true_is_false. intros Hy. apply Hno, Exists_exists. eauto.
Qed.

(** Replacing an element moves at most one image in or out of an [omap]. *)
Lemma omap_insert {A B} (f : A → option B) l i x y :
  l !! i = Some x → option_list (f x) ++ omap f (<[i := y]> l) ≡ₚ option_list (f y) ++ omap f l.
Proof.
  intros Hi. pose proof (lookup_lt_Some _ _ _ Hi).
  rewrite insert_take_drop by done. rewrite <- (take_drop_middle l i x Hi) at 3.
  rewrite !omap_app. cbn. destruct (f x), (f y); cbn; solve_Permutation.
Qed.

Lemma elem_of_concat {A} (x : A) (ls : list (list A)) : x ∈ concat ls ↔ ∃ l, x ∈ l ∧ l ∈ ls.
Proof.
  induction ls as [|l ls IH]; cbn; [set_solver|]. rewrite elem_of_app, IH. set_solver.
Qed.

(** ** Relations between all pairs of a list *)

Section pairwise.
Context {A : Type} (R : A → A → Prop).

Definition pairwise (l : list A) : Prop :=
  ∀ i j a b, i ≠ j → l !! i = Some a → l !! j = Some b → R a b.

Lemma pairwise_app_l l1 l2 : pairwise (l1 ++ l2) → pairwise l1.
Proof. intros H i j a b Hij Ha Hb. apply (H i j a b Hij); by apply lookup_app_l_Some. Qed.

Lemma pairwise_insert l k x :
  pairwise l → (∀ j a, j ≠ k → l !! j = Some a → R a x ∧ R x a) → pairwise (<[k := x]> l).
Proof.
  intros Hp Hx i j a b Hij Ha Hb.
  apply list_lookup_insert_Some in Ha as [(-> & -> & _)|[Hi Ha]], Hb as [(-> & -> & _)|[Hj Hb]];
    [done|by apply (Hx j)|by apply (Hx i)|by apply (Hp i j)].
Qed.

Lemma pairwise_snoc l x :
  pairwise l → (∀ a, a ∈ l → R a x ∧ R x a) → pairwise (l ++ [x]).
Proof.
  intros Hp Hx i j a b Hij Ha Hb.
  apply lookup_app_Some in Ha as [Ha|[? Ha]], Hb as [Hb|[? Hb]].
  - by apply (Hp i j).
  - apply list_lookup_singleton_Some in Hb as [? <-]. apply Hx. by eapply list_elem_of_lookup_2.
  - apply list_lookup_singleton_Some in Ha as [? <-]. apply Hx. by eapply list_elem_of_lookup_2.
  - apply list_lookup_singleton_Some in Ha as [? <-], Hb as [? <-]. lia.
Qed.

Lemma pairwise_cons x l :
  pairwise l → (∀ a, a ∈ l → R a x ∧ R x a) → pairwise (x :: l).
Proof.
  intros Hp Hx [|i] [|j] a b Hij Ha Hb; simplify_eq/=.
  - apply Hx. by eapply list_elem_of_lookup_2.
  - apply Hx. by eapply list_elem_of_lookup_2.
  - apply (Hp i j); [congruence|done|done].
Qed.

Lemma pairwise_Permutation l l' : pairwise l → l' ≡ₚ l → pairwise l'.
Proof.
  intros Hp (_ & f & Hf & E)%Permutation_inj i j a b Hij Ha Hb. rewrite E in Ha, Hb. eapply (Hp (f i) (f j)); [|done..].
  by intros ?%(inj f).
Qed.

Lemma pairwise_app_in l1 l2 a b : pairwise (l1 ++ l2) → a ∈ l1 → b ∈ l2 → R a b.
Proof.
  intros Hp [i Hi]%list_elem_of_lookup [j Hj]%list_elem_of_lookup.
  apply (Hp i (length l1 + j)%nat).
  - pose proof (lookup_lt_Some _ _ _ Hi). lia.
  - by apply lookup_app_l_Some.
  - by rewrite lookup_app_r, Nat.add_comm, Nat.add_sub by lia.
Qed.
End pairwise.

(** ** Arrays in ascending key order *)

Section ascending.
Context {A : Type} (num : A → Z).

Definition ascending : list A → Prop := StronglySorted (λ a b, num a < num b).

Lemma ascending_unique l1 l2 : ascending l1 → ascending l2 → l1 ≡ₚ l2 → l1 = l2.
Proof.
  intros H1; revert l2. induction H1 as [|x l1 Hl1 IH Hx]; intros l2 H2 Hp.
  { by apply Permutation_nil_l in Hp as ->. }
  destruct H2 as [|y l2 Hl2 Hy]; [by apply Permutation_nil_r in Hp|].
  assert (num x ≤ num y) as Hxy.
  { assert (y ∈ x :: l1) as [->|Hin]%elem_of_cons by (rewrite Hp; constructor); [lia|].
    rewrite Forall_forall in Hx. specialize (Hx y Hin). lia. }
  assert (x ∈ y :: l2) as [->|Hin]%elem_of_cons by (rewrite <- Hp; constructor).
  - f_equal. apply IH; [done|]. by apply (Permutation_cons_inv (a := y)).
  - rewrite Forall_forall in Hy. specialize (Hy x Hin). lia.
Qed.

Lemma ascending_NoDup l : ascending l → NoDup (num <$> l).
Proof.
  induction 1 as [|x l _ IH Hx]; cbn; constructor; [|done].
  intros (y & Hy & Hin)%list_elem_of_fmap. rewrite Forall_forall in Hx.
  specialize (Hx y Hin). lia.
Qed.

Lemma ascending_lookup l i j a b :
  ascending l → (i < j)%nat → l !! i = Some a → l !! j = Some b → num a < num b.
Proof.
  intros H. revert i j. induction H as [|x l _ IH Hx]; intros i j Hij Ha Hb; [done|].
  destruct j as [|j]; [lia|]. destruct i as [|i]; simplify_eq/=.
  - rewrite Forall_forall in Hx. apply Hx. by eapply list_elem_of_lookup_2.
  - apply (IH i j); [lia|done|done].
Qed.

Lemma ascending_fmap l : ascending l ↔ StronglySorted Z.lt (num <$> l).
Proof.
  unfold ascending. split.
  - induction 1 as [|x l _ IH Hx]; cbn; constructor; [done|]. by apply Forall_fmap.
  - induction l as [|x l IH]; cbn; [constructor|]. intros [H Hx]%StronglySorted_inv.
    constructor; [by apply IH|]. exact (proj1 (Forall_fmap _ _ _) Hx).
Qed.

(** Replacing an element by one with the same key. *)
Lemma ascending_insert l i x y :
  l !! i = Some x → num y = num x → ascending l → ascending (<[i:=y]> l).
Proof.
  intros Hi Hxy. rewrite !ascending_fmap, list_fmap_insert, Hxy.
  by rewrite list_insert_id by (by rewrite list_lookup_fmap, Hi).
Qed.

Lemma ascending_inj l i j x y :
  ascending l → l !! i = Some x → l !! j = Some y → num x = num y → i = j.
Proof.
  intros Ha Hi Hj E. destruct (Nat.lt_total i j) as [H|[H|H]]; [|done|].
  - pose proof (ascending_lookup l i j x y Ha H Hi Hj). lia.
  - pose proof (ascending_lookup l j i y x Ha H Hj Hi). lia.
Qed.

Lemma elem_of_ascending_insert l i x y z :
  l !! i = Some x → num y = num x → ascending l →
  z ∈ <[i:=y]> l ↔ z = y ∨ z ∈ l ∧ num z ≠ num y.
Proof.
  intros Hi Hxy Ha. pose proof (lookup_lt_Some _ _ _ Hi) as Hlt. split.
  - intros [j Hj]%list_elem_of_lookup. destruct (decide (j = i)) as [->|Hne].
    + rewrite list_lookup_insert_eq in Hj by done. left. congruence.
    + rewrite list_lookup_insert_ne in Hj by done. right.
      split; [by eapply list_elem_of_lookup_2|]. intros E. apply Hne.
      eapply ascending_inj; [done|done|done|congruence].
  - intros [->|[[j Hj]%list_elem_of_lookup E]].
    + eapply list_elem_of_lookup_2. by apply list_lookup_insert_eq.
    + eapply list_elem_of_lookup_2. rewrite list_lookup_insert_ne; [done|].
      intros ->. congruence.
Qed.

Lemma ascending_app l1 l2 :
  ascending (l1 ++ l2) ↔
  ascending l1 ∧ ascending l2 ∧ (∀ a b, a ∈ l1 → b ∈ l2 → num a < num b).
Proof.
  unfold ascending. induction l1 as [|x l1 IH]; cbn.
  { split; [intros H; split_and!; [constructor|done|set_solver]|by intros (_ & ? & _)]. }
  split.
  - intros [H Hx]%StronglySorted_inv. apply IH in H as (H1 & H2 & H3).
    apply Forall_app in Hx as [Hx1 Hx2]. split_and!; [by constructor|done|].
    intros a b [->|Ha]%elem_of_cons Hb; [|by apply H3]. by apply (proj1 (Forall_forall _ _) Hx2).
  - intros ([H1 Hx]%StronglySorted_inv & H2 & H3). constructor.
    + apply IH. split_and!; try done. intros a b Ha. apply H3. by right.
    + apply Forall_app. split; [done|]. apply Forall_forall. intros b Hb.
      apply H3; [by left|done].
Qed.
End ascending.

(** ** [std::sort]

    The source sorts arrays whose keys are distinct, where every sorting
    algorithm returns the same array ([std_sort_unique]). *)

Section std_sort.
Context {A : Type} (lt : A → A → bool).

Fixpoint sort_insert (x : A) (l : list A) : list A :=
  match l with
  | [] => [x]
  | y :: l => if lt y x then y :: sort_insert x l else x :: y :: l
  end.

Fixpoint std_sort (l : list A) : list A :=
  match l with
  | [] => []
  | x :: l => sort_insert x (std_sort l)
  end.

Lemma sort_insert_perm x l : sort_insert x l ≡ₚ x :: l.
Proof.
  induction l as [|y l IH]; cbn; [done|]. destruct (lt y x); [|done].
  rewrite IH. apply Permutation_swap.
Qed.

Lemma std_sort_perm l : std_sort l ≡ₚ l.
Proof. induction l as [|x l IH]; cbn; [done|]. by rewrite sort_insert_perm, IH. Qed.

Lemma length_std_sort l : length (std_sort l) = length l.
Proof. apply Permutation_length, std_sort_perm. Qed.

(** The comparison is the order of an integer. *)
Context (num : A → Z) (lt_num : ∀ a b, lt a b = (num a <? num b)).

Lemma sort_insert_ascending x l :
  num x ∉ num <$> l → ascending num l → ascending num (sort_insert x l).
Proof.
  intros Hx Hl. induction Hl as [|y l Hl IH Hy]; cbn; [repeat constructor|].
  rewrite fmap_cons, not_elem_of_cons in Hx. destruct Hx as [Hne Hx].
  rewrite lt_num. destruct (Z.ltb_spec (num y) (num x)).
  - constructor; [by apply IH|]. rewrite sort_insert_perm. by constructor.
  - constructor; [by constructor|]. constructor; [lia|].
    eapply Forall_impl; [exact Hy|]. cbn. lia.
Qed.

Lemma std_sort_ascending l : NoDup (num <$> l) → ascending num (std_sort l).
Proof.
  induction l as [|x l IH]; cbn; [constructor|].
  intros [Hx Hl]%NoDup_cons. apply sort_insert_ascending; [|by apply IH].
  by rewrite std_sort_perm.
Qed.

Lemma std_sort_unique l l' : NoDup (num <$> l) → ascending num l' → l' ≡ₚ l → std_sort l = l'.
Proof.
  intros Hn Ha Hp. apply (ascending_unique num); [by apply std_sort_ascending|done|].
  by rewrite std_sort_perm, Hp.
Qed.

End std_sort.

(** ** Tactics *)

(** Split a chain of monadic binds that returned [Ok]. *)
Ltac inv_ok :=
  repeat match goal with
  | H : mbind _ _ = Ok _ |- _ =>
      apply bind_Ok in H; let a := fresh "r" in destruct H as (a & ? & H); cbv beta in H
  | H : require _ = Ok _ |- _ => apply require_Ok in H
  | H : at_index _ _ = Ok _ |- _ => apply at_index_Ok in H
  | H : Ok _ = Ok _ |- _ => injection H as H; subst
  | H : Err _ = Ok _ |- _ => discriminate H
  | H : mret _ = Ok _ |- _ => unfold mret, result_ret in H
  end.

(** One step of a monadic computation whose outcome is known. *)
Ltac m_step E := etrans; [eapply M_bind_eq; apply E|]; cbv beta iota.

(** Turn boolean comparisons of the code into propositions. *)
Ltac to_prop :=
  repeat match goal with
  | H : (_ && _)%bool = true |- _ => apply andb_prop in H as [? ?]
  | H : (_ =? _) = true |- _ => apply Z.eqb_eq in H
  | H : (_ =? _) = false |- _ => apply Z.eqb_neq in H
  | H : (_ <? _) = true |- _ => apply Z.ltb_lt in H
  | H : (_ <? _) = false |- _ => apply Z.ltb_ge in H
  | H : (_ <=? _) = true |- _ => apply Z.leb_le in H
  | H : (_ <=? _) = false |- _ => apply Z.leb_gt in H
  | H : negb _ = true |- _ => apply negb_true_iff in H
  | H : negb _ = false |- _ => apply negb_false_iff in H
  end.
