(* ===== verification/KVConfig.v ===== *)
(** * Keys and values ([SkipVectorDM/include/KVConfig.h])

    A key is a block of [KEY_SIZE] bytes compared with [memcmp]; a value is a
    64-bit integer, 0 being the null value.  [key_num] reads a key as a
    big-endian integer: [memcmp] orders keys as it orders these integers, so
    every ordering argument of the development is integer arithmetic. *)

From S2P Require Import Prelude.
Open Scope Z_scope.

Definition KEY_SIZE : nat := 24.
Definition VALUE_SIZE : nat := 8.

Definition key_ok (l : list Z) : bool :=
  (length l =? KEY_SIZE)%nat && forallb (λ b, (0 <=? b) && (b <? 256)) l.

(** [class KeyType { char key[KEY_SIZE]; }]: the bytes, as [memcmp] reads them
    (unsigned). *)
Record KeyType := MkKey { key : list Z; key_wf : key_ok key = true }.
Abbreviation Key := KeyType.

(** [struct ValueType { uint64_t value; }]. *)
Abbreviation Value := Z (only parsing).

(** [KeyType(const char* k) { memcpy(key, k, KEY_SIZE); }] on a buffer of the
    bytes that follow [k]; [memcpy] past the buffer is undefined. *)
Definition KeyType_of_chars (k : list Z) : result Key :=
  match bool_dec (key_ok (take KEY_SIZE k)) true with
  | left wf => Ok (MkKey (take KEY_SIZE k) wf)
  | right _ => Err OutOfBounds
  end.

(** [str2key]: the buffer of [k.c_str()] is the string and its terminator. *)
Definition str2key (k : list Z) : result Key := KeyType_of_chars (k ++ [0]).

Definition KeyNull : Key := MkKey (replicate KEY_SIZE 0) eq_refl.
Definition KeyMax : Key := MkKey (replicate KEY_SIZE 122) eq_refl.
Definition ValueNull : Value := 0.

(** [memcmp(a, b, n)] of the C library: the sign of the first difference. *)
Fixpoint memcmp (a b : list Z) (n : nat) : Z :=
  match n, a, b with
  | S n, x :: a, y :: b => if x =? y then memcmp a b n else x - y
  | _, _, _ => 0
  end.

Definition key_ltb (a b : Key) : bool := memcmp (key a) (key b) KEY_SIZE <? 0.
Definition key_gtb (a b : Key) : bool := memcmp (key a) (key b) KEY_SIZE >? 0.
Definition key_eqb (a b : Key) : bool := memcmp (key a) (key b) KEY_SIZE =? 0.
Definition key_geb (a b : Key) : bool := memcmp (key a) (key b) KEY_SIZE >=? 0.
Definition key_leb (a b : Key) : bool := memcmp (key a) (key b) KEY_SIZE <=? 0.
Definition key_neqb (a b : Key) : bool := negb (memcmp (key a) (key b) KEY_SIZE =? 0).

(** ** The order *)

Fixpoint be_num (l : list Z) : Z :=
  match l with
  | [] => 0
  | b :: l => b * 256 ^ Z.of_nat (length l) + be_num l
  end.

Definition key_num (k : Key) : Z := be_num (key k).

Lemma be_num_range l : Forall byte l → 0 ≤ be_num l < 256 ^ Z.of_nat (length l).
Proof.
  induction 1 as [|b l Hb _ IH]; cbn -[Z.pow]; [lia|].
  rewrite Nat2Z.inj_succ, Z.pow_succ_r by lia.
  unfold byte, fits in Hb. change (2 ^ 8) with 256 in Hb. nia.
Qed.

Lemma memcmp_be_num a b :
  Forall byte a → Forall byte b → length a = length b →
  Z.sgn (memcmp a b (length a)) = Z.sgn (be_num a - be_num b).
Proof.
  intros Ha; revert b. induction Ha as [|x a Hx Ha IH]; intros [|y b] Hb Hl; try done.
  apply Forall_cons in Hb as [Hy Hb]. injection Hl as Hl. cbn -[Z.pow].
  rewrite <- Hl. pose proof (be_num_range _ Ha). pose proof (be_num_range _ Hb).
  rewrite <- Hl in *. set (p := 256 ^ Z.of_nat (length a)) in *.
  destruct (Z.eqb_spec x y) as [->|Hne].
  - rewrite (IH b) by done. f_equal. lia.
  - destruct (Z.lt_total x y) as [?|[?|?]]; [|done|].
    + rewrite !Z.sgn_neg; nia.
    + rewrite !Z.sgn_pos; nia.
Qed.

Lemma key_bytes (k : Key) : length (key k) = KEY_SIZE ∧ Forall byte (key k).
Proof.
  destruct k as [l wf]; cbn. unfold key_ok in wf. apply andb_prop in wf as [Hl Hb].
  split; [by apply Nat.eqb_eq in Hl|]. apply Forall_forall. intros b Hin.
  rewrite forallb_forall in Hb. specialize (Hb b). rewrite <- list_elem_of_In in Hb.
  specialize (Hb Hin). to_prop. unfold byte, fits. lia.
Qed.

Lemma length_key (k : Key) : length (key k) = KEY_SIZE.
Proof. apply key_bytes. Qed.

Lemma memcmp_key_num a b :
  Z.sgn (memcmp (key a) (key b) KEY_SIZE) = Z.sgn (key_num a - key_num b).
Proof.
  destruct (key_bytes a) as [Hla Ha], (key_bytes b) as [Hlb Hb].
  unfold key_num. rewrite <- (memcmp_be_num _ _ Ha Hb) by congruence. by rewrite Hla.
Qed.

Lemma key_num_range k : 0 ≤ key_num k < 256 ^ 24.
Proof.
  destruct (key_bytes k) as [Hl Hb]. pose proof (be_num_range _ Hb) as H.
  rewrite Hl in H. exact H.
Qed.

Lemma key_ltb_num a b : key_ltb a b = (key_num a <? key_num b).
Proof. unfold key_ltb. pose proof (memcmp_key_num a b). lia. Qed.
Lemma key_gtb_num a b : key_gtb a b = (key_num b <? key_num a).
Proof. unfold key_gtb. pose proof (memcmp_key_num a b). lia. Qed.
Lemma key_eqb_num a b : key_eqb a b = (key_num a =? key_num b).
Proof. unfold key_eqb. pose proof (memcmp_key_num a b). lia. Qed.
Lemma key_geb_num a b : key_geb a b = (key_num b <=? key_num a).
Proof. unfold key_geb. pose proof (memcmp_key_num a b). lia. Qed.
Lemma key_leb_num a b : key_leb a b = (key_num a <=? key_num b).
Proof. unfold key_leb. pose proof (memcmp_key_num a b). lia. Qed.
Lemma key_neqb_num a b : key_neqb a b = negb (key_num a =? key_num b).
Proof. unfold key_neqb. pose proof (memcmp_key_num a b). lia. Qed.

(** [keys] turns every key comparison into an integer comparison. *)
#[export] Hint Rewrite key_ltb_num key_gtb_num key_eqb_num key_geb_num key_leb_num
  key_neqb_num : keys.

Lemma key_eq (a b : Key) : key a = key b → a = b.
Proof.
  destruct a as [la wa], b as [lb wb]; cbn. intros ->. f_equal.
  apply Eqdep_dec.UIP_dec, bool_dec.
Qed.

Lemma be_num_inj a b :
  Forall byte a → Forall byte b → length a = length b → be_num a = be_num b → a = b.
Proof.
  intros Ha; revert b. induction Ha as [|x a Hx Ha IH]; intros [|y b] Hb Hl Heq; try done.
  apply Forall_cons in Hb as [Hy Hb]. injection Hl as Hl. cbn -[Z.pow] in Heq.
  pose proof (be_num_range _ Ha). pose proof (be_num_range _ Hb).
  rewrite <- Hl in *. set (p := 256 ^ Z.of_nat (length a)) in *.
  assert (x = y) as -> by nia. f_equal. apply IH; [done|done|lia].
Qed.

Lemma key_num_inj a b : key_num a = key_num b → a = b.
Proof.
  destruct (key_bytes a) as [Hla Ha], (key_bytes b) as [Hlb Hb].
  intros H. apply key_eq, be_num_inj; [done|done|congruence|done].
Qed.

#[export] Instance key_num_Inj : Inj (=) (=) key_num.
Proof. exact key_num_inj. Qed.

#[export] Instance Key_eq_dec : EqDecision Key.
Proof.
  intros a b. destruct (decide (key_num a = key_num b)) as [H|H].
  - left. by apply key_num_inj.
  - right. congruence.
Defined.

(** The key whose big-endian value is [n]. *)
Definition key_of_num (n : Z) : option Key :=
  match KeyType_of_chars (reverse (le_bytes KEY_SIZE n)) with Ok k => Some k | Err _ => None end.

Lemma be_num_snoc l x : be_num (l ++ [x]) = be_num l * 256 + x.
Proof.
  induction l as [|y l IH]; cbn -[Z.pow]; [lia|].
  rewrite IH, length_app. cbn -[Z.pow]. rewrite Nat.add_1_r, Nat2Z.inj_succ.
  rewrite Z.pow_succ_r by lia. lia.
Qed.

Lemma le_bytes_be_num l : Forall byte l → reverse (le_bytes (length l) (be_num l)) = l.
Proof.
  induction l as [|x l IH] using rev_ind; intros Hl; [done|].
  apply Forall_app in Hl as [Hl [Hx _]%Forall_cons].
  unfold byte, fits in Hx. change (2 ^ 8) with 256 in Hx.
  rewrite be_num_snoc, length_app, Nat.add_1_r. cbn [le_bytes].
  rewrite reverse_cons, Z.div_add_l, Z.div_small, Z.add_0_r, IH by done || lia.
  do 2 f_equal. rewrite Z.add_comm, Z.mod_add by lia. apply Z.mod_small. lia.
Qed.

Lemma key_of_num_num k : key_of_num (key_num k) = Some k.
Proof.
  destruct (key_bytes k) as [Hl Hb]. unfold key_of_num, key_num.
  rewrite <- Hl, le_bytes_be_num by done. unfold KeyType_of_chars.
  rewrite take_ge by lia. destruct (bool_dec _ _) as [wf|Hn].
  - f_equal. by apply key_eq.
  - by destruct Hn, k.
Qed.

#[export] Instance Key_countable : Countable Key :=
  inj_countable key_num key_of_num key_of_num_num.

Lemma key_eqb_eq (a b : Key) : key_eqb a b = true ↔ a = b.
Proof. rewrite key_eqb_num, Z.eqb_eq. split; [apply key_num_inj|congruence]. Qed.

Lemma key_eqb_neq (a b : Key) : key_eqb a b = false ↔ a ≠ b.
Proof. rewrite <- key_eqb_eq. destruct (key_eqb a b); naive_solver. Qed.

Lemma key_eqb_refl (a : Key) : key_eqb a a = true.
Proof. by apply key_eqb_eq. Qed.

Definition key_lt (a b : Key) : Prop := key_num a < key_num b.
Definition key_le (a b : Key) : Prop := key_num a ≤ key_num b.

#[export] Instance key_lt_strict : StrictOrder key_lt.
Proof. split; [intros a; unfold complement, key_lt; lia|intros a b c; unfold key_lt; lia]. Qed.

#[export] Instance key_le_total : TotalOrder key_le.
Proof.
  repeat split; unfold key_le.
  - intros a; lia.
  - intros a b c; lia.
  - intros a b ??. apply key_num_inj. lia.
  - intros a b. unfold strict.
    destruct (Z.lt_total (key_num a) (key_num b)) as [|[|]]; [left; lia| |right; right; lia].
    right; left. by apply key_num_inj.
Qed.

#[export] Instance key_le_dec a b : Decision (key_le a b).
Proof. unfold key_le. apply _. Defined.

(** Key comparisons of the code as integer comparisons, then [lia]. *)
Ltac key_lia :=
  autorewrite with keys in *; unfold key_lt, key_le in *;
  repeat match goal with
  | H : @eq KeyType ?a ?b |- _ => apply (f_equal key_num) in H
  | |- @eq KeyType ?a ?b => apply key_num_inj
  end; lia.

Lemma KeyNull_num : key_num KeyNull = 0.
Proof. vm_compute. reflexivity. Qed.

Lemma KeyNull_least (k : Key) : key_leb KeyNull k = true.
Proof. rewrite key_leb_num, KeyNull_num. pose proof (key_num_range k). lia. Qed.
