(* ===== verification/RdmaConfig.v ===== *)
(** * Global addresses and registered buffers ([SkipVectorDM/include/RdmaConfig.h])

    [Gaddr] is the 64-bit address of a byte of the disaggregated memory: a
    16-bit node and a 48-bit offset packed in one word.  [RdmaBuffer] carves the
    registered memory of one coroutine into rings of buffers. *)

From S2P Require Import Prelude.
Open Scope Z_scope.

Definition MAX_THREAD_NUM : Z := 4.
Definition NR_DIRECTORY : Z := 1.
Definition MAX_MACHINE_NUM : Z := 8.

(** ** [namespace define] *)

Definition KB : Z := 1024.
Definition MB : Z := 1024 * 1024.
Definition GB : Z := 1024 * MB.
Definition kChunkSize : Z := 32 * MB.
Definition kRootPointerStoreOffest : Z := kChunkSize / 2.
Definition kLockStartAddr : Z := 0.
Definition kLockChipMemSize : Z := 128 * 1024.
Definition kNumOfLock : Z := kLockChipMemSize / 8.
Definition kLocalLockNum : Z := 4 * MB.
Definition rdmaBufferSize : Z := 2.
Definition kMaxCoro : Z := 8.
Definition kPerThreadRdmaBuf : Z := rdmaBufferSize * GB / MAX_THREAD_NUM.
Definition kPerCoroRdmaBuf : Z := kPerThreadRdmaBuf / kMaxCoro.
Definition kMemoryize : Z := 1024 * 8.
Definition kInnerCacheSize : Z := kMemoryize / 2.
Definition kLeafCacheSize : Z := kMemoryize / 2.

(** ** [class Gaddr] *)

Record Gaddr := MkGaddr { nodeID : Z; offset : Z }.

#[export] Instance Gaddr_eq_dec : EqDecision Gaddr.
Proof. solve_decision. Defined.

#[export] Instance Gaddr_countable : Countable Gaddr :=
  inj_countable' (λ g, (nodeID g, offset g)) (λ p, MkGaddr p.1 p.2)
    (λ g, match g with MkGaddr _ _ => eq_refl end).

(** The constructor [Gaddr(uint64_t n, uint64_t o)]: the bit-fields truncate. *)
Definition Gaddr_make (n o : Z) : Gaddr := MkGaddr (u16 n) (wrap 48 o).
Definition Gaddr_Null : Gaddr := Gaddr_make 0 0.

(** The [val] member of the union: [nodeID] is the low 16 bits. *)
Definition gaddr_val (g : Gaddr) : Z := Z.lor (nodeID g) (Z.shiftl (offset g) 16).
Definition gaddr_of_val (v : Z) : Gaddr :=
  MkGaddr (Z.land v (Z.ones 16)) (Z.land (Z.shiftr v 16) (Z.ones 48)).

Definition gaddr_eqb (lhs rhs : Gaddr) : bool :=
  (nodeID lhs =? nodeID rhs) && (offset lhs =? offset rhs).
Definition gaddr_neqb (lhs rhs : Gaddr) : bool := negb (gaddr_eqb lhs rhs).

Definition gaddr_wf (g : Gaddr) : Prop := fits 16 (nodeID g) ∧ fits 48 (offset g).

#[export] Instance gaddr_wf_dec g : Decision (gaddr_wf g).
Proof. unfold gaddr_wf. apply _. Defined.

Lemma gaddr_eqb_eq a b : gaddr_eqb a b = true ↔ a = b.
Proof.
  destruct a, b. unfold gaddr_eqb; cbn. rewrite andb_true_iff, !Z.eqb_eq. naive_solver.
Qed.

Lemma gaddr_eqb_neq a b : gaddr_eqb a b = false ↔ a ≠ b.
Proof. rewrite <- gaddr_eqb_eq. destruct (gaddr_eqb a b); naive_solver. Qed.

Lemma gaddr_eqb_refl a : gaddr_eqb a a = true.
Proof. by apply gaddr_eqb_eq. Qed.

Lemma Gaddr_make_wf n o : gaddr_wf (Gaddr_make n o).
Proof. split; apply wrap_fits; lia. Qed.

Lemma gaddr_val_sum g : gaddr_wf g → gaddr_val g = nodeID g + offset g * 2 ^ 16.
Proof.
  intros [Hn Ho]. by apply lor_shiftl.
Qed.

Lemma gaddr_of_val_divmod v : gaddr_of_val v = MkGaddr (v mod 2 ^ 16) ((v / 2 ^ 16) mod 2 ^ 48).
Proof.
  unfold gaddr_of_val. by rewrite !Z.land_ones, Z.shiftr_div_pow2 by lia.
Qed.

Lemma gaddr_val_fits g : gaddr_wf g → fits 64 (gaddr_val g).
Proof.
  intros H. rewrite gaddr_val_sum by done. destruct H as [[] []]. unfold fits in *.
  change (2 ^ 64) with (2 ^ 16 * 2 ^ 48). lia.
Qed.

Lemma gaddr_of_val_val g : gaddr_wf g → gaddr_of_val (gaddr_val g) = g.
Proof.
  intros H. rewrite gaddr_of_val_divmod, gaddr_val_sum by done.
  destruct g as [n o], H as [Hn Ho]; cbn in *; unfold fits in *.
  rewrite Z.mod_add, Z.mod_small, Z.div_add, Z.div_small, Z.add_0_l by lia.
  by rewrite Z.mod_small by lia.
Qed.

Lemma gaddr_val_of_val v : fits 64 v → gaddr_val (gaddr_of_val v) = v.
Proof.
  intros Hv. rewrite gaddr_val_sum, gaddr_of_val_divmod; cbn.
  - unfold fits in Hv. rewrite (Z.mod_small (v / 2 ^ 16)).
    + pose proof (Z.div_mod v (2 ^ 16)). lia.
    + split; [apply Z.div_pos; lia|apply Z.div_lt_upper_bound; lia].
  - rewrite gaddr_of_val_divmod. split; apply Z.mod_pos_bound; lia.
Qed.

Lemma gaddr_val_inj a b : gaddr_wf a → gaddr_wf b → gaddr_val a = gaddr_val b → a = b.
Proof.
  intros Ha Hb H. by rewrite <- (gaddr_of_val_val a), <- (gaddr_of_val_val b), H.
Qed.

(** Packing a node and an offset in the 64-bit word of the union loses
    nothing: every address constructed by [Gaddr(n, o)] is read back from its
    [val], every 64-bit word is the [val] of the address read from it, and the
    comparison of addresses is the comparison of the words. *)
Theorem gaddr_roundtrip :
  (∀ n o, gaddr_of_val (gaddr_val (Gaddr_make n o)) = Gaddr_make n o) ∧
  (∀ v, fits 64 v → gaddr_val (gaddr_of_val v) = v ∧ gaddr_wf (gaddr_of_val v)) ∧
  (∀ a b, gaddr_wf a → gaddr_wf b →
     gaddr_eqb a b = (gaddr_val a =? gaddr_val b) ∧ fits 64 (gaddr_val a)).
Proof.
  split_and!.
  - intros n o. apply gaddr_of_val_val, Gaddr_make_wf.
  - intros v Hv. split; [by apply gaddr_val_of_val|]. rewrite gaddr_of_val_divmod.
    split; apply Z.mod_pos_bound; lia.
  - intros a b Ha Hb. split; [|by apply gaddr_val_fits].
    destruct (gaddr_eqb a b) eqn:E.
    + apply gaddr_eqb_eq in E as ->. by rewrite Z.eqb_refl.
    + apply gaddr_eqb_neq in E. symmetry. apply Z.eqb_neq.
      intros H. by apply E, gaddr_val_inj.
Qed.

(** ** [class RdmaBuffer] *)

Module RdmaBuffer.

Definition kPageBufferCnt : Z := 8.
Definition kSiblingBufferCnt : Z := 8.
Definition kCasBufferCnt : Z := 64.

(** The pointers of the class, as byte addresses. *)
Record t := Mk {
  buffer : Z;
  cas_buffer : Z;
  unlock_buffer : Z;
  zero_64bit : Z;
  page_buffer : Z;
  sibling_buffer : Z;
  entry_buffer : Z;
  page_buffer_cur : Z;
  sibling_buffer_cur : Z;
  cas_buffer_cur : Z;
  kPageSize : Z }.

(** [set_buffer(char* buffer)]: the cursors are left as they are. *)
Definition set_buffer (s : t) (buf : Z) : result t :=
  let kPageSize := 2 * KB in
  let cas := buf in
  let unlock := cas + 8 * kCasBufferCnt in
  let zero := unlock + 8 in
  let page := zero + 8 in
  let sibling := page + kPageSize * kPageBufferCnt in
  let entry := sibling + kPageSize * kSiblingBufferCnt in
  require (zero + 8 - buf <? kPerCoroRdmaBuf) ≫= λ _,
  Ok (Mk buf cas unlock zero page sibling entry
        (page_buffer_cur s) (sibling_buffer_cur s) (cas_buffer_cur s) kPageSize).

(** [RdmaBuffer(char* buffer)]. *)
Definition make (buf : Z) : result t :=
  s ← set_buffer (Mk 0 0 0 0 0 0 0 0 0 0 0) buf;
  Ok (Mk (buffer s) (cas_buffer s) (unlock_buffer s) (zero_64bit s) (page_buffer s)
        (sibling_buffer s) (entry_buffer s) 0 0 0 (kPageSize s)).

Definition get_cas_buffer (s : t) : Z * t :=
  let cur := (cas_buffer_cur s + 1) mod kCasBufferCnt in
  (cas_buffer s + 8 * cur,
   Mk (buffer s) (cas_buffer s) (unlock_buffer s) (zero_64bit s) (page_buffer s)
     (sibling_buffer s) (entry_buffer s) (page_buffer_cur s) (sibling_buffer_cur s) cur
     (kPageSize s)).

Definition get_page_buffer (s : t) : Z * t :=
  let cur := (page_buffer_cur s + 1) mod kPageBufferCnt in
  (page_buffer s + cur * kPageSize s,
   Mk (buffer s) (cas_buffer s) (unlock_buffer s) (zero_64bit s) (page_buffer s)
     (sibling_buffer s) (entry_buffer s) cur (sibling_buffer_cur s) (cas_buffer_cur s)
     (kPageSize s)).

Definition get_sibling_buffer (s : t) : Z * t :=
  let cur := (sibling_buffer_cur s + 1) mod kSiblingBufferCnt in
  (sibling_buffer s + cur * kPageSize s,
   Mk (buffer s) (cas_buffer s) (unlock_buffer s) (zero_64bit s) (page_buffer s)
     (sibling_buffer s) (entry_buffer s) (page_buffer_cur s) cur (cas_buffer_cur s)
     (kPageSize s)).

(** [n] calls of [get_page_buffer], and the buffers they return. *)
Fixpoint page_buffers (n : nat) (s : t) : list Z :=
  match n with
  | O => []
  | S n => let '(p, s) := get_page_buffer s in p :: page_buffers n s
  end.

(** What [set_buffer] establishes and the getters keep. *)
Record wf (s : t) : Prop := {
  wf_page_size : kPageSize s = 2 * KB;
  wf_cas : cas_buffer s = buffer s;
  wf_page : page_buffer s = buffer s + 8 * kCasBufferCnt + 16;
  wf_sibling : sibling_buffer s = page_buffer s + kPageSize s * kPageBufferCnt;
  wf_entry : entry_buffer s = sibling_buffer s + kPageSize s * kSiblingBufferCnt;
  wf_page_cur : 0 ≤ page_buffer_cur s < kPageBufferCnt;
  wf_sibling_cur : 0 ≤ sibling_buffer_cur s < kSiblingBufferCnt;
  wf_cas_cur : 0 ≤ cas_buffer_cur s < kCasBufferCnt }.

Lemma make_wf buf : ∃ s, make buf = Ok s ∧ wf s ∧ buffer s = buf.
Proof.
  eexists. split; [|split].
  - unfold make, set_buffer. cbn [mbind result_bind].
    assert (∀ z, z + 8 * kCasBufferCnt + 8 + 8 - z <? kPerCoroRdmaBuf = true) as ->.
    { intros z. apply Z.ltb_lt. unfold kCasBufferCnt. change kPerCoroRdmaBuf with 67108864. lia. }
    cbn. reflexivity.
  - constructor; cbn; try done; unfold KB, kPageBufferCnt, kSiblingBufferCnt, kCasBufferCnt; lia.
  - done.
Qed.

Lemma get_page_buffer_wf s : wf s → wf (get_page_buffer s).2.
Proof. intros []. constructor; cbn; try done. by apply Z.mod_pos_bound. Qed.

Lemma get_sibling_buffer_wf s : wf s → wf (get_sibling_buffer s).2.
Proof. intros []. constructor; cbn; try done. by apply Z.mod_pos_bound. Qed.

Lemma get_cas_buffer_wf s : wf s → wf (get_cas_buffer s).2.
Proof. intros []. constructor; cbn; try done. by apply Z.mod_pos_bound. Qed.

Lemma page_buffers_spec n s i p :
  0 ≤ page_buffer_cur s →
  page_buffers n s !! i = Some p →
  p = page_buffer s + (page_buffer_cur s + Z.of_nat i + 1) mod kPageBufferCnt * kPageSize s.
Proof.
  revert s i. induction n as [|n IH]; intros s i Hc; [done|].
  cbn [page_buffers get_page_buffer]. destruct i as [|i]; intros H; simplify_eq/=.
  - by rewrite Z.add_0_r.
  - apply IH in H; [|cbn; by apply Z.mod_pos_bound]. rewrite H. cbn.
    f_equal. f_equal. rewrite <- !Z.add_assoc, Zplus_mod_idemp_l. f_equal. lia.
Qed.

(** The registered memory of a coroutine.  [RdmaBuffer(buf)] never trips
    its assertion and lays the CAS ring, the page ring and the sibling ring out
    disjointly inside the [kPerCoroRdmaBuf] bytes of the coroutine; each
    [get_*_buffer] returns a slot inside its own ring; and the buffers returned
    by any [kPageBufferCnt] consecutive [get_page_buffer] calls are pairwise
    disjoint, so that many page reads can be in flight. *)
Theorem rdma_buffer_layout buf :
  ∃ s, make buf = Ok s ∧ wf s ∧
  (∀ s', wf s' → buffer s' = buf →
    let c := (get_cas_buffer s').1 in
    let p := (get_page_buffer s').1 in
    let b := (get_sibling_buffer s').1 in
    buf ≤ c ∧ c + 8 ≤ page_buffer s' ∧
    page_buffer s' ≤ p ∧ p + 2 * KB ≤ sibling_buffer s' ∧
    sibling_buffer s' ≤ b ∧ b + 2 * KB ≤ entry_buffer s' ∧
    entry_buffer s' ≤ buf + kPerCoroRdmaBuf ∧
    wf (get_cas_buffer s').2 ∧ wf (get_page_buffer s').2 ∧ wf (get_sibling_buffer s').2) ∧
  (∀ s' n i j p q, wf s' →
    (i < j)%nat → (j < i + Z.to_nat kPageBufferCnt)%nat →
    page_buffers n s' !! i = Some p → page_buffers n s' !! j = Some q →
    p + 2 * KB ≤ q ∨ q + 2 * KB ≤ p).
Proof.
  destruct (make_wf buf) as (s & Hm & Hs & _). exists s. split; [done|]. split; [done|]. split.
  - intros s' Hs' <-. pose proof (get_cas_buffer_wf _ Hs'). pose proof (get_page_buffer_wf _ Hs').
    pose proof (get_sibling_buffer_wf _ Hs'). destruct Hs'. cbn -[KB kPerCoroRdmaBuf].
    pose proof (Z.mod_pos_bound (cas_buffer_cur s' + 1) kCasBufferCnt eq_refl).
    pose proof (Z.mod_pos_bound (page_buffer_cur s' + 1) kPageBufferCnt eq_refl).
    pose proof (Z.mod_pos_bound (sibling_buffer_cur s' + 1) kSiblingBufferCnt eq_refl).
    change kPerCoroRdmaBuf with 67108864.
    unfold KB, kCasBufferCnt, kPageBufferCnt, kSiblingBufferCnt in *. split_and!; try done; lia.
  - intros s' n i j p q Hwf Hij Hji Hp Hq.
    apply page_buffers_spec in Hp as ->; [|apply Hwf].
    apply page_buffers_spec in Hq as ->; [|apply Hwf].
    destruct Hwf as [-> _ _ _ _ Hc _ _].
    change (Z.to_nat kPageBufferCnt) with 8%nat in Hji. change kPageBufferCnt with 8 in *.
    unfold KB. Z.to_euclidean_division_equations. lia.
Qed.

End RdmaBuffer.
