(* ===== verification/Hash.v ===== *)
(** * Hash functions ([SkipVectorDM/include/third_party/hash.h])

    The 32-bit MurmurHash3 and the 64-bit FNV hash the index uses to compute
    key fingerprints and cache slots, on the bytes of the hashed object. *)

From S2P Require Import Prelude.
Open Scope Z_scope.

Definition UINT32_MAX : Z := 2 ^ 32 - 1.
Definition UINT8_MAX : Z := 255.

Definition kHashSeed0 : Z := 0xcc9e2d51.

Definition rotl32 (x r : Z) : Z := Z.lor (u32 (Z.shiftl x r)) (Z.shiftr x (32 - r)).

Definition fmix32 (h : Z) : Z :=
  let h := Z.lxor h (Z.shiftr h 16) in
  let h := u32 (h * 0x85ebca6b) in
  let h := Z.lxor h (Z.shiftr h 13) in
  let h := u32 (h * 0xc2b2ae35) in
  Z.lxor h (Z.shiftr h 16).

Definition murmur_c1 : Z := 0xcc9e2d51.
Definition murmur_c2 : Z := 0x1b873593.

(** [k1 *= c1; k1 = rotl32(k1, 15); k1 *= c2]. *)
Definition murmur_k (k1 : Z) : Z := u32 (rotl32 (u32 (k1 * murmur_c1)) 15 * murmur_c2).

(** The loop over the 4-byte blocks. *)
Fixpoint murmur_blocks (nblocks : nat) (data : list Z) (h1 : Z) : Z :=
  match nblocks with
  | O => h1
  | S n =>
      let h1 := Z.lxor h1 (murmur_k (le_num (take 4 data))) in
      murmur_blocks n (drop 4 data) (u32 (rotl32 h1 13 * 5 + 0xe6546b64))
  end.

(** The [switch (len & 3)], whose cases fall through. *)
Definition murmur_tail (r : Z) (tail : list Z) : Z :=
  let t i := nth i tail 0 in
  let k1 := if 3 <=? r then Z.shiftl (t 2%nat) 16 else 0 in
  let k1 := if 2 <=? r then Z.lxor k1 (Z.shiftl (t 1%nat) 8) else k1 in
  if 1 <=? r then murmur_k (Z.lxor k1 (t 0%nat)) else 0.

Definition MurmurHash3_x86_32 (data : list Z) (len seed : Z) : Z :=
  let nblocks := Z.to_nat (len / 4) in
  let h1 := murmur_blocks nblocks data seed in
  let h1 := Z.lxor h1 (murmur_tail (Z.land len 3) (drop (4 * nblocks) data)) in
  fmix32 (Z.lxor h1 len).

Definition kFNVOffsetBasis64 : Z := 0xCBF29CE484222325.
Definition kFNVPrime64 : Z := 1099511628211.

Fixpoint FNVHash64_loop (n : nat) (val hash : Z) : Z :=
  match n with
  | O => hash
  | S n =>
      let octet := Z.land val 0x00ff in
      FNVHash64_loop n (Z.shiftr val 8) (u64 (Z.lxor hash octet * kFNVPrime64))
  end.

Definition FNVHash64 (val : Z) : Z := FNVHash64_loop 8 val kFNVOffsetBasis64.

(** ** Ranges *)

Lemma fits_testbit w x : 0 ≤ w → 0 ≤ x → (fits w x ↔ ∀ i, w ≤ i → Z.testbit x i = false).
Proof.
  intros Hw Hx. split.
  - intros H i Hi. rewrite <- (Z.mod_small x (2 ^ w)) by done. by apply Z.mod_pow2_bits_high.
  - intros H. split; [done|].
    assert (x = x mod 2 ^ w) as ->; [|apply Z.mod_pos_bound; lia].
    apply Z.bits_inj'. intros i Hi. destruct (Z.lt_ge_cases i w).
    + by rewrite Z.mod_pow2_bits_low.
    + rewrite H by lia. symmetry. apply Z.mod_pow2_bits_high. lia.
Qed.

Lemma lxor_fits w x y : 0 ≤ w → fits w x → fits w y → fits w (Z.lxor x y).
Proof.
  intros Hw Hx Hy. apply fits_testbit; [done| |].
  - apply Z.lxor_nonneg. unfold fits in *. lia.
  - intros i Hi. rewrite Z.lxor_spec.
    rewrite (proj1 (fits_testbit w x Hw ltac:(apply Hx)) Hx i Hi).
    by rewrite (proj1 (fits_testbit w y Hw ltac:(apply Hy)) Hy i Hi).
Qed.

Lemma shiftr_fits w x n : 0 ≤ w → 0 ≤ n → fits w x → fits w (Z.shiftr x n).
Proof.
  intros Hw Hn [H1 H2]. rewrite Z.shiftr_div_pow2 by done. split.
  - apply Z.div_pos; [done|]. apply Z.pow_pos_nonneg; lia.
  - apply Z.le_lt_trans with x; [|done]. apply Z.div_le_upper_bound.
    + apply Z.pow_pos_nonneg; lia.
    + assert (0 < 2 ^ n) by (apply Z.pow_pos_nonneg; lia). nia.
Qed.

#[export] Hint Resolve lxor_fits shiftr_fits : mach.

Lemma fmix32_fits h : fits 32 h → fits 32 (fmix32 h).
Proof. intros H. unfold fmix32. apply lxor_fits; auto 10 with mach. Qed.

Lemma FNVHash64_fits val : fits 64 (FNVHash64 val).
Proof. unfold FNVHash64. cbn [FNVHash64_loop]. apply wrap_fits. lia. Qed.

(** ** [fmix32] is a permutation *)

(** [x ^= x >> n] is undone by xoring [x] shifted by every multiple of [n]. *)
Lemma xorshift16_inv x : fits 32 x →
  let y := Z.lxor x (Z.shiftr x 16) in Z.lxor y (Z.shiftr y 16) = x.
Proof.
  intros [? ?] y. subst y. rewrite Z.shiftr_lxor, Z.shiftr_shiftr by lia. cbn [Z.add].
  assert (Z.shiftr x (16 + 16) = 0) as ->.
  { rewrite Z.shiftr_div_pow2 by lia. apply Z.div_small. lia. }
  rewrite Z.lxor_0_r, Z.lxor_assoc, Z.lxor_nilpotent. apply Z.lxor_0_r.
Qed.

Lemma xorshift13_inv x : fits 32 x →
  let y := Z.lxor x (Z.shiftr x 13) in
  Z.lxor y (Z.lxor (Z.shiftr y 13) (Z.shiftr y 26)) = x.
Proof.
  intros [? ?] y. subst y. rewrite !Z.shiftr_lxor, !Z.shiftr_shiftr by lia.
  assert (Z.shiftr x (13 + 26) = 0) as ->.
  { rewrite Z.shiftr_div_pow2 by lia. apply Z.div_small. lia. }
  change (13 + 13) with 26. rewrite Z.lxor_0_r, (Z.lxor_assoc (Z.shiftr x 13)).
  rewrite Z.lxor_nilpotent, Z.lxor_0_r, Z.lxor_assoc, Z.lxor_nilpotent. apply Z.lxor_0_r.
Qed.

Lemma mul_odd_inv x c d : fits 32 x → (c * d) mod 2 ^ 32 = 1 → u32 (u32 (x * c) * d) = x.
Proof.
  intros Hx Hc. unfold wrap. rewrite Zmult_mod_idemp_l, <- Z.mul_assoc, Zmult_mod, Hc.
  rewrite Z.mul_1_r, Zmod_mod. by apply Z.mod_small.
Qed.

Definition fmix32_inv (h : Z) : Z :=
  let h := Z.lxor h (Z.shiftr h 16) in
  let h := u32 (h * 0x7ed1b41d) in
  let h := Z.lxor h (Z.lxor (Z.shiftr h 13) (Z.shiftr h 26)) in
  let h := u32 (h * 0xa5cb9243) in
  Z.lxor h (Z.shiftr h 16).

(** The finaliser of MurmurHash3 is a permutation of the 32-bit words:
    [fmix32_inv] undoes it, so it never makes two different hash states
    collide, and its result is a 32-bit word. *)
Theorem fmix32_permutation h :
  fits 32 h → fits 32 (fmix32 h) ∧ fmix32_inv (fmix32 h) = h.
Proof.
  intros H. split; [by apply fmix32_fits|]. unfold fmix32_inv, fmix32.
  rewrite xorshift16_inv by auto with mach.
  rewrite mul_odd_inv; [|auto with mach|reflexivity].
  rewrite xorshift13_inv by auto with mach.
  rewrite mul_odd_inv; [|auto with mach|reflexivity].
  by apply xorshift16_inv.
Qed.

Lemma fmix32_permutation_witness :
  fits 32 0xdeadbeef ∧ fmix32 0xdeadbeef = 0x0de5c6a9 ∧ fmix32_inv (fmix32 0xdeadbeef) = 0xdeadbeef.
Proof.
  assert (fits 32 0xdeadbeef) as H by (unfold fits; lia).
  split; [done|]. split; [vm_compute; reflexivity|].
  exact (proj2 (fmix32_permutation 0xdeadbeef H)).
Defined.
