(* ===== verification/LeafNode.v ===== *)
(** * Leaf nodes ([SkipVectorDM/include/LeafNode.h])

    A leaf is a header followed by an array of entries; beside it lives a
    fingerprint table, one byte per entry, with a version, a checksum and a
    lock word.  The structures are packed, so a block of memory is the
    concatenation of the bytes of its fields. *)

From S2P Require Import Prelude KVConfig RdmaConfig Hash.
Open Scope Z_scope.

(** The hash functions of the CityHash library, which is not part of the
    repository. *)
Class CityHash := {
  CityHash32 : list Z → Z;
  CityHash64 : list Z → Z }.

Definition LeafNodeCapacity : Z := 32.
Definition MaxNodeCapacity : Z := 128.

Definition gaddr_bytes (g : Gaddr) : list Z := le_bytes 8 (gaddr_val g).

(** ** [class Entry] *)

Module Entry.

Record t := Mk {
  valid : Z;      (* : 8 *)
  version : Z;    (* : 56 *)
  key : Key;
  value : Value }.

Definition bytes (e : t) : list Z :=
  le_bytes 8 (Z.lor (valid e) (Z.shiftl (version e) 8)) ++ KVConfig.key (key e) ++
  le_bytes 8 (value e).

Definition size_of : Z := 40.

(** The entry [memset] leaves behind. *)
Definition zero : t := Mk 0 0 KeyNull 0.

Definition get_version (e : t) : Z := version e.

(** Without [ENABLE_ENTRY_CRC] an entry carries no checksum. *)
Definition set_consistent (e : t) : t := e.
Definition check_consistent (e : t) : bool := true.

Definition add_version (e : t) : t :=
  set_consistent (Mk (valid e) (wrap 56 (version e + 1)) (key e) (value e)).
Definition set_version (e : t) (v : Z) : t :=
  set_consistent (Mk (valid e) (wrap 56 v) (key e) (value e)).

(** [bool search(k, v)]: the result and the new content of [v]. *)
Definition search (e : t) (k : Key) : bool * Value :=
  if (valid e =? 1) && key_eqb (key e) k then (true, value e) else (false, ValueNull).

Definition insert (e : t) (k : Key) (v : Value) : bool * t :=
  if valid e =? 0 then (true, set_consistent (Mk 1 (version e) k v))
  else if key_eqb (key e) k then (true, set_consistent (Mk (valid e) (version e) (key e) v))
  else (false, e).

Definition clean (e : t) : result t :=
  require (valid e =? 1) ≫= λ _,
  Ok (set_consistent (Mk 0 (version e) KeyNull (value e))).

#[export] Instance eq_dec : EqDecision t.
Proof. solve_decision. Defined.

Lemma length_entry_bytes e : Z.of_nat (length (bytes e)) = size_of.
Proof.
  unfold bytes. rewrite !length_app, !length_le_bytes.
  by rewrite (proj1 (key_bytes (key e))).
Qed.

(** One slot of a leaf behaves as a cell for one key.  A slot is either
    free ([valid = 0]) or taken ([valid = 1]).  [insert k v] succeeds exactly
    when the slot is free or already holds [k]; then [search k] finds [v],
    [search] of any other key fails with the null value, and the version is
    kept; when it fails the slot is unchanged.  [clean] frees a taken slot. *)
Theorem entry_insert_search e k v :
  valid e = 0 ∨ valid e = 1 →
  let '(ok, e') := insert e k v in
  (ok = true ↔ valid e = 0 ∨ key e = k) ∧
  (ok = true → valid e' = 1 ∧ key e' = k ∧ version e' = version e ∧
    ∀ k', search e' k' = if key_eqb k k' then (true, v) else (false, ValueNull)) ∧
  (ok = false → e' = e ∧ search e' k = (false, ValueNull)) ∧
  (valid e = 1 → ∃ e0, clean e = Ok e0 ∧ valid e0 = 0 ∧ version e0 = version e ∧
    ∀ k', search e0 k' = (false, ValueNull)).
Proof.
  intros Hv. destruct (insert e k v) as [ok e'] eqn:Hi. unfold insert, set_consistent in Hi.
  assert (valid e = 1 → ∃ e0, clean e = Ok e0 ∧ valid e0 = 0 ∧ version e0 = version e ∧
    ∀ k', search e0 k' = (false, ValueNull)) as Hclean.
  { intros H1. eexists. unfold clean. by rewrite H1. }
  destruct Hv as [H0|H1].
  - rewrite H0 in Hi. injection Hi as <- <-. rewrite H0.
    refine (conj _ (conj _ (conj _ _))); [naive_solver| |done|done].
    intros _. split_and!; done.
  - rewrite H1 in Hi. cbn in Hi. destruct (key_eqb (key e) k) eqn:Hk; injection Hi as <- <-.
    + apply key_eqb_eq in Hk as <-. refine (conj _ (conj _ (conj _ Hclean))); [naive_solver| |done].
      intros _. split_and!; done.
    + pose proof Hk as Hne. apply key_eqb_neq in Hne.
      refine (conj _ (conj _ (conj _ Hclean))); [naive_solver lia|done|].
      intros _. split; [done|]. unfold search. by rewrite Hk, andb_false_r.
Qed.

Lemma entry_insert_search_witness :
  let e := Mk 1 5 KeyNull 7 in
  insert e KeyNull 9 = (true, Mk 1 5 KeyNull 9) ∧
  (true = true ↔ valid e = 0 ∨ key e = KeyNull) ∧
  insert e KeyMax 9 = (false, e) ∧
  (false = true ↔ valid e = 0 ∨ key e = KeyMax).
Proof.
  intros e. split; [by vm_compute|].
  split; [exact (proj1 (entry_insert_search e KeyNull 9 (or_intror eq_refl)))|].
  split; [by vm_compute|].
  exact (proj1 (entry_insert_search e KeyMax 9 (or_intror eq_refl))).
Defined.

End Entry.

(** [class EntryPos]: a key and its value, ordered by key ([entry_cmp]). *)
Record EntryPos := MkEntryPos { ep_key : Key; ep_value : Value }.
Definition EntryPos_of (e : Entry.t) : EntryPos := MkEntryPos (Entry.key e) (Entry.value e).
Definition entry_cmp (a b : EntryPos) : bool := key_ltb (ep_key a) (ep_key b).

(** ** [class LeafHeader] *)

Module LeafHeader.

Record t := Mk {
  max_key : Key;
  min_key : Key;
  capacity : Z;        (* int *)
  version : Z;         (* int *)
  right_addr : Gaddr;
  right_fp_addr : Gaddr;
  right_capacity : Z }.

(** [LeafHeader()]: the two addresses are not initialised; [g1] and [g2] are
    what the memory held. *)
Definition make (g1 g2 : Gaddr) : t := Mk KeyMax KeyNull 0 0 g1 g2 0.

Definition update_right (h : t) (r_a r_fp_a : Gaddr) (r_c : Z) : t :=
  Mk (max_key h) (min_key h) (capacity h) (version h) r_a r_fp_a r_c.

Definition bytes (h : t) : list Z :=
  key (max_key h) ++ key (min_key h) ++ le_bytes 4 (capacity h) ++ le_bytes 4 (version h) ++
  gaddr_bytes (right_addr h) ++ gaddr_bytes (right_fp_addr h) ++ le_bytes 8 (right_capacity h).

Definition size_of : Z := 80.

Lemma length_header_bytes h : Z.of_nat (length (bytes h)) = size_of.
Proof.
  unfold bytes, gaddr_bytes. rewrite !length_app, !length_le_bytes.
  by rewrite (proj1 (key_bytes (max_key h))), (proj1 (key_bytes (min_key h))).
Qed.

End LeafHeader.

(** ** [class FPTable] *)

Module FPTable.

Section FPTable.
Context {CH : CityHash}.

Record t := Mk {
  version : Z;
  fp : list Z;
  crc : Z;
  lock : Z }.

(** [capacity] is the number of fingerprints the view was attached with. *)
Definition capacity (s : t) : Z := Z.of_nat (length (fp s)).

Definition bytes (s : t) : list Z :=
  le_bytes 8 (version s) ++ fp s ++ le_bytes 8 (crc s) ++ le_bytes 8 (lock s).

(** [attach(buffer, c)]: the four pointers into the buffer, read as fields. *)
Definition attach (buf : list Z) (c : Z) : t :=
  let n := Z.to_nat c in
  Mk (le_num (take 8 buf))
     (take n (drop 8 buf))
     (le_num (take 8 (drop (8 + n) buf)))
     (le_num (take 8 (drop (16 + n) buf))).

Definition size_for (c : Z) : Z := 1 * c + 8 * 3.
Definition get_size (s : t) : Z := size_for (capacity s).
Definition lock_offset_for (c : Z) : Z := size_for c - 8.
Definition get_lock_offset (s : t) : Z := lock_offset_for (capacity s).

Definition fp_used (f : Z) : bool := negb (f =? 0).
Definition get_entry_num (s : t) : Z := Z.of_nat (countb fp_used (fp s)).

(** The [crc_size] bytes that start at [version]. *)
Definition crc_bytes (s : t) : list Z := le_bytes 8 (version s) ++ fp s.

Definition set_consistent (s : t) : t :=
  Mk (version s) (fp s) (CityHash32 (crc_bytes s)) (lock s).
Definition check_consistent (s : t) : bool := u32 (crc s) =? u32 (CityHash32 (crc_bytes s)).

(** [bool insert(f, e_id)]: the slot taken, if any. *)
Definition insert (s : t) (f : Z) : option nat * t :=
  match first_index (λ x, x =? 0) (fp s) with
  | Some i => (Some i, set_consistent (Mk (version s) (<[i:=f]> (fp s)) (crc s) (lock s)))
  | None => (None, s)
  end.

Definition search (s : t) (f : Z) : option nat := first_index (λ x, x =? f) (fp s).

Definition get_version (s : t) : Z := version s.
Definition set_version (s : t) (v : Z) : t := set_consistent (Mk (u64 v) (fp s) (crc s) (lock s)).
Definition unlock (s : t) : t := Mk (version s) (fp s) (crc s) 0.
Definition clean (s : t) : t :=
  set_consistent (Mk (version s) (replicate (length (fp s)) 0) (crc s) (lock s)).

(** The table [memset] leaves behind. *)
Definition zero (c : Z) : t := Mk 0 (replicate (Z.to_nat c) 0) 0 0.

Definition wf (s : t) : Prop :=
  fits 64 (version s) ∧ Forall byte (fp s) ∧ fits 64 (crc s) ∧ fits 64 (lock s).

Lemma table_consistent s : check_consistent (set_consistent s) = true.
Proof. apply Z.eqb_refl. Qed.

Lemma length_table_bytes s : Z.of_nat (length (bytes s)) = get_size s.
Proof.
  unfold bytes, get_size, size_for, capacity. rewrite !length_app, !length_le_bytes. lia.
Qed.

Lemma insert_None s f : insert s f = (None, s) ↔ ∀ i x, fp s !! i = Some x → x ≠ 0.
Proof.
  unfold insert. split.
  - case_match eqn:H; [done|]. intros _ i x Hx.
    pose proof (proj1 (first_index_None _ _) H i x Hx) as E; cbn in E. lia.
  - intros H. assert (first_index (λ x, x =? 0) (fp s) = None) as ->; [|done].
    apply first_index_None. intros i x Hx. specialize (H i x Hx). lia.
Qed.

Lemma insert_Some s f i s' :
  insert s f = (Some i, s') →
  fp s !! i = Some 0 ∧ fp s' = <[i:=f]> (fp s) ∧ version s' = version s ∧ lock s' = lock s ∧
  check_consistent s' = true ∧ (∀ j, (j < i)%nat → fp s !! j ≠ Some 0).
Proof.
  unfold insert. case_match eqn:H; [|done]. intros [= -> <-].
  apply first_index_Some in H as [(x & Hx & H0) Hj]. to_prop. subst x.
  split_and!; try done; [apply table_consistent|].
  intros j Hlt Hfp. specialize (Hj j 0 Hlt Hfp). done.
Qed.

End FPTable.

(** The fingerprint table as a bag of slots.  [insert f] takes the first
    free slot, changes no other slot, neither version nor lock, leaves the
    checksum valid and adds one to [get_entry_num]; it fails, changing nothing,
    exactly when every slot is taken.  [search f] returns the first slot that
    holds [f], and fails exactly when none does. *)
Theorem fptable_insert_search {CH : CityHash} s f :
  f ≠ 0 →
  match insert s f with
  | (Some i, s') =>
      fp s !! i = Some 0 ∧ (∀ j, (j < i)%nat → fp s !! j ≠ Some 0) ∧
      fp s' = <[i:=f]> (fp s) ∧ version s' = version s ∧ lock s' = lock s ∧
      check_consistent s' = true ∧ get_entry_num s' = get_entry_num s + 1 ∧
      is_Some (search s' f)
  | (None, s') => s' = s ∧ get_entry_num s = capacity s
  end ∧
  match search s f with
  | Some i => fp s !! i = Some f ∧ ∀ j, (j < i)%nat → fp s !! j ≠ Some f
  | None => f ∉ fp s
  end.
Proof.
  intros Hf. split.
  - destruct (insert s f) as [[i|] s'] eqn:Hi.
    + pose proof (insert_Some s f i s' Hi) as (H0 & Hfp & Hv & Hl & Hc & Hj).
      split_and!; try done.
      * unfold get_entry_num. rewrite Hfp.
        pose proof (countb_insert fp_used (fp s) i 0 f H0) as E.
        unfold fp_used at 2 4 in E. rewrite (proj2 (Z.eqb_neq f 0) Hf) in E. cbn in E. lia.
      * unfold search. rewrite Hfp.
        destruct (first_index _ _) eqn:E; [done|].
        pose proof (proj1 (first_index_None _ _) E i f) as E'.
        rewrite list_lookup_insert_eq in E' by (by eapply lookup_lt_Some).
        specialize (E' eq_refl). cbn in E'. lia.
    + assert (s' = s) as -> by (unfold insert in Hi; case_match; congruence). split; [done|].
      unfold get_entry_num, capacity.
      destruct (decide (countb fp_used (fp s) < length (fp s))%nat) as [Hlt|Hge].
      * apply countb_lt_ex in Hlt as (i & x & Hx & H0). apply insert_None with (i := i) (x := x) in Hi; [|done].
        unfold fp_used in H0. lia.
      * pose proof (countb_le fp_used (fp s)). lia.
  - unfold search. destruct (first_index _ _) as [i|] eqn:E.
    + apply first_index_Some in E as [(x & Hx & Hfx) Hj]. to_prop. subst x. split; [done|].
      intros j Hlt Hs. specialize (Hj j f Hlt Hs). cbn in Hj. lia.
    + intros [i Hi]%list_elem_of_lookup. pose proof (proj1 (first_index_None _ _) E i f Hi) as E'. cbn in E'. lia.
Qed.

Lemma fptable_insert_search_witness :
  let H : CityHash := {| CityHash32 := λ l, foldr Z.add 0 l; CityHash64 := λ _, 0 |} in
  let s := Mk 3 [7; 0; 9] 0 0 in
  insert s 8 = (Some 1%nat, Mk 3 [7; 8; 9] 27 0) ∧ search s 9 = Some 2%nat ∧
  (fp s !! 2%nat = Some 9 ∧ ∀ j, (j < 2)%nat → fp s !! j ≠ Some 9).
Proof.
  intros H s. split; [by vm_compute|]. split; [by vm_compute|].
  exact (proj2 (fptable_insert_search s 9 ltac:(discriminate))).
Defined.

(** The byte layout of the table.  Attaching a view of capacity [c] to the
    bytes of a table of [c] fingerprints reads the same fields back, the table
    occupies [get_size] bytes, and the lock word sits at [get_lock_offset]: the
    8 bytes there are the lock, whatever the rest of the table. *)
Theorem fptable_attach_bytes s rest :
  wf s →
  attach (bytes s ++ rest) (capacity s) = s ∧
  Z.of_nat (length (bytes s)) = get_size s ∧
  take 8 (drop (Z.to_nat (get_lock_offset s)) (bytes s)) = le_bytes 8 (lock s).
Proof.
  intros (Hv & Hf & Hc & Hl).
  assert (∀ x, length (le_bytes 8 x) = 8%nat) as L8 by (intros; apply length_le_bytes).
  split_and!.
  - unfold attach, bytes, capacity. rewrite Nat2Z.id.
    rewrite <- !app_assoc. rewrite (take_app_length' (le_bytes 8 (version s))) by (by rewrite L8).
    rewrite (take_drop_field (le_bytes 8 (version s)) (fp s)) by (by rewrite ?L8).
    rewrite !(app_assoc (le_bytes 8 (version s)) (fp s)).
    rewrite (take_drop_field (_ ++ fp s) (le_bytes 8 (crc s))) by (by rewrite ?length_app, ?L8).
    rewrite (app_assoc _ (le_bytes 8 (crc s))).
    rewrite (take_drop_field (_ ++ le_bytes 8 (crc s)) (le_bytes 8 (lock s)))
      by (rewrite ?length_app, ?L8; lia).
    rewrite !le_num_le_bytes by done. by destruct s.
  - apply length_table_bytes.
  - unfold get_lock_offset, lock_offset_for, size_for, capacity, bytes.
    rewrite <- (app_nil_r (le_bytes 8 (lock s))) at 1. rewrite !app_assoc, <- (app_assoc _ (le_bytes 8 (lock s))).
    apply take_drop_field; rewrite ?length_app, ?L8; lia.
Qed.

Lemma fptable_attach_bytes_witness :
  let s := Mk 258 [7; 0; 9] 99 1 in
  bytes s = [2; 1; 0; 0; 0; 0; 0; 0; 7; 0; 9; 99; 0; 0; 0; 0; 0; 0; 0; 1; 0; 0; 0; 0; 0; 0; 0] ∧
  get_lock_offset s = 19 ∧ attach (bytes s ++ [42]) 3 = s.
Proof.
  intros s. split; [by vm_compute|]. split; [by vm_compute|].
  refine (proj1 (fptable_attach_bytes s [42] _)).
  unfold wf, byte, fits. split_and!; cbn; try lia. repeat constructor; lia.
Defined.

End FPTable.

(** ** [class LeafNode]

    The methods of a node attached with capacity [c]. *)

Module LeafNode.

Definition attach_node (capacity : Z) : result Z := require (0 <? capacity) ≫= λ _, Ok capacity.
Definition cur_node_mag (c : Z) : Z := c / LeafNodeCapacity.
Definition cur_node_size (c : Z) : Z := LeafHeader.size_of + c * Entry.size_of.
Definition get_entry_offset (e_id : Z) : Z := LeafHeader.size_of + e_id * Entry.size_of.

(** [cal_key_fp]: the fingerprint of a key. *)
Definition cal_key_fp (k : Key) : Z :=
  let hash := MurmurHash3_x86_32 (key k) (Z.of_nat KEY_SIZE) kHashSeed0 in
  let hash := u32 (FNVHash64 hash mod UINT32_MAX) in
  if u8 (Z.land (Z.shiftr hash 24) UINT8_MAX) =? 0 then 1
  else u8 (Z.land (Z.shiftr hash 24) UINT8_MAX).

(** The bytes of a leaf block: header, then entries. *)
Definition block_bytes (h : LeafHeader.t) (es : list Entry.t) : list Z :=
  LeafHeader.bytes h ++ concat (Entry.bytes <$> es).

(** The fingerprint of every key is a nonzero byte.  Zero is what marks a
    free slot of the fingerprint table, so a stored key always occupies its
    slot. *)
Theorem cal_key_fp_nonzero_byte k : 1 ≤ cal_key_fp k ≤ 255.
Proof.
  unfold cal_key_fp. set (h := Z.land _ _).
  pose proof (wrap_fits 8 h ltac:(lia)) as Hr. unfold fits in Hr.
  destruct (Z.eqb_spec (u8 h) 0); lia.
Qed.

Lemma length_concat_entry_bytes es : length (concat (Entry.bytes <$> es)) = (40 * length es)%nat.
Proof.
  induction es as [|e es IH]; [done|]. rewrite fmap_cons. cbn [concat]. rewrite length_app, IH.
  pose proof (Entry.length_entry_bytes e). unfold Entry.size_of in *. cbn [length]. lia.
Qed.

Lemma concat_entry_bytes es i e :
  es !! i = Some e →
  take 40 (drop (40 * i) (concat (Entry.bytes <$> es))) = Entry.bytes e.
Proof.
  intros Hi. rewrite <- (take_drop_middle es i e Hi) at 1.
  rewrite fmap_app, concat_app, fmap_cons. cbn [concat]. apply take_drop_field.
  - rewrite length_concat_entry_bytes, length_take. pose proof (lookup_lt_Some _ _ _ Hi). lia.
  - pose proof (Entry.length_entry_bytes e). unfold Entry.size_of in *. lia.
Qed.

(** The layout of a leaf.  A node of [c] entries occupies [cur_node_size]
    bytes, and the [sizeof(Entry)] bytes at [get_entry_offset(i)] are exactly
    the bytes of entry [i]: reading or writing one entry by its offset touches
    that entry and nothing else. *)
Theorem leaf_entry_offset h es i e :
  es !! i = Some e →
  Z.of_nat (length (block_bytes h es)) = cur_node_size (Z.of_nat (length es)) ∧
  take (Z.to_nat Entry.size_of) (drop (Z.to_nat (get_entry_offset (Z.of_nat i))) (block_bytes h es))
    = Entry.bytes e ∧
  get_entry_offset (Z.of_nat i) + Entry.size_of ≤ cur_node_size (Z.of_nat (length es)).
Proof.
  intros Hi. pose proof (LeafHeader.length_header_bytes h) as Hh. pose proof (lookup_lt_Some _ _ _ Hi).
  unfold block_bytes, cur_node_size, get_entry_offset, LeafHeader.size_of, Entry.size_of in *.
  split_and!.
  - rewrite length_app, length_concat_entry_bytes. lia.
  - replace (Z.to_nat (80 + Z.of_nat i * 40)) with (length (LeafHeader.bytes h) + 40 * i)%nat by lia.
    rewrite <- drop_drop, drop_app_length. by apply concat_entry_bytes.
  - lia.
Qed.

Lemma leaf_entry_offset_witness :
  let es := [Entry.zero; Entry.Mk 1 2 KeyMax 3] in
  es !! 1%nat = Some (Entry.Mk 1 2 KeyMax 3) ∧ get_entry_offset 1 = 120 ∧ cur_node_size 2 = 160 ∧
  take 40 (drop 120 (block_bytes (LeafHeader.make Gaddr_Null Gaddr_Null) es)) =
    Entry.bytes (Entry.Mk 1 2 KeyMax 3).
Proof.
  intros es. split; [done|]. split; [done|]. split; [done|].
  exact (proj1 (proj2 (leaf_entry_offset (LeafHeader.make Gaddr_Null Gaddr_Null) es 1
    (Entry.Mk 1 2 KeyMax 3) eq_refl))).
Defined.

End LeafNode.
