(* ===== verification/InnerTree.v ===== *)
(** * Inner nodes ([SkipVectorDM/include/InnerTree.h])

    An inner node is a header (the key interval it covers, its right sibling)
    and an array of [InnerNodeCapacity] records sorted by key; the record with
    the greatest key not above a searched key leads to the child.  Padding bytes
    of the structures are zero in the model: they enter only the checksum, which
    reads the same bytes when it is set and when it is checked. *)

From S2P Require Import Prelude KVConfig RdmaConfig LeafNode.
Open Scope Z_scope.

Definition InnerNodeCapacity : nat := 32.

(** ** [class Record] *)

Module Rec.

Record t := Mk {
  valid : Z;       (* : 8 *)
  version : Z;     (* : 56 *)
  key : Key;
  addr : Gaddr;
  fp_addr : Gaddr;
  capacity : Z }.  (* int *)

(** [Record()]: the addresses are not initialised. *)
Definition default (g1 g2 : Gaddr) : t := Mk 0 0 KeyNull g1 g2 0.

(** The copy constructor marks the copy valid. *)
Definition copy (r : t) : t := Mk 1 (version r) (key r) (addr r) (fp_addr r) (capacity r).

Definition make (k : Key) (a f_a : Gaddr) (c v : Z) : t := Mk 1 (wrap 56 v) k a f_a c.

Definition set_valid (r : t) (v : Z) : t :=
  Mk v (version r) (key r) (addr r) (fp_addr r) (capacity r).
Definition set_addr (r : t) (a : Gaddr) : t :=
  Mk (valid r) (version r) (key r) a (fp_addr r) (capacity r).
Definition set_key (r : t) (k : Key) : t :=
  Mk (valid r) (version r) k (addr r) (fp_addr r) (capacity r).

Definition bytes (r : t) : list Z :=
  le_bytes 8 (Z.lor (valid r) (Z.shiftl (version r) 8)) ++ KVConfig.key (key r) ++
  gaddr_bytes (addr r) ++ gaddr_bytes (fp_addr r) ++ le_bytes 4 (capacity r).

#[export] Instance eq_dec : EqDecision t.
Proof. solve_decision. Defined.

Definition num (r : t) : Z := key_num (key r).

(** [static bool cmp(Record a, Record b)]. *)
Definition cmp (a b : t) : bool := key_ltb (key a) (key b).

Lemma cmp_num a b : cmp a b = (num a <? num b).
Proof. apply key_ltb_num. Qed.

Lemma set_valid_id r : valid r = 1 → set_valid r 1 = r.
Proof. by destruct r; cbn; intros ->. Qed.

Lemma copy_id r : valid r = 1 → copy r = r.
Proof. by destruct r; cbn; intros ->. Qed.

End Rec.

(** ** [class InnerHeader] *)

Module InnerHeader.

Record t := Mk {
  max_key : Key;
  min_key : Key;
  right_addr : Gaddr;
  is_root : bool;
  next_is_leaf : bool }.

(** [InnerHeader()]: the sibling address is not initialised. *)
Definition make (g : Gaddr) : t := Mk KeyMax KeyNull g false false.

Definition bytes (h : t) : list Z :=
  key (max_key h) ++ key (min_key h) ++ gaddr_bytes (right_addr h) ++
  [Z.b2z (is_root h); Z.b2z (next_is_leaf h); 0; 0].

End InnerHeader.

(** ** [class InnerNode] *)

Module InnerNode.

Section InnerNode.
Context {CH : CityHash}.

Record t := Mk {
  hdr : InnerHeader.t;
  record : list Rec.t;
  crc : Z;
  lock : Z }.

(** The bytes between [hdr] and [crc], alignment padding included. *)
Definition crc_bytes (n : t) : list Z :=
  InnerHeader.bytes (hdr n) ++ concat (Rec.bytes <$> record n) ++ replicate 12 0.

Definition size_of : Z := 1752.

Definition set_consistent (n : t) : t :=
  Mk (hdr n) (record n) (CityHash32 (crc_bytes n)) (lock n).
Definition check_consistent (n : t) : bool := u32 (crc n) =? u32 (CityHash32 (crc_bytes n)).

Definition check_hdr (n : t) (k : Key) : bool :=
  key_gtb (InnerHeader.max_key (hdr n)) k && key_leb (InnerHeader.min_key (hdr n)) k.

Definition get_hdr (n : t) : InnerHeader.t := hdr n.
Definition set_hdr (n : t) (h : InnerHeader.t) : t := set_consistent (Mk h (record n) (crc n) (lock n)).
Definition get_is_root (n : t) : bool := InnerHeader.is_root (hdr n).
Definition get_lock_offset : Z := 1744.
Definition unlock (n : t) : t := Mk (hdr n) (record n) (crc n) 0.

Definition set_record (n : t) (rs : list Rec.t) : t := Mk (hdr n) rs (crc n) (lock n).

(** The node [memset] leaves behind. *)
Definition zero : t :=
  Mk (InnerHeader.Mk KeyNull KeyNull Gaddr_Null false false)
     (replicate InnerNodeCapacity (Rec.Mk 0 0 KeyNull Gaddr_Null Gaddr_Null 0)) 0 0.

Definition sort_node (n : t) : result t :=
  let count := countb (λ r, Rec.valid r =? 1) (record n) in
  require (0 <? Z.of_nat count) ≫= λ _,
  if (count =? 1)%nat then Ok n
  else Ok (set_record n (std_sort Rec.cmp (take count (record n)) ++ drop count (record n))).

(** [search(key, path, next_is_leaf)]: [record[i - 1]] is out of bounds when the
    first record is already above the key. *)
Definition search (n : t) (k : Key) : result (Rec.t * bool) :=
  let stop r := (Rec.valid r =? 0) || key_gtb (Rec.key r) k in
  let i := match first_index stop (record n) with Some i => i | None => length (record n) end in
  match i with
  | O => Err OutOfBounds
  | S i => at_index (record n) i ≫= λ path, Ok (path, InnerHeader.next_is_leaf (hdr n))
  end.

Definition insert (n : t) (r : Rec.t) : result (bool * t) :=
  match first_index (λ x, (Rec.valid x =? 0) || key_eqb (Rec.key x) (Rec.key r)) (record n) with
  | Some i =>
      at_index (record n) i ≫= λ x,
      if Rec.valid x =? 0 then
        sort_node (set_record n (<[i := Rec.set_valid r 1]> (record n))) ≫= λ n',
        Ok (true, set_consistent n')
      else Ok (true, set_consistent (set_record n (<[i := r]> (record n))))
  | None => Ok (false, n)
  end.

(** [split(true, ...)] on the node that is split: the records migrated, the
    middle record, and what the node keeps. *)
Definition split_origin (n : t) : result (list Rec.t * Rec.t * t) :=
  let half_id := (InnerNodeCapacity / 2)%nat in
  at_index (record n) half_id ≫= λ record_pos,
  let mig_records := Rec.copy record_pos :: (Rec.copy <$> drop (half_id + 1) (record n)) in
  let kept := take half_id (record n) ++
    ((λ r, Rec.set_valid r 0) <$> drop half_id (record n)) in
  Ok (mig_records, record_pos, set_consistent (set_record n kept)).

(** [split(false, ...)] on the new sibling. *)
Definition split_sibling (n : t) (mig_records : list Rec.t) : result t :=
  if (length mig_records <=? length (record n))%nat then
    Ok (set_consistent (set_record n
      (((λ r, Rec.set_valid r 1) <$> mig_records) ++ drop (length mig_records) (record n))))
  else Err OutOfBounds.

Definition scan (n : t) : list Rec.t :=
  Rec.copy <$> filter (λ r, Rec.valid r ≠ 0) (record n).

(** ** What a node represents

    [node_rep n live]: the records of [n] are the valid records [live], in
    ascending key order, followed by invalid ones. *)
Record node_rep (n : t) (live : list Rec.t) : Prop := {
  rep_record : record n = live ++ drop (length live) (record n);
  rep_length : length (record n) = InnerNodeCapacity;
  rep_live : Forall (λ r, Rec.valid r = 1) live;
  rep_free : Forall (λ r, Rec.valid r = 0) (drop (length live) (record n));
  rep_asc : ascending Rec.num live }.

(** The node as a finite map from separator keys to children. *)
Definition rec_map (live : list Rec.t) : gmap Key Rec.t :=
  list_to_map ((λ r, (Rec.key r, r)) <$> live).

(** ** Lemmas *)

Lemma node_consistent n : check_consistent (set_consistent n) = true.
Proof. apply Z.eqb_refl. Qed.

Lemma length_crc_bytes n :
  length (record n) = InnerNodeCapacity → Z.of_nat (length (crc_bytes n)) = size_of - 8 - 8.
Proof.
  intros Hl. unfold crc_bytes, InnerHeader.bytes, gaddr_bytes.
  assert (∀ rs, length (concat (Rec.bytes <$> rs)) = (52 * length rs)%nat) as Hrs.
  { clear. induction rs as [|r rs IH]; [done|]. rewrite fmap_cons. cbn [concat].
    rewrite length_app, IH. unfold Rec.bytes, gaddr_bytes. rewrite !length_app, !length_le_bytes.
    rewrite (proj1 (key_bytes _)). unfold KEY_SIZE. cbn [length]. lia. }
  rewrite !length_app, Hrs, Hl, !length_le_bytes, length_replicate.
  by rewrite !(proj1 (key_bytes _)).
Qed.

(** A node is made of two lists: the converse of [node_rep]. *)
Lemma node_rep_intro n live rest :
  record n = live ++ rest → length (live ++ rest) = InnerNodeCapacity →
  Forall (λ r, Rec.valid r = 1) live → Forall (λ r, Rec.valid r = 0) rest →
  ascending Rec.num live → node_rep n live.
Proof.
  intros Hr Hl Hlive Hfree Hasc.
  constructor; rewrite ?Hr, ?drop_app_length; done.
Qed.

Lemma node_rep_set_consistent n live : node_rep n live → node_rep (set_consistent n) live.
Proof. by intros []; constructor. Qed.

Lemma node_rep_le n live : node_rep n live → (length live ≤ InnerNodeCapacity)%nat.
Proof. intros [Hr Hl _ _ _]. rewrite <- Hl, Hr, length_app. lia. Qed.

Lemma elem_of_rec_map live k r :
  ascending Rec.num live → rec_map live !! k = Some r ↔ r ∈ live ∧ Rec.key r = k.
Proof.
  intros Ha. unfold rec_map. rewrite <- elem_of_list_to_map.
  - rewrite list_elem_of_fmap. split; [intros (? & [= -> ->] & ?); done|].
    intros [? <-]. by exists r.
  - rewrite <- list_fmap_compose. cbn. apply ascending_NoDup in Ha.
    eapply NoDup_fmap_1 with key_num. by rewrite <- list_fmap_compose.
Qed.

Lemma rec_map_None live k :
  rec_map live !! k = None ↔ ∀ r, r ∈ live → Rec.key r ≠ k.
Proof.
  unfold rec_map. rewrite <- not_elem_of_list_to_map, <- list_fmap_compose. cbn.
  rewrite list_elem_of_fmap. naive_solver.
Qed.

(** Two ascending arrays with the same map are the same array. *)
Lemma rec_map_insert live live' r :
  ascending Rec.num live → ascending Rec.num live' →
  (∀ x, x ∈ live' ↔ x = r ∨ x ∈ live ∧ Rec.key x ≠ Rec.key r) →
  rec_map live' = <[Rec.key r := r]> (rec_map live).
Proof.
  intros Ha Ha' Hin. apply map_eq. intros k. apply option_eq. intros x.
  rewrite (elem_of_rec_map live' k x Ha'), Hin, lookup_insert_Some, (elem_of_rec_map live k x Ha).
  destruct (decide (Rec.key r = k)) as [<-|Hne]; naive_solver.
Qed.

Lemma search_spec n live k r0 :
  node_rep n live → live !! 0%nat = Some r0 → Rec.num r0 ≤ key_num k →
  ∃ i r, live !! i = Some r ∧ Rec.num r ≤ key_num k ∧
    (∀ j r', (i < j)%nat → live !! j = Some r' → key_num k < Rec.num r') ∧
    search n k = Ok (r, InnerHeader.next_is_leaf (hdr n)).
Proof.
  intros [Hr Hl Hlive Hfree Ha] H0 Hk. unfold search.
  set (stop := λ r, (Rec.valid r =? 0) || key_gtb (Rec.key r) k).
  assert (∀ r, r ∈ live → stop r = (key_num k <? Rec.num r)) as Hstop.
  { intros r Hin. rewrite Forall_forall in Hlive. unfold stop.
    by rewrite (Hlive r Hin), key_gtb_num. }
  set (i := match first_index stop (record n) with Some i => i | None => length (record n) end).
  assert (∃ j, i = S j ∧ (i ≤ length live)%nat ∧
    (∀ m r, live !! m = Some r → if (m <? i)%nat then Rec.num r ≤ key_num k else key_num k < Rec.num r))
    as (j & Hij & Hle & Hcmp).
  { assert ((i ≤ length live)%nat ∧
      (∀ m r, live !! m = Some r → if (m <? i)%nat then Rec.num r ≤ key_num k else key_num k < Rec.num r))
      as [Hle Hcmp].
    { subst i. rewrite Hr, first_index_app. destruct (first_index stop live) as [i|] eqn:Hi.
      - pose proof (first_index_lt _ _ _ Hi). split; [lia|].
        apply first_index_Some in Hi as [(x & Hx & Hsx) Hj]. intros m r Hm.
        rewrite Hstop in Hsx by (by eapply list_elem_of_lookup_2). to_prop.
        destruct (Nat.ltb_spec m i) as [Hmi|Hmi].
        + specialize (Hj m r Hmi Hm). rewrite Hstop in Hj by (by eapply list_elem_of_lookup_2).
          by to_prop.
        + destruct (decide (m = i)) as [->|]; [congruence|].
          pose proof (ascending_lookup Rec.num live i m x r Ha ltac:(lia) Hx Hm). lia.
      - assert (∀ m r, live !! m = Some r → Rec.num r ≤ key_num k ∧ (m < length live)%nat) as Hall.
        { intros m r Hm. split; [|by eapply lookup_lt_Some].
          pose proof (proj1 (first_index_None _ _) Hi m r Hm) as E.
          rewrite Hstop in E by (by eapply list_elem_of_lookup_2). by to_prop. }
        assert (match Nat.add (length live) <$> first_index stop (drop (length live) (record n)) with
          | Some i => i | None => length (live ++ drop (length live) (record n)) end = length live) as ->.
        { destruct (drop (length live) (record n)) as [|x rest] eqn:Hd; cbn.
          - by rewrite app_nil_r.
          - apply Forall_cons in Hfree as [Hx _]. unfold stop. rewrite Hx. cbn. lia. }
        split; [done|]. intros m r Hm. destruct (Hall m r Hm) as [? ?].
        by rewrite (proj2 (Nat.ltb_lt _ _)) by done. }
    destruct i as [|j]; [|by exists j]. specialize (Hcmp 0%nat r0 H0). cbn in Hcmp. lia. }
  rewrite Hij. destruct (lookup_lt_is_Some_2 live j ltac:(lia)) as [r Hjr].
  exists j, r. split_and!; [done| | |].
  - specialize (Hcmp j r Hjr). by rewrite (proj2 (Nat.ltb_lt _ _)) in Hcmp by lia.
  - intros m r' Hm Hr'. specialize (Hcmp m r' Hr').
    by rewrite (proj2 (Nat.ltb_ge _ _)) in Hcmp by lia.
  - unfold at_index. rewrite Hr, lookup_app_l, Hjr by lia. done.
Qed.

Lemma search_below n live k :
  node_rep n live → (∀ r0, live !! 0%nat = Some r0 → key_num k < Rec.num r0) →
  search n k = Err OutOfBounds.
Proof.
  intros [Hr Hl Hlive Hfree Ha] H0. unfold search. rewrite Hr.
  destruct live as [|r0 live].
  - cbn in Hfree |- *. rewrite drop_0 in *. destruct (record n) as [|x rs]; [done|].
    apply Forall_cons in Hfree as [Hx _]. cbn. by rewrite Hx.
  - specialize (H0 r0 eq_refl). cbn. rewrite key_gtb_num. fold (Rec.num r0).
    rewrite (proj2 (Z.ltb_lt _ _) H0), orb_true_r. done.
Qed.

Lemma elem_of_key_num (live : list Rec.t) k :
  k ∈ Rec.key <$> live ↔ ∃ i r, live !! i = Some r ∧ Rec.key r = k.
Proof.
  rewrite list_elem_of_fmap. setoid_rewrite list_elem_of_lookup. naive_solver.
Qed.

Lemma insert_present n live r i x :
  node_rep n live → Rec.valid r = 1 → live !! i = Some x → Rec.key x = Rec.key r →
  insert n r = Ok (true, set_consistent (set_record n (<[i:=r]> (record n)))) ∧
  node_rep (set_record n (<[i:=r]> (record n))) (<[i:=r]> live).
Proof.
  intros [Hr Hl Hlive Hfree Ha] Hv Hi Hx.
  pose proof (lookup_lt_Some _ _ _ Hi) as Hlt.
  assert (Rec.valid x = 1) as Hvx.
  { rewrite Forall_forall in Hlive. apply Hlive. by eapply list_elem_of_lookup_2. }
  assert (record n !! i = Some x) as Hri by (by rewrite Hr, lookup_app_l).
  split.
  - unfold insert.
    assert (first_index (λ x, (Rec.valid x =? 0) || key_eqb (Rec.key x) (Rec.key r)) (record n) = Some i)
      as ->.
    { apply first_index_Some. split.
      - exists x. split; [done|]. by rewrite Hx, key_eqb_refl, orb_true_r.
      - intros j y Hj Hy. rewrite Hr, lookup_app_l in Hy by lia.
        rewrite Forall_forall in Hlive.
        rewrite (Hlive y) by (by eapply list_elem_of_lookup_2). cbn. apply key_eqb_neq.
        intros E. pose proof (ascending_lookup Rec.num live j i y x Ha Hj Hy Hi) as Hn.
        unfold Rec.num in Hn. rewrite E, Hx in Hn. lia. }
    cbn. unfold at_index. rewrite Hri. cbn. by rewrite Hvx.
  - apply node_rep_intro with (drop (length live) (record n)).
    + cbn. rewrite Hr at 1. by rewrite insert_app_l.
    + by rewrite <- insert_app_l, <- Hr, length_insert.
    + by apply Forall_insert.
    + done.
    + eapply ascending_insert; [done| |done]. unfold Rec.num. by rewrite Hx.
Qed.

Lemma insert_absent n live r :
  node_rep n live → Rec.valid r = 1 → Rec.key r ∉ Rec.key <$> live →
  (length live < InnerNodeCapacity)%nat →
  ∃ n', insert n r = Ok (true, set_consistent n') ∧ hdr n' = hdr n ∧ lock n' = lock n ∧
    node_rep n' (std_sort Rec.cmp (live ++ [r])).
Proof.
  intros Hrep Hv Hk Hlt. pose proof Hrep as [Hr Hl Hlive Hfree Ha].
  assert (∃ x rest, drop (length live) (record n) = x :: rest) as (x & rest & Hd).
  { destruct (drop _ _) eqn:E; [|by eauto]. apply (f_equal length) in E.
    rewrite length_drop in E. cbn in E. lia. }
  rewrite Hd in Hr, Hfree. apply Forall_cons in Hfree as [Hx Hrest].
  set (p := λ x, (Rec.valid x =? 0) || key_eqb (Rec.key x) (Rec.key r)).
  assert (first_index p (record n) = Some (length live)) as Hfi.
  { rewrite Hr, first_index_app.
    assert (first_index p live = None) as ->.
    { apply first_index_None. intros j y Hy. unfold p. rewrite Forall_forall in Hlive.
      rewrite (Hlive y) by (by eapply list_elem_of_lookup_2). apply key_eqb_neq. intros E.
      apply Hk, elem_of_key_num. eauto. }
    cbn. unfold p. rewrite Hx. cbn. by rewrite Nat.add_0_r. }
  assert (<[length live := r]> (record n) = (live ++ [r]) ++ rest) as Hins.
  { rewrite Hr. rewrite <- (Nat.add_0_r (length live)), insert_app_r.
    change (<[0%nat:=r]> (x :: rest)) with (r :: rest). by rewrite <- app_assoc. }
  assert (countb (λ r, Rec.valid r =? 1) ((live ++ [r]) ++ rest) = length (live ++ [r])) as Hcnt.
  { rewrite countb_app, countb_all, countb_none; [lia| |].
    - eapply Forall_impl; [exact Hrest|]. intros y ->. done.
    - apply Forall_app; split; [|by repeat constructor; rewrite Hv].
      eapply Forall_impl; [exact Hlive|]. intros y ->. done. }
  assert (NoDup (Rec.num <$> live ++ [r])) as Hnd.
  { rewrite fmap_app. apply NoDup_app. split; [by eapply ascending_NoDup|]. split; [|apply NoDup_singleton].
    intros z (y & -> & Hy)%list_elem_of_fmap Hz%list_elem_of_singleton.
    apply key_num_inj in Hz. apply Hk. rewrite <- Hz. by apply list_elem_of_fmap_2. }
  assert (∃ n', sort_node (set_record n (<[length live := Rec.set_valid r 1]> (record n))) = Ok n' ∧
    hdr n' = hdr n ∧ lock n' = lock n ∧ record n' = std_sort Rec.cmp (live ++ [r]) ++ rest)
    as (n' & Hsort & Hh & Hlk & Hrec).
  { unfold sort_node. rewrite (Rec.set_valid_id _ Hv). cbn [record set_record].
    rewrite Hins, Hcnt. rewrite (proj2 (Z.ltb_lt _ _)) by (rewrite length_app; cbn; lia).
    cbn [require mbind result_bind]. destruct (Nat.eqb_spec (length (live ++ [r])) 1) as [E|E].
    - eexists. split; [done|]. cbn. split_and!; try done. destruct live; [done|].
      rewrite length_app in E. cbn in E. lia.
    - eexists. split; [done|]. cbn. split_and!; try done.
      by rewrite take_app_length, drop_app_length. }
  exists n'. split_and!; try done.
  - unfold insert. fold p. rewrite Hfi. unfold at_index. rewrite Hr.
    rewrite (list_lookup_middle live rest x (length live) eq_refl).
    cbn [mbind result_bind]. rewrite Hx. cbn [Z.eqb]. rewrite <- Hr, Hsort. done.
  - apply node_rep_intro with rest; [done| | |done|].
    + rewrite length_app, length_std_sort, <- length_app, <- Hins, length_insert. done.
    + rewrite std_sort_perm. apply Forall_app; auto.
    + apply std_sort_ascending; [apply Rec.cmp_num|done].
Qed.

Lemma insert_full n live r :
  node_rep n live → Rec.key r ∉ Rec.key <$> live → length live = InnerNodeCapacity →
  insert n r = Ok (false, n).
Proof.
  intros [Hr Hl Hlive Hfree Ha] Hk Hfull. unfold insert.
  rewrite drop_ge, app_nil_r in Hr by lia. rewrite Hr.
  assert (first_index (λ x, (Rec.valid x =? 0) || key_eqb (Rec.key x) (Rec.key r)) live = None) as ->;
    [|done].
  apply first_index_None. intros j y Hy. rewrite Forall_forall in Hlive.
  rewrite (Hlive y) by (by eapply list_elem_of_lookup_2). apply key_eqb_neq. intros E.
  apply Hk, elem_of_key_num. eauto.
Qed.

Lemma split_origin_spec n live :
  node_rep n live → length live = InnerNodeCapacity →
  ∃ mid n', live !! 16%nat = Some mid ∧ split_origin n = Ok (drop 16 live, mid, n') ∧
    node_rep n' (take 16 live) ∧ hdr n' = hdr n ∧ lock n' = lock n ∧ check_consistent n' = true.
Proof.
  intros [Hr Hl Hlive Hfree Ha] Hfull.
  rewrite drop_ge, app_nil_r in Hr by lia.
  destruct (lookup_lt_is_Some_2 live 16) as [mid Hmid]; [rewrite Hfull; unfold InnerNodeCapacity; lia|].
  exists mid. eexists. split; [done|].
  assert (∀ l, Forall (λ r, Rec.valid r = 1) l → Rec.copy <$> l = l) as Hcopy.
  { induction 1 as [|x l Hx _ IH]; [done|]. by rewrite fmap_cons, IH, Rec.copy_id. }
  split; [|split; [|split; [|split]]].
  - unfold split_origin. cbn [Nat.div InnerNodeCapacity Nat.divmod fst Nat.add].
    unfold at_index. rewrite Hr, Hmid. cbn [mbind result_bind].
    rewrite <- fmap_cons, <- (drop_S live mid 16 Hmid), Hcopy; [done|]. by apply Forall_drop.
  - apply node_rep_set_consistent.
    apply node_rep_intro with ((λ r, Rec.set_valid r 0) <$> drop 16 live).
    + done.
    + rewrite length_app, length_fmap, <- length_app, take_drop. done.
    + by apply Forall_take.
    + apply Forall_fmap, Forall_forall. done.
    + rewrite <- (take_drop 16 live) in Ha. by apply ascending_app in Ha as [? _].
  - done.
  - done.
  - apply node_consistent.
Qed.

Lemma split_sibling_spec n mig :
  node_rep n [] → Forall (λ r, Rec.valid r = 1) mig → ascending Rec.num mig →
  (length mig ≤ InnerNodeCapacity)%nat →
  ∃ n', split_sibling n mig = Ok n' ∧ node_rep n' mig ∧ hdr n' = hdr n ∧ lock n' = lock n ∧
    check_consistent n' = true.
Proof.
  intros [_ Hl _ Hfree _] Hv Ha Hle. cbn in Hfree. rewrite drop_0 in Hfree.
  eexists. split; [unfold split_sibling; rewrite (proj2 (Nat.leb_le _ _)) by lia; done|].
  split; [|split; [done|split; [done|apply node_consistent]]].
  apply node_rep_set_consistent.
  assert ((λ r, Rec.set_valid r 1) <$> mig = mig) as Hid.
  { clear -Hv. induction Hv as [|x l Hx _ IH]; [done|]. by rewrite fmap_cons, IH, Rec.set_valid_id. }
  apply node_rep_intro with (drop (length mig) (record n)); cbn; rewrite ?Hid; try done.
  - rewrite length_app, length_drop. lia.
  - by apply Forall_drop.
Qed.

(** C36: searching an inner node.  On a node whose valid records are [live] and
    whose first separator is not above the key, [search] returns the record of
    the greatest separator not above the key, with the node's [next_is_leaf]
    flag; on a node whose first separator is above the key (or with no valid
    record) the code reads [record[-1]]. *)
Theorem inner_search_floor n live k :
  node_rep n live →
  match live with
  | r0 :: _ =>
      if key_leb (Rec.key r0) k then
        ∃ r, r ∈ live ∧ search n k = Ok (r, InnerHeader.next_is_leaf (hdr n)) ∧
          key_leb (Rec.key r) k = true ∧
          ∀ r', r' ∈ live → key_leb (Rec.key r') k = true → key_leb (Rec.key r') (Rec.key r) = true
      else search n k = Err OutOfBounds
  | [] => search n k = Err OutOfBounds
  end.
Proof.
  intros Hrep. destruct live as [|r0 live'] eqn:El; [by apply (search_below n [])|].
  rewrite <- El in Hrep |- *. assert (live !! 0%nat = Some r0) as H0 by (by rewrite El).
  rewrite key_leb_num. destruct (Z.leb_spec (key_num (Rec.key r0)) (key_num k)) as [Hle|Hgt].
  - destruct (search_spec n live k r0 Hrep H0 Hle) as (i & r & Hi & Hr & Hj & Hs).
    exists r. split; [by eapply list_elem_of_lookup_2|]. split; [done|].
    split; [rewrite key_leb_num; unfold Rec.num in Hr; lia|].
    intros r' [j Hr']%list_elem_of_lookup Hk. rewrite key_leb_num in *. to_prop.
    destruct (Nat.lt_total i j) as [Hij|[->|Hij]].
    + specialize (Hj j r' Hij Hr'). unfold Rec.num in Hj. lia.
    + assert (r' = r) as -> by congruence. lia.
    + pose proof (ascending_lookup Rec.num live j i r' r (rep_asc _ _ Hrep) Hij Hr' Hi) as Hn.
      unfold Rec.num in Hn. lia.
  - apply (search_below n live); [done|]. intros r Hr. assert (r = r0) as -> by congruence. done.
Qed.

(** C25: inserting in an inner node is a map update.  The node refuses the
    record, unchanged, exactly when it is full and does not hold the key;
    otherwise the records of the new node are, in ascending key order, those of
    [<[key := record]>] of the old map, and the header and the lock are kept and
    the checksum is valid. *)
Theorem inner_insert_map n live r :
  node_rep n live → Rec.valid r = 1 →
  if bool_decide (length live = InnerNodeCapacity ∧ Rec.key r ∉ Rec.key <$> live) then
    insert n r = Ok (false, n)
  else ∃ n' live', insert n r = Ok (true, n') ∧ node_rep n' live' ∧
    rec_map live' = <[Rec.key r := r]> (rec_map live) ∧
    hdr n' = hdr n ∧ lock n' = lock n ∧ check_consistent n' = true.
Proof.
  intros Hrep Hv. case_bool_decide as Hc; [destruct Hc; by eapply insert_full|].
  destruct (decide (Rec.key r ∈ Rec.key <$> live)) as [Hin|Hnin].
  - apply elem_of_key_num in Hin as (i & x & Hi & Hx).
    destruct (insert_present n live r i x Hrep Hv Hi Hx) as [He Hrep'].
    eexists _, _. split; [exact He|]. split; [by apply node_rep_set_consistent|].
    split; [|split; [done|split; [done|apply node_consistent]]].
    apply rec_map_insert; [apply Hrep|apply Hrep'|]. intros z.
    rewrite (elem_of_ascending_insert Rec.num live i x r z); [|done|by unfold Rec.num; rewrite Hx|apply Hrep].
    unfold Rec.num. split; (intros [?|[? E]]; [by left|right; split; [done|]]);
      [congruence|intros ?%key_num_inj; done].
  - assert (length live < InnerNodeCapacity)%nat as Hlt.
    { pose proof (node_rep_le _ _ Hrep). destruct (decide (length live = InnerNodeCapacity)); [tauto|lia]. }
    destruct (insert_absent n live r Hrep Hv Hnin Hlt) as (n' & He & Hh & Hl & Hrep').
    eexists _, _. split; [exact He|]. split; [by apply node_rep_set_consistent|].
    split; [|split; [done|split; [done|apply node_consistent]]].
    apply rec_map_insert; [apply Hrep|apply Hrep'|]. intros z.
    rewrite (std_sort_perm Rec.cmp), elem_of_app, list_elem_of_singleton.
    split; [|naive_solver]. intros [Hz|?]; [right|by left]. split; [done|].
    intros E. apply Hnin. rewrite <- E. by apply list_elem_of_fmap_2.
Qed.

(** C24: splitting a full inner node in two.  [split(true)] keeps the first
    half of the records and hands the other half over in order, with the first
    of them as the separator; [split(false)] stores them in an empty sibling.
    Together the two nodes hold every record of the node, once, and every key of
    the left node is below the separator, which is the least key of the right
    one. *)
Theorem inner_split_partition n sib live :
  node_rep n live → length live = InnerNodeCapacity → node_rep sib [] →
  ∃ mid left right n' sib',
    split_origin n = Ok (right, mid, n') ∧ split_sibling sib right = Ok sib' ∧
    node_rep n' left ∧ node_rep sib' right ∧ live = left ++ right ∧
    length left = 16%nat ∧ length right = 16%nat ∧ right !! 0%nat = Some mid ∧
    rec_map live = rec_map left ∪ rec_map right ∧
    (∀ r, r ∈ left → key_ltb (Rec.key r) (Rec.key mid) = true) ∧
    (∀ r, r ∈ right → key_leb (Rec.key mid) (Rec.key r) = true) ∧
    check_consistent n' = true ∧ check_consistent sib' = true.
Proof.
  intros Hrep Hfull Hsib.
  destruct (split_origin_spec n live Hrep Hfull) as (mid & n' & Hmid & Ho & Hn' & _ & _ & Hc).
  pose proof (rep_asc _ _ Hrep) as Ha. pose proof (rep_live _ _ Hrep) as Hv.
  assert (ascending Rec.num (take 16 live ++ drop 16 live)) as Ha' by (by rewrite take_drop).
  apply ascending_app in Ha' as (Ha1 & Ha2 & Hlt).
  destruct (split_sibling_spec sib (drop 16 live) Hsib) as (sib' & Hs & Hsib' & _ & _ & Hc');
    [by apply Forall_drop|done|rewrite length_drop; lia|].
  assert (drop 16 live !! 0%nat = Some mid) as Hmid' by (by rewrite lookup_drop).
  assert (mid ∈ drop 16 live) as Hin by (by eapply list_elem_of_lookup_2).
  exists mid, (take 16 live), (drop 16 live), n', sib'. split_and!; try done.
  - by rewrite take_drop.
  - rewrite length_take, Hfull. done.
  - rewrite length_drop, Hfull. done.
  - rewrite <- (take_drop 16 live) at 1. unfold rec_map. by rewrite fmap_app, list_to_map_app.
  - intros r Hr. rewrite key_ltb_num. apply Z.ltb_lt. by apply Hlt.
  - intros r [i Hi]%list_elem_of_lookup. rewrite key_leb_num. apply Z.leb_le.
    destruct i as [|i]; [assert (r = mid) as -> by congruence; lia|].
    pose proof (ascending_lookup Rec.num _ 0 (S i) mid r Ha2 ltac:(lia) Hmid' Hi).
    unfold Rec.num in *. lia.
Qed.

End InnerNode.

(** ** Concrete nodes *)

(** The record of a child whose separator is the number [n]. *)
Definition sample_rec (n : Z) : Rec.t :=
  Rec.make (default KeyNull (key_of_num n)) (Gaddr_make 1 (n * 4096)) Gaddr_Null 32 0.

Definition sample_node (live : list Rec.t) : t :=
  Mk (InnerHeader.make Gaddr_Null)
     (live ++ replicate (InnerNodeCapacity - length live) (Rec.Mk 0 0 KeyNull Gaddr_Null Gaddr_Null 0))
     0 0.

Definition sample_hash : CityHash :=
  {| CityHash32 := λ l, foldr Z.add 0 l; CityHash64 := λ l, foldr Z.add 0 l |}.

Lemma sample_node_rep live :
  (length live ≤ InnerNodeCapacity)%nat → Forall (λ r, Rec.valid r = 1) live →
  ascending Rec.num live → node_rep (sample_node live) live.
Proof.
  intros Hl Hv Ha.
  apply node_rep_intro with (replicate (InnerNodeCapacity - length live) (Rec.Mk 0 0 KeyNull Gaddr_Null Gaddr_Null 0));
    try done.
  - rewrite length_app, length_replicate. lia.
  - by apply Forall_replicate.
Qed.

Lemma sample_ascending ns :
  bool_decide (Sorted Z.lt (Rec.num ∘ sample_rec <$> ns)) = true → ascending Rec.num (sample_rec <$> ns).
Proof.
  intros H%bool_decide_eq_true. apply ascending_fmap. rewrite <- list_fmap_compose.
  apply Sorted_StronglySorted; [|done]. intros x y z. lia.
Qed.

Lemma sample_rep ns :
  (length ns ≤ InnerNodeCapacity)%nat →
  bool_decide (Sorted Z.lt (Rec.num ∘ sample_rec <$> ns)) = true →
  node_rep (sample_node (sample_rec <$> ns)) (sample_rec <$> ns).
Proof.
  intros Hl Ha. apply sample_node_rep.
  - by rewrite length_fmap.
  - apply Forall_fmap, Forall_forall. done.
  - by apply sample_ascending.
Qed.

Lemma inner_search_floor_witness :
  ∃ n live, n = sample_node (sample_rec <$> [0; 10; 20]) ∧ live = sample_rec <$> [0; 10; 20] ∧
    search n (default KeyNull (key_of_num 15)) = Ok (sample_rec 10, false) ∧
    (if key_leb (Rec.key (sample_rec 0)) (default KeyNull (key_of_num 15)) then
      ∃ r, r ∈ live ∧ search n (default KeyNull (key_of_num 15)) =
        Ok (r, InnerHeader.next_is_leaf (hdr n)) ∧
        key_leb (Rec.key r) (default KeyNull (key_of_num 15)) = true ∧
        ∀ r', r' ∈ live → key_leb (Rec.key r') (default KeyNull (key_of_num 15)) = true →
          key_leb (Rec.key r') (Rec.key r) = true
     else search n (default KeyNull (key_of_num 15)) = Err OutOfBounds).
Proof.
  eexists _, _. split; [reflexivity|]. split; [reflexivity|]. split; [vm_compute; reflexivity|].
  exact (inner_search_floor (sample_node (sample_rec <$> [0; 10; 20])) (sample_rec <$> [0; 10; 20])
    (default KeyNull (key_of_num 15)) (sample_rep [0; 10; 20] ltac:(apply Nat.leb_le; reflexivity) ltac:(vm_compute; reflexivity))).
Defined.

Lemma inner_insert_map_witness :
  let n := sample_node (sample_rec <$> [0; 20]) in
  (∃ n', insert (CH := sample_hash) n (sample_rec 10) = Ok (true, n') ∧
     take 3 (record n') = sample_rec <$> [0; 10; 20]) ∧
  (if bool_decide (length (sample_rec <$> [0; 20]) = InnerNodeCapacity ∧
       Rec.key (sample_rec 10) ∉ Rec.key <$> (sample_rec <$> [0; 20])) then
    insert (CH := sample_hash) n (sample_rec 10) = Ok (false, n)
  else ∃ n' live', insert (CH := sample_hash) n (sample_rec 10) = Ok (true, n') ∧ node_rep n' live' ∧
    rec_map live' = <[Rec.key (sample_rec 10) := sample_rec 10]> (rec_map (sample_rec <$> [0; 20])) ∧
    hdr n' = hdr n ∧ lock n' = lock n ∧ check_consistent (CH := sample_hash) n' = true).
Proof.
  intros n. split; [eexists; vm_compute; split; reflexivity|].
  exact (inner_insert_map (CH := sample_hash) n (sample_rec <$> [0; 20]) (sample_rec 10)
    (sample_rep [0; 20] ltac:(apply Nat.leb_le; reflexivity) ltac:(vm_compute; reflexivity)) eq_refl).
Defined.

Lemma inner_split_partition_witness :
  let live := sample_rec <$> seqZ 0 32 in
  ∃ mid left right n' sib',
    split_origin (CH := sample_hash) (sample_node live) = Ok (right, mid, n') ∧
    split_sibling (CH := sample_hash) (sample_node []) right = Ok sib' ∧
    node_rep n' left ∧ node_rep sib' right ∧ live = left ++ right ∧ right !! 0%nat = Some mid.
Proof.
  intros live.
  destruct (inner_split_partition (CH := sample_hash) (sample_node live) (sample_node []) live
    (sample_rep (seqZ 0 32) ltac:(apply Nat.leb_le; reflexivity) ltac:(vm_compute; reflexivity))
    eq_refl (sample_rep [] ltac:(apply Nat.leb_le; reflexivity) eq_refl))
    as (mid & left & right & n' & sib' & H1 & H2 & H3 & H4 & H5 & _ & _ & H6 & _).
  exists mid, left, right, n', sib'. split_and!; done.
Defined.

End InnerNode.
