(* ===== verification/SkipVector.v ===== *)
(** * Shape of the skip vector ([SkipVectorDM/include/skipvector/]:
    [Config.h], [LeafHandle.h], [LeafContents.h])

    A leaf of the replicated skip vector is an immutable block of contents in
    the leaf pool and an 8-byte handle in the handle pool: readers follow the
    handle, writers install new contents with one compare-and-swap of it.  The
    handle packs a version tag and the offset of the contents. *)

From S2P Require Import Prelude KVConfig RdmaConfig.
Open Scope Z_scope.

(** ** [skipvector/Config.h] *)

Definition kFanoutData : nat := 32.
Definition kF : nat := 1.
Definition kNumReplicas : nat := 2 * kF + 1.
Definition kQuorum : nat := kF + 1.
Definition kLeafHandleSize : Z := 8.
Definition kLeafContentSize : Z := 1152.
Definition kIndexNodeSize : Z := 1152.
Definition kSlabHandleBytes : Z := 256 * MB.
Definition kSlabLeafBytes : Z := 512 * MB.
Definition kSlabIndexBytes : Z := 512 * MB.
Definition kSkipVectorRegionBytes : Z := kSlabHandleBytes + kSlabLeafBytes + kSlabIndexBytes.
Definition kSkipVectorRegionBase : Z := 0.
Definition kHandlePoolBase : Z := kSkipVectorRegionBase.
Definition kLeafPoolBase : Z := kHandlePoolBase + kSlabHandleBytes.
Definition kIndexPoolBase : Z := kLeafPoolBase + kSlabLeafBytes.
Definition kNumHandleSlots : Z := kSlabHandleBytes / kLeafHandleSize.
Definition kNumLeafSlots : Z := kSlabLeafBytes / kLeafContentSize.
Definition kNumIndexSlots : Z := kSlabIndexBytes / kIndexNodeSize.
Definition kHeadLeafHandleOffset : Z := kHandlePoolBase.

(** [FaultInjection::is_dropped]. *)
Definition is_dropped (drop_replicas_mask replica_id : Z) : bool :=
  negb (Z.land (Z.shiftr drop_replicas_mask replica_id) 1 =? 0).

(** ** [union LeafHandle] *)

Module LeafHandle.

(** [uint32_t tag; uint32_t offset]. *)
Record t := Mk { tag : Z; offset : Z }.

#[export] Instance eq_dec : EqDecision t.
Proof. solve_decision. Defined.

(** [uint64_t raw] of the union, and [LeafHandle(uint64_t r)]. *)
Definition raw (h : t) : Z := Z.lor (tag h) (Z.shiftl (offset h) 32).
Definition of_raw (r : Z) : t := Mk (u32 r) (u32 (Z.shiftr r 32)).

Definition kContentVerBits : Z := 20.
Definition kStructVerBits : Z := 12.
Definition kContentVerMask : Z := u32 (Z.shiftl 1 kContentVerBits - 1).
Definition kStructVerMask : Z := u32 (Z.shiftl 1 kStructVerBits - 1).
Definition kStructVerShift : Z := kContentVerBits.

Definition struct_ver (h : t) : Z := Z.land (Z.shiftr (tag h) kStructVerShift) kStructVerMask.
Definition content_ver (h : t) : Z := Z.land (tag h) kContentVerMask.

Definition make_tag (sv_ cv_ : Z) : Z :=
  Z.lor (u32 (Z.shiftl (Z.land sv_ kStructVerMask) kStructVerShift)) (Z.land cv_ kContentVerMask).

Definition set_tag (h : t) (sv_ cv_ : Z) : t := Mk (make_tag sv_ cv_) (offset h).

Definition newer_than (h o : t) : bool :=
  if negb (struct_ver h =? struct_ver o) then struct_ver h >? struct_ver o
  else content_ver h >? content_ver o.

Definition bump_content (h : t) : t :=
  Mk (make_tag (struct_ver h) (u32 (content_ver h + 1))) (offset h).
Definition bump_struct (h : t) (new_offset : Z) : t :=
  Mk (make_tag (u32 (struct_ver h + 1)) 0) new_offset.

(** [operator==] compares the raw words. *)
Definition eqb (h o : t) : bool := raw h =? raw o.

Definition wf (h : t) : Prop := fits 32 (tag h) ∧ fits 32 (offset h).

#[export] Instance wf_dec h : Decision (wf h).
Proof. unfold wf. apply _. Defined.

(** *** Fields of the tag *)

Lemma struct_ver_div h : wf h → struct_ver h = tag h / 2 ^ 20.
Proof.
  intros [[] _]. unfold struct_ver, kStructVerMask, kStructVerShift, kContentVerBits.
  change (u32 _) with (Z.ones 12). rewrite Z.land_ones, Z.shiftr_div_pow2 by lia.
  apply Z.mod_small. split; [apply Z.div_pos; lia|apply Z.div_lt_upper_bound; lia].
Qed.

Lemma content_ver_mod h : content_ver h = tag h mod 2 ^ 20.
Proof.
  unfold content_ver, kContentVerMask. change (u32 _) with (Z.ones 20).
  apply Z.land_ones. lia.
Qed.

Lemma make_tag_sum s c : make_tag s c = s mod 2 ^ 12 * 2 ^ 20 + c mod 2 ^ 20.
Proof.
  unfold make_tag, kStructVerMask, kContentVerMask, kStructVerShift, kContentVerBits.
  change (u32 (Z.shiftl 1 kStructVerBits - 1)) with (Z.ones 12).
  change (u32 (Z.shiftl 1 20 - 1)) with (Z.ones 20). rewrite !Z.land_ones by lia.
  pose proof (Z.mod_pos_bound s (2 ^ 12)). pose proof (Z.mod_pos_bound c (2 ^ 20)).
  rewrite wrap_small; [|unfold fits; rewrite Z.shiftl_mul_pow2 by lia; lia].
  rewrite Z.lor_comm, lor_shiftl; [lia|lia|]. unfold fits. lia.
Qed.

Lemma make_tag_fits s c : fits 32 (make_tag s c).
Proof.
  rewrite make_tag_sum. pose proof (Z.mod_pos_bound s (2 ^ 12)).
  pose proof (Z.mod_pos_bound c (2 ^ 20)). unfold fits. lia.
Qed.

Lemma ver_make s c o : fits 32 o →
  struct_ver (Mk (make_tag s c) o) = s mod 2 ^ 12 ∧ content_ver (Mk (make_tag s c) o) = c mod 2 ^ 20.
Proof.
  intros Ho. rewrite struct_ver_div, content_ver_mod by (split; [apply make_tag_fits|done]).
  cbn [tag]. rewrite make_tag_sum. pose proof (Z.mod_pos_bound c (2 ^ 20) ltac:(lia)). split.
  - rewrite Z.div_add_l, Z.div_small by lia. lia.
  - rewrite Z.add_comm, Z.mod_add by lia. apply Z.mod_mod. lia.
Qed.

Lemma newer_than_tag h o : wf h → wf o → newer_than h o = (tag o <? tag h).
Proof.
  intros Hh Ho. unfold newer_than. rewrite !struct_ver_div, !content_ver_mod by done.
  pose proof (Z.div_mod (tag h) (2 ^ 20) ltac:(lia)). pose proof (Z.div_mod (tag o) (2 ^ 20) ltac:(lia)).
  pose proof (Z.mod_pos_bound (tag h) (2 ^ 20) ltac:(lia)).
  pose proof (Z.mod_pos_bound (tag o) (2 ^ 20) ltac:(lia)).
  destruct (Z.eqb_spec (tag h / 2 ^ 20) (tag o / 2 ^ 20)); cbn; rewrite Z.gtb_ltb;
    apply eq_true_iff_eq; rewrite !Z.ltb_lt; nia.
Qed.

Lemma raw_sum h : wf h → raw h = tag h + offset h * 2 ^ 32.
Proof. intros [Ht _]. by apply lor_shiftl. Qed.

Lemma of_raw_raw h : wf h → of_raw (raw h) = h.
Proof.
  intros Hh. unfold of_raw. rewrite raw_sum by done. destruct h as [t o], Hh as [[] []]; cbn in *.
  unfold wrap. rewrite Z.shiftr_div_pow2, Z.mod_add, Z.div_add, (Z.div_small t), (Z.mod_small t) by lia.
  by rewrite Z.mod_small by lia.
Qed.

Lemma bump_content_wf h : wf h → wf (bump_content h).
Proof. intros [? ?]. split; [apply make_tag_fits|done]. Qed.

Lemma bump_struct_wf h o : fits 32 o → wf (bump_struct h o).
Proof. intros ?. split; [apply make_tag_fits|done]. Qed.

(** The 64-bit word that is compared and swapped determines the handle:
    a handle is read back from its [raw] word, equality of handles is equality
    of the words, and a tag made from a structure and a content version gives
    both versions back modulo their field widths. *)
Theorem leaf_handle_roundtrip :
  (∀ h, wf h → of_raw (raw h) = h ∧ fits 64 (raw h)) ∧
  (∀ h o, wf h → wf o → (eqb h o = true ↔ h = o)) ∧
  (∀ s c o, fits 32 o →
     let h := Mk (make_tag s c) o in
     wf h ∧ struct_ver h = s mod 2 ^ 12 ∧ content_ver h = c mod 2 ^ 20 ∧
     make_tag (struct_ver h) (content_ver h) = tag h).
Proof.
  split_and!.
  - intros h Hh. split; [by apply of_raw_raw|]. rewrite raw_sum by done.
    destruct Hh as [[] []]. unfold fits. lia.
  - intros h o Hh Ho. unfold eqb. rewrite Z.eqb_eq. split; [|by intros ->].
    intros E. by rewrite <- (of_raw_raw h), <- (of_raw_raw o), E.
  - intros s c o Ho h. destruct (ver_make s c o Ho) as [E1 E2].
    split_and!; [split; [apply make_tag_fits|done]|done|done|].
    subst h. rewrite E1, E2. cbn [tag]. by rewrite !make_tag_sum, !Z.mod_mod by lia.
Qed.

(** [newer_than] orders handles by their 32-bit tag, so it is a strict
    order that is total on different tags; bumping the content version gives a
    newer handle exactly while the 20-bit counter does not wrap, and bumping
    the structure version gives a handle newer than every content version of
    the old structure exactly while the 12-bit counter does not wrap. *)
Theorem leaf_handle_versions :
  (∀ h o, wf h → wf o → newer_than h o = (tag o <? tag h)) ∧
  (∀ h, wf h → newer_than (bump_content h) h = negb (content_ver h =? kContentVerMask)) ∧
  (∀ h h' o, wf h → wf h' → fits 32 o → struct_ver h' = struct_ver h →
     newer_than (bump_struct h o) h' =
       negb (struct_ver h =? kStructVerMask)).
Proof.
  split_and!; [exact newer_than_tag| |].
  - intros h Hh. pose proof (bump_content_wf h Hh) as Hb. pose proof (proj2 Hh) as Ho.
    rewrite newer_than_tag by done. cbn [bump_content tag].
    rewrite make_tag_sum, struct_ver_div, content_ver_mod by done.
    pose proof (Z.div_mod (tag h) (2 ^ 20) ltac:(lia)).
    pose proof (Z.mod_pos_bound (tag h) (2 ^ 20) ltac:(lia)).
    assert (tag h / 2 ^ 20 < 2 ^ 12) by (destruct Hh as [[] _]; apply Z.div_lt_upper_bound; lia).
    assert (0 ≤ tag h / 2 ^ 20) by (destruct Hh as [[] _]; apply Z.div_pos; lia).
    rewrite (Z.mod_small (tag h / 2 ^ 20)) by lia. rewrite wrap_small by (unfold fits; lia).
    change kContentVerMask with (2 ^ 20 - 1). apply eq_true_iff_eq.
    rewrite Z.ltb_lt, negb_true_iff, Z.eqb_neq.
    destruct (decide (tag h mod 2 ^ 20 = 2 ^ 20 - 1)) as [E|E].
    + rewrite E. change ((2 ^ 20 - 1 + 1) mod 2 ^ 20) with 0. lia.
    + rewrite Z.mod_small by lia. lia.
  - intros h h' o Hh Hh' Ho E. rewrite newer_than_tag by (done || by apply bump_struct_wf).
    cbn [bump_struct tag]. rewrite struct_ver_div in E by done.
    rewrite make_tag_sum. pose proof (Z.div_mod (tag h') (2 ^ 20) ltac:(lia)).
    pose proof (Z.mod_pos_bound (tag h') (2 ^ 20) ltac:(lia)).
    assert (0 ≤ tag h' / 2 ^ 20 < 2 ^ 12).
    { destruct Hh' as [[] _]. split; [apply Z.div_pos; lia|apply Z.div_lt_upper_bound; lia]. }
    rewrite <- E, wrap_small by (unfold fits; lia).
    change kStructVerMask with (2 ^ 12 - 1). apply eq_true_iff_eq.
    rewrite Z.ltb_lt, negb_true_iff, Z.eqb_neq. change (0 mod 2 ^ 20) with 0.
    destruct (decide (tag h' / 2 ^ 20 = 2 ^ 12 - 1)) as [E'|E'].
    + rewrite E'. change ((2 ^ 12 - 1 + 1) mod 2 ^ 12) with 0. lia.
    + rewrite Z.mod_small by lia. lia.
Qed.

End LeafHandle.

(** ** [struct LeafContents] *)

(** [boost::crc_32_type], of the Boost library. *)
Class BoostCrc := { crc_32 : list Z → Z }.

Module LeafContents.

Section LeafContents.
Context {BC : BoostCrc}.

Record t := Mk {
  kmin : Key;
  kmax : Key;
  next_handle_offset : Z;  (* uint64_t *)
  is_orphan : Z;           (* uint32_t *)
  entry_count : Z;         (* uint32_t *)
  keys : list Key;         (* [kFanoutData] *)
  vals : list Value;       (* [kFanoutData] *)
  crc : Z;                 (* uint32_t *)
  pad0 : Z }.              (* uint32_t *)

(** The bytes before [crc], and the whole structure. *)
Definition crc_span (c : t) : list Z :=
  key (kmin c) ++ key (kmax c) ++ le_bytes 8 (next_handle_offset c) ++
  le_bytes 4 (is_orphan c) ++ le_bytes 4 (entry_count c) ++
  concat (key <$> keys c) ++ concat (le_bytes 8 <$> vals c).
Definition bytes (c : t) : list Z := crc_span c ++ le_bytes 4 (crc c) ++ le_bytes 4 (pad0 c).

Definition crc_span_bytes : Z := 1088.
Definition size_of : Z := 1096.

Definition compute_and_set_crc (c : t) : t :=
  Mk (kmin c) (kmax c) (next_handle_offset c) (is_orphan c) (entry_count c) (keys c) (vals c)
     (u32 (crc_32 (crc_span c))) (pad0 c).

Definition verify_crc (c : t) : bool := crc c =? u32 (crc_32 (crc_span c)).

Definition init_empty : t :=
  Mk KeyNull KeyNull 0 0 0 (replicate kFanoutData KeyNull) (replicate kFanoutData 0) 0 0.

Definition covers (c : t) (k : Key) : bool := negb (key_ltb k (kmin c)) && negb (key_ltb (kmax c) k).

(** The loop of [find_index] from index [i], [n] iterations before [entry_count]. *)
Fixpoint find_from (ks : list Key) (k : Key) (i n : nat) : result Z :=
  match n with
  | O => Ok (-1)
  | S n =>
      at_index ks i ≫= λ x,
      if key_eqb x k then Ok (Z.of_nat i) else find_from ks k (S i) n
  end.

Definition find_index (c : t) (k : Key) : result Z := find_from (keys c) k 0 (Z.to_nat (entry_count c)).

Definition wf (c : t) : Prop :=
  length (keys c) = kFanoutData ∧ length (vals c) = kFanoutData ∧ fits 32 (entry_count c).

Lemma length_crc_span c : wf c → Z.of_nat (length (crc_span c)) = crc_span_bytes.
Proof.
  intros (Hk & Hv & _). unfold crc_span. rewrite !length_app, !length_le_bytes, !length_key.
  rewrite (length_concat_const key KEY_SIZE), (length_concat_const (le_bytes 8) 8), Hk, Hv; [done| |].
  - intros x. apply length_le_bytes.
  - exact length_key.
Qed.

Lemma find_from_spec ks k i n :
  (i ≤ length ks)%nat →
  find_from ks k i n =
    match first_index (λ x, key_eqb x k) (take n (drop i ks)) with
    | Some j => Ok (Z.of_nat (i + j))
    | None => if (i + n <=? length ks)%nat then Ok (-1) else Err OutOfBounds
    end.
Proof.
  revert i. induction n as [|n IH]; intros i Hi; cbn [find_from].
  { rewrite Nat.add_0_r, (proj2 (Nat.leb_le _ _)) by done. done. }
  unfold at_index. destruct (ks !! i) as [x|] eqn:Hx; cbn.
  - pose proof (lookup_lt_Some _ _ _ Hx). rewrite (drop_S ks x i Hx). cbn.
    destruct (key_eqb x k); [repeat f_equal; lia|]. rewrite IH by lia.
    destruct (first_index _ _); cbn; [repeat f_equal; lia|].
    by replace (i + S n)%nat with (S (i + n)) by lia.
  - apply lookup_ge_None_1 in Hx. rewrite drop_ge by done. cbn.
    by rewrite (proj2 (Nat.leb_gt _ _)) by lia.
Qed.

(** A leaf's contents fill at most its slot, their checksum lies at byte
    1088, a checksum set by the writer is accepted by every reader, and
    contents whose checked bytes were replaced under an old checksum are
    accepted only if the two byte strings collide. *)
Theorem leaf_contents_crc :
  (∀ c, wf c → Z.of_nat (length (bytes c)) = size_of ∧ size_of ≤ kLeafContentSize ∧
     take 4 (drop (Z.to_nat crc_span_bytes) (bytes c)) = le_bytes 4 (crc c)) ∧
  (∀ c, verify_crc (compute_and_set_crc c) = true) ∧
  (∀ c c', crc c' = crc (compute_and_set_crc c) → verify_crc c' = true →
     u32 (crc_32 (crc_span c')) = u32 (crc_32 (crc_span c))).
Proof.
  split_and!.
  - intros c Hc. pose proof (length_crc_span c Hc) as Hl. unfold bytes. split_and!; [|done|].
    + rewrite !length_app, !length_le_bytes. unfold crc_span_bytes, size_of in *. lia.
    + apply take_drop_field; [|by rewrite length_le_bytes]. unfold crc_span_bytes in *. lia.
  - intros c. apply Z.eqb_refl.
  - intros c c' E H%Z.eqb_eq. by rewrite <- H, E.
Qed.

(** [find_index] returns the first of the [entry_count] slots that holds
    the key; when none of them does it returns -1 if the count is at most the
    fan-out, and otherwise runs outside the arrays. *)
Theorem leaf_contents_find_index c k :
  wf c →
  (∃ i, find_index c k = Ok (Z.of_nat i) ∧ Z.of_nat i < entry_count c ∧ keys c !! i = Some k ∧
     ∀ j, (j < i)%nat → keys c !! j ≠ Some k) ∨
  (∀ i, Z.of_nat i < entry_count c → keys c !! i ≠ Some k) ∧
  find_index c k = if entry_count c <=? Z.of_nat kFanoutData then Ok (-1) else Err OutOfBounds.
Proof.
  intros (Hk & _ & Hn). unfold find_index. rewrite find_from_spec by lia. rewrite drop_0, Hk, Nat.add_0_l.
  unfold fits in Hn. destruct (first_index _ _) as [i|] eqn:E; [left|right].
  - apply first_index_Some in E as [(x & Hx & ->%key_eqb_eq) Hj].
    apply lookup_take_Some in Hx as [Hx ?]. exists i. split_and!; [done|lia|done|].
    intros j Hji Hkj. assert (key_eqb k k = false) as Hc.
    { apply (Hj j); [done|]. apply lookup_take_Some. split; [done|lia]. }
    by rewrite key_eqb_refl in Hc.
  - split.
    + intros i Hi Hx. assert (key_eqb k k = false) as Hc.
      { apply (proj1 (first_index_None _ _) E i). apply lookup_take_Some. split; [done|lia]. }
      by rewrite key_eqb_refl in Hc.
    + destruct (Nat.leb_spec (Z.to_nat (entry_count c)) kFanoutData), (Z.leb_spec (entry_count c) (Z.of_nat kFanoutData));
        done || lia.
Qed.

End LeafContents.

Lemma leaf_contents_find_index_witness :
  let k := KeyMax in
  let c := Mk KeyNull KeyMax 0 0 2 (KeyNull :: k :: replicate 30 KeyNull) (replicate 32 7) 0 0 in
  find_index c k = Ok 1 ∧
  ((∃ i, find_index c k = Ok (Z.of_nat i) ∧ Z.of_nat i < entry_count c ∧ keys c !! i = Some k ∧
     ∀ j, (j < i)%nat → keys c !! j ≠ Some k) ∨
  (∀ i, Z.of_nat i < entry_count c → keys c !! i ≠ Some k) ∧
  find_index c k = if entry_count c <=? Z.of_nat kFanoutData then Ok (-1) else Err OutOfBounds).
Proof.
  intros k c. split; [vm_compute; reflexivity|].
  apply (leaf_contents_find_index c k). split; [reflexivity|]. split; [reflexivity|]. by vm_compute.
Defined.

End LeafContents.
