(* ===== verification/SlabAllocator.v ===== *)
(** * The slab allocator ([SkipVectorDM/include/skipvector/SlabAllocator.h])

    A bitmap allocator over a pool of equal slots, used by one compute server
    for each of the three pools of the skip vector.  Every public operation
    holds the mutex for its whole body, so an operation is one step. *)

From S2P Require Import Prelude KVConfig RdmaConfig SkipVector.
Open Scope Z_scope.

Module SlabAllocator.

Definition kBad : Z := 2 ^ 64 - 1.

Record t := Mk {
  base : Z;
  slot_size : Z;
  num_slots : Z;
  bitmap : list bool;
  next_hint : Z;
  first_free : Z;
  used_count : Z }.

(** The constructor. *)
Definition make (base_offset slot_size num_slots first_reserved : Z) : result t :=
  require (first_reserved <=? num_slots) ≫= λ _,
  let bitmap := foldl (λ b i, <[i := true]> b) (replicate (Z.to_nat num_slots) false)
    (seq 0 (Z.to_nat first_reserved)) in
  Ok (Mk base_offset slot_size num_slots bitmap first_reserved first_reserved first_reserved).

Definition set_hint (s : t) (h : Z) : t :=
  Mk (base s) (slot_size s) (num_slots s) (bitmap s) h (first_free s) (used_count s).
Definition set_bit (s : t) (i : nat) (b : bool) (used : Z) : t :=
  Mk (base s) (slot_size s) (num_slots s) (<[i := b]> (bitmap s)) (next_hint s) (first_free s) used.

(** The hint after an iteration of the search loop. *)
Definition advance (s : t) : Z :=
  let h := u64 (next_hint s + 1) mod num_slots s in
  if h <? first_free s then first_free s else h.

Fixpoint alloc_loop (tries : nat) (s : t) : result (Z * t) :=
  match tries with
  | O => Ok (kBad, s)
  | S tries =>
      let i := next_hint s in
      let s := set_hint s (advance s) in
      at_index (bitmap s) (Z.to_nat i) ≫= λ used,
      if negb used then
        Ok (u64 (base s + i * slot_size s), set_bit s (Z.to_nat i) true (u64 (used_count s + 1)))
      else alloc_loop tries s
  end.

Definition alloc (s : t) : result (Z * t) := alloc_loop (Z.to_nat (num_slots s)) s.

Definition free (s : t) (offset : Z) : result t :=
  require (base s <=? offset) ≫= λ _,
  let rel := offset - base s in
  require (rel mod slot_size s =? 0) ≫= λ _,
  let idx := rel / slot_size s in
  require (idx <? num_slots s) ≫= λ _,
  require (first_free s <=? idx) ≫= λ _,
  at_index (bitmap s) (Z.to_nat idx) ≫= λ used,
  require used ≫= λ _,
  Ok (set_bit s (Z.to_nat idx) false (u64 (used_count s - 1))).

Definition owns (s : t) (offset : Z) : bool :=
  (base s <=? offset) && (offset <? u64 (base s + u64 (num_slots s * slot_size s))).

Definition slot_of (s : t) (offset : Z) : result Z :=
  require (owns s offset) ≫= λ _, Ok ((offset - base s) / slot_size s).

Definition offset_of (s : t) (slot_idx : Z) : result Z :=
  require (slot_idx <? num_slots s) ≫= λ _, Ok (u64 (base s + slot_idx * slot_size s)).

(** ** Invariant *)

(** The pool lies in the address space, the reserved prefix is marked used,
    the hint is a slot that may be handed out, and [used_count] counts the
    marked slots. *)
Record wf (s : t) : Prop := {
  wf_base : 0 ≤ base s;
  wf_slot : 0 < slot_size s;
  wf_end : base s + num_slots s * slot_size s < 2 ^ 64;
  wf_len : Z.of_nat (length (bitmap s)) = num_slots s;
  wf_first : 0 ≤ first_free s;
  wf_hint : first_free s ≤ next_hint s < num_slots s;
  wf_reserved : ∀ i, Z.of_nat i < first_free s → bitmap s !! i = Some true;
  wf_count : used_count s = Z.of_nat (countb id (bitmap s)) }.

(** The offset of slot [i]. *)
Definition addr (s : t) (i : nat) : Z := base s + Z.of_nat i * slot_size s.

Definition used (s : t) (i : nat) : Prop := bitmap s !! i = Some true.

(** ** Abstract specification

    A pool is the set of its slots in use; allocation takes any free slot,
    release returns one that is neither free nor reserved. *)

Record pool := MkPool { p_base : Z; p_slot : Z; p_num : Z; p_first : Z; p_used : gset nat }.

Inductive op := OpAlloc (res : Z) | OpFree (off : Z).

Inductive pool_step : pool → op → pool → Prop :=
| step_alloc p i :
    p_first p ≤ Z.of_nat i < p_num p → i ∉ p_used p →
    pool_step p (OpAlloc (p_base p + Z.of_nat i * p_slot p))
      (MkPool (p_base p) (p_slot p) (p_num p) (p_first p) ({[i]} ∪ p_used p))
| step_full p :
    (∀ i, Z.of_nat i < p_num p → i ∈ p_used p) → pool_step p (OpAlloc kBad) p
| step_free p i :
    p_first p ≤ Z.of_nat i → i ∈ p_used p →
    pool_step p (OpFree (p_base p + Z.of_nat i * p_slot p))
      (MkPool (p_base p) (p_slot p) (p_num p) (p_first p) (p_used p ∖ {[i]})).

(** The slots marked in a bitmap. *)
Definition marked (b : list bool) : gset nat :=
  list_to_set (filter (λ i, b !! i = Some true) (seq 0 (length b))).

Definition abs (s : t) : pool :=
  MkPool (base s) (slot_size s) (num_slots s) (first_free s) (marked (bitmap s)).

Lemma elem_of_marked b i : i ∈ marked b ↔ b !! i = Some true.
Proof.
  unfold marked. rewrite elem_of_list_to_set, list_elem_of_filter, elem_of_seq. split; [naive_solver|].
  intros H. split; [done|]. apply lookup_lt_Some in H. lia.
Qed.

Lemma marked_insert_true b i : (i < length b)%nat → marked (<[i := true]> b) = {[i]} ∪ marked b.
Proof.
  intros Hi. apply set_eq. intros j. rewrite elem_of_union, elem_of_singleton, !elem_of_marked.
  destruct (decide (j = i)) as [->|]; [rewrite list_lookup_insert_eq by done|rewrite list_lookup_insert_ne by done];
    naive_solver.
Qed.

Lemma marked_insert_false b i : marked (<[i := false]> b) = marked b ∖ {[i]}.
Proof.
  apply set_eq. intros j. rewrite elem_of_difference, elem_of_singleton, !elem_of_marked.
  rewrite list_lookup_insert_Some. naive_solver.
Qed.

(** ** The search loop *)

(** The slot the loop looks at in its [k]-th iteration. *)
Definition ring (s : t) (k : nat) : Z :=
  first_free s + (next_hint s - first_free s + Z.of_nat k) mod (num_slots s - first_free s).

Lemma wf_fits s : wf s → fits 64 (num_slots s).
Proof. intros []. unfold fits. nia. Qed.

Lemma advance_succ s :
  wf s → advance s = if next_hint s + 1 =? num_slots s then first_free s else next_hint s + 1.
Proof.
  intros H. pose proof (wf_fits s H) as Hf. unfold fits in Hf. destruct H. unfold advance.
  rewrite wrap_small by (unfold fits; lia).
  destruct (Z.eqb_spec (next_hint s + 1) (num_slots s)) as [E|E].
  - rewrite E, Z.mod_same by lia. destruct (Z.ltb_spec 0 (first_free s)); lia.
  - rewrite Z.mod_small by lia. destruct (Z.ltb_spec (next_hint s + 1) (first_free s)); lia.
Qed.

Lemma set_hint_wf s h : wf s → first_free s ≤ h < num_slots s → wf (set_hint s h).
Proof. intros [] ?. by constructor. Qed.

Lemma ring_range s k : wf s → first_free s ≤ ring s k < num_slots s.
Proof.
  intros []. unfold ring.
  pose proof (Z.mod_pos_bound (next_hint s - first_free s + Z.of_nat k) (num_slots s - first_free s)). lia.
Qed.

Lemma ring_0 s : wf s → ring s 0 = next_hint s.
Proof. intros []. unfold ring. rewrite Z.mod_small by lia. lia. Qed.

Lemma advance_wf s : wf s → wf (set_hint s (advance s)).
Proof.
  intros H. apply set_hint_wf; [done|]. rewrite advance_succ by done.
  destruct H. destruct (Z.eqb_spec (next_hint s + 1) (num_slots s)); lia.
Qed.

Lemma ring_advance s k : wf s → ring (set_hint s (advance s)) k = ring s (S k).
Proof.
  intros H. rewrite advance_succ by done. unfold ring; cbn. destruct H.
  destruct (Z.eqb_spec (next_hint s + 1) (num_slots s)) as [E|E].
  - replace (next_hint s - first_free s + Z.of_nat (S k))
      with (Z.of_nat k + 1 * (num_slots s - first_free s)) by lia.
    rewrite Z.mod_add by lia. do 2 f_equal. lia.
  - do 2 f_equal. lia.
Qed.

Lemma ring_onto s i :
  wf s → first_free s ≤ i < num_slots s → ∃ k, (k < Z.to_nat (num_slots s))%nat ∧ ring s k = i.
Proof.
  intros H Hi. destruct H. pose (n := num_slots s - first_free s).
  pose proof (Z.mod_pos_bound (i - next_hint s) n). exists (Z.to_nat ((i - next_hint s) mod n)).
  split; [lia|]. unfold ring. fold n. rewrite Z2Nat.id by lia.
  rewrite Zplus_mod_idemp_r.
  replace (next_hint s - first_free s + (i - next_hint s)) with (i - first_free s) by lia.
  rewrite Z.mod_small by lia. lia.
Qed.

Lemma alloc_loop_spec tries s :
  wf s →
  (∃ i s', alloc_loop tries s = Ok (addr s i, s') ∧ wf s' ∧
     first_free s ≤ Z.of_nat i < num_slots s ∧ bitmap s !! i = Some false ∧
     s' = set_bit (set_hint s (next_hint s')) i true (used_count s + 1)) ∨
  (∃ h, alloc_loop tries s = Ok (kBad, set_hint s h) ∧ wf (set_hint s h) ∧
     ∀ k, (k < tries)%nat → used s (Z.to_nat (ring s k))).
Proof.
  revert s. induction tries as [|tries IH]; intros s H; cbn [alloc_loop].
  { right. exists (next_hint s). destruct s. split_and!; [done|done|lia]. }
  pose proof (advance_wf s H) as Ha. destruct (H) as [].
  destruct (lookup_lt_is_Some_2 (bitmap s) (Z.to_nat (next_hint s))) as [b Hb]; [lia|].
  unfold at_index. cbn [bitmap set_hint]. rewrite Hb. cbn [mbind result_bind]. destruct b; cbn [negb].
  - destruct (IH _ Ha) as [(i & s' & E & Hs' & Hi & Hbi & Es')|(h & E & Hh & Hk)].
    + left. exists i, s'. exact (conj E (conj Hs' (conj Hi (conj Hbi Es')))).
    + right. exists h. split; [exact E|]. split; [exact Hh|]. intros [|k] Hlt.
      * rewrite ring_0 by done. exact Hb.
      * rewrite <- ring_advance by done. apply (Hk k). lia.
  - left. pose proof (countb_insert id _ _ _ true Hb) as Hc.
    pose proof (countb_le id (<[Z.to_nat (next_hint s):=true]> (bitmap s))) as Hle.
    rewrite length_insert in Hle. cbn -[countb] in Hc. pose proof (wf_fits s H) as Hf. unfold fits in Hf.
    assert (u64 (used_count s + 1) = used_count s + 1) as Hu by (apply wrap_small; unfold fits; lia).
    cbn [used_count base slot_size set_hint]. rewrite Hu, (wrap_small 64 (base s + _)) by (unfold fits; nia).
    eexists (Z.to_nat (next_hint s)), _. unfold addr. rewrite Z2Nat.id by lia.
    split; [reflexivity|]. split; [|by rewrite Hb].
    destruct Ha. constructor; cbn -[countb]; try done.
    + by rewrite length_insert.
    + intros i Hi. rewrite list_lookup_insert_ne by lia. auto.
    + lia.
Qed.

Lemma alloc_spec s :
  wf s →
  (∃ i s', alloc s = Ok (addr s i, s') ∧ wf s' ∧
     first_free s ≤ Z.of_nat i < num_slots s ∧ bitmap s !! i = Some false ∧
     s' = set_bit (set_hint s (next_hint s')) i true (used_count s + 1)) ∨
  (∃ h, alloc s = Ok (kBad, set_hint s h) ∧ wf (set_hint s h) ∧
     ∀ i, Z.of_nat i < num_slots s → used s i).
Proof.
  intros H. destruct (alloc_loop_spec (Z.to_nat (num_slots s)) s H) as [|(h & E & Hh & Hk)]; [by left|].
  right. exists h. split_and!; [done|done|]. intros i Hi.
  destruct (Z.lt_ge_cases (Z.of_nat i) (first_free s)) as [Hlt|Hge].
  - by apply wf_reserved.
  - destruct (ring_onto s (Z.of_nat i) H) as (k & Hk1 & Hk2); [lia|].
    specialize (Hk k Hk1). by rewrite Hk2, Nat2Z.id in Hk.
Qed.

Lemma addr_range s i :
  wf s → Z.of_nat i < num_slots s → base s ≤ addr s i ∧ addr s i + slot_size s ≤ base s + num_slots s * slot_size s.
Proof. intros [] Hi. unfold addr. nia. Qed.

Lemma addr_neq_kBad s i : wf s → Z.of_nat i < num_slots s → addr s i ≠ kBad.
Proof. intros H Hi. pose proof (addr_range s i H Hi). destruct H. unfold kBad. lia. Qed.

Lemma addr_slot s i : wf s → (addr s i - base s) / slot_size s = Z.of_nat i ∧ (addr s i - base s) mod slot_size s = 0.
Proof.
  intros []. unfold addr. replace (_ - _) with (Z.of_nat i * slot_size s) by lia.
  split; [apply Z.div_mul; lia|apply Z.mod_mul; lia].
Qed.

Lemma full_count s : wf s → (∀ i, Z.of_nat i < num_slots s → used s i) → used_count s = num_slots s.
Proof.
  intros [] Hall. rewrite wf_count0, <- wf_len0. f_equal. apply countb_all, Forall_lookup.
  intros i b Hb. pose proof (lookup_lt_Some _ _ _ Hb). specialize (Hall i ltac:(lia)). unfold used in Hall.
  by simplify_eq.
Qed.

(** Releasing slot [i]. *)
Lemma free_spec s i :
  wf s → first_free s ≤ Z.of_nat i → used s i →
  ∃ s', free s (addr s i) = Ok s' ∧ wf s' ∧ s' = set_bit s i false (used_count s - 1).
Proof.
  intros H Hi Hu. pose proof (lookup_lt_Some _ _ _ Hu) as Hlt.
  destruct (addr_slot s i H) as [Ed Em]. pose proof (wf_fits s H) as Hf. unfold fits in Hf.
  pose proof (countb_insert id _ _ _ false Hu) as Hc. pose proof (countb_le id (bitmap s)) as Hle.
  destruct (H) as []. cbn -[countb] in Hc.
  assert (u64 (used_count s - 1) = used_count s - 1) as Hw by (apply wrap_small; unfold fits; lia).
  unfold free. rewrite Em, Ed, Nat2Z.id. unfold at_index. rewrite Hu, Hw.
  pose proof (addr_range s i H ltac:(lia)).
  rewrite (proj2 (Z.leb_le (base s) _)), (proj2 (Z.ltb_lt _ _)), (proj2 (Z.leb_le (first_free s) _)) by lia.
  eexists. split; [reflexivity|]. split; [|done]. constructor; cbn -[countb]; try done.
  - by rewrite length_insert.
  - intros j Hj. rewrite list_lookup_insert_ne by lia. auto.
  - lia.
Qed.

Lemma free_inv s off s' :
  wf s → free s off = Ok s' → ∃ i, off = addr s i ∧ first_free s ≤ Z.of_nat i ∧ used s i.
Proof.
  intros H E. unfold free in E. inv_ok. to_prop. subst. destruct H.
  exists (Z.to_nat ((off - base s) / slot_size s)). unfold addr.
  rewrite Z2Nat.id by lia. pose proof (Z.div_mod (off - base s) (slot_size s)).
  split_and!; [lia|lia|done].
Qed.

(** ** Construction *)

Lemma mark_reserved n m :
  (m ≤ n)%nat →
  foldl (λ b i, <[i := true]> b) (replicate n false) (seq 0 m) = replicate m true ++ replicate (n - m) false.
Proof.
  induction m as [|m IH]; intros Hm; [by rewrite Nat.sub_0_r|].
  rewrite seq_S, foldl_app, IH by lia. cbn [foldl Nat.add].
  rewrite insert_app_r_alt by (rewrite length_replicate; lia). rewrite length_replicate, Nat.sub_diag.
  destruct (n - m)%nat as [|k] eqn:E; [lia|]. replace (n - S m)%nat with k by lia.
  change (<[0%nat:=true]> (replicate (S k) false)) with (true :: replicate k false).
  rewrite replicate_S_end, <- app_assoc. done.
Qed.

Lemma make_spec b sz n r :
  0 ≤ b → 0 < sz → b + n * sz < 2 ^ 64 → 0 ≤ r < n →
  ∃ s, make b sz n r = Ok s ∧ wf s ∧ base s = b ∧ slot_size s = sz ∧ num_slots s = n ∧ first_free s = r ∧
    ∀ i, used s i ↔ Z.of_nat i < r.
Proof.
  intros Hb Hs He Hr. unfold make. rewrite (proj2 (Z.leb_le _ _)) by lia. cbn [require mbind result_bind].
  rewrite mark_reserved by lia. eexists. split; [reflexivity|].
  assert (∀ i, (replicate (Z.to_nat r) true ++ replicate (Z.to_nat n - Z.to_nat r) false) !! i = Some true
    ↔ Z.of_nat i < r) as Hu.
  { intros i. rewrite lookup_app_Some, !lookup_replicate. split; [intros [[_ ?]|[? [? ?]]]; [lia|done]|].
    intros. left. split; [done|lia]. }
  split; [|by split_and!]. constructor; cbn -[countb]; try done; try lia.
  - rewrite length_app, !length_replicate. lia.
  - intros i Hi. by apply Hu.
  - rewrite countb_app, (countb_all _ (replicate _ true)), (countb_none _ (replicate _ false)).
    + rewrite length_replicate. lia.
    + by apply Forall_replicate.
    + by apply Forall_replicate.
Qed.

(** ** Properties *)

(** C21: the bitmap allocator implements its specification: on a well-formed
    allocator [alloc] always returns, its result and effect are a step of the
    set-of-slots specification, and [free] succeeds on exactly the offsets the
    specification can release, with the effect it prescribes.  Both preserve
    the invariant. *)
Theorem slab_refines_pool s :
  wf s →
  (∃ r s', alloc s = Ok (r, s') ∧ wf s' ∧ pool_step (abs s) (OpAlloc r) (abs s')) ∧
  (∀ off s', free s off = Ok s' → wf s' ∧ pool_step (abs s) (OpFree off) (abs s')) ∧
  (∀ off p', pool_step (abs s) (OpFree off) p' → ∃ s', free s off = Ok s' ∧ abs s' = p').
Proof.
  intros H. split_and!.
  - destruct (alloc_spec s H) as [(i & s' & E & Hs' & Hi & Hb & Es')|(h & E & Hh & Hall)].
    + exists (addr s i), s'. split_and!; [done|done|]. rewrite Es'. unfold abs; cbn -[marked].
      rewrite marked_insert_true by (by eapply lookup_lt_Some).
      apply (step_alloc (abs s) i); [done|]. cbn -[marked]. rewrite elem_of_marked. congruence.
    + exists kBad, (set_hint s h). split_and!; [done|done|]. apply (step_full (abs s)).
      intros i Hi. apply elem_of_marked. by apply Hall.
  - intros off s' E. destruct (free_inv s off s' H E) as (i & -> & Hi & Hu).
    destruct (free_spec s i H Hi Hu) as (s'' & E' & Hw & Es). rewrite E in E'. injection E' as ->.
    split; [done|]. rewrite Es. unfold abs; cbn -[marked]. rewrite marked_insert_false.
    apply (step_free (abs s) i); [done|]. by apply elem_of_marked.
  - intros off p' Hp. inversion Hp as [| |p i Hi Hu]; subst. cbn -[marked] in *.
    apply elem_of_marked in Hu. destruct (free_spec s i H Hi Hu) as (s'' & E' & _ & Es).
    exists s''. split; [exact E'|]. rewrite Es. unfold abs; cbn -[marked]. by rewrite marked_insert_false.
Qed.

(** [alloc] fails only when every slot is in use, and otherwise hands out a
    slot of the pool that is not reserved and not in use, so its bytes overlap
    no other slot in use; [slot_of] and [offset_of] convert it both ways. *)
Theorem slab_alloc_fresh s r s' :
  wf s → alloc s = Ok (r, s') →
  (r = kBad ↔ used_count s = num_slots s) ∧
  (r ≠ kBad →
     base s + first_free s * slot_size s ≤ r ∧ r + slot_size s ≤ base s + num_slots s * slot_size s ∧
     (∀ i, used s i → addr s i + slot_size s ≤ r ∨ r + slot_size s ≤ addr s i) ∧
     used_count s' = used_count s + 1 ∧
     ∃ i, slot_of s r = Ok i ∧ offset_of s i = Ok r).
Proof.
  intros H E. destruct (alloc_spec s H) as [(i & s'' & E' & Hs' & Hi & Hb & Es')|(h & E' & Hh & Hall)];
    rewrite E in E'; injection E' as -> ->.
  - pose proof (addr_neq_kBad s i H ltac:(lia)) as Hne. split.
    + split; [done|]. intros Hfull. destruct H. rewrite wf_count0, <- wf_len0 in Hfull.
      apply Nat2Z.inj in Hfull. by specialize (countb_full _ _ Hfull i false Hb).
    + intros _. pose proof (addr_range s i H ltac:(lia)) as Hr. destruct (addr_slot s i H) as [Ed _].
      destruct (H) as []. split_and!; [unfold addr; nia|lia| |by rewrite Es'|].
      * intros j Hj. assert (i ≠ j) by (intros ->; unfold used in Hj; congruence). unfold addr.
        destruct (Z.lt_ge_cases (Z.of_nat i) (Z.of_nat j)); [right|left]; nia.
      * exists (Z.of_nat i). unfold slot_of, offset_of, owns.
        rewrite (wrap_small 64 (num_slots s * _)) by (unfold fits; nia).
        rewrite !(wrap_small 64 (base s + _)) by (unfold fits; nia).
        rewrite (proj2 (Z.leb_le _ _)), !(proj2 (Z.ltb_lt _ _)) by lia. cbn. by rewrite Ed.
  - split; [|done]. split; [|done]. intros _. by apply full_count.
Qed.

Lemma sample_slab : ∃ s, make 0x10000 64 16 2 = Ok s ∧ wf s.
Proof. destruct (make_spec 0x10000 64 16 2) as (s & E & H & _); [lia..|]. by exists s. Defined.

Lemma slab_refines_pool_witness :
  ∃ s, make 0x10000 64 16 2 = Ok s ∧ wf s ∧
    (∃ r s', alloc s = Ok (r, s') ∧ wf s' ∧ pool_step (abs s) (OpAlloc r) (abs s')).
Proof.
  destruct sample_slab as (s & E & H). exists s.
  exact (conj E (conj H (proj1 (slab_refines_pool s H)))).
Defined.

Lemma slab_alloc_fresh_witness :
  ∃ s s', make 0x10000 64 16 2 = Ok s ∧ alloc s = Ok (0x10080, s') ∧
    (0x10080 = kBad ↔ used_count s = num_slots s).
Proof.
  destruct sample_slab as (s & E & H). vm_compute in E. injection E as <-.
  eexists _, _. split; [reflexivity|]. split; [vm_compute; reflexivity|].
  eapply slab_alloc_fresh; [exact H|vm_compute; reflexivity].
Defined.

End SlabAllocator.

(** ** [struct SlabPools] *)

Module SlabPools.

Record t := Mk {
  handles : SlabAllocator.t;
  leaves : SlabAllocator.t;
  indices : SlabAllocator.t }.

Definition make : result t :=
  SlabAllocator.make kHandlePoolBase kLeafHandleSize kNumHandleSlots 1 ≫= λ handles,
  SlabAllocator.make kLeafPoolBase kLeafContentSize kNumLeafSlots 0 ≫= λ leaves,
  SlabAllocator.make kIndexPoolBase kIndexNodeSize kNumIndexSlots 0 ≫= λ indices,
  Ok (Mk handles leaves indices).

(** The bytes of slot [i] lie in the pool of the given base and size. *)
Definition slot_in (s : SlabAllocator.t) (i lo size : Z) : Prop :=
  lo ≤ SlabAllocator.base s + i * SlabAllocator.slot_size s ∧
  SlabAllocator.base s + (i + 1) * SlabAllocator.slot_size s ≤ lo + size.

(** The three pools of a compute server are constructed with well-formed
    allocators; the head-leaf handle is the only slot in use; every slot of a
    pool lies inside that pool's own share of the reserved region, so slots of
    different pools never overlap, and its offset fits the 32-bit offset field
    of a leaf handle. *)
Theorem slab_pools_layout :
  ∃ p, make = Ok p ∧
  SlabAllocator.wf (handles p) ∧ SlabAllocator.wf (leaves p) ∧ SlabAllocator.wf (indices p) ∧
  (∀ i, SlabAllocator.used (handles p) i ↔ i = 0%nat) ∧
  SlabAllocator.addr (handles p) 0 = kHeadLeafHandleOffset ∧
  (∀ i, ¬ SlabAllocator.used (leaves p) i ∧ ¬ SlabAllocator.used (indices p) i) ∧
  (∀ i, 0 ≤ i < kNumHandleSlots → slot_in (handles p) i kHandlePoolBase kSlabHandleBytes) ∧
  (∀ i, 0 ≤ i < kNumLeafSlots → slot_in (leaves p) i kLeafPoolBase kSlabLeafBytes ∧
     fits 32 (SlabAllocator.addr (leaves p) (Z.to_nat i))) ∧
  (∀ i, 0 ≤ i < kNumIndexSlots → slot_in (indices p) i kIndexPoolBase kSlabIndexBytes) ∧
  kIndexPoolBase + kSlabIndexBytes = kSkipVectorRegionBase + kSkipVectorRegionBytes.
Proof.
  destruct (SlabAllocator.make_spec kHandlePoolBase kLeafHandleSize kNumHandleSlots 1)
    as (h & Eh & Hh & Bh & Sh & Nh & Fh & Uh); [done..|].
  destruct (SlabAllocator.make_spec kLeafPoolBase kLeafContentSize kNumLeafSlots 0)
    as (l & El & Hl & Bl & Sl & Nl & Fl & Ul); [done..|].
  destruct (SlabAllocator.make_spec kIndexPoolBase kIndexNodeSize kNumIndexSlots 0)
    as (x & Ex & Hx & Bx & Sx & Nx & Fx & Ux); [done..|].
  exists (Mk h l x). unfold make. rewrite Eh, El, Ex. cbn [handles leaves indices].
  unfold slot_in, SlabAllocator.addr. rewrite Bh, Bl, Bx, Sh, Sl, Sx.
  assert (kNumHandleSlots = 33554432 ∧ kNumLeafSlots = 466033 ∧ kNumIndexSlots = 466033) as (-> & -> & ->)
    by done.
  unfold fits, kIndexPoolBase, kLeafPoolBase, kHandlePoolBase, kSkipVectorRegionBase, kSkipVectorRegionBytes,
    kSlabHandleBytes, kSlabLeafBytes, kSlabIndexBytes, kLeafHandleSize, kLeafContentSize, kIndexNodeSize, MB.
  split; [done|]. do 3 (split; [done|]). split; [intros i; rewrite Uh; lia|]. split; [done|].
  split; [intros i; rewrite Ul, Ux; lia|]. split_and!; intros; split_and?; lia.
Qed.

End SlabPools.
