(* ===== verification/Verbs.v ===== *)
(** * One-sided RDMA verbs ([SkipVectorDM/src/rdma/Operation.cpp],
    [SkipVectorDM/src/DMVerbs.cc])

    [Operation.cpp] builds chains of work requests and posts them to a queue
    pair; [DMVerbs] translates global addresses to the registered memory of a
    node and waits for completions.  The network card is not part of the
    program: the class [Nic] is its interface and [NicSpec] the documented
    effect of each opcode on memory. *)

From S2P Require Import Prelude KVConfig RdmaConfig.
Open Scope Z_scope.

(** ** Byte-addressed memory *)

Definition mem := Z → Z.

Definition mread (m : mem) (a n : Z) : list Z := m <$> seqZ a n.
Definition mwrite (m : mem) (a : Z) (l : list Z) : mem := λ x,
  if a <=? x then match l !! Z.to_nat (x - a) with Some b => b | None => m x end else m x.

(** An aligned 8-byte word, as the atomic verbs access it. *)
Definition word (m : mem) (a : Z) : Z := le_num (mread m a 8).

Lemma length_mread m a n : 0 ≤ n → Z.of_nat (length (mread m a n)) = n.
Proof. intros. unfold mread. rewrite length_fmap, length_seqZ. lia. Qed.

Lemma mread_lookup m a n i : (i < Z.to_nat n)%nat → mread m a n !! i = Some (m (a + Z.of_nat i)).
Proof. intros. unfold mread. rewrite list_lookup_fmap, lookup_seqZ_lt by lia. done. Qed.

Lemma mwrite_in m a l i b : l !! i = Some b → mwrite m a l (a + Z.of_nat i) = b.
Proof.
  intros H. unfold mwrite. rewrite (proj2 (Z.leb_le _ _)) by lia.
  replace (Z.to_nat (a + Z.of_nat i - a)) with i by lia. by rewrite H.
Qed.

Lemma mwrite_out m a l x : x < a ∨ a + Z.of_nat (length l) ≤ x → mwrite m a l x = m x.
Proof.
  intros H. unfold mwrite. destruct (Z.leb_spec a x); [|done].
  by rewrite lookup_ge_None_2 by lia.
Qed.

Lemma mread_ext m m' a n : (∀ x, a ≤ x < a + n → m x = m' x) → mread m a n = mread m' a n.
Proof.
  intros H. apply list_fmap_ext. intros i x Hx. apply lookup_seqZ in Hx as [-> ?]. apply H. lia.
Qed.

Lemma mread_mwrite m a l : mread (mwrite m a l) a (Z.of_nat (length l)) = l.
Proof.
  apply list_eq. intros i. destruct (decide (i < length l)%nat) as [Hi|Hi].
  - rewrite mread_lookup by lia. destruct (lookup_lt_is_Some_2 l i Hi) as [b Hb].
    by rewrite Hb, (mwrite_in _ _ _ _ _ Hb).
  - rewrite !lookup_ge_None_2; [done|lia|]. pose proof (length_mread (mwrite m a l) a (Z.of_nat (length l))). lia.
Qed.

Lemma mread_mwrite_disj m a l b n :
  b + n ≤ a ∨ a + Z.of_nat (length l) ≤ b → mread (mwrite m a l) b n = mread m b n.
Proof. intros H. apply mread_ext. intros x Hx. apply mwrite_out. lia. Qed.

Lemma word_mwrite m a v : fits 64 v → word (mwrite m a (le_bytes 8 v)) a = v.
Proof.
  intros Hv. unfold word. change 8 with (Z.of_nat (length (le_bytes 8 v))).
  rewrite mread_mwrite. by apply le_num_le_bytes.
Qed.

(** ** Work requests *)

Inductive opcode :=
| IBV_WR_RDMA_WRITE | IBV_WR_RDMA_WRITE_WITH_IMM | IBV_WR_SEND | IBV_WR_SEND_WITH_IMM
| IBV_WR_RDMA_READ | IBV_WR_ATOMIC_CMP_AND_SWP | IBV_WR_ATOMIC_FETCH_AND_ADD.

(** [struct ibv_send_wr] with its only gather entry; a chain of requests is the
    list of them in [next] order. *)
Record send_wr := MkWr {
  wr_id : Z;
  wr_opcode : opcode;
  sg_addr : Z;
  sg_length : Z;
  sg_lkey : Z;
  imm_data : Z;
  signaled : bool;
  inlined : bool;
  remote_addr : Z;
  rkey : Z;
  compare_add : Z;
  swap : Z }.

(** [struct RdmaOpRegion]; [is_on_chip] shares the bytes of [remoteRKey]. *)
Record RdmaOpRegion := MkRor {
  source : Z;
  dest : Z;
  size : Z;
  lkey : Z;
  remoteRKey : Z }.

Definition is_on_chip (r : RdmaOpRegion) : bool := negb (u8 (remoteRKey r) =? 0).

Definition kWriteOroMax : Z := 24.
Definition kReadOroMax : Z := 1024.
Definition kInlineDataMax : Z := 220.

(** [fillSgeWr]: zeroed request (opcode 0 is [IBV_WR_RDMA_WRITE]). *)
Definition fillSgeWr (source size lkey : Z) : send_wr :=
  MkWr 0 IBV_WR_RDMA_WRITE source (u32 size) lkey 0 false false 0 0 0 0.

Definition set_op (o : opcode) (w : send_wr) : send_wr :=
  MkWr (wr_id w) o (sg_addr w) (sg_length w) (sg_lkey w) (imm_data w) (signaled w) (inlined w)
       (remote_addr w) (rkey w) (compare_add w) (swap w).
Definition set_imm (i : Z) (w : send_wr) : send_wr :=
  MkWr (wr_id w) (wr_opcode w) (sg_addr w) (sg_length w) (sg_lkey w) i (signaled w) (inlined w)
       (remote_addr w) (rkey w) (compare_add w) (swap w).
Definition set_flags (s i : bool) (w : send_wr) : send_wr :=
  MkWr (wr_id w) (wr_opcode w) (sg_addr w) (sg_length w) (sg_lkey w) (imm_data w) s i
       (remote_addr w) (rkey w) (compare_add w) (swap w).
Definition set_id (i : Z) (w : send_wr) : send_wr :=
  MkWr i (wr_opcode w) (sg_addr w) (sg_length w) (sg_lkey w) (imm_data w) (signaled w) (inlined w)
       (remote_addr w) (rkey w) (compare_add w) (swap w).
Definition set_rdma (dest key : Z) (w : send_wr) : send_wr :=
  MkWr (wr_id w) (wr_opcode w) (sg_addr w) (sg_length w) (sg_lkey w) (imm_data w) (signaled w) (inlined w)
       dest key (compare_add w) (swap w).
Definition set_atomic (dest key cmp sw : Z) (w : send_wr) : send_wr :=
  MkWr (wr_id w) (wr_opcode w) (sg_addr w) (sg_length w) (sg_lkey w) (imm_data w) (signaled w) (inlined w)
       dest key cmp sw.

(** *** Single requests *)

Definition rdmaRead (source dest size lkey remoteRKey : Z) (signal : bool) (wrID : Z) : list send_wr :=
  [set_id wrID $ set_rdma dest remoteRKey $ set_flags signal false $
   set_op IBV_WR_RDMA_READ $ fillSgeWr source size lkey].

Definition rdmaWrite (source dest size lkey remoteRKey imm : Z) (isSignaled : bool) (wrID : Z) : list send_wr :=
  let wr := fillSgeWr source size lkey in
  let wr := if imm =? -1 then set_op IBV_WR_RDMA_WRITE wr
            else set_op IBV_WR_RDMA_WRITE_WITH_IMM (set_imm imm wr) in
  [set_id wrID $ set_rdma dest remoteRKey $ set_flags isSignaled (size <=? kInlineDataMax) wr].

Definition rdmaFetchAndAdd (source dest add lkey remoteRKey : Z) : list send_wr :=
  [set_atomic dest remoteRKey add 0 $ set_flags true false $
   set_op IBV_WR_ATOMIC_FETCH_AND_ADD $ fillSgeWr source 8 lkey].

(** The addend is a power of two given by [boundary]; [add] is not used. *)
Definition rdmaFetchAndAddBoundary (source dest add lkey remoteRKey boundary : Z) (singal : bool)
    (wr_id : Z) : list send_wr :=
  [set_atomic dest remoteRKey (u64 (Z.shiftl 1 boundary)) 0 $ set_id wr_id $ set_flags singal true $
   set_op IBV_WR_ATOMIC_FETCH_AND_ADD $ fillSgeWr source 8 lkey].

Definition rdmaCompareAndSwap (source dest compare swap lkey remoteRKey : Z) (signal : bool)
    (wrID : Z) : list send_wr :=
  [set_id wrID $ set_atomic dest remoteRKey compare swap $ set_flags signal false $
   set_op IBV_WR_ATOMIC_CMP_AND_SWP $ fillSgeWr source 8 lkey].

(** Neither [mask] nor [wrID] reaches the request. *)
Definition rdmaCompareAndSwapMask (source dest compare swap lkey remoteRKey mask : Z) (singal : bool)
    (wrID : Z) : list send_wr :=
  [set_atomic dest remoteRKey compare swap $ set_flags singal true $
   set_op IBV_WR_ATOMIC_CMP_AND_SWP $ fillSgeWr source 8 lkey].

(** *** Chains

    The arrays of a batch hold [kReadOroMax] or [kWriteOroMax] requests; an
    empty batch posts an uninitialised request. *)

Definition batch_ok (k max : Z) : result unit :=
  if (0 <? k) && (k <=? max) then Ok tt else Err OutOfBounds.

(** Request [i] of [k] of a batch. *)
Definition batch_wr (o : opcode) (inline_small : bool) (k : nat) (isSignaled : bool) (wrID : Z)
    (i : nat) (r : RdmaOpRegion) : send_wr :=
  set_id wrID $ set_rdma (dest r) (remoteRKey r) $
  set_flags ((i =? k - 1)%nat && isSignaled) (inline_small && (size r <=? kInlineDataMax)) $
  set_op o $ fillSgeWr (source r) (size r) (lkey r).

Definition rdmaReadBatch (ror : list RdmaOpRegion) (isSignaled : bool) (wrID : Z) : result (list send_wr) :=
  batch_ok (Z.of_nat (length ror)) kReadOroMax ≫= λ _,
  Ok (imap (batch_wr IBV_WR_RDMA_READ false (length ror) isSignaled wrID) ror).

Definition rdmaWriteBatch (ror : list RdmaOpRegion) (isSignaled : bool) (wrID : Z) : result (list send_wr) :=
  batch_ok (Z.of_nat (length ror)) kWriteOroMax ≫= λ _,
  Ok (imap (batch_wr IBV_WR_RDMA_WRITE true (length ror) isSignaled wrID) ror).

Definition rdmaCasRead (cas_ror read_ror : RdmaOpRegion) (compare swap : Z) (isSignaled : bool)
    (wrID : Z) : list send_wr :=
  [set_atomic (dest cas_ror) (remoteRKey cas_ror) compare swap $
   set_op IBV_WR_ATOMIC_CMP_AND_SWP $ fillSgeWr (source cas_ror) 8 (lkey cas_ror);
   set_flags isSignaled false $ set_id wrID $ set_rdma (dest read_ror) (remoteRKey read_ror) $
   set_op IBV_WR_RDMA_READ $ fillSgeWr (source read_ror) (size read_ror) (lkey read_ror)].

(** The two requests use each other's remote address. *)
Definition rdmaReadCas (read_ror cas_ror : RdmaOpRegion) (compare swap : Z) (isSignaled : bool)
    (wrID : Z) : list send_wr :=
  [set_rdma (dest cas_ror) (remoteRKey cas_ror) $
   set_op IBV_WR_RDMA_READ $ fillSgeWr (source read_ror) (size read_ror) (lkey read_ror);
   set_flags isSignaled false $ set_id wrID $
   set_atomic (dest read_ror) (remoteRKey read_ror) compare swap $
   set_op IBV_WR_ATOMIC_CMP_AND_SWP $ fillSgeWr (source cas_ror) 8 (lkey cas_ror)].

Definition rdmaCasWrite (cas_ror write_ror : RdmaOpRegion) (compare swap : Z) (isSignaled : bool)
    (wrID : Z) : list send_wr :=
  [set_atomic (dest cas_ror) (remoteRKey cas_ror) compare swap $
   set_op IBV_WR_ATOMIC_CMP_AND_SWP $ fillSgeWr (source cas_ror) 8 (lkey cas_ror);
   set_flags isSignaled false $ set_id wrID $ set_rdma (dest write_ror) (remoteRKey write_ror) $
   set_op IBV_WR_RDMA_WRITE $ fillSgeWr (source write_ror) (size write_ror) (lkey write_ror)].

Definition rdmaWriteFaa (write_ror faa_ror : RdmaOpRegion) (add_val : Z) (isSignaled : bool)
    (wrID : Z) : list send_wr :=
  [set_rdma (dest write_ror) (remoteRKey write_ror) $
   set_op IBV_WR_RDMA_WRITE $ fillSgeWr (source write_ror) (size write_ror) (lkey write_ror);
   set_flags isSignaled false $ set_id wrID $
   set_atomic (dest faa_ror) (remoteRKey faa_ror) add_val 0 $
   set_op IBV_WR_ATOMIC_FETCH_AND_ADD $ fillSgeWr (source faa_ror) 8 (lkey faa_ror)].

Definition rdmaWriteCas (write_ror cas_ror : RdmaOpRegion) (compare swap : Z) (isSignaled : bool)
    (wrID : Z) : list send_wr :=
  [set_rdma (dest write_ror) (remoteRKey write_ror) $
   set_op IBV_WR_RDMA_WRITE $ fillSgeWr (source write_ror) (size write_ror) (lkey write_ror);
   set_flags isSignaled false $ set_id wrID $
   set_atomic (dest cas_ror) (remoteRKey cas_ror) compare swap $
   set_op IBV_WR_ATOMIC_CMP_AND_SWP $ fillSgeWr (source cas_ror) 8 (lkey cas_ror)].

(** ** Completions

    The result of one call of [ibv_poll_cq(cq, 1, wc)]: an error, nothing, or
    one completion with its identifier and whether it succeeded. *)

Inductive poll := PollError | PollEmpty | PollDone (id : Z) (success : bool).

Definition poll_count (p : poll) : Z :=
  match p with PollError => -1 | PollEmpty => 0 | PollDone _ _ => 1 end.

(** [pollWithCQ]: the loop runs on the results of successive polls; [wc] is the
    last completion seen.  It returns the value of the function, that
    completion and the polls left. *)
Fixpoint pollWithCQ_loop (pollNumber count : Z) (wc : Z * bool) (polls : list poll)
    : result (Z * (Z * bool) * list poll) :=
  match polls with
  | [] => Err OutOfFuel
  | p :: polls =>
      let count := count + poll_count p in
      let wc := match p with PollDone id ok => (id, ok) | _ => wc end in
      if count <? pollNumber then pollWithCQ_loop pollNumber count wc polls
      else if count <? 0 then Ok (-1, wc, polls)
      else if negb wc.2 then Ok (-1, wc, polls)
      else Ok (count, wc, polls)
  end.

Definition pollWithCQ (pollNumber : Z) (wc : Z * bool) (polls : list poll) :=
  pollWithCQ_loop pollNumber 0 wc polls.

(** [pollOnce(cq, 1, wc)]. *)
Definition pollOnce (p : poll) : Z :=
  match p with
  | PollDone _ true => 1
  | PollDone _ false => -1
  | _ => 0
  end.

(** [DMVerbs::poll_rdma_cq_once]. *)
Definition poll_rdma_cq_once (p : poll) : option Z :=
  if pollOnce p =? 1 then match p with PollDone id _ => Some id | _ => None end else None.

(** ** The network card *)

(** Remote memory by node and key of the registered region, and the registered
    memory of this node. *)
Record world := MkWorld { remote : Z → Z → mem; local : mem }.

Definition set_local (w : world) (a : Z) (l : list Z) : world :=
  MkWorld (remote w) (mwrite (local w) a l).
Definition set_remote (w : world) (n k a : Z) (l : list Z) : world :=
  MkWorld (λ n' k', if (n' =? n) && (k' =? k) then mwrite (remote w n k) a l else remote w n' k')
          (local w).

(** [nic_exec w n wr] executes request [wr] on the queue pair to node [n]. *)
Class Nic := { nic_exec : world → Z → send_wr → world }.

(** Inline data is for sends and writes only: nothing is said of an atomic
    request with that flag, which [rdmaFetchAndAddBoundary] and
    [rdmaCompareAndSwapMask] set. *)
Class NicSpec `{Nic} : Prop := {
  nic_read w n wr : wr_opcode wr = IBV_WR_RDMA_READ →
    nic_exec w n wr =
    set_local w (sg_addr wr) (mread (remote w n (rkey wr)) (remote_addr wr) (sg_length wr));
  nic_write w n wr : wr_opcode wr = IBV_WR_RDMA_WRITE →
    nic_exec w n wr =
    set_remote w n (rkey wr) (remote_addr wr) (mread (local w) (sg_addr wr) (sg_length wr));
  nic_cas w n wr : wr_opcode wr = IBV_WR_ATOMIC_CMP_AND_SWP → inlined wr = false →
    nic_exec w n wr =
    let old := word (remote w n (rkey wr)) (remote_addr wr) in
    set_local
      (if old =? compare_add wr then set_remote w n (rkey wr) (remote_addr wr) (le_bytes 8 (swap wr)) else w)
      (sg_addr wr) (le_bytes 8 old);
  nic_faa w n wr : wr_opcode wr = IBV_WR_ATOMIC_FETCH_AND_ADD → inlined wr = false →
    nic_exec w n wr =
    let old := word (remote w n (rkey wr)) (remote_addr wr) in
    set_local (set_remote w n (rkey wr) (remote_addr wr) (le_bytes 8 (u64 (old + compare_add wr))))
      (sg_addr wr) (le_bytes 8 old) }.

(** A card that does what the specification says. *)
Definition soft_nic : Nic := {| nic_exec := λ w n wr,
  match wr_opcode wr with
  | IBV_WR_RDMA_READ =>
      set_local w (sg_addr wr) (mread (remote w n (rkey wr)) (remote_addr wr) (sg_length wr))
  | IBV_WR_RDMA_WRITE =>
      set_remote w n (rkey wr) (remote_addr wr) (mread (local w) (sg_addr wr) (sg_length wr))
  | IBV_WR_ATOMIC_CMP_AND_SWP =>
      let old := word (remote w n (rkey wr)) (remote_addr wr) in
      set_local
        (if old =? compare_add wr then set_remote w n (rkey wr) (remote_addr wr) (le_bytes 8 (swap wr)) else w)
        (sg_addr wr) (le_bytes 8 old)
  | IBV_WR_ATOMIC_FETCH_AND_ADD =>
      let old := word (remote w n (rkey wr)) (remote_addr wr) in
      set_local (set_remote w n (rkey wr) (remote_addr wr) (le_bytes 8 (u64 (old + compare_add wr))))
        (sg_addr wr) (le_bytes 8 old)
  | _ => w
  end |}.

Lemma soft_nic_spec : @NicSpec soft_nic.
Proof. split; intros w n wr E; [..|intros _|intros _]; cbn; by rewrite E. Qed.

Definition exec_chain `{Nic} (w : world) (n : Z) (chain : list send_wr) : world :=
  foldl (λ w wr, nic_exec w n wr) w chain.

(** ** [class DMVerbs]: verbs on global addresses *)

(** The entry of a node in [remoteInfo] ([struct ConnectionInfo]). *)
Record ConnectionInfo := MkInfo { dsmBase : Z; dsmRKey : Z; lockBase : Z; lockRKey : Z }.

Module DMVerbs.

Section DMVerbs.
Context {NIC : Nic} (remoteInfo : list ConnectionInfo) (cacheLKey thread_id : Z).

(** The counters of the thread, memory, and the polls of its completion queue
    still to come.  A request takes effect when it is posted: between posting
    and the completion the thread does nothing else with the buffer. *)
Record st := Mk {
  rdma_cnt : gmap (Z * Z) Z;
  rdma_bw : gmap (Z * Z) Z;
  w : world;
  cq : list poll }.

(** [rdma_cnt[thread][node]++], [rdma_bw[thread][node] += size]. *)
Definition bump (m : gmap (Z * Z) Z) (node n : Z) : gmap (Z * Z) Z :=
  <[(thread_id, node) := u64 (default 0 (m !! (thread_id, node)) + n)]> m.

Definition in_table (node : Z) : bool := (thread_id <? MAX_THREAD_NUM) && (node <? MAX_MACHINE_NUM).

Definition count_verb (node : Z) : M st unit := λ s,
  if in_table node then Ok (tt, Mk (bump (rdma_cnt s) node 1) (rdma_bw s) (w s) (cq s))
  else Err OutOfBounds.
Definition count_bw (node size : Z) : M st unit := λ s,
  if in_table node then Ok (tt, Mk (rdma_cnt s) (bump (rdma_bw s) node size) (w s) (cq s))
  else Err OutOfBounds.

Definition info (node : Z) : M st ConnectionInfo := lift (at_index remoteInfo (Z.to_nat node)).

Definition post (node : Z) (chain : list send_wr) : M st unit := λ s,
  Ok (tt, Mk (rdma_cnt s) (rdma_bw s) (exec_chain (w s) node chain) (cq s)).

(** [pollWithCQ(iCon->cq, 1, &wc)], skipped when a coroutine context is given:
    the coroutine is resumed by the master when its completion arrived. *)
Definition wait (ctx : option Z) : M st unit := λ s,
  match ctx with
  | Some _ => Ok (tt, s)
  | None =>
      match pollWithCQ 1 (0, false) (cq s) with
      | Ok (_, _, rest) => Ok (tt, Mk (rdma_cnt s) (rdma_bw s) (w s) rest)
      | Err e => Err e
      end
  end.

(** The flags and identifier of a request: always signalled in a coroutine. *)
Definition ctx_signal (ctx : option Z) (signal : bool) : bool :=
  match ctx with Some _ => true | None => signal end.
Definition ctx_id (ctx : option Z) : Z := default 0 ctx.

Definition load (a : Z) : M st Z := λ s, Ok (word (local (w s)) a, s).

Definition read (buffer : Z) (g : Gaddr) (size : Z) (signal : bool) (ctx : option Z) : M st unit :=
  count_verb (nodeID g) ≫= λ _, count_bw (nodeID g) size ≫= λ _, info (nodeID g) ≫= λ i,
  post (nodeID g) (rdmaRead buffer (u64 (dsmBase i + offset g)) size cacheLKey (dsmRKey i)
    (ctx_signal ctx signal) (ctx_id ctx)).

Definition read_sync (buffer : Z) (g : Gaddr) (size : Z) (ctx : option Z) : M st unit :=
  read buffer g size true ctx ≫= λ _, wait ctx.

Definition write (buffer : Z) (g : Gaddr) (size : Z) (signal : bool) (ctx : option Z) : M st unit :=
  count_verb (nodeID g) ≫= λ _, count_bw (nodeID g) size ≫= λ _, info (nodeID g) ≫= λ i,
  post (nodeID g) (rdmaWrite buffer (u64 (dsmBase i + offset g)) size cacheLKey (dsmRKey i) (-1)
    (ctx_signal ctx signal) (ctx_id ctx)).

Definition write_sync (buffer : Z) (g : Gaddr) (size : Z) (ctx : option Z) : M st unit :=
  write buffer g size true ctx ≫= λ _, wait ctx.

Definition fill_keys_dest (ror : RdmaOpRegion) (g : Gaddr) (is_chip : bool) : M st RdmaOpRegion :=
  info (nodeID g) ≫= λ i,
  mret (if is_chip then MkRor (source ror) (u64 (lockBase i + offset g)) (size ror) cacheLKey (lockRKey i)
        else MkRor (source ror) (u64 (dsmBase i + offset g)) (size ror) cacheLKey (dsmRKey i)).

(** The loop of the batch verbs: the regions filled in place and the node of
    the last one. *)
Fixpoint fill_batch (rs : list RdmaOpRegion) (node_id : Z) : M st (list RdmaOpRegion * Z) :=
  match rs with
  | [] => mret ([], node_id)
  | r :: rs =>
      let g := gaddr_of_val (dest r) in
      count_verb (nodeID g) ≫= λ _, count_bw (nodeID g) (size r) ≫= λ _,
      fill_keys_dest r g (is_on_chip r) ≫= λ r',
      fill_batch rs (nodeID g) ≫= λ '(rs', n), mret (r' :: rs', n)
  end.

Definition read_batch (rs : list RdmaOpRegion) (signal : bool) (ctx : option Z) : M st (list RdmaOpRegion) :=
  fill_batch rs (-1) ≫= λ '(rs', node_id),
  lift (rdmaReadBatch rs' (ctx_signal ctx signal) (ctx_id ctx)) ≫= λ chain,
  post node_id chain ≫= λ _, mret rs'.

Definition read_batch_sync (rs : list RdmaOpRegion) (ctx : option Z) : M st (list RdmaOpRegion) :=
  read_batch rs true ctx ≫= λ rs', wait ctx ≫= λ _, mret rs'.

Definition write_batch (rs : list RdmaOpRegion) (signal : bool) (ctx : option Z) : M st (list RdmaOpRegion) :=
  fill_batch rs (-1) ≫= λ '(rs', node_id),
  lift (rdmaWriteBatch rs' (ctx_signal ctx signal) (ctx_id ctx)) ≫= λ chain,
  post node_id chain ≫= λ _, mret rs'.

Definition write_batch_sync (rs : list RdmaOpRegion) (ctx : option Z) : M st (list RdmaOpRegion) :=
  write_batch rs true ctx ≫= λ rs', wait ctx ≫= λ _, mret rs'.

(** One of the two regions of a combined verb. *)
Definition fill_one (ror : RdmaOpRegion) : M st (RdmaOpRegion * Z) :=
  let g := gaddr_of_val (dest ror) in
  count_verb (nodeID g) ≫= λ _,
  fill_keys_dest ror g (is_on_chip ror) ≫= λ r, mret (r, nodeID g).

Definition write_faa (write_ror faa_ror : RdmaOpRegion) (add_val : Z) (signal : bool) (ctx : option Z)
    : M st unit :=
  fill_one write_ror ≫= λ '(wr, node_id), fill_one faa_ror ≫= λ '(fr, _),
  post node_id (rdmaWriteFaa wr fr add_val (ctx_signal ctx signal) (ctx_id ctx)).

Definition write_faa_sync (write_ror faa_ror : RdmaOpRegion) (add_val : Z) (ctx : option Z) : M st unit :=
  write_faa write_ror faa_ror add_val true ctx ≫= λ _, wait ctx.

Definition write_cas (write_ror cas_ror : RdmaOpRegion) (equal val : Z) (signal : bool) (ctx : option Z)
    : M st unit :=
  fill_one write_ror ≫= λ '(wr, node_id), fill_one cas_ror ≫= λ '(cr, _),
  post node_id (rdmaWriteCas wr cr equal val (ctx_signal ctx signal) (ctx_id ctx)).

Definition write_cas_sync (write_ror cas_ror : RdmaOpRegion) (equal val : Z) (ctx : option Z) : M st unit :=
  write_cas write_ror cas_ror equal val true ctx ≫= λ _, wait ctx.

Definition cas_read (cas_ror read_ror : RdmaOpRegion) (equal val : Z) (signal : bool) (ctx : option Z)
    : M st unit :=
  fill_one cas_ror ≫= λ '(cr, node_id), fill_one read_ror ≫= λ '(rr, _),
  post node_id (rdmaCasRead cr rr equal val (ctx_signal ctx signal) (ctx_id ctx)).

Definition cas_read_sync (cas_ror read_ror : RdmaOpRegion) (equal val : Z) (ctx : option Z) : M st bool :=
  cas_read cas_ror read_ror equal val true ctx ≫= λ _, wait ctx ≫= λ _,
  load (source cas_ror) ≫= λ old, mret (equal =? old).

Definition cas (g : Gaddr) (equal val rdma_buffer : Z) (signal : bool) (ctx : option Z) : M st unit :=
  count_verb (nodeID g) ≫= λ _, info (nodeID g) ≫= λ i,
  post (nodeID g) (rdmaCompareAndSwap rdma_buffer (u64 (dsmBase i + offset g)) equal val cacheLKey (dsmRKey i)
    (ctx_signal ctx signal) (ctx_id ctx)).

Definition cas_sync (g : Gaddr) (equal val rdma_buffer : Z) (ctx : option Z) : M st bool :=
  cas g equal val rdma_buffer true ctx ≫= λ _, wait ctx ≫= λ _,
  load rdma_buffer ≫= λ old, mret (equal =? old).

Definition cas_mask (g : Gaddr) (equal val rdma_buffer mask : Z) (signal : bool) (ctx : option Z) : M st unit :=
  count_verb (nodeID g) ≫= λ _, info (nodeID g) ≫= λ i,
  post (nodeID g) (rdmaCompareAndSwapMask rdma_buffer (u64 (dsmBase i + offset g)) equal val cacheLKey (dsmRKey i)
    mask (ctx_signal ctx signal) (ctx_id ctx)).

Definition cas_mask_sync (g : Gaddr) (equal val rdma_buffer mask : Z) (ctx : option Z) : M st bool :=
  cas_mask g equal val rdma_buffer mask true ctx ≫= λ _, wait ctx ≫= λ _,
  load rdma_buffer ≫= λ old, mret (Z.land equal mask =? Z.land old mask).

(** The verbs on the on-chip memory of a node. *)

Definition read_dm (buffer : Z) (g : Gaddr) (size : Z) (signal : bool) (ctx : option Z) : M st unit :=
  count_verb (nodeID g) ≫= λ _, info (nodeID g) ≫= λ i,
  post (nodeID g) (rdmaRead buffer (u64 (lockBase i + offset g)) size cacheLKey (lockRKey i)
    (ctx_signal ctx signal) (ctx_id ctx)).

Definition read_dm_sync (buffer : Z) (g : Gaddr) (size : Z) (ctx : option Z) : M st unit :=
  read_dm buffer g size true ctx ≫= λ _, wait ctx.

Definition write_dm (buffer : Z) (g : Gaddr) (size : Z) (signal : bool) (ctx : option Z) : M st unit :=
  count_verb (nodeID g) ≫= λ _, info (nodeID g) ≫= λ i,
  post (nodeID g) (rdmaWrite buffer (u64 (lockBase i + offset g)) size cacheLKey (lockRKey i) (-1)
    (ctx_signal ctx signal) (ctx_id ctx)).

Definition write_dm_sync (buffer : Z) (g : Gaddr) (size : Z) (ctx : option Z) : M st unit :=
  write_dm buffer g size true ctx ≫= λ _, wait ctx.

Definition cas_dm (g : Gaddr) (equal val rdma_buffer : Z) (signal : bool) (ctx : option Z) : M st unit :=
  count_verb (nodeID g) ≫= λ _, info (nodeID g) ≫= λ i,
  post (nodeID g) (rdmaCompareAndSwap rdma_buffer (u64 (lockBase i + offset g)) equal val cacheLKey (lockRKey i)
    (ctx_signal ctx signal) (ctx_id ctx)).

Definition cas_dm_sync (g : Gaddr) (equal val rdma_buffer : Z) (ctx : option Z) : M st bool :=
  cas_dm g equal val rdma_buffer true ctx ≫= λ _, wait ctx ≫= λ _,
  load rdma_buffer ≫= λ old, mret (equal =? old).

Definition cas_dm_mask (g : Gaddr) (equal val rdma_buffer mask : Z) (signal : bool) : M st unit :=
  count_verb (nodeID g) ≫= λ _, info (nodeID g) ≫= λ i,
  post (nodeID g) (rdmaCompareAndSwapMask rdma_buffer (u64 (lockBase i + offset g)) equal val cacheLKey (lockRKey i)
    mask signal 0).

Definition cas_dm_mask_sync (g : Gaddr) (equal val rdma_buffer mask : Z) : M st bool :=
  cas_dm_mask g equal val rdma_buffer mask true ≫= λ _, wait None ≫= λ _,
  load rdma_buffer ≫= λ old, mret (Z.land equal mask =? Z.land old mask).

(** The verbs of [ReplicaGroup], told apart by their identifier. *)

Definition read_tagged (buffer : Z) (g : Gaddr) (size wr_id : Z) (signal : bool) : M st unit :=
  count_verb (nodeID g) ≫= λ _, count_bw (nodeID g) size ≫= λ _, info (nodeID g) ≫= λ i,
  post (nodeID g) (rdmaRead buffer (u64 (dsmBase i + offset g)) size cacheLKey (dsmRKey i) signal wr_id).

Definition write_tagged (buffer : Z) (g : Gaddr) (size wr_id : Z) (signal : bool) : M st unit :=
  count_verb (nodeID g) ≫= λ _, count_bw (nodeID g) size ≫= λ _, info (nodeID g) ≫= λ i,
  post (nodeID g) (rdmaWrite buffer (u64 (dsmBase i + offset g)) size cacheLKey (dsmRKey i) (-1) signal wr_id).

Definition cas_tagged (g : Gaddr) (equal val rdma_buffer wr_id : Z) (signal : bool) : M st unit :=
  count_verb (nodeID g) ≫= λ _, info (nodeID g) ≫= λ i,
  post (nodeID g) (rdmaCompareAndSwap rdma_buffer (u64 (dsmBase i + offset g)) equal val cacheLKey (dsmRKey i)
    signal wr_id).

(** ** What the verbs do

    Node [node] is in the tables and its memory is registered as [i]; the
    completion of the request arrives. *)

Context {NICS : NicSpec}.

Definition connected (node : Z) (i : ConnectionInfo) : Prop :=
  in_table node = true ∧ remoteInfo !! Z.to_nat node = Some i.

(** One successful completion arrives after some empty polls. *)
Definition completes (polls rest : list poll) : Prop :=
  ∃ k id, polls = replicate k PollEmpty ++ PollDone id true :: rest.

(** The memory of the node behind a global address, and the address in it. *)
Definition dsm (wd : world) (i : ConnectionInfo) (g : Gaddr) : mem := remote wd (nodeID g) (dsmRKey i).
Definition dsm_addr (i : ConnectionInfo) (g : Gaddr) : Z := u64 (dsmBase i + offset g).

Lemma pollWithCQ_completes polls rest wc :
  completes polls rest → ∃ id, pollWithCQ 1 wc polls = Ok (1, (id, true), rest).
Proof.
  intros (k & id & ->). exists id. unfold pollWithCQ. revert wc.
  induction k as [|k IH]; intros wc; cbn; [done|]. apply IH.
Qed.

Lemma wait_completes s rest :
  completes (cq s) rest → wait None s = Ok (tt, Mk (rdma_cnt s) (rdma_bw s) (w s) rest).
Proof.
  intros H. destruct (pollWithCQ_completes _ _ (0, false) H) as [id E]. unfold wait. by rewrite E.
Qed.

Lemma read_sync_spec s buf g n i rest :
  connected (nodeID g) i → completes (cq s) rest →
  ∃ s', read_sync buf g n None s = Ok (tt, s') ∧ cq s' = rest ∧
    w s' = set_local (w s) buf (mread (dsm (w s) i g) (dsm_addr i g) (u32 n)).
Proof.
  intros [Ht Hi] Hc. unfold read_sync, read, count_verb, count_bw, info, lift, at_index, post, mbind, M_bind.
  rewrite Ht, Hi. rewrite wait_completes with (rest := rest) by done. eexists. split; [reflexivity|].
  split; [done|]. cbn. by rewrite nic_read.
Qed.

Lemma write_sync_spec s buf g n i rest :
  connected (nodeID g) i → completes (cq s) rest →
  ∃ s', write_sync buf g n None s = Ok (tt, s') ∧ cq s' = rest ∧
    w s' = set_remote (w s) (nodeID g) (dsmRKey i) (dsm_addr i g) (mread (local (w s)) buf (u32 n)).
Proof.
  intros [Ht Hi] Hc. unfold write_sync, write, count_verb, count_bw, info, lift, at_index, post, mbind, M_bind.
  rewrite Ht, Hi. rewrite wait_completes with (rest := rest) by done. eexists. split; [reflexivity|].
  split; [done|]. cbn. by rewrite nic_write.
Qed.

Lemma dsm_set_remote wd i g a l :
  dsm (set_remote wd (nodeID g) (dsmRKey i) a l) i g = mwrite (dsm wd i g) a l.
Proof. unfold dsm; cbn. by rewrite !Z.eqb_refl. Qed.

(** A memory holds bytes. *)
Definition mem_ok (m : mem) : Prop := ∀ x, byte (m x).

Lemma word_fits m a : mem_ok m → fits 64 (word m a).
Proof.
  intros H. unfold word, fits. pose proof (le_num_range (mread m a 8)) as Hr.
  assert (length (mread m a 8) = 8%nat) as E by done. rewrite E in Hr.
  apply Hr. unfold mread. apply Forall_fmap, Forall_forall. intros x _. apply H.
Qed.

(** What is written to a global address is read back from it: after
    [write_sync] from one buffer, [read_sync] of the same address into another
    returns the same bytes, and no byte of any node's memory outside the
    written range has changed. *)
Theorem write_sync_read_sync s g b1 b2 n i rest1 rest2 :
  connected (nodeID g) i → fits 32 n → completes (cq s) rest1 → completes rest1 rest2 →
  ∃ s1 s2, write_sync b1 g n None s = Ok (tt, s1) ∧ read_sync b2 g n None s1 = Ok (tt, s2) ∧
    mread (local (w s2)) b2 n = mread (local (w s)) b1 n ∧
    (∀ node key x,
       ¬ (node = nodeID g ∧ key = dsmRKey i ∧ dsm_addr i g ≤ x < dsm_addr i g + n) →
       remote (w s2) node key x = remote (w s) node key x).
Proof.
  intros Hi Hn H1 H2. destruct (write_sync_spec s b1 g n i rest1 Hi H1) as (s1 & E1 & Q1 & W1).
  rewrite <- Q1 in H2. destruct (read_sync_spec s1 b2 g n i rest2 Hi H2) as (s2 & E2 & _ & W2).
  exists s1, s2. split_and!; [done|done| |].
  - rewrite W2, W1, dsm_set_remote, (wrap_small 32 n) by done. cbn [local set_local].
    pose proof (length_mread (local (w s)) b1 n ltac:(apply Hn)) as Hl.
    rewrite <- Hl at 3. rewrite mread_mwrite. rewrite <- Hl at 1 3. by rewrite mread_mwrite.
  - intros node key x Hx. rewrite W2, W1, (wrap_small 32 n) by done. cbn.
    destruct (Z.eqb_spec node (nodeID g)) as [->|]; [|done].
    destruct (Z.eqb_spec key (dsmRKey i)) as [->|]; [|done]. cbn.
    apply mwrite_out. rewrite length_mread by apply Hn. lia.
Qed.

(** [cas_sync] is a compare-and-swap of the 64-bit word at a global
    address: it reports success exactly when the word was the expected one, in
    which case the word becomes the new value, and otherwise nothing remote
    changes. *)
Theorem cas_sync_atomic s g equal val buf i rest :
  connected (nodeID g) i → completes (cq s) rest → mem_ok (dsm (w s) i g) → fits 64 val →
  let old := word (dsm (w s) i g) (dsm_addr i g) in
  ∃ s', cas_sync g equal val buf None s = Ok (equal =? old, s') ∧
    word (dsm (w s') i g) (dsm_addr i g) = (if equal =? old then val else old) ∧
    (equal ≠ old → ∀ node key x, remote (w s') node key x = remote (w s) node key x).
Proof.
  intros [Ht Hi] Hc Hm Hv old. unfold cas_sync, cas, count_verb, info, lift, at_index, post, load, mbind, M_bind.
  rewrite Ht, Hi. rewrite wait_completes with (rest := rest) by done. cbn [w exec_chain rdmaCompareAndSwap foldl].
  rewrite nic_cas by done. cbn [sg_addr remote_addr rkey compare_add swap set_id set_atomic set_flags set_op fillSgeWr].
  unfold dsm, dsm_addr in *. fold old. rewrite (Z.eqb_sym old).
  cbn [local set_local]. rewrite word_mwrite by (by apply word_fits).
  eexists. split; [reflexivity|]. cbn [w remote set_local]. destruct (Z.eqb_spec equal old).
  - split; [|done]. cbn. rewrite !Z.eqb_refl. cbn. by apply word_mwrite.
  - split; done.
Qed.

(** A region that names an address of registered memory (not on chip). *)
Definition names (r : RdmaOpRegion) (g : Gaddr) : Prop :=
  gaddr_of_val (dest r) = g ∧ is_on_chip r = false.

Lemma fill_one_spec s r g i :
  names r g → connected (nodeID g) i →
  ∃ s', fill_one r s = Ok (MkRor (source r) (dsm_addr i g) (size r) cacheLKey (dsmRKey i), nodeID g, s') ∧
    w s' = w s ∧ cq s' = cq s.
Proof.
  intros [<- Hc] [Ht Hi]. unfold fill_one, fill_keys_dest, count_verb, info, lift, at_index, mbind, M_bind.
  rewrite Ht, Hi, Hc. by eexists.
Qed.

(** The combined verb that writes a block and then releases a lock word of
    the same node delivers them in that order: when the compare-and-swap of
    the word takes effect the block has its new bytes, and the word is swapped
    exactly when it had the expected value. *)
Theorem write_cas_sync_order s wror cror gw gc equal val i rest :
  names wror gw → names cror gc → nodeID gc = nodeID gw → connected (nodeID gw) i →
  completes (cq s) rest → fits 32 (size wror) → fits 64 val →
  (dsm_addr i gw + size wror ≤ dsm_addr i gc ∨ dsm_addr i gc + 8 ≤ dsm_addr i gw) →
  let old := word (dsm (w s) i gc) (dsm_addr i gc) in
  ∃ s', write_cas_sync wror cror equal val None s = Ok (tt, s') ∧
    mread (dsm (w s') i gw) (dsm_addr i gw) (size wror) = mread (local (w s)) (source wror) (size wror) ∧
    word (dsm (w s') i gc) (dsm_addr i gc) = (if old =? equal then val else old) ∧
    local (w s') = mwrite (local (w s)) (source cror) (le_bytes 8 old).
Proof.
  intros Hw Hc En Hi Hq Hsz Hv Hd old. unfold write_cas_sync, write_cas, mbind, M_bind.
  destruct (fill_one_spec s wror gw i Hw Hi) as (s1 & -> & W1 & Q1).
  destruct (fill_one_spec s1 cror gc i Hc ltac:(by rewrite En)) as (s2 & -> & W2 & Q2).
  unfold post. rewrite wait_completes with (rest := rest) by (cbn; congruence).
  eexists. split; [reflexivity|]. cbn [w exec_chain rdmaWriteCas foldl].
  rewrite nic_cas, nic_write by done.
  cbn [sg_addr sg_length remote_addr rkey compare_add swap set_id set_atomic set_rdma set_flags set_op
       fillSgeWr source dest size remoteRKey lkey].
  rewrite W2, W1, (wrap_small 32) by done. subst old. unfold dsm. rewrite En.
  set (old := word (remote (w s) (nodeID gw) (dsmRKey i)) (dsm_addr i gc)).
  assert (word (remote (set_remote (w s) (nodeID gw) (dsmRKey i) (dsm_addr i gw)
    (mread (local (w s)) (source wror) (size wror))) (nodeID gw) (dsmRKey i)) (dsm_addr i gc) = old) as Eold.
  { unfold word. cbn [remote set_remote]. rewrite !Z.eqb_refl. cbn [andb].
    rewrite mread_mwrite_disj; [done|]. rewrite length_mread by apply Hsz. lia. }
  rewrite Eold. cbn [remote set_remote] in Eold. rewrite !Z.eqb_refl in Eold. cbn [remote local set_local].
  pose proof (length_mread (local (w s)) (source wror) (size wror) ltac:(apply Hsz)) as Hl.
  destruct (Z.eqb_spec old equal); cbn [remote local set_remote]; rewrite !Z.eqb_refl; cbn [andb].
  - split_and!; [|by apply word_mwrite|done].
    rewrite mread_mwrite_disj by (cbn [length le_bytes Z.of_nat]; lia).
    rewrite <- Hl at 2. by rewrite mread_mwrite.
  - split_and!; [|exact Eold|done]. rewrite <- Hl at 2. by rewrite mread_mwrite.
Qed.

End DMVerbs.

(** *** A concrete connection *)

Definition sample_info : ConnectionInfo := MkInfo 4096 7 0 8.
Definition sample_st (v : Z) : st :=
  Mk ∅ ∅ (MkWorld (λ _ _, mwrite (λ _, 0) 4096 (le_bytes 8 v)) (λ _, 5))
    [PollEmpty; PollDone 0 true; PollDone 0 true].
Definition sample_gaddr : Gaddr := MkGaddr 0 0.

Lemma sample_mem_ok v : mem_ok (mwrite (λ _, 0) 4096 (le_bytes 8 v)).
Proof.
  intros x. unfold mwrite. destruct (4096 <=? x); [|done]. destruct (_ !! _) eqn:E; [|done].
  by eapply (proj1 (Forall_lookup _ _) (le_bytes_byte 8 v)).
Qed.

Lemma write_sync_read_sync_witness :
  ∃ s1 s2, write_sync (NIC := soft_nic) [sample_info] 9 0 100 sample_gaddr 16 None (sample_st 0) = Ok (tt, s1) ∧
    read_sync (NIC := soft_nic) [sample_info] 9 0 200 sample_gaddr 16 None s1 = Ok (tt, s2) ∧
    mread (local (w s2)) 200 16 = replicate 16 5.
Proof.
  destruct (write_sync_read_sync (NIC := soft_nic) [sample_info] 9 0 (NICS := soft_nic_spec) (sample_st 0)
    sample_gaddr 100 200 16 sample_info [PollDone 0 true] []) as (s1 & s2 & H1 & H2 & H3 & _).
  - done.
  - done.
  - by exists 1%nat, 0.
  - by exists 0%nat, 0.
  - exists s1, s2. done.
Defined.

Lemma cas_sync_atomic_witness :
  ∃ s', cas_sync (NIC := soft_nic) [sample_info] 9 0 sample_gaddr 3 4 100 None (sample_st 3) = Ok (true, s') ∧
    word (dsm (w s') sample_info sample_gaddr) (dsm_addr sample_info sample_gaddr) = 4.
Proof.
  destruct (cas_sync_atomic (NIC := soft_nic) [sample_info] 9 0 (NICS := soft_nic_spec) (sample_st 3)
    sample_gaddr 3 4 100 sample_info [PollDone 0 true]) as (s' & H1 & H2 & _).
  - done.
  - by exists 1%nat, 0.
  - apply sample_mem_ok.
  - done.
  - exists s'. exact (conj H1 H2).
Defined.

Lemma write_cas_sync_order_witness :
  ∃ s', write_cas_sync (NIC := soft_nic) [sample_info] 9 0 (MkRor 100 (gaddr_val (MkGaddr 0 64)) 32 0 0)
      (MkRor 300 (gaddr_val sample_gaddr) 8 0 0) 3 4 None (sample_st 3) = Ok (tt, s') ∧
    mread (dsm (w s') sample_info (MkGaddr 0 64)) 4160 32 = replicate 32 5 ∧
    word (dsm (w s') sample_info sample_gaddr) 4096 = 4.
Proof.
  destruct (write_cas_sync_order (NIC := soft_nic) [sample_info] 9 0 (NICS := soft_nic_spec) (sample_st 3)
    (MkRor 100 (gaddr_val (MkGaddr 0 64)) 32 0 0) (MkRor 300 (gaddr_val sample_gaddr) 8 0 0)
    (MkGaddr 0 64) sample_gaddr 3 4 sample_info [PollDone 0 true]) as (s' & H1 & H2 & H3 & _);
    [done..| | | | |].
  - by exists 1%nat, 0.
  - done.
  - done.
  - vm_compute. by right.
  - exists s'. exact (conj H1 (conj H2 H3)).
Defined.

End DMVerbs.

(** C38: waiting for one completion returns it after any number of empty
    polls, and -1 exactly when its status is a failure.  The branch that
    reports a failed poll is never taken: when the function returns, it has
    counted at least [pollNumber] completions, and a failed poll only makes it
    swallow one completion more, whatever that completion's status. *)
Theorem pollWithCQ_spec :
  (∀ wc k id ok rest,
     pollWithCQ 1 wc (replicate k PollEmpty ++ PollDone id ok :: rest) =
     Ok (if ok then 1 else -1, (id, ok), rest)) ∧
  (∀ n wc polls r wc' rest, 0 ≤ n → pollWithCQ n wc polls = Ok (r, wc', rest) →
     (r = -1 ↔ wc'.2 = false) ∧ (r ≠ -1 → n ≤ r)) ∧
  (∀ wc id1 ok id2 rest,
     pollWithCQ 1 wc (PollError :: PollDone id1 ok :: PollDone id2 true :: rest) =
     Ok (1, (id2, true), rest)).
Proof.
  split_and!.
  - intros wc k id ok rest. unfold pollWithCQ. revert wc.
    induction k as [|k IH]; intros wc; [by destruct ok|]. apply IH.
  - intros n wc polls r wc' rest Hn. unfold pollWithCQ. generalize 0 as count. revert wc.
    induction polls as [|p polls IH]; intros wc count; cbn [pollWithCQ_loop]; [done|].
    destruct (Z.ltb_spec (count + poll_count p) n); [apply IH|].
    destruct (Z.ltb_spec (count + poll_count p) 0); [lia|].
    destruct (match p with PollDone id ok => (id, ok) | _ => wc end) as [id [|]]; cbn;
      intros [= <- <- <-]; cbn; split; [split; [lia|done]|lia|done|done].
  - done.
Qed.

(** ** Registered memory of the threads ([DMVerbs::registerThread]) *)

Module Thread.

(** The [thread_local] members. *)
Record t := Mk {
  thread_id : Z;
  thread_tag : Z;
  rdma_buffer : Z;
  rbuf : list RdmaBuffer.t }.

Definition zero_rbuf : RdmaBuffer.t := RdmaBuffer.Mk 0 0 0 0 0 0 0 0 0 0 0.
Definition init : t := Mk (-1) 0 0 (replicate (Z.to_nat kMaxCoro) zero_rbuf).

(** The loop over the coroutines. *)
Fixpoint set_buffers (rdma_buffer i : Z) (bs : list RdmaBuffer.t) : result (list RdmaBuffer.t) :=
  match bs with
  | [] => Ok []
  | b :: bs =>
      RdmaBuffer.set_buffer b (rdma_buffer + i * kPerCoroRdmaBuf) ≫= λ b',
      set_buffers rdma_buffer (i + 1) bs ≫= λ bs', Ok (b' :: bs')
  end.

(** [registerThread] with the shared counter [appID]; the arrays of connections
    have [MAX_THREAD_NUM] entries. *)
Definition registerThread (myNodeID cache_data appID : Z) (th : t) : result (Z * t) :=
  if negb (thread_id th =? -1) then Ok (appID, th)
  else if MAX_THREAD_NUM <=? appID then Err OutOfBounds
  else
    let buf := cache_data + appID * kPerThreadRdmaBuf in
    set_buffers buf 0 (rbuf th) ≫= λ bs,
    Ok (appID + 1, Mk appID (u64 (appID + Z.shiftl myNodeID 32 + 1)) buf bs).

Lemma set_buffer_spec b buf :
  RdmaBuffer.wf b ∨ b = zero_rbuf →
  ∃ b', RdmaBuffer.set_buffer b buf = Ok b' ∧ RdmaBuffer.wf b' ∧ RdmaBuffer.buffer b' = buf.
Proof.
  intros Hb. unfold RdmaBuffer.set_buffer.
  rewrite (proj2 (Z.ltb_lt _ _)); [|unfold RdmaBuffer.kCasBufferCnt; change kPerCoroRdmaBuf with 67108864; lia].
  eexists. split; [reflexivity|]. split; [|done].
  destruct Hb as [[]| ->]; constructor; cbn; try done;
    unfold RdmaBuffer.kCasBufferCnt, RdmaBuffer.kPageBufferCnt, RdmaBuffer.kSiblingBufferCnt, KB; lia.
Qed.

Lemma set_buffers_spec buf i bs :
  Forall (λ b, b = zero_rbuf) bs →
  ∃ bs', set_buffers buf i bs = Ok bs' ∧ length bs' = length bs ∧
    ∀ j b, bs' !! j = Some b →
      RdmaBuffer.wf b ∧ RdmaBuffer.buffer b = buf + (i + Z.of_nat j) * kPerCoroRdmaBuf.
Proof.
  intros H. revert i. induction H as [|b bs -> _ IH]; intros i; cbn [set_buffers].
  { exists []. done. }
  destruct (set_buffer_spec zero_rbuf (buf + i * kPerCoroRdmaBuf) (or_intror eq_refl)) as (b' & -> & Hw & Hb).
  destruct (IH (i + 1)) as (bs' & E & Hl & Hbs). cbn [mbind result_bind]. rewrite E.
  exists (b' :: bs'). split; [done|]. split; [by cbn; rewrite Hl|].
  intros [|j] x Hx; simplify_eq/=; [by rewrite Z.add_0_r|].
  destruct (Hbs j x Hx) as [? ->]. split; [done|]. f_equal. f_equal. lia.
Qed.

(** The first [MAX_THREAD_NUM] threads that register obtain distinct
    identifiers and tags, and every coroutine of every thread a well-formed
    buffer of [kPerCoroRdmaBuf] bytes of its own inside the registered cache. *)
Theorem register_threads_disjoint node data id1 id2 :
  fits 16 node → 0 ≤ id1 < id2 → id2 < MAX_THREAD_NUM →
  ∃ t1 t2, registerThread node data id1 init = Ok (id1 + 1, t1) ∧
    registerThread node data id2 init = Ok (id2 + 1, t2) ∧
    thread_id t1 ≠ thread_id t2 ∧ thread_tag t1 ≠ thread_tag t2 ∧
    registerThread node data id2 t1 = Ok (id2, t1) ∧
    (∀ i j b1 b2, rbuf t1 !! i = Some b1 → rbuf t2 !! j = Some b2 →
       RdmaBuffer.wf b1 ∧ RdmaBuffer.wf b2 ∧
       data ≤ RdmaBuffer.buffer b1 ∧
       RdmaBuffer.buffer b1 + kPerCoroRdmaBuf ≤ RdmaBuffer.buffer b2 ∧
       RdmaBuffer.buffer b2 + kPerCoroRdmaBuf ≤ data + rdmaBufferSize * GB) ∧
    (∀ i j b1 b2, rbuf t1 !! i = Some b1 → rbuf t1 !! j = Some b2 → (i < j)%nat →
       RdmaBuffer.buffer b1 + kPerCoroRdmaBuf ≤ RdmaBuffer.buffer b2).
Proof.
  intros Hnode Hid Hmax. change MAX_THREAD_NUM with 4 in *.
  assert (∀ id, 0 ≤ id < 4 → ∃ bs, registerThread node data id init =
    Ok (id + 1, Mk id (u64 (id + Z.shiftl node 32 + 1)) (data + id * kPerThreadRdmaBuf) bs) ∧
    length bs = 8%nat ∧ ∀ j b, bs !! j = Some b → RdmaBuffer.wf b ∧
      RdmaBuffer.buffer b = data + id * kPerThreadRdmaBuf + Z.of_nat j * kPerCoroRdmaBuf) as Hreg.
  { intros id H. destruct (set_buffers_spec (data + id * kPerThreadRdmaBuf) 0 (rbuf init)) as (bs & E & Hl & Hb);
      [by apply Forall_replicate|].
    exists bs. unfold registerThread. change MAX_THREAD_NUM with 4. rewrite (proj2 (Z.leb_gt _ _)) by lia.
    cbn [init thread_id negb Z.eqb Pos.eqb]. rewrite E. split; [done|]. split; [by rewrite Hl|].
    intros j b Hj. destruct (Hb j b Hj) as [? ->]. split; [done|]. by rewrite Z.add_0_l. }
  destruct (Hreg id1) as (bs1 & E1 & L1 & H1); [lia|]. destruct (Hreg id2) as (bs2 & E2 & L2 & H2); [lia|].
  eexists _, _. split; [exact E1|]. split; [exact E2|]. cbn [thread_id thread_tag rbuf].
  change kPerThreadRdmaBuf with 536870912 in *. change kPerCoroRdmaBuf with 67108864 in *.
  change (rdmaBufferSize * GB) with 2147483648.
  split; [lia|]. split.
  { unfold fits in Hnode. rewrite Z.shiftl_mul_pow2 by lia. rewrite !wrap_small by (unfold fits; lia). lia. }
  split.
  { unfold registerThread. cbn [thread_id]. by rewrite (proj2 (Z.eqb_neq id1 (-1))) by lia. }
  split.
  - intros i j b1 b2 Hi Hj. pose proof (lookup_lt_Some _ _ _ Hi). pose proof (lookup_lt_Some _ _ _ Hj).
    destruct (H1 i b1 Hi) as [? ->], (H2 j b2 Hj) as [? ->]. split_and!; try done; lia.
  - intros i j b1 b2 Hi Hj ?. destruct (H1 i b1 Hi) as [_ ->], (H1 j b2 Hj) as [_ ->]. lia.
Qed.

Lemma register_threads_disjoint_witness :
  ∃ t1 t2, registerThread 3 4096 0 init = Ok (1, t1) ∧ registerThread 3 4096 1 init = Ok (2, t2) ∧
    thread_id t1 ≠ thread_id t2 ∧ thread_tag t1 ≠ thread_tag t2.
Proof.
  destruct (register_threads_disjoint 3 4096 0 1) as (t1 & t2 & H1 & H2 & H3 & H4 & _);
    [done|done|done|]. exists t1, t2. split_and!; done.
Defined.

End Thread.
