(* ===== verification/ReplicaGroup.v ===== *)
(** * Replicated verbs ([SkipVectorDM/include/skipvector/ReplicaGroup.h],
    [SkipVectorDM/src/skipvector/ReplicaGroup.cc])

    One logical operation fans out to every replica that is not dropped, the
    client waits for the completions, and the operation succeeds when a quorum
    of replicas did.  The first part is the client's code over the verbs of
    [Verbs.v]; the second is a step relation in which the compare-and-swaps of
    several clients reach the replicas in any order, and each client's
    [cas_all] runs on the previous values it was answered. *)

From S2P Require Import Prelude KVConfig RdmaConfig SkipVector Verbs.
Open Scope Z_scope.

Module ReplicaGroup.

Record t := Mk { num_replicas : Z; drop_mask : Z }.

(** The constructor. *)
Definition make (num_replicas : Z) : result t :=
  require ((0 <? num_replicas) && (num_replicas <=? 32)) ≫= λ _, Ok (Mk num_replicas 0).

Definition set_drop_mask (g : t) (mask : Z) : t := Mk (num_replicas g) mask.

(** [1u << i]. *)
Definition bit (i : Z) : Z := u32 (Z.shiftl 1 i).

Definition dropped (g : t) (i : Z) : bool := negb (Z.land (drop_mask g) (bit i) =? 0).

(** The loop of [wait_quorum_] on the polls to come; [quorum] is not used. *)
Fixpoint wait_loop (posted completions success_mask : Z) (polls : list poll) : result (Z * list poll) :=
  if completions <? posted then
    match polls with
    | [] => Err OutOfFuel
    | p :: polls =>
        match poll_rdma_cq_once p with
        | Some wr_id =>
            require (wr_id <? 32) ≫= λ _,
            wait_loop posted (completions + 1) (Z.lor success_mask (bit wr_id)) polls
        | None => wait_loop posted completions success_mask polls
        end
    end
  else Ok (success_mask, polls).

(** The second loop of [cas_all]: the replicas that completed with the expected
    previous value. *)
Fixpoint wins_loop (expected completed : Z) (prev : Z → result Z) (wins i : Z) (n : nat) : result Z :=
  match n with
  | O => Ok wins
  | S n =>
      if Z.land completed (bit i) =? 0 then wins_loop expected completed prev wins (i + 1) n
      else
        prev i ≫= λ v,
        wins_loop expected completed prev (if v =? expected then Z.lor wins (bit i) else wins) (i + 1) n
  end.

Definition wins_mask (g : t) (expected completed : Z) (prev : Z → result Z) : result Z :=
  wins_loop expected completed prev 0 0 (Z.to_nat (num_replicas g)).

Definition reached (quorum mask : Z) : bool := quorum <=? Z.of_nat (popcount 32 mask).

Section client.
Context {NIC : Nic} (remoteInfo : list ConnectionInfo) (cacheLKey thread_id : Z).

Abbreviation st := DMVerbs.st.

(** The posting loop: [verb i] for every replica that is not dropped; the
    result is the number of verbs posted. *)
Fixpoint post_loop (verb : Z → M st unit) (g : t) (i : Z) (n : nat) (posted : Z) : M st Z :=
  match n with
  | O => mret posted
  | S n =>
      if dropped g i then post_loop verb g (i + 1) n posted
      else verb i ≫= λ _, post_loop verb g (i + 1) n (posted + 1)
  end.

Definition post_all (verb : Z → M st unit) (g : t) : M st Z :=
  post_loop verb g 0 (Z.to_nat (num_replicas g)) 0.

Definition wait_quorum (posted quorum : Z) : M st Z := λ s,
  match wait_loop posted 0 0 (DMVerbs.cq s) with
  | Ok (mask, rest) => Ok (mask, DMVerbs.Mk (DMVerbs.rdma_cnt s) (DMVerbs.rdma_bw s) (DMVerbs.w s) rest)
  | Err e => Err e
  end.

Definition read_verb (bufs : list Z) (offset size : Z) (i : Z) : M st unit :=
  lift (at_index bufs (Z.to_nat i)) ≫= λ b,
  DMVerbs.read_tagged remoteInfo cacheLKey thread_id b (Gaddr_make (u16 i) offset) size i true.

Definition read_all (g : t) (offset : Z) (bufs : list Z) (size quorum : Z) : M st (bool * Z) :=
  post_all (read_verb bufs offset size) g ≫= λ posted,
  wait_quorum posted quorum ≫= λ mask, mret (reached quorum mask, mask).

Definition write_verb (buf offset size : Z) (i : Z) : M st unit :=
  DMVerbs.write_tagged remoteInfo cacheLKey thread_id buf (Gaddr_make (u16 i) offset) size i true.

Definition write_all (g : t) (offset buf size quorum : Z) : M st (bool * Z) :=
  post_all (write_verb buf offset size) g ≫= λ posted,
  wait_quorum posted quorum ≫= λ mask, mret (reached quorum mask, mask).

Definition cas_verb (prev_vals : list Z) (offset expected desired : Z) (i : Z) : M st unit :=
  lift (at_index prev_vals (Z.to_nat i)) ≫= λ b,
  DMVerbs.cas_tagged remoteInfo cacheLKey thread_id (Gaddr_make (u16 i) offset) expected desired b i true.

Definition cas_all (g : t) (offset expected desired : Z) (prev_vals : list Z) (quorum : Z) : M st (bool * Z) :=
  post_all (cas_verb prev_vals offset expected desired) g ≫= λ posted,
  wait_quorum posted quorum ≫= λ completed, get ≫= λ s,
  lift (wins_mask g expected completed
    (λ i, at_index prev_vals (Z.to_nat i) ≫= λ b, Ok (word (local (DMVerbs.w s)) b))) ≫= λ wins,
  mret (reached quorum wins, wins).

End client.

(** ** Masks *)

Lemma bit_testbit i j : 0 ≤ i < 32 → Z.testbit (bit i) j = (i =? j).
Proof.
  intros Hi. unfold bit. rewrite wrap_small, Z.shiftl_1_l; [apply Z.pow2_bits_eqb; lia|].
  rewrite Z.shiftl_1_l. split; [lia|]. apply Z.pow_lt_mono_r; lia.
Qed.

Lemma land_bit m i : 0 ≤ i < 32 → (Z.land m (bit i) =? 0) = negb (Z.testbit m i).
Proof.
  intros Hi. destruct (Z.testbit m i) eqn:E; cbn.
  - apply Z.eqb_neq. intros H. assert (Z.testbit (Z.land m (bit i)) i = true) as Hc.
    { rewrite Z.land_spec, E, bit_testbit by done. apply Z.eqb_refl. }
    by rewrite H, Z.bits_0 in Hc.
  - apply Z.eqb_eq, Z.bits_inj'. intros j Hj. rewrite Z.land_spec, bit_testbit, Z.bits_0 by done.
    destruct (Z.eqb_spec i j) as [->|]; [by rewrite E|apply andb_false_r].
Qed.

Lemma dropped_testbit g i : 0 ≤ i < 32 → dropped g i = Z.testbit (drop_mask g) i.
Proof. intros Hi. unfold dropped. rewrite land_bit by done. apply negb_involutive. Qed.

Lemma wins_loop_spec expected completed prev wins i n m :
  0 ≤ i → i + Z.of_nat n ≤ 32 → wins_loop expected completed prev wins i n = Ok m →
  ∀ j, Z.testbit m j = true ↔
    Z.testbit wins j = true ∨ (i ≤ j < i + Z.of_nat n ∧ Z.testbit completed j = true ∧ prev j = Ok expected).
Proof.
  revert wins i. induction n as [|n IH]; intros wins i Hi Hn E j; cbn [wins_loop] in E.
  { simplify_eq. split; [by left|]. intros [?|[? _]]; [done|lia]. }
  rewrite land_bit in E by lia. destruct (Z.testbit completed i) eqn:Hc; cbn in E.
  - inv_ok. rename r into v. rewrite (IH _ (i + 1) ltac:(lia) ltac:(lia) E j).
    assert (Z.testbit (if v =? expected then Z.lor wins (bit i) else wins) j = true ↔
      Z.testbit wins j = true ∨ (i = j ∧ v = expected)) as ->.
    { destruct (Z.eqb_spec v expected); [|naive_solver].
      rewrite Z.lor_spec, bit_testbit, orb_true_iff, Z.eqb_eq by lia. naive_solver. }
    split.
    + intros [[?|[-> ->]]|[? ?]]; [by left|right; split_and!; [lia|lia|done|done]|].
      right. split; [lia|done].
    + intros [?|(? & ? & ?)]; [by left; left|]. destruct (decide (i = j)) as [->|].
      * left. right. split; congruence.
      * right. split; [lia|done].
  - rewrite (IH _ (i + 1) ltac:(lia) ltac:(lia) E j). split.
    + intros [?|[? ?]]; [by left|]. right. split; [lia|done].
    + intros [?|(? & ? & ?)]; [by left|]. right. split; [|done].
      assert (i ≠ j) by congruence. lia.
Qed.

Lemma wins_mask_spec g expected completed prev m :
  0 ≤ num_replicas g ≤ 32 → wins_mask g expected completed prev = Ok m →
  ∀ j, Z.testbit m j = true ↔
    0 ≤ j < num_replicas g ∧ Z.testbit completed j = true ∧ prev j = Ok expected.
Proof.
  intros Hn E j. rewrite (wins_loop_spec expected completed prev 0 0 (Z.to_nat (num_replicas g)) m
    ltac:(lia) ltac:(lia) E j), Z.bits_0.
  rewrite Z2Nat.id by lia. naive_solver.
Qed.

Lemma wins_mask_total g expected completed prev :
  num_replicas g ≤ 32 → (∀ j, Z.testbit completed j = true → ∃ v, prev j = Ok v) →
  ∃ m, wins_mask g expected completed prev = Ok m.
Proof.
  intros Hn Hp. unfold wins_mask. assert (0 + Z.of_nat (Z.to_nat (num_replicas g)) ≤ 32) as Hi by lia. revert Hi.
  generalize 0 at 2 as wins. assert (0 ≤ 0) as H0 by lia. revert H0. generalize 0 at 2 3 4 as i.
  generalize (Z.to_nat (num_replicas g)) as n.
  induction n as [|n IH]; intros i H0 wins Hi; cbn [wins_loop]; [by exists wins|].
  rewrite land_bit by lia. destruct (Z.testbit completed i) eqn:Hc; cbn; [|apply IH; lia].
  destruct (Hp i Hc) as [v ->]. cbn. apply IH; lia.
Qed.

(** ** Waiting for completions *)

(** The identifiers of the verbs whose success a sequence of polls reports. *)
Definition reported (polls : list poll) : list Z := omap poll_rdma_cq_once polls.

(** The replicas a group posts to. *)
Definition targets (g : t) : list Z := filter (λ i, dropped g i = false) (seqZ 0 (num_replicas g)).

Lemma wait_loop_spec posted c m polls rest :
  c + Z.of_nat (length (reported polls)) = posted → Forall (λ i, 0 ≤ i < 32) (reported polls) →
  ∃ m' quiet, wait_loop posted c m (polls ++ rest) = Ok (m', quiet ++ rest) ∧ reported quiet = [] ∧
    ∀ j, Z.testbit m' j = true ↔ Z.testbit m j = true ∨ j ∈ reported polls.
Proof.
  revert c m. induction polls as [|p polls IH]; intros c m Hc Hf.
  { cbn in Hc. exists m, []. split_and!; [|done|set_solver].
    cbn. destruct rest; cbn; by rewrite (proj2 (Z.ltb_ge _ _)) by lia. }
  unfold reported in *. cbn [app wait_loop omap list_omap] in *.
  destruct (poll_rdma_cq_once p) as [id|] eqn:Hp; cbn in *.
  - apply Forall_cons in Hf as [Hid Hf].
    rewrite (proj2 (Z.ltb_lt c _)), (proj2 (Z.ltb_lt id _)) by lia. cbn.
    destruct (IH (c + 1) (Z.lor m (bit id))) as (m' & quiet & E & Hq & Hm); [lia|done|].
    exists m', quiet. split_and!; [done|done|]. intros j.
    rewrite Hm, Z.lor_spec, bit_testbit, orb_true_iff, Z.eqb_eq, elem_of_cons by done. naive_solver.
  - destruct (IH c m Hc Hf) as (m' & quiet & E & Hq & Hm).
    destruct (Z.ltb_spec c posted); [by exists m', quiet|].
    exists m, (p :: polls). assert (omap poll_rdma_cq_once polls = []) as Hnil.
    { apply length_zero_iff_nil. lia. }
    split_and!; [done|by cbn; rewrite Hp|]. intros j. rewrite Hnil. set_solver.
Qed.

Lemma wait_loop_waits posted c m polls :
  c + Z.of_nat (length (reported polls)) < posted → Forall (λ i, 0 ≤ i < 32) (reported polls) →
  wait_loop posted c m polls = Err OutOfFuel.
Proof.
  revert c m. unfold reported. induction polls as [|p polls IH]; intros c m Hc Hf; cbn in *.
  { by rewrite (proj2 (Z.ltb_lt _ _)) by lia. }
  rewrite (proj2 (Z.ltb_lt _ _)) by lia. destruct (poll_rdma_cq_once p) as [id|]; cbn in *.
  - apply Forall_cons in Hf as [Hid Hf]. rewrite (proj2 (Z.ltb_lt id _)) by lia. apply IH; [lia|done].
  - by apply IH.
Qed.

Lemma popcount_ids m ids :
  NoDup ids → Forall (λ i, 0 ≤ i < 32) ids → (∀ j, Z.testbit m j = true ↔ j ∈ ids) →
  popcount 32 m = length ids.
Proof.
  intros Hnd Hf Hm. unfold popcount, countb. apply Permutation_length, NoDup_Permutation; [|done|].
  - apply NoDup_filter, NoDup_seqZ.
  - intros j. rewrite list_elem_of_filter, Hm, elem_of_seqZ. split; [naive_solver|]. intros Hj.
    rewrite Forall_forall in Hf. specialize (Hf j Hj). split; [done|]. cbn. lia.
Qed.

Lemma targets_range g : num_replicas g ≤ 32 → Forall (λ i, 0 ≤ i < 32) (targets g).
Proof.
  intros Hn. apply Forall_forall. intros j [_ Hj%elem_of_seqZ]%list_elem_of_filter. lia.
Qed.

(** The polls [polls] report the completion of every posted verb. *)
Definition delivers (g : t) (polls : list poll) : Prop := reported polls ≡ₚ targets g.

Lemma wait_quorum_spec g q s polls rest :
  0 ≤ num_replicas g ≤ 32 → DMVerbs.cq s = polls ++ rest → delivers g polls →
  ∃ m s' quiet, wait_quorum (Z.of_nat (length (targets g))) q s = Ok (m, s') ∧
    DMVerbs.w s' = DMVerbs.w s ∧ DMVerbs.cq s' = quiet ++ rest ∧ reported quiet = [] ∧
    reached q m = (q <=? Z.of_nat (length (targets g))) ∧
    ∀ j, Z.testbit m j = true ↔ j ∈ targets g.
Proof.
  intros Hn Hq Hd. pose proof (targets_range g ltac:(lia)) as Hr.
  destruct (wait_loop_spec (Z.of_nat (length (targets g))) 0 0 polls rest) as (m & quiet & E & Hqt & Hm).
  - by rewrite <- Hd.
  - by rewrite Hd.
  - assert (∀ j, Z.testbit m j = true ↔ j ∈ targets g) as Hm'.
    { intros j. rewrite Hm, Z.bits_0, Hd. naive_solver. }
    eexists m, _, quiet. unfold wait_quorum. rewrite Hq, E. split; [reflexivity|]. split_and!; try done.
    unfold reached. rewrite (popcount_ids m (targets g)); [done| |done|done].
    apply NoDup_filter, NoDup_seqZ.
Qed.

(** Replicas [i .. i + n) that are not dropped. *)
Definition posted_from (g : t) (i : Z) (n : nat) : list Z :=
  filter (λ j, dropped g j = false) (seqZ i (Z.of_nat n)).

Lemma posted_from_S g i n :
  posted_from g i (S n) = (if dropped g i then [] else [i]) ++ posted_from g (i + 1) n.
Proof.
  unfold posted_from. rewrite seqZ_cons by lia. rewrite filter_cons.
  replace (Z.pred (Z.of_nat (S n))) with (Z.of_nat n) by lia. replace (Z.succ i) with (i + 1) by lia.
  case_decide as Hd; destruct (dropped g i) eqn:E; done.
Qed.

Lemma elem_of_posted_from g i n j :
  j ∈ posted_from g i n ↔ dropped g j = false ∧ i ≤ j < i + Z.of_nat n.
Proof. unfold posted_from. by rewrite list_elem_of_filter, elem_of_seqZ. Qed.

Lemma targets_posted g : 0 ≤ num_replicas g → posted_from g 0 (Z.to_nat (num_replicas g)) = targets g.
Proof. intros. unfold posted_from, targets. by rewrite Z2Nat.id. Qed.

(** *** Verbs that answer into a buffer *)

Section buffers.
Context (sz : Z).

(** The buffers do not overlap. *)
Definition separate (bufs : list Z) : Prop :=
  ∀ j k a b, j ≠ k → bufs !! j = Some a → bufs !! k = Some b → a + sz ≤ b ∨ b + sz ≤ a.

(** A loop of verbs, each of which stores its answer in the buffer of its
    replica, leaves the answers of all replicas in their buffers. *)
Lemma post_answers (verb : Z → M DMVerbs.st unit) (answer : (Z → Z → mem) → Z → list Z) g bufs i n p s :
  0 ≤ i → i + Z.of_nat n ≤ Z.of_nat (length bufs) → separate bufs →
  (∀ r j, Z.of_nat (length (answer r j)) = sz) →
  (∀ j b s, j ∈ posted_from g i n → bufs !! Z.to_nat j = Some b →
     ∃ s', verb j s = Ok (tt, s') ∧ DMVerbs.cq s' = DMVerbs.cq s ∧
       DMVerbs.w s' = set_local (DMVerbs.w s) b (answer (remote (DMVerbs.w s)) j)) →
  ∃ s', post_loop verb g i n p s = Ok (p + Z.of_nat (length (posted_from g i n)), s') ∧
    DMVerbs.cq s' = DMVerbs.cq s ∧ remote (DMVerbs.w s') = remote (DMVerbs.w s) ∧
    ∀ j b, 0 ≤ j → bufs !! Z.to_nat j = Some b →
      mread (local (DMVerbs.w s')) b sz =
      if decide (j ∈ posted_from g i n) then answer (remote (DMVerbs.w s)) j
      else mread (local (DMVerbs.w s)) b sz.
Proof.
  intros Hi Hl Hs Ha Hv. revert i p s Hi Hl Hv.
  induction n as [|n IH]; intros i p s Hi Hl Hv; cbn [post_loop].
  { exists s. split; [by rewrite Z.add_0_r|]. done. }
  rewrite posted_from_S in *. destruct (dropped g i) eqn:Hd; cbn [app] in *.
  - destruct (IH (i + 1) p s) as (s' & E & Hs'); [lia|lia|done|]. by exists s'.
  - destruct (lookup_lt_is_Some_2 bufs (Z.to_nat i)) as [bi Hbi]; [lia|].
    destruct (Hv i bi s) as (s1 & E1 & Q1 & W1); [set_solver|done|].
    destruct (IH (i + 1) (p + 1) s1) as (s' & E & Q & R & Hr); [lia|lia|intros; apply Hv; set_solver|].
    exists s'. unfold mbind, M_bind. rewrite E1, E. split; [do 2 f_equal; cbn [length]; lia|].
    split; [congruence|]. assert (remote (DMVerbs.w s1) = remote (DMVerbs.w s)) as R1 by by rewrite W1.
    split; [congruence|]. intros j b Hj Hb. rewrite (Hr j b Hj Hb), R1.
    pose proof (elem_of_posted_from g (i + 1) n j) as Hin.
    destruct (decide (j ∈ posted_from g (i + 1) n)) as [Hjn|Hjn].
    + by rewrite decide_True by set_solver.
    + rewrite W1. cbn [local set_local]. destruct (decide (j = i)) as [->|Hne].
      * rewrite decide_True by set_solver. rewrite Hb in Hbi. injection Hbi as ->.
        rewrite <- (Ha (remote (DMVerbs.w s)) i) at 1. apply mread_mwrite.
      * rewrite decide_False by set_solver. apply mread_mwrite_disj. rewrite Ha.
        destruct (Hs (Z.to_nat j) (Z.to_nat i) b bi) as [?|?]; [lia|done|done|by left|by right].
Qed.

End buffers.

(** ** The memory of the replicas *)

Section memory.
Context {NIC : Nic} {NICS : NicSpec} (remoteInfo : list ConnectionInfo) (cacheLKey thread_id : Z).
Context (info : Z → ConnectionInfo) (off sz : Z) (sz_fits : fits 32 sz).

Abbreviation connected := (DMVerbs.connected remoteInfo thread_id).

(** The bytes of replica [i] at the logical offset. *)
Definition at_replica (wd : world) (i : Z) : list Z :=
  mread (remote wd i (dsmRKey (info i))) (u64 (dsmBase (info i) + wrap 48 off)) sz.

Lemma replica_gaddr i : 0 ≤ i < 32 → nodeID (Gaddr_make (u16 i) off) = i.
Proof. intros Hi. cbn. rewrite !(wrap_small 16); unfold fits; try rewrite wrap_small; unfold fits; lia. Qed.

Lemma write_verb_spec b i s :
  0 ≤ i < 32 → connected i (info i) →
  ∃ s', write_verb remoteInfo cacheLKey thread_id b off sz i s = Ok (tt, s') ∧
    DMVerbs.cq s' = DMVerbs.cq s ∧
    DMVerbs.w s' = set_remote (DMVerbs.w s) i (dsmRKey (info i)) (u64 (dsmBase (info i) + wrap 48 off))
      (mread (local (DMVerbs.w s)) b sz).
Proof.
  intros Hi [Ht Hc]. unfold write_verb, DMVerbs.write_tagged, DMVerbs.count_verb, DMVerbs.count_bw, DMVerbs.info,
    DMVerbs.post, lift, at_index, mbind, M_bind. rewrite replica_gaddr, Ht, Hc by done.
  eexists. split; [reflexivity|]. split; [done|]. cbn -[wrap]. rewrite nic_write by done. cbn -[wrap].
  by rewrite (wrap_small 32) by done.
Qed.

Lemma read_verb_spec bufs b i s :
  0 ≤ i < 32 → connected i (info i) → bufs !! Z.to_nat i = Some b →
  ∃ s', read_verb remoteInfo cacheLKey thread_id bufs off sz i s = Ok (tt, s') ∧
    DMVerbs.cq s' = DMVerbs.cq s ∧
    DMVerbs.w s' = set_local (DMVerbs.w s) b (at_replica (DMVerbs.w s) i).
Proof.
  intros Hi [Ht Hc] Hb. unfold read_verb, DMVerbs.read_tagged, DMVerbs.count_verb, DMVerbs.count_bw, DMVerbs.info,
    DMVerbs.post, lift, at_index, mbind, M_bind. rewrite Hb, replica_gaddr, Ht, Hc by done.
  eexists. split; [reflexivity|]. split; [done|]. cbn -[wrap]. rewrite nic_read by done. cbn -[wrap].
  by rewrite (wrap_small 32) by done.
Qed.

Lemma post_writes g b i n p s :
  0 ≤ i → i + Z.of_nat n ≤ 32 → (∀ j, i ≤ j < i + Z.of_nat n → connected j (info j)) →
  ∃ s', post_loop (write_verb remoteInfo cacheLKey thread_id b off sz) g i n p s
      = Ok (p + Z.of_nat (length (posted_from g i n)), s') ∧
    DMVerbs.cq s' = DMVerbs.cq s ∧ local (DMVerbs.w s') = local (DMVerbs.w s) ∧
    ∀ j, at_replica (DMVerbs.w s') j =
      if decide (j ∈ posted_from g i n) then mread (local (DMVerbs.w s)) b sz
      else at_replica (DMVerbs.w s) j.
Proof.
  revert i p s. induction n as [|n IH]; intros i p s Hi Hn Hc; cbn [post_loop].
  { exists s. split; [by rewrite Z.add_0_r|]. done. }
  rewrite posted_from_S. destruct (dropped g i) eqn:Hd; cbn [app].
  - destruct (IH (i + 1) p s) as (s' & E & Hs'); [lia|lia|intros; apply Hc; lia|]. by exists s'.
  - destruct (write_verb_spec b i s) as (s1 & E1 & Q1 & W1); [lia|apply Hc; lia|].
    destruct (IH (i + 1) (p + 1) s1) as (s' & E & Q & L & Hr); [lia|lia|intros; apply Hc; lia|].
    exists s'. unfold mbind, M_bind. rewrite E1, E. split; [do 2 f_equal; cbn [length]; lia|].
    split; [congruence|]. assert (local (DMVerbs.w s1) = local (DMVerbs.w s)) as L1 by by rewrite W1.
    split; [congruence|]. intros j. rewrite Hr, L1. pose proof (elem_of_posted_from g (i + 1) n j) as Hin.
    destruct (decide (j ∈ posted_from g (i + 1) n)) as [Hj|Hj].
    + by rewrite decide_True by set_solver.
    + destruct (decide (j = i)) as [->|Hne].
      * rewrite decide_True by set_solver. unfold at_replica at 1. rewrite W1. cbn -[wrap].
        rewrite !Z.eqb_refl. cbn -[wrap].
        pose proof (length_mread (local (DMVerbs.w s)) b sz ltac:(apply sz_fits)) as Hl.
        rewrite <- Hl at 2. by rewrite mread_mwrite.
      * rewrite decide_False by set_solver. unfold at_replica. rewrite W1. cbn -[wrap].
        by rewrite (proj2 (Z.eqb_neq j i)).
Qed.

(** The hypotheses of a group operation: at most 32 replicas, all connected. *)
Definition group_ok (g : t) : Prop :=
  0 ≤ num_replicas g ≤ 32 ∧ ∀ j, 0 ≤ j < num_replicas g → connected j (info j).

Lemma write_all_spec g b q s polls rest :
  group_ok g → DMVerbs.cq s = polls ++ rest → delivers g polls →
  ∃ m s' quiet, write_all remoteInfo cacheLKey thread_id g off b sz q s =
      Ok (q <=? Z.of_nat (length (targets g)), m, s') ∧
    DMVerbs.cq s' = quiet ++ rest ∧ reported quiet = [] ∧
    (∀ j, Z.testbit m j = true ↔ j ∈ targets g) ∧
    ∀ j, at_replica (DMVerbs.w s') j =
      if decide (j ∈ targets g) then mread (local (DMVerbs.w s)) b sz else at_replica (DMVerbs.w s) j.
Proof.
  intros [Hn Hc] Hq Hd. unfold write_all, post_all, mbind, M_bind.
  destruct (post_writes g b 0 (Z.to_nat (num_replicas g)) 0 s) as (s1 & -> & Q1 & L1 & R1);
    [lia|lia|intros; apply Hc; lia|]. rewrite targets_posted in * by lia. rewrite Z.add_0_l.
  destruct (wait_quorum_spec g q s1 polls rest) as (m & s' & quiet & -> & W & Q & Hqt & Hr & Hm);
    [lia|congruence|done|]. exists m, s', quiet. rewrite Hr. split; [done|]. split_and!; try done.
  intros j. by rewrite W.
Qed.

Lemma read_all_spec g bufs q s polls rest :
  group_ok g → DMVerbs.cq s = polls ++ rest → delivers g polls →
  num_replicas g ≤ Z.of_nat (length bufs) → separate sz bufs →
  ∃ m s', read_all remoteInfo cacheLKey thread_id g off bufs sz q s =
      Ok (q <=? Z.of_nat (length (targets g)), m, s') ∧
    (∀ j, Z.testbit m j = true ↔ j ∈ targets g) ∧
    ∀ j b, j ∈ targets g → bufs !! Z.to_nat j = Some b →
      mread (local (DMVerbs.w s')) b sz = at_replica (DMVerbs.w s) j.
Proof.
  intros [Hn Hc] Hq Hd Hl Hs. unfold read_all, post_all, mbind, M_bind.
  destruct (post_answers sz (read_verb remoteInfo cacheLKey thread_id bufs off sz)
    (λ r i, mread (r i (dsmRKey (info i))) (u64 (dsmBase (info i) + wrap 48 off)) sz)
    g bufs 0 (Z.to_nat (num_replicas g)) 0 s) as (s1 & -> & Q1 & _ & R1);
    [lia|lia|done|intros; apply length_mread, sz_fits| |].
  { intros j b s1 [_ Hj]%elem_of_posted_from Hb. apply read_verb_spec; [lia|apply Hc; lia|done]. }
  rewrite targets_posted in * by lia. rewrite Z.add_0_l.
  destruct (wait_quorum_spec g q s1 polls rest) as (m & s' & quiet & -> & W & Q & Hqt & Hr & Hm);
    [lia|congruence|done|]. exists m, s'. rewrite Hr. split; [done|]. split; [done|].
  intros j b Hj Hb. rewrite W, (R1 j b); [by rewrite decide_True| |done].
  apply list_elem_of_filter in Hj as [_ Hj%elem_of_seqZ]. lia.
Qed.

(** C15: a quorum read sees a quorum write.  With at most 32 connected replicas,
    whatever replicas are dropped for the write and for the read: both return,
    each succeeds exactly when its quorum is met by the replicas it was sent
    to, and when both succeed with quorums that add up to more than the number
    of replicas, some replica acknowledged both, and its read buffer holds the
    written bytes. *)
Theorem quorum_read_sees_write g1 g2 b bufs q1 q2 s polls1 polls2 rest :
  group_ok g1 → num_replicas g2 = num_replicas g1 →
  DMVerbs.cq s = polls1 ++ polls2 ++ rest → delivers g1 polls1 → delivers g2 polls2 →
  num_replicas g1 ≤ Z.of_nat (length bufs) → separate sz bufs → num_replicas g1 < q1 + q2 →
  ∃ m1 s1 m2 s2,
    write_all remoteInfo cacheLKey thread_id g1 off b sz q1 s =
      Ok (q1 <=? Z.of_nat (length (targets g1)), m1, s1) ∧
    read_all remoteInfo cacheLKey thread_id g2 off bufs sz q2 s1 =
      Ok (q2 <=? Z.of_nat (length (targets g2)), m2, s2) ∧
    (q1 ≤ Z.of_nat (length (targets g1)) → q2 ≤ Z.of_nat (length (targets g2)) →
     ∃ i buf, 0 ≤ i < num_replicas g1 ∧ Z.testbit m1 i = true ∧ Z.testbit m2 i = true ∧
       bufs !! Z.to_nat i = Some buf ∧
       mread (local (DMVerbs.w s2)) buf sz = mread (local (DMVerbs.w s)) b sz).
Proof.
  intros Hg1 En Hcq H1 H2 Hl Hs Hq.
  assert (group_ok g2) as Hg2 by (unfold group_ok; by rewrite En).
  destruct (write_all_spec g1 b q1 s polls1 (polls2 ++ rest) Hg1 Hcq H1)
    as (m1 & s1 & quiet & E1 & Q1 & Hqt & Hm1 & R1).
  rewrite app_assoc in Q1.
  assert (delivers g2 (quiet ++ polls2)) as H2'.
  { unfold delivers, reported in *. by rewrite omap_app, Hqt. }
  destruct (read_all_spec g2 bufs q2 s1 (quiet ++ polls2) rest Hg2 Q1 H2' ltac:(lia) Hs)
    as (m2 & s2 & E2 & Hm2 & R2).
  exists m1, s1, m2, s2. split_and!; [done|done|]. intros Hq1 Hq2.
  destruct Hg1 as [Hn _].
  assert (∀ g m, num_replicas g = num_replicas g1 → (∀ j, Z.testbit m j = true ↔ j ∈ targets g) →
    popcount (Z.to_nat (num_replicas g1)) m = length (targets g)) as Hpc.
  { intros g m Eg Hm. rewrite <- (popcount_low _ 32); [|lia|].
    - apply popcount_ids; [apply NoDup_filter, NoDup_seqZ|apply targets_range; lia|done].
    - intros j Hj. apply not_true_is_false. rewrite Hm. intros [_ ?%elem_of_seqZ]%list_elem_of_filter. lia. }
  destruct (popcount_intersect (Z.to_nat (num_replicas g1)) m1 m2) as (i & Hi & Hi1 & Hi2).
  { rewrite (Hpc g1 m1), (Hpc g2 m2) by done. lia. }
  destruct (lookup_lt_is_Some_2 bufs (Z.to_nat i)) as [buf Hbuf]; [lia|].
  exists i, buf. split_and!; [lia|lia|done|done|done|].
  rewrite (R2 i buf), R1, decide_True; [done|by apply Hm1|by apply Hm2|done].
Qed.

End memory.

(** C34: [wait_quorum_] waits for every posted verb, not for a quorum: it
    returns, with the mask of the replicas that completed, once all posted
    verbs succeeded, and it never returns while one of them has not, even when
    the quorum has long been reached; a verb that completes with an error
    status is not counted, so it keeps the client waiting for ever. *)
Theorem wait_quorum_waits_for_all g quorum s :
  0 ≤ num_replicas g ≤ 32 →
  (∀ polls rest, DMVerbs.cq s = polls ++ rest → delivers g polls →
     ∃ m s', wait_quorum (Z.of_nat (length (targets g))) quorum s = Ok (m, s') ∧
       ∀ j, Z.testbit m j = true ↔ j ∈ targets g) ∧
  (Forall (λ i, 0 ≤ i < 32) (reported (DMVerbs.cq s)) →
   (length (reported (DMVerbs.cq s)) < length (targets g))%nat →
   wait_quorum (Z.of_nat (length (targets g))) quorum s = Err OutOfFuel).
Proof.
  intros Hn. split.
  - intros polls rest Hq Hd.
    destruct (wait_quorum_spec g quorum s polls rest Hn Hq Hd) as (m & s' & _ & E & _ & _ & _ & _ & Hm).
    by exists m, s'.
  - intros Hf Hl. unfold wait_quorum. rewrite wait_loop_waits; [done|lia|done].
Qed.

(** ** Concurrent compare-and-swaps

    Several clients call [cas_all] with the same expected value on the same
    word.  Each request executes atomically at its replica, at any time after
    it was posted: one step executes the request of client [c] at replica
    [i] and fixes the previous value that the client's card returns. *)

Section contention.
Context (remoteInfo : list ConnectionInfo) (info : Z → ConnectionInfo) (off : Z).
Context (expected : Z) (desired : nat → Z).

Record replicas := MkReplicas { vals : list Z; prev : gmap (nat * nat) Z }.

Inductive cas_step : replicas → replicas → Prop :=
| cas_exec s c i v :
    vals s !! i = Some v → prev s !! (c, i) = None →
    cas_step s (MkReplicas (if v =? expected then <[i := desired c]> (vals s) else vals s)
                           (<[(c, i) := v]> (prev s))).

(** The request of client [c] at replica [n] that the steps execute. *)
Definition is_request (c : nat) (n : Z) (wr : send_wr) : bool :=
  match wr_opcode wr with IBV_WR_ATOMIC_CMP_AND_SWP => negb (inlined wr) | _ => false end &&
  (remote_addr wr =? u64 (dsmBase (info n) + wrap 48 off)) && (rkey wr =? dsmRKey (info n)) &&
  (compare_add wr =? expected) && (swap wr =? desired c).

(** The card of client [c] in a run that reached [s]: it stores in the client's
    buffer what the step that executed the request returned, and does nothing
    on any other request. *)
Definition reply_nic (s : replicas) (c : nat) : Nic := {| nic_exec := λ wd n wr,
  match prev s !! (c, Z.to_nat n) with
  | Some v => if is_request c n wr then set_local wd (sg_addr wr) (le_bytes 8 v) else wd
  | None => wd
  end |}.

(** A client: its key and thread number, its group (with the replicas it
    drops), its buffers and its state before the call. *)
Record client := MkClient {
  cl_lkey : Z; cl_thread : Z; cl_group : t; cl_bufs : list Z; cl_st : DMVerbs.st }.

(** The client's call of [cas_all]. *)
Definition call (s : replicas) (c : nat) (k : client) (quorum : Z) : result (bool * Z * DMVerbs.st) :=
  cas_all (NIC := reply_nic s c) remoteInfo (cl_lkey k) (cl_thread k) (cl_group k) off expected (desired c)
    (cl_bufs k) quorum (cl_st k).

(** At most 32 connected replicas, separate buffers for the previous values,
    and in [s] the requests to the replicas that are not dropped have executed
    and their completions arrive. *)
Record answered (s : replicas) (c : nat) (k : client) : Prop := {
  an_group : group_ok remoteInfo (cl_thread k) info (cl_group k);
  an_polls : ∃ polls rest, DMVerbs.cq (cl_st k) = polls ++ rest ∧ delivers (cl_group k) polls;
  an_bufs : num_replicas (cl_group k) ≤ Z.of_nat (length (cl_bufs k)) ∧ separate 8 (cl_bufs k);
  an_prev j : j ∈ targets (cl_group k) → is_Some (prev s !! (c, Z.to_nat j)) }.

(** Words hold 64 bits; a replica where a client won holds that client's value,
    and no other client won there. *)
Record exclusive (s : replicas) : Prop := {
  ex_fits : Forall (fits 64) (vals s);
  ex_prev c i v : prev s !! (c, i) = Some v → fits 64 v;
  ex_holds c i : prev s !! (c, i) = Some expected → vals s !! i = Some (desired c);
  ex_unique c c' i : prev s !! (c, i) = Some expected → prev s !! (c', i) = Some expected → c = c' }.

Context (desired_ok : ∀ c, desired c ≠ expected ∧ fits 64 (desired c)).

Lemma cas_step_exclusive s s' : exclusive s → cas_step s s' → exclusive s'.
Proof using desired_ok.
  intros [Hf Hp' Hh Hu] Hst. destruct Hst as [s c i v Hv Hp].
  assert (∀ c', v = expected → prev s !! (c', i) = Some expected → False) as Hno.
  { intros c' -> H. apply Hh in H. rewrite Hv in H. injection H as H. by apply (proj1 (desired_ok c')). }
  split; cbn.
  - destruct (v =? expected); [|done]. apply Forall_insert; [done|]. apply desired_ok.
  - intros c' j v' [[_ <-]|[_ H]]%lookup_insert_Some; [|by eapply Hp'].
    by eapply (proj1 (Forall_lookup _ _) Hf).
  - intros c' j [[[= <- <-] ->]|[Hne H]]%lookup_insert_Some.
    + rewrite Z.eqb_refl. apply list_lookup_insert_eq. by eapply lookup_lt_Some.
    + destruct (Z.eqb_spec v expected) as [E|E]; [|by apply Hh].
      destruct (decide (i = j)) as [->|]; [by destruct (Hno c')|].
      rewrite list_lookup_insert_ne by done. by apply Hh.
  - intros c1 c2 j [[? ?]|[? H1]]%lookup_insert_Some [[? ?]|[? H2]]%lookup_insert_Some; simplify_eq.
    + done.
    + by destruct (Hno c2).
    + by destruct (Hno c1).
    + by eapply Hu.
Qed.

Lemma reachable_exclusive vs s :
  Forall (fits 64) vs → rtc cas_step (MkReplicas vs ∅) s → exclusive s.
Proof using desired_ok.
  intros Hf H. assert (exclusive (MkReplicas vs ∅)) as H0.
  { split; cbn; [done|..]; intros; simplify_map_eq. }
  clear Hf. induction H as [|s1 s2 s3 H12 _ IH]; [done|]. by apply IH, (cas_step_exclusive s1).
Qed.

(** What [cas_all] posts to a replica is the request that the steps execute. *)
Lemma cas_verb_spec s c k v b i st :
  0 ≤ i < 32 → DMVerbs.connected remoteInfo (cl_thread k) i (info i) →
  cl_bufs k !! Z.to_nat i = Some b → prev s !! (c, Z.to_nat i) = Some v →
  ∃ st', cas_verb (NIC := reply_nic s c) remoteInfo (cl_lkey k) (cl_thread k) (cl_bufs k) off
      expected (desired c) i st = Ok (tt, st') ∧
    DMVerbs.cq st' = DMVerbs.cq st ∧ DMVerbs.w st' = set_local (DMVerbs.w st) b (le_bytes 8 v).
Proof.
  intros Hi [Ht Hc] Hb Hv. unfold cas_verb, DMVerbs.cas_tagged, DMVerbs.count_verb, DMVerbs.info,
    DMVerbs.post, lift, at_index, mbind, M_bind. rewrite Hb, replica_gaddr, Ht, Hc by done.
  eexists. split; [reflexivity|]. split; [done|]. cbn -[wrap]. rewrite Hv. unfold is_request. cbn -[wrap].
  by rewrite !Z.eqb_refl.
Qed.

(** [cas_all] returns the replicas where the client found the expected value. *)
Lemma call_spec s c k quorum :
  exclusive s → answered s c k →
  ∃ m st', call s c k quorum = Ok (reached quorum m, m, st') ∧
    ∀ j, Z.testbit m j = true ↔ j ∈ targets (cl_group k) ∧ prev s !! (c, Z.to_nat j) = Some expected.
Proof.
  intros Hex [[Hn Hc] (polls & rest & Hq & Hd) [Hl Hs] Hp]. unfold call, cas_all, post_all, mbind, M_bind.
  set (answer := λ (_ : Z → Z → mem) j, le_bytes 8 (default 0 (prev s !! (c, Z.to_nat j)))).
  assert (∀ j, j ∈ targets (cl_group k) → 0 ≤ j < num_replicas (cl_group k)) as Hrange.
  { intros j [_ Hj%elem_of_seqZ]%list_elem_of_filter. lia. }
  pose proof (targets_posted (cl_group k) ltac:(lia)) as Htp.
  destruct (post_answers 8 (cas_verb (NIC := reply_nic s c) remoteInfo (cl_lkey k) (cl_thread k) (cl_bufs k) off
    expected (desired c)) answer (cl_group k) (cl_bufs k) 0 (Z.to_nat (num_replicas (cl_group k))) 0 (cl_st k))
    as (s1 & -> & Q1 & _ & R1); [lia|lia|done|done| |].
  { intros j b s1 Hj Hb. rewrite Htp in Hj. destruct (Hp j Hj) as [v Hv]. pose proof (Hrange j Hj).
    destruct (cas_verb_spec s c k v b j s1) as (s2 & E); [lia|apply Hc; lia|done|done|].
    exists s2. unfold answer. by rewrite Hv. }
  rewrite Htp in *. rewrite Z.add_0_l.
  destruct (wait_quorum_spec (cl_group k) quorum s1 polls rest) as (m & s' & quiet & -> & W & _ & _ & _ & Hm);
    [lia|congruence|done|]. cbn [get]. unfold lift.
  set (look := λ i, at_index (cl_bufs k) (Z.to_nat i) ≫= λ b, Ok (word (local (DMVerbs.w s')) b)).
  assert (∀ j, j ∈ targets (cl_group k) → look j = Ok (default 0 (prev s !! (c, Z.to_nat j)))) as Hlook.
  { intros j Hj. pose proof (Hrange j Hj).
    destruct (lookup_lt_is_Some_2 (cl_bufs k) (Z.to_nat j)) as [b Hb]; [lia|].
    unfold look, at_index. rewrite Hb. cbn. unfold word. rewrite W, (R1 j b), decide_True by (done || lia).
    destruct (Hp j Hj) as [v Hv]. unfold answer. rewrite Hv. cbn -[le_bytes le_num].
    f_equal. by apply le_num_le_bytes, (ex_prev s Hex _ _ _ Hv). }
  destruct (wins_mask_total (cl_group k) expected m look) as [wins Ew].
  { lia. } { intros j Hj. rewrite Hlook by (by apply Hm). eauto. }
  change (wins_mask _ _ _ _) with (wins_mask (cl_group k) expected m look). rewrite Ew.
  exists wins, s'. split; [done|]. intros j. rewrite (wins_mask_spec _ _ _ _ _ Hn Ew), Hm.
  split.
  - intros (_ & Hj & E). rewrite Hlook in E by done. destruct (Hp j Hj) as [v Hv]. rewrite Hv in *. by simplify_eq/=.
  - intros [Hj E]. split; [by apply Hrange|]. split; [done|]. by rewrite Hlook, E.
Qed.

(** C16: at most one of the clients that call [cas_all] on a word with the same
    expected value wins a majority, however their requests interleave at the
    replicas.  The replicas start with any 64-bit values, every request
    executes once at its replica, and the new values differ from the expected
    one.  The calls of two clients whose requests have executed both return,
    whatever replicas each of them drops; if both report a quorum of more than
    half of the replicas they are the same client, and each replica that a
    client reports as won holds that client's value. *)
Theorem cas_all_at_most_one_winner vs s quorum c1 c2 k1 k2 :
  Forall (fits 64) vs → rtc cas_step (MkReplicas vs ∅) s →
  num_replicas (cl_group k2) = num_replicas (cl_group k1) → num_replicas (cl_group k1) < 2 * quorum →
  answered s c1 k1 → answered s c2 k2 →
  ∃ won1 m1 st1 won2 m2 st2,
    call s c1 k1 quorum = Ok (won1, m1, st1) ∧ call s c2 k2 quorum = Ok (won2, m2, st2) ∧
    (won1 = true → won2 = true → c1 = c2) ∧
    ∀ j, Z.testbit m1 j = true → vals s !! Z.to_nat j = Some (desired c1).
Proof using desired_ok.
  intros Hf Hr En Hq A1 A2. pose proof (reachable_exclusive vs s Hf Hr) as Hex.
  destruct (call_spec s c1 k1 quorum Hex A1) as (m1 & st1 & E1 & Hm1).
  destruct (call_spec s c2 k2 quorum Hex A2) as (m2 & st2 & E2 & Hm2).
  exists (reached quorum m1), m1, st1, (reached quorum m2), m2, st2. split_and!; [done|done| |].
  - pose proof (an_group _ _ _ A1) as [Hn _].
    assert (∀ m k, num_replicas (cl_group k) = num_replicas (cl_group k1) →
      (∀ j, Z.testbit m j = true → j ∈ targets (cl_group k)) → reached quorum m = true →
      (Z.to_nat quorum ≤ popcount (Z.to_nat (num_replicas (cl_group k1))) m)%nat) as Hw.
    { intros m k Ek Hk Hm%Z.leb_le. rewrite (popcount_low (Z.to_nat (num_replicas (cl_group k1)))) in Hm; [lia|lia|].
      intros j Hj. apply not_true_is_false. intros [_ ?%elem_of_seqZ]%Hk%list_elem_of_filter. lia. }
    intros W1 W2. apply (Hw m1 k1) in W1; [|done|by intros j [? _]%Hm1]. apply (Hw m2 k2) in W2; [|done|by intros j [? _]%Hm2].
    destruct (popcount_intersect (Z.to_nat (num_replicas (cl_group k1))) m1 m2) as (i & Hi & Hi1 & Hi2); [lia|].
    eapply (ex_unique s Hex); [by apply Hm1|by apply Hm2].
  - intros j Hj. by apply (ex_holds s Hex), Hm1.
Qed.

End contention.

(** ** A group of three replicas *)

Definition sample_infos : list ConnectionInfo := [MkInfo 4096 7 0 8; MkInfo 8192 9 0 8; MkInfo 0 3 0 8].
Definition sample_info (i : Z) : ConnectionInfo := default (MkInfo 0 0 0 0) (sample_infos !! Z.to_nat i).
Definition sample_group (drop : Z) : t := Mk 3 drop.
Definition sample_polls1 : list poll := [PollEmpty; PollDone 0 true; PollDone 2 true].
Definition sample_polls2 : list poll := [PollDone 0 true; PollEmpty; PollDone 1 true; PollDone 2 true].
Definition sample_st : DMVerbs.st :=
  DMVerbs.Mk ∅ ∅ (MkWorld (λ _ _ _, 0) (λ x, x mod 7)) (sample_polls1 ++ sample_polls2 ++ []).

Lemma sample_group_ok drop : group_ok sample_infos 0 sample_info (sample_group drop).
Proof.
  split; [done|]. intros j Hj. cbn in Hj. assert (j = 0 ∨ j = 1 ∨ j = 2) as [->|[->| ->]] by lia; done.
Qed.

Lemma sample_delivers drop polls :
  reported polls = targets (sample_group drop) → delivers (sample_group drop) polls.
Proof. unfold delivers. by intros ->. Qed.

Lemma sample_separate : separate 16 [1000; 2000; 3000].
Proof.
  intros [|[|[|j]]] [|[|[|k]]] a b Hne Ha Hb; simplify_eq/=; lia.
Qed.

Lemma quorum_read_sees_write_witness :
  ∃ m1 s1 m2 s2,
    write_all (NIC := soft_nic) sample_infos 9 0 (sample_group 2) 64 100 16 2 sample_st = Ok (true, m1, s1) ∧
    read_all (NIC := soft_nic) sample_infos 9 0 (sample_group 0) 64 [1000; 2000; 3000] 16 2 s1 = Ok (true, m2, s2) ∧
    ∃ i buf, Z.testbit m1 i = true ∧ Z.testbit m2 i = true ∧ [1000; 2000; 3000] !! Z.to_nat i = Some buf ∧
      mread (local (DMVerbs.w s2)) buf 16 = mread (λ x, x mod 7) 100 16.
Proof.
  destruct (quorum_read_sees_write (NIC := soft_nic) (NICS := soft_nic_spec) sample_infos 9 0 sample_info 64 16
    ltac:(done) (sample_group 2) (sample_group 0) 100 [1000; 2000; 3000] 2 2 sample_st
    sample_polls1 sample_polls2 []) as (m1 & s1 & m2 & s2 & H1 & H2 & H3).
  - apply sample_group_ok.
  - done.
  - done.
  - by apply sample_delivers.
  - by apply sample_delivers.
  - done.
  - apply sample_separate.
  - done.
  - exists m1, s1, m2, s2. destruct H3 as (i & buf & _ & A & B & C & D); [done|done|].
    split; [exact H1|]. split; [exact H2|]. exists i, buf. split_and!; done.
Defined.

Lemma wait_quorum_waits_for_all_witness :
  (∃ m s', wait_quorum 2 2 sample_st = Ok (m, s') ∧ ∀ j, Z.testbit m j = true ↔ j ∈ targets (sample_group 2)) ∧
  wait_quorum 3 2 (DMVerbs.Mk ∅ ∅ (DMVerbs.w sample_st) (sample_polls1 ++ [PollDone 1 false])) = Err OutOfFuel.
Proof.
  split.
  - apply (proj1 (wait_quorum_waits_for_all (sample_group 2) 2 sample_st ltac:(done)) sample_polls1
      (sample_polls2 ++ [])); [done|]. by apply sample_delivers.
  - apply (proj2 (wait_quorum_waits_for_all (sample_group 0) 2
      (DMVerbs.Mk ∅ ∅ (DMVerbs.w sample_st) (sample_polls1 ++ [PollDone 1 false])) ltac:(done))).
    + change (Forall (λ i, 0 ≤ i < 32) [0; 2]). rewrite !Forall_cons. split_and!; lia || constructor.
    + apply Nat.ltb_lt. vm_compute. reflexivity.
Defined.

(** Client 4 drops replica 2 and wins at the other two; client 6 drops replica 0,
    wins at replica 2 and comes too late at replica 1. *)
Definition sample_prev1 : gmap (nat * nat) Z := <[(4%nat, 0%nat) := 0]> ∅.
Definition sample_prev2 : gmap (nat * nat) Z := <[(6%nat, 2%nat) := 0]> sample_prev1.
Definition sample_prev3 : gmap (nat * nat) Z := <[(4%nat, 1%nat) := 0]> sample_prev2.
Definition sample_replicas : replicas := MkReplicas [5; 5; 7] (<[(6%nat, 1%nat) := 5]> sample_prev3).
Definition sample_desired (c : nat) : Z := if (c <? 100)%nat then Z.of_nat c + 1 else 1.
Definition sample_client (drop : Z) (polls : list poll) : client :=
  MkClient 9 0 (sample_group drop) [1000; 2000; 3000] (DMVerbs.Mk ∅ ∅ (DMVerbs.w sample_st) polls).

Lemma sample_run : rtc (cas_step 0 sample_desired) (MkReplicas [0; 0; 0] ∅) sample_replicas.
Proof.
  apply rtc_l with (MkReplicas [5; 0; 0] sample_prev1).
  { exact (cas_exec 0 sample_desired (MkReplicas [0; 0; 0] ∅) 4 0 0 eq_refl (lookup_empty _)). }
  apply rtc_l with (MkReplicas [5; 0; 7] sample_prev2).
  { refine (cas_exec 0 sample_desired (MkReplicas [5; 0; 0] sample_prev1) 6 2 0 eq_refl _). vm_compute. reflexivity. }
  apply rtc_l with (MkReplicas [5; 5; 7] sample_prev3).
  { refine (cas_exec 0 sample_desired (MkReplicas [5; 0; 7] sample_prev2) 4 1 0 eq_refl _). vm_compute. reflexivity. }
  apply rtc_once.
  refine (cas_exec 0 sample_desired (MkReplicas [5; 5; 7] sample_prev3) 6 1 5 eq_refl _). vm_compute. reflexivity.
Qed.

Lemma sample_desired_ok c : sample_desired c ≠ 0 ∧ fits 64 (sample_desired c).
Proof. unfold sample_desired, fits. destruct (Nat.ltb_spec c 100); lia. Qed.

Lemma sample_answered drop polls c :
  reported polls = targets (sample_group drop) →
  Forall (λ j, is_Some (prev sample_replicas !! (c, Z.to_nat j))) (targets (sample_group drop)) →
  answered sample_infos sample_info sample_replicas c (sample_client drop polls).
Proof.
  intros Hp Hf. split; cbn.
  - apply sample_group_ok.
  - exists polls, []. split; [by rewrite app_nil_r|]. by apply sample_delivers.
  - split; [done|]. intros [|[|[|j]]] [|[|[|k]]] a b Hne Ha Hb; simplify_eq/=; lia.
  - by apply Forall_forall.
Qed.

Lemma cas_all_at_most_one_winner_witness :
  ∃ won1 m1 st1 won2 m2 st2,
    call sample_infos sample_info 64 0 sample_desired sample_replicas 4
      (sample_client 4 [PollEmpty; PollDone 0 true; PollDone 1 true]) 2 = Ok (won1, m1, st1) ∧
    call sample_infos sample_info 64 0 sample_desired sample_replicas 6
      (sample_client 1 [PollDone 1 true; PollDone 2 true]) 2 = Ok (won2, m2, st2) ∧
    (won1 = true → won2 = true → 4%nat = 6%nat) ∧
    ∀ j, Z.testbit m1 j = true → vals sample_replicas !! Z.to_nat j = Some 5.
Proof.
  apply (cas_all_at_most_one_winner sample_infos sample_info 64 0 sample_desired sample_desired_ok [0; 0; 0]
    sample_replicas 2 4 6); [by repeat constructor|apply sample_run|done|done| |].
  - apply sample_answered; [done|]. change (Forall (λ j, is_Some (prev sample_replicas !! (4%nat, Z.to_nat j))) [0; 1]).
    rewrite !Forall_cons. split_and!; [vm_compute; eauto..|constructor].
  - apply sample_answered; [done|]. change (Forall (λ j, is_Some (prev sample_replicas !! (6%nat, Z.to_nat j))) [1; 2]).
    rewrite !Forall_cons. split_and!; [vm_compute; eauto..|constructor].
Defined.

End ReplicaGroup.
