(* ===== verification/Allocators.v ===== *)
(** * Allocation of remote memory ([SkipVectorDM/include/Directory.h],
    [SkipVectorDM/src/Directory.cc], [SkipVectorDM/include/DMVerbs.h])

    Every node has a directory that hands out chunks of its memory on request;
    a client cuts the chunk it holds into the blocks of the index.  The first
    part models the three allocators, the second runs any number of clients
    against the directories and shows that no two blocks overlap. *)

From S2P Require Import Prelude KVConfig RdmaConfig SkipVector.
Open Scope Z_scope.

(** ** [class GlobalAllocator] *)

Module GlobalAllocator.

Record t := Mk {
  start : Gaddr;
  size : Z;
  bitmap : list bool;
  bitmap_len : Z;
  bitmap_tail : Z }.

(** The constructor; [bitmap[0]] is out of bounds when the memory is smaller
    than one chunk. *)
Definition make (start : Gaddr) (size : Z) : result t :=
  let len := size / kChunkSize in
  let b := replicate (Z.to_nat len) false in
  at_index b 0 ≫= λ _, Ok (Mk start size (<[0%nat := true]> b) len 1).

Definition alloc_chunck (s : t) : result (Gaddr * t) :=
  require (negb (bitmap_len s <=? bitmap_tail s)) ≫= λ _,
  at_index (bitmap s) (Z.to_nat (bitmap_tail s)) ≫= λ used,
  require (negb used) ≫= λ _,
  Ok (MkGaddr (nodeID (start s)) (wrap 48 (offset (start s) + bitmap_tail s * kChunkSize)),
      Mk (start s) (size s) (<[Z.to_nat (bitmap_tail s) := true]> (bitmap s)) (bitmap_len s) (bitmap_tail s + 1)).

Definition free_chunk (s : t) (addr : Gaddr) : result t :=
  let i := u64 (offset addr - offset (start s)) / kChunkSize in
  at_index (bitmap s) (Z.to_nat i) ≫= λ _,
  Ok (Mk (start s) (size s) (<[Z.to_nat i := false]> (bitmap s)) (bitmap_len s) (bitmap_tail s)).

(** Chunks from the tail on are free, and their offsets fit the 48-bit field. *)
Record wf (s : t) : Prop := {
  wf_len : Z.of_nat (length (bitmap s)) = bitmap_len s;
  wf_tail : 1 ≤ bitmap_tail s ≤ bitmap_len s;
  wf_start : 0 ≤ offset (start s);
  wf_end : offset (start s) + bitmap_len s * kChunkSize < 2 ^ 48;
  wf_free : ∀ i, bitmap_tail s ≤ Z.of_nat i < bitmap_len s → bitmap s !! i = Some false }.

Lemma chunk_make_spec st sz :
  kChunkSize ≤ sz → 0 ≤ offset st → offset st + sz < 2 ^ 48 →
  ∃ s, make st sz = Ok s ∧ wf s ∧ start s = st ∧ bitmap_len s = sz / kChunkSize ∧ bitmap_tail s = 1.
Proof.
  intros Hsz Hst He. assert (0 < kChunkSize) as Hk by done. assert (1 ≤ sz / kChunkSize) as H1.
  { apply Z.div_le_lower_bound; lia. }
  unfold make. unfold at_index. rewrite lookup_replicate_2 by lia. cbn [mbind result_bind].
  eexists. split; [reflexivity|]. split; [|done]. constructor; cbn -[Z.mul Z.div]; try lia.
  - rewrite length_insert, length_replicate. lia.
  - pose proof (Z.mul_div_le sz kChunkSize Hk). lia.
  - intros i Hi. rewrite list_lookup_insert_ne by lia. apply lookup_replicate_2. lia.
Qed.

Lemma alloc_chunck_spec s :
  wf s →
  if bitmap_tail s <? bitmap_len s then
    ∃ s', alloc_chunck s =
        Ok (MkGaddr (nodeID (start s)) (offset (start s) + bitmap_tail s * kChunkSize), s') ∧
      wf s' ∧ start s' = start s ∧ bitmap_len s' = bitmap_len s ∧ bitmap_tail s' = bitmap_tail s + 1
  else alloc_chunck s = Err AssertionFailure.
Proof.
  intros H. unfold alloc_chunck. destruct (H) as []. assert (0 < kChunkSize) as Hk by done.
  destruct (Z.ltb_spec (bitmap_tail s) (bitmap_len s)) as [Hlt|Hge].
  - rewrite (proj2 (Z.leb_gt _ _)) by done. unfold at_index. rewrite wf_free0 by lia. cbn [require negb mbind result_bind].
    rewrite wrap_small by (unfold fits; nia). eexists. split; [reflexivity|]. split; [|done].
    constructor; cbn -[Z.mul]; try done; try lia.
    + by rewrite length_insert.
    + intros i Hi. rewrite list_lookup_insert_ne by lia. apply wf_free0. lia.
  - by rewrite (proj2 (Z.leb_le _ _)).
Qed.

(** [n] calls of [alloc_chunck], results ignored. *)
Fixpoint burn (n : nat) (s : t) : result t :=
  match n with
  | O => Ok s
  | S n => alloc_chunck s ≫= λ '(_, s), burn n s
  end.

Lemma burn_spec n s :
  wf s → bitmap_tail s + Z.of_nat n ≤ bitmap_len s →
  ∃ s', burn n s = Ok s' ∧ wf s' ∧ start s' = start s ∧ bitmap_len s' = bitmap_len s ∧
    bitmap_tail s' = bitmap_tail s + Z.of_nat n.
Proof.
  revert s. induction n as [|n IH]; intros s H Hn; cbn [burn].
  { exists s. split_and!; try done. lia. }
  pose proof (alloc_chunck_spec s H) as Ha. rewrite (proj2 (Z.ltb_lt _ _)) in Ha by lia.
  destruct Ha as (s1 & E & H1 & S1 & L1 & T1). rewrite E. cbn [mbind result_bind].
  destruct (IH s1 H1) as (s' & E' & H' & S' & L' & T'); [lia|].
  exists s'. split_and!; [done|done|congruence|congruence|lia].
Qed.

End GlobalAllocator.

(** ** [class Directory] *)

Module Directory.

Inductive RpcType := MALLOC | FREE | NEW_ROOT | NOP.

(** [struct RawMessage]. *)
Record RawMessage := MkMsg { m_type : RpcType; m_node_id : Z; m_app_id : Z; m_addr : Gaddr; m_level : Z }.

(** The allocator of the directory and the globals of [Directory.cc]. *)
Record t := Mk {
  chunckAlloc : GlobalAllocator.t;
  g_root_ptr : Gaddr;
  g_root_level : Z;
  enable_cache : bool }.

(** Chunks reserved for the skip vector. *)
Definition n_chunks : Z := (kSkipVectorRegionBytes + kChunkSize - 1) / kChunkSize.

(** The constructor, on a node with [dsmSize] bytes. *)
Definition make (dsmSize dirID node : Z) : result t :=
  let per := dsmSize / NR_DIRECTORY in
  GlobalAllocator.make (Gaddr_make node (per * dirID)) per ≫= λ a,
  (if dirID =? 0 then GlobalAllocator.burn (Z.to_nat n_chunks) a else Ok a) ≫= λ a,
  Ok (Mk a Gaddr_Null (-1) false).

(** [process_message]: the reply, if any, and its destination. *)
Definition process_message (d : t) (m : RawMessage) : result (option (Gaddr * Z * Z) * t) :=
  match m_type m with
  | MALLOC =>
      GlobalAllocator.alloc_chunck (chunckAlloc d) ≫= λ '(addr, a),
      Ok (Some (addr, m_node_id m, m_app_id m), Mk a (g_root_ptr d) (g_root_level d) (enable_cache d))
  | NEW_ROOT =>
      if g_root_level d <? m_level m then
        Ok (None, Mk (chunckAlloc d) (m_addr m) (m_level m) ((3 <=? m_level m) || enable_cache d))
      else Ok (None, d)
  | FREE | NOP => Err AssertionFailure
  end.

Definition wf (d : t) : Prop := GlobalAllocator.wf (chunckAlloc d).

(** First chunk that is not in use. *)
Definition tail (d : t) : Z := GlobalAllocator.bitmap_tail (chunckAlloc d).

(** The first byte of the directory's memory that is not in use. *)
Definition frontier (d : t) : Z :=
  offset (GlobalAllocator.start (chunckAlloc d)) + tail d * kChunkSize.

Definition node_of (d : t) : Z := nodeID (GlobalAllocator.start (chunckAlloc d)).

Lemma directory_make_spec dsmSize node :
  fits 16 node → 41 * kChunkSize ≤ dsmSize < 2 ^ 48 →
  ∃ d, make dsmSize 0 node = Ok d ∧ wf d ∧ node_of d = node ∧ frontier d = 41 * kChunkSize ∧
    offset (GlobalAllocator.start (chunckAlloc d)) = 0 ∧
    GlobalAllocator.bitmap_len (chunckAlloc d) = dsmSize / kChunkSize.
Proof.
  intros Hn Hs. unfold make. change NR_DIRECTORY with 1. rewrite Z.div_1_r, Z.mul_0_r.
  assert (kChunkSize = 33554432) as Hk by done.
  destruct (GlobalAllocator.chunk_make_spec (Gaddr_make node 0) dsmSize) as (a & -> & Ha & Sa & La & Ta); [lia|done|change (0 + dsmSize < 2 ^ 48); lia|].
  cbn [mbind result_bind Z.eqb].
  destruct (GlobalAllocator.burn_spec (Z.to_nat n_chunks) a Ha) as (a' & E & Ha' & Sa' & La' & Ta').
  { change n_chunks with 40. rewrite Ta, La.
    assert (41 ≤ dsmSize / kChunkSize) by (apply Z.div_le_lower_bound; lia). lia. }
  rewrite E. eexists. split; [reflexivity|]. unfold wf, node_of, frontier, tail. cbn [chunckAlloc].
  rewrite Sa', Sa, Ta', Ta, La', La. split_and!; try done. cbn. by apply wrap_small.
Qed.

Lemma directory_malloc_spec d m :
  wf d → m_type m = MALLOC →
  if tail d <? GlobalAllocator.bitmap_len (chunckAlloc d) then
    ∃ d', process_message d m = Ok (Some (MkGaddr (node_of d) (frontier d), m_node_id m, m_app_id m), d') ∧
      wf d' ∧ node_of d' = node_of d ∧ frontier d' = frontier d + kChunkSize ∧
      offset (GlobalAllocator.start (chunckAlloc d')) = offset (GlobalAllocator.start (chunckAlloc d)) ∧
      GlobalAllocator.bitmap_len (chunckAlloc d') = GlobalAllocator.bitmap_len (chunckAlloc d)
  else process_message d m = Err AssertionFailure.
Proof.
  intros H Hm. unfold process_message. rewrite Hm. pose proof (GlobalAllocator.alloc_chunck_spec _ H) as Ha.
  unfold tail. destruct (_ <? _); [|by rewrite Ha].
  destruct Ha as (a & -> & Ha & Sa & La & Ta). eexists. split; [reflexivity|].
  unfold wf, node_of, frontier, tail. cbn [chunckAlloc]. rewrite Sa, Ta, La. split_and!; try done. lia.
Qed.

End Directory.

(** ** [class LocalAllocator] *)

Module LocalAllocator.

Record t := Mk { head : Gaddr; cur : Gaddr; log_heads : list Gaddr }.

Definition init : t := Mk Gaddr_Null Gaddr_Null [].

(** [malloc(size, need_chunck)]: the address, whether a chunk is needed. *)
Definition malloc (s : t) (size : Z) : Gaddr * bool * t :=
  if bool_decide (log_heads s = []) || (u64 (offset (head s) + kChunkSize) <? u64 (offset (cur s) + size))
  then (cur s, true, s)
  else (cur s, false, Mk (head s) (MkGaddr (nodeID (cur s)) (wrap 48 (offset (cur s) + size))) (log_heads s)).

Definition set_chunck (s : t) (addr : Gaddr) : t := Mk addr addr (log_heads s ++ [addr]).

(** [free] does nothing. *)
Definition free (s : t) (addr : Gaddr) : t := s.

End LocalAllocator.

(** ** [DMVerbs::memory_alloc] and [DMVerbs::compute_alloc] *)

(** The allocation state of a client process: its two local allocators, the
    round-robin counters, and the [thread_local] targets of its threads. *)
Record client := MkClient {
  local_memory_allocator : LocalAllocator.t;
  local_compute_allocator : LocalAllocator.t;
  alloc_memory_nodes : Z;
  alloc_compute_nodes : Z;
  use_memory_fp : bool;
  memory_target : gmap Z (Z * Z);
  compute_target : gmap Z (Z * Z) }.

Definition new_client (alloc_memory_nodes myNodeID : Z) : client :=
  MkClient LocalAllocator.init LocalAllocator.init alloc_memory_nodes myNodeID false ∅ ∅.

Section alloc.
Context (MemoryNumber ComputeNumber : Z).

Abbreviation alloc_st := (client * list Directory.t)%type.

(** A [MALLOC] request to the directory of a node and its reply. *)
Definition rpc_malloc (node myNodeID thread_id : Z) (ds : list Directory.t) : result (Gaddr * list Directory.t) :=
  at_index ds (Z.to_nat node) ≫= λ d,
  Directory.process_message d (Directory.MkMsg Directory.MALLOC myNodeID thread_id Gaddr_Null 0) ≫= λ '(r, d'),
  match r with
  | Some (addr, _, _) => Ok (addr, <[Z.to_nat node := d']> ds)
  | None => Err AssertionFailure
  end.

(** The targets after a chunk was fetched. *)
Definition next_target (count number node dir : Z) : Z * (Z * Z) :=
  if dir + 1 =? NR_DIRECTORY
  then let count := u64 (count + 1) mod number in (count, (count, 0))
  else (count, (node, dir + 1)).

Definition memory_alloc (myNodeID thread_id size : Z) : M alloc_st Gaddr := λ '(c, ds),
  let '(node, dir) := default (alloc_memory_nodes c mod MemoryNumber, (thread_id + myNodeID) mod NR_DIRECTORY)
                              (memory_target c !! thread_id) in
  let '(addr, need_chunk, la) := LocalAllocator.malloc (local_memory_allocator c) size in
  if need_chunk then
    match rpc_malloc node myNodeID thread_id ds with
    | Err e => Err e
    | Ok (chunk, ds') =>
        let '(count, target) := next_target (alloc_memory_nodes c) MemoryNumber node dir in
        let '(addr, _, la) := LocalAllocator.malloc (LocalAllocator.set_chunck la chunk) size in
        Ok (addr, (MkClient la (local_compute_allocator c) count (alloc_compute_nodes c) (use_memory_fp c)
                    (<[thread_id := target]> (memory_target c)) (compute_target c), ds'))
    end
  else
    Ok (addr, (MkClient la (local_compute_allocator c) (alloc_memory_nodes c) (alloc_compute_nodes c)
                (use_memory_fp c) (<[thread_id := (node, dir)]> (memory_target c)) (compute_target c), ds)).

(** The part of [compute_alloc] under the lock: an address of the chunk. *)
Definition compute_cut (myNodeID thread_id size : Z) : M alloc_st Gaddr := λ '(c, ds),
  let '(node, dir) := default (alloc_compute_nodes c mod ComputeNumber, (thread_id + myNodeID) mod NR_DIRECTORY)
                              (compute_target c !! thread_id) in
  let '(addr, need_chunk, la) := LocalAllocator.malloc (local_compute_allocator c) size in
  if need_chunk then
    match rpc_malloc (0 + MemoryNumber) myNodeID thread_id ds with
    | Err e => Err e
    | Ok (chunk, ds') =>
        let '(count, target) := next_target (alloc_compute_nodes c) ComputeNumber node dir in
        let '(addr, _, la) := LocalAllocator.malloc (LocalAllocator.set_chunck la chunk) size in
        Ok (addr, (MkClient (local_memory_allocator c) la (alloc_memory_nodes c) count (use_memory_fp c)
                    (memory_target c) (<[thread_id := target]> (compute_target c)), ds'))
    end
  else
    Ok (addr, (MkClient (local_memory_allocator c) la (alloc_memory_nodes c) (alloc_compute_nodes c)
                (use_memory_fp c) (memory_target c) (<[thread_id := (node, dir)]> (compute_target c)), ds)).

Definition set_use_memory_fp (c : client) : client :=
  MkClient (local_memory_allocator c) (local_compute_allocator c) (alloc_memory_nodes c) (alloc_compute_nodes c)
    true (memory_target c) (compute_target c).

Definition compute_alloc (myNodeID thread_id size : Z) : M alloc_st Gaddr := λ '(c, ds),
  if use_memory_fp c then memory_alloc myNodeID thread_id size (c, ds)
  else
    match compute_cut myNodeID thread_id size (c, ds) with
    | Err e => Err e
    | Ok (addr, (c, ds)) =>
        if (kLeafCacheSize - 1) * MB <=? offset addr
        then memory_alloc myNodeID thread_id size (set_use_memory_fp c, ds)
        else Ok (MkGaddr (u16 (alloc_compute_nodes c + MemoryNumber)) (offset addr), (c, ds))
    end.

(** ** Many clients *)

Inductive pool := MemoryPool | ComputePool.

(** A request: the client, its thread, the pool and the size of the block. *)
Record request := MkReq { r_client : nat; r_thread : Z; r_pool : pool; r_size : Z }.

Definition serve (r : request) (cs : list client) (ds : list Directory.t)
    : result (Gaddr * list client * list Directory.t) :=
  at_index cs (r_client r) ≫= λ c,
  let node := Z.of_nat (r_client r) in
  (match r_pool r with
   | MemoryPool => memory_alloc node (r_thread r) (r_size r) (c, ds)
   | ComputePool => compute_alloc node (r_thread r) (r_size r) (c, ds)
   end) ≫= λ '(addr, (c, ds)), Ok (addr, <[r_client r := c]> cs, ds).

(** The blocks returned to a sequence of requests, with their sizes. *)
Fixpoint serve_all (rs : list request) (cs : list client) (ds : list Directory.t)
    : result (list (Gaddr * Z) * list client * list Directory.t) :=
  match rs with
  | [] => Ok ([], cs, ds)
  | r :: rs =>
      serve r cs ds ≫= λ '(addr, cs, ds),
      serve_all rs cs ds ≫= λ '(blocks, cs, ds), Ok ((addr, r_size r) :: blocks, cs, ds)
  end.

End alloc.

(** ** Pieces of memory

    A piece is a range of the memory of a directory's node: what a client has
    left of its chunk, or a block it was given. *)

Definition piece : Type := (Z * Z * Z)%type.

Definition apart (a b : piece) : Prop :=
  a.1.1 ≠ b.1.1 ∨ a.2 ≤ b.1.2 ∨ b.2 ≤ a.1.2 ∨ a.2 ≤ a.1.2 ∨ b.2 ≤ b.1.2.

Definition within (a b : piece) : Prop := a.1.1 = b.1.1 ∧ b.1.2 ≤ a.1.2 ∧ a.2 ≤ b.2.

Lemma apart_sym a b : apart a b → apart b a.
Proof. unfold apart. naive_solver. Qed.

Lemma apart_within a b c : apart a b → within c b → apart a c.
Proof. unfold apart, within. intros H (E & ? & ?). rewrite E. destruct H as [?|[?|[?|[?|?]]]]; [by left|lia..]. Qed.

(** Cutting a block [y] off the piece at [k], or off a fresh piece that
    replaces it. *)
Lemma cut_pairwise all k whole x y :
  pairwise apart all → (∀ j a, j ≠ k → all !! j = Some a → apart a whole) →
  within x whole → within y whole → apart x y →
  pairwise apart (<[k := x]> all ++ [y]).
Proof.
  intros Hp Hk Hx Hy Hxy. apply pairwise_snoc.
  - apply pairwise_insert; [done|]. intros j a Hj Ha.
    split; [|apply apart_sym]; by eapply apart_within, Hx; apply (Hk j).
  - intros a [j Hj]%list_elem_of_lookup.
    apply list_lookup_insert_Some in Hj as [(-> & -> & _)|[Hne Hj]]; [by split; [|apply apart_sym]|].
    split; [|apply apart_sym]; by eapply apart_within, Hy; apply (Hk j).
Qed.

(** First byte a directory may hand out. *)
Definition first_byte : Z := 41 * kChunkSize.

Definition free_piece (la : LocalAllocator.t) : piece :=
  if bool_decide (LocalAllocator.log_heads la = []) then (0, 0, 0)
  else (nodeID (LocalAllocator.head la), offset (LocalAllocator.cur la),
        offset (LocalAllocator.head la) + kChunkSize).

(** Directories in node order. *)
Definition dirs_ok (ds : list Directory.t) : Prop :=
  ∀ n d, ds !! n = Some d →
    Directory.wf d ∧ Directory.node_of d = Z.of_nat n ∧ first_byte ≤ Directory.frontier d.

(** An allocator holds no chunk, or a chunk of a node satisfying [P]. *)
Definition la_ok (P : Z → Prop) (la : LocalAllocator.t) : Prop :=
  LocalAllocator.log_heads la = [] ∨
  P (nodeID (LocalAllocator.head la)) ∧
  nodeID (LocalAllocator.cur la) = nodeID (LocalAllocator.head la) ∧
  0 ≤ offset (LocalAllocator.head la) ≤ offset (LocalAllocator.cur la) ∧
  offset (LocalAllocator.cur la) ≤ offset (LocalAllocator.head la) + kChunkSize < 2 ^ 48.

(** A piece was handed out by its directory. *)
Definition below (ds : list Directory.t) (p : piece) : Prop :=
  p.2 ≤ p.1.2 ∨
  ∃ d, 0 ≤ p.1.1 ∧ ds !! Z.to_nat p.1.1 = Some d ∧ first_byte ≤ p.1.2 ∧ p.2 ≤ Directory.frontier d.

(** The effect of a request of [node] on the directories. *)
Definition refilled (ds ds' : list Directory.t) (node : Z) (whole : piece) : Prop :=
  ∃ d d', ds !! Z.to_nat node = Some d ∧ ds' = <[Z.to_nat node := d']> ds ∧
    whole = (node, Directory.frontier d, Directory.frontier d + kChunkSize) ∧
    Directory.frontier d' = Directory.frontier d + kChunkSize ∧ dirs_ok ds'.

Lemma frontier_le d : Directory.wf d → Directory.tail d ≤ GlobalAllocator.bitmap_len (Directory.chunckAlloc d) →
  Directory.frontier d < 2 ^ 48.
Proof. intros [] Ht. unfold Directory.frontier. assert (0 < kChunkSize) by done. nia. Qed.

Lemma rpc_malloc_spec node my th ds chunk ds' :
  dirs_ok ds → 0 ≤ node → rpc_malloc node my th ds = Ok (chunk, ds') →
  ∃ f, chunk = MkGaddr node f ∧ 0 ≤ f ∧ f + kChunkSize < 2 ^ 48 ∧
    refilled ds ds' node (node, f, f + kChunkSize).
Proof.
  intros Hd Hn E. unfold rpc_malloc in E. apply bind_Ok in E as (d & Hdn & E). apply at_index_Ok in Hdn.
  destruct (Hd _ _ Hdn) as (Hw & Hnode & Hf). rewrite Z2Nat.id in Hnode by done.
  pose proof (Directory.directory_malloc_spec d (Directory.MkMsg Directory.MALLOC my th Gaddr_Null 0) Hw eq_refl) as Hm.
  destruct (Z.ltb_spec (Directory.tail d) (GlobalAllocator.bitmap_len (Directory.chunckAlloc d))) as [Hlt|];
    [|by rewrite Hm in E]. destruct Hm as (d' & Em & Hw' & Hn' & Hf' & _ & Hl').
  rewrite Em in E. cbn in E. injection E as <- <-. exists (Directory.frontier d). rewrite Hnode.
  assert (0 < first_byte) by done. assert (0 < kChunkSize) by done.
  pose proof (frontier_le d' Hw' ltac:(apply Hw')). split_and!; [done|lia|lia|].
  exists d, d'. split_and!; try done. intros n x Hx. apply list_lookup_insert_Some in Hx as [(<- & <- & _)|[_ Hx]].
  - split_and!; [done|by rewrite Hn', Z2Nat.id|lia].
  - by apply Hd.
Qed.

Lemma local_malloc_spec P la size :
  la_ok P la → 0 < size ≤ kChunkSize →
  (LocalAllocator.malloc la size).1.2 = true ∧ (LocalAllocator.malloc la size).2 = la ∨
  ∃ addr la', LocalAllocator.malloc la size = (addr, false, la') ∧ la_ok P la' ∧ P (nodeID addr) ∧
    ∃ hi, free_piece la = (nodeID addr, offset addr, hi) ∧
      free_piece la' = (nodeID addr, offset addr + size, hi) ∧ offset addr + size ≤ hi.
Proof.
  intros Hla Hs. assert (kChunkSize < 2 ^ 48) by done. unfold LocalAllocator.malloc, free_piece.
  destruct (bool_decide_reflect (LocalAllocator.log_heads la = [])) as [|Hne]; [by left|]. cbn [orb].
  destruct Hla as [|(HP & En & Hc & Hh)]; [done|].
  rewrite !(wrap_small 64) by (unfold fits; lia).
  destruct (Z.ltb_spec (offset (LocalAllocator.head la) + kChunkSize) (offset (LocalAllocator.cur la) + size));
    [by left|right].
  eexists _, _. split; [reflexivity|]. rewrite (wrap_small 48) by (unfold fits; lia). cbn. rewrite En.
  split; [right; cbn; split_and!; try done; lia|]. split; [done|].
  exists (offset (LocalAllocator.head la) + kChunkSize). by rewrite bool_decide_false.
Qed.

(** What [memory_alloc] and [compute_alloc] share: a block of the chunk, from a
    new chunk of [node] when it does not fit. *)
Definition cut (la : LocalAllocator.t) (node my th size : Z) (ds : list Directory.t)
    : result (Gaddr * LocalAllocator.t * list Directory.t) :=
  let '(addr, need_chunk, la) := LocalAllocator.malloc la size in
  if need_chunk then
    rpc_malloc node my th ds ≫= λ '(chunk, ds'),
    let '(addr, _, la) := LocalAllocator.malloc (LocalAllocator.set_chunck la chunk) size in
    Ok (addr, la, ds')
  else Ok (addr, la, ds).

Lemma cut_spec P la node my th size ds addr la' ds' :
  dirs_ok ds → la_ok P la → P node → 0 ≤ node → 0 < size ≤ kChunkSize →
  cut la node my th size ds = Ok (addr, la', ds') →
  la_ok P la' ∧ P (nodeID addr) ∧
  ∃ hi, (free_piece la = (nodeID addr, offset addr, hi) ∧ ds' = ds ∨
         refilled ds ds' node (nodeID addr, offset addr, hi)) ∧
    free_piece la' = (nodeID addr, offset addr + size, hi) ∧ offset addr + size ≤ hi.
Proof.
  intros Hd Hla HP Hn Hs E. unfold cut in E.
  destruct (local_malloc_spec P la size Hla Hs) as [[Hneed Hsame]|(a & la1 & Em & Hla1 & HPa & hi & Hf & Hf' & Hhi)].
  - destruct (LocalAllocator.malloc la size) as [[a need] la1]. cbn in Hneed, Hsame. subst need la1.
    apply bind_Ok in E as ([chunk ds1] & Er & E).
    destruct (rpc_malloc_spec node my th ds chunk ds1 Hd Hn Er) as (f & -> & Hf0 & Hf48 & Href).
    assert (la_ok P (LocalAllocator.set_chunck la (MkGaddr node f))) as Hok.
    { right. cbn. assert (0 < kChunkSize) by done. split_and!; try done; lia. }
    destruct (local_malloc_spec P _ size Hok Hs) as [[Hneed _]|(a1 & la2 & Em & Hla2 & HPa & hi & Hf & Hf' & Hhi)].
    + exfalso. unfold LocalAllocator.malloc in Hneed. cbn in Hneed.
      rewrite bool_decide_false in Hneed by (intros [_ ?]%app_nil; done). cbn in Hneed.
      rewrite !(wrap_small 64), (proj2 (Z.ltb_ge _ _)) in Hneed by (unfold fits; lia). done.
    + rewrite Em in E. injection E as <- <- <-. split_and!; [done|done|]. exists hi. split_and!; [right|done|done].
      unfold free_piece in Hf. cbn in Hf. rewrite bool_decide_false in Hf by (intros [_ ?]%app_nil; done).
      injection Hf as <- <- <-. done.
  - rewrite Em in E. injection E as <- <- <-. split_and!; [done|done|]. exists hi. split_and!; [by left|done|done].
Qed.

Lemma below_refilled ds ds' node whole p : refilled ds ds' node whole → below ds p → below ds' p.
Proof.
  intros (d & d' & Hd & -> & _ & Hf & _) [He|(dp & Hp & Hdp & Hl & Hr)]; [by left|right].
  assert (0 < kChunkSize) by done.
  destruct (decide (Z.to_nat p.1.1 = Z.to_nat node)) as [E|E].
  - exists d'. rewrite E in Hdp |- *. rewrite Hd in Hdp. injection Hdp as <-.
    split_and!; [done| |done|lia]. apply list_lookup_insert_eq. by eapply lookup_lt_Some.
  - exists dp. by rewrite list_lookup_insert_ne.
Qed.

Lemma below_within ds a b : below ds b → within a b → below ds a.
Proof.
  unfold below, within. intros [?|(d & ? & ? & ? & ?)] (-> & ? & ?); [left; lia|].
  right. exists d. split_and!; try done; lia.
Qed.

(** One block cut: the pieces stay apart and below the frontiers. *)
Lemma cut_pieces P la node my th size ds addr la' ds' all k :
  dirs_ok ds → la_ok P la → P node → 0 ≤ node → 0 < size ≤ kChunkSize →
  cut la node my th size ds = Ok (addr, la', ds') →
  all !! k = Some (free_piece la) → pairwise apart all → Forall (below ds) all →
  let all' := <[k := free_piece la']> all ++ [(nodeID addr, offset addr, offset addr + size)] in
  dirs_ok ds' ∧ pairwise apart all' ∧ Forall (below ds') all'.
Proof.
  intros Hd Hla HP Hn Hs E Hk Hp Hb all'. subst all'.
  destruct (cut_spec P la node my th size ds addr la' ds' Hd Hla HP Hn Hs E)
    as (_ & _ & hi & Hwhole & -> & Hhi).
  set (whole := (nodeID addr, offset addr, hi)) in *.
  assert (dirs_ok ds' ∧ Forall (below ds') all ∧ below ds' whole ∧
    ∀ j a, j ≠ k → all !! j = Some a → apart a whole) as (Hd' & Hb' & Hw & Hap).
  { destruct Hwhole as [[Hf ->]|Href].
    - split_and!; [done|done| |].
      + rewrite <- Hf. by apply (Forall_lookup_1 _ _ k _ Hb).
      + intros j a Hj Ha. rewrite <- Hf. by apply (Hp j k).
    - pose proof Href as (d & d' & Hdn & Eds & Ew & Hf & Hok). split_and!; [done| | |].
      + eapply Forall_impl; [exact Hb|]. intros p. by eapply below_refilled.
      + right. exists d'. rewrite Ew. cbn. destruct (Hd _ _ Hdn) as (_ & _ & ?). rewrite Eds.
        split_and!; [done| |done|lia]. apply list_lookup_insert_eq. by eapply lookup_lt_Some.
      + intros j a _ Ha. pose proof (Forall_lookup_1 _ _ j a Hb Ha) as [?|(da & Hn' & Hda & _ & Hr)];
          [unfold apart; lia|]. rewrite Ew. unfold apart; cbn.
        destruct (decide (a.1.1 = node)) as [En|]; [|by left]. rewrite En, Hdn in Hda. injection Hda as <-. lia. }
  split_and!; [done| |].
  - apply (cut_pairwise all k whole); try done; unfold within, apart, whole; cbn; lia.
  - apply Forall_app. split.
    + apply Forall_insert; [done|]. apply (below_within _ _ whole); [done|]. unfold within, whole; cbn. lia.
    + apply Forall_singleton, (below_within _ _ whole); [done|]. unfold within, whole; cbn. lia.
Qed.

Section clients.
Context (MemoryNumber ComputeNumber : Z).
Context (memory_pos : 0 < MemoryNumber) (compute_pos : 0 < ComputeNumber)
        (nodes_fit : MemoryNumber + ComputeNumber < 2 ^ 16).

Definition memory_node (n : Z) : Prop := 0 ≤ n < MemoryNumber.
Definition compute_node (n : Z) : Prop := n = MemoryNumber.

Record client_ok (c : client) : Prop := {
  ok_memory : la_ok memory_node (local_memory_allocator c);
  ok_compute : la_ok compute_node (local_compute_allocator c);
  ok_nodes : 0 ≤ alloc_compute_nodes c ∧ alloc_compute_nodes c + MemoryNumber < 2 ^ 16;
  ok_target th t : memory_target c !! th = Some t → memory_node t.1 }.

Definition frees (cs : list client) : list piece :=
  (free_piece ∘ local_memory_allocator <$> cs) ++ (free_piece ∘ local_compute_allocator <$> cs).

Record inv (cs : list client) (ds : list Directory.t) (given : list piece) : Prop := {
  inv_dirs : dirs_ok ds;
  inv_clients : Forall client_ok cs;
  inv_apart : pairwise apart (frees cs ++ given);
  inv_below : Forall (below ds) (frees cs ++ given) }.

Lemma next_target_memory count node dir : memory_node node → memory_node (next_target count MemoryNumber node dir).2.1.
Proof.
  intros Hn. unfold next_target. case_match; [|done]. cbn. apply Z.mod_pos_bound. done.
Qed.

Lemma memory_alloc_cut my th size c ds addr c' ds' :
  client_ok c → memory_alloc MemoryNumber my th size (c, ds) = Ok (addr, (c', ds')) →
  ∃ node, memory_node node ∧
    cut (local_memory_allocator c) node my th size ds = Ok (addr, local_memory_allocator c', ds') ∧
    local_compute_allocator c' = local_compute_allocator c ∧
    alloc_compute_nodes c' = alloc_compute_nodes c ∧
    (∀ th t, memory_target c' !! th = Some t → memory_node t.1).
Proof.
  intros [_ _ _ Ht] E. unfold memory_alloc in E.
  destruct (default _ (memory_target c !! th)) as [node dir] eqn:Et.
  assert (memory_node node) as Hnode.
  { destruct (memory_target c !! th) as [t|] eqn:Eth; cbn in Et; simplify_eq.
    - by apply (Ht th (node, dir)).
    - by apply Z.mod_pos_bound. }
  exists node. unfold cut. destruct (LocalAllocator.malloc _ _) as [[a need] la].
  assert (∀ t' th' x, memory_node t'.1 → <[th := t']> (memory_target c) !! th' = Some x → memory_node x.1) as Hins.
  { intros t' th' x Ht' [[_ <-]|[_ Hx]]%lookup_insert_Some; [done|by eapply Ht]. }
  destruct need.
  - destruct (rpc_malloc node my th ds) as [[chunk ds1]|]; [|done].
    pose proof (next_target_memory (alloc_memory_nodes c) node dir Hnode) as Hnt.
    destruct (next_target _ _ _ _) as [count target].
    cbn [mbind result_bind]. destruct (LocalAllocator.malloc (LocalAllocator.set_chunck la chunk) size) as [[a2 n2] la2].
    injection E as <- <- <-. split; [exact Hnode|]. do 3 (split; [done|]). intros th' t'. by apply Hins.
  - injection E as <- <- <-. split; [exact Hnode|]. do 3 (split; [done|]). intros th' t'. by apply Hins.
Qed.

Lemma compute_cut_cut my th size c ds addr c' ds' :
  client_ok c → compute_cut MemoryNumber ComputeNumber my th size (c, ds) = Ok (addr, (c', ds')) →
  cut (local_compute_allocator c) MemoryNumber my th size ds = Ok (addr, local_compute_allocator c', ds') ∧
  local_memory_allocator c' = local_memory_allocator c ∧
  (0 ≤ alloc_compute_nodes c' ∧ alloc_compute_nodes c' + MemoryNumber < 2 ^ 16) ∧
  memory_target c' = memory_target c.
Proof.
  intros [_ _ Hnodes _] E. unfold compute_cut in E.
  destruct (default _ (compute_target c !! th)) as [node dir].
  unfold cut. destruct (LocalAllocator.malloc _ _) as [[a need] la]. destruct need.
  - rewrite Z.add_0_l in E. destruct (rpc_malloc MemoryNumber my th ds) as [[chunk ds1]|]; [|done].
    destruct (next_target _ _ _ _) as [count target] eqn:Ent. cbn [mbind result_bind].
    destruct (LocalAllocator.malloc (LocalAllocator.set_chunck la chunk) size) as [[a2 n2] la2].
    injection E as <- <- <-. split; [done|]. split; [done|]. split; [|done]. cbn.
    unfold next_target in Ent. case_match; simplify_eq; [|done].
    pose proof (Z.mod_pos_bound (u64 (alloc_compute_nodes c + 1)) ComputeNumber). lia.
  - by injection E as <- <- <-.
Qed.

Lemma frees_memory cs i c c' :
  cs !! i = Some c → local_compute_allocator c' = local_compute_allocator c →
  frees (<[i := c']> cs) = <[i := free_piece (local_memory_allocator c')]> (frees cs).
Proof.
  intros Hi E. unfold frees. rewrite !list_fmap_insert. pose proof (lookup_lt_Some _ _ _ Hi).
  rewrite (list_insert_id (free_piece ∘ local_compute_allocator <$> cs)).
  - by rewrite insert_app_l by (by rewrite length_fmap).
  - rewrite list_lookup_fmap, Hi. cbn. by rewrite E.
Qed.

Lemma frees_compute cs i c c' :
  cs !! i = Some c → local_memory_allocator c' = local_memory_allocator c →
  frees (<[i := c']> cs) = <[(length cs + i)%nat := free_piece (local_compute_allocator c')]> (frees cs).
Proof.
  intros Hi E. unfold frees. rewrite !list_fmap_insert.
  rewrite (list_insert_id (free_piece ∘ local_memory_allocator <$> cs)).
  - rewrite insert_app_r_alt by (rewrite length_fmap; lia).
    by rewrite length_fmap, Nat.add_comm, Nat.add_sub.
  - rewrite list_lookup_fmap, Hi. cbn. by rewrite E.
Qed.

Lemma frees_lookup cs i c :
  cs !! i = Some c →
  frees cs !! i = Some (free_piece (local_memory_allocator c)) ∧
  frees cs !! (length cs + i)%nat = Some (free_piece (local_compute_allocator c)).
Proof.
  intros Hi. unfold frees. split.
  - apply lookup_app_l_Some. by rewrite list_lookup_fmap, Hi.
  - rewrite lookup_app_r by (rewrite length_fmap; lia). rewrite length_fmap, Nat.add_comm, Nat.add_sub.
    by rewrite list_lookup_fmap, Hi.
Qed.

Lemma length_frees cs : length (frees cs) = (length cs + length cs)%nat.
Proof. unfold frees. by rewrite length_app, !length_fmap. Qed.

(** The piece of a block: blocks on the compute nodes are cut from the memory
    of node [MemoryNumber] and placed at the same offset of another node. *)
Definition block_piece (b : Gaddr * Z) : piece :=
  (if nodeID b.1 <? MemoryNumber then nodeID b.1 else MemoryNumber, offset b.1, offset b.1 + b.2).

Lemma inv_lookup cs ds given i c :
  inv cs ds given → cs !! i = Some c →
  client_ok c ∧ (i < length (frees cs))%nat ∧ (length cs + i < length (frees cs))%nat ∧
  (frees cs ++ given) !! i = Some (free_piece (local_memory_allocator c)) ∧
  (frees cs ++ given) !! (length cs + i)%nat = Some (free_piece (local_compute_allocator c)).
Proof.
  intros [] Hi. destruct (frees_lookup cs i c Hi) as [H1 H2]. pose proof (lookup_lt_Some _ _ _ Hi).
  rewrite length_frees. split_and!; [by eapply Forall_lookup_1|lia|lia|by apply lookup_app_l_Some..].
Qed.

Lemma memory_alloc_inv i my th size cs c ds given addr c' ds' :
  inv cs ds given → cs !! i = Some c → 0 < size ≤ kChunkSize →
  memory_alloc MemoryNumber my th size (c, ds) = Ok (addr, (c', ds')) →
  inv (<[i := c']> cs) ds' (given ++ [block_piece (addr, size)]) ∧ memory_node (nodeID addr).
Proof.
  intros Hinv Hi Hs E. destruct (inv_lookup _ _ _ _ _ Hinv Hi) as (Hc & Hlt & _ & Hf & _).
  destruct (memory_alloc_cut my th size c ds addr c' ds' Hc E) as (node & Hnode & Ecut & Ecomp & Enodes & Ht).
  destruct Hinv as [Hd Hcs Hp Hb].
  destruct (cut_spec memory_node _ node my th size ds addr _ ds' Hd (ok_memory c Hc) Hnode ltac:(apply Hnode) Hs Ecut)
    as (Hla & Ha & _).
  destruct (cut_pieces memory_node _ node my th size ds addr _ ds' _ i Hd (ok_memory c Hc) Hnode
    ltac:(apply Hnode) Hs Ecut Hf Hp Hb) as (Hd' & Hp' & Hb').
  assert (block_piece (addr, size) = (nodeID addr, offset addr, offset addr + size)) as ->.
  { unfold block_piece. cbn. by rewrite (proj2 (Z.ltb_lt _ _)) by apply Ha. }
  rewrite insert_app_l, <- app_assoc in Hp', Hb' by done.
  split; [|done]. constructor; [done| |by rewrite (frees_memory cs i c)..].
  apply Forall_insert; [done|]. destruct Hc. constructor; [done|by rewrite Ecomp|by rewrite Enodes|done].
Qed.

Lemma compute_cut_inv i my th size cs c ds given addr c' ds' :
  inv cs ds given → cs !! i = Some c → 0 < size ≤ kChunkSize →
  compute_cut MemoryNumber ComputeNumber my th size (c, ds) = Ok (addr, (c', ds')) →
  inv (<[i := c']> cs) ds' (given ++ [(MemoryNumber, offset addr, offset addr + size)]).
Proof.
  intros Hinv Hi Hs E. destruct (inv_lookup _ _ _ _ _ Hinv Hi) as (Hc & _ & Hlt & _ & Hf).
  destruct (compute_cut_cut my th size c ds addr c' ds' Hc E) as (Ecut & Emem & Enodes & Et).
  destruct Hinv as [Hd Hcs Hp Hb].
  destruct (cut_spec compute_node _ MemoryNumber my th size ds addr _ ds' Hd (ok_compute c Hc) eq_refl
    ltac:(lia) Hs Ecut) as (Hla & Ha & _).
  destruct (cut_pieces compute_node _ MemoryNumber my th size ds addr _ ds' _ (length cs + i) Hd (ok_compute c Hc)
    eq_refl ltac:(lia) Hs Ecut Hf Hp Hb) as (Hd' & Hp' & Hb').
  rewrite Ha in Hp', Hb'. rewrite insert_app_l, <- app_assoc in Hp', Hb' by done.
  constructor; [done| |by rewrite (frees_compute cs i c)..].
  apply Forall_insert; [done|]. destruct Hc. constructor; [by rewrite Emem|done|done|by rewrite Et].
Qed.

(** A served request: the pieces handed out so far grow by the block (and, when
    the compute node is full, by a piece that is given up). *)
Lemma serve_inv r cs ds given addr cs' ds' :
  inv cs ds given → 0 < r_size r ≤ kChunkSize →
  serve MemoryNumber ComputeNumber r cs ds = Ok (addr, cs', ds') →
  ∃ extra, inv cs' ds' (given ++ extra) ∧ block_piece (addr, r_size r) ∈ extra.
Proof.
  intros Hinv Hs E. unfold serve in E. apply bind_Ok in E as (c & Hc & E). apply at_index_Ok in Hc.
  apply bind_Ok in E as ([a [c1 ds1]] & E & [= <- <- <-]). destruct (r_pool r).
  - exists [block_piece (a, r_size r)]. split; [by eapply memory_alloc_inv|set_solver].
  - unfold compute_alloc in E. destruct (use_memory_fp c).
    { exists [block_piece (a, r_size r)]. split; [by eapply memory_alloc_inv|set_solver]. }
    destruct (compute_cut _ _ _ _ _ _) as [[a1 [c2 ds2]]|] eqn:Ec; [|done].
    pose proof (compute_cut_inv _ _ _ _ _ _ _ _ _ _ _ Hinv Hc Hs Ec) as H1.
    assert (<[r_client r := c2]> cs !! r_client r = Some c2) as Hc2.
    { apply list_lookup_insert_eq. by eapply lookup_lt_Some. }
    destruct (Z.leb_spec ((kLeafCacheSize - 1) * MB) (offset a1)) as [Hfull|Hroom].
    + exists [(MemoryNumber, offset a1, offset a1 + r_size r); block_piece (a, r_size r)].
      split; [|set_solver].
      assert (inv (<[r_client r := set_use_memory_fp c2]> cs) ds2
        (given ++ [(MemoryNumber, offset a1, offset a1 + r_size r)])) as H2.
      { destruct H1 as [Hd Hcs Hp Hb]. apply (Forall_lookup_1 _ _ _ _ Hcs) in Hc2 as Hok.
        assert (frees (<[r_client r := set_use_memory_fp c2]> cs) = frees (<[r_client r := c2]> cs)) as Ef.
        { unfold frees. by rewrite !list_fmap_insert. }
        constructor; [done| |by rewrite Ef..].
        rewrite <- (list_insert_insert_eq cs (r_client r) _ c2).
        apply Forall_insert; [done|]. destruct Hok. by constructor. }
      assert (<[r_client r := set_use_memory_fp c2]> cs !! r_client r = Some (set_use_memory_fp c2)) as Hc3.
      { apply list_lookup_insert_eq. by eapply lookup_lt_Some. }
      destruct (memory_alloc_inv _ _ _ _ _ _ _ _ _ _ _ H2 Hc3 Hs E) as [H3 _].
      by rewrite list_insert_insert_eq, <- app_assoc in H3.
    + injection E as <- <- <-. eexists. split; [exact H1|]. apply list_elem_of_singleton.
      destruct (Forall_lookup_1 _ _ _ _ (inv_clients _ _ _ H1) Hc2) as [_ _ Hn _].
      unfold block_piece. cbn. rewrite wrap_small by (unfold fits; lia).
      by rewrite (proj2 (Z.ltb_ge _ _)) by lia.
Qed.

Lemma serve_all_inv rs cs ds given blocks cs' ds' :
  inv cs ds given → Forall (λ r, 0 < r_size r ≤ kChunkSize) rs →
  serve_all MemoryNumber ComputeNumber rs cs ds = Ok (blocks, cs', ds') →
  pairwise apart (block_piece <$> blocks) ∧
  (∀ a p, a ∈ given → p ∈ block_piece <$> blocks → apart a p) ∧
  Forall (λ p, first_byte ≤ p.1.2) (block_piece <$> blocks).
Proof.
  intros Hinv Hrs. revert cs ds given blocks Hinv.
  induction Hrs as [|r rs Hr _ IH]; intros cs ds given blocks Hinv E; cbn [serve_all] in E.
  { injection E as <- <- <-. split_and!; [by intros ? ? ? ?|set_solver|constructor]. }
  apply bind_Ok in E as ([[addr cs1] ds1] & E1 & E). apply bind_Ok in E as ([[bs cs2] ds2] & E2 & [= <- <- <-]).
  destruct (serve_inv r cs ds given addr cs1 ds1 Hinv Hr E1) as (extra & Hinv1 & Hin).
  destruct (IH cs1 ds1 (given ++ extra) bs Hinv1 E2) as (Hp & Hg & Hf). rewrite fmap_cons.
  pose proof (proj2 (proj1 (Forall_app _ _ _) (inv_below _ _ _ Hinv1))) as Hb.
  split_and!.
  - apply pairwise_cons; [done|]. intros a Ha.
    assert (apart (block_piece (addr, r_size r)) a) by (apply Hg; set_solver). by split; [apply apart_sym|].
  - intros a p Ha [->|Hp']%elem_of_cons; [|apply Hg; set_solver].
    destruct Hinv1 as [_ _ Hpw _]. rewrite app_assoc in Hpw.
    eapply (pairwise_app_in apart _ extra); [exact Hpw| |done]. set_solver.
  - constructor; [|done]. rewrite Forall_forall in Hb.
    destruct (Hb (block_piece (addr, r_size r)) ltac:(set_solver)) as [Hbad|(d & _ & _ & ? & _)]; [|done].
    unfold block_piece in Hbad; cbn in Hbad. lia.
Qed.

(** *** Requests are served while chunks last *)

(** Chunks the directory of node [n] can still hand out. *)
Definition left (ds : list Directory.t) (n : nat) : Z :=
  match ds !! n with
  | Some d => GlobalAllocator.bitmap_len (Directory.chunckAlloc d) - Directory.tail d
  | None => 0
  end.

Lemma cut_total la node my th size ds :
  dirs_ok ds → 0 ≤ node → 0 < left ds (Z.to_nat node) →
  ∃ addr la' ds', cut la node my th size ds = Ok (addr, la', ds') ∧
    ∀ n, left ds n - (if decide (n = Z.to_nat node) then 1 else 0) ≤ left ds' n.
Proof.
  intros Hd Hn Hl. unfold cut. destruct (LocalAllocator.malloc la size) as [[a need] la1]. destruct need.
  2:{ eexists _, _, _. split; [done|]. intros n. case_decide; lia. }
  unfold left in Hl. destruct (ds !! Z.to_nat node) as [d|] eqn:Hdn; [|lia]. destruct (Hd _ _ Hdn) as (Hw & _).
  pose proof (Directory.directory_malloc_spec d (Directory.MkMsg Directory.MALLOC my th Gaddr_Null 0) Hw eq_refl) as Hm.
  rewrite (proj2 (Z.ltb_lt _ _)) in Hm by lia. destruct Hm as (d' & Em & _ & _ & Hf & Ho & Hlen).
  unfold rpc_malloc, at_index. rewrite Hdn. cbn [mbind result_bind]. rewrite Em. cbn [mbind result_bind].
  destruct (LocalAllocator.malloc _ size) as [[a2 n2] la2].
  eexists a2, la2, _. split; [done|]. intros n. unfold left.
  destruct (decide (n = Z.to_nat node)) as [->|Hne].
  - rewrite Hdn, list_lookup_insert_eq by (by eapply lookup_lt_Some). rewrite Hlen.
    unfold Directory.frontier in Hf. rewrite Ho in Hf. assert (kChunkSize = 33554432) by done. lia.
  - rewrite list_lookup_insert_ne by done. lia.
Qed.

(** Every directory a client may ask has [k] chunks left. *)
Definition room (ds : list Directory.t) (k : Z) : Prop :=
  ∀ n, (n ≤ Z.to_nat MemoryNumber)%nat → k ≤ left ds n.

Lemma memory_alloc_total my th size c ds :
  client_ok c → dirs_ok ds → (∀ n, (n < Z.to_nat MemoryNumber)%nat → 0 < left ds n) →
  ∃ addr c' ds' m, memory_alloc MemoryNumber my th size (c, ds) = Ok (addr, (c', ds')) ∧
    (m < Z.to_nat MemoryNumber)%nat ∧ ∀ n, left ds n - (if decide (n = m) then 1 else 0) ≤ left ds' n.
Proof.
  intros [_ _ _ Ht] Hd Hroom. unfold memory_alloc.
  destruct (default _ (memory_target c !! th)) as [node dir] eqn:Et.
  assert (memory_node node) as Hnode.
  { destruct (memory_target c !! th) as [t|] eqn:Eth; cbn in Et; simplify_eq.
    - by apply (Ht th (node, dir)).
    - by apply Z.mod_pos_bound. }
  unfold memory_node in Hnode.
  destruct (cut_total (local_memory_allocator c) node my th size ds Hd) as (a & la & ds' & E & Hl);
    [lia|apply Hroom; lia|].
  unfold cut in E. destruct (LocalAllocator.malloc _ size) as [[a1 need] la1]. destruct need.
  - apply bind_Ok in E as ([chunk ds1] & -> & E). destruct (next_target _ _ _ _) as [count target].
    destruct (LocalAllocator.malloc _ size) as [[a2 n2] la2].
    injection E as <- <- <-. eexists _, _, _, _. split; [reflexivity|]. split; [|exact Hl]. lia.
  - injection E as <- <- <-. eexists _, _, _, _. split; [reflexivity|]. split; [|exact Hl]. lia.
Qed.

Lemma compute_cut_total my th size c ds :
  dirs_ok ds → 0 < left ds (Z.to_nat MemoryNumber) →
  ∃ addr c' ds', compute_cut MemoryNumber ComputeNumber my th size (c, ds) = Ok (addr, (c', ds')) ∧
    ∀ n, left ds n - (if decide (n = Z.to_nat MemoryNumber) then 1 else 0) ≤ left ds' n.
Proof.
  intros Hd Hl0. unfold compute_cut. destruct (default _ (compute_target c !! th)) as [node dir].
  destruct (cut_total (local_compute_allocator c) MemoryNumber my th size ds Hd) as (a & la & ds' & E & Hl);
    [lia|done|].
  unfold cut in E. destruct (LocalAllocator.malloc _ size) as [[a1 need] la1]. destruct need.
  - apply bind_Ok in E as ([chunk ds1] & Er & E). rewrite Z.add_0_l, Er.
    destruct (next_target _ _ _ _) as [count target].
    destruct (LocalAllocator.malloc _ size) as [[a2 n2] la2].
    injection E as <- <- <-. eexists _, _, _. split; [reflexivity|exact Hl].
  - injection E as <- <- <-. eexists _, _, _. split; [reflexivity|exact Hl].
Qed.

Lemma serve_total r cs ds given k :
  inv cs ds given → 0 < r_size r ≤ kChunkSize → (r_client r < length cs)%nat → 0 ≤ k → room ds (k + 1) →
  ∃ addr cs' ds', serve MemoryNumber ComputeNumber r cs ds = Ok (addr, cs', ds') ∧
    length cs' = length cs ∧ room ds' k.
Proof.
  intros Hinv Hs Hi Hk Hr. destruct (lookup_lt_is_Some_2 cs (r_client r) Hi) as [c Hc].
  unfold serve, at_index. rewrite Hc. cbn [mbind result_bind].
  destruct (inv_lookup _ _ _ _ _ Hinv Hc) as [Hok _]. pose proof (inv_dirs _ _ _ Hinv) as Hd.
  set (my := Z.of_nat (r_client r)).
  destruct (memory_alloc_total my (r_thread r) (r_size r) c ds Hok Hd) as (a & c1 & ds1 & m & E & Hm & Hl).
  { intros n Hn. specialize (Hr n ltac:(lia)). lia. }
  assert (room ds1 k) as Hr1.
  { intros n Hn. specialize (Hr n Hn). specialize (Hl n). destruct (decide (n = m)); lia. }
  destruct (r_pool r); [rewrite E; eexists _, _, _; split; [reflexivity|]; by rewrite length_insert|].
  unfold compute_alloc. destruct (use_memory_fp c).
  { rewrite E. eexists _, _, _. split; [reflexivity|]. by rewrite length_insert. }
  destruct (compute_cut_total my (r_thread r) (r_size r) c ds Hd) as (a2 & c2 & ds2 & E2 & Hl2).
  { specialize (Hr (Z.to_nat MemoryNumber) ltac:(lia)). lia. }
  rewrite E2. pose proof (compute_cut_inv _ _ _ _ _ _ _ _ _ _ _ Hinv Hc Hs E2) as Hinv2.
  destruct (Z.leb_spec ((kLeafCacheSize - 1) * MB) (offset a2)) as [_|_].
  2:{ eexists _, _, _. split; [reflexivity|]. rewrite length_insert. split; [done|].
      intros n Hn. specialize (Hr n Hn). specialize (Hl2 n). destruct (decide _); lia. }
  assert (client_ok (set_use_memory_fp c2)) as Hok2.
  { destruct (Forall_lookup_1 _ _ (r_client r) c2 (inv_clients _ _ _ Hinv2)); [|by constructor].
    by apply list_lookup_insert_eq. }
  destruct (memory_alloc_total my (r_thread r) (r_size r) (set_use_memory_fp c2) ds2 Hok2 (inv_dirs _ _ _ Hinv2))
    as (a3 & c3 & ds3 & m3 & -> & Hm3 & Hl3).
  { intros n Hn. specialize (Hr n ltac:(lia)). specialize (Hl2 n). rewrite decide_False in Hl2 by lia. lia. }
  eexists _, _, _. split; [reflexivity|]. rewrite length_insert. split; [done|].
  intros n Hn. specialize (Hr n Hn). specialize (Hl2 n). specialize (Hl3 n).
  destruct (decide (n = m3)), (decide (n = Z.to_nat MemoryNumber)); lia.
Qed.

Lemma serve_all_total rs cs ds given :
  inv cs ds given → Forall (λ r, 0 < r_size r ≤ kChunkSize ∧ (r_client r < length cs)%nat) rs →
  room ds (Z.of_nat (length rs)) →
  ∃ blocks cs' ds', serve_all MemoryNumber ComputeNumber rs cs ds = Ok (blocks, cs', ds') ∧
    snd <$> blocks = r_size <$> rs.
Proof.
  intros Hinv Hrs. revert cs ds given Hinv Hrs. induction rs as [|r rs IH]; intros cs ds given Hinv Hrs Hr.
  { by eexists _, _, _. }
  apply Forall_cons in Hrs as [[Hs Hi] Hrs]. cbn [serve_all].
  destruct (serve_total r cs ds given (Z.of_nat (length rs)) Hinv Hs Hi) as (a & cs1 & ds1 & E & Hlen & Hr1);
    [lia|by cbn [length] in Hr; rewrite Nat2Z.inj_succ in Hr|].
  destruct (serve_inv r cs ds given a cs1 ds1 Hinv Hs E) as (extra & Hinv1 & _).
  destruct (IH cs1 ds1 (given ++ extra) Hinv1) as (bs & cs2 & ds2 & E2 & Hbs); [by rewrite Hlen|done|].
  rewrite E. cbn [mbind result_bind]. rewrite E2. eexists _, _, _. split; [reflexivity|].
  by rewrite !fmap_cons, Hbs.
Qed.

End clients.

(** ** A cluster at start-up *)

(** The directories of nodes [0 .. n), each with [dsmSize] bytes. *)
Fixpoint boot (dsmSize : Z) (n : nat) : result (list Directory.t) :=
  match n with
  | O => Ok []
  | S n => boot dsmSize n ≫= λ ds, Directory.make dsmSize 0 (Z.of_nat n) ≫= λ d, Ok (ds ++ [d])
  end.

(** One client per node; [seeds] are the values their uninitialised
    [alloc_memory_nodes] happen to have. *)
Definition clients (seeds : list Z) : list client := imap (λ i seed, new_client seed (Z.of_nat i)) seeds.

Lemma boot_spec dsmSize n :
  41 * kChunkSize ≤ dsmSize < 2 ^ 48 → Z.of_nat n ≤ 2 ^ 16 →
  ∃ ds, boot dsmSize n = Ok ds ∧ length ds = n ∧ dirs_ok ds ∧
    ∀ i, (i < n)%nat → left ds i = dsmSize / kChunkSize - 41.
Proof.
  intros Hs. induction n as [|n IH]; intros Hn; cbn [boot].
  { exists []. split_and!; [done|done|by intros ? ? ?|lia]. }
  destruct IH as (ds & -> & Hlen & Hok & Hleft); [lia|]. cbn [mbind result_bind].
  destruct (Directory.directory_make_spec dsmSize (Z.of_nat n)) as (d & -> & Hw & Hnode & Hf & Ho & Hl); [unfold fits; lia|lia|].
  exists (ds ++ [d]). split; [done|]. split; [rewrite length_app, Hlen; cbn; lia|]. split.
  - intros i x Hx. apply lookup_app_Some in Hx as [Hx|[Hge Hx]]; [by apply Hok|].
    apply list_lookup_singleton_Some in Hx as [? <-]. rewrite Hnode, Hf. split_and!; [done|lia|done].
  - intros i Hi. unfold left. destruct (decide (i = n)) as [->|Hne].
    + rewrite lookup_app_r, Hlen, Nat.sub_diag by lia. cbn. rewrite Hl.
      unfold Directory.frontier in Hf. rewrite Ho in Hf. assert (kChunkSize = 33554432) by done. lia.
    + rewrite lookup_app_l by lia. apply Hleft. lia.
Qed.

Lemma boot_inv MemoryNumber ComputeNumber ds seeds :
  0 < MemoryNumber → 0 < ComputeNumber → 2 * MemoryNumber + ComputeNumber < 2 ^ 16 →
  Z.of_nat (length seeds) ≤ MemoryNumber + ComputeNumber → dirs_ok ds →
  inv MemoryNumber (clients seeds) ds [].
Proof.
  intros Hm Hc Hn Hlen Hds.
  assert (∀ p, p ∈ frees (clients seeds) → p = (0, 0, 0)) as Hz.
  { intros p [(c & -> & [i Hi]%list_elem_of_lookup)%list_elem_of_fmap
             |(c & -> & [i Hi]%list_elem_of_lookup)%list_elem_of_fmap]%elem_of_app;
      unfold clients in Hi; rewrite list_lookup_imap in Hi;
      destruct (seeds !! i); by simplify_eq/=. }
  constructor; [done| | |].
  - apply Forall_lookup. intros i c Hi. unfold clients in Hi. rewrite list_lookup_imap in Hi.
    destruct (seeds !! i) as [seed|] eqn:Hs; [|done]. injection Hi as <-.
    pose proof (lookup_lt_Some _ _ _ Hs). constructor; [by left|by left|cbn; lia|done].
  - rewrite app_nil_r. intros i j a b _ Ha%list_elem_of_lookup_2 Hb%list_elem_of_lookup_2.
    rewrite (Hz a Ha), (Hz b Hb). unfold apart; cbn. lia.
  - rewrite app_nil_r. apply Forall_forall. intros p Hp. rewrite (Hz p Hp). by left.
Qed.

(** C20: remote allocation is total while chunks last, and safe.  In a cluster
    whose nodes boot with enough memory, any sequence of block requests by any
    clients and threads, to the memory or to the compute pool, is served; the
    blocks have the sizes asked for, no two of them overlap, and none touches
    the bytes reserved for the root pointer, the global lock and the slabs of
    the skip vector. *)
Theorem remote_blocks_disjoint MemoryNumber ComputeNumber dsmSize seeds rs :
  0 < MemoryNumber → 0 < ComputeNumber → 2 * MemoryNumber + ComputeNumber < 2 ^ 16 →
  Z.of_nat (length seeds) ≤ MemoryNumber + ComputeNumber →
  (41 + Z.of_nat (length rs)) * kChunkSize ≤ dsmSize < 2 ^ 48 →
  Forall (λ r, 0 < r_size r ≤ kChunkSize ∧ (r_client r < length seeds)%nat) rs →
  ∃ ds blocks cs' ds',
    boot dsmSize (Z.to_nat (MemoryNumber + ComputeNumber)) = Ok ds ∧
    serve_all MemoryNumber ComputeNumber rs (clients seeds) ds = Ok (blocks, cs', ds') ∧
    snd <$> blocks = r_size <$> rs ∧
    (∀ i j g1 s1 g2 s2, i ≠ j → blocks !! i = Some (g1, s1) → blocks !! j = Some (g2, s2) →
       nodeID g1 ≠ nodeID g2 ∨ offset g1 + s1 ≤ offset g2 ∨ offset g2 + s2 ≤ offset g1) ∧
    (∀ g s, (g, s) ∈ blocks → kSkipVectorRegionBase + kSkipVectorRegionBytes ≤ offset g).
Proof.
  intros Hm Hc Hn Hlen Hd Hrs. assert (kChunkSize = 33554432) as Hk by done.
  destruct (boot_spec dsmSize (Z.to_nat (MemoryNumber + ComputeNumber))) as (ds & Hboot & Hl & Hds & Hleft); [lia|lia|].
  pose proof (boot_inv MemoryNumber ComputeNumber ds seeds Hm Hc Hn Hlen Hds) as Hinv.
  destruct (serve_all_total MemoryNumber ComputeNumber Hm Hc ltac:(lia) rs (clients seeds) ds [] Hinv)
    as (blocks & cs' & ds' & E & Hsz).
  { unfold clients. by rewrite length_imap. }
  { intros i Hi. rewrite Hleft by lia.
    assert (41 + Z.of_nat (length rs) ≤ dsmSize / kChunkSize) by (apply Z.div_le_lower_bound; lia). lia. }
  assert (Forall (λ r, 0 < r_size r ≤ kChunkSize) rs) as Hsizes by (eapply Forall_impl; [exact Hrs|]; by intros ? []).
  destruct (serve_all_inv MemoryNumber ComputeNumber Hm Hc ltac:(lia) rs (clients seeds) ds [] blocks cs' ds' Hinv
    Hsizes E) as (Hp & _ & Hf).
  exists ds, blocks, cs', ds'. split_and!; [done|done|done| |].
  - intros i j g1 s1 g2 s2 Hij H1 H2.
    assert (∀ k g s, blocks !! k = Some (g, s) → 0 < s) as Hpos.
    { intros k g s Hks. assert ((snd <$> blocks) !! k = Some s) as Hks' by by rewrite list_lookup_fmap, Hks.
      rewrite Hsz, list_lookup_fmap in Hks'. destruct (rs !! k) as [r|] eqn:Hr; [|done]. injection Hks' as <-.
      apply (Forall_lookup_1 _ _ _ _ Hsizes Hr). }
    pose proof (Hpos i g1 s1 H1). pose proof (Hpos j g2 s2 H2).
    assert (apart (block_piece MemoryNumber (g1, s1)) (block_piece MemoryNumber (g2, s2))) as Hap.
    { apply (Hp i j); [done|by rewrite list_lookup_fmap, H1|by rewrite list_lookup_fmap, H2]. }
    unfold apart, block_piece in Hap. cbn in Hap.
    destruct (decide (nodeID g1 = nodeID g2)) as [En|]; [|by left]. rewrite En in Hap. lia.
  - intros g s Hg. rewrite Forall_forall in Hf. specialize (Hf (block_piece MemoryNumber (g, s))).
    change (kSkipVectorRegionBase + kSkipVectorRegionBytes) with (40 * kChunkSize).
    unfold first_byte in Hf. cbn in Hf. assert (41 * kChunkSize ≤ offset g) by (apply Hf, list_elem_of_fmap; eauto). lia.
Qed.

Lemma remote_blocks_disjoint_witness :
  ∃ ds blocks cs' ds', boot (64 * kChunkSize) 2 = Ok ds ∧
    serve_all 1 1 [MkReq 0 0 MemoryPool 1752; MkReq 1 0 ComputePool 56; MkReq 0 1 MemoryPool 1752] (clients [5; 9]) ds
      = Ok (blocks, cs', ds') ∧
    snd <$> blocks = [1752; 56; 1752].
Proof.
  destruct (remote_blocks_disjoint 1 1 (64 * kChunkSize) [5; 9]
    [MkReq 0 0 MemoryPool 1752; MkReq 1 0 ComputePool 56; MkReq 0 1 MemoryPool 1752])
    as (ds & blocks & cs' & ds' & H1 & H2 & H3 & _).
  - done.
  - done.
  - done.
  - done.
  - done.
  - repeat (apply Forall_cons; split; [split; [done|apply Nat.ltb_lt; reflexivity]|]). apply Forall_nil_2.
  - exists ds, blocks, cs', ds'. exact (conj H1 (conj H2 H3)).
Defined.
