(* ===== verification/LocalLockTable.v ===== *)
(** * Local lock table ([SkipVectorDM/include/LocalLockTable.h])

    Threads of one compute server that access the same key queue up on a local
    ticket lock; the holder can hand its result (read delegation) or its
    remote write (write combining) over to the threads behind it.  The
    functions below are the atomic pieces of the methods: what a thread does
    before it waits for its ticket, what it does once admitted, and the
    release.  Section [protocol] interleaves the pieces of any number of
    threads. *)

From S2P Require Import Prelude KVConfig RdmaConfig LeafNode.
Open Scope Z_scope.

Definition MAX_HOCL_HANDOVER : Z := 8.

(** [struct LocalLockNode]; the counters are 32 bits wide. *)
Record LocalLockNode := MkNode {
  read_current : Z;
  read_ticket : Z;
  read_handover : bool;
  write_current : Z;
  write_ticket : Z;
  write_handover : bool;
  window_start : bool;
  read_window : Z;
  write_window : Z;
  unique_read_key : option Key;
  unique_write_key : option Key;
  unique_addr : Gaddr;
  res : bool;
  ret_value : Value;
  wc_buffer : Value;
  handover_cnt : Z }.

(** The constructor; [res], [ret_value] and [wc_buffer] are not initialised. *)
Definition new_node (r : bool) (v1 v2 : Value) : LocalLockNode :=
  MkNode 0 0 false 0 0 false false 0 0 None None Gaddr_Null r v1 v2 0.

(** [Hash::get_hashed_lock_index]. *)
Definition get_hashed_lock_index `{CityHash} (k : Key) : Z := u64 (CityHash64 (key k)) mod kLocalLockNum.
Definition get_hashed_lock_index_addr `{CityHash} (a : Gaddr) : Z :=
  u64 (CityHash64 (gaddr_bytes a)) mod kLocalLockNum.

(** *** Field updates *)

Definition set_read (n : LocalLockNode) (cur tick : Z) (h : bool) (win : Z) (uk : option Key) : LocalLockNode :=
  MkNode cur tick h (write_current n) (write_ticket n) (write_handover n) (window_start n) win (write_window n)
    uk (unique_write_key n) (unique_addr n) (res n) (ret_value n) (wc_buffer n) (handover_cnt n).
Definition set_write (n : LocalLockNode) (cur tick : Z) (h : bool) (win : Z) (uk : option Key) : LocalLockNode :=
  MkNode (read_current n) (read_ticket n) (read_handover n) cur tick h (window_start n) (read_window n) win
    (unique_read_key n) uk (unique_addr n) (res n) (ret_value n) (wc_buffer n) (handover_cnt n).
Definition set_windows (n : LocalLockNode) (st : bool) (rw ww : Z) : LocalLockNode :=
  MkNode (read_current n) (read_ticket n) (read_handover n) (write_current n) (write_ticket n) (write_handover n)
    st rw ww (unique_read_key n) (unique_write_key n) (unique_addr n) (res n) (ret_value n) (wc_buffer n)
    (handover_cnt n).
Definition set_ret (n : LocalLockNode) (r : bool) (v : Value) : LocalLockNode :=
  MkNode (read_current n) (read_ticket n) (read_handover n) (write_current n) (write_ticket n) (write_handover n)
    (window_start n) (read_window n) (write_window n) (unique_read_key n) (unique_write_key n) (unique_addr n)
    r v (wc_buffer n) (handover_cnt n).
Definition set_wc (n : LocalLockNode) (v : Value) : LocalLockNode :=
  MkNode (read_current n) (read_ticket n) (read_handover n) (write_current n) (write_ticket n) (write_handover n)
    (window_start n) (read_window n) (write_window n) (unique_read_key n) (unique_write_key n) (unique_addr n)
    (res n) (ret_value n) v (handover_cnt n).
Definition set_addr (n : LocalLockNode) (a : Gaddr) : LocalLockNode :=
  MkNode (read_current n) (read_ticket n) (read_handover n) (write_current n) (write_ticket n) (write_handover n)
    (window_start n) (read_window n) (write_window n) (unique_read_key n) (unique_write_key n) a
    (res n) (ret_value n) (wc_buffer n) (handover_cnt n).
Definition set_cnt (n : LocalLockNode) (c : Z) : LocalLockNode :=
  MkNode (read_current n) (read_ticket n) (read_handover n) (write_current n) (write_ticket n) (write_handover n)
    (window_start n) (read_window n) (write_window n) (unique_read_key n) (unique_write_key n) (unique_addr n)
    (res n) (ret_value n) (wc_buffer n) c.

(** [((1UL << 32) + ticket - current) % (1UL << 32)]. *)
Definition waiting (ticket current : Z) : Z := (2 ^ 32 + ticket - current) mod 2 ^ 32.

(** [if(window) { --window; if(both are zero) window_start = false; }]. *)
Definition leave_read_window (n : LocalLockNode) : LocalLockNode :=
  if read_window n =? 0 then n
  else
    let rw := read_window n - 1 in
    set_windows n (if (rw =? 0) && (write_window n =? 0) then false else window_start n) rw (write_window n).
Definition leave_write_window (n : LocalLockNode) : LocalLockNode :=
  if write_window n =? 0 then n
  else
    let ww := write_window n - 1 in
    set_windows n (if (read_window n =? 0) && (ww =? 0) then false else window_start n) (read_window n) ww.

Definition next_read (n : LocalLockNode) : LocalLockNode :=
  set_read n (u32 (read_current n + 1)) (read_ticket n) (read_handover n) (read_window n) (unique_read_key n).
Definition next_write (n : LocalLockNode) : LocalLockNode :=
  set_write n (u32 (write_current n + 1)) (write_ticket n) (write_handover n) (write_window n) (unique_write_key n).

(** What a thread does on arrival: turned away, or a ticket to wait for. *)
Inductive entry := Conflict | Ticket (t : Z).

(** ** Read delegation *)

(** [acquire_local_read_lock] up to the wait. *)
Definition read_enter (n : LocalLockNode) (k : Key) : entry * LocalLockNode :=
  let '(mine, n) :=
    match unique_read_key n with
    | None => (true, set_read n (read_current n) (read_ticket n) (read_handover n) (read_window n) (Some k))
    | Some k' => (key_eqb k' k, n)
    end in
  if negb mine then (Conflict, n)
  else if MAX_HOCL_HANDOVER <? waiting (read_ticket n) (read_current n) then (Conflict, n)
  else (Ticket (read_ticket n),
        set_read n (read_current n) (u32 (read_ticket n + 1)) (read_handover n) (read_window n) (unique_read_key n)).

(** The rest of [acquire_local_read_lock], once [ticket == read_current]. *)
Definition read_admit (n : LocalLockNode) (k : Key) : (bool * bool) * LocalLockNode :=
  if match unique_read_key n with Some k' => key_eqb k' k | None => false end then
    let n := if read_window n =? 0
             then set_read n (read_current n) (read_ticket n) false (read_window n) (unique_read_key n) else n in
    ((read_handover n, false), n)
  else ((false, true), next_read (leave_read_window n)).

(** [release_local_read_lock]: the result and value the caller ends up with. *)
Definition read_release (n : LocalLockNode) (acquire_ret : bool * bool) (r : bool) (v : Value)
    : (bool * Value) * LocalLockNode :=
  if acquire_ret.2 then ((r, v), n)
  else
    let '(r, v, n) := if negb (read_handover n) then (r, v, set_ret n r v) else (res n, ret_value n, n) in
    let ticket := read_ticket n in
    let current := read_current n in
    let n := if negb (read_handover n) && negb (window_start n)
             then set_windows n true (waiting ticket current) (waiting (write_ticket n) (write_current n)) else n in
    let h := negb (ticket =? u32 (current + 1)) in
    let n := set_read n (read_current n) (read_ticket n) h (read_window n) (if h then unique_read_key n else None) in
    ((r, v), next_read (leave_read_window n)).

(** ** Write combining *)

Definition write_enter (n : LocalLockNode) (k : Key) (v : Value) : entry * LocalLockNode :=
  let '(mine, n) :=
    match unique_write_key n with
    | None => (true, set_write n (write_current n) (write_ticket n) (write_handover n) (write_window n) (Some k))
    | Some k' => (key_eqb k' k, n)
    end in
  if negb mine then (Conflict, n)
  else
    let n := set_wc n v in
    (Ticket (write_ticket n),
     set_write n (write_current n) (u32 (write_ticket n + 1)) (write_handover n) (write_window n) (unique_write_key n)).

Definition write_admit (n : LocalLockNode) (k : Key) : (bool * bool) * LocalLockNode :=
  if match unique_write_key n with Some k' => key_eqb k' k | None => false end then
    let n := if write_window n =? 0
             then set_write n (write_current n) (write_ticket n) false (write_window n) (unique_write_key n) else n in
    ((write_handover n, false), n)
  else ((false, true), next_write (leave_write_window n)).

(** [get_combining_value]: whether the value changed, and the value. *)
Definition get_combining_value (n : LocalLockNode) (k : Key) (v : Value) : bool * Value :=
  if match unique_write_key n with Some k' => key_eqb k' k | None => false end
  then (negb (wc_buffer n =? v), wc_buffer n) else (false, v).

Definition write_release (n : LocalLockNode) (acquire_ret : bool * bool) : LocalLockNode :=
  if acquire_ret.2 then n
  else
    let ticket := write_ticket n in
    let current := write_current n in
    let n := if negb (write_handover n) && negb (window_start n)
             then set_windows n true (waiting (read_ticket n) (read_current n)) (waiting ticket current) else n in
    let h := negb (ticket =? u32 (current + 1)) in
    let n := set_write n (write_current n) (write_ticket n) h (write_window n) (if h then unique_write_key n else None) in
    next_write (leave_write_window n).

(** ** Lock handover (by address)

    The remote writes and unlocks passed in as functions are recorded in the
    order they are called. *)

Inductive remote_call := Unlock (a : Gaddr) | WriteOnly (a : Gaddr) | WriteAndUnlock (a : Gaddr) | WriteBack (v : Value).

Definition lock_enter (n : LocalLockNode) : Z * LocalLockNode :=
  (write_ticket n,
   set_write n (write_current n) (u32 (write_ticket n + 1)) (write_handover n) (write_window n) (unique_write_key n)).

Definition lock_admit (n : LocalLockNode) (a : Gaddr) : bool * LocalLockNode :=
  let n := if negb (write_handover n) then set_addr n a else n in
  (write_handover n && gaddr_eqb (unique_addr n) a, n).

(** [acquire_local_lock_once]: the returned flag and [lock_success]. *)
Definition acquire_local_lock_once (n : LocalLockNode) (a : Gaddr) : bool * bool * LocalLockNode :=
  if write_ticket n =? write_current n then
    let '(_, n) := lock_enter n in
    let '(r, n) := lock_admit n a in (r, true, n)
  else (false, false, n).

(** The handover decision shared by the releases. *)
Definition decide_handover (n : LocalLockNode) : LocalLockNode :=
  let h := negb (write_ticket n =? u32 (write_current n + 1)) in
  let h := if MAX_HOCL_HANDOVER <? handover_cnt n then false else h in
  let n := set_write n (write_current n) (write_ticket n) h (write_window n) (unique_write_key n) in
  set_cnt n (if h then handover_cnt n + 1 else 0).

Definition can_hand_over (n : LocalLockNode) (a : Gaddr) : bool * list Gaddr * LocalLockNode :=
  let n := decide_handover n in
  (write_handover n,
   (if gaddr_neqb (unique_addr n) a then [a] else []) ++ (if negb (write_handover n) then [unique_addr n] else []),
   n).

Definition release_local_lock (n : LocalLockNode) : LocalLockNode := next_write n.

Definition release_local_lock_unlock (n : LocalLockNode) (a : Gaddr) : list remote_call * LocalLockNode :=
  let n := decide_handover n in
  ((if gaddr_neqb (unique_addr n) a then [Unlock a] else []) ++
   (if negb (write_handover n) then [Unlock (unique_addr n)] else []),
   next_write n).

Definition release_local_lock_embedded (n : LocalLockNode) (a : Gaddr) : list remote_call * LocalLockNode :=
  let n := decide_handover n in
  (if negb (write_handover n) then
     (if gaddr_neqb (unique_addr n) a then [Unlock (unique_addr n)] else []) ++ [WriteAndUnlock a]
   else if gaddr_neqb (unique_addr n) a then [WriteAndUnlock a] else [WriteOnly a],
   next_write n).

(** [acquire_local_lock(const Key& k, ...)] once admitted. *)
Definition lock_admit_key (n : LocalLockNode) (k : Key) : bool * LocalLockNode :=
  let n := if negb (write_handover n)
           then set_write n (write_current n) (write_ticket n) (write_handover n) (write_window n) (Some k) else n in
  (write_handover n && match unique_write_key n with Some k' => key_eqb k' k | None => false end, n).

(** ** Write and read testing *)

Definition test_write_enter (n : LocalLockNode) (v : Value) : Z * LocalLockNode := lock_enter (set_wc n v).

Definition test_write_release (n : LocalLockNode) (a : Gaddr) (v : Value) : list remote_call * LocalLockNode :=
  let calls :=
    (if negb (write_handover n) then [WriteBack (wc_buffer n); Unlock (unique_addr n)] else []) ++
    (if gaddr_neqb (unique_addr n) a then [WriteBack v; Unlock a] else []) in
  let h := negb (write_ticket n =? u32 (write_current n + 1)) in
  (calls, next_write (set_write n (write_current n) (write_ticket n) h (write_window n) (unique_write_key n))).

Definition test_read_enter (n : LocalLockNode) : Z * LocalLockNode :=
  (read_ticket n,
   set_read n (read_current n) (u32 (read_ticket n + 1)) (read_handover n) (read_window n) (unique_read_key n)).

Definition test_read_admit (n : LocalLockNode) (a : Gaddr) : bool * LocalLockNode :=
  let n := if negb (read_handover n) then set_addr n a else n in
  (read_handover n && gaddr_eqb (unique_addr n) a, n).

Definition test_read_release (n : LocalLockNode) (a : Gaddr) (r : bool) (v : Value)
    : (bool * Value) * LocalLockNode :=
  let '(r, v, n) :=
    if gaddr_eqb (unique_addr n) a then
      (if negb (read_handover n) then (r, v, set_ret n r v) else (res n, ret_value n, n))
    else (r, v, n) in
  let h := negb (read_ticket n =? u32 (read_current n + 1)) in
  ((r, v), next_read (set_read n (read_current n) (read_ticket n) h (read_window n) (unique_read_key n))).

(** ** A lock nobody uses *)

Record quiescent (n : LocalLockNode) : Prop := {
  q_read : read_ticket n = read_current n;
  q_write : write_ticket n = write_current n;
  q_read_fits : fits 32 (read_current n);
  q_write_fits : fits 32 (write_current n);
  q_read_window : read_window n = 0;
  q_write_window : write_window n = 0;
  q_window_start : window_start n = false;
  q_read_key : unique_read_key n = None;
  q_write_key : unique_write_key n = None }.

Lemma waiting_self c : waiting c c = 0.
Proof. unfold waiting. replace (2 ^ 32 + c - c) with (2 ^ 32) by lia. done. Qed.

Lemma waiting_succ c : waiting (u32 (c + 1)) c = 1.
Proof. unfold waiting, wrap. Z.to_euclidean_division_equations. lia. Qed.

Lemma new_node_quiescent r v1 v2 : quiescent (new_node r v1 v2).
Proof. by constructor. Qed.

(** A reader, or a writer, that finds the lock unused. *)
Lemma read_alone n k :
  quiescent n →
  ∃ n1 n2, read_enter n k = (Ticket (read_current n), n1) ∧ read_current n1 = read_current n ∧
    read_admit n1 k = ((false, false), n2) ∧
    ∀ r v, (read_release n2 (false, false) r v).1 = (r, v) ∧ quiescent (read_release n2 (false, false) r v).2.
Proof.
  intros [Er Ew Hr Hw Hrw Hww Hws Hrk Hwk]. unfold read_enter. rewrite Hrk. cbn. rewrite Er, waiting_self. cbn.
  eexists _, _. split; [reflexivity|]. split; [done|]. unfold read_admit; cbn. rewrite key_eqb_refl, Hrw. cbn.
  split; [reflexivity|]. intros r v. unfold read_release; cbn. rewrite Hws; cbn.
  rewrite Z.eqb_refl, waiting_succ, Ew, waiting_self; cbn. split; [done|].
  constructor; cbn; try done; auto with mach.
Qed.

Lemma write_alone n k v :
  quiescent n →
  ∃ n1 n2, write_enter n k v = (Ticket (write_current n), n1) ∧ write_current n1 = write_current n ∧
    write_admit n1 k = ((false, false), n2) ∧ (∀ v', (get_combining_value n2 k v').2 = v) ∧
    quiescent (write_release n2 (false, false)).
Proof.
  intros [Er Ew Hr Hw Hrw Hww Hws Hrk Hwk]. unfold write_enter. rewrite Hwk. cbn. rewrite Ew.
  eexists _, _. split; [reflexivity|]. split; [done|]. unfold write_admit; cbn. rewrite key_eqb_refl, Hww. cbn.
  split; [reflexivity|]. split; [intros v'; unfold get_combining_value; cbn; by rewrite key_eqb_refl|].
  unfold write_release; cbn. rewrite Hws; cbn.
  rewrite Z.eqb_refl, waiting_succ, Er, waiting_self; cbn. constructor; cbn; try done; auto with mach.
Qed.

(** ** The protocol *)

(** Where a thread is; a queued thread keeps its ticket. *)
Inductive thread :=
| Idle
| RWait (k : Key) (t : Z)
| RIn (k : Key) (handover : bool) (t : Z)
| WWait (k : Key) (t : Z)
| WIn (k : Key) (handover : bool) (t : Z).

Record system := MkSys { node : LocalLockNode; threads : list thread }.

Inductive lock_step : system → system → Prop :=
| s_read_enter s i k t n :
    threads s !! i = Some Idle → read_enter (node s) k = (Ticket t, n) →
    lock_step s (MkSys n (<[i := RWait k t]> (threads s)))
| s_read_turned_away s i k n :
    threads s !! i = Some Idle → read_enter (node s) k = (Conflict, n) → lock_step s (MkSys n (threads s))
| s_read_admit s i k t h n :
    threads s !! i = Some (RWait k t) → t = read_current (node s) → read_admit (node s) k = ((h, false), n) →
    lock_step s (MkSys n (<[i := RIn k h t]> (threads s)))
| s_read_conflict s i k t h n :
    threads s !! i = Some (RWait k t) → t = read_current (node s) → read_admit (node s) k = ((h, true), n) →
    lock_step s (MkSys n (<[i := Idle]> (threads s)))
| s_read_release s i k h t r v rv n :
    threads s !! i = Some (RIn k h t) → read_release (node s) (h, false) r v = (rv, n) →
    lock_step s (MkSys n (<[i := Idle]> (threads s)))
| s_write_enter s i k v t n :
    threads s !! i = Some Idle → write_enter (node s) k v = (Ticket t, n) →
    lock_step s (MkSys n (<[i := WWait k t]> (threads s)))
| s_write_turned_away s i k v n :
    threads s !! i = Some Idle → write_enter (node s) k v = (Conflict, n) → lock_step s (MkSys n (threads s))
| s_write_admit s i k t h n :
    threads s !! i = Some (WWait k t) → t = write_current (node s) → write_admit (node s) k = ((h, false), n) →
    lock_step s (MkSys n (<[i := WIn k h t]> (threads s)))
| s_write_conflict s i k t h n :
    threads s !! i = Some (WWait k t) → t = write_current (node s) → write_admit (node s) k = ((h, true), n) →
    lock_step s (MkSys n (<[i := Idle]> (threads s)))
| s_write_release s i k h t n :
    threads s !! i = Some (WIn k h t) → write_release (node s) (h, false) = n →
    lock_step s (MkSys n (<[i := Idle]> (threads s))).

(** The tickets queued on each side, as distances from the current ticket. *)
Definition read_ticket_of (x : thread) : option Z :=
  match x with RWait _ t | RIn _ _ t => Some t | _ => None end.
Definition write_ticket_of (x : thread) : option Z :=
  match x with WWait _ t | WIn _ _ t => Some t | _ => None end.

Definition queue (f : thread → option Z) (cur : Z) (l : list thread) : list Z :=
  (λ t, (t - cur) mod 2 ^ 32) <$> omap f l.

(** The queued tickets are the consecutive ones from [cur] up to [tick]. *)
Record in_line (f : thread → option Z) (cur tick : Z) (l : list thread) : Prop := {
  line_fits : fits 32 cur ∧ fits 32 tick;
  line_len : (tick - cur) mod 2 ^ 32 = Z.of_nat (length (queue f cur l));
  line_queue : queue f cur l ≡ₚ seqZ 0 (Z.of_nat (length (queue f cur l))) }.

Lemma in_line_same f cur tick l i x y :
  l !! i = Some x → f x = f y → in_line f cur tick l → in_line f cur tick (<[i := y]> l).
Proof.
  intros Hi Hf [H1 H2 H3]. pose proof (omap_insert f l i x y Hi) as Hp. rewrite Hf in Hp.
  apply Permutation_app_inv_l in Hp.
  assert (queue f cur (<[i:=y]> l) ≡ₚ queue f cur l) as Hq by (unfold queue; by rewrite Hp).
  constructor; [done|by rewrite (Permutation_length Hq)|by rewrite Hq at 1; rewrite (Permutation_length Hq)].
Qed.

Lemma length_queue f cur l : (length (queue f cur l) ≤ length l)%nat.
Proof. unfold queue. rewrite length_fmap. induction l as [|x l IH]; cbn; [lia|]. destruct (f x); cbn; lia. Qed.

Lemma in_line_enter f cur tick l i x y :
  l !! i = Some x → f x = None → f y = Some tick → Z.of_nat (length l) < 2 ^ 32 →
  in_line f cur tick l → in_line f cur (u32 (tick + 1)) (<[i := y]> l).
Proof.
  intros Hi Hx Hy Hlen [[H1 H1'] H2 H3]. pose proof (omap_insert f l i x y Hi) as Hp. rewrite Hx, Hy in Hp. cbn in Hp.
  pose proof (length_queue f cur (<[i:=y]> l)) as Hle. rewrite length_insert in Hle.
  assert (queue f cur (<[i:=y]> l) ≡ₚ (tick - cur) mod 2 ^ 32 :: queue f cur l) as Hq by (unfold queue; by rewrite Hp).
  assert (length (queue f cur (<[i:=y]> l)) = S (length (queue f cur l))) as Hl by (by rewrite Hq).
  constructor; [auto with mach| |].
  - rewrite Hl in *. unfold fits, wrap in *. Z.to_euclidean_division_equations. lia.
  - rewrite Hl, Hq, H2, Nat2Z.inj_succ, <- Z.add_1_r, seqZ_app by lia. rewrite <- H3 by lia.
    cbn. solve_Permutation.
Qed.

Lemma in_line_leave f cur tick l i x y :
  l !! i = Some x → f x = Some cur → f y = None → Z.of_nat (length l) < 2 ^ 32 →
  in_line f cur tick l → in_line f (u32 (cur + 1)) tick (<[i := y]> l).
Proof.
  intros Hi Hx Hy Hlen [[H1 H1'] H2 H3]. pose proof (omap_insert f l i x y Hi) as Hp. rewrite Hx, Hy in Hp. cbn in Hp.
  pose proof (length_queue f cur l) as Hle.
  set (rest := queue f cur (<[i:=y]> l)).
  assert (0 :: rest ≡ₚ queue f cur l) as Hq by (unfold rest, queue; rewrite <- Hp; cbn; by rewrite Z.sub_diag).
  assert (length (queue f cur l) = S (length rest)) as Hl by (by rewrite <- Hq).
  assert (rest ≡ₚ seqZ 1 (Z.of_nat (length rest))) as Hr.
  { rewrite <- Hq in H3 at 1. rewrite Hl, Nat2Z.inj_succ, seqZ_cons in H3 by lia.
    rewrite Z.pred_succ in H3. by apply Permutation_cons_inv in H3. }
  assert (queue f (u32 (cur + 1)) (<[i:=y]> l) = Z.add (-1) <$> rest) as Hn.
  { unfold rest, queue at 1 2. rewrite <- list_fmap_compose. apply list_fmap_ext. intros j t Ht. cbn.
    assert ((t - cur) mod 2 ^ 32 ∈ seqZ 1 (Z.of_nat (length rest))) as He.
    { rewrite <- Hr. apply list_elem_of_fmap. exists t. split; [done|by eapply list_elem_of_lookup_2]. }
    apply elem_of_seqZ in He. unfold fits, wrap in *. clear -He H1. Z.to_euclidean_division_equations. lia. }
  constructor; rewrite ?Hn, ?length_fmap; [auto with mach| |].
  - rewrite Hl in *. unfold fits, wrap in *. Z.to_euclidean_division_equations. lia.
  - rewrite Hr at 1. change 0 with (-1 + 1). by rewrite <- (fmap_add_seqZ (-1) 1).
Qed.

(** Two threads with the current ticket are the same one. *)
Lemma in_line_unique f cur tick l i j x y :
  in_line f cur tick l → l !! i = Some x → l !! j = Some y → f x = Some cur → f y = Some cur → i = j.
Proof.
  intros [_ _ Hq] Hi Hj Hx Hy. destruct (decide (i = j)) as [|Hne]; [done|exfalso].
  assert (NoDup (queue f cur l)) as Hnd by (rewrite Hq; apply NoDup_seqZ).
  assert (∃ q, omap f l ≡ₚ cur :: cur :: q) as [q Hp].
  { assert (y ∈ delete i l) as Hy'.
    { destruct (decide (j < i)%nat).
      - apply list_elem_of_lookup. exists j. by rewrite list_lookup_delete_lt.
      - apply list_elem_of_lookup. exists (j - 1)%nat. rewrite list_lookup_delete_ge by lia.
        by replace (S (j - 1)) with j by lia. }
    apply elem_of_Permutation in Hy' as [l' Hl']. exists (omap f l').
    rewrite (delete_Permutation l i x) by done. rewrite Hl'. cbn. by rewrite Hx, Hy. }
  unfold queue in Hnd. rewrite Hp in Hnd. cbn in Hnd. inversion Hnd as [|?? Hn]. apply Hn. constructor.
Qed.

(** What the calls do to the four counters. *)
Definition read_side (n : LocalLockNode) : Z * Z := (read_current n, read_ticket n).
Definition write_side (n : LocalLockNode) : Z * Z := (write_current n, write_ticket n).

Ltac sides :=
  unfold read_side, write_side, read_enter, read_admit, read_release, write_enter, write_admit, write_release,
    next_read, next_write, leave_read_window, leave_write_window in *; cbn in *;
  repeat case_match; simplify_eq/=; try done.

Lemma read_enter_sides n k e n' :
  read_enter n k = (e, n') →
  write_side n' = write_side n ∧
  read_side n' = match e with
                 | Conflict => read_side n
                 | Ticket _ => (read_current n, u32 (read_ticket n + 1))
                 end ∧ match e with Conflict => True | Ticket t => t = read_ticket n end.
Proof. intros H. sides. Qed.

Lemma read_admit_sides n k h c n' :
  read_admit n k = ((h, c), n') →
  write_side n' = write_side n ∧
  read_side n' = (if c then u32 (read_current n + 1) else read_current n, read_ticket n).
Proof. intros H. sides. Qed.

Lemma read_release_sides n h r v rv n' :
  read_release n (h, false) r v = (rv, n') →
  write_side n' = write_side n ∧ read_side n' = (u32 (read_current n + 1), read_ticket n).
Proof. intros H. sides. Qed.

Lemma write_enter_sides n k v e n' :
  write_enter n k v = (e, n') →
  read_side n' = read_side n ∧
  write_side n' = match e with
                  | Conflict => write_side n
                  | Ticket _ => (write_current n, u32 (write_ticket n + 1))
                  end ∧ match e with Conflict => True | Ticket t => t = write_ticket n end.
Proof. intros H. sides. Qed.

Lemma write_admit_sides n k h c n' :
  write_admit n k = ((h, c), n') →
  read_side n' = read_side n ∧
  write_side n' = (if c then u32 (write_current n + 1) else write_current n, write_ticket n).
Proof. intros H. sides. Qed.

Lemma write_release_sides n h :
  read_side (write_release n (h, false)) = read_side n ∧
  write_side (write_release n (h, false)) = (u32 (write_current n + 1), write_ticket n).
Proof. sides. Qed.

(** The thread's ticket when it is between an acquire and a release. *)
Definition inside_read (x : thread) : option Z := match x with RIn _ _ t => Some t | _ => None end.
Definition inside_write (x : thread) : option Z := match x with WIn _ _ t => Some t | _ => None end.

(** The queue is in line, and whoever is inside has the current ticket. *)
Definition side_ok (f g : thread → option Z) (side : Z * Z) (l : list thread) : Prop :=
  in_line f side.1 side.2 l ∧ (∀ i x t, l !! i = Some x → g x = Some t → t = side.1) ∧
  ∀ i x t, l !! i = Some x → f x = Some t → fits 32 t.

Record lock_inv (s : system) : Prop := {
  inv_threads : Z.of_nat (length (threads s)) < 2 ^ 32;
  inv_read : side_ok read_ticket_of inside_read (read_side (node s)) (threads s);
  inv_write : side_ok write_ticket_of inside_write (write_side (node s)) (threads s) }.

(** A thread's move seen from one side: it stays where it was, joins the
    queue, or leaves it from the front. *)
Definition side_move (f : thread → option Z) (side side' : Z * Z) (x y : thread) : Prop :=
  (f x = f y ∧ side' = side) ∨
  (f x = None ∧ f y = Some side.2 ∧ side' = (side.1, u32 (side.2 + 1))) ∨
  (f x = Some side.1 ∧ f y = None ∧ side' = (u32 (side.1 + 1), side.2)).

Lemma side_move_ok f g side side' l i x y :
  (∀ z t, g z = Some t → f z = Some t) →
  Z.of_nat (length l) < 2 ^ 32 → l !! i = Some x → side_move f side side' x y →
  (∀ t, g y = Some t → t = side'.1) →
  side_ok f g side l → side_ok f g side' (<[i := y]> l).
Proof.
  intros Hgf Hlen Hi Hmv Hy (Hl & Hin & Hfit). pose proof (lookup_lt_Some _ _ _ Hi).
  assert (∀ j z t, i ≠ j → l !! j = Some z → g z = Some t → t = side'.1) as Hrest.
  { intros j z t Hne Hj Hz. pose proof (Hin j z t Hj Hz) as ->.
    destruct Hmv as [[_ ->]|[(_ & _ & ->)|(Hx & _ & ->)]]; [done..|].
    destruct Hne. eapply in_line_unique; [exact Hl|exact Hi|exact Hj|done|by apply Hgf]. }
  split_and!.
  - destruct side as [c tk]. destruct Hmv as [[Hf ->]|[(Hx & Hy' & ->)|(Hx & Hy' & ->)]]; cbn in *.
    + by eapply in_line_same.
    + by eapply in_line_enter.
    + by eapply in_line_leave.
  - intros j z t Hj Hz. apply list_lookup_insert_Some in Hj as [(<- & <- & _)|[Hne Hj]]; eauto.
  - intros j z t Hj Hz. apply list_lookup_insert_Some in Hj as [(<- & <- & _)|[Hne Hj]]; [|eauto].
    destruct Hmv as [[Hf ->]|[(Hx & Hy' & ->)|(Hx & Hy' & ->)]]; [|by simplify_eq; apply Hl|congruence].
    rewrite <- Hf in Hz. eauto.
Qed.

Lemma in_line_init f cur l :
  fits 32 cur → (∀ x, x ∈ l → f x = None) → in_line f cur cur l.
Proof.
  intros Hc Hl. assert (queue f cur l = []) as Hq.
  { unfold queue. induction l as [|x l IH]; [done|]. cbn. rewrite Hl by constructor.
    apply IH. intros y Hy. apply Hl. by constructor. }
  constructor; rewrite ?Hq; [done| |done]. by rewrite Z.sub_diag.
Qed.

Lemma lock_inv_init n m :
  quiescent n → Z.of_nat m < 2 ^ 32 → lock_inv (MkSys n (replicate m Idle)).
Proof.
  intros [Er Ew Hr Hw _ _ _ _ _] Hm.
  assert (∀ f g c, f Idle = None → g Idle = None → fits 32 c → side_ok f g (c, c) (replicate m Idle)) as Hf.
  { intros f g c Ef Eg Hc. split_and!.
    - apply in_line_init; [done|]. intros x Hx. by apply elem_of_replicate in Hx as [-> _].
    - intros i x t Hi Hx. apply lookup_replicate in Hi as [-> _]. congruence.
    - intros i x t Hi Hx. apply lookup_replicate in Hi as [-> _]. congruence. }
  constructor; cbn; unfold read_side, write_side; rewrite ?Er, ?Ew, ?length_replicate; auto.
Qed.

(** Every step is a move on each side. *)
Lemma lock_step_moves s s' :
  lock_inv s → lock_step s s' →
  s' = MkSys (node s') (threads s) ∧ read_side (node s') = read_side (node s) ∧ write_side (node s') = write_side (node s) ∨
  ∃ i x y, threads s !! i = Some x ∧ threads s' = <[i := y]> (threads s) ∧
    side_move read_ticket_of (read_side (node s)) (read_side (node s')) x y ∧
    side_move write_ticket_of (write_side (node s)) (write_side (node s')) x y ∧
    (∀ t, inside_read y = Some t → t = (read_side (node s')).1) ∧
    (∀ t, inside_write y = Some t → t = (write_side (node s')).1).
Proof.
  intros [_ (_ & Hr & _) (_ & Hw & _)] Hs.
  destruct Hs as [s i k t n Hi E|s i k n Hi E|s i k t h n Hi Ht E|s i k t h n Hi Ht E|s i k h t r v rv n Hi E
                 |s i k v t n Hi E|s i k v n Hi E|s i k t h n Hi Ht E|s i k t h n Hi Ht E|s i k h t n Hi E]; cbn [node threads].
  2: { apply read_enter_sides in E as (? & ? & _). by left. }
  6: { apply write_enter_sides in E as (? & ? & _). by left. }
  all: right; eexists i, _, _; split; [exact Hi|]; split; [reflexivity|].
  1: apply read_enter_sides in E as (-> & -> & ->).
  2, 3: apply read_admit_sides in E as (-> & ->).
  4: apply read_release_sides in E as (-> & ->); pose proof (Hr _ _ _ Hi eq_refl).
  5: apply write_enter_sides in E as (-> & -> & ->).
  6, 7: apply write_admit_sides in E as (-> & ->).
  8: destruct (write_release_sides (node s) h) as [E1 E2]; rewrite E in E1, E2; rewrite E1, E2;
     pose proof (Hw _ _ _ Hi eq_refl).
  all: unfold side_move, read_side, write_side in *; cbn in *; subst; split_and!;
    first [by intros; simplify_eq|by left|by right; left|by right; right].
Qed.

Lemma lock_step_inv s s' : lock_inv s → lock_step s s' → lock_inv s'.
Proof.
  intros HI Hs. pose proof HI as [Hlen Hr Hw].
  destruct (lock_step_moves _ _ HI Hs) as [(-> & Er & Ew)|(i & x & y & Hi & Et & Mr & Mw & Gr & Gw)].
  - cbn in *. constructor; cbn; [done|by rewrite Er|by rewrite Ew].
  - constructor; rewrite ?Et, ?length_insert; [done| |].
    + eapply side_move_ok; [|done|done|exact Mr|exact Gr|done]. by intros [].
    + eapply side_move_ok; [|done|done|exact Mw|exact Gw|done]. by intros [].
Qed.

Lemma reachable_inv n m s :
  quiescent n → Z.of_nat m < 2 ^ 32 → rtc lock_step (MkSys n (replicate m Idle)) s → lock_inv s.
Proof.
  intros Hq Hm Hr. apply (rtc_ind_r lock_inv _ (lock_inv_init n m Hq Hm)) in Hr; [done|].
  intros y z _ Hyz Hy. by eapply lock_step_inv.
Qed.

(** The front of a non-empty queue holds the current ticket. *)
Lemma side_front f g side l i x t :
  side_ok f g side l → l !! i = Some x → f x = Some t →
  ∃ j y, l !! j = Some y ∧ f y = Some side.1.
Proof.
  intros ([[Hc _] _ Hq] & _ & Hfit) Hi Hx. remember (queue f side.1 l) as q eqn:Eq.
  assert (0 ∈ q) as H0.
  { assert ((t - side.1) mod 2 ^ 32 ∈ q) as He.
    { subst q. unfold queue. apply list_elem_of_fmap. exists t. split; [done|].
      apply list_elem_of_omap. exists x. split; [by eapply list_elem_of_lookup_2|done]. }
    rewrite Hq in He |- *. apply elem_of_seqZ in He. apply elem_of_seqZ. lia. }
  subst q. unfold queue in H0. apply list_elem_of_fmap in H0 as (t' & Ht' & Hin).
  apply list_elem_of_omap in Hin as (y & Hy & Hfy). apply list_elem_of_lookup in Hy as [j Hj].
  exists j, y. split; [done|]. rewrite Hfy. f_equal. apply (Hfit _ _ _ Hj) in Hfy. unfold fits in *.
  clear -Ht' Hfy Hc. Z.to_euclidean_division_equations. lia.
Qed.

Lemma side_exclusive f g side l i j x y t u :
  (∀ z t, g z = Some t → f z = Some t) → side_ok f g side l →
  l !! i = Some x → l !! j = Some y → g x = Some t → g y = Some u → i = j.
Proof.
  intros Hgf (Hl & Hin & _) Hi Hj Hx Hy. pose proof (Hin _ _ _ Hi Hx) as ->. pose proof (Hin _ _ _ Hj Hy) as ->.
  eapply in_line_unique; eauto.
Qed.

(** ** A batch of combined writes *)

(** [k]'s queue of [j] writers being handed over one after the other. *)
Record draining (k : Key) (j : nat) (n : LocalLockNode) : Prop := {
  d_read : read_ticket n = read_current n;
  d_read_fits : fits 32 (read_current n);
  d_write_fits : fits 32 (write_current n);
  d_ticket : write_ticket n = u32 (write_current n + Z.of_nat j);
  d_handover : write_handover n = true;
  d_read_window : read_window n = 0;
  d_write_window : write_window n = Z.of_nat j;
  d_window_start : window_start n = true;
  d_read_key : unique_read_key n = None;
  d_write_key : unique_write_key n = Some k }.

(** The writers that arrive, in order, each leaving its value. *)
Fixpoint write_enters (n : LocalLockNode) (k : Key) (vs : list Value) : list entry * LocalLockNode :=
  match vs with
  | [] => ([], n)
  | v :: vs => let '(e, n) := write_enter n k v in let '(es, n) := write_enters n k vs in (e :: es, n)
  end.

(** The writers that are admitted one after the other, and released at once. *)
Fixpoint write_drain (n : LocalLockNode) (k : Key) (j : nat) : list (bool * bool) * LocalLockNode :=
  match j with
  | O => ([], n)
  | S j => let '(a, n) := write_admit n k in
           let '(rest, n) := write_drain (write_release n a) k j in (a :: rest, n)
  end.

Lemma draining_step k j n :
  Z.of_nat j + 1 < 2 ^ 32 → draining k (S j) n →
  write_admit n k = ((true, false), n) ∧
  match j with O => quiescent (write_release n (true, false)) | S _ => draining k j (write_release n (true, false)) end.
Proof.
  intros Hj [Er Hr Hw Ht Hh Hrw Hww Hws Hrk Hwk]. unfold write_admit. rewrite Hwk, key_eqb_refl, Hww. cbn -[Z.of_nat].
  destruct (Z.eqb_spec (Z.of_nat (S j)) 0) as [|_]; [lia|]. rewrite Hh. split; [done|].
  unfold write_release, next_write, leave_write_window; cbn -[Z.of_nat]. rewrite ?Hh; cbn -[Z.of_nat].
  rewrite Hww, Hrw, Ht; cbn -[Z.of_nat]. destruct (Z.eqb_spec (Z.of_nat (S j)) 0) as [|_]; [lia|].
  destruct j as [|j].
  - rewrite Z.eqb_refl. constructor; cbn; auto with mach.
  - destruct (Z.eqb_spec (u32 (write_current n + Z.of_nat (S (S j)))) (u32 (write_current n + 1))) as [E|_].
    { exfalso. unfold wrap in E. clear -E Hj. Z.to_euclidean_division_equations. lia. }
    constructor; cbn -[Z.of_nat]; auto with mach; try lia.
    + unfold wrap. rewrite Z.add_mod_idemp_l by lia. f_equal. lia.
    + destruct (Z.eqb_spec (Z.of_nat (S (S j)) - 1) 0); [lia|done].
Qed.

(** [k]'s queue of [j] writers before the first one is done; [v] came last. *)
Record collecting (k : Key) (j : nat) (v : Value) (n : LocalLockNode) : Prop := {
  c_read : read_ticket n = read_current n;
  c_read_fits : fits 32 (read_current n);
  c_write_fits : fits 32 (write_current n);
  c_ticket : write_ticket n = u32 (write_current n + Z.of_nat j);
  c_read_window : read_window n = 0;
  c_write_window : write_window n = 0;
  c_window_start : window_start n = false;
  c_read_key : unique_read_key n = None;
  c_write_key : unique_write_key n = Some k;
  c_buffer : wc_buffer n = v }.

Lemma collecting_first k v n :
  quiescent n → ∃ n', write_enter n k v = (Ticket (write_current n), n') ∧
    write_current n' = write_current n ∧ collecting k 1 v n'.
Proof.
  intros [Er Ew Hr Hw Hrw Hww Hws Hrk Hwk]. unfold write_enter. rewrite Hwk; cbn. rewrite Ew.
  eexists. split; [reflexivity|]. split; [done|]. by constructor.
Qed.

Lemma collecting_enter k j v v' n :
  collecting k j v n → ∃ n', write_enter n k v' = (Ticket (write_ticket n), n') ∧
    write_current n' = write_current n ∧ write_handover n' = write_handover n ∧ collecting k (S j) v' n'.
Proof.
  intros [Er Hr Hw Ht Hrw Hww Hws Hrk Hwk Hb]. unfold write_enter. rewrite Hwk, key_eqb_refl; cbn -[Z.of_nat].
  eexists. split; [reflexivity|]. split; [done|]. split; [done|]. constructor; cbn -[Z.of_nat]; try done.
  rewrite Ht. unfold wrap. rewrite Z.add_mod_idemp_l by lia. f_equal. lia.
Qed.

Lemma last_cons_default {A} (l : list A) : ∀ x d, List.last (x :: l) d = List.last l x.
Proof. induction l as [|y l IH]; intros x d; [done|]. change (List.last (y :: l) d = List.last (y :: l) x). by rewrite !IH. Qed.

Lemma collecting_enters k vs : ∀ j v n,
  collecting k j v n → ∃ n', write_enters n k vs =
    ((λ d, Ticket (u32 (write_current n + d))) <$> seqZ (Z.of_nat j) (Z.of_nat (length vs)), n') ∧
    write_current n' = write_current n ∧ collecting k (j + length vs) (List.last vs v) n'.
Proof.
  induction vs as [|v' vs IH]; intros j v n Hc; cbn [write_enters].
  - exists n. by rewrite Nat.add_0_r.
  - destruct (collecting_enter _ _ _ v' _ Hc) as (n1 & -> & E1 & _ & H1).
    destruct (IH _ _ _ H1) as (n2 & -> & E2 & H2). exists n2. split_and!.
    + f_equal. cbn [length]. rewrite (Nat2Z.inj_succ (length vs)), (seqZ_cons (Z.of_nat j)) by lia. rewrite Z.pred_succ. cbn [fmap list_fmap].
      rewrite (c_ticket _ _ _ _ Hc), E1. by rewrite Nat2Z.inj_succ.
    + by rewrite E2, E1.
    + cbn [length]. replace (j + S (length vs))%nat with (S j + length vs)%nat by lia.
      by rewrite last_cons_default.
Qed.

(** The first writer is admitted to do the remote write, with the last value that arrived. *)
Lemma collecting_admit k j v n :
  collecting k j v n → ∃ n', write_admit n k = ((false, false), n') ∧
    write_handover n' = false ∧ collecting k j v n' ∧ ∀ v', (get_combining_value n' k v').2 = v.
Proof.
  intros [Er Hr Hw Ht Hrw Hww Hws Hrk Hwk Hb]. unfold write_admit. rewrite Hwk, key_eqb_refl, Hww; cbn -[Z.of_nat].
  eexists. split; [reflexivity|]. split; [done|]. split; [by constructor|].
  intros v'. unfold get_combining_value; cbn. by rewrite ?Hwk, key_eqb_refl.
Qed.

Lemma collecting_release k j v n :
  Z.of_nat j + 1 < 2 ^ 32 → write_handover n = false → collecting k (S j) v n →
  match j with O => quiescent (write_release n (false, false)) | S _ => draining k j (write_release n (false, false)) end.
Proof.
  intros Hj Hh [Er Hr Hw Ht Hrw Hww Hws Hrk Hwk Hb].
  assert (waiting (write_ticket n) (write_current n) = Z.of_nat (S j)) as Ewait.
  { rewrite Ht. unfold waiting, wrap, fits in *. clear -Hj Hw. Z.to_euclidean_division_equations. lia. }
  unfold write_release, next_write, leave_write_window; cbn -[Z.of_nat waiting]. rewrite Hh, Hws; cbn -[Z.of_nat waiting].
  rewrite Ewait, Er, waiting_self, Ht. destruct (Z.eqb_spec (Z.of_nat (S j)) 0) as [|_]; [lia|].
  destruct j as [|j].
  - rewrite Z.eqb_refl. constructor; cbn; auto with mach.
  - destruct (Z.eqb_spec (u32 (write_current n + Z.of_nat (S (S j)))) (u32 (write_current n + 1))) as [E|_].
    { exfalso. unfold wrap in E. clear -E Hj. Z.to_euclidean_division_equations. lia. }
    constructor; cbn -[Z.of_nat]; auto with mach; try lia.
    + unfold wrap. rewrite Z.add_mod_idemp_l by lia. f_equal. lia.
    + destruct (Z.eqb_spec (Z.of_nat (S (S j)) - 1) 0); [lia|done].
Qed.

Lemma draining_drain k j : ∀ n,
  Z.of_nat j + 1 < 2 ^ 32 → draining k (S j) n →
  ∃ n', write_drain n k (S j) = (replicate (S j) (true, false), n') ∧ quiescent n'.
Proof.
  induction j as [|j IH]; intros n Hj Hd.
  - destruct (draining_step _ _ _ Hj Hd) as [E Hq]. cbn [write_drain]. rewrite E. eauto.
  - destruct (draining_step _ _ _ Hj Hd) as [E Hq]. destruct (IH _ ltac:(lia) Hq) as (n' & E' & Hq').
    exists n'. split; [|done]. change (write_drain n k (S (S j))) with
      (let '(a, n0) := write_admit n k in let '(rest, n1) := write_drain (write_release n0 a) k (S j) in (a :: rest, n1)).
    by rewrite E, E'.
Qed.

(** C22: read delegation and write combining admit one thread at a time.
    Whatever threads (fewer than [2^32]) do on a lock that starts unused, with
    tickets that wrap around at 32 bits, no two are ever inside the write part,
    no two are inside the read part, and while anyone queues on a side someone
    there holds the ticket being served. *)
Theorem local_lock_exclusive n m s :
  quiescent n → Z.of_nat m < 2 ^ 32 → rtc lock_step (MkSys n (replicate m Idle)) s →
  (∀ i j x y t u, threads s !! i = Some x → threads s !! j = Some y →
     inside_write x = Some t → inside_write y = Some u → i = j) ∧
  (∀ i j x y t u, threads s !! i = Some x → threads s !! j = Some y →
     inside_read x = Some t → inside_read y = Some u → i = j) ∧
  (∀ i x t, threads s !! i = Some x → write_ticket_of x = Some t →
     ∃ j y, threads s !! j = Some y ∧ write_ticket_of y = Some (write_current (node s))) ∧
  (∀ i x t, threads s !! i = Some x → read_ticket_of x = Some t →
     ∃ j y, threads s !! j = Some y ∧ read_ticket_of y = Some (read_current (node s))).
Proof.
  intros Hq Hm Hr. apply reachable_inv in Hr as [_ HR HW]; [|done..]. split_and!; intros.
  - eapply side_exclusive; [|exact HW|..]; try done. by intros [].
  - eapply side_exclusive; [|exact HR|..]; try done. by intros [].
  - by apply (side_front _ _ _ _ _ _ _ HW H H0).
  - by apply (side_front _ _ _ _ _ _ _ HR H H0).
Qed.

(** Write combining does one remote write for a whole batch, with the last
    value: when several writers of one key queue up before the first is done,
    the first is the only one told to write, [get_combining_value] gives it the
    value that arrived last, all others are handed over, and the lock ends
    unused. *)
Theorem write_combining_batch n k v vs :
  quiescent n → Z.of_nat (length vs) + 1 < 2 ^ 32 →
  ∃ n1 n2 n3,
    write_enters n k (v :: vs) =
      ((λ d, Ticket (u32 (write_current n + d))) <$> seqZ 0 (1 + Z.of_nat (length vs)), n1) ∧
    write_admit n1 k = ((false, false), n2) ∧ (get_combining_value n2 k v).2 = List.last vs v ∧
    write_drain (write_release n2 (false, false)) k (length vs) = (replicate (length vs) (true, false), n3) ∧
    quiescent n3.
Proof.
  intros Hq Hl. destruct (collecting_first k v n Hq) as (m1 & E1 & C1 & H1).
  destruct (collecting_enters _ vs _ _ _ H1) as (n1 & E2 & C2 & H2).
  destruct (collecting_admit _ _ _ _ H2) as (n2 & E3 & Hh & H3 & Hv).
  pose proof (collecting_release k (length vs) _ n2 Hl Hh H3) as H4.
  assert (∃ n3, write_drain (write_release n2 (false, false)) k (length vs) =
            (replicate (length vs) (true, false), n3) ∧ quiescent n3) as (n3 & E4 & Hq3).
  { destruct (length vs) as [|j]; [eauto|]. apply draining_drain; [lia|done]. }
  exists n1, n2, n3. split_and!; try done. cbn [write_enters]. rewrite E1, E2, C1. f_equal.
  rewrite Z.add_1_l, (seqZ_cons 0), Z.pred_succ by lia. cbn [fmap list_fmap]. rewrite Z.add_0_r.
  f_equal. f_equal. destruct Hq. unfold wrap. by rewrite Z.mod_small.
Qed.

(** C35: the value of a writer that arrives after the winner fetched the
    combined value, but before the winner releases, is lost: that writer is
    handed over as well, so it returns without a remote write, although the
    winner wrote the earlier value. *)
Theorem write_combining_lost_update n k v1 v2 :
  quiescent n →
  ∃ n1 n2 n3 n4, write_enter n k v1 = (Ticket (write_current n), n1) ∧
    write_admit n1 k = ((false, false), n2) ∧ (get_combining_value n2 k v1).2 = v1 ∧
    write_enter n2 k v2 = (Ticket (u32 (write_current n + 1)), n3) ∧
    write_admit (write_release n3 (false, false)) k = ((true, false), n4) ∧
    quiescent (write_release n4 (true, false)).
Proof.
  intros Hq. destruct (collecting_first k v1 n Hq) as (n1 & E1 & C1 & H1).
  destruct (collecting_admit _ _ _ _ H1) as (n2 & E2 & Hh & H2 & Hv).
  destruct (collecting_enter _ _ _ v2 _ H2) as (n3 & E3 & _ & Hh3 & H3). rewrite Hh in Hh3.
  pose proof (collecting_release k 1 _ n3 eq_refl Hh3 H3) as H4. cbn in H4.
  destruct (draining_step k 0 _ eq_refl H4) as [E5 H5].
  assert (write_current n2 = write_current n1) as C2 by (apply write_admit_sides in E2; unfold write_side in E2; naive_solver).
  exists n1, n2, n3, (write_release n3 (false, false)). split_and!; try done.
  rewrite E3. by rewrite (c_ticket _ _ _ _ H2), C2, C1.
Qed.

(** Two writers and a reader of one key. *)
Definition sample_lock : LocalLockNode := new_node false 0 0.
Definition sample_lock_sys : system :=
  MkSys (write_enter (write_enter sample_lock KeyMax 1).2 KeyMax 2).2 [WWait KeyMax 0; WWait KeyMax 1; Idle].

Lemma sample_lock_run : rtc lock_step (MkSys sample_lock (replicate 3 Idle)) sample_lock_sys.
Proof.
  eapply rtc_l; [by apply (s_write_enter _ 0 KeyMax 1 0 (write_enter sample_lock KeyMax 1).2)|].
  eapply rtc_l; [by apply (s_write_enter _ 1 KeyMax 2 1 (write_enter (write_enter sample_lock KeyMax 1).2 KeyMax 2).2)|].
  apply rtc_refl.
Qed.

Lemma local_lock_exclusive_witness :
  ∃ j y, threads sample_lock_sys !! j = Some y ∧ write_ticket_of y = Some (write_current (node sample_lock_sys)).
Proof.
  pose proof (local_lock_exclusive sample_lock 3 sample_lock_sys (new_node_quiescent _ _ _) eq_refl sample_lock_run)
    as (_ & _ & H & _).
  exact (H 1%nat (WWait KeyMax 1) 1 eq_refl eq_refl).
Defined.

Lemma write_combining_batch_witness :
  ∃ n1 n2, write_enters sample_lock KeyMax [5; 6; 7] = ([Ticket 0; Ticket 1; Ticket 2], n1) ∧
    write_admit n1 KeyMax = ((false, false), n2) ∧ (get_combining_value n2 KeyMax 5).2 = 7.
Proof.
  destruct (write_combining_batch sample_lock KeyMax 5 [6; 7] (new_node_quiescent _ _ _) eq_refl)
    as (n1 & n2 & n3 & H1 & H2 & H3 & _). exists n1, n2. split; [exact H1|]. split; [exact H2|exact H3].
Defined.

Lemma write_combining_lost_update_witness :
  ∃ n3 n4, write_admit (write_release n3 (false, false)) KeyMax = ((true, false), n4) ∧ quiescent (write_release n4 (true, false)).
Proof.
  destruct (write_combining_lost_update sample_lock KeyMax 5 6 (new_node_quiescent _ _ _))
    as (n1 & n2 & n3 & n4 & _ & _ & _ & _ & H & H'). by exists n3, n4.
Defined.
