(* ===== verification/RandomGen.v ===== *)
(** * The random numbers behind the heights of the skip list

    [include/third_party/random.h]: the generator [Random], whose state is its
    32-bit seed.  [Next] computes a product modulo 2^31 - 1 with shifts and
    masks; [random_sequence] gives the numbers it produces. *)
From S2P Require Import Prelude.

Module Random.

Definition M : Z := 2147483647.
Definition A : Z := 16807.
Definition kMaxNext : Z := M.

Definition GoodSeed (s : Z) : Z := if negb (Z.land s M =? 0) then Z.land s M else 1.

(** The new seed, which is also the value returned. *)
Definition Next (seed_ : Z) : Z :=
  let product := u64 (seed_ * A) in
  let seed_ := u32 (Z.shiftr product 31 + Z.land product M) in
  if M <? seed_ then seed_ - M else seed_.

Definition Uniform (seed_ n : Z) : Z * Z := let r := Next seed_ in (r mod u32 n, r).

Definition OneIn (seed_ n : Z) : bool * Z := let '(u, r) := Uniform seed_ n in (u =? 0, r).

Definition OneInOpt (seed_ n : Z) : bool * Z := if 0 <? n then OneIn seed_ n else (false, seed_).

Definition PercentTrue (seed_ percentage : Z) : bool * Z :=
  let '(u, r) := Uniform seed_ 100 in (u <? percentage, r).

Definition Skewed (seed_ max_log : Z) : Z * Z :=
  let '(u, r) := Uniform seed_ (max_log + 1) in Uniform r (Z.shiftl 1 u).

End Random.

Section Random.
Import Random.

(** The seed after [n] calls of [Next]. *)
Fixpoint after (n : nat) (s : Z) : Z := match n with O => s | S n => Next (after n s) end.

Lemma fold_mod x : 0 ≤ x < 2 ^ 46 → Z.shiftr x 31 + Z.land x M = x - (x / 2 ^ 31) * M.
Proof.
  intros Hx. rewrite Z.shiftr_div_pow2 by lia.
  replace (Z.land x M) with (x mod 2 ^ 31) by (rewrite <- Z.land_ones by lia; done).
  pose proof (Z.div_mod x (2 ^ 31)). unfold M. lia.
Qed.

(** One step of the generator. *)
Lemma Next_step s : 1 ≤ s ≤ M → Next s = if s =? M then M else (s * A) mod M.
Proof.
  intros Hs. unfold Next. assert (0 ≤ s * A < 2 ^ 46) as Hp by (unfold M, A in *; lia).
  rewrite (wrap_small 64) by (unfold fits; lia). rewrite fold_mod by done.
  set (x := s * A) in *. pose proof (Z.div_mod x (2 ^ 31) ltac:(lia)) as Hdm.
  pose proof (Z.mod_pos_bound x (2 ^ 31) ltac:(lia)) as Hr. set (q := x / 2 ^ 31) in *. set (r := x mod 2 ^ 31) in *.
  assert (0 ≤ q < 2 ^ 15) as Hq by lia.
  assert (x - q * M = q + r) as E by (unfold M; lia). rewrite E.
  rewrite (wrap_small 32) by (unfold fits; lia).
  destruct (Z.eqb_spec s M) as [->|Hne].
  { assert (q = A - 1 ∧ r = 2 ^ 31 - A) as [-> ->] by (unfold x, M, A in *; lia). done. }
  assert (x mod M ≠ 0) as Hx.
  { intros Hz. apply Z.mod_divide in Hz; [|done]. unfold x in Hz. rewrite Z.mul_comm in Hz.
    apply Z.gauss in Hz; [|vm_compute; reflexivity]. apply Z.divide_pos_le in Hz; lia. }
  rewrite <- E. pose proof (Z.mod_pos_bound x M ltac:(done)). pose proof (Z.div_mod x M ltac:(done)) as Hm.
  destruct (Z.ltb_spec M (x - q * M)).
  - apply (Z.mod_unique_pos _ _ (q + 1)); [unfold M in *; lia|lia].
  - assert (x - q * M ≠ M) as Hn.
    { intros Hn. apply Hx. replace x with ((q + 1) * M) by lia. apply Z.mod_mul. done. }
    apply (Z.mod_unique_pos _ _ q); [unfold M in *; lia|lia].
Qed.

Lemma Next_range s : 1 ≤ s < M → 1 ≤ (s * A) mod M < M.
Proof.
  intros Hs. pose proof (Z.mod_pos_bound (s * A) M ltac:(done)).
  assert ((s * A) mod M ≠ 0); [|lia]. intros Hz. apply Z.mod_divide in Hz; [|done]. rewrite Z.mul_comm in Hz.
  apply Z.gauss in Hz; [|vm_compute; reflexivity]. apply Z.divide_pos_le in Hz; lia.
Qed.

Lemma GoodSeed_range s : 1 ≤ GoodSeed s ≤ M.
Proof.
  unfold GoodSeed. assert (Z.land s M = s mod 2 ^ 31) as E by (rewrite <- Z.land_ones by lia; done).
  pose proof (Z.mod_pos_bound s (2 ^ 31) ltac:(lia)). rewrite E.
  destruct (Z.eqb_spec (s mod 2 ^ 31) 0); cbn [negb]; unfold M; lia.
Qed.

End Random.

(** The shift-and-add arithmetic of [Next] computes the multiplicative
    generator its comment names.  From a seed given to the constructor, the
    [n]-th number is the seed times 16807^n modulo 2^31 - 1 and lies between 1
    and 2^31 - 2, except when the low 31 bits of the seed are all ones: that
    seed passes [GoodSeed], and then every number is 2^31 - 1. *)
Theorem random_sequence s n :
  if Z.land s Random.M =? Random.M then after n (Random.GoodSeed s) = Random.M
  else after n (Random.GoodSeed s) = (Random.GoodSeed s * Random.A ^ Z.of_nat n) mod Random.M ∧
       1 ≤ after n (Random.GoodSeed s) < Random.M.
Proof.
  pose proof (GoodSeed_range s) as Hs.
  destruct (Z.eqb_spec (Z.land s Random.M) Random.M) as [E|E].
  - assert (Random.GoodSeed s = Random.M) as -> by (unfold Random.GoodSeed; by rewrite E).
    induction n as [|n IH]; [done|]. cbn [after]. rewrite IH. by rewrite Next_step by done.
  - assert (Random.GoodSeed s ≠ Random.M) as Hne by (unfold Random.GoodSeed; case_match; done).
    induction n as [|n [IH Hr]].
    + cbn [after]. rewrite Z.mul_1_r, Z.mod_small by lia. lia.
    + cbn [after]. rewrite Next_step by lia.
      rewrite (proj2 (Z.eqb_neq _ _)) by lia. split; [|by apply Next_range].
      rewrite IH, Z.mul_mod_idemp_l, Nat2Z.inj_succ, Z.pow_succ_r by (done || lia). f_equal. ring.
Qed.
