(* ===== verification/InlineSkipList.v ===== *)
(** * The inline skip list of the inner-node cache

    [include/third_party/inlineskiplist.h].  A node is named by its index in a heap
    that only grows (nodes are never freed), the head is node 0, and
    [Next(level)] outside the pointers a node was allocated with is an
    [OutOfBounds] error.  Every [while (true)] loop of the source is a [loop]
    around its body, and each body makes one access to shared memory: the same
    bodies run to the end for a caller on its own, and one at a time for
    threads that interleave ([step]).  [RandomHeight] is the choice of a height
    in [1, kMaxHeight_], which [RandomHeight_bounds] shows. *)
From S2P Require Import Prelude RandomGen.

(** ** Loops *)

(** [while (true)] around a body that continues with [inl] and returns with
    [inr]. *)
Fixpoint loop {S R} (body : S → result (S + R)) (fuel : nat) (s : S) : result R :=
  match fuel with
  | O => Err OutOfFuel
  | S fuel => body s ≫= λ o, match o with inl s => loop body fuel s | inr r => Ok r end
  end.

(** A loop whose body keeps an invariant and lowers a measure returns. *)
Lemma loop_total {S R} (body : S → result (S + R)) (I : S → Prop) (m : S → nat) (Q : R → Prop) :
  (∀ s, I s → ∃ o, body s = Ok o ∧
    match o with inl s' => I s' ∧ (m s' < m s)%nat | inr r => Q r end) →
  ∀ fuel s, I s → (m s < fuel)%nat → ∃ r, loop body fuel s = Ok r ∧ Q r.
Proof.
  intros Hb. induction fuel as [|fuel IH]; intros s Hs Hf; [lia|]. cbn.
  destruct (Hb s Hs) as (o & -> & Ho). cbn. destruct o as [s'|r]; [|eauto].
  destruct Ho. apply IH; [done|lia].
Qed.

(** ** The list *)

(** The comparator of the template, three-way over a total preorder. *)
Class Comparator (K : Type) := {
  compare : K → K → Z;
  rank : K → Z;
  compare_rank a b : Z.sgn (compare a b) = Z.sgn (rank a - rank b) }.

Module InlineSkipList.

Definition kMaxPossibleHeight : nat := 32.

(** [Node*]: null or the index of a node. *)
Definition ptr : Type := option nat.

Section list.
Context {K : Type} `{!Comparator K}.

(** [Node]: its key, none for the head, and the pointers [next_]; their number
    is the height that [StashHeight] leaves for [Insert]. *)
Record Node := MkNode { node_key : option K; next_ : list ptr }.

Record t := Mk { kMaxHeight_ : nat; kBranching_ : Z; heap : list Node; max_height_ : nat }.

Definition head_ : nat := 0.

Definition set_heap (s : t) (h : list Node) : t := Mk (kMaxHeight_ s) (kBranching_ s) h (max_height_ s).

Definition set_max (s : t) (m : nat) : t := Mk (kMaxHeight_ s) (kBranching_ s) (heap s) m.

Definition Key (s : t) (n : nat) : result K :=
  at_index (heap s) n ≫= λ nd, match node_key nd with Some k => Ok k | None => Err OutOfBounds end.

Definition Next (s : t) (n level : nat) : result ptr :=
  at_index (heap s) n ≫= λ nd, at_index (next_ nd) level.

Definition SetNext (s : t) (n level : nat) (x : ptr) : result t :=
  at_index (heap s) n ≫= λ nd, at_index (next_ nd) level ≫= λ _,
  Ok (set_heap s (<[n := MkNode (node_key nd) (<[level := x]> (next_ nd))]> (heap s))).

Definition CASNext (s : t) (n level : nat) (expected x : ptr) : result (bool * t) :=
  Next s n level ≫= λ cur,
  if decide (cur = expected) then SetNext s n level x ≫= λ s, Ok (true, s) else Ok (false, s).

Definition UnstashHeight (s : t) (n : nat) : result nat :=
  at_index (heap s) n ≫= λ nd, Ok (length (next_ nd)).

(** [kScaledInverseBranching_]: the share of the generator's range that raises
    a height. *)
Definition kScaledInverseBranching_ (branching : Z) : Z := (Random.kMaxNext + 1) / branching.

(** The constructor: a head of [max_height] null pointers. *)
Definition make (max_height branching_factor : Z) : result t :=
  require ((0 <? max_height) && (u16 max_height =? max_height)) ≫= λ _,
  require ((1 <? branching_factor) && (u16 branching_factor =? branching_factor)) ≫= λ _,
  require (0 <? kScaledInverseBranching_ branching_factor) ≫= λ _,
  Ok (Mk (Z.to_nat max_height) branching_factor
        [MkNode None (replicate (Z.to_nat max_height) None)] 1).

(** The loop of [RandomHeight], over the height and the seed of the thread's
    generator. *)
Definition height_body (s : t) : nat * Z → result (nat * Z + nat * Z) := λ '(height, seed),
  if (height <? kMaxHeight_ s)%nat && (height <? kMaxPossibleHeight)%nat then
    let seed := Random.Next seed in
    if seed <? kScaledInverseBranching_ (kBranching_ s) then Ok (inl (S height, seed))
    else Ok (inr (height, seed))
  else Ok (inr (height, seed)).

Definition RandomHeight (s : t) (seed : Z) : result (nat * Z) :=
  loop (height_body s) (S (kMaxHeight_ s)) (1%nat, seed) ≫= λ '(height, seed),
  require ((0 <? height)%nat && (height <=? kMaxHeight_ s)%nat && (height <=? kMaxPossibleHeight)%nat) ≫= λ _,
  Ok (height, seed).

(** [AllocateKey(size, height, free_raw)] and the caller's writing of the key:
    a buffer left by a refused insert is used again, at its height. *)
Definition AllocateKey (s : t) (free_raw : ptr) (random_height : nat) (k : K) : result (nat * t) :=
  match free_raw with
  | None => Ok (length (heap s), set_heap s (heap s ++ [MkNode (Some k) (replicate random_height None)]))
  | Some x => at_index (heap s) x ≫= λ nd,
      Ok (x, set_heap s (<[x := MkNode (Some k) (next_ nd)]> (heap s)))
  end.

(** ** Contents

    The nodes a level links, read from the head; the list never holds more
    nodes than the heap. *)
Fixpoint walk (s : t) (level fuel : nat) (p : ptr) : list nat :=
  match fuel, p with
  | S fuel, Some n => n :: walk s level fuel (match Next s n level with Ok q => q | Err _ => None end)
  | _, _ => []
  end.

Definition level_nodes (s : t) (level : nat) : list nat :=
  walk s level (length (heap s)) (match Next s head_ level with Ok q => q | Err _ => None end).

Definition contents (s : t) : list K := omap (λ n, heap s !! n ≫= node_key) (level_nodes s 0).

(** What the list implements: a sorted list of keys, with the first key not
    before a target and an insert that refuses a key it has. *)
Definition sorted_seek (l : list K) (k : K) : option K :=
  first_index (λ y, 0 <=? compare y k) l ≫= λ j, l !! j.

Fixpoint sorted_insert (l : list K) (k : K) : bool * list K :=
  match l with
  | [] => (true, [k])
  | y :: l =>
      if compare y k <? 0 then let '(b, l) := sorted_insert l k in (b, y :: l)
      else if compare y k =? 0 then (false, y :: l) else (true, k :: y :: l)
  end.

(** ** Searches *)

Definition KeyIsAfterNode (s : t) (key : K) (n : ptr) : result bool :=
  require (negb (bool_decide (n = Some head_))) ≫= λ _,
  match n with
  | None => Ok false
  | Some m => Key s m ≫= λ k, Ok (compare k key <? 0)
  end.

(** The body of [FindGreaterOrEqual], over [x], [level] and [last_bigger]. *)
Definition find_body (s : t) (key : K) : nat * nat * ptr → result (nat * nat * ptr + ptr) :=
  λ '(x, level, last_bigger),
  Next s x level ≫= λ next,
  match next with
  | None => Ok 1
  | Some m => if decide (next = last_bigger) then Ok 1
              else Key s m ≫= λ k, Ok (compare k key)
  end ≫= λ cmp,
  if (cmp =? 0) || ((0 <? cmp) && (level =? 0)%nat) then Ok (inr next)
  else if cmp <? 0 then
    match next with Some m => Ok (inl (m, level, last_bigger)) | None => Err OutOfBounds end
  else Ok (inl (x, (level - 1)%nat, next)).

Definition FindGreaterOrEqual (s : t) (fuel : nat) (key : K) : result ptr :=
  loop (find_body s key) fuel (head_, (max_height_ s - 1)%nat, None).

(** The body of [FindLessThan], over [x], [level], [last_not_after] and the
    array [prev] when the caller gives one. *)
Definition less_body (s : t) (key : K) (bottom_level : nat) :
    nat * nat * ptr * option (list ptr) →
    result (nat * nat * ptr * option (list ptr) + nat * option (list ptr)) :=
  λ '(x, level, last_not_after, prev),
  Next s x level ≫= λ next,
  (if decide (next = last_not_after) then Ok false else KeyIsAfterNode s key next) ≫= λ after,
  match after, next with
  | true, Some m => Ok (inl (m, level, last_not_after, prev))
  | true, None => Err AssertionFailure
  | false, _ =>
      match prev with
      | None => Ok None
      | Some a => at_index a level ≫= λ _, Ok (Some (<[level := Some x]> a))
      end ≫= λ prev,
      if (level =? bottom_level)%nat then Ok (inr (x, prev))
      else Ok (inl (x, (level - 1)%nat, next, prev))
  end.

Definition FindLessThan_from (s : t) (fuel : nat) (key : K) (prev : option (list ptr))
    (root top_level bottom_level : nat) : result (nat * option (list ptr)) :=
  require (bottom_level <? top_level)%nat ≫= λ _,
  loop (less_body s key bottom_level) fuel (root, (top_level - 1)%nat, None, prev).

Definition FindLessThan (s : t) (fuel : nat) (key : K) : result nat :=
  FindLessThan_from s fuel key None head_ (max_height_ s) 0 ≫= λ '(x, _), Ok x.

Definition last_body (s : t) : nat * nat → result (nat * nat + nat) := λ '(x, level),
  Next s x level ≫= λ next,
  match next with
  | None => if (level =? 0)%nat then Ok (inr x) else Ok (inl (x, (level - 1)%nat))
  | Some m => Ok (inl (m, level))
  end.

Definition FindLast (s : t) (fuel : nat) : result nat :=
  loop (last_body s) fuel (head_, (max_height_ s - 1)%nat).

Definition count_body (s : t) (key : K) : nat * nat * Z → result (nat * nat * Z + Z) :=
  λ '(x, level, count),
  Next s x level ≫= λ next,
  match next with
  | None => Ok true
  | Some m => Key s m ≫= λ k, Ok (0 <=? compare k key)
  end ≫= λ stop,
  match stop, next with
  | true, _ => if (level =? 0)%nat then Ok (inr count)
               else Ok (inl (x, (level - 1)%nat, u64 (count * kBranching_ s)))
  | false, Some m => Ok (inl (m, level, u64 (count + 1)))
  | false, None => Err OutOfBounds
  end.

Definition EstimateCount (s : t) (fuel : nat) (key : K) : result Z :=
  loop (count_body s key) fuel (head_, (max_height_ s - 1)%nat, 0).

Definition Contains (s : t) (fuel : nat) (key : K) : result bool :=
  FindGreaterOrEqual s fuel key ≫= λ x,
  match x with
  | None => Ok false
  | Some m => Key s m ≫= λ k, Ok (compare key k =? 0)
  end.

(** ** [Iterator]: its node, null when it is not valid *)

Definition Valid (node_ : ptr) : bool := match node_ with Some _ => true | None => false end.

Definition Iterator_key (s : t) (node_ : ptr) : result K :=
  match node_ with Some n => Key s n | None => Err AssertionFailure end.

Definition Iterator_Next (s : t) (node_ : ptr) : result ptr :=
  match node_ with Some n => Next s n 0 | None => Err AssertionFailure end.

Definition not_head (n : nat) : ptr := if (n =? head_)%nat then None else Some n.

Definition Prev (s : t) (fuel : nat) (node_ : ptr) : result ptr :=
  Iterator_key s node_ ≫= λ k, FindLessThan s fuel k ≫= λ n, Ok (not_head n).

Definition Seek (s : t) (fuel : nat) (target : K) : result ptr := FindGreaterOrEqual s fuel target.

Definition SeekToFirst (s : t) : result ptr := Next s head_ 0.

Definition SeekToLast (s : t) (fuel : nat) : result ptr :=
  FindLast s fuel ≫= λ n, Ok (not_head n).

(** The body of the loop of [SeekForPrev]. *)
Definition prev_body (s : t) (fuel : nat) (target : K) (node_ : ptr) : result (ptr + ptr) :=
  match node_ with
  | None => Ok (inr None)
  | Some m => Key s m ≫= λ k,
      if compare target k <? 0 then Prev s fuel node_ ≫= λ n, Ok (inl n) else Ok (inr node_)
  end.

Definition SeekForPrev (s : t) (fuel : nat) (target : K) : result ptr :=
  Seek s fuel target ≫= λ n,
  (if Valid n then Ok n else SeekToLast s fuel) ≫= λ n, loop (prev_body s fuel target) fuel n.

(** ** [InsertConcurrently] *)

(** [Splice]: the nodes before and after the key at each level. *)
Record Splice := MkSplice { height_ : nat; prev_ : list ptr; splice_next_ : list ptr }.

(** The splice on the stack of [InsertConcurrently], its arrays not yet
    written. *)
Definition fresh_splice : Splice :=
  MkSplice 0 (replicate kMaxPossibleHeight None) (replicate kMaxPossibleHeight None).

(** [splice->prev_[i] = p; splice->next_[i] = n]. *)
Definition set_splice (sp : Splice) (i : nat) (p n : ptr) : result Splice :=
  at_index (prev_ sp) i ≫= λ _, at_index (splice_next_ sp) i ≫= λ _,
  Ok (MkSplice (height_ sp) (<[i := p]> (prev_ sp)) (<[i := n]> (splice_next_ sp))).

(** The body of [FindSpliceForLevel]: [inr] is the pair it stores. *)
Definition splice_body (s : t) (key : K) (level : nat) (after : ptr) (before : nat) :
    result (nat + nat * ptr) :=
  Next s before level ≫= λ next,
  (if decide (next = after) then Ok false else KeyIsAfterNode s key next) ≫= λ more,
  match more, next with
  | true, Some m => Ok (inl m)
  | _, _ => Ok (inr (before, next))
  end.

(** The local variables of [Insert] once the height of the list is settled. *)
Record frame := MkFrame {
  f_x : nat; f_key : K; f_height : nat; f_splice : Splice; f_valid : bool }.

Definition with_splice (f : frame) (sp : Splice) (valid : bool) : frame :=
  MkFrame (f_x f) (f_key f) (f_height f) sp valid.

(** The check for a key that is already present, made on level 0. *)
Definition duplicate (s : t) (f : frame) (p : nat) (n : ptr) : result bool :=
  match n with
  | None => Ok false
  | Some m => Key s m ≫= λ k, Ok (0 <=? compare (f_key f) k)
  end ≫= λ after,
  if after : bool then Ok true
  else if (p =? head_)%nat then Ok false
  else Key s p ≫= λ k, Ok (0 <=? compare k (f_key f)).

(** The end of [Insert]: the splice is moved past the new node. *)
Definition finish (f : frame) : result unit :=
  if f_valid f then
    let prev := imap (λ i p, if (i <? f_height f)%nat then Some (f_x f) else p) (prev_ (f_splice f)) in
    at_index prev (height_ (f_splice f)) ≫= λ p, require (bool_decide (p = Some head_)) ≫= λ _,
    at_index (splice_next_ (f_splice f)) (height_ (f_splice f)) ≫= λ n, require (bool_decide (n = None))
  else Ok tt.

(** A thread that uses the list: between two calls, with the buffer a refused
    insert left it, or at the next shared access of a call. *)
Inductive thread :=
| Idle (free_raw : ptr)
| SeekLoad (free_raw : ptr) (key : K)
| SeekAt (free_raw : ptr) (key : K) (x level : nat) (last_bigger : ptr)
| SeekDone (free_raw : ptr) (key : K) (node : ptr)
| InsertLoad (x : nat) (key : K)
| InsertRaise (x : nat) (key : K) (height max_height : nat)
| SpliceAt (f : frame) (i before : nat) (after : ptr)
| LinkAt (f : frame) (i : nat)
| RetryAt (f : frame) (i before : nat)
| InsertDone (x : nat) (key : K) (inserted : bool).

(** After the loop that raises [max_height_]: with [height_ = 0] the splice is
    computed from the top. *)
Definition recompute (y : nat) (key : K) (height max_height : nat) : result thread :=
  require (max_height <=? kMaxPossibleHeight)%nat ≫= λ _,
  set_splice fresh_splice max_height (Some head_) None ≫= λ sp,
  let sp := MkSplice max_height (prev_ sp) (splice_next_ sp) in
  require (0 <? max_height)%nat ≫= λ _,
  Ok (SpliceAt (MkFrame y key height sp true) (max_height - 1) head_ None).

(** [while (height > max_height)]: test the loop's condition. *)
Definition raise (y : nat) (key : K) (height max_height : nat) : result thread :=
  if (max_height <? height)%nat then Ok (InsertRaise y key height max_height)
  else recompute y key height max_height.

Definition splice_step (s : t) (f : frame) (i before : nat) (after : ptr) : result thread :=
  splice_body s (f_key f) i after before ≫= λ o,
  match o with
  | inl b => Ok (SpliceAt f i b after)
  | inr (p, n) =>
      set_splice (f_splice f) i (Some p) n ≫= λ sp,
      let f := with_splice f sp (f_valid f) in
      if (i =? 0)%nat then Ok (LinkAt f 0) else Ok (SpliceAt f (i - 1) p n)
  end.

Definition link_step (s : t) (f : frame) (i : nat) : result (thread * t) :=
  at_index (prev_ (f_splice f)) i ≫= λ p,
  match p with Some p => Ok p | None => Err OutOfBounds end ≫= λ p,
  at_index (splice_next_ (f_splice f)) i ≫= λ n,
  (if (i =? 0)%nat then duplicate s f p n else Ok false) ≫= λ dup,
  if dup : bool then Ok (InsertDone (f_x f) (f_key f) false, s)
  else
    SetNext s (f_x f) i n ≫= λ s, CASNext s p i n (Some (f_x f)) ≫= λ '(done, s),
    if done : bool then
      if (S i <? f_height f)%nat then Ok (LinkAt f (S i), s)
      else finish f ≫= λ _, Ok (InsertDone (f_x f) (f_key f) true, s)
    else Ok (RetryAt f i p, s).

Definition retry_step (s : t) (f : frame) (i before : nat) : result thread :=
  splice_body s (f_key f) i None before ≫= λ o,
  match o with
  | inl b => Ok (RetryAt f i b)
  | inr (p, n) =>
      set_splice (f_splice f) i (Some p) n ≫= λ sp,
      Ok (LinkAt (with_splice f sp (if (0 <? i)%nat then false else f_valid f)) i)
  end.

(** What a step does not decide itself: the call a thread makes next, the
    height drawn for a new node, the value a relaxed load of [max_height_]
    sees, and whether a weak compare-exchange fails for no reason. *)
Inductive call := CallSeek (key : K) | CallInsert (key : K).
Record choice := MkChoice { c_call : call; c_height : nat; c_load : nat; c_weak : bool }.

Definition step (c : choice) (s : t) (th : thread) : result (thread * t) :=
  match th with
  | Idle raw =>
      match c_call c with
      | CallSeek k => Ok (SeekLoad raw k, s)
      | CallInsert k => AllocateKey s raw (c_height c) k ≫= λ '(y, s), Ok (InsertLoad y k, s)
      end
  | SeekLoad raw k => Ok (SeekAt raw k head_ (c_load c - 1) None, s)
  | SeekAt raw k y level last_bigger =>
      find_body s k (y, level, last_bigger) ≫= λ o,
      match o with
      | inl (y, level, last_bigger) => Ok (SeekAt raw k y level last_bigger, s)
      | inr n => Ok (SeekDone raw k n, s)
      end
  | SeekDone raw _ _ => Ok (Idle raw, s)
  | InsertLoad y k =>
      UnstashHeight s y ≫= λ h, require ((1 <=? h)%nat && (h <=? kMaxHeight_ s)%nat) ≫= λ _,
      raise y k h (c_load c) ≫= λ th, Ok (th, s)
  | InsertRaise y k h mh =>
      if c_weak c && (max_height_ s =? mh)%nat then
        recompute y k h h ≫= λ th, Ok (th, set_max s h)
      else raise y k h (max_height_ s) ≫= λ th, Ok (th, s)
  | SpliceAt f i before after => splice_step s f i before after ≫= λ th, Ok (th, s)
  | LinkAt f i => link_step s f i
  | RetryAt f i before => retry_step s f i before ≫= λ th, Ok (th, s)
  | InsertDone y _ b => Ok (Idle (if b : bool then None else Some y), s)
  end.

(** The choices of a caller that runs alone. *)
Definition alone (s : t) (k : K) : choice := MkChoice (CallInsert k) 1 (max_height_ s) true.

Definition InsertConcurrently (s : t) (fuel : nat) (y : nat) (k : K) : result (bool * t) :=
  loop (λ '(th, s),
    match th with
    | InsertDone _ _ b => Ok (inr (b, s))
    | _ => step (alone s k) s th ≫= λ o, Ok (inl o)
    end) fuel (InsertLoad y k, s).

End list.
End InlineSkipList.
