(* ===== verification/SkipListShape.v ===== *)
(** * The shape of the inline skip list and its searches

    [shape s L]: the pointers of level [i] run through the nodes [L i] in
    strictly ascending order of their keys, and a level holds the nodes of the
    level above.  A node whose insertion is under way is in the lower levels
    only, so the shape is that of any moment, not of a list at rest.  The
    searches of the source then return, with the nodes the sorted list
    promises. *)
From S2P Require Import Prelude InlineSkipList.
Import InlineSkipList.

Lemma countb_strict {A} (p q : A → bool) l z :
  (∀ y, p y = true → q y = true) → z ∈ l → p z = false → q z = true → (countb p l < countb q l)%nat.
Proof.
  intros Hpq Hz Hp Hq. apply elem_of_Permutation in Hz as [l' Hl].
  assert (∀ r : A → bool, countb r l = countb r (z :: l')) as E.
  { intros r. unfold countb. apply Permutation_length. by rewrite Hl. }
  rewrite !E, !countb_cons, Hp, Hq. cbn. apply Nat.lt_succ_r.
  clear -Hpq. induction l' as [|y l IH]; [done|]. rewrite !countb_cons.
  destruct (p y) eqn:Hy; [rewrite (Hpq y Hy); lia|]. destruct (q y); lia.
Qed.

(** [x] inserted at position [j]. *)
Definition insert_at {A} (j : nat) (x : A) (l : list A) : list A := take j l ++ x :: drop j l.

Lemma elem_of_insert_at {A} j (x y : A) l : y ∈ insert_at j x l ↔ y = x ∨ y ∈ l.
Proof.
  unfold insert_at. rewrite elem_of_app, elem_of_cons.
  rewrite <- (take_drop j l) at 3. rewrite elem_of_app. naive_solver.
Qed.

Lemma lookup_insert_at {A} j (x : A) l a :
  (j ≤ length l)%nat →
  insert_at j x l !! a = if decide (a < j)%nat then l !! a else if decide (a = j) then Some x else l !! (a - 1)%nat.
Proof.
  intros Hj. unfold insert_at. destruct (decide (a < j)%nat).
  { rewrite lookup_app_l by (rewrite length_take; lia). by rewrite lookup_take_lt. }
  rewrite lookup_app_r by (rewrite length_take; lia). rewrite length_take_le by done.
  destruct (decide (a = j)) as [->|]; [by rewrite Nat.sub_diag|].
  replace (a - j)%nat with (S (a - 1 - j)) by lia.
  trans (drop j l !! (a - 1 - j)%nat); [done|]. rewrite lookup_drop. f_equal. lia.
Qed.

Lemma ascending_ext {A} (f g : A → Z) l : (∀ a, a ∈ l → f a = g a) → ascending f l → ascending g l.
Proof.
  intros H. rewrite !ascending_fmap. intros Ha.
  rewrite (list_fmap_ext g f); [done|]. intros i a Hi. symmetry. by eapply H, list_elem_of_lookup_2.
Qed.

Lemma ascending_insert_at {A} (f : A → Z) j x l :
  ascending f l → (∀ a y, (a < j)%nat → l !! a = Some y → f y < f x) →
  (∀ y, l !! j = Some y → f x < f y) → ascending f (insert_at j x l).
Proof.
  intros Ha Hlo Hhi. unfold insert_at. pose proof Ha as Ha'.
  rewrite <- (take_drop j l) in Ha. apply ascending_app in Ha as (Ht & Hd & Htd).
  assert (∀ y, y ∈ drop j l → f x < f y) as Hd'.
  { intros y [a Hy]%list_elem_of_lookup. rewrite lookup_drop in Hy. destruct a as [|a].
    - rewrite Nat.add_0_r in Hy. auto.
    - destruct (l !! j) as [z|] eqn:Ez; [|apply lookup_ge_None in Ez; apply lookup_lt_Some in Hy; lia].
      specialize (Hhi z eq_refl). pose proof (ascending_lookup f l j (j + S a) z y Ha' ltac:(lia) Ez Hy). lia. }
  apply ascending_app. split; [done|]. split.
  - constructor; [done|]. by apply Forall_forall.
  - intros y z [a Hy]%list_elem_of_lookup Hz. apply lookup_take_Some in Hy as [Hy ?].
    specialize (Hlo a y ltac:(lia) Hy). apply elem_of_cons in Hz as [->|Hz]; [done|]. specialize (Hd' z Hz). lia.
Qed.

Section shape.
Context {K : Type} `{!Comparator K}.
Implicit Types (s : t (K:=K)) (L : nat → list nat) (k : K) (n m i j : nat) (p : ptr).

(** ** Reading the heap *)

Definition slot s n i : option ptr := heap s !! n ≫= λ nd, next_ nd !! i.
Definition key_of s n : option K := heap s !! n ≫= node_key.
Definition rank_of s n : Z := from_option rank 0 (key_of s n).

Lemma Next_slot s n i p : Next s n i = Ok p ↔ slot s n i = Some p.
Proof.
  unfold Next, slot, at_index. destruct (heap s !! n) as [nd|]; [|done]. cbn.
  destruct (next_ nd !! i); naive_solver.
Qed.

Lemma Key_of s n k : Key s n = Ok k ↔ key_of s n = Some k.
Proof.
  unfold Key, key_of, at_index. destruct (heap s !! n) as [nd|]; [|done]. cbn.
  destruct (node_key nd); naive_solver.
Qed.

Lemma compare_lt a b : (compare a b <? 0) = (rank a <? rank b).
Proof. pose proof (compare_rank a b). destruct (Z.ltb_spec (compare a b) 0), (Z.ltb_spec (rank a) (rank b)); lia. Qed.

Lemma compare_ge a b : (0 <=? compare a b) = (rank b <=? rank a).
Proof. pose proof (compare_rank a b). destruct (Z.leb_spec 0 (compare a b)), (Z.leb_spec (rank b) (rank a)); lia. Qed.

Lemma compare_eq a b : (compare a b =? 0) = (rank a =? rank b).
Proof. pose proof (compare_rank a b). destruct (Z.eqb_spec (compare a b) 0), (Z.eqb_spec (rank a) (rank b)); lia. Qed.

(** ** The shape *)

Record shape s L : Prop := {
  sh_bound : (1 ≤ max_height_ s ≤ kMaxHeight_ s)%nat ∧ (kMaxHeight_ s < kMaxPossibleHeight)%nat;
  sh_top i : (max_height_ s ≤ i)%nat → L i = [];
  sh_head : key_of s head_ = None;
  sh_links i j n : (i < kMaxHeight_ s)%nat → (head_ :: L i) !! j = Some n → slot s n i = Some (L i !! j);
  sh_keys n : n ∈ L 0%nat → is_Some (key_of s n);
  sh_sorted i : ascending (rank_of s) (L i);
  sh_sub i n : n ∈ L (S i) → n ∈ L i }.

(** [n] is the head or a node of level [i] before the key; [p] is null or a
    node of level [i] not before it. *)
Definition left s L k i n : Prop := n = head_ ∨ n ∈ L i ∧ rank_of s n < rank k.
Definition right s L k i p : Prop := ∀ m, p = Some m → m ∈ L i ∧ rank k ≤ rank_of s m.

(** The first node not before the key. *)
Definition first_ge s (l : list nat) k : ptr :=
  first_index (λ m, rank k <=? rank_of s m) l ≫= λ j, l !! j.

(** Nodes of level 0 after [n]: how far a search can still go. *)
Definition ahead s L n : nat :=
  countb (λ m, (n =? head_)%nat || (rank_of s n <? rank_of s m)) (L 0%nat).

Section searches.
Context s L (Hs : shape s L).

Lemma sub_0 i n : n ∈ L i → n ∈ L 0%nat.
Proof using Hs. induction i; [done|]. intros ?%(sh_sub _ _ Hs). auto. Qed.

Lemma sub_below i n : n ∈ L i → (i < max_height_ s)%nat.
Proof using Hs.
  intros Hn. destruct (decide (max_height_ s ≤ i)%nat) as [H|]; [|lia].
  rewrite (sh_top _ _ Hs i H) in Hn. by apply not_elem_of_nil in Hn.
Qed.

Lemma head_not_in i : head_ ∉ L i.
Proof using Hs. intros [k Hk]%sub_0%(sh_keys _ _ Hs). by rewrite (sh_head _ _ Hs) in Hk. Qed.

Lemma key_rank i n : n ∈ L i → ∃ k, Key s n = Ok k ∧ rank k = rank_of s n.
Proof using Hs.
  intros [k Hk]%sub_0%(sh_keys _ _ Hs). exists k. unfold rank_of. rewrite Hk. by apply Key_of in Hk.
Qed.

Lemma rank_inj n m : n ∈ L 0%nat → m ∈ L 0%nat → rank_of s n = rank_of s m → n = m.
Proof using Hs.
  intros [a Ha]%list_elem_of_lookup [b Hb]%list_elem_of_lookup E.
  assert (a = b) as ->; [|congruence].
  by eapply (ascending_inj _ _ a b n m (sh_sorted _ _ Hs 0)).
Qed.

Lemma left_down k i n : left s L k (S i) n → left s L k i n.
Proof using Hs. intros [->|[? ?]]; [by left|right]. split; [by apply (sh_sub _ _ Hs)|done]. Qed.

Lemma left_pred k i n : left s L k i n → left s L k (i - 1) n.
Proof using Hs. destruct i; [done|]. replace (S i - 1)%nat with i by lia. apply left_down. Qed.

Lemma left_on k i n : left s L k i n → n ∈ head_ :: L i.
Proof using. intros [->|[Hn _]]; [apply list_elem_of_here|by apply list_elem_of_further]. Qed.

Lemma on_pred i n : n ∈ head_ :: L i → n ∈ head_ :: L (i - 1)%nat.
Proof using Hs.
  destruct i; [done|]. replace (S i - 1)%nat with i by lia.
  intros [->|Hn]%elem_of_cons; [apply list_elem_of_here|]. by apply list_elem_of_further, (sh_sub _ _ Hs).
Qed.

(** One read of a level. *)
Lemma Next_on i n :
  (i < kMaxHeight_ s)%nat → n ∈ head_ :: L i →
  ∃ j, (head_ :: L i) !! j = Some n ∧ Next s n i = Ok (L i !! j).
Proof using Hs.
  intros Hi [j Hj]%list_elem_of_lookup. exists j. split; [done|]. by apply Next_slot, (sh_links _ _ Hs).
Qed.

(** The node read is further on. *)
Lemma step_ahead i j n m :
  (head_ :: L i) !! j = Some n → L i !! j = Some m → (ahead s L m < ahead s L n)%nat.
Proof using Hs.
  intros Hj Hm. pose proof (list_elem_of_lookup_2 _ _ _ Hm) as Hin.
  assert ((m =? head_)%nat = false) as Em.
  { apply Nat.eqb_neq. intros ->. by apply (head_not_in i). }
  assert (n = head_ ∨ n ≠ head_ ∧ rank_of s n < rank_of s m) as Hn.
  { destruct j as [|j]; [cbn in Hj; left; congruence|]. right. cbn in Hj. split.
    - intros ->. apply (head_not_in i). by apply list_elem_of_lookup_2 in Hj.
    - eapply (ascending_lookup _ (L i) j (S j)); eauto; apply (sh_sorted _ _ Hs). }
  unfold ahead. apply countb_strict with (z := m); [|by apply (sub_0 i)|rewrite Em; cbn; lia|].
  - intros y. rewrite Em. cbn. destruct Hn as [->|[Hh Hn]]; [done|]. apply Nat.eqb_neq in Hh as ->. cbn. lia.
  - destruct Hn as [->|[Hh Hn]]; [done|]. apply Nat.eqb_neq in Hh as ->. cbn. lia.
Qed.

Lemma ahead_le n : (ahead s L n ≤ length (L 0%nat))%nat.
Proof using. apply countb_le. Qed.

(** The nodes up to one that is before the key are before it. *)
Lemma before_left k i j n a y :
  left s L k i n → (head_ :: L i) !! j = Some n → (a < j)%nat → L i !! a = Some y → rank_of s y < rank k.
Proof using Hs.
  intros Hl Hj Ha Hy. destruct j as [|j]; [lia|]. cbn in Hj. destruct Hl as [->|[_ Hl]].
  - destruct (head_not_in i). by apply list_elem_of_lookup_2 in Hj.
  - destruct (decide (a = j)) as [->|]; [injection (eq_trans (eq_sym Hy) Hj) as ->; lia|].
    assert (rank_of s y < rank_of s n); [|lia].
    eapply (ascending_lookup _ (L i) a j); eauto; [apply (sh_sorted _ _ Hs)|lia].
Qed.

(** On level 0 the successor of a node before the key, when it is not before
    the key, is the first such node. *)
Lemma first_ge_successor k j n :
  left s L k 0 n → (head_ :: L 0%nat) !! j = Some n → right s L k 0 (L 0%nat !! j) →
  first_ge s (L 0%nat) k = L 0%nat !! j.
Proof using Hs.
  intros Hl Hj Hr. pose proof (sh_sorted _ _ Hs 0) as Ha.
  assert (∀ a y, (a < j)%nat → L 0%nat !! a = Some y → rank_of s y < rank k) as Hlow
    by (intros a y; by apply (before_left k 0 j n)).
  unfold first_ge. destruct (L 0%nat !! j) as [m|] eqn:Em.
  - rewrite (proj2 (first_index_Some _ (L 0%nat) j)); [done|]. split.
    + exists m. split; [done|]. destruct (Hr m eq_refl). lia.
    + intros a y Haj Hy. specialize (Hlow a y Haj Hy). lia.
  - apply lookup_ge_None in Em. rewrite (proj2 (first_index_None _ (L 0%nat))); [done|].
    intros a y Hy. pose proof (lookup_lt_Some _ _ _ Hy). specialize (Hlow a y ltac:(lia) Hy). lia.
Qed.

(** A node with the key's rank is the first one not before it. *)
Lemma first_ge_exact k m : m ∈ L 0%nat → rank_of s m = rank k → first_ge s (L 0%nat) k = Some m.
Proof using Hs.
  intros [j Hj]%list_elem_of_lookup Hm. unfold first_ge.
  rewrite (proj2 (first_index_Some _ (L 0%nat) j)); [done|]. split; [exists m; split; [done|lia]|].
  intros a y Ha Hy. assert (rank_of s y < rank_of s m); [|lia].
  eapply (ascending_lookup _ _ a j); eauto. apply (sh_sorted _ _ Hs).
Qed.

Lemma KeyIsAfterNode_spec k i p :
  (∀ m, p = Some m → m ∈ L i) →
  KeyIsAfterNode s k p = Ok (match p with Some m => rank_of s m <? rank k | None => false end).
Proof using Hs.
  intros Hp. unfold KeyIsAfterNode. destruct p as [m|]; [|done].
  specialize (Hp m eq_refl). destruct (key_rank i m Hp) as (y & -> & Hy).
  rewrite bool_decide_false; [|intros [= ->]; by apply (head_not_in i)].
  cbn. by rewrite compare_lt, Hy.
Qed.

(** ** [FindGreaterOrEqual] *)

Definition find_inv k : nat * nat * ptr → Prop := λ '(x, level, last_bigger),
  left s L k level x ∧ (level < kMaxHeight_ s)%nat ∧
  ∀ b, last_bigger = Some b → b ∈ L 0%nat ∧ rank k < rank_of s b.

(** The comparison of the body, with its two shortcuts. *)
Lemma find_compare k level p lb :
  (∀ m, p = Some m → m ∈ L level) → (∀ b, lb = Some b → b ∈ L 0%nat ∧ rank k < rank_of s b) →
  ∃ c, match p with
       | None => Ok 1
       | Some m => if decide (p = lb) then Ok 1 else Key s m ≫= λ y, Ok (compare y k)
       end = Ok c ∧
  match p with None => c = 1 | Some m => Z.sgn c = Z.sgn (rank_of s m - rank k) end.
Proof using Hs.
  intros Hp Hb. destruct p as [m|]; [|by exists 1].
  destruct (decide _) as [<-|]; [exists 1; split; [done|]; destruct (Hb m eq_refl); lia|].
  destruct (key_rank level m (Hp m eq_refl)) as (y & -> & <-). exists (compare y k). split; [done|]. apply compare_rank.
Qed.

Lemma find_body_spec k st :
  find_inv k st →
  ∃ o, find_body s k st = Ok o ∧
    match o with
    | inl st' => find_inv k st' ∧ (st'.1.2 + ahead s L st'.1.1 < st.1.2 + ahead s L st.1.1)%nat
    | inr p => p = first_ge s (L 0%nat) k
    end.
Proof using Hs.
  destruct st as [[y level] lb]. intros (Hl & Hi & Hb).
  destruct (Next_on level y Hi (left_on _ _ _ Hl)) as (j & Hj & E). unfold find_body. rewrite E. cbn [mbind result_bind].
  destruct (find_compare k level (L level !! j) lb) as (c & Ec & Hc);
    [intros m; apply list_elem_of_lookup_2|done|]. unfold ptr in *. rewrite Ec. cbn [mbind result_bind].
  destruct (Z.eqb_spec c 0) as [->|Hc0]; cbn [orb].
  { eexists. split; [done|]. destruct (L level !! j) as [m|] eqn:Em; [|done]. symmetry.
    apply first_ge_exact; [|lia]. eapply (sub_0 level), list_elem_of_lookup_2, Em. }
  assert (0 < c → right s L k level (L level !! j)) as Hr.
  { intros Hpos m Em. rewrite Em in Hc. split; [by eapply list_elem_of_lookup_2|lia]. }
  destruct (Z.ltb_spec 0 c) as [Hpos|Hneg]; cbn [andb].
  - specialize (Hr Hpos). rewrite (proj2 (Z.ltb_ge c 0)) by lia.
    destruct (Nat.eqb_spec level 0) as [->|]; eexists; (split; [done|]).
    + symmetry. by eapply first_ge_successor.
    + cbn. split; [|lia]. split; [by apply left_pred|]. split; [lia|]. intros b Eb. split.
      * apply (sub_0 level). by apply (Hr b).
      * rewrite Eb in Hc. lia.
  - rewrite (proj2 (Z.ltb_lt c 0)) by lia. destruct (L level !! j) as [m|] eqn:Em; [|lia].
    eexists. split; [done|]. pose proof (step_ahead level j y m Hj Em). cbn.
    split; [|lia]. split; [|done]. right. split; [by eapply list_elem_of_lookup_2|lia].
Qed.

Lemma FindGreaterOrEqual_spec k fuel :
  (max_height_ s + length (L 0%nat) ≤ fuel)%nat → FindGreaterOrEqual s fuel k = Ok (first_ge s (L 0%nat) k).
Proof using Hs.
  intros Hf. pose proof (sh_bound _ _ Hs). unfold FindGreaterOrEqual.
  destruct (loop_total (find_body s k) (find_inv k) (λ st, st.1.2 + ahead s L st.1.1)%nat
    (λ p, p = first_ge s (L 0%nat) k) (find_body_spec k) fuel (head_, (max_height_ s - 1)%nat, None))
    as (? & ? & ->); [|cbn; pose proof (ahead_le head_); lia|done].
  split; [by left|]. split; [lia|done].
Qed.

Lemma first_ge_in k m : first_ge s (L 0%nat) k = Some m → m ∈ L 0%nat ∧ rank k ≤ rank_of s m.
Proof using.
  unfold first_ge. intros (j & Ej & Em)%bind_Some. split; [by eapply list_elem_of_lookup_2|].
  apply first_index_Some in Ej as [(y & Hy & Hle) _]. assert (y = m) as -> by congruence. lia.
Qed.

Lemma Contains_spec k fuel :
  (max_height_ s + length (L 0%nat) ≤ fuel)%nat →
  ∃ b, Contains s fuel k = Ok b ∧ (b = true ↔ ∃ n, n ∈ L 0%nat ∧ rank_of s n = rank k).
Proof using Hs.
  intros Hf. unfold Contains. rewrite FindGreaterOrEqual_spec by done. cbn.
  destruct (first_ge s (L 0%nat) k) as [m|] eqn:E.
  - destruct (first_ge_in k m E) as [Hm Hle]. destruct (key_rank 0 m Hm) as (y & -> & Hy).
    exists (compare k y =? 0). split; [done|]. rewrite compare_eq.
    split; [exists m; split; [done|lia]|]. intros (n & Hn & Hk).
    assert (m = n) as -> by (pose proof (first_ge_exact k n Hn Hk); congruence). lia.
  - exists false. split; [done|]. split; [done|]. intros (n & Hn & Hk).
    by rewrite (first_ge_exact k n Hn Hk) in E.
Qed.

(** ** [FindLessThan] and [FindLast] *)

(** [n] is the last node before the key, the head when there is none. *)
Definition last_lt k n : Prop :=
  left s L k 0 n ∧ ∃ j, (head_ :: L 0%nat) !! j = Some n ∧ right s L k 0 (L 0%nat !! j).

Definition less_inv k : nat * nat * ptr * option (list ptr) → Prop := λ '(x, level, last_not_after, prev),
  left s L k level x ∧ (level < kMaxHeight_ s)%nat ∧
  (∀ b, last_not_after = Some b → rank k ≤ rank_of s b) ∧
  ∀ a, prev = Some a → (level < length a)%nat.

Lemma less_body_spec k st :
  less_inv k st →
  ∃ o, less_body s k 0 st = Ok o ∧
    match o with
    | inl st' => less_inv k st' ∧
        (st'.1.1.2 + ahead s L st'.1.1.1 < st.1.1.2 + ahead s L st.1.1.1)%nat
    | inr r => last_lt k r.1
    end.
Proof using Hs.
  destruct st as [[[y level] lb] prev]. intros (Hl & Hi & Hb & Hlen).
  destruct (Next_on level y Hi (left_on _ _ _ Hl)) as (j & Hj & E). unfold less_body. rewrite E. cbn [mbind result_bind].
  assert (∃ b, (if decide (L level !! j = lb) then Ok false else KeyIsAfterNode s k (L level !! j)) = Ok b ∧
    match L level !! j with Some m => b = (rank_of s m <? rank k) | None => b = false end) as (after & -> & Ha).
  { destruct (decide _) as [<-|].
    - exists false. split; [done|]. destruct (L level !! j) as [m|]; [|done]. specialize (Hb m eq_refl). lia.
    - eexists. split; [apply (KeyIsAfterNode_spec k level); intros m; apply list_elem_of_lookup_2|].
      by destruct (L level !! j). }
  cbn [mbind result_bind]. destruct after.
  - destruct (L level !! j) as [m|] eqn:Em; [|done]. eexists. split; [done|].
    pose proof (step_ahead level j y m Hj Em). cbn. repeat split; [|done|done|done|lia].
    right. split; [by eapply list_elem_of_lookup_2|lia].
  - assert (right s L k level (L level !! j)) as Hr.
    { intros m Em. rewrite Em in Ha. split; [by eapply list_elem_of_lookup_2|lia]. }
    assert (∃ prev', match prev with None => Ok None
      | Some a => at_index a level ≫= λ _, Ok (Some (<[level := Some y]> a)) end = Ok prev' ∧
      ∀ a, prev' = Some a → (level < length a)%nat) as (prev' & Ep & Hlen').
    { destruct prev as [a|]; [|by exists None]. specialize (Hlen a eq_refl).
      destruct (lookup_lt_is_Some_2 _ _ Hlen) as [q Hq]. unfold at_index. rewrite Hq.
      eexists. split; [done|]. intros a' [= <-]. by rewrite length_insert. }
    unfold ptr in *. rewrite Ep. cbn [mbind result_bind].
    destruct (Nat.eqb_spec level 0) as [->|]; eexists; (split; [done|]).
    + split; [done|]. by exists j.
    + cbn. repeat split; [by apply left_pred|lia| | |lia].
      * intros b Eb. by destruct (Hr b Eb).
      * intros a Ea. apply (Nat.le_lt_trans _ level); [lia|exact (Hlen' a Ea)].
Qed.

Lemma FindLessThan_spec k fuel :
  (max_height_ s + length (L 0%nat) ≤ fuel)%nat → ∃ n, FindLessThan s fuel k = Ok n ∧ last_lt k n.
Proof using Hs.
  intros Hf. pose proof (sh_bound _ _ Hs). unfold FindLessThan, FindLessThan_from.
  rewrite (proj2 (Nat.ltb_lt _ _)) by lia. cbn [require mbind result_bind].
  destruct (loop_total (less_body s k 0) (less_inv k) (λ st, st.1.1.2 + ahead s L st.1.1.1)%nat
    (λ r, last_lt k r.1) (less_body_spec k) fuel (head_, (max_height_ s - 1)%nat, None, None))
    as ([n q] & -> & Hn); [|cbn; pose proof (ahead_le head_); lia|by exists n].
  split; [by left|]. split; [lia|]. done.
Qed.

(** The last node of the list. *)
Definition last_node n : Prop := ∃ j, (head_ :: L 0%nat) !! j = Some n ∧ L 0%nat !! j = None.

Lemma FindLast_spec fuel :
  (max_height_ s + length (L 0%nat) ≤ fuel)%nat → ∃ n, FindLast s fuel = Ok n ∧ last_node n.
Proof using Hs.
  intros Hf. pose proof (sh_bound _ _ Hs).
  apply (loop_total (last_body s) (λ st, st.1 ∈ head_ :: L st.2 ∧ (st.2 < kMaxHeight_ s)%nat)
    (λ st, st.2 + ahead s L st.1)%nat last_node).
  - intros [y level] [Hy Hi]. destruct (Next_on level y Hi Hy) as (j & Hj & E).
    unfold last_body. rewrite E. cbn [mbind result_bind]. destruct (L level !! j) as [m|] eqn:Em.
    + eexists. split; [done|]. pose proof (step_ahead level j y m Hj Em). cbn in *.
      repeat split; [|done|lia]. by eapply list_elem_of_further, list_elem_of_lookup_2.
    + destruct (Nat.eqb_spec level 0) as [->|]; eexists; (split; [done|]); [by exists j|].
      cbn in *. repeat split; [by apply on_pred|lia|lia].
  - cbn. split; [apply list_elem_of_here|lia].
  - cbn. pose proof (ahead_le head_). lia.
Qed.

Lemma EstimateCount_returns k fuel :
  (max_height_ s + length (L 0%nat) ≤ fuel)%nat → ∃ c, EstimateCount s fuel k = Ok c ∧ fits 64 c.
Proof using Hs.
  intros Hf. pose proof (sh_bound _ _ Hs).
  apply (loop_total (count_body s k)
    (λ st, st.1.1 ∈ head_ :: L st.1.2 ∧ (st.1.2 < kMaxHeight_ s)%nat ∧ fits 64 st.2)
    (λ st, st.1.2 + ahead s L st.1.1)%nat (fits 64)).
  - intros [[y level] c] (Hy & Hi & Hc). cbn in Hy, Hi, Hc. destruct (Next_on level y Hi Hy) as (j & Hj & E).
    unfold count_body. rewrite E. cbn [mbind result_bind].
    assert (∃ o, (if (level =? 0)%nat then Ok (inr c)
        else Ok (inl (y, (level - 1)%nat, u64 (c * kBranching_ s)))) = Ok o ∧
      match o with
      | inl st => (st.1.1 ∈ head_ :: L st.1.2 ∧ (st.1.2 < kMaxHeight_ s)%nat ∧ fits 64 st.2) ∧
          (st.1.2 + ahead s L st.1.1 < level + ahead s L y)%nat
      | inr r => fits 64 r
      end) as Hdown.
    { destruct (Nat.eqb_spec level 0) as [->|]; eexists; (split; [done|]); [done|]. cbn.
      repeat split; [by apply on_pred|lia|apply wrap_fits; lia|apply wrap_fits; lia|lia]. }
    destruct (L level !! j) as [m|] eqn:Em; [|done].
    pose proof (list_elem_of_lookup_2 _ _ _ Em) as Hm. destruct (key_rank level m Hm) as (z & -> & _).
    cbn [mbind result_bind]. destruct (0 <=? compare z k); [done|]. eexists. split; [done|].
    pose proof (step_ahead level j y m Hj Em). cbn.
    repeat split; [by apply list_elem_of_further|done|apply wrap_fits; lia|apply wrap_fits; lia|lia].
  - cbn. repeat split; [apply list_elem_of_here|lia|done].
  - cbn. pose proof (ahead_le head_). lia.
Qed.

(** ** [Iterator] *)

(** The node before position [j]. *)
Definition pred_ptr j : ptr := match j with O => None | S j => L 0%nat !! j end.

Lemma not_head_at j n : (head_ :: L 0%nat) !! j = Some n → not_head n = pred_ptr j.
Proof using Hs.
  unfold not_head. destruct j as [|j]; cbn; [by intros [= <-]|]. intros Hn.
  destruct (Nat.eqb_spec n head_) as [->|]; [|by rewrite <- Hn].
  destruct (head_not_in 0). by eapply list_elem_of_lookup_2.
Qed.

Lemma Iterator_Next_spec j n : L 0%nat !! j = Some n → Iterator_Next s (Some n) = Ok (L 0%nat !! S j).
Proof using Hs.
  intros Hj. pose proof (sh_bound _ _ Hs). by apply Next_slot, (sh_links _ _ Hs 0%nat (S j)); [lia|].
Qed.

Lemma SeekToFirst_spec : SeekToFirst s = Ok (L 0%nat !! 0%nat).
Proof using Hs. pose proof (sh_bound _ _ Hs). by apply Next_slot, (sh_links _ _ Hs 0%nat 0%nat); [lia|]. Qed.

Section fuel.
Context (fuel : nat) (Hfuel : (max_height_ s + length (L 0%nat) ≤ fuel)%nat).

Lemma Prev_spec j n : L 0%nat !! j = Some n → Prev s fuel (Some n) = Ok (pred_ptr j).
Proof using Hs Hfuel.
  intros Hj. pose proof (list_elem_of_lookup_2 _ _ _ Hj) as Hn.
  destruct (key_rank 0 n Hn) as (k & Ek & Hk). unfold Prev, Iterator_key. rewrite Ek. cbn [mbind result_bind].
  destruct (FindLessThan_spec k fuel Hfuel) as (n' & -> & Hl & j' & Hj' & Hr). cbn [mbind result_bind].
  f_equal. rewrite (not_head_at j' n' Hj'). f_equal.
  pose proof (first_ge_successor k j' n' Hl Hj' Hr) as E.
  rewrite (first_ge_exact k n Hn (eq_sym Hk)) in E.
  by eapply (ascending_inj _ _ j' j n n (sh_sorted _ _ Hs 0)).
Qed.

Lemma SeekToLast_spec : SeekToLast s fuel = Ok (pred_ptr (length (L 0%nat))).
Proof using Hs Hfuel.
  unfold SeekToLast. destruct (FindLast_spec fuel Hfuel) as (n & -> & j & Hj & Hend). cbn [mbind result_bind].
  rewrite (not_head_at j n Hj). do 2 f_equal. apply lookup_ge_None in Hend.
  apply lookup_lt_Some in Hj. cbn in Hj. lia.
Qed.

Definition above k j : Prop := ∀ a m, L 0%nat !! a = Some m → (j ≤ a)%nat → rank k < rank_of s m.

(** The loop of [SeekForPrev] goes back to the last node not after the
    target. *)
Lemma prev_loop k j fuel' :
  above k j → (j ≤ length (L 0%nat))%nat → (j < fuel')%nat →
  ∃ j', loop (prev_body s fuel k) fuel' (pred_ptr j) = Ok (pred_ptr j') ∧
  ∀ a m, L 0%nat !! a = Some m → (a < j')%nat ↔ rank_of s m ≤ rank k.
Proof using Hs Hfuel.
  pose proof (sh_sorted _ _ Hs 0) as Hasc. revert j. induction fuel' as [|fuel' IH]; intros j Hab Hj Hf; [lia|].
  destruct j as [|j]; cbn [loop pred_ptr].
  { exists 0%nat. split; [done|]. intros a m Hm. specialize (Hab a m Hm). lia. }
  destruct (lookup_lt_is_Some_2 (L 0%nat) j) as [m Hm]; [lia|]. rewrite Hm. cbn [prev_body].
  destruct (key_rank 0 m) as (y & -> & Hy); [by eapply list_elem_of_lookup_2|]. cbn [mbind result_bind].
  rewrite compare_lt. destruct (Z.ltb_spec (rank k) (rank y)) as [Hlt|Hle].
  - rewrite (Prev_spec j m Hm). cbn [mbind result_bind]. apply IH; [|lia|lia].
    intros a z Hz Ha. destruct (decide (a = j)) as [->|]; [|apply (Hab a z Hz); lia].
    assert (z = m) as -> by congruence. lia.
  - exists (S j). cbn. rewrite Hm. split; [done|]. intros a z Hz. split.
    + intros Ha. destruct (decide (a = j)) as [->|]; [assert (z = m) as -> by congruence; lia|].
      assert (rank_of s z < rank_of s m); [|lia]. eapply (ascending_lookup _ _ a j); eauto; lia.
    + intros Ha. destruct (decide (a < S j)%nat); [done|]. specialize (Hab a z Hz). lia.
Qed.

(** [SeekForPrev] stops at the last node whose key is not after the target. *)
Lemma SeekForPrev_spec k :
  ∃ j, SeekForPrev s fuel k = Ok (pred_ptr j) ∧
  ∀ a m, L 0%nat !! a = Some m → (a < j)%nat ↔ rank_of s m ≤ rank k.
Proof using Hs Hfuel.
  pose proof (sh_sorted _ _ Hs 0) as Hasc. pose proof (sh_bound _ _ Hs).
  assert (∃ j, (Seek s fuel k ≫= λ r : ptr, if Valid r then Ok r else SeekToLast s fuel) = Ok (pred_ptr j) ∧
    above k j ∧ (j ≤ length (L 0%nat))%nat) as (j & E & Hab & Hj).
  { unfold Seek. rewrite FindGreaterOrEqual_spec by done. cbn [mbind result_bind].
    unfold first_ge. destruct (first_index _ (L 0%nat)) as [j|] eqn:Ej; cbn.
    - pose proof Ej as [(m & Hm & Hle) _]%first_index_Some. exists (S j). rewrite Hm. cbn. rewrite Hm.
      split; [done|]. split; [|by eapply lookup_lt_Some]. intros a y Hy Ha.
      pose proof (ascending_lookup _ _ j a m y Hasc Ha Hm Hy). lia.
    - exists (length (L 0%nat)). rewrite SeekToLast_spec. split; [done|]. split; [|done].
      intros a m Ha. apply lookup_lt_Some in Ha. lia. }
  unfold SeekForPrev. destruct (Seek s fuel k) as [r|]; [|done]. cbn [mbind result_bind] in *.
  rewrite E. cbn [mbind result_bind].
  destruct (prev_loop k j fuel Hab Hj) as (j' & -> & Hj'); [lia|by exists j'].
Qed.

End fuel.

End searches.
(** ** Contents *)

Definition keys s (l : list nat) : list K := omap (key_of s) l.

Lemma lookup_keys s l a : (∀ n, n ∈ l → is_Some (key_of s n)) → keys s l !! a = l !! a ≫= key_of s.
Proof.
  revert a. induction l as [|n l IH]; intros a Hl; [done|].
  destruct (Hl n) as [y Hy]; [apply list_elem_of_here|]. unfold keys. cbn. rewrite Hy.
  destruct a as [|a]; cbn; [done|]. apply IH. intros m Hm. by apply Hl, list_elem_of_further.
Qed.

Lemma keys_rank s l :
  (∀ n, n ∈ l → is_Some (key_of s n)) → rank <$> keys s l = rank_of s <$> l.
Proof.
  induction l as [|n l IH]; intros Hl; [done|].
  destruct (Hl n) as [y Hy]; [apply list_elem_of_here|]. unfold keys, rank_of. cbn. rewrite Hy. cbn. f_equal.
  apply IH. intros m Hm. by apply Hl, list_elem_of_further.
Qed.

Lemma keys_ext s s' l : (∀ n, n ∈ l → key_of s' n = key_of s n) → keys s' l = keys s l.
Proof.
  induction l as [|n l IH]; intros Hl; [done|]. unfold keys. cbn. rewrite (Hl n) by apply list_elem_of_here.
  unfold keys in IH. rewrite IH; [done|]. intros m Hm. by apply Hl, list_elem_of_further.
Qed.

Lemma keys_insert_at s l j n y :
  key_of s n = Some y → (∀ m, m ∈ l → is_Some (key_of s m)) →
  keys s (insert_at j n l) = insert_at j y (keys s l).
Proof.
  intros Hn. unfold insert_at, keys. rewrite omap_app. cbn. rewrite Hn. revert j.
  induction l as [|m l IH]; intros j Hl; [by destruct j|].
  destruct (Hl m) as [z Hz]; [apply list_elem_of_here|].
  destruct j as [|j]; cbn; rewrite Hz; cbn; [done|]. f_equal. apply IH.
  intros q Hq. by apply Hl, list_elem_of_further.
Qed.

Lemma walk_level s L i j fuel :
  shape s L → (i < kMaxHeight_ s)%nat → (length (L i) - j ≤ fuel)%nat →
  walk s i fuel (L i !! j) = drop j (L i).
Proof.
  intros Hs Hi. revert j. induction fuel as [|fuel IH]; intros j Hf; cbn.
  { rewrite drop_ge by lia. done. }
  destruct (L i !! j) as [n|] eqn:E; [|rewrite drop_ge; [done|by apply lookup_ge_None]].
  rewrite (drop_S _ _ _ E). f_equal. rewrite (proj2 (Next_slot s n i (L i !! S j))).
  - apply IH. lia.
  - by apply (sh_links _ _ Hs i (S j)).
Qed.

Lemma level_length s L i : shape s L → (length (L i) ≤ length (heap s))%nat.
Proof.
  intros Hs. rewrite <- (length_seq (length (heap s)) 0). apply submseteq_length, NoDup_submseteq.
  - eapply NoDup_fmap_1, ascending_NoDup, (sh_sorted _ _ Hs).
  - intros n [k Hk]%(sub_0 s L Hs)%(sh_keys _ _ Hs). unfold key_of in Hk.
    apply bind_Some in Hk as (nd & Hn & _). apply lookup_lt_Some in Hn. apply elem_of_seq. lia.
Qed.

Lemma level_nodes_shape s L i : shape s L → (i < kMaxHeight_ s)%nat → level_nodes s i = L i.
Proof.
  intros Hs Hi. unfold level_nodes.
  rewrite (proj2 (Next_slot s head_ i (L i !! 0%nat))); [|by apply (sh_links _ _ Hs i 0)].
  rewrite (walk_level s L i 0); [done|done|done|]. pose proof (level_length s L i Hs). lia.
Qed.

Lemma contents_shape s L : shape s L → contents s = keys s (L 0%nat).
Proof. intros Hs. unfold contents. by rewrite (level_nodes_shape s L) by (done || pose proof (sh_bound _ _ Hs); lia). Qed.

Lemma contents_ascending s L : shape s L → ascending rank (contents s).
Proof.
  intros Hs. rewrite (contents_shape s L Hs). apply ascending_fmap. rewrite keys_rank by apply (sh_keys _ _ Hs).
  exact (proj1 (ascending_fmap (rank_of s) _) (sh_sorted _ _ Hs 0)).
Qed.

(** ** The sorted list the contents are *)

Lemma sorted_insert_at (l : list K) k j :
  (∀ a y, (a < j)%nat → l !! a = Some y → rank y < rank k) → (∀ y, l !! j = Some y → rank k < rank y) →
  (j ≤ length l)%nat → sorted_insert l k = (true, insert_at j k l).
Proof.
  revert j. induction l as [|z l IH]; intros j Hlo Hhi Hj; cbn in *; [by destruct j; [|lia]|].
  rewrite compare_lt, compare_eq. destruct j as [|j].
  - specialize (Hhi z eq_refl). rewrite (proj2 (Z.ltb_ge _ _)), (proj2 (Z.eqb_neq _ _)) by lia. done.
  - pose proof (Hlo 0%nat z ltac:(lia) eq_refl). rewrite (proj2 (Z.ltb_lt _ _)) by lia.
    rewrite (IH j); [done| |done|lia]. intros a y Ha Hy. apply (Hlo (S a) y); [lia|done].
Qed.

Lemma sorted_insert_dup (l : list K) k y :
  ascending rank l → y ∈ l → rank y = rank k → sorted_insert l k = (false, l).
Proof.
  induction 1 as [|z l Hl IH Hz]; intros Hy E; [by apply not_elem_of_nil in Hy|]. cbn.
  rewrite compare_lt, compare_eq. apply elem_of_cons in Hy as [->|Hy].
  - rewrite E, Z.ltb_irrefl, Z.eqb_refl. done.
  - rewrite Forall_forall in Hz. specialize (Hz y Hy). rewrite (proj2 (Z.ltb_lt _ _)) by lia.
    by rewrite IH.
Qed.

Lemma first_index_contents s L k :
  shape s L →
  first_index (λ y, 0 <=? compare y k) (contents s) = first_index (λ m, rank k <=? rank_of s m) (L 0%nat).
Proof.
  intros Hs. rewrite (contents_shape s L Hs). pose proof (sh_keys _ _ Hs) as Hk.
  induction (L 0%nat) as [|n l IH]; [done|].
  destruct (Hk n) as [y Hy]; [apply list_elem_of_here|]. unfold keys, rank_of. cbn. rewrite Hy. cbn.
  rewrite compare_ge. destruct (rank k <=? rank y); [done|]. f_equal.
  apply IH. intros m Hm. by apply Hk, list_elem_of_further.
Qed.

Lemma sorted_seek_contents s L k :
  shape s L → sorted_seek (contents s) k = first_ge s (L 0%nat) k ≫= key_of s.
Proof.
  intros Hs. unfold sorted_seek, first_ge. rewrite (first_index_contents s L k Hs), (contents_shape s L Hs).
  destruct (first_index _ (L 0%nat)) as [j|]; [|done]. cbn. apply lookup_keys, (sh_keys _ _ Hs).
Qed.

Lemma length_contents s L : shape s L → length (contents s) = length (L 0%nat).
Proof.
  intros Hs. rewrite (contents_shape s L Hs), <- (length_fmap rank), keys_rank by apply (sh_keys _ _ Hs).
  apply length_fmap.
Qed.

(** ** Writes *)

Definition height_of s n : option nat := (λ nd, length (next_ nd)) <$> heap s !! n.

Lemma slot_height s n i h : height_of s n = Some h → (i < h)%nat → is_Some (slot s n i).
Proof.
  unfold height_of, slot. destruct (heap s !! n) as [nd|]; [|done]. intros [= <-] Hi. cbn.
  by apply lookup_lt_is_Some_2.
Qed.

(** [s'] is [s] with [v] stored in one pointer. *)
Record stored s s' n i (v : ptr) : Prop := {
  st_max : kMaxHeight_ s' = kMaxHeight_ s;
  st_height : max_height_ s' = max_height_ s;
  st_key m : key_of s' m = key_of s m;
  st_tall m : height_of s' m = height_of s m;
  st_slot m j : slot s' m j = if decide (m = n ∧ j = i) then Some v else slot s m j }.

Lemma SetNext_spec s n i v : is_Some (slot s n i) → ∃ s', SetNext s n i v = Ok s' ∧ stored s s' n i v.
Proof.
  intros [q Hq]. unfold slot in Hq. apply bind_Some in Hq as (nd & Hn & Hq).
  unfold SetNext, at_index. rewrite Hn. cbn. rewrite Hq. cbn. eexists. split; [done|].
  pose proof (lookup_lt_Some _ _ _ Hn). pose proof (lookup_lt_Some _ _ _ Hq).
  assert (∀ m, heap s !! m = if decide (m = n) then Some nd else heap s !! m) as Hm
    by (intros m; destruct (decide (m = n)) as [->|]; done).
  split; [done|done| | |]; intros m; unfold key_of, height_of, slot, set_heap; cbn.
  - destruct (decide (n = m)) as [<-|]; [by rewrite list_lookup_insert_eq, Hn by done|by rewrite list_lookup_insert_ne].
  - destruct (decide (n = m)) as [<-|]; [|by rewrite list_lookup_insert_ne].
    rewrite list_lookup_insert_eq, Hn by done. cbn. by rewrite length_insert.
  - intros j. destruct (decide (n = m)) as [<-|]; [|rewrite list_lookup_insert_ne, decide_False by naive_solver; done].
    rewrite list_lookup_insert_eq by done. cbn. destruct (decide (i = j)) as [<-|].
    + by rewrite list_lookup_insert_eq, decide_True by done.
    + rewrite list_lookup_insert_ne, decide_False, Hn by naive_solver. done.
Qed.

Lemma shape_rank s s' L :
  shape s L → kMaxHeight_ s' = kMaxHeight_ s →
  (max_height_ s ≤ max_height_ s' ≤ kMaxHeight_ s)%nat → key_of s' head_ = None →
  (∀ n, n ∈ L 0%nat → is_Some (key_of s' n) ∧ rank_of s' n = rank_of s n) →
  (∀ i n, (i < kMaxHeight_ s)%nat → n ∈ head_ :: L i → slot s' n i = slot s n i) → shape s' L.
Proof.
  intros Hs Hk Hm Hh Hkey Hslot. pose proof (sh_bound _ _ Hs). split.
  - rewrite Hk. lia.
  - intros i Hi. apply (sh_top _ _ Hs). lia.
  - done.
  - intros i j n. rewrite Hk. intros Hi Hj. rewrite Hslot; [by apply (sh_links _ _ Hs)|done|by eapply list_elem_of_lookup_2].
  - intros n Hn. by apply Hkey.
  - intros i. apply (ascending_ext (rank_of s)); [|apply (sh_sorted _ _ Hs)].
    intros n Hn%(sub_0 s L Hs). symmetry. by apply Hkey.
  - apply (sh_sub _ _ Hs).
Qed.

Lemma shape_ext s s' L :
  shape s L → kMaxHeight_ s' = kMaxHeight_ s →
  (max_height_ s ≤ max_height_ s' ≤ kMaxHeight_ s)%nat → key_of s' head_ = None →
  (∀ n, n ∈ L 0%nat → key_of s' n = key_of s n) →
  (∀ i n, (i < kMaxHeight_ s)%nat → n ∈ head_ :: L i → slot s' n i = slot s n i) → shape s' L.
Proof.
  intros Hs Hk Hm Hh Hkey Hslot. apply (shape_rank s s' L); try done.
  intros n Hn. unfold rank_of. rewrite Hkey by done. split; [by apply (sh_keys _ _ Hs)|done].
Qed.

(** Storing into a node that the level does not link. *)
Lemma shape_store s s' L n i v :
  shape s L → stored s s' n i v → n ∉ head_ :: L i → shape s' L.
Proof.
  intros Hs Hst Hn. pose proof (sh_bound _ _ Hs). apply (shape_ext s s' L Hs).
  - apply (st_max _ _ _ _ _ Hst).
  - rewrite (st_height _ _ _ _ _ Hst). lia.
  - rewrite (st_key _ _ _ _ _ Hst). apply (sh_head _ _ Hs).
  - intros m _. apply (st_key _ _ _ _ _ Hst).
  - intros j m _ Hm. rewrite (st_slot _ _ _ _ _ Hst), decide_False; [done|]. by intros [-> ->].
Qed.

(** [y] linked at position [j] of level [i]. *)
Definition link L i j (y : nat) : nat → list nat :=
  λ i', if decide (i' = i) then insert_at j y (L i) else L i'.

Lemma elem_of_link L i j y i' n : n ∈ link L i j y i' ↔ n ∈ L i' ∨ i' = i ∧ n = y.
Proof. unfold link. case_decide as E; [subst; rewrite elem_of_insert_at|]; naive_solver. Qed.

Lemma level_NoDup s L i : shape s L → NoDup (head_ :: L i).
Proof.
  intros Hs. apply NoDup_cons. split; [by apply head_not_in with s|].
  eapply NoDup_fmap_1, ascending_NoDup, (sh_sorted _ _ Hs).
Qed.

Lemma link_links s s' L i j q y a n :
  shape s L → stored s s' q i (Some y) → (i < kMaxHeight_ s)%nat → (head_ :: L i) !! j = Some q →
  slot s y i = Some (L i !! j) → y ∉ head_ :: L i →
  (head_ :: insert_at j y (L i)) !! a = Some n → slot s' n i = Some (insert_at j y (L i) !! a).
Proof.
  intros Hs Hst Hi Hq Hy Hn Ha. pose proof (level_NoDup s L i Hs) as Hnd.
  assert (j ≤ length (L i))%nat as Hj by (apply lookup_lt_Some in Hq; cbn in Hq; lia).
  change (head_ :: insert_at j y (L i)) with (insert_at (S j) y (head_ :: L i)) in Ha.
  assert (∀ b z, (head_ :: L i) !! b = Some z → b ≠ j → slot s' z i = Some (L i !! b)) as Hother.
  { intros b z Hz Hbj. rewrite (st_slot _ _ _ _ _ Hst), decide_False; [by apply (sh_links _ _ Hs)|].
    intros [-> _]. apply Hbj. by eapply NoDup_lookup. }
  rewrite lookup_insert_at in Ha by (cbn; lia). rewrite lookup_insert_at by done.
  destruct (decide (a < S j)%nat).
  - destruct (decide (a = j)) as [->|].
    + assert (n = q) as -> by congruence. rewrite decide_False by lia.
      by rewrite (st_slot _ _ _ _ _ Hst), decide_True.
    + rewrite decide_True by lia. apply Hother; [done|lia].
  - rewrite (decide_False (P := (a < j)%nat)), (decide_False (P := a = j)) by lia.
    destruct (decide (a = S j)) as [->|].
    + injection Ha as <-. rewrite (st_slot _ _ _ _ _ Hst), decide_False; [by replace (S j - 1)%nat with j by lia|].
      intros [-> _]. apply Hn. by eapply list_elem_of_lookup_2.
    + apply Hother; [done|lia].
Qed.

Lemma shape_link s s' L i j q y k :
  shape s L → stored s s' q i (Some y) → (head_ :: L i) !! j = Some q →
  slot s y i = Some (L i !! j) → key_of s y = Some k → y ∉ L i → (i < max_height_ s)%nat →
  (i = 0%nat ∨ y ∈ L (i - 1)%nat) → left s L k i q → (∀ m, L i !! j = Some m → rank k < rank_of s m) →
  shape s' (link L i j y).
Proof.
  intros Hs Hst Hq Hy Hk Hn Hi Hsub Hleft Hright. pose proof (sh_bound _ _ Hs) as Hb.
  assert (∀ n, rank_of s' n = rank_of s n) as Hrank.
  { intros n. unfold rank_of. by rewrite (st_key _ _ _ _ _ Hst). }
  assert (rank_of s y = rank k) as Hyk by (unfold rank_of; by rewrite Hk).
  assert (y ≠ head_) as Hyh by (intros ->; by rewrite (sh_head _ _ Hs) in Hk).
  assert (j ≤ length (L i))%nat as Hj by (apply lookup_lt_Some in Hq; cbn in Hq; lia).
  pose proof (sh_sorted _ _ Hs i) as Ha.
  split.
  - rewrite (st_max _ _ _ _ _ Hst), (st_height _ _ _ _ _ Hst). done.
  - intros i'. rewrite (st_height _ _ _ _ _ Hst). intros Hi'. unfold link.
    rewrite decide_False by lia. by apply (sh_top _ _ Hs).
  - rewrite (st_key _ _ _ _ _ Hst). apply (sh_head _ _ Hs).
  - intros i' a n. rewrite (st_max _ _ _ _ _ Hst). intros Hi'. unfold link. case_decide as E.
    + subst i'. apply (link_links s s' L i j q); try done. by intros [->|?]%elem_of_cons.
    + intros Hn'. rewrite (st_slot _ _ _ _ _ Hst), decide_False by naive_solver. by apply (sh_links _ _ Hs).
  - intros n. rewrite elem_of_link, (st_key _ _ _ _ _ Hst). intros [Hn'|[_ ->]]; [by apply (sh_keys _ _ Hs)|by rewrite Hk].
  - intros i'. apply (ascending_ext (rank_of s)); [done|]. unfold link.
    case_decide; [|apply (sh_sorted _ _ Hs)]. apply ascending_insert_at; [done| |rewrite Hyk; done].
    intros a z Haj Hz. rewrite Hyk. by apply (before_left s L Hs k i j q a z).
  - intros i' n. rewrite !elem_of_link. intros [Hn'|[Ei ->]].
    + left. by apply (sh_sub _ _ Hs).
    + left. destruct Hsub as [->|Hsub]; [lia|]. by replace i' with (i - 1)%nat by lia.
Qed.

(** Overwriting a linked key by one that compares equal. *)
Definition set_key s n (k : K) : t :=
  set_heap s (alter (λ nd, MkNode (Some k) (next_ nd)) n (heap s)).

Lemma lookup_set_key s n k m :
  heap (set_key s n k) !! m =
  if decide (m = n) then (λ nd, MkNode (Some k) (next_ nd)) <$> heap s !! m else heap s !! m.
Proof.
  cbn. case_decide as E; [subst; apply list_lookup_alter_eq|apply list_lookup_alter_ne; naive_solver].
Qed.

Lemma slot_set_key s n k m i : slot (set_key s n k) m i = slot s m i.
Proof. unfold slot. rewrite lookup_set_key. case_decide; [|done]. by destruct (heap s !! m). Qed.

Lemma key_of_set_key s n k m :
  is_Some (key_of s n) → key_of (set_key s n k) m = if decide (m = n) then Some k else key_of s m.
Proof.
  intros [y Hy]. unfold key_of in *. rewrite lookup_set_key. case_decide; [|done]. subst.
  by destruct (heap s !! n).
Qed.

Lemma set_key_shape s L n k j :
  shape s L → L 0%nat !! j = Some n → rank k = rank_of s n →
  shape (set_key s n k) L ∧ contents (set_key s n k) = <[j := k]> (contents s).
Proof.
  intros Hs Hj Hr. pose proof (list_elem_of_lookup_2 _ _ _ Hj) as Hn. pose proof (sh_keys _ _ Hs) as Hkeys.
  pose proof (sh_bound _ _ Hs). assert (shape (set_key s n k) L) as Hs'.
  { apply (shape_rank s _ L Hs); [done|cbn; lia| | |intros; apply slot_set_key].
    - rewrite key_of_set_key by auto. rewrite decide_False; [apply (sh_head _ _ Hs)|].
      intros <-. by apply (head_not_in s L Hs 0).
    - intros m Hm. unfold rank_of at 1. rewrite key_of_set_key by auto. case_decide; [subst|]; auto. }
  split; [done|]. rewrite (contents_shape _ L Hs'), (contents_shape s L Hs).
  assert (∀ m, m ∈ L 0%nat → is_Some (key_of (set_key s n k) m)) as Hkeys' by apply (sh_keys _ _ Hs').
  apply list_eq. intros a. rewrite lookup_keys by done. destruct (decide (a = j)) as [->|Ha].
  - rewrite Hj. cbn. rewrite key_of_set_key, decide_True by auto.
    rewrite list_lookup_insert_eq; [done|]. destruct (Hkeys n Hn) as [y Hy]. apply (lookup_lt_Some _ _ y).
    by rewrite lookup_keys, Hj by done.
  - rewrite list_lookup_insert_ne, lookup_keys by done. destruct (L 0%nat !! a) as [m|] eqn:Em; [|done]. cbn.
    rewrite key_of_set_key, decide_False by auto || (intros ->; apply Ha; by eapply ascending_inj; [apply (sh_sorted _ _ Hs)|..]).
    done.
Qed.

End shape.
