(* ===== verification/SkipListThreads.v ===== *)
(** * Threads that use the inline skip list together

    Threads interleave one shared access at a time ([sys_step]): a load of
    [max_height_] may see any height the list has had, a weak
    compare-exchange may fail for no reason, and the height of a new node is
    any that [RandomHeight] draws.  [thread_ok] says what a thread knows of
    the list at each access and is kept by the steps of the other threads;
    [step_spec] shows that a step never fails, keeps the shape, and takes
    effect on the sorted list of keys at one moment: the compare-exchange of
    level 0 for an insert, the last read for a search. *)
From S2P Require Import Prelude RandomGen InlineSkipList SkipListShape.
Import InlineSkipList.

Section threads.
Context {K : Type} `{!Comparator K}.
Implicit Types (s : t (K:=K)) (L : nat → list nat) (k : K) (th : thread (K:=K)) (f : frame (K:=K)).

(** ** The system and the object it implements *)

Definition legal (c : choice (K:=K)) s : Prop :=
  (1 ≤ c_height c ≤ kMaxHeight_ s)%nat ∧ (1 ≤ c_load c ≤ max_height_ s)%nat.

Record sys := MkSys { list_ : t (K:=K); threads : list (thread (K:=K)) }.

Inductive sys_step : sys → sys → Prop :=
| sys_step_thread S i th c th' s' :
    threads S !! i = Some th → legal c (list_ S) → step c (list_ S) th = Ok (th', s') →
    sys_step S (MkSys s' (<[i := th']> (threads S))).

(** The sorted list as an atomic object: a call is pending, takes effect once,
    and returns what it then decided. *)
Inductive reply := ReplySeek (key : option K) | ReplyInsert (inserted : bool).
Inductive status := Quiet | Pending (c : call (K:=K)) | Decided (c : call (K:=K)) (r : reply).

Definition apply_call (c : call (K:=K)) (l : list K) : reply * list K :=
  match c with
  | CallSeek k => (ReplySeek (sorted_seek l k), l)
  | CallInsert k => let '(b, l) := sorted_insert l k in (ReplyInsert b, l)
  end.

Inductive call_step : list K * status → list K * status → Prop :=
| call_invoke l c : call_step (l, Quiet) (l, Pending c)
| call_commit l c r l' : apply_call c l = (r, l') → call_step (l, Pending c) (l', Decided c r)
| call_return l c r : call_step (l, Decided c r) (l, Quiet).

Inductive object_step : list K * list status → list K * list status → Prop :=
| object_step_thread l sts i st l' st' :
    sts !! i = Some st → call_step (l, st) (l', st') → object_step (l, sts) (l', <[i := st']> sts).

(** What a thread's call has come to. *)
Definition status_of s th : status :=
  match th with
  | Idle _ => Quiet
  | SeekLoad _ k | SeekAt _ k _ _ _ => Pending (CallSeek k)
  | SeekDone _ k n => Decided (CallSeek k) (ReplySeek (n ≫= key_of s))
  | InsertLoad _ k | InsertRaise _ k _ _ => Pending (CallInsert k)
  | SpliceAt f _ _ _ => Pending (CallInsert (f_key f))
  | LinkAt f i | RetryAt f i _ =>
      if (i =? 0)%nat then Pending (CallInsert (f_key f))
      else Decided (CallInsert (f_key f)) (ReplyInsert true)
  | InsertDone _ k b => Decided (CallInsert k) (ReplyInsert b)
  end.

Definition abs (S : sys) : list K * list status := (contents (list_ S), status_of (list_ S) <$> threads S).

(** ** What a thread knows *)

(** The node a thread has allocated and not yet linked everywhere, and the
    number of levels that link it. *)
Definition owns th : ptr :=
  match th with
  | Idle raw | SeekLoad raw _ | SeekAt raw _ _ _ _ | SeekDone raw _ _ => raw
  | InsertLoad y _ | InsertRaise y _ _ _ => Some y
  | SpliceAt f _ _ _ | LinkAt f _ | RetryAt f _ _ => Some (f_x f)
  | InsertDone y _ b => if b then None else Some y
  end.

Definition linked th : nat := match th with LinkAt _ i | RetryAt _ i _ => i | _ => 0%nat end.

Definition own_ok s L (y m : nat) : Prop :=
  (∃ k, key_of s y = Some k) ∧ (∃ h, height_of s y = Some h ∧ (1 ≤ h ≤ kMaxHeight_ s)%nat) ∧
  ∀ i, y ∈ L i ↔ (i < m)%nat.

Definition splice_ok s L f (j : nat) : Prop := ∃ p n,
  prev_ (f_splice f) !! j = Some (Some p) ∧ splice_next_ (f_splice f) !! j = Some n ∧
  left s L (f_key f) j p ∧ right s L (f_key f) j n.

Record frame_ok s f : Prop := {
  fr_key : key_of s (f_x f) = Some (f_key f);
  fr_tall : height_of s (f_x f) = Some (f_height f);
  fr_height : (1 ≤ f_height f ≤ height_ (f_splice f))%nat ∧ (height_ (f_splice f) ≤ max_height_ s)%nat;
  fr_prev : length (prev_ (f_splice f)) = kMaxPossibleHeight;
  fr_next : length (splice_next_ (f_splice f)) = kMaxPossibleHeight;
  fr_top : prev_ (f_splice f) !! height_ (f_splice f) = Some (Some head_) ∧
           splice_next_ (f_splice f) !! height_ (f_splice f) = Some None }.

Definition pc_ok s L th : Prop :=
  match th with
  | Idle _ | SeekLoad _ _ | InsertDone _ _ _ => True
  | SeekAt _ k y level lb => find_inv s L k (y, level, lb)
  | SeekDone _ _ r => ∀ n, r = Some n → n ∈ L 0%nat
  | InsertLoad y k => key_of s y = Some k
  | InsertRaise y k h mh => key_of s y = Some k ∧ height_of s y = Some h ∧ (mh < h)%nat
  | SpliceAt f i before after =>
      frame_ok s f ∧ (i < height_ (f_splice f))%nat ∧ left s L (f_key f) i before ∧
      right s L (f_key f) 0 after ∧ ∀ j, (i < j < f_height f)%nat → splice_ok s L f j
  | LinkAt f i =>
      frame_ok s f ∧ (i < f_height f)%nat ∧ ∀ j, (i ≤ j < f_height f)%nat → splice_ok s L f j
  | RetryAt f i before =>
      frame_ok s f ∧ (i < f_height f)%nat ∧ left s L (f_key f) i before ∧
      ∀ j, (i < j < f_height f)%nat → splice_ok s L f j
  end.

Definition thread_ok s L th : Prop :=
  (∀ y, owns th = Some y → own_ok s L y (linked th)) ∧ pc_ok s L th.

(** ** What the steps of the owner of [o] leave to the others *)

Record evolves s L s' L' (o : ptr) : Prop := {
  ev_max : kMaxHeight_ s' = kMaxHeight_ s;
  ev_height : (max_height_ s ≤ max_height_ s')%nat;
  ev_sub i n : n ∈ L i → n ∈ L' i;
  ev_new i n : n ∈ L' i → n ∈ L i ∨ o = Some n;
  ev_key n k : key_of s n = Some k → n ∈ L 0%nat ∨ o ≠ Some n → key_of s' n = Some k;
  ev_tall n h : height_of s n = Some h → height_of s' n = Some h }.

Lemma evolves_refl s L o : evolves s L s L o.
Proof. split; auto. Qed.

Section stable.
Context s L s' L' o (Hs : shape s L) (Hev : evolves s L s' L' o).

Lemma rank_stable n : n ∈ L 0%nat → rank_of s' n = rank_of s n.
Proof using Hs Hev.
  intros Hn. destruct (sh_keys _ _ Hs n Hn) as [k Hk]. unfold rank_of.
  by rewrite Hk, (ev_key _ _ _ _ _ Hev n k Hk (or_introl Hn)).
Qed.

Lemma left_stable k i n : left s L k i n → left s' L' k i n.
Proof using Hs Hev.
  intros [->|[Hn Hk]]; [by left|right]. split; [by apply (ev_sub _ _ _ _ _ Hev)|].
  rewrite rank_stable; [done|]. by apply (sub_0 s L Hs i).
Qed.

Lemma right_stable k i p : right s L k i p → right s' L' k i p.
Proof using Hs Hev.
  intros Hr m Hm. destruct (Hr m Hm) as [Hin Hk]. split; [by apply (ev_sub _ _ _ _ _ Hev)|].
  rewrite rank_stable; [done|]. by apply (sub_0 s L Hs i).
Qed.

Lemma find_stable k st : find_inv s L k st → find_inv s' L' k st.
Proof using Hs Hev.
  destruct st as [[y level] lb]. intros (Hl & Hi & Hb). cbn. rewrite (ev_max _ _ _ _ _ Hev).
  split; [by apply left_stable|]. split; [done|]. intros b Eb. destruct (Hb b Eb) as [Hin Hk].
  split; [by apply (ev_sub _ _ _ _ _ Hev)|]. by rewrite rank_stable.
Qed.

Lemma splice_stable f j : splice_ok s L f j → splice_ok s' L' f j.
Proof using Hs Hev.
  intros (p & n & ? & ? & ? & ?). exists p, n. split_and!; [done|done|by apply left_stable|by apply right_stable].
Qed.

Lemma frame_stable f : o ≠ Some (f_x f) → frame_ok s f → frame_ok s' f.
Proof using Hev.
  intros Ho [H1 H2 H3 H4 H5 H6]. pose proof (ev_height _ _ _ _ _ Hev). split; [|by apply (ev_tall _ _ _ _ _ Hev)|lia|done|done|done].
  apply (ev_key _ _ _ _ _ Hev); [done|by right].
Qed.

Lemma own_stable y m : o ≠ Some y → own_ok s L y m → own_ok s' L' y m.
Proof using Hev.
  intros Ho ([k Hk] & (h & Hh & Hb) & HL). split; [|split].
  - exists k. apply (ev_key _ _ _ _ _ Hev); [done|by right].
  - exists h. rewrite (ev_max _ _ _ _ _ Hev). split; [by apply (ev_tall _ _ _ _ _ Hev)|done].
  - intros i. rewrite <- HL. split; [|apply (ev_sub _ _ _ _ _ Hev)].
    intros Hi. by destruct (ev_new _ _ _ _ _ Hev i y Hi).
Qed.

Lemma thread_stable th :
  (∀ y, owns th = Some y → o ≠ Some y) → thread_ok s L th → thread_ok s' L' th ∧ status_of s' th = status_of s th.
Proof using Hs Hev.
  intros Ho [Hown Hpc]. split; [split|].
  - intros y Hy. apply own_stable; [by apply Ho|by apply Hown].
  - pose proof (splice_stable) as Hsp. pose proof left_stable. pose proof right_stable.
    destruct th; cbn in *; try done.
    + exact (find_stable _ (_, _, _) Hpc).
    + intros n Hn. by apply (ev_sub _ _ _ _ _ Hev), Hpc.
    + apply (ev_key _ _ _ _ _ Hev); [done|right; by apply Ho].
    + destruct Hpc as (? & ? & ?). split; [|by split; [apply (ev_tall _ _ _ _ _ Hev)|]].
      apply (ev_key _ _ _ _ _ Hev); [done|right; by apply Ho].
    + destruct Hpc as (? & ? & ? & ? & ?). split_and!; auto. by apply frame_stable; [apply Ho|].
    + destruct Hpc as (? & ? & ?). split_and!; auto. by apply frame_stable; [apply Ho|].
    + destruct Hpc as (? & ? & ? & ?). split_and!; auto. by apply frame_stable; [apply Ho|].
  - destruct th as [| | |? ? [n|]| | | | | |]; try done. cbn in *.
    specialize (Hpc n eq_refl). destruct (sh_keys _ _ Hs n Hpc) as [k Hk].
    by rewrite Hk, (ev_key _ _ _ _ _ Hev n k Hk (or_introl Hpc)).
Qed.
End stable.

(** ** One step *)

(** What a step of a thread establishes. *)
Definition step_ok s L th th' s' : Prop := ∃ L' o,
  shape s' L' ∧ thread_ok s' L' th' ∧ evolves s L s' L' o ∧
  (∀ y, o = Some y → owns th = Some y ∨ heap s !! y = None) ∧ (owns th' = o ∨ owns th' = None) ∧
  (contents s' = contents s ∧ status_of s' th' = status_of s th ∨
   call_step (contents s, status_of s th) (contents s', status_of s' th')).

(** A step that writes nothing. *)
Lemma step_ok_read s L th th' :
  shape s L → thread_ok s L th' → owns th' = owns th ∨ owns th' = None →
  status_of s th' = status_of s th ∨ call_step (contents s, status_of s th) (contents s, status_of s th') →
  step_ok s L th th' s.
Proof.
  intros Hs Hok Ho Hst. exists L, (owns th). split_and!; [done|done|apply evolves_refl|auto|done|].
  destruct Hst; auto.
Qed.

(** *** Allocation *)

(** A node outside every level is given a key. *)
Lemma alloc_ok s L th y k ns h' :
  let s' := set_heap s h' in
  shape s L → (∀ n, n ≠ y → is_Some (heap s !! n) → h' !! n = heap s !! n) →
  h' !! y = Some (MkNode (Some k) ns) → (1 ≤ length ns ≤ kMaxHeight_ s)%nat →
  (∀ i, y ∉ head_ :: L i) → (∀ h, height_of s y = Some h → h = length ns) →
  (owns th = Some y ∨ heap s !! y = None) → status_of s th = Quiet →
  step_ok s L th (InsertLoad y k) s'.
Proof.
  intros s' Hs Hold Hy Hns Hout Htall Howns Hquiet. pose proof (sh_bound _ _ Hs) as Hb.
  assert (∀ n z, n ≠ y → key_of s n = Some z → key_of s' n = Some z) as Hkey.
  { intros n z Hn Hz. unfold key_of in *. cbn. rewrite Hold; [done|done|]. by destruct (heap s !! n). }
  assert (∀ n, n ∈ L 0%nat → key_of s' n = key_of s n) as Hkeys.
  { intros n Hn. destruct (sh_keys _ _ Hs n Hn) as [z Hz]. rewrite Hz. apply Hkey; [|done].
    intros ->. by apply (Hout 0%nat), list_elem_of_further. }
  assert (∀ i n, (i < kMaxHeight_ s)%nat → n ∈ head_ :: L i → heap s' !! n = heap s !! n) as Hheap.
  { intros i n Hi Hn. apply Hold; [by intros ->; apply (Hout i)|]. apply list_elem_of_lookup in Hn as [j Hj].
    pose proof (sh_links _ _ Hs i j n Hi Hj) as Hl. unfold slot in Hl. by destruct (heap s !! n). }
  assert (shape s' L) as Hs'.
  { apply (shape_ext s s' L Hs); [done|cbn; lia| |done|].
    - unfold key_of. rewrite (Hheap 0%nat); [apply (sh_head _ _ Hs)|lia|apply list_elem_of_here].
    - intros i n Hi Hn. unfold slot. by rewrite (Hheap i). }
  exists L, (Some y). split_and!; [done| | |by intros ? [= <-]|by left|right].
  - split; [|cbn; unfold key_of; cbn; by rewrite Hy]. intros ? [= <-]. split; [|split].
    + exists k. unfold key_of. cbn. by rewrite Hy.
    + exists (length ns). unfold height_of. cbn. by rewrite Hy.
    + intros i. cbn. split; [|lia]. intros Hi. destruct (Hout i). by apply list_elem_of_further.
  - split; [done|cbn; lia|done|auto| |].
    + intros n z Hz [Hn|Hn]; [by rewrite Hkeys|]. apply Hkey; [naive_solver|done].
    + intros n z Hz. destruct (decide (n = y)) as [->|Hn].
      * rewrite (Htall z Hz). unfold height_of. cbn. by rewrite Hy.
      * unfold height_of in *. cbn. rewrite Hold; [done|done|]. by destruct (heap s !! n).
  - rewrite Hquiet. assert (contents s' = contents s) as ->; [|constructor].
    rewrite (contents_shape s L), (contents_shape s' L) by done. by apply keys_ext.
Qed.

Lemma idle_step c s L raw :
  shape s L → legal c s → thread_ok s L (Idle raw) →
  ∃ th' s', step c s (Idle raw) = Ok (th', s') ∧ step_ok s L (Idle raw) th' s'.
Proof.
  intros Hs [Hh _] [Hown _]. destruct c as [[k|k] h load weak]; cbn in *.
  { eexists _, s. split; [done|]. apply step_ok_read; [done|done|by left|right; constructor]. }
  destruct raw as [y|]; cbn.
  - destruct (Hown y eq_refl) as ([z Hz] & (h' & Hh' & Hb) & HL). cbn in HL.
    destruct (heap s !! y) as [nd|] eqn:Hy; [|unfold key_of in Hz; by rewrite Hy in Hz].
    unfold at_index. rewrite Hy. cbn. eexists _, _. split; [done|].
    unfold height_of in Hh'. rewrite Hy in Hh'. injection Hh' as <-.
    apply (alloc_ok s L (Idle (Some y)) y k (next_ nd)); try done.
    + intros n Hn _. by apply list_lookup_insert_ne.
    + apply list_lookup_insert_eq. by eapply lookup_lt_Some.
    + intros i [E|Hi]%elem_of_cons; [rewrite E, (sh_head _ _ Hs) in Hz; done|]. apply HL in Hi. lia.
    + unfold height_of. rewrite Hy. naive_solver.
    + by left.
  - eexists _, _. split; [done|]. pose proof (sh_bound _ _ Hs).
    assert (heap s !! length (heap s) = None) as Hfresh by (by apply lookup_ge_None).
    apply (alloc_ok s L (Idle None) _ k (replicate h None)); try done.
    + intros n _ Hn. by apply lookup_app_l, lookup_lt_is_Some_1.
    + by rewrite lookup_app_r, Nat.sub_diag.
    + by rewrite length_replicate.
    + intros i [E|Hi]%elem_of_cons.
      * pose proof (sh_links _ _ Hs 0 0 head_ ltac:(lia) eq_refl) as Hl. unfold slot in Hl. by rewrite <- E, Hfresh in Hl.
      * destruct (sh_keys _ _ Hs _ (sub_0 s L Hs i _ Hi)) as [z Hz]. unfold key_of in Hz. by rewrite Hfresh in Hz.
    + unfold height_of. by rewrite Hfresh.
    + by right.
Qed.

(** *** Searches *)

Lemma seek_step c s L raw k y level lb :
  shape s L → thread_ok s L (SeekAt raw k y level lb) →
  ∃ th' s', step c s (SeekAt raw k y level lb) = Ok (th', s') ∧ step_ok s L (SeekAt raw k y level lb) th' s'.
Proof.
  intros Hs [Hown Hpc]. destruct (find_body_spec s L Hs k (y, level, lb) Hpc) as (o & E & Ho).
  unfold step. rewrite E. cbn [mbind result_bind]. destruct o as [[[y' level'] lb']|n].
  - eexists _, s. split; [done|]. destruct Ho as [Ho _]. apply step_ok_read; [done|by split|by left|by left].
  - eexists _, s. split; [done|]. subst n. apply step_ok_read; [done|split; [done|]|by left|right].
    + intros n Hn. by apply (first_ge_in s L k).
    + apply call_commit. cbn. by rewrite (sorted_seek_contents s L).
Qed.

Lemma splice_body_spec s L k i after before :
  shape s L → (i < kMaxHeight_ s)%nat → left s L k i before → right s L k 0 after →
  ∃ o, splice_body s k i after before = Ok o ∧
  match o with
  | inl b => left s L k i b ∧ (ahead s L b < ahead s L before)%nat
  | inr (p, n) => p = before ∧ right s L k i n ∧ slot s p i = Some n
  end.
Proof.
  intros Hs Hi Hl Hr. destruct (Next_on s L Hs i before Hi (left_on s L k i before Hl)) as (j & Hj & E).
  unfold splice_body. rewrite E. cbn [mbind result_bind]. apply Next_slot in E.
  assert (∀ m, L i !! j = Some m → m ∈ L i) as Hin by (intros m; apply list_elem_of_lookup_2).
  destruct (decide _) as [<-|]; cbn [mbind result_bind].
  { eexists. split; [done|]. split_and!; [done| |done]. intros m Hm. split; [by apply Hin|by apply Hr]. }
  rewrite (KeyIsAfterNode_spec s L Hs k i) by done. cbn [mbind result_bind].
  destruct (L i !! j) as [m|] eqn:Em; [|by eexists].
  destruct (Z.ltb_spec (rank_of s m) (rank k)); eexists; (split; [done|]).
  - split; [right; auto|]. by eapply (step_ahead s L Hs i j).
  - split_and!; [done| |done]. intros ? [= <-]. split; [by apply Hin|done].
Qed.

(** *** Settling the height *)

(** A thread ready to go on with the insert of [k] in [y]. *)
Definition inserting s L y k th : Prop :=
  thread_ok s L th ∧ owns th = Some y ∧ status_of s th = Pending (CallInsert k).

Lemma recompute_spec s L y k h mh :
  shape s L → own_ok s L y 0 → key_of s y = Some k → height_of s y = Some h →
  (1 ≤ h ≤ mh)%nat → (mh ≤ max_height_ s)%nat →
  ∃ th, recompute y k h mh = Ok th ∧ inserting s L y k th.
Proof.
  intros Hs Hown Hk Hh Hmh Hmax. pose proof (sh_bound _ _ Hs) as Hb. unfold recompute.
  rewrite (proj2 (Nat.leb_le _ _)) by lia. cbn [require mbind result_bind].
  assert (mh < kMaxPossibleHeight)%nat as Hlt by lia.
  unfold set_splice, at_index. cbn [prev_ splice_next_ fresh_splice].
  rewrite !lookup_replicate_2 by done. cbn [mbind result_bind prev_ splice_next_].
  rewrite (proj2 (Nat.ltb_lt 0 mh)) by lia. cbn [require mbind result_bind].
  eexists. split; [done|]. split; [|done]. split; [by intros ? [= <-]|]. cbn.
  split_and!; [|lia|by left|done|].
  - split; cbn; [done|done|lia|by rewrite length_insert|by rewrite length_insert|].
    split; apply list_lookup_insert_eq; exact Hlt.
  - intros j Hj. lia.
Qed.

Lemma raise_spec s L y k h mh :
  shape s L → own_ok s L y 0 → key_of s y = Some k → height_of s y = Some h →
  (mh ≤ max_height_ s)%nat → ∃ th, raise y k h mh = Ok th ∧ inserting s L y k th.
Proof.
  intros Hs Hown Hk Hh Hmax. unfold raise. destruct (Nat.ltb_spec mh h).
  - eexists. split; [done|]. split; [|done]. split; [by intros ? [= <-]|done].
  - destruct Hown as (? & (h' & Hh' & Hb) & ?) eqn:E. assert (h' = h) as -> by congruence.
    apply (recompute_spec s L); try done. lia.
Qed.

Lemma step_ok_inserting s L th th' y k :
  shape s L → inserting s L y k th' → owns th = Some y → status_of s th = Pending (CallInsert k) →
  step_ok s L th th' s.
Proof.
  intros Hs (Hok & Ho & Hst) Hth Hst'. apply step_ok_read; [done|done|left; congruence|left; congruence].
Qed.

Lemma load_step c s L y k :
  shape s L → legal c s → thread_ok s L (InsertLoad y k) →
  ∃ th' s', step c s (InsertLoad y k) = Ok (th', s') ∧ step_ok s L (InsertLoad y k) th' s'.
Proof.
  intros Hs [_ Hload] [Hown Hk]. specialize (Hown y eq_refl). cbn in Hown, Hk.
  pose proof Hown as (_ & (h & Hh & Hb) & _). cbn [step]. unfold UnstashHeight, at_index.
  pose proof Hh as Hh'. unfold height_of in Hh'. destruct (heap s !! y) as [nd|]; [|done].
  injection Hh' as Eh. cbn [mbind result_bind]. rewrite Eh, !(proj2 (Nat.leb_le _ _)) by lia. cbn [andb require mbind result_bind].
  destruct (raise_spec s L y k h (c_load c)) as (th & -> & Hth); try done; [lia|].
  exists th, s. split; [done|]. by eapply step_ok_inserting.
Qed.

Lemma raise_step c s L y k h mh :
  shape s L → thread_ok s L (InsertRaise y k h mh) →
  ∃ th' s', step c s (InsertRaise y k h mh) = Ok (th', s') ∧ step_ok s L (InsertRaise y k h mh) th' s'.
Proof.
  intros Hs [Hown (Hk & Hh & Hlt)]. specialize (Hown y eq_refl). cbn in Hown. cbn [step].
  pose proof Hown as (_ & (h' & Hh' & Hb) & HL). assert (h' = h) as -> by congruence.
  destruct (c_weak c && (max_height_ s =? mh)%nat) eqn:E.
  2:{ destruct (raise_spec s L y k h (max_height_ s)) as (th & -> & Hth); try done.
      exists th, s. split; [done|]. by eapply step_ok_inserting. }
  apply andb_true_iff in E as [_ Em]. apply Nat.eqb_eq in Em.
  assert (shape (set_max s h) L) as Hs'.
  { apply (shape_ext s _ L Hs); [done|cbn; lia|apply (sh_head _ _ Hs)|done|done]. }
  destruct (recompute_spec (set_max s h) L y k h h) as (th & -> & Hok & Ho & Hst); try done; [cbn; lia|].
  exists th, (set_max s h). split; [done|]. exists L, (Some y).
  split_and!; [done|done| |by intros ? [= <-]; left|by left|left].
  - split; [done|cbn; lia|done|by left|done|done].
  - split; [|by rewrite Hst]. by rewrite (contents_shape _ L Hs'), (contents_shape s L Hs).
Qed.

(** *** Computing the splice *)

Lemma set_splice_spec sp i p n :
  (i < length (prev_ sp))%nat → (i < length (splice_next_ sp))%nat →
  set_splice sp i p n = Ok (MkSplice (height_ sp) (<[i := p]> (prev_ sp)) (<[i := n]> (splice_next_ sp))).
Proof.
  intros [? Hp]%lookup_lt_is_Some_2 [? Hn]%lookup_lt_is_Some_2. unfold set_splice, at_index. by rewrite Hp, Hn.
Qed.

(** The frame once level [i] of its splice is set to [p] and [n]. *)
Definition spliced f (i p : nat) (n : ptr) (valid : bool) : frame :=
  with_splice f (MkSplice (height_ (f_splice f)) (<[i := Some p]> (prev_ (f_splice f)))
    (<[i := n]> (splice_next_ (f_splice f)))) valid.

Lemma spliced_frame s f i p n v :
  frame_ok s f → (i < height_ (f_splice f))%nat → frame_ok s (spliced f i p n v).
Proof.
  intros [H1 H2 H3 H4 H5 [H6 H7]] Hi. split; cbn; [done|done|done|by rewrite length_insert|by rewrite length_insert|].
  by rewrite !list_lookup_insert_ne by lia.
Qed.

Lemma spliced_ok s L f i p n v j :
  shape s L → frame_ok s f → left s L (f_key f) i p → right s L (f_key f) i n →
  (i < height_ (f_splice f))%nat → (j ≠ i → splice_ok s L f j) → splice_ok s L (spliced f i p n v) j.
Proof.
  intros Hs Hf Hp Hn Hi Hj. pose proof (sh_bound _ _ Hs). pose proof (fr_height _ _ Hf).
  assert (i < length (prev_ (f_splice f)))%nat by (rewrite (fr_prev _ _ Hf); lia).
  assert (i < length (splice_next_ (f_splice f)))%nat by (rewrite (fr_next _ _ Hf); lia).
  destruct (decide (j = i)) as [->|Hji].
  - exists p, n. cbn. by rewrite !list_lookup_insert_eq by done.
  - destruct (Hj Hji) as (p' & n' & ? & ? & ? & ?). exists p', n'. cbn. by rewrite !list_lookup_insert_ne by done.
Qed.

Lemma set_splice_frame s L f i p n :
  shape s L → frame_ok s f → (i < height_ (f_splice f))%nat →
  set_splice (f_splice f) i (Some p) n = Ok (f_splice (spliced f i p n true)).
Proof.
  intros Hs Hf Hi. pose proof (sh_bound _ _ Hs). pose proof (fr_height _ _ Hf).
  pose proof (fr_prev _ _ Hf). pose proof (fr_next _ _ Hf). apply set_splice_spec; lia.
Qed.

Lemma splice_at_step c s L f i before after :
  shape s L → thread_ok s L (SpliceAt f i before after) →
  ∃ th' s', step c s (SpliceAt f i before after) = Ok (th', s') ∧ step_ok s L (SpliceAt f i before after) th' s'.
Proof.
  intros Hs [Hown (Hf & Hi & Hl & Hr & Hsp)]. pose proof (sh_bound _ _ Hs). pose proof (fr_height _ _ Hf).
  destruct (splice_body_spec s L (f_key f) i after before) as (o & E & Ho); try done; [lia|].
  cbn [step]. unfold splice_step. rewrite E. cbn [mbind result_bind]. destruct o as [b|[p n]].
  { eexists _, s. split; [done|]. destruct Ho as [Ho _]. apply step_ok_read; [done|by split|by left|by left]. }
  destruct Ho as (-> & Hn & _). rewrite (set_splice_frame s L) by done. cbn [mbind result_bind].
  pose proof (spliced_frame s f i before n (f_valid f) Hf Hi) as Hf'.
  assert (∀ j, (i ≤ j < f_height f)%nat → splice_ok s L (spliced f i before n (f_valid f)) j) as Hsp'.
  { intros j Hj. apply spliced_ok; try done. intros Hji. apply Hsp. lia. }
  destruct (Nat.eqb_spec i 0) as [->|Hi0]; cbn [mbind result_bind]; eexists _, s; (split; [done|]);
    (apply step_ok_read; [done|split; [done|]|by left|by left]).
  - split_and!; [done|cbn; lia|done].
  - split_and!; [done|cbn; lia|by apply (left_pred s L Hs)| |].
    + intros m Hm. destruct (Hn m Hm). split; [by apply (sub_0 s L Hs i)|done].
    + intros j Hj. apply Hsp'. cbn in *. lia.
Qed.

Lemma retry_at_step c s L f i before :
  shape s L → thread_ok s L (RetryAt f i before) →
  ∃ th' s', step c s (RetryAt f i before) = Ok (th', s') ∧ step_ok s L (RetryAt f i before) th' s'.
Proof.
  intros Hs [Hown (Hf & Hi & Hl & Hsp)]. pose proof (sh_bound _ _ Hs). pose proof (fr_height _ _ Hf).
  destruct (splice_body_spec s L (f_key f) i None before) as (o & E & Ho); try done; [lia|].
  cbn [step]. unfold retry_step. rewrite E. cbn [mbind result_bind]. destruct o as [b|[p n]].
  { eexists _, s. split; [done|]. destruct Ho as [Ho _]. apply step_ok_read; [done|by split|by left|by left]. }
  destruct Ho as (-> & Hn & _). rewrite (set_splice_frame s L) by (done || lia). cbn [mbind result_bind].
  eexists _, s. split; [done|]. apply step_ok_read; [done|split; [done|]|by left|by left].
  split_and!; [apply spliced_frame; [done|lia]|done|].
  intros j Hj. apply spliced_ok; try done; [lia|]. intros Hji. apply Hsp. cbn in *. lia.
Qed.

(** *** Linking *)

Lemma duplicate_spec s L f p n :
  shape s L → left s L (f_key f) 0 p → right s L (f_key f) 0 n →
  duplicate s f p n = Ok (match n with Some m => rank_of s m =? rank (f_key f) | None => false end).
Proof.
  intros Hs Hp Hn.
  assert (match n with None => Ok false | Some m => Key s m ≫= λ k, Ok (0 <=? compare (f_key f) k) end =
    Ok (match n with Some m => rank_of s m =? rank (f_key f) | None => false end)) as E.
  { destruct n as [m|]; [|done]. destruct (Hn m eq_refl) as [Hm Hle].
    destruct (key_rank s L Hs 0 m Hm) as (y & -> & Hy). cbn. f_equal. rewrite compare_ge, Hy.
    destruct (Z.leb_spec (rank_of s m) (rank (f_key f))), (Z.eqb_spec (rank_of s m) (rank (f_key f))); lia. }
  unfold duplicate. unfold ptr in *. rewrite E. cbn [mbind result_bind].
  destruct (match n with Some m => _ | None => false end); [done|].
  destruct (Nat.eqb_spec p head_); [done|]. destruct Hp as [|[Hp Hlt]]; [done|].
  destruct (key_rank s L Hs 0 p Hp) as (y & -> & Hy). cbn. f_equal. rewrite compare_ge. lia.
Qed.

Lemma finish_ok s f : frame_ok s f → finish f = Ok tt.
Proof.
  intros Hf. unfold finish. destruct (f_valid f); [|done]. destruct (fr_top _ _ Hf) as [Hp Hn].
  pose proof (fr_height _ _ Hf). unfold at_index, ptr in *. rewrite list_lookup_imap, Hp. cbn -[Nat.ltb].
  rewrite (proj2 (Nat.ltb_ge _ _)) by lia. cbn. by rewrite Hn.
Qed.

(** A store keeps what a frame says. *)
Lemma frame_stored s s' f n i v : stored s s' n i v → frame_ok s f → frame_ok s' f.
Proof.
  intros Hst [H1 H2 H3 H4 H5 H6].
  split; [by rewrite (st_key _ _ _ _ _ Hst)|by rewrite (st_tall _ _ _ _ _ Hst)|by rewrite (st_height _ _ _ _ _ Hst)|done|done|done].
Qed.

Lemma evolves_stored s s' L L' n i v o :
  stored s s' n i v → (∀ i n, n ∈ L i → n ∈ L' i) → (∀ i n, n ∈ L' i → n ∈ L i ∨ o = Some n) →
  evolves s L s' L' o.
Proof.
  intros Hst Hsub Hnew. split; [by rewrite (st_max _ _ _ _ _ Hst)|by rewrite (st_height _ _ _ _ _ Hst)|done|done| |].
  - intros m k Hk _. by rewrite (st_key _ _ _ _ _ Hst).
  - intros m h Hh. by rewrite (st_tall _ _ _ _ _ Hst).
Qed.

Lemma evolves_trans s1 L1 s2 L2 s3 L3 o :
  evolves s1 L1 s2 L2 o → evolves s2 L2 s3 L3 o → evolves s1 L1 s3 L3 o.
Proof.
  intros [a1 a2 a3 a4 a5 a6] [b1 b2 b3 b4 b5 b6]. split; [congruence|lia|auto| | |auto].
  - intros i n Hn. destruct (b4 i n Hn) as [Hn'|]; [|by right]. auto.
  - intros n k Hk Hn. apply b5; [by apply a5|]. destruct Hn; auto.
Qed.

Lemma own_stored s s' L L' y m m' n i v :
  stored s s' n i v → own_ok s L y m → (∀ i, y ∈ L' i ↔ (i < m')%nat) → own_ok s' L' y m'.
Proof.
  intros Hst ([k Hk] & (h & Hh & Hb) & _) HL. split; [|split; [|done]].
  - exists k. by rewrite (st_key _ _ _ _ _ Hst).
  - exists h. by rewrite (st_tall _ _ _ _ _ Hst), (st_max _ _ _ _ _ Hst).
Qed.

(** A new key takes its place in the contents. *)
Lemma contents_link s s' L j p y k :
  shape s L → shape s' (link L 0 j y) → (∀ n, key_of s' n = key_of s n) → key_of s y = Some k →
  (head_ :: L 0%nat) !! j = Some p → left s L k 0 p → (∀ m, L 0%nat !! j = Some m → rank k < rank_of s m) →
  sorted_insert (contents s) k = (true, contents s').
Proof.
  intros Hs Hs' Hkey Hk Hp Hleft Hright. pose proof (sh_keys _ _ Hs) as Hks.
  rewrite (contents_shape s L Hs), (contents_shape s' _ Hs').
  rewrite (keys_ext s s') by (intros n _; apply Hkey). unfold link. rewrite decide_True by done.
  rewrite (keys_insert_at s (L 0%nat) j y k Hk Hks).
  assert (∀ a z, keys s (L 0%nat) !! a = Some z → ∃ n, L 0%nat !! a = Some n ∧ rank_of s n = rank z) as Hat.
  { intros a z. rewrite lookup_keys by done. intros (n & Hn & Hz)%bind_Some. exists n. split; [done|].
    unfold rank_of. by rewrite Hz. }
  apply sorted_insert_at.
  - intros a z Ha Hz. destruct (Hat a z Hz) as (n & Hn & <-). by eapply (before_left s L Hs k 0 j p a n).
  - intros z Hz. destruct (Hat j z Hz) as (n & Hn & <-). by apply Hright.
  - apply lookup_lt_Some in Hp. cbn in Hp. rewrite <- (contents_shape s L Hs), (length_contents s L Hs). lia.
Qed.

Lemma CASNext_spec s n i cur expected v :
  slot s n i = Some cur →
  (cur ≠ expected ∧ CASNext s n i expected v = Ok (false, s)) ∨
  (cur = expected ∧ ∃ s', CASNext s n i expected v = Ok (true, s') ∧ stored s s' n i v).
Proof.
  intros Hc. unfold CASNext. rewrite (proj2 (Next_slot s n i cur) Hc). cbn [mbind result_bind].
  destruct (decide _) as [E|E]; [right|by left]. split; [done|].
  destruct (SetNext_spec s n i v) as (s' & -> & Hst); [by rewrite Hc|]. by exists s'.
Qed.

(** After a lost race the level is searched again. *)
Lemma link_lost s s1 L f i p n :
  shape s L → thread_ok s L (LinkAt f i) → left s L (f_key f) i p →
  stored s s1 (f_x f) i n → f_x f ∉ head_ :: L i →
  step_ok s L (LinkAt f i) (RetryAt f i p) s1.
Proof.
  intros Hs [Hown (Hf & Hi & Hsp)] Hp Hst Hx. specialize (Hown _ eq_refl).
  pose proof (shape_store s s1 L _ _ _ Hs Hst Hx) as Hs1.
  assert (evolves s L s1 L (Some (f_x f))) as Hev by (eapply evolves_stored; [done|auto|auto]).
  exists L, (Some (f_x f)). split_and!; [done| |done|by left|by left|left].
  - split; [intros ? [= <-]; apply (own_stored s s1 L L _ i _ _ _ _ Hst Hown), Hown|].
    split_and!; [by apply (frame_stored s s1 f _ _ _ Hst)|done|by apply (left_stable _ _ _ _ _ Hs Hev)|].
    intros j Hj. apply (splice_stable _ _ _ _ _ Hs Hev), Hsp. cbn in *. lia.
  - split; [|done]. rewrite (contents_shape s L Hs), (contents_shape s1 L Hs1).
    apply keys_ext. intros m _. apply (st_key _ _ _ _ _ Hst).
Qed.

(** After a won race the node is on one more level. *)
Lemma link_won s s1 s2 L f i j p th' :
  shape s L → thread_ok s L (LinkAt f i) → left s L (f_key f) i p → (head_ :: L i) !! j = Some p →
  (∀ m, L i !! j = Some m → rank (f_key f) < rank_of s m) →
  stored s s1 (f_x f) i (L i !! j) → stored s1 s2 p i (Some (f_x f)) →
  th' = (if (S i <? f_height f)%nat then LinkAt f (S i) else InsertDone (f_x f) (f_key f) true) →
  step_ok s L (LinkAt f i) th' s2.
Proof.
  intros Hs [Hown (Hf & Hi & Hsp)] Hp Hj Hlt Hst1 Hst2 Hth. specialize (Hown _ eq_refl). cbn in Hown.
  pose proof Hown as (_ & _ & HL). pose proof (fr_height _ _ Hf) as Hh. set (y := f_x f) in *.
  assert (∀ n, key_of s2 n = key_of s n) as Hkey.
  { intros n. by rewrite (st_key _ _ _ _ _ Hst2), (st_key _ _ _ _ _ Hst1). }
  assert (y ∉ head_ :: L i) as Hx.
  { intros [E|Hy]%elem_of_cons; [|apply HL in Hy; lia].
    pose proof (fr_key _ _ Hf) as Hk. fold y in Hk. by rewrite E, (sh_head _ _ Hs) in Hk. }
  pose proof (shape_store s s1 L _ _ _ Hs Hst1 Hx) as Hs1.
  assert (shape s2 (link L i j y)) as Hs2.
  { apply (shape_link s1 s2 L i j p y (f_key f)); try done.
    - rewrite (st_slot _ _ _ _ _ Hst1). by rewrite decide_True.
    - rewrite (st_key _ _ _ _ _ Hst1). apply (fr_key _ _ Hf).
    - intros ?. by apply Hx, list_elem_of_further.
    - rewrite (st_height _ _ _ _ _ Hst1). lia.
    - destruct i; [by left|right]. apply HL. lia.
    - destruct Hp as [->|[? ?]]; [by left|right]. unfold rank_of in *. by rewrite (st_key _ _ _ _ _ Hst1).
    - intros m Hm. unfold rank_of in *. rewrite (st_key _ _ _ _ _ Hst1). auto. }
  assert (evolves s L s2 (link L i j y) (Some y)) as Hev.
  { eapply evolves_trans; [apply (evolves_stored s s1 L L _ _ _ _ Hst1); auto|].
    apply (evolves_stored _ _ _ _ _ _ _ _ Hst2).
    - intros i' n Hn. apply elem_of_link. by left.
    - intros i' n [Hn|[_ ->]]%elem_of_link; auto. }
  assert (∀ i', y ∈ link L i j y i' ↔ (i' < S i)%nat) as HL'.
  { intros i'. rewrite elem_of_link, HL. lia. }
  exists (link L i j y), (Some y). subst th'.
  split_and!; [done| |done|by left|by destruct (S i <? f_height f)%nat; [left|right]|].
  - destruct (Nat.ltb_spec (S i) (f_height f)); [|done]. split.
    + intros ? [= <-]. cbn. eapply own_stored; [done|by eapply (own_stored s s1 L L _ i _ _ _ _ Hst1 Hown)|done].
    + split_and!; [by apply (frame_stored s1 s2 f _ _ _ Hst2), (frame_stored s s1 f _ _ _ Hst1)|done|].
      intros j' Hj'. apply (splice_stable _ _ _ _ _ Hs Hev), Hsp. lia.
  - assert (status_of s2 (if (S i <? f_height f)%nat then LinkAt f (S i) else InsertDone y (f_key f) true) =
      Decided (CallInsert (f_key f)) (ReplyInsert true)) as -> by (by destruct (S i <? f_height f)%nat).
    destruct i as [|i]; cbn [status_of Nat.eqb]; [right|left].
    + apply call_commit. cbn. by rewrite (contents_link s s2 L j p y (f_key f) Hs Hs2 Hkey (fr_key _ _ Hf) Hj Hp Hlt).
    + split; [|done]. rewrite (contents_shape s L Hs), (contents_shape s2 _ Hs2).
      unfold link. rewrite decide_False by done. apply keys_ext. intros m _. apply Hkey.
Qed.

Lemma link_at_step c s L f i :
  shape s L → thread_ok s L (LinkAt f i) →
  ∃ th' s', step c s (LinkAt f i) = Ok (th', s') ∧ step_ok s L (LinkAt f i) th' s'.
Proof.
  intros Hs Hth. pose proof Hth as [Hown (Hf & Hi & Hsp)]. specialize (Hown _ eq_refl). cbn in Hown.
  pose proof Hown as ([k Hk] & (h & Hh & _) & HL). pose proof (fr_height _ _ Hf). pose proof (sh_bound _ _ Hs).
  destruct (Hsp i ltac:(lia)) as (p & n & Ep & En & Hp & Hn).
  cbn [step]. unfold link_step, at_index. unfold ptr in *. rewrite Ep, En. cbn [mbind result_bind].
  assert ((if (i =? 0)%nat then duplicate s f p n else Ok false) =
    Ok ((i =? 0)%nat && match n with Some m => rank_of s m =? rank (f_key f) | None => false end)) as ->.
  { destruct (Nat.eqb_spec i 0) as [->|]; [|done]. by apply (duplicate_spec s L). }
  cbn [mbind result_bind].
  destruct ((i =? 0)%nat && match n with Some m => rank_of s m =? rank (f_key f) | None => false end) eqn:Ed.
  { apply andb_true_iff in Ed as [->%Nat.eqb_eq Ed]. destruct n as [m|]; [|done]. apply Z.eqb_eq in Ed.
    destruct (Hn m eq_refl) as [Hm _]. destruct (sh_keys _ _ Hs m Hm) as [y Hy].
    eexists _, s. split; [done|]. apply step_ok_read; [done|by split; [intros ? [= <-]|]|by left|right].
    apply call_commit. cbn. rewrite (sorted_insert_dup _ _ y); [done|by eapply contents_ascending| |].
    - rewrite (contents_shape s L Hs). apply list_elem_of_omap. by exists m.
    - unfold rank_of in Ed. by rewrite Hy in Ed. }
  assert (f_x f ∉ L i) as Hx by (rewrite HL; lia).
  assert (∀ m, n = Some m → rank (f_key f) < rank_of s m) as Hlt.
  { intros m Em. destruct (Hn m Em) as [Hm Hle]. destruct (decide (rank_of s m = rank (f_key f))) as [E|]; [|lia].
    subst n. rewrite (proj2 (Z.eqb_eq _ _) E), andb_true_r in Ed. apply Nat.eqb_neq in Ed. destruct Hx.
    assert (f_x f = m) as ->; [|done]. apply (rank_inj s L Hs); [apply HL; lia|by apply (sub_0 s L Hs i)|].
    rewrite E. unfold rank_of. by rewrite (fr_key _ _ Hf). }
  assert (f_x f ∉ head_ :: L i) as Hx'.
  { intros [E|]%elem_of_cons; [|done]. by rewrite E, (sh_head _ _ Hs) in Hk. }
  destruct (SetNext_spec s (f_x f) i n) as (s1 & -> & Hst1); [eapply slot_height; [apply (fr_tall _ _ Hf)|done]|].
  cbn [mbind result_bind].
  destruct (Next_on s L Hs i p) as (j & Hj & Hnext); [lia|by eapply left_on|]. apply Next_slot in Hnext.
  destruct (CASNext_spec s1 p i (L i !! j) n (Some (f_x f))) as [[_ ->]|[<- (s2 & -> & Hst2)]].
  { rewrite (st_slot _ _ _ _ _ Hst1), decide_False; [done|]. intros [-> _].
    apply Hx'. by eapply list_elem_of_lookup_2. }
  - cbn [mbind result_bind]. eexists _, s1. split; [done|]. by eapply link_lost.
  - cbn [mbind result_bind]. rewrite (finish_ok s f Hf). cbn [mbind result_bind].
    eexists (if (S i <? f_height f)%nat then _ else _), s2. split; [by destruct (S i <? f_height f)%nat|].
    by eapply link_won.
Qed.

(** ** Every step *)

Lemma step_spec c s L th :
  shape s L → legal c s → thread_ok s L th → ∃ th' s', step c s th = Ok (th', s') ∧ step_ok s L th th' s'.
Proof.
  intros Hs Hc Hth. pose proof (sh_bound _ _ Hs). destruct th.
  - by apply idle_step.
  - eexists _, s. split; [done|]. destruct Hth as [Hown _].
    apply step_ok_read; [done|split; [done|]|by left|by left]. destruct Hc as [_ Hc]. split; [by left|]. split; [lia|done].
  - by apply seek_step.
  - eexists _, s. split; [done|]. destruct Hth as [Hown _]. apply step_ok_read; [done|done|by left|right; constructor].
  - by apply load_step.
  - by apply raise_step.
  - by apply splice_at_step.
  - by apply link_at_step.
  - by apply retry_at_step.
  - eexists _, s. split; [done|]. destruct Hth as [Hown _].
    apply step_ok_read; [done| | |right; constructor]; destruct inserted; [done|by split|by right|by left].
Qed.

(** ** Systems of threads *)

Record sys_ok (S : sys) L : Prop := {
  so_shape : shape (list_ S) L;
  so_thread i th : threads S !! i = Some th → thread_ok (list_ S) L th;
  so_apart i j th th' y : threads S !! i = Some th → threads S !! j = Some th' →
    owns th = Some y → owns th' = Some y → i = j }.

Lemma sys_step_ok S S' L :
  sys_ok S L → sys_step S S' → (∃ L', sys_ok S' L') ∧ (abs S' = abs S ∨ object_step (abs S) (abs S')).
Proof.
  intros HS Hstep. destruct Hstep as [S0 i th c th' s' Hi Hc E]. destruct HS as [Hs Hth Hap].
  destruct (step_spec c (list_ S0) L th Hs Hc (Hth i th Hi)) as (th2 & s2 & E2 & L' & o & Hs' & Hok & Hev & Ho & Hown & Hst).
  rewrite E in E2. injection E2 as <- <-.
  assert (∀ j tj, j ≠ i → threads S0 !! j = Some tj → ∀ y, owns tj = Some y → o ≠ Some y) as Hother.
  { intros j tj Hji Hj y Hy Eo. destruct (Ho y Eo) as [Hy'|Hfresh]; [by apply Hji, (Hap j i tj th y)|].
    destruct (Hth j tj Hj) as [Hown' _]. destruct (Hown' y Hy) as ([k Hk] & _).
    unfold key_of in Hk. by rewrite Hfresh in Hk. }
  pose proof (lookup_lt_Some _ _ _ Hi) as Hlt.
  assert (∀ j tj, <[i:=th']> (threads S0) !! j = Some tj → j = i ∧ tj = th' ∨ j ≠ i ∧ threads S0 !! j = Some tj) as Hlk.
  { intros j tj. destruct (decide (j = i)) as [->|].
    - rewrite list_lookup_insert_eq by done. naive_solver.
    - rewrite list_lookup_insert_ne by done. auto. }
  split.
  - exists L'. split; cbn; [done| |].
    + intros j tj [[-> ->]|[Hji Hj]]%Hlk; [done|].
      apply (thread_stable (list_ S0) L s' L' o Hs Hev tj); [by apply (Hother j)|by apply (Hth j)].
    + intros j j' tj tj' y [[-> ->]|[Hji Hj]]%Hlk [[-> ->]|[Hji' Hj']]%Hlk Hy Hy'; [done| | |by apply (Hap j j' tj tj' y)].
      * destruct Hown as [Hown|Hown]; [|congruence]. destruct (Hother j' tj' Hji' Hj' y Hy'). congruence.
      * destruct Hown as [Hown|Hown]; [|congruence]. destruct (Hother j tj Hji Hj y Hy). congruence.
  - assert (status_of s' <$> <[i:=th']> (threads S0) =
      <[i := status_of s' th']> (status_of (list_ S0) <$> threads S0)) as Hsts.
    { rewrite list_fmap_insert. apply list_eq. intros j. destruct (decide (j = i)) as [->|].
      - by rewrite !list_lookup_insert_eq by (by rewrite length_fmap).
      - rewrite !list_lookup_insert_ne, !list_lookup_fmap by done.
        destruct (threads S0 !! j) as [tj|] eqn:Hj; [|done]. cbn. f_equal.
        apply (thread_stable (list_ S0) L s' L' o Hs Hev tj); [by apply (Hother j)|by apply (Hth j)]. }
    unfold abs. cbn [list_ threads]. rewrite Hsts. destruct Hst as [[-> ->]|Hst]; [left|right].
    + f_equal. apply list_insert_id. by rewrite list_lookup_fmap, Hi.
    + apply (object_step_thread _ _ i (status_of (list_ S0) th)); [by rewrite list_lookup_fmap, Hi|done].
Qed.

Lemma sys_run_ok S S' L :
  sys_ok S L → rtc sys_step S S' → (∃ L', sys_ok S' L') ∧ rtc object_step (abs S) (abs S').
Proof.
  intros HS Hrun. revert L HS. induction Hrun as [S|S S1 S2 Hstep _ IH]; intros L HS; [by split; [exists L|]|].
  destruct (sys_step_ok S S1 L HS Hstep) as [[L1 HS1] Habs]. destruct (IH L1 HS1) as [HS2 Hrun].
  split; [done|]. destruct Habs as [Habs|Habs]; [by rewrite Habs in Hrun|by eapply rtc_l].
Qed.

Lemma make_ok mh br s n :
  make mh br = Ok s → mh < Z.of_nat kMaxPossibleHeight →
  sys_ok (MkSys s (replicate n (Idle None))) (λ _, []) ∧ abs (MkSys s (replicate n (Idle None))) = ([], replicate n Quiet).
Proof.
  intros Hm Hlt. unfold make in Hm. apply bind_Ok in Hm as (? & Hb%require_Ok & Hm).
  apply bind_Ok in Hm as (? & _ & Hm). apply bind_Ok in Hm as (? & _ & [= <-]).
  apply andb_true_iff in Hb as [Hb _]. apply Z.ltb_lt in Hb. set (s := Mk _ _ _ _).
  assert (shape s (λ _, [])) as Hs.
  { split; cbn; try done.
    - lia.
    - intros i j m Hi Hj. destruct j; [|done]. injection Hj as <-. unfold slot. cbn. by rewrite lookup_replicate_2.
    - by intros m ?%not_elem_of_nil.
    - constructor. }
  split; [split; cbn; [done| |]|].
  - by intros i th [-> _]%lookup_replicate_1.
  - by intros i j th th' y [-> _]%lookup_replicate_1 _ Hy.
  - unfold abs. cbn [list_ threads]. rewrite (contents_shape s _ Hs), fmap_replicate. done.
Qed.

(** ** A caller on its own

    Nothing moves between the search and the linking, so every
    compare-exchange wins and the insert ends after a number of steps bounded
    by the height and the length of the list. *)

Definition tight_at s f (j : nat) : Prop := ∃ p n,
  prev_ (f_splice f) !! j = Some (Some p) ∧ splice_next_ (f_splice f) !! j = Some n ∧ slot s p j = Some n.

Definition tight s th : Prop :=
  match th with
  | InsertLoad _ _ | InsertRaise _ _ _ _ | InsertDone _ _ _ => True
  | SpliceAt f i _ _ => ∀ j, (i < j < f_height f)%nat → tight_at s f j
  | LinkAt f i => ∀ j, (i ≤ j < f_height f)%nat → tight_at s f j
  | _ => False
  end.

(** Steps that remain. *)
Definition remaining s th : nat :=
  let top := (2 * kMaxHeight_ s + length (level_nodes s 0))%nat in
  match th with
  | InsertLoad _ _ => top + 5
  | InsertRaise _ _ _ mh => top + if (max_height_ s =? mh)%nat then 3 else 4
  | SpliceAt _ i before _ => kMaxHeight_ s + 2 + i + ahead s (level_nodes s) before
  | LinkAt f i => S (f_height f - i)
  | _ => 0
  end%nat.

Definition finished th : bool := match th with InsertDone _ _ _ => true | _ => false end.

Lemma ahead_nodes s L n : shape s L → ahead s (level_nodes s) n = ahead s L n.
Proof. intros Hs. unfold ahead. by rewrite (level_nodes_shape s L) by (done || pose proof (sh_bound _ _ Hs); lia). Qed.

Lemma recompute_tight s L y k h mh th :
  shape s L → (h ≤ mh ≤ kMaxHeight_ s)%nat → recompute y k h mh = Ok th →
  tight s th ∧ (remaining s th < 2 * kMaxHeight_ s + length (level_nodes s 0) + 3)%nat.
Proof.
  intros Hs Hh E. unfold recompute in E. repeat (apply bind_Ok in E as (? & ? & E)). injection E as <-.
  split; [intros j Hj; cbn in *; lia|]. cbn. pose proof (ahead_le s (level_nodes s) head_). lia.
Qed.

Lemma tight_spliced s L f i p n v j :
  shape s L → frame_ok s f → (i < height_ (f_splice f))%nat → slot s p i = Some n →
  (j ≠ i → tight_at s f j) → tight_at s (spliced f i p n v) j.
Proof.
  intros Hs Hf Hi Hslot Hj. pose proof (sh_bound _ _ Hs). pose proof (fr_height _ _ Hf).
  assert (i < length (prev_ (f_splice f)))%nat by (rewrite (fr_prev _ _ Hf); lia).
  assert (i < length (splice_next_ (f_splice f)))%nat by (rewrite (fr_next _ _ Hf); lia).
  destruct (decide (j = i)) as [->|Hji].
  - exists p, n. cbn. by rewrite !list_lookup_insert_eq by done.
  - destruct (Hj Hji) as (p' & n' & ? & ? & ?). exists p', n'. cbn. by rewrite !list_lookup_insert_ne by done.
Qed.

Lemma alone_splice s L k f i before after th' s' :
  shape s L → thread_ok s L (SpliceAt f i before after) → tight s (SpliceAt f i before after) →
  step (alone s k) s (SpliceAt f i before after) = Ok (th', s') →
  tight s' th' ∧ (remaining s' th' < remaining s (SpliceAt f i before after))%nat.
Proof.
  intros Hs [Hown (Hf & Hi & Hl & Hr & Hsp)] Ht E. pose proof (sh_bound _ _ Hs). pose proof (fr_height _ _ Hf).
  destruct (splice_body_spec s L (f_key f) i after before) as (o & Eo & Ho); try done; [lia|].
  cbn [step] in E. unfold splice_step in E. rewrite Eo in E. cbn [mbind result_bind] in E.
  destruct o as [b|[p n]].
  { injection E as <- <-. split; [done|]. cbn. rewrite !(ahead_nodes s L) by done. lia. }
  destruct Ho as (-> & Hn & Hslot). rewrite (set_splice_frame s L) in E by done. cbn [mbind result_bind] in E.
  assert (∀ j, (i ≤ j < f_height f)%nat → tight_at s (spliced f i before n (f_valid f)) j) as Ht'.
  { intros j Hj. apply (tight_spliced s L); try done. intros Hji. apply Ht. lia. }
  destruct (Nat.eqb_spec i 0) as [->|Hi0]; cbn [mbind result_bind] in E; injection E as <- <-.
  - split; [done|]. cbn. lia.
  - split; [|cbn; lia]. intros j Hj. apply Ht'. cbn in *. lia.
Qed.

Lemma alone_link s L k f i th' s' :
  shape s L → thread_ok s L (LinkAt f i) → tight s (LinkAt f i) →
  step (alone s k) s (LinkAt f i) = Ok (th', s') →
  tight s' th' ∧ (remaining s' th' < remaining s (LinkAt f i))%nat.
Proof.
  intros Hs [Hown (Hf & Hi & Hsp)] Ht E. specialize (Hown _ eq_refl). cbn in Hown.
  destruct Hown as (_ & _ & HL). destruct (Ht i ltac:(lia)) as (p & n & Ep & En & Hslot).
  assert (p ≠ f_x f) as Hpx.
  { destruct (Hsp i ltac:(lia)) as (p' & n' & Ep' & _ & Hp & _). assert (p' = p) as -> by congruence.
    intros ->. destruct Hp as [Hh|[Hp _]]; [|apply HL in Hp; lia].
    pose proof (fr_key _ _ Hf) as Hk. by rewrite Hh, (sh_head _ _ Hs) in Hk. }
  cbn [step] in E. unfold link_step, at_index in E. unfold ptr in *. rewrite Ep, En in E. cbn [mbind result_bind] in E.
  apply bind_Ok in E as (dup & _ & E). destruct dup; [injection E as <- <-; split; [done|cbn; lia]|].
  destruct (SetNext_spec s (f_x f) i n) as (s1 & Es1 & Hst1); [eapply slot_height; [apply (fr_tall _ _ Hf)|done]|].
  rewrite Es1 in E. cbn [mbind result_bind] in E.
  assert (slot s1 p i = Some n) as Hslot1 by (rewrite (st_slot _ _ _ _ _ Hst1), decide_False; [done|naive_solver]).
  destruct (CASNext_spec s1 p i n n (Some (f_x f)) Hslot1) as [[Hne _]|[_ (s2 & Es2 & Hst2)]]; [done|].
  rewrite Es2 in E. cbn [mbind result_bind] in E.
  destruct (Nat.ltb_spec (S i) (f_height f)).
  - injection E as <- <-. split; [|cbn; lia]. intros j Hj. destruct (Ht j ltac:(lia)) as (p' & n' & ? & ? & Hs').
    exists p', n'. split_and!; [done|done|]. rewrite (st_slot _ _ _ _ _ Hst2), decide_False by lia.
    rewrite (st_slot _ _ _ _ _ Hst1), decide_False by lia. done.
  - apply bind_Ok in E as (? & _ & [= <- <-]). split; [done|cbn; lia].
Qed.

Lemma alone_step s L k th th' s' :
  shape s L → thread_ok s L th → tight s th → finished th = false →
  step (alone s k) s th = Ok (th', s') → tight s' th' ∧ (remaining s' th' < remaining s th)%nat.
Proof.
  intros Hs Hth Ht Hd E. pose proof (sh_bound _ _ Hs). destruct th; try done.
  - cbn [step] in E. apply bind_Ok in E as (h & _ & E). apply bind_Ok in E as (? & Hh%require_Ok & E).
    apply andb_true_iff in Hh as [_ Hh%Nat.leb_le]. apply bind_Ok in E as (th & E & [= <- <-]).
    unfold raise in E. cbn [c_load alone] in E. destruct (Nat.ltb_spec (max_height_ s) h).
    + injection E as <-. split; [done|]. cbn. rewrite Nat.eqb_refl. lia.
    + destruct (recompute_tight s L _ _ h (max_height_ s) th Hs ltac:(lia) E). split; [done|cbn in *; lia].
  - destruct Hth as [Hown (_ & Hh & Hlt)]. destruct (Hown _ eq_refl) as (_ & (h' & Hh' & Hb) & _).
    assert (h' = height) as -> by congruence. cbn [step] in E. cbn [c_weak alone andb] in E.
    destruct (Nat.eqb_spec (max_height_ s) max_height) as [Em|Em]; apply bind_Ok in E as (th & E & [= <- <-]).
    + assert (shape (set_max s height) L) as Hs' by
        (apply (shape_ext s _ L Hs); [done|cbn; lia|apply (sh_head _ _ Hs)|done|done]).
      destruct (recompute_tight _ L _ _ height height th Hs' ltac:(cbn; lia) E) as [Ht' Hr].
      split; [done|]. rewrite (level_nodes_shape _ L) in Hr by (done || cbn; lia). cbn in *.
      rewrite (level_nodes_shape s L) by (done || lia). rewrite Em, Nat.eqb_refl. lia.
    + unfold raise in E. destruct (Nat.ltb_spec (max_height_ s) height).
      * injection E as <-. split; [done|]. cbn. rewrite Nat.eqb_refl. apply Nat.eqb_neq in Em. rewrite Em. lia.
      * destruct (recompute_tight s L _ _ height (max_height_ s) th Hs ltac:(lia) E). split; [done|cbn in *].
        apply Nat.eqb_neq in Em. rewrite Em. lia.
  - by eapply alone_splice.
  - by eapply alone_link.
Qed.

(** The node and the key of an insert. *)
Definition subject th : option (nat * K) :=
  match th with
  | InsertLoad y k | InsertRaise y k _ _ | InsertDone y k _ => Some (y, k)
  | SpliceAt f _ _ _ | LinkAt f _ | RetryAt f _ _ => Some (f_x f, f_key f)
  | _ => None
  end.

Lemma recompute_subject y k h mh th : recompute y k h mh = Ok th → subject th = Some (y, k).
Proof. unfold recompute. intros E. repeat (apply bind_Ok in E as (? & ? & E)). by injection E as <-. Qed.

Lemma step_subject c s th th' s' q :
  subject th = Some q → finished th = false → step c s th = Ok (th', s') → subject th' = Some q.
Proof.
  intros Hq Hd E. assert (∀ y k h mh th, raise y k h mh = Ok th → subject th = Some (y, k)) as Hraise.
  { intros y k h mh th0. unfold raise. destruct (mh <? h)%nat; [by intros [= <-]|apply recompute_subject]. }
  destruct th; try done; injection Hq as <-; cbn [step] in E.
  - inv_ok. by eapply Hraise.
  - destruct (_ && _); inv_ok; [by eapply recompute_subject|by eapply Hraise].
  - unfold splice_step in E. inv_ok. destruct r0 as [|[]]; inv_ok; [done|]. by destruct (i =? 0)%nat; inv_ok.
  - unfold link_step in E. inv_ok. destruct r2; inv_ok; [done|]. destruct r3 as [[] ?]; inv_ok; [|done].
    by destruct (S i <? f_height f)%nat; inv_ok.
  - unfold retry_step in E. inv_ok. by destruct r0 as [|[]]; inv_ok.
Qed.

(** An insert that runs alone ends with the sorted insert of its key. *)
Lemma InsertConcurrently_spec s L y k fuel :
  shape s L → thread_ok s L (InsertLoad y k) → (2 * kMaxHeight_ s + length (contents s) + 5 < fuel)%nat →
  ∃ b s' L', InsertConcurrently s fuel y k = Ok (b, s') ∧ shape s' L' ∧
    thread_ok s' L' (Idle (if b then None else Some y)) ∧ sorted_insert (contents s) k = (b, contents s') ∧
    kMaxHeight_ s' = kMaxHeight_ s.
Proof.
  intros Hs Hth Hf. set (c0 := contents s) in *.
  set (Q := λ r : bool * t (K:=K), ∃ L', shape r.2 L' ∧ thread_ok r.2 L' (Idle (if r.1 then None else Some y)) ∧
    sorted_insert c0 k = (r.1, contents r.2) ∧ kMaxHeight_ r.2 = kMaxHeight_ s).
  enough (∃ r, InsertConcurrently s fuel y k = Ok r ∧ Q r) as ([b s'] & E & L' & ? & ? & ? & ?) by (exists b, s', L'; auto).
  set (I := λ st : thread (K:=K) * t (K:=K), ∃ L', shape st.2 L' ∧ thread_ok st.2 L' st.1 ∧ tight st.2 st.1 ∧
    subject st.1 = Some (y, k) ∧ kMaxHeight_ st.2 = kMaxHeight_ s ∧
    (status_of st.2 st.1 = Pending (CallInsert k) ∧ contents st.2 = c0 ∨
     ∃ b, status_of st.2 st.1 = Decided (CallInsert k) (ReplyInsert b) ∧ sorted_insert c0 k = (b, contents st.2))).
  apply (loop_total _ I (λ st, remaining st.2 st.1) Q).
  2:{ exists L. split_and!; try done. by left. }
  2:{ cbn. rewrite (level_nodes_shape s L) by (done || pose proof (sh_bound _ _ Hs); lia).
      unfold c0 in Hf. rewrite (length_contents s L Hs) in Hf. lia. }
  intros [th s1] (L1 & Hs1 & Hth1 & Ht & Hsub & Hmax & Hst). cbn [fst snd] in *.
  destruct (finished th) eqn:Hd.
  { destruct th as [| | | | | | | | |y' k' b]; try done. injection Hsub as -> ->. eexists. split; [done|]. cbn.
    exists L1. destruct Hst as [[? _]|(b' & [= <-] & Hins)]; [done|].
    split_and!; [done| |done|done]. destruct Hth1 as [Hown _]. by destruct b; split. }
  pose proof (sh_bound _ _ Hs1).
  destruct (step_spec (alone s1 k) s1 L1 th Hs1) as (th2 & s2 & E & L2 & o & Hs2 & Hth2 & Hev & _ & _ & Hcall);
    [split; cbn; lia|done|].
  destruct (alone_step s1 L1 k th th2 s2 Hs1 Hth1 Ht Hd E) as [Ht2 Hlt].
  pose proof (step_subject _ _ _ _ _ _ Hsub Hd E) as Hsub2.
  exists (inl (th2, s2)). split; [destruct th; try done; by rewrite E|]. split; [|done].
  exists L2. cbn [fst snd]. split_and!; try done; [by rewrite (ev_max _ _ _ _ _ Hev)|].
  destruct Hcall as [[-> ->]|Hcall]; [done|].
  assert (status_of s2 th2 ≠ Quiet) as Hnq.
  { destruct th2; try done; cbn; by case_match. }
  destruct Hst as [[Est Ec]|(b & Est & Ec)]; rewrite Est in Hcall; inversion Hcall; subst; [|congruence].
  right. match goal with H : apply_call _ _ = _ |- _ => cbn in H; rewrite Ec in H end.
  destruct (sorted_insert c0 k) as [b l]. simplify_eq. by exists b.
Qed.

End threads.

(** ** Heights *)

Section heights.
Context {K : Type} `{!Comparator K}.

(** The heights that threads draw are those a step may choose. *)
Lemma RandomHeight_bounds (s : t (K:=K)) seed :
  (1 ≤ kMaxHeight_ s)%nat → ∃ h seed', RandomHeight s seed = Ok (h, seed') ∧
    (1 ≤ h ≤ kMaxHeight_ s)%nat ∧ (h ≤ kMaxPossibleHeight)%nat.
Proof.
  intros Hm. unfold RandomHeight.
  destruct (loop_total (height_body s)
    (λ st, 1 ≤ st.1 ≤ kMaxHeight_ s ∧ st.1 ≤ kMaxPossibleHeight)%nat (λ st, kMaxHeight_ s - st.1)%nat
    (λ st, 1 ≤ st.1 ≤ kMaxHeight_ s ∧ st.1 ≤ kMaxPossibleHeight)%nat) with (fuel := S (kMaxHeight_ s)) (s := (1%nat, seed))
    as ([h seed'] & -> & Hh1 & Hh2).
  - intros [h sd] [H1 H2]. cbn [fst] in *. unfold height_body. destruct ((h <? kMaxHeight_ s)%nat && (h <? kMaxPossibleHeight)%nat) eqn:E.
    + apply andb_true_iff in E as [?%Nat.ltb_lt ?%Nat.ltb_lt]. cbn zeta.
      destruct (Random.Next sd <? kScaledInverseBranching_ (kBranching_ s)); eexists; (split; [done|]); cbn; lia.
    + eexists. split; [done|]. cbn. lia.
  - cbn. unfold kMaxPossibleHeight. lia.
  - cbn. lia.
  - cbn [fst] in *. exists h, seed'. cbn [mbind result_bind].
    rewrite (proj2 (Nat.ltb_lt _ _)), !(proj2 (Nat.leb_le _ _)) by lia. done.
Qed.
End heights.

(** ** Schedules, for concrete runs *)

#[export] Instance legal_dec {K} `{!Comparator K} (c : choice (K:=K)) s : Decision (legal c s).
Proof. unfold legal. apply _. Defined.

(** Thread [i] takes a step with the choices [c], for each pair in turn. *)
Fixpoint schedule {K} `{!Comparator K} (l : list (nat * choice (K:=K))) (S : sys (K:=K)) : result (sys (K:=K)) :=
  match l with
  | [] => Ok S
  | (i, c) :: l =>
      at_index (threads S) i ≫= λ th, require (bool_decide (legal c (list_ S))) ≫= λ _,
      step c (list_ S) th ≫= λ '(th, s), schedule l (MkSys s (<[i := th]> (threads S)))
  end.

Lemma schedule_run {K} `{!Comparator K} l (S S' : sys (K:=K)) : schedule l S = Ok S' → rtc sys_step S S'.
Proof.
  revert S. induction l as [|[i c] l IH]; intros S E; cbn in E; [by injection E as <-|].
  apply bind_Ok in E as (th & Hi%at_index_Ok & E). apply bind_Ok in E as (? & Hc%require_Ok & E).
  apply bind_Ok in E as ([th' s'] & Es & E). apply bool_decide_eq_true in Hc.
  eapply rtc_l; [by econstructor|by apply IH].
Qed.

#[export] Instance Z_Comparator : Comparator Z.
Proof. refine {| compare a b := a - b; rank a := a |}. done. Defined.

(** C17: a list made by the constructor with less than 32 levels, used by any
    number of threads that search and insert at the same time, is an atomic
    sorted list of keys.  No step of a thread fails, whatever the others did
    before it; and every run is a run of the object in which each call takes
    effect at one moment between its start and its return: a search then gets
    the first key that is not before its target, an insert then adds its key
    or is refused because the key is there. *)
Theorem skiplist_linearizable {K} `{!Comparator K} mh br n (s : t (K:=K)) (S : sys (K:=K)) :
  make mh br = Ok s → mh < Z.of_nat kMaxPossibleHeight →
  rtc sys_step (MkSys s (replicate n (Idle None))) S →
  rtc object_step ([], replicate n Quiet) (abs S) ∧ ascending rank (contents (list_ S)) ∧
  ∀ i th c, threads S !! i = Some th → legal c (list_ S) → ∃ r, step c (list_ S) th = Ok r.
Proof.
  intros Hm Hlt Hrun. destruct (make_ok mh br s n Hm Hlt) as [HS <-].
  destruct (sys_run_ok _ _ _ HS Hrun) as [[L [Hs Hth _]] Habs].
  split; [done|]. split; [by eapply contents_ascending|]. intros i th c Hi Hc.
  destruct (step_spec c (list_ S) L th Hs Hc (Hth i th Hi)) as (th' & s' & -> & _). eauto.
Qed.

(** Two threads insert at the same place; the second loses the race for
    level 0, searches again and links its node after the first one's. *)
Definition sample_choice (c : call (K:=Z)) : choice (K:=Z) := MkChoice c 1 1 true.

Definition sample_race : list (nat * choice (K:=Z)) :=
  let a := sample_choice (CallInsert 5) in
  let b := sample_choice (CallInsert 7) in
  [(0, a); (1, b); (0, a); (1, b); (0, a); (1, b); (0, a); (1, b); (1, b); (1, b); (1, b)]%nat.

Lemma skiplist_linearizable_witness :
  ∃ (s : t (K:=Z)) (S : sys (K:=Z)), make 21 4 = Ok s ∧
  schedule sample_race (MkSys s (replicate 2 (Idle None))) = Ok S ∧ contents (list_ S) = [5; 7] ∧
  rtc object_step ([], replicate 2 Quiet) (abs S).
Proof.
  eexists _, _. split; [reflexivity|]. split; [vm_compute; reflexivity|]. split; [vm_compute; reflexivity|].
  refine (proj1 (skiplist_linearizable 21 4 2 _ _ eq_refl _ (schedule_run sample_race _ _ _))); [done|].
  vm_compute. reflexivity.
Defined.

(** C40: on a list that threads have built, in whatever state their inserts are,
    every search of the class ends within as many iterations as the list has
    levels and keys, and returns what the sorted list of its keys promises:
    [Seek] the first key not before the target, [Contains] whether a key
    compares equal, the iterator its neighbours in order, [SeekForPrev] the
    last key not after the target. *)
Theorem skiplist_searches_end {K} `{!Comparator K} mh br n (s0 : t (K:=K)) (S : sys (K:=K)) (k : K) (fuel : nat) :
  let s := list_ S in
  let l := level_nodes s 0 in
  make mh br = Ok s0 → mh < Z.of_nat kMaxPossibleHeight →
  rtc sys_step (MkSys s0 (replicate n (Idle None))) S →
  (max_height_ s + length l ≤ fuel)%nat →
  (∃ p, Seek s fuel k = Ok p ∧ p ≫= key_of s = sorted_seek (contents s) k) ∧
  (∃ b, Contains s fuel k = Ok b ∧ (b = true ↔ ∃ m, m ∈ l ∧ rank_of s m = rank k)) ∧
  SeekToFirst s = Ok (l !! 0%nat) ∧ SeekToLast s fuel = Ok (pred_ptr (level_nodes s) (length l)) ∧
  (∀ j m, l !! j = Some m → Iterator_Next s (Some m) = Ok (l !! Datatypes.S j) ∧
    Prev s fuel (Some m) = Ok (pred_ptr (level_nodes s) j)) ∧
  (∃ j, SeekForPrev s fuel k = Ok (pred_ptr (level_nodes s) j) ∧
    ∀ a m, l !! a = Some m → (a < j)%nat ↔ rank_of s m ≤ rank k) ∧
  (∃ c, EstimateCount s fuel k = Ok c ∧ fits 64 c).
Proof.
  intros s l Hm Hlt Hrun Hf. destruct (make_ok mh br s0 n Hm Hlt) as [HS _].
  destruct (sys_run_ok _ _ _ HS Hrun) as [[L [Hs _ _]] _]. fold s in Hs.
  assert (l = L 0%nat) as El by (apply level_nodes_shape; [done|pose proof (sh_bound _ _ Hs); lia]).
  assert (∀ j, pred_ptr (level_nodes s) j = pred_ptr L j) as Epred by (intros []; cbn; [done|]; by fold l; rewrite El).
  rewrite El in *. split_and!.
  - exists (first_ge s (L 0%nat) k). split; [by apply (FindGreaterOrEqual_spec s L Hs)|].
    symmetry. by apply sorted_seek_contents.
  - by apply (Contains_spec s L Hs).
  - by apply (SeekToFirst_spec s L Hs).
  - rewrite Epred. by apply (SeekToLast_spec s L Hs).
  - intros j m Hj. rewrite Epred. split; [by apply (Iterator_Next_spec s L Hs)|by apply (Prev_spec s L Hs)].
  - destruct (SeekForPrev_spec s L Hs fuel Hf k) as (j & E & Hj). exists j. by rewrite Epred.
  - by apply (EstimateCount_returns s L Hs).
Qed.

Lemma skiplist_searches_end_witness :
  ∃ (s : t (K:=Z)) (S : sys (K:=Z)), make 21 4 = Ok s ∧
  schedule sample_race (MkSys s (replicate 2 (Idle None))) = Ok S ∧
  (∃ p, Seek (list_ S) 9 6 = Ok p ∧ p ≫= key_of (list_ S) = sorted_seek (contents (list_ S)) 6) ∧
  sorted_seek (contents (list_ S)) 6 = Some 7.
Proof.
  eexists _, _. split; [reflexivity|]. split; [vm_compute; reflexivity|]. split; [|vm_compute; reflexivity].
  refine (proj1 (skiplist_searches_end 21 4 2 _ _ 6 9 eq_refl _ (schedule_run sample_race _ _ _) _)); [done| |].
  - vm_compute. reflexivity.
  - apply Nat.leb_le. vm_compute. reflexivity.
Defined.
