(* ===== verification/DMCache.v ===== *)
(** * The client's cache of inner nodes ([SkipVectorDM/include/DMCache.h],
      [SkipVectorDM/src/DMCache.cc], [include/util/generic_cache.h])

    A compute server keeps copies of bottom inner nodes in a fixed pool of
    buffers.  A skip list finds the copy for a key (its entries are kept in
    descending key order, so [Seek] gives the greatest key not above the
    target); [cache_pool] holds the free buffers and [fifo_evict_pool] the order
    of eviction.  A buffer is its index in [inner_cache_buffer].  The calls are
    the sequential ones: each runs to its end before the next starts. *)

From S2P Require Import Prelude KVConfig RdmaConfig LeafNode InnerTree Hash.
Open Scope Z_scope.

Module DMCache.

Section DMCache.
Context {CH : CityHash} (uninit : Gaddr).

(** [struct CacheEntry]. *)
Record CacheEntry := MkEntry { e_key : Key; e_node : option nat; e_addr : Gaddr }.

Record t := Mk {
  buffer : nat → InnerNode.t;   (* inner_cache_buffer, malloc'ed *)
  skiplist : list CacheEntry;
  all_node_num : Z;
  skipList_count : Z;
  free_node_count : Z;
  cache_pool : list nat;
  fifo_evict_pool : list nat }.

(** [CacheEntryComparator::cmp]. *)
Definition cmp (a b : CacheEntry) : Z :=
  if key_gtb (e_key a) (e_key b) then -1 else if key_ltb (e_key a) (e_key b) then 1 else 0.

(** Setters of the fields the calls change. *)
Definition set_entry (s : t) (i : nat) (e : CacheEntry) : t :=
  Mk (buffer s) (<[i := e]> (skiplist s)) (all_node_num s) (skipList_count s) (free_node_count s)
    (cache_pool s) (fifo_evict_pool s).
Definition set_pool (s : t) (free : Z) (pool : list nat) : t :=
  Mk (buffer s) (skiplist s) (all_node_num s) (skipList_count s) free pool (fifo_evict_pool s).
Definition set_fifo (s : t) (fifo : list nat) : t :=
  Mk (buffer s) (skiplist s) (all_node_num s) (skipList_count s) (free_node_count s) (cache_pool s) fifo.
Definition set_buffer (s : t) (p : nat) (n : InnerNode.t) : t :=
  Mk (λ q, if decide (q = p) then n else buffer s q) (skiplist s) (all_node_num s) (skipList_count s)
    (free_node_count s) (cache_pool s) (fifo_evict_pool s).
Definition set_list (s : t) (l : list CacheEntry) (count : Z) : t :=
  Mk (buffer s) l (all_node_num s) count (free_node_count s) (cache_pool s) (fifo_evict_pool s).

(** [sizeof(CacheEntry)]: a 24-byte key, a pointer and an address. *)
Definition entry_size : Z := 40.

(** [DMCache(rdma_buffer)], with the pool size [MB] of [kInnerCacheSize]; the
    contents of the fresh buffers are whatever [malloc] returned. *)
Definition make (kInnerCacheSize : Z) (junk : nat → InnerNode.t) : result t :=
  let all := kInnerCacheSize * MB / (InnerNode.size_of + entry_size) in
  require (0 <? all) ≫= λ _,
  Ok (Mk junk [] all 0 (all - 1) (seq 0 (Z.to_nat (all - 1))) []).

(** [iter.Seek(e)]: the position of the first entry not before [e]. *)
Definition seek (l : list CacheEntry) (k : Key) : option nat :=
  first_index (λ e, 0 <=? cmp e (MkEntry k None Gaddr_Null)) l.

#[local] Arguments seek : simpl never.

(** [InsertConcurrently(buf)]: refused when the key is present. *)
Fixpoint list_insert (l : list CacheEntry) (e : CacheEntry) : bool * list CacheEntry :=
  match l with
  | [] => (true, [e])
  | x :: l =>
      if cmp x e <? 0 then let '(b, l) := list_insert l e in (b, x :: l)
      else if cmp x e =? 0 then (false, x :: l) else (true, e :: x :: l)
  end.

Definition invalidate (k : Key) : M t unit := λ s,
  match seek (skiplist s) k with
  | Some i =>
      match at_index (skiplist s) i with
      | Ok re =>
          match e_node re with
          | None => Ok (tt, s)
          | Some p =>
              let s := set_entry s i (MkEntry (e_key re) None (e_addr re)) in
              Ok (tt, set_pool s (free_node_count s + 1) (cache_pool s ++ [p]))
          end
      | Err e => Err e
      end
  | None => Ok (tt, s)
  end.

(** [search_cache(key, inner_record, path)]: the record found (a null address
    when there is none) and the path; [uninit] is the address a new [Record]
    is left with. *)
Definition search_cache (k : Key) (inner_record : Rec.t) (path : list Rec.t) : M t (Rec.t * list Rec.t) := λ s,
  match seek (skiplist s) k with
  | Some i =>
      match at_index (skiplist s) i with
      | Ok re =>
          match e_node re with
          | None => Ok ((Rec.set_addr inner_record Gaddr_Null, path), s)
          | Some p =>
              let node := buffer s p in
              match InnerNode.search node k with
              | Ok (r, next_is_leaf) =>
                  match
                    (if (Rec.capacity r =? 0) || negb (InnerNode.check_hdr node k) ||
                        negb (InnerNode.check_consistent node) || negb next_is_leaf
                     then match invalidate k s with
                          | Ok (_, s) => Ok (Rec.set_addr r Gaddr_Null, s)
                          | Err e => Err e
                          end
                     else Ok (r, s))
                  with
                  | Ok (r, s) =>
                      let upper := Rec.Mk 0 0 (InnerHeader.min_key (InnerNode.get_hdr node)) (e_addr re) uninit 0 in
                      Ok ((r, [Rec.copy upper; Rec.copy r]), s)
                  | Err e => Err e
                  end
              | Err e => Err e
              end
          end
      | Err e => Err e
      end
  | None => Ok ((Rec.set_addr inner_record Gaddr_Null, path), s)
  end.

(** [evict_one]: a free buffer, or none when the entry it found holds none.
    Popping an empty queue never succeeds, so the retry loop ends in its
    assertion. *)
Definition evict_one : M t (option nat) := λ s,
  match fifo_evict_pool s with
  | [] => Err AssertionFailure
  | p :: fifo =>
      let s := set_fifo s fifo in
      match seek (skiplist s) (InnerHeader.min_key (InnerNode.get_hdr (buffer s p))) with
      | Some i =>
          match at_index (skiplist s) i with
          | Ok re =>
              match e_node re with
              | None => Ok (None, s)
              | Some q =>
                  let s := set_entry s i (MkEntry (e_key re) None (e_addr re)) in
                  Ok (Some q, set_pool s (free_node_count s + 1) (cache_pool s))
              end
          | Err e => Err e
          end
      | None => Err AssertionFailure
      end
  end.

(** [while(alloc_node == nullptr) { alloc_node = evict_one(); assert(retry_count++ < skipList_count); }]. *)
Fixpoint evict_loop (retries : nat) (found : option nat) : M t nat :=
  match found, retries with
  | Some p, _ => mret p
  | None, O => lift (Err AssertionFailure)
  | None, S retries => found ← evict_one; evict_loop retries found
  end.

Definition alloc_node_cache : M t nat := λ s,
  let v := free_node_count s in
  let s := set_pool s (v - 1) (cache_pool s) in
  if v <=? 0 then (found ← evict_one; evict_loop (Z.to_nat (skipList_count s)) found) s
  else match cache_pool s with
       | p :: pool => Ok (p, set_pool s (free_node_count s) pool)
       | [] => Err AssertionFailure
       end.

(** [insert_cache(record, node)]. *)
Definition insert_cache (record : Rec.t) (node : InnerNode.t) : M t bool :=
  p ← alloc_node_cache;
  modify (λ s, set_buffer s p node);;
  s ← get;
  let '(fresh, l) := list_insert (skiplist s) (MkEntry (Rec.key record) (Some p) (Rec.addr record)) in
  if fresh then
    modify (λ s, set_fifo (set_list s l (skipList_count s + 1)) (fifo_evict_pool s ++ [p]));; mret true
  else
    match seek (skiplist s) (Rec.key record) with
    | Some i =>
        u ← lift (at_index (skiplist s) i);
        if key_eqb (Rec.key record) (e_key u) then
          match e_node u with
          | None =>
              modify (λ s, set_fifo (set_entry s i (MkEntry (e_key u) (Some p) (e_addr u)))
                             (fifo_evict_pool s ++ [p]));; mret true
          | Some _ =>
              modify (λ s, set_pool s (free_node_count s + 1) (cache_pool s ++ [p]));; mret false
          end
        else mret false
    | None => mret false
    end.

(** [adapt_capacity]: [cache_used() > 0.99], without the rounding of the
    division. *)
Definition adapt_capacity (s : t) (ori_capacity : Z) : Z :=
  if 99 * all_node_num s <? 100 * (all_node_num s - free_node_count s)
  then Z.min MaxNodeCapacity (ori_capacity * 2) else ori_capacity.

(** ** Invariant

    [good n]: a node the cache may hold, whose search does not run off the
    array; [home k a]: [a] is the address of the node whose least key is [k].
    Both are properties of the tree, kept abstract here. *)
Context (good : InnerNode.t → Prop) (home : Key → Gaddr → Prop).

(** Entries in descending key order are ascending in this number. *)
Definition e_num (e : CacheEntry) : Z := - key_num (e_key e).

Definition nodes (s : t) : list nat := omap e_node (skiplist s).

(** [held]: buffers taken from the pool and not yet in an entry. *)
Record core (held : list nat) (s : t) : Prop := {
  c_sorted : ascending e_num (skiplist s);
  c_buffers : held ++ cache_pool s ++ nodes s ≡ₚ seq 0 (Z.to_nat (all_node_num s - 1));
  c_size : 2 ≤ all_node_num s;
  c_good : ∀ e p, e ∈ skiplist s → e_node e = Some p → good (buffer s p);
  c_key : ∀ e p, e ∈ skiplist s → e_node e = Some p →
    InnerHeader.min_key (InnerNode.hdr (buffer s p)) = e_key e;
  c_home : ∀ e, e ∈ skiplist s → home (e_key e) (e_addr e);
  c_fifo : ∀ e p, e ∈ skiplist s → e_node e = Some p → p ∈ fifo_evict_pool s;
  c_range : ∀ p, p ∈ fifo_evict_pool s → p ∈ seq 0 (Z.to_nat (all_node_num s - 1)) }.

Definition wf (s : t) : Prop := core [] s ∧ free_node_count s = Z.of_nat (length (cache_pool s)).

Lemma entry_cmp_num a b : cmp a b = Z.sgn (key_num (e_key b) - key_num (e_key a)).
Proof. unfold cmp. autorewrite with keys. repeat case_match; lia. Qed.

Lemma seek_Some l k i :
  ascending e_num l → seek l k = Some i →
  ∃ e, l !! i = Some e ∧ key_num (e_key e) ≤ key_num k ∧
    ∀ e', e' ∈ l → key_num (e_key e') ≤ key_num k → key_num (e_key e') ≤ key_num (e_key e).
Proof.
  intros Ha Hs. unfold seek in Hs. apply first_index_Some in Hs as [(e & Hi & He) Hj].
  rewrite entry_cmp_num in He. cbn in He. exists e. split; [done|]. split; [lia|].
  intros e' [j Hj']%list_elem_of_lookup Hk. destruct (Nat.lt_total j i) as [H|[->|H]].
  - specialize (Hj j e' H Hj'). rewrite entry_cmp_num in Hj. cbn in Hj. lia.
  - simplify_eq. lia.
  - pose proof (ascending_lookup _ _ i j e e' Ha H Hi Hj') as Hl. unfold e_num in Hl. lia.
Qed.

Lemma seek_None l k : seek l k = None → ∀ e, e ∈ l → key_num k < key_num (e_key e).
Proof.
  intros Hs e [j Hj]%list_elem_of_lookup. unfold seek in Hs.
  pose proof (proj1 (first_index_None _ _) Hs j e Hj) as H. cbn beta in H. rewrite entry_cmp_num in H. cbn in H. lia.
Qed.

(** The entry with exactly the key that is sought. *)
Lemma seek_exact l i e :
  ascending e_num l → l !! i = Some e → seek l (e_key e) = Some i.
Proof.
  intros Ha Hi. unfold seek. apply first_index_Some. split.
  - exists e. split; [done|]. rewrite entry_cmp_num. cbn. lia.
  - intros j y Hj Hy. rewrite entry_cmp_num. cbn.
    pose proof (ascending_lookup _ _ j i y e Ha Hj Hy Hi) as Hl. unfold e_num in Hl. lia.
Qed.

Lemma list_insert_spec l e :
  ascending e_num l →
  (list_insert l e = (false, l) ∧ ∃ i u, l !! i = Some u ∧ e_key u = e_key e) ∨
  (∃ l1 l2, l = l1 ++ l2 ∧ list_insert l e = (true, l1 ++ e :: l2) ∧ ascending e_num (l1 ++ e :: l2)).
Proof.
  intros Ha. induction Ha as [|x l Ha IH Hx]; cbn.
  { right. exists [], []. split_and!; try done. repeat constructor. }
  rewrite entry_cmp_num. destruct (Z.lt_total (key_num (e_key x)) (key_num (e_key e))) as [H|[H|H]].
  - rewrite (proj2 (Z.ltb_ge _ _)), (proj2 (Z.eqb_neq _ _)) by lia.
    right. exists [], (x :: l). split_and!; try done. cbn. constructor; [by constructor|].
    constructor; [unfold e_num; lia|]. eapply Forall_impl; [exact Hx|]. unfold e_num. cbn. lia.
  - rewrite H, Z.sub_diag. cbn. left. split; [done|]. exists 0%nat, x. split; [done|]. by apply key_num_inj.
  - rewrite (proj2 (Z.ltb_lt _ _)) by lia.
    destruct IH as [[-> (i & u & Hi & Hu)]|(l1 & l2 & -> & -> & Ha')].
    + left. split; [done|]. by exists (S i), u.
    + right. exists (x :: l1), l2. split_and!; try done. cbn. constructor; [done|].
      apply Forall_app in Hx as [H1 H2]. apply Forall_app. split; [done|].
      constructor; [unfold e_num; lia|done].
Qed.

(** ** The moves of a buffer *)

Lemma elem_of_nodes s p : p ∈ nodes s ↔ ∃ e, e ∈ skiplist s ∧ e_node e = Some p.
Proof. unfold nodes. apply list_elem_of_omap. Qed.

Lemma core_NoDup held s : core held s → NoDup (held ++ cache_pool s ++ nodes s).
Proof. intros H. rewrite (c_buffers _ _ H). apply NoDup_seq. Qed.

(** A held buffer is in no entry. *)
Lemma core_held held s p : core held s → p ∈ held → p ∉ nodes s.
Proof.
  intros H Hp Hn. pose proof (core_NoDup _ _ H) as Hd. apply NoDup_app in Hd as (_ & Hd & _).
  apply (Hd p Hp). apply elem_of_app. by right.
Qed.

Lemma core_count held s f : core held s → core held (set_pool s f (cache_pool s)).
Proof. intros []. by constructor. Qed.

Lemma core_take held s p pool f :
  core held s → cache_pool s = p :: pool → core (p :: held) (set_pool s f pool).
Proof.
  intros [H1 H2 H3 H4 H5 H6 H7 H8] E. constructor; try done. unfold nodes in *. cbn in *.
  rewrite <- H2, E. solve_Permutation.
Qed.

Lemma core_release held s p f :
  core (p :: held) s → core held (set_pool s f (cache_pool s ++ [p])).
Proof.
  intros [H1 H2 H3 H4 H5 H6 H7 H8]. constructor; try done. unfold nodes in *. cbn in *.
  rewrite <- H2. solve_Permutation.
Qed.

Lemma core_write held s p n : core held s → p ∈ held → core held (set_buffer s p n).
Proof.
  intros Hc Hp. pose proof (core_held _ _ _ Hc Hp) as Hn. destruct Hc as [H1 H2 H3 H4 H5 H6 H7 H8].
  assert (∀ e q, e ∈ skiplist s → e_node e = Some q → q ≠ p) as Hne.
  { intros e q He Hq ->. apply Hn, elem_of_nodes. eauto. }
  constructor; try done; intros e q He Hq; cbn; rewrite decide_False by eauto; eauto.
Qed.

(** The entry at [i] gives up its buffer. *)
Lemma core_clear held s i e p :
  core held s → skiplist s !! i = Some e → e_node e = Some p →
  core (p :: held) (set_entry s i (MkEntry (e_key e) None (e_addr e))).
Proof.
  intros [H1 H2 H3 H4 H5 H6 H7 H8] Hi Hp.
  assert (∀ e' q, e' ∈ <[i := MkEntry (e_key e) None (e_addr e)]> (skiplist s) → e_node e' = Some q →
            e' ∈ skiplist s) as Hin.
  { intros e' q He' Hq. apply list_elem_of_lookup in He' as [j Hj].
    apply list_lookup_insert_Some in Hj as [(-> & <- & _)|[_ Hj]]; [done|by eapply list_elem_of_lookup_2]. }
  constructor; cbn; try done; eauto.
  - by apply (ascending_insert _ _ _ e).
  - unfold nodes in *. cbn. rewrite <- H2.
    pose proof (omap_insert e_node (skiplist s) i e (MkEntry (e_key e) None (e_addr e)) Hi) as Ho.
    rewrite Hp in Ho. cbn in Ho. rewrite <- Ho. solve_Permutation.
  - intros e' He'. apply list_elem_of_lookup in He' as [j Hj].
    apply list_lookup_insert_Some in Hj as [(-> & <- & _)|[_ Hj]]; cbn;
      apply H6; by eapply list_elem_of_lookup_2.
Qed.

(** The empty entry at [i] takes a held buffer. *)
Lemma core_fill held s i e p :
  core (p :: held) s → skiplist s !! i = Some e → e_node e = None →
  good (buffer s p) → InnerHeader.min_key (InnerNode.hdr (buffer s p)) = e_key e →
  core held (set_fifo (set_entry s i (MkEntry (e_key e) (Some p) (e_addr e))) (fifo_evict_pool s ++ [p])).
Proof.
  intros [H1 H2 H3 H4 H5 H6 H7 H8] Hi Hp Hg Hk.
  assert (p ∈ seq 0 (Z.to_nat (all_node_num s - 1))) as Hr by (rewrite <- H2; constructor).
  assert (∀ e', e' ∈ <[i := MkEntry (e_key e) (Some p) (e_addr e)]> (skiplist s) →
            e' = MkEntry (e_key e) (Some p) (e_addr e) ∨ e' ∈ skiplist s) as Hin.
  { intros e' [j Hj]%list_elem_of_lookup.
    apply list_lookup_insert_Some in Hj as [(-> & <- & _)|[_ Hj]]; [by left|right; by eapply list_elem_of_lookup_2]. }
  constructor; cbn; try done.
  - by apply (ascending_insert _ _ _ e).
  - unfold nodes in *. cbn in *. rewrite <- H2.
    pose proof (omap_insert e_node (skiplist s) i e (MkEntry (e_key e) (Some p) (e_addr e)) Hi) as Ho.
    rewrite Hp in Ho. cbn in Ho. rewrite Ho. solve_Permutation.
  - intros e' q [->|He']%Hin Hq; simplify_eq/=; eauto.
  - intros e' q [->|He']%Hin Hq; simplify_eq/=; eauto.
  - intros e' [->|He']%Hin; cbn; [|eauto]. apply H6. by eapply list_elem_of_lookup_2.
  - intros e' q [->|He']%Hin Hq; simplify_eq/=; apply elem_of_app; [right; constructor|left; eauto].
  - intros q [Hq|Hq%list_elem_of_singleton]%elem_of_app; [eauto|by subst].
Qed.

(** A new entry takes a held buffer. *)
Lemma core_new held s l1 l2 e p :
  core (p :: held) s → skiplist s = l1 ++ l2 → ascending e_num (l1 ++ e :: l2) → e_node e = Some p →
  good (buffer s p) → InnerHeader.min_key (InnerNode.hdr (buffer s p)) = e_key e → home (e_key e) (e_addr e) →
  core held (set_fifo (set_list s (l1 ++ e :: l2) (skipList_count s + 1)) (fifo_evict_pool s ++ [p])).
Proof.
  intros [H1 H2 H3 H4 H5 H6 H7 H8] Hl Ha Hp Hg Hk Hh.
  assert (p ∈ seq 0 (Z.to_nat (all_node_num s - 1))) as Hr by (rewrite <- H2; constructor).
  assert (∀ e', e' ∈ l1 ++ e :: l2 → e' = e ∨ e' ∈ skiplist s) as Hin by (rewrite Hl; set_solver).
  constructor; cbn; try done.
  - unfold nodes in *. cbn. rewrite <- H2, Hl, !omap_app. cbn. rewrite Hp. solve_Permutation.
  - intros e' q [->|He']%Hin Hq; simplify_eq/=; eauto.
  - intros e' q [->|He']%Hin Hq; simplify_eq/=; eauto.
  - intros e' [->|He']%Hin; cbn; eauto.
  - intros e' q [->|He']%Hin Hq; simplify_eq/=; apply elem_of_app; [right; constructor|left; eauto].
  - intros q [Hq|Hq%list_elem_of_singleton]%elem_of_app; [eauto|by subst].
Qed.

(** ** The calls *)

Lemma keys_set_entry s i e e' :
  skiplist s !! i = Some e → e_key e' = e_key e → e_key <$> skiplist (set_entry s i e') = e_key <$> skiplist s.
Proof.
  intros Hi E. cbn. rewrite list_fmap_insert, E. apply list_insert_id. by rewrite list_lookup_fmap, Hi.
Qed.

(** With no free buffer every buffer is in the entry of its least key, so the
    first one popped is evicted. *)
Lemma evict_one_spec s :
  core [] s → cache_pool s = [] →
  ∃ p s', evict_one s = Ok (Some p, s') ∧ core [p] s' ∧ cache_pool s' = [] ∧
    free_node_count s' = free_node_count s + 1 ∧ all_node_num s' = all_node_num s ∧
    e_key <$> skiplist s' = e_key <$> skiplist s.
Proof.
  intros Hc Hpool. pose proof Hc as [H1 H2 H3 H4 H5 H6 H7 H8]. rewrite Hpool in H2. cbn in H2.
  assert (∀ p, p ∈ seq 0 (Z.to_nat (all_node_num s - 1)) → ∃ i e, skiplist s !! i = Some e ∧ e_node e = Some p) as Hall.
  { intros p Hp. rewrite <- H2 in Hp. apply elem_of_nodes in Hp as (e & [i Hi]%list_elem_of_lookup & He). eauto. }
  unfold evict_one. destruct (fifo_evict_pool s) as [|p fifo] eqn:Ef.
  { destruct (Hall 0%nat) as (i & e & Hi & He); [apply elem_of_seq; lia|].
    apply list_elem_of_lookup_2 in Hi. specialize (H7 e _ Hi He). by apply elem_of_nil in H7. }
  destruct (Hall p) as (i & e & Hi & He); [apply H8; constructor|].
  assert (e ∈ skiplist s) as Hin by (by eapply list_elem_of_lookup_2).
  cbn -[seek]. unfold InnerNode.get_hdr. rewrite (H5 e p Hin He), (seek_exact _ i e H1 Hi).
  unfold at_index. rewrite Hi, He. eexists p, _. split; [reflexivity|].
  split; [|split_and!; try done; by apply (keys_set_entry s i e)].
  apply (core_count _ (set_entry (set_fifo s fifo) i (MkEntry (e_key e) None (e_addr e)))).
  pose proof (core_clear _ _ _ _ _ Hc Hi He) as [K1 K2 K3 K4 K5 K6 K7 K8].
  constructor; try done.
  - intros e' q He' Hq. specialize (K7 e' q He' Hq). cbn in K7. rewrite Ef in K7.
    apply elem_of_cons in K7 as [->|?]; [|done].
    assert (NoDup (p :: nodes (set_entry s i (MkEntry (e_key e) None (e_addr e))))) as Hd.
    { pose proof (core_NoDup _ _ (core_clear _ _ _ _ _ Hc Hi He)) as Hd. cbn in Hd. by rewrite Hpool in Hd. }
    apply NoDup_cons in Hd as [Hd _]. destruct Hd. apply elem_of_nodes. eauto.
  - intros q Hq. apply K8. cbn. rewrite Ef. by right.
Qed.

Lemma alloc_node_cache_spec s :
  wf s →
  ∃ p s', alloc_node_cache s = Ok (p, s') ∧ core [p] s' ∧
    free_node_count s' = Z.of_nat (length (cache_pool s')) ∧
    free_node_count s - 1 ≤ free_node_count s' ∧ all_node_num s' = all_node_num s ∧
    e_key <$> skiplist s' = e_key <$> skiplist s.
Proof.
  intros [Hc Hf]. unfold alloc_node_cache. destruct (Z.leb_spec (free_node_count s) 0) as [Hle|Hgt].
  - assert (cache_pool s = []) as Hpool by (destruct (cache_pool s); cbn in Hf; [done|lia]).
    destruct (evict_one_spec (set_pool s (free_node_count s - 1) (cache_pool s))) as (p & s' & He & Hc' & Hp' & Hf' & Ha' & Hks);
      [by apply core_count|done|].
    exists p, s'. unfold mbind, M_bind. rewrite He. cbn in *. rewrite Hp'. split_and!; try done; cbn. all: rewrite Hpool in Hf; cbn in Hf; try lia. by destruct (Z.to_nat _).
  - destruct (cache_pool s) as [|p pool] eqn:Hpool; [cbn in Hf; lia|]. cbn [cache_pool set_pool].
    eexists p, _. split; [reflexivity|]. split; [|cbn in *; split_and!; done || lia].
    eapply (core_take _ (set_pool s (free_node_count s - 1) (p :: pool)) p pool); [|done].
    rewrite <- Hpool. by apply core_count.
Qed.

Lemma insert_cache_spec s r n :
  wf s → good n → Rec.key r = InnerHeader.min_key (InnerNode.hdr n) → home (Rec.key r) (Rec.addr r) →
  ∃ b s', insert_cache r n s = Ok (b, s') ∧ wf s' ∧
    free_node_count s - 1 ≤ free_node_count s' ∧ all_node_num s' = all_node_num s ∧
    (∀ k, k ∈ e_key <$> skiplist s' → k = Rec.key r ∨ k ∈ e_key <$> skiplist s) ∧
    (b = true → ∃ i e p, skiplist s' !! i = Some e ∧ e_key e = Rec.key r ∧ e_node e = Some p ∧ buffer s' p = n).
Proof.
  intros Hwf Hg Hk Hh. destruct (alloc_node_cache_spec s Hwf) as (p & s1 & Ha & Hc & Hf & Hd & Hn & Hks).
  assert (core [p] (set_buffer s1 p n)) as Hc' by (apply core_write; [done|constructor]).
  assert (buffer (set_buffer s1 p n) p = n) as Hb by (cbn; by rewrite decide_True).
  set (s2 := set_buffer s1 p n) in *.
  unfold insert_cache, mbind, M_bind. rewrite Ha. cbn. fold s2. change (skiplist s1) with (skiplist s2).
  destruct (list_insert_spec (skiplist s2) (MkEntry (Rec.key r) (Some p) (Rec.addr r)) (c_sorted _ _ Hc'))
    as [[-> (i & u & Hi & Hu)]|(l1 & l2 & Hl & -> & Has)].
  - cbn in Hu. rewrite <- Hu, (seek_exact _ i u (c_sorted _ _ Hc') Hi). unfold lift, at_index. rewrite Hi.
    rewrite key_eqb_refl. destruct (e_node u) as [q|] eqn:Eu; cbn.
    + eexists _, _. split; [reflexivity|]. split; [|split_and!; cbn; [lia|done|rewrite Hks; by right|done]].
      split; [by apply (core_release [] s2 p)|]. cbn. rewrite length_app. cbn. lia.
    + eexists _, _. split; [reflexivity|]. split.
      { split; [|done]. apply (core_fill [] s2); [done|done|done|by rewrite Hb|by rewrite Hb, Hu]. }
      split_and!; [cbn; lia|done| |].
      * intros k Hin. cbn [set_fifo skiplist] in Hin. rewrite (keys_set_entry s2 i u) in Hin by done. right. by rewrite <- Hks.
      * intros _. exists i, (MkEntry (e_key u) (Some p) (e_addr u)), p. cbn -[s2]. split_and!; try done.
        apply list_lookup_insert_eq. by eapply lookup_lt_Some.
  - eexists _, _. split; [reflexivity|]. split; [split; [|done]; by apply (core_new [] s2); rewrite ?Hb|].
    split_and!; [cbn; lia|done| |].
    + intros k Hin. cbn in Hin. rewrite fmap_app in Hin. rewrite <- Hks. change (skiplist s1) with (skiplist s2).
      rewrite Hl, fmap_app. set_solver.
    + intros _. eexists (length l1), _, p. split; [by apply list_lookup_middle|]. done.
Qed.

Lemma invalidate_spec s k :
  wf s → ∃ s', invalidate k s = Ok (tt, s') ∧ wf s' ∧
    free_node_count s ≤ free_node_count s' ∧ all_node_num s' = all_node_num s.
Proof.
  intros [Hc Hf]. unfold invalidate. destruct (seek (skiplist s) k) as [i|] eqn:Es;
    [|exists s; split; [done|by split; [split|lia]]].
  destruct (seek_Some _ _ _ (c_sorted _ _ Hc) Es) as (e & Hi & _). unfold at_index. rewrite Hi.
  destruct (e_node e) as [p|] eqn:Ee; [|exists s; split; [done|by split; [split|lia]]].
  eexists. split; [reflexivity|]. split; [|cbn; lia]. split; cbn.
  - apply (core_release [] (set_entry s i (MkEntry (e_key e) None (e_addr e)))). by apply core_clear.
  - rewrite length_app. cbn. lia.
Qed.

(** What a hit tells: a cached node covers the key, and the record is the one
    its search gives. *)
Record hit (k : Key) (r : Rec.t) (path : list Rec.t) (n : InnerNode.t) (a : Gaddr) : Prop := {
  hit_good : good n;
  hit_home : home (InnerHeader.min_key (InnerNode.hdr n)) a;
  hit_search : InnerNode.search n k = Ok (r, true);
  hit_hdr : InnerNode.check_hdr n k = true;
  hit_capacity : Rec.capacity r ≠ 0;
  hit_path : path = [Rec.Mk 1 0 (InnerHeader.min_key (InnerNode.hdr n)) a uninit 0; Rec.copy r] }.

Context (good_search : ∀ n k, good n → key_num (InnerHeader.min_key (InnerNode.hdr n)) ≤ key_num k →
  is_ok (InnerNode.search n k) = true).

Lemma search_cache_spec s k r0 path0 :
  wf s →
  ∃ r path s', search_cache k r0 path0 s = Ok ((r, path), s') ∧ wf s' ∧
    free_node_count s ≤ free_node_count s' ∧ all_node_num s' = all_node_num s ∧
    (Rec.addr r = Gaddr_Null ∨ ∃ n a, hit k r path n a).
Proof.
  intros Hwf. pose proof Hwf as [Hc Hf]. unfold search_cache.
  destruct (seek (skiplist s) k) as [i|] eqn:Es;
    [|eexists _, _, s; split; [done|split; [done|split_and!; [lia|done|by left]]]].
  destruct (seek_Some _ _ _ (c_sorted _ _ Hc) Es) as (e & Hi & Hle & _). unfold at_index. rewrite Hi.
  assert (e ∈ skiplist s) as Hin by (by eapply list_elem_of_lookup_2).
  destruct (e_node e) as [p|] eqn:Ee;
    [|eexists _, _, s; split; [done|split; [done|split_and!; [lia|done|by left]]]].
  pose proof (c_good _ _ Hc e p Hin Ee) as Hg. pose proof (c_key _ _ Hc e p Hin Ee) as Hk.
  pose proof (good_search (buffer s p) k Hg ltac:(rewrite Hk; lia)) as Hok.
  destruct (InnerNode.search (buffer s p) k) as [[r b]|] eqn:Esr; [|done].
  destruct (_ || _) eqn:Et.
  - destruct (invalidate_spec s k Hwf) as (s' & -> & Hwf' & Hf' & Ha').
    eexists _, _, s'. split; [reflexivity|]. split; [done|]. split_and!; [lia|done|by left].
  - eexists r, _, s. split; [reflexivity|]. split; [done|]. split_and!; [lia|done|right].
    repeat (apply orb_false_elim in Et as [Et ?]). to_prop. exists (buffer s p), (e_addr e).
    assert (b = true) as -> by (by destruct b). constructor; try done.
    rewrite Hk. by apply (c_home _ _ Hc).
Qed.

End DMCache.

#[local] Arguments seek : simpl never.

Lemma wf_mono (good good' : InnerNode.t → Prop) (home home' : Key → Gaddr → Prop) s :
  (∀ n, good n → good' n) → (∀ k a, home k a → home' k a) → wf good home s → wf good' home' s.
Proof. intros Hg Hh [[H1 H2 H3 H4 H5 H6 H7 H8] Hf]. split; [|done]. constructor; eauto. Qed.

Lemma cache_make_wf good home size junk s :
  make size junk = Ok s → 2 ≤ all_node_num s → wf good home s.
Proof.
  unfold make. intros H H2. inv_ok. cbn in *. split; [constructor; cbn; try done|].
  - constructor.
  - by rewrite app_nil_r.
  - by intros e p He%elem_of_nil.
  - by intros e p He%elem_of_nil.
  - by intros e He%elem_of_nil.
  - by intros e p He%elem_of_nil.
  - by intros p Hp%elem_of_nil.
  - cbn. rewrite length_seq. lia.
Qed.

(** A node whose first separator is not above its least key. *)
Definition searchable (n : InnerNode.t) : Prop :=
  ∃ live r0, InnerNode.node_rep n live ∧ live !! 0%nat = Some r0 ∧
    Rec.num r0 ≤ key_num (InnerHeader.min_key (InnerNode.hdr n)).

Lemma searchable_search n k :
  searchable n → key_num (InnerHeader.min_key (InnerNode.hdr n)) ≤ key_num k → is_ok (InnerNode.search n k) = true.
Proof.
  intros (live & r0 & Hrep & H0 & Hle) Hk.
  destruct (InnerNode.search_spec n live k r0 Hrep H0) as (i & r & _ & _ & _ & ->); [lia|done].
Qed.

(** ** Sequences of calls *)

Inductive call :=
| Search (k : Key) (r0 : Rec.t) (path0 : list Rec.t)
| Insert (r : Rec.t) (n : InnerNode.t)
| Invalidate (k : Key).

Definition do_call `{CityHash} (uninit : Gaddr) (c : call) : M t unit :=
  match c with
  | Search k r0 path0 => search_cache uninit k r0 path0;; mret tt
  | Insert r n => insert_cache r n;; mret tt
  | Invalidate k => invalidate k
  end.

Fixpoint run `{CityHash} (uninit : Gaddr) (cs : list call) : M t unit :=
  match cs with [] => mret tt | c :: cs => do_call uninit c;; run uninit cs end.

(** Nodes are inserted under their least key. *)
Definition call_ok (c : call) : Prop :=
  match c with Insert r n => searchable n ∧ Rec.key r = InnerHeader.min_key (InnerNode.hdr n) | _ => True end.

Definition inserted (cs : list call) : list (Rec.t * InnerNode.t) :=
  omap (λ c, match c with Insert r n => Some (r, n) | _ => None end) cs.

Definition inserted_node (cs : list call) (n : InnerNode.t) : Prop :=
  searchable n ∧ ∃ r, (r, n) ∈ inserted cs.
Definition inserted_home (cs : list call) (k : Key) (a : Gaddr) : Prop :=
  ∃ r n, (r, n) ∈ inserted cs ∧ Rec.key r = k ∧ Rec.addr r = a.

Lemma run_wf `{CityHash} uninit all cs s :
  Forall call_ok cs → cs ⊆ all → wf (inserted_node all) (inserted_home all) s →
  ∃ s', run uninit cs s = Ok (tt, s') ∧ wf (inserted_node all) (inserted_home all) s'.
Proof.
  revert s. induction cs as [|c cs IH]; intros s Hok Hsub Hwf; [by exists s|].
  apply Forall_cons in Hok as [Hc Hok].
  assert (∃ s1, do_call uninit c s = Ok (tt, s1) ∧ wf (inserted_node all) (inserted_home all) s1) as (s1 & E & Hwf1).
  { destruct c as [k r0 path0|r n|k]; cbn; unfold mbind, M_bind.
    - destruct (search_cache_spec uninit (inserted_node all) (inserted_home all)) with (s := s) (k := k) (r0 := r0) (path0 := path0)
        as (r & path & s' & -> & Hwf' & _); [intros n k' [Hn _]; by apply searchable_search|done|]. eauto.
    - destruct Hc as [Hs Hk]. assert ((r, n) ∈ inserted all) as Hin.
      { apply list_elem_of_omap. exists (Insert r n). split; [|done]. apply Hsub. constructor. }
      destruct (insert_cache_spec (inserted_node all) (inserted_home all) s r n) as (b & s' & -> & Hwf' & _); try done.
      + by split; [|exists r].
      + by exists r, n.
      + eauto.
    - destruct (invalidate_spec (inserted_node all) (inserted_home all) s k) as (s' & -> & Hwf' & _); eauto. }
  cbn. unfold mbind, M_bind. rewrite E. apply IH; [done| |done]. intros x Hx. apply Hsub. by right.
Qed.

(** C23: the cache serves only what was put in it, and never fails.  From an
    empty cache of at least two nodes, any sequence of insertions of nodes
    under their least key, invalidations and searches runs to its end (no
    eviction assertion fails, no search leaves the record array), and a search
    afterwards either misses or answers with the record that an inserted node,
    whose key range covers the key, gives for it, together with an address some
    insertion gave for that node's least key. *)
Theorem cache_hits_were_inserted `{CityHash} uninit size junk s0 cs k r0 path0 :
  make size junk = Ok s0 → 2 ≤ all_node_num s0 → Forall call_ok cs →
  ∃ s r path s', run uninit cs s0 = Ok (tt, s) ∧ search_cache uninit k r0 path0 s = Ok ((r, path), s') ∧
    (Rec.addr r = Gaddr_Null ∨ ∃ n a, hit uninit (inserted_node cs) (inserted_home cs) k r path n a).
Proof.
  intros Hm H2 Hok. destruct (run_wf uninit cs cs s0 Hok) as (s & Hr & Hwf); [done|by eapply cache_make_wf|].
  destruct (search_cache_spec uninit (inserted_node cs) (inserted_home cs)) with (s := s) (k := k) (r0 := r0) (path0 := path0)
    as (r & path & s' & Hs & _ & _ & _ & Hhit); [intros n k' [Hn _]; by apply searchable_search|done|].
  by exists s, r, path, s'.
Qed.

(** A node that [insert_cache] accepted is found: a search for a key in the
    node's range, with no other cached node starting in between, returns the
    record the node's own search gives and leaves the cache as it is. *)
Theorem cache_insert_search `{CityHash} uninit s r n k rec r0 path0 s' :
  wf searchable (λ _ _, True) s → searchable n → Rec.key r = InnerHeader.min_key (InnerNode.hdr n) →
  InnerNode.check_hdr n k = true → InnerNode.check_consistent n = true →
  InnerNode.search n k = Ok (rec, true) → Rec.capacity rec ≠ 0 →
  (∀ k', k' ∈ e_key <$> skiplist s → ¬ (key_num (Rec.key r) < key_num k' ≤ key_num k)) →
  insert_cache r n s = Ok (true, s') →
  ∃ a, search_cache uninit k r0 path0 s' = Ok ((rec, [Rec.Mk 1 0 (Rec.key r) a uninit 0; Rec.copy rec]), s').
Proof.
  intros Hwf Hn Hk Hh Hcons Hs Hcap Hno Hins.
  destruct (insert_cache_spec searchable (λ _ _, True) s r n) as (b & s1 & E & [Hc' _] & _ & _ & Hks & Hb); try done.
  rewrite Hins in E. injection E as <- <-. destruct (Hb eq_refl) as (i & e & p & Hi & He & Hp & Hbuf).
  assert (key_num (Rec.key r) ≤ key_num k) as Hle.
  { unfold InnerNode.check_hdr in Hh. apply andb_prop in Hh as [_ Hh]. rewrite key_leb_num, <- Hk in Hh. lia. }
  assert (seek (skiplist s') k = Some i) as Hseek.
  { destruct (seek (skiplist s') k) as [j|] eqn:Ej.
    - destruct (seek_Some _ _ _ (c_sorted _ _ _ _ Hc') Ej) as (u & Hj & Hu & Hmax).
      specialize (Hmax e ltac:(by eapply list_elem_of_lookup_2)). rewrite He in Hmax. specialize (Hmax Hle).
      assert (e_key u ∈ e_key <$> skiplist s') as Hin by (apply list_elem_of_fmap_2; by eapply list_elem_of_lookup_2).
      destruct (decide (e_key u = Rec.key r)) as [Eu|Hne].
      + f_equal. eapply (ascending_inj e_num); [apply Hc'|exact Hj|exact Hi|]. unfold e_num. by rewrite Eu, He.
      + destruct (Hks _ Hin) as [?|Hold]; [done|]. exfalso. apply (Hno _ Hold). split; [|done].
        assert (key_num (e_key u) ≠ key_num (Rec.key r)) by (intros ?%key_num_inj; done). lia.
    - pose proof (seek_None _ _ Ej e ltac:(by eapply list_elem_of_lookup_2)) as Hlt. rewrite He in Hlt. lia. }
  exists (e_addr e). unfold search_cache, at_index. rewrite Hseek, Hi, Hp, Hbuf, Hs, Hh, Hcons.
  destruct (Z.eqb_spec (Rec.capacity rec) 0); [done|]. cbn. unfold InnerNode.get_hdr. by rewrite <- Hk.
Qed.

(** A bottom node over the keys from 0, cached in a pool of one megabyte. *)
Definition sample_bottom : InnerNode.t :=
  InnerNode.set_hdr (CH := InnerNode.sample_hash) (InnerNode.sample_node (InnerNode.sample_rec <$> [0; 10; 20]))
    (InnerHeader.Mk KeyMax KeyNull Gaddr_Null true true).
Definition sample_key : Key := default KeyNull (key_of_num 15).
Definition sample_cache : t :=
  Mk (λ _, InnerNode.zero) [] 585 0 584 (seq 0 584) [].

Lemma sample_bottom_searchable : searchable sample_bottom.
Proof.
  exists (InnerNode.sample_rec <$> [0; 10; 20]), (InnerNode.sample_rec 0). split_and!; [|done|vm_compute; discriminate].
  apply InnerNode.node_rep_set_consistent.
  pose proof (InnerNode.sample_rep [0; 10; 20] ltac:(apply Nat.leb_le; reflexivity) ltac:(vm_compute; reflexivity)) as [].
  by constructor.
Qed.

Lemma cache_hits_were_inserted_witness :
  ∃ s r path s', run (H := InnerNode.sample_hash) Gaddr_Null [Insert (InnerNode.sample_rec 0) sample_bottom] sample_cache = Ok (tt, s) ∧
    search_cache (CH := InnerNode.sample_hash) Gaddr_Null sample_key (InnerNode.sample_rec 0) [] s = Ok ((r, path), s').
Proof.
  destruct (cache_hits_were_inserted (H := InnerNode.sample_hash) Gaddr_Null 1 (λ _, InnerNode.zero) sample_cache
    [Insert (InnerNode.sample_rec 0) sample_bottom] sample_key (InnerNode.sample_rec 0) [])
    as (s & r & path & s' & H1 & H2 & _).
  - vm_compute. reflexivity.
  - vm_compute. discriminate.
  - repeat constructor. apply sample_bottom_searchable.
  - by exists s, r, path, s'.
Defined.

Lemma cache_insert_search_witness :
  ∃ s' a, insert_cache (InnerNode.sample_rec 0) sample_bottom sample_cache = Ok (true, s') ∧
    search_cache (CH := InnerNode.sample_hash) Gaddr_Null sample_key (InnerNode.sample_rec 0) [] s' =
      Ok ((InnerNode.sample_rec 10,
           [Rec.Mk 1 0 (Rec.key (InnerNode.sample_rec 0)) a Gaddr_Null 0; Rec.copy (InnerNode.sample_rec 10)]), s').
Proof.
  eexists. edestruct (cache_insert_search (H := InnerNode.sample_hash) Gaddr_Null sample_cache (InnerNode.sample_rec 0)
    sample_bottom sample_key (InnerNode.sample_rec 10) (InnerNode.sample_rec 0) []) as [a Ha];
    [apply (cache_make_wf _ _ 1 (λ _, InnerNode.zero)); [vm_compute; reflexivity|vm_compute; discriminate]
    |apply sample_bottom_searchable|vm_compute; reflexivity|vm_compute; reflexivity|vm_compute; reflexivity
    |vm_compute; reflexivity|vm_compute; discriminate|intros k' Hk'; by apply elem_of_nil in Hk'|reflexivity|].
  exists a. split; [reflexivity|exact Ha].
Defined.

End DMCache.
