(* ===== verification/CacheIndex.v ===== *)
(** * The skip list as the index of the inner-node cache

    [DMCache] models the index of the cache as a sorted list of entries, with
    [seek] and [list_insert].  The code keeps the entries in an inline skip
    list ordered by [CacheEntryComparator], with a buffer per thread that a
    refused insert leaves for the next one.  Any sequence of the calls the
    cache makes on the skip list returns what the same calls return on the
    sorted list, so the theorems of [DMCache] hold of the index the code
    has. *)
From S2P Require Import Prelude KVConfig RdmaConfig InlineSkipList SkipListShape SkipListThreads DMCache.
Import InlineSkipList.
Abbreviation CacheEntry := DMCache.CacheEntry.
Abbreviation MkEntry := DMCache.MkEntry.
Abbreviation e_key := DMCache.e_key.

(** [CacheEntryComparator]: descending keys. *)
#[export] Instance CacheEntryComparator : Comparator CacheEntry.
Proof.
  refine {| compare := DMCache.cmp; rank := DMCache.e_num |}.
  intros a b. rewrite DMCache.entry_cmp_num. unfold DMCache.e_num. lia.
Defined.

(** The skip list and the buffer [cache_entry_buf] of the calling thread. *)
Record index := MkIndex { sl : t (K:=CacheEntry); cache_entry_buf : ptr }.

(** The list the constructor of [DMCache] makes. *)
Definition make_index : result index := make 21 4 ≫= λ s, Ok (MkIndex s None).

Definition target (k : KVConfig.Key) : CacheEntry := MkEntry k None Gaddr_Null.

(** [iter.Seek(&u)] and [iter.key()] of a valid iterator: the node and its
    entry. *)
Definition index_seek (ix : index) (fuel : nat) (k : KVConfig.Key) : result (option (nat * CacheEntry)) :=
  Seek (sl ix) fuel (target k) ≫= λ n,
  match n with
  | None => Ok None
  | Some m => Iterator_key (sl ix) n ≫= λ e, Ok (Some (m, e))
  end.

(** [AllocateKey], the writing of the entry, [InsertConcurrently], and the
    reset of the buffer after a success. *)
Definition index_insert (ix : index) (fuel random_height : nat) (e : CacheEntry) : result (bool * index) :=
  AllocateKey (sl ix) (cache_entry_buf ix) random_height e ≫= λ '(y, s),
  InsertConcurrently s fuel y e ≫= λ '(b, s),
  Ok (b, MkIndex s (if b : bool then None else Some y)).

(** A store to the field [node] of the entry that [Seek] finds. *)
Definition index_store (ix : index) (fuel : nat) (k : KVConfig.Key) (p : option nat) : result (option CacheEntry * index) :=
  index_seek ix fuel k ≫= λ r,
  match r with
  | None => Ok (None, ix)
  | Some (m, e) =>
      Ok (Some e, MkIndex (set_key (sl ix) m (MkEntry (e_key e) p (DMCache.e_addr e))) (cache_entry_buf ix))
  end.

(** ** Runs *)

Inductive index_op :=
| IndexSeek (k : KVConfig.Key)
| IndexInsert (e : CacheEntry) (random_height : nat)
| IndexStore (k : KVConfig.Key) (p : option nat).

Inductive index_reply := Entry (e : option CacheEntry) | Inserted (b : bool).

Definition index_step (fuel : nat) (o : index_op) (ix : index) : result (index_reply * index) :=
  match o with
  | IndexSeek k => index_seek ix fuel k ≫= λ r, Ok (Entry (snd <$> r), ix)
  | IndexInsert e h => index_insert ix fuel h e ≫= λ '(b, ix), Ok (Inserted b, ix)
  | IndexStore k p => index_store ix fuel k p ≫= λ '(r, ix), Ok (Entry r, ix)
  end.

Fixpoint index_run (fuel : nat) (l : list index_op) (ix : index) : result (list index_reply * index) :=
  match l with
  | [] => Ok ([], ix)
  | o :: l => index_step fuel o ix ≫= λ '(r, ix), index_run fuel l ix ≫= λ '(rs, ix), Ok (r :: rs, ix)
  end.

(** The same calls on the list of entries of [DMCache]. *)
Definition list_step (o : index_op) (l : list CacheEntry) : index_reply * list CacheEntry :=
  match o with
  | IndexSeek k => (Entry (DMCache.seek l k ≫= λ i, l !! i), l)
  | IndexInsert e _ => let '(b, l) := DMCache.list_insert l e in (Inserted b, l)
  | IndexStore k p =>
      match DMCache.seek l k with
      | None => (Entry None, l)
      | Some i => (Entry (l !! i), alter (λ e, MkEntry (e_key e) p (DMCache.e_addr e)) i l)
      end
  end.

Fixpoint list_run (ops : list index_op) (l : list CacheEntry) : list index_reply * list CacheEntry :=
  match ops with
  | [] => ([], l)
  | o :: ops => let '(r, l) := list_step o l in let '(rs, l) := list_run ops l in (r :: rs, l)
  end.

Definition drawn (o : index_op) : Prop :=
  match o with IndexInsert _ h => (1 ≤ h ≤ 21)%nat | _ => True end.

(** ** The simulation *)

Record index_rel (ix : index) (l : list CacheEntry) L : Prop := {
  ir_shape : shape (sl ix) L;
  ir_buf : thread_ok (sl ix) L (Idle (cache_entry_buf ix));
  ir_contents : contents (sl ix) = l;
  ir_max : kMaxHeight_ (sl ix) = 21%nat }.

Lemma sorted_insert_entry l e : sorted_insert l e = DMCache.list_insert l e.
Proof. induction l as [|x l IH]; [done|]. cbn. by rewrite IH. Qed.

Lemma index_seek_spec ix l L k fuel :
  index_rel ix l L → (21 + length l ≤ fuel)%nat →
  match DMCache.seek l k with
  | None => index_seek ix fuel k = Ok None
  | Some i => ∃ m e, L 0%nat !! i = Some m ∧ l !! i = Some e ∧ key_of (sl ix) m = Some e ∧
      index_seek ix fuel k = Ok (Some (m, e))
  end.
Proof.
  intros [Hs Hb Hl Hm] Hf. pose proof (sh_bound _ _ Hs). pose proof (length_contents _ L Hs) as Hlen.
  unfold index_seek, Seek. rewrite (FindGreaterOrEqual_spec _ L Hs) by (rewrite <- Hlen, Hl; lia).
  cbn [mbind result_bind]. unfold DMCache.seek. subst l.
  change (λ e, 0 <=? DMCache.cmp e (MkEntry k None Gaddr_Null)) with (λ e, 0 <=? compare e (target k)).
  rewrite (first_index_contents _ L (target k) Hs). unfold first_ge.
  destruct (first_index _ (L 0%nat)) as [i|] eqn:Ei; [|done]. cbn [mbind option_bind].
  apply first_index_Some in Ei as [(m & Hi & _) _]. rewrite Hi.
  destruct (sh_keys _ _ Hs m (list_elem_of_lookup_2 _ _ _ Hi)) as [e He]. exists m, e.
  split; [done|]. split; [by rewrite (contents_shape _ L Hs), lookup_keys, Hi by apply (sh_keys _ _ Hs)|].
  split; [done|]. cbn. by rewrite (proj2 (Key_of _ m e) He).
Qed.

Lemma index_insert_spec ix l L e h fuel :
  index_rel ix l L → (1 ≤ h ≤ 21)%nat → (47 + length l < fuel)%nat →
  ∃ b ix' L', index_insert ix fuel h e = Ok (b, ix') ∧ DMCache.list_insert l e = (b, contents (sl ix')) ∧
    index_rel ix' (contents (sl ix')) L'.
Proof.
  intros [Hs Hb Hl Hm] Hh Hf. pose proof (sh_bound _ _ Hs).
  destruct (idle_step (MkChoice (CallInsert e) h 1 true) (sl ix) L (cache_entry_buf ix) Hs) as (th & s1 & E & Hok);
    [split; cbn; lia|done|]. cbn [step c_call c_height] in E.
  apply bind_Ok in E as ([y s1'] & Ea & [= <- <-]). unfold index_insert. rewrite Ea. cbn [mbind result_bind].
  destruct Hok as (L1 & o & Hs1 & Hth1 & Hev & _ & _ & Hc).
  assert (contents s1' = l) as Hc1.
  { destruct Hc as [[-> _]|Hc]; [done|]. inversion Hc; subst; congruence. }
  pose proof (ev_max _ _ _ _ _ Hev) as Hmax.
  destruct (InsertConcurrently_spec s1' L1 y e fuel Hs1 Hth1) as (b & s2 & L2 & -> & Hs2 & Hth2 & Hins & Hmax2);
    [rewrite Hmax, Hm, Hc1; lia|].
  cbn [mbind result_bind]. exists b, (MkIndex s2 (if b then None else Some y)), L2.
  split; [done|]. rewrite Hc1, sorted_insert_entry in Hins. split; [done|].
  split; [done|done|done|cbn; congruence].
Qed.

Lemma key_set_entry (e : CacheEntry) p : rank (MkEntry (e_key e) p (DMCache.e_addr e)) = rank e.
Proof. done. Qed.

Lemma index_store_spec ix l L k p fuel :
  index_rel ix l L → (21 + length l ≤ fuel)%nat →
  ∃ r ix', index_store ix fuel k p = Ok (r, ix') ∧
    list_step (IndexStore k p) l = (Entry r, contents (sl ix')) ∧ index_rel ix' (contents (sl ix')) L.
Proof.
  intros Hix Hf. pose proof (index_seek_spec ix l L k fuel Hix Hf) as Hseek. destruct Hix as [Hs Hb Hl Hm].
  unfold index_store. cbn [list_step]. destruct (DMCache.seek l k) as [i|].
  2:{ rewrite Hseek. exists None, ix. cbn. by rewrite Hl. }
  destruct Hseek as (m & e & Hi & Hli & He & ->). cbn [mbind result_bind].
  set (e' := MkEntry (e_key e) p (DMCache.e_addr e)). exists (Some e), (MkIndex (set_key (sl ix) m e') (cache_entry_buf ix)).
  destruct (set_key_shape (sl ix) L m e' i Hs Hi) as [Hs' Hc].
  { unfold rank_of. by rewrite He. }
  split; [done|]. split.
  - cbn [sl]. rewrite Hc, Hl, Hli. f_equal. apply list_eq. intros a. destruct (decide (a = i)) as [->|].
    + rewrite list_lookup_alter_eq, Hli, list_lookup_insert_eq; [done|by eapply lookup_lt_Some].
    + by rewrite list_lookup_alter_ne, list_lookup_insert_ne by done.
  - split; cbn [sl cache_entry_buf]; [done| |done|done].
    split; [|done]. destruct Hb as [Hown _]. intros y Hy. destruct (Hown y Hy) as ([z Hz] & (h & Hh & Hb) & HL).
    assert (y ≠ m) as Hym.
    { intros ->. apply list_elem_of_lookup_2, HL in Hi. cbn in Hi. lia. }
    split; [|split; [|done]].
    + exists z. rewrite key_of_set_key, decide_False by auto. done.
    + exists h. split; [|done]. unfold height_of in *. rewrite lookup_set_key, decide_False by done. done.
Qed.

Lemma index_step_spec ix l L o fuel :
  index_rel ix l L → drawn o → (47 + length l < fuel)%nat →
  ∃ r ix' L', index_step fuel o ix = Ok (r, ix') ∧ list_step o l = (r, contents (sl ix')) ∧
    index_rel ix' (contents (sl ix')) L' ∧ (length (contents (sl ix')) ≤ S (length l))%nat.
Proof.
  intros Hix Ho Hf. destruct o as [k|e h|k p].
  - pose proof (index_seek_spec ix l L k fuel Hix ltac:(lia)) as Hseek. cbn [index_step list_step].
    exists (Entry (DMCache.seek l k ≫= λ i, l !! i)), ix, L. rewrite (ir_contents _ _ _ Hix).
    split; [|split_and!; [done|done|lia]]. destruct (DMCache.seek l k) as [i|].
    + destruct Hseek as (m & e & _ & Hi & _ & ->). cbn. by rewrite Hi.
    + by rewrite Hseek.
  - destruct (index_insert_spec ix l L e h fuel Hix Ho Hf) as (b & ix' & L' & E & El & Hix').
    exists (Inserted b), ix', L'. cbn [index_step list_step]. rewrite E, El. split_and!; [done|done|done|].
    pose proof (DMCache.list_insert_spec l e) as Hli. rewrite El in Hli. destruct Hli as [[Hli _]|(l1 & l2 & -> & Hli & _)].
    + rewrite <- (ir_contents _ _ _ Hix). exact (contents_ascending _ L (ir_shape _ _ _ Hix)).
    + injection Hli as _ ->. lia.
    + injection Hli as _ ->. rewrite !length_app. cbn. lia.
  - destruct (index_store_spec ix l L k p fuel Hix ltac:(lia)) as (r & ix' & E & El & Hix').
    exists (Entry r), ix', L. cbn [index_step]. rewrite E. split_and!; [done|done|done|].
    cbn [list_step] in El. destruct (DMCache.seek l k) as [i|]; [|injection El as _ <-; lia].
    injection El as _ <-. rewrite length_alter. lia.
Qed.

Lemma index_run_spec ops ix l L fuel :
  index_rel ix l L → Forall drawn ops → (47 + length l + length ops < fuel)%nat →
  ∃ rs ix', index_run fuel ops ix = Ok (rs, ix') ∧ list_run ops l = (rs, contents (sl ix')).
Proof.
  intros Hix Hops. revert ix l L Hix. induction Hops as [|o ops Ho _ IH]; intros ix l L Hix Hf.
  { exists [], ix. cbn. by rewrite (ir_contents _ _ _ Hix). }
  cbn [length] in Hf. destruct (index_step_spec ix l L o fuel Hix Ho ltac:(lia)) as (r & ix1 & L1 & E & El & Hix1 & Hlen).
  destruct (IH ix1 _ L1 Hix1 ltac:(lia)) as (rs & ix' & Er & Elr).
  exists (r :: rs), ix'. cbn [index_run list_run]. rewrite E, El. cbn [mbind result_bind]. by rewrite Er, Elr.
Qed.

(** C19: the skip list made by the cache returns, for any sequence of seeks,
    inserts and stores to the entries found, what the sorted list of [DMCache]
    returns, and holds the same entries at the end.  The searches and inserts
    always end, within a number of iterations bounded by the number of
    calls. *)
Theorem cache_index_refines_list ops fuel :
  Forall drawn ops → (47 + length ops < fuel)%nat →
  ∃ rs ix', (make_index ≫= index_run fuel ops) = Ok (rs, ix') ∧ list_run ops [] = (rs, contents (sl ix')).
Proof.
  intros Hops Hf. unfold make_index. set (s := Mk 21 4 [MkNode None (replicate 21 None)] 1 : t (K:=CacheEntry)).
  assert (make 21 4 = Ok s) as Em by done. rewrite Em. cbn [mbind result_bind].
  destruct (make_ok 21 4 s 1 Em) as [[Hs Hth _] Habs]; [done|]. cbn [list_] in *.
  apply (index_run_spec ops (MkIndex s None) [] (λ _, [])); [|done|cbn; lia].
  split; [done|by apply (Hth 0%nat)|done|done].
Qed.

(** Three inserts, a refused one, a store and a seek. *)
Definition sample_entry (n : Z) (p : option nat) : CacheEntry :=
  MkEntry (default KeyNull (key_of_num n)) p Gaddr_Null.

Definition sample_ops : list index_op :=
  [IndexInsert (sample_entry 10 (Some 0%nat)) 2; IndexInsert (sample_entry 30 (Some 1%nat)) 1;
   IndexInsert (sample_entry 20 (Some 2%nat)) 3; IndexInsert (sample_entry 30 (Some 3%nat)) 1;
   IndexStore (e_key (sample_entry 25 None)) None; IndexSeek (e_key (sample_entry 29 None))].

Lemma cache_index_refines_list_witness :
  Forall drawn sample_ops ∧
  ∃ rs ix', (make_index ≫= index_run 60 sample_ops) = Ok (rs, ix') ∧ list_run sample_ops [] = (rs, contents (sl ix')).
Proof.
  assert (Forall drawn sample_ops) as H by (repeat constructor).
  split; [exact H|]. apply (cache_index_refines_list sample_ops 60 H). cbn. lia.
Defined.
