(* ===== verification/Tree.v ===== *)
(** * The index operations ([SkipVectorDM/src/DMInner.cc],
      [SkipVectorDM/src/SkipVectorDM.cc])

    The remote memory is typed: inner nodes, leaf blocks and fingerprint tables
    live at the addresses the allocator gave for them, next to the root pointer
    and the global lock word.  A verb that reads or writes such an object reads
    or writes the whole field or object at once; an access at an address that
    holds no such object, or with another size, is [OutOfBounds].  The memory of
    a memory node holds inner nodes and leaf blocks, that of a compute node the
    tables allocated there and its copies of the others'; a copy that a server on
    a memory node would make lands on whatever blocks are there, which the typed
    memory does not tell, and is [OutOfBounds] too.  A compute server runs one
    operation at a time; servers take turns between operations.

    [goto] and [while] loops carry fuel; running out of it is [OutOfFuel], which
    the theorems rule out.  A lock that is taken stays taken while an operation
    runs, so the retry loop of a [cas] ends in its assertion. *)

From S2P Require Import Prelude KVConfig RdmaConfig Hash LeafNode InnerTree LocalLockTable DMCache.
Open Scope Z_scope.

(** ** What the index asks of the allocator

    The state of all allocators, the number of memory nodes ([MemoryNumber]),
    whose identifiers come first, and the two calls of server [i]. *)
Class Allocator (A : Type) := {
  memory_nodes : Z;
  memory_alloc : nat → Z → A → result (Gaddr * A);
  compute_alloc : nat → Z → A → result (Gaddr * A) }.

(** ** State *)

(** A leaf block: the header and the entries that follow it. *)
Record leaf_block := MkLeaf { l_hdr : LeafHeader.t; l_entries : list Entry.t }.

Record shared (A : Type) := MkShared {
  inners : gmap Gaddr InnerNode.t;
  leaves : gmap Gaddr leaf_block;
  tables : gmap Gaddr FPTable.t;      (* DSM of the compute servers *)
  root_ptr : Gaddr;                   (* at (0, kRootPointerStoreOffest) *)
  glock : Z;                          (* at (0, kLockStartAddr) *)
  allocs : A }.
Arguments MkShared {A}.
Arguments inners {A}.
Arguments leaves {A}.
Arguments tables {A}.
Arguments root_ptr {A}.
Arguments glock {A}.
Arguments allocs {A}.

(** A compute server: its node id, cache, local lock table, and the
    [thread_local] root address and path of its thread. *)
Record server := MkServer {
  my_id : nat;
  dmcache : DMCache.t;
  local_locks : Z → LocalLockNode;
  local_root_addr : Gaddr;
  path : list Rec.t }.

Module SkipVectorDM.

Section SkipVectorDM.
Context {CH : CityHash} {A : Type} `{!Allocator A}.

(** Addresses and bytes the code leaves uninitialised. *)
Context (uninit : Gaddr) (stack : list Z).

Record st := Mk { mem : shared A; srv : server }.

Definition set_inners (s : st) (m : gmap Gaddr InnerNode.t) : st :=
  Mk (MkShared m (leaves (mem s)) (tables (mem s)) (root_ptr (mem s)) (glock (mem s)) (allocs (mem s))) (srv s).
Definition set_leaves (s : st) (m : gmap Gaddr leaf_block) : st :=
  Mk (MkShared (inners (mem s)) m (tables (mem s)) (root_ptr (mem s)) (glock (mem s)) (allocs (mem s))) (srv s).
Definition set_tables (s : st) (m : gmap Gaddr FPTable.t) : st :=
  Mk (MkShared (inners (mem s)) (leaves (mem s)) m (root_ptr (mem s)) (glock (mem s)) (allocs (mem s))) (srv s).
Definition set_root_ptr (s : st) (g : Gaddr) : st :=
  Mk (MkShared (inners (mem s)) (leaves (mem s)) (tables (mem s)) g (glock (mem s)) (allocs (mem s))) (srv s).
Definition set_glock (s : st) (l : Z) : st :=
  Mk (MkShared (inners (mem s)) (leaves (mem s)) (tables (mem s)) (root_ptr (mem s)) l (allocs (mem s))) (srv s).
Definition set_allocs (s : st) (a : A) : st :=
  Mk (MkShared (inners (mem s)) (leaves (mem s)) (tables (mem s)) (root_ptr (mem s)) (glock (mem s)) a) (srv s).
Definition set_cache (s : st) (c : DMCache.t) : st :=
  Mk (mem s) (MkServer (my_id (srv s)) c (local_locks (srv s)) (local_root_addr (srv s)) (path (srv s))).
Definition set_lock (s : st) (i : Z) (n : LocalLockNode) : st :=
  Mk (mem s) (MkServer (my_id (srv s)) (dmcache (srv s)) (λ j, if j =? i then n else local_locks (srv s) j)
    (local_root_addr (srv s)) (path (srv s))).
Definition set_local_root (s : st) (g : Gaddr) : st :=
  Mk (mem s) (MkServer (my_id (srv s)) (dmcache (srv s)) (local_locks (srv s)) g (path (srv s))).
Definition set_path (s : st) (p : list Rec.t) : st :=
  Mk (mem s) (MkServer (my_id (srv s)) (dmcache (srv s)) (local_locks (srv s)) (local_root_addr (srv s)) p).

(** ** Verbs on the typed memory *)

Definition fetch {V} (m : gmap Gaddr V) (a : Gaddr) : M st V :=
  lift (match m !! a with Some v => Ok v | None => Err OutOfBounds end).

Definition read_inner (a : Gaddr) : M st InnerNode.t := s ← get; fetch (inners (mem s)) a.
Definition write_inner (a : Gaddr) (n : InnerNode.t) : M st unit :=
  modify (λ s, set_inners s (<[a := n]> (inners (mem s)))).

(** A leaf block read with capacity [c]. *)
Definition read_leaf (a : Gaddr) (c : Z) : M st leaf_block :=
  s ← get; b ← fetch (leaves (mem s)) a;
  if Z.of_nat (length (l_entries b)) =? c then mret b else lift (Err OutOfBounds).
Definition write_leaf (a : Gaddr) (b : leaf_block) : M st unit :=
  modify (λ s, set_leaves s (<[a := b]> (leaves (mem s)))).
Definition write_entry (a : Gaddr) (c : Z) (i : nat) (e : Entry.t) : M st unit :=
  b ← read_leaf a c; write_leaf a (MkLeaf (l_hdr b) (<[i := e]> (l_entries b))).

Definition fetch_table (a : Gaddr) (c : Z) : M st FPTable.t :=
  s ← get; t ← fetch (tables (mem s)) a;
  if FPTable.capacity t =? c then mret t else lift (Err OutOfBounds).
Definition store_table (a : Gaddr) (t : FPTable.t) : M st unit :=
  modify (λ s, set_tables s (<[a := t]> (tables (mem s)))).

Definition alloc (f : nat → Z → A → result (Gaddr * A)) (size : Z) : M st Gaddr := λ s,
  match f (my_id (srv s)) size (allocs (mem s)) with
  | Ok (g, a) => Ok (g, set_allocs s a)
  | Err e => Err e
  end.

(** A call of the cache. *)
Definition cached {X} (m : M DMCache.t X) : M st X := λ s,
  match m (dmcache (srv s)) with
  | Ok (x, c) => Ok (x, set_cache s c)
  | Err e => Err e
  end.

(** [assert] as a statement. *)
Definition assert (b : bool) : M st unit := lift (require b).

(** What must fit in one page of the registered buffer ([get_page_buffer],
    [get_sibling_buffer]). *)
Definition in_page (size : Z) : M st unit :=
  lift (if size <=? 2 * KB then Ok tt else Err OutOfBounds).

(** [path[path.size() - 1]]. *)
Definition last_rec (l : list Rec.t) : result Rec.t := at_index l (length l - 1).

Definition get_path : M st (list Rec.t) := s ← get; mret (path (srv s)).
Definition put_path (p : list Rec.t) : M st unit := modify (λ s, set_path s p).

(** ** Locks *)

(** [lock_node], [unlock_node] on the lock word of an inner node. *)
Definition lock_node (a : Gaddr) : M st unit :=
  n ← read_inner a;
  if InnerNode.lock n =? 0
  then write_inner a (InnerNode.Mk (InnerNode.hdr n) (InnerNode.record n) (InnerNode.crc n) 1)
  else assert false.
Definition unlock_node (a : Gaddr) : M st unit :=
  n ← read_inner a; write_inner a (InnerNode.unlock n).

(** [lock_node(glock_addr, 0)], [unlock_node(glock_addr, 0)]. *)
Definition lock_index : M st unit :=
  s ← get; if glock (mem s) =? 0 then modify (λ s, set_glock s 1) else assert false.
Definition unlock_index : M st unit := modify (λ s, set_glock s 0).

(** [lock_table], [unlock_table] on the lock word of a fingerprint table. *)
Definition lock_table (a : Gaddr) (c : Z) : M st unit :=
  t ← fetch_table a c;
  if FPTable.lock t =? 0
  then store_table a (FPTable.Mk (FPTable.version t) (FPTable.fp t) (FPTable.crc t) 1)
  else assert false.
Definition unlock_table (a : Gaddr) (c : Z) : M st unit :=
  t ← fetch_table a c; store_table a (FPTable.unlock t).

(** ** Searching the inner levels ([DMInner.cc]) *)

Definition get_root_addr : M st Gaddr :=
  s ← get;
  if gaddr_neqb (local_root_addr (srv s)) Gaddr_Null then mret (local_root_addr (srv s))
  else
    let root := root_ptr (mem s) in
    modify (λ s, set_local_root s root);;
    assert (gaddr_neqb root Gaddr_Null);; mret root.

(** [inner_search]: whether to go down, the record, and [next_is_leaf]. *)
Fixpoint inner_search (fuel : nat) (addr : Gaddr) (k : Key) (record : Rec.t) : M st (bool * Rec.t * bool) :=
  match fuel with
  | O => lift (Err OutOfFuel)
  | S fuel =>
      node ← read_inner addr;
      if negb (InnerNode.check_consistent node) then inner_search fuel addr k record
      else
        p ← get_path;
        if (Z.of_nat (length p) =? 1) && negb (InnerNode.get_is_root node) then
          modify (λ s, set_local_root s Gaddr_Null);;
          addr ← get_root_addr;
          r0 ← lift (at_index p 0);
          put_path (<[0%nat := Rec.set_addr r0 addr]> p);;
          inner_search fuel addr k record
        else if negb (InnerNode.check_hdr node k) then
          let right := InnerHeader.right_addr (InnerNode.get_hdr node) in
          assert (gaddr_neqb right Gaddr_Null);;
          r ← lift (last_rec p);
          put_path (<[(length p - 1)%nat := Rec.set_addr r right]> p);;
          mret (false, Rec.set_addr record right, InnerHeader.next_is_leaf (InnerNode.get_hdr node))
        else
          '(r, next_is_leaf) ← lift (InnerNode.search node k);
          (if (next_is_leaf : bool)
           then up ← lift (last_rec p); cached (DMCache.insert_cache up node);; mret tt
           else mret tt);;
          mret (true, r, next_is_leaf)
  end.

Fixpoint find_leaf_loop (fuel : nat) (addr : Gaddr) (k : Key) (record : Rec.t) : M st Rec.t :=
  match fuel with
  | O => lift (Err OutOfFuel)
  | S fuel =>
      '(to_next, record, next_is_leaf) ← inner_search fuel addr k record;
      let addr := Rec.addr record in
      if negb to_next then find_leaf_loop fuel addr k record
      else
        p ← get_path;
        put_path (p ++ [Rec.copy record]);;
        if (next_is_leaf : bool) then mret record else find_leaf_loop fuel addr k record
  end.

Definition find_leaf (fuel : nat) (k : Key) : M st Rec.t :=
  addr ← get_root_addr;
  let record := Rec.make KeyNull addr Gaddr_Null 0 0 in
  put_path [Rec.copy record];;
  record ← find_leaf_loop fuel addr k record;
  assert (0 <? Rec.capacity record);; mret record.

Fixpoint bottom_search (fuel : nat) (addr : Gaddr) (k : Key) (record : Rec.t) : M st (bool * Rec.t * bool) :=
  match fuel with
  | O => lift (Err OutOfFuel)
  | S fuel =>
      node ← read_inner addr;
      if negb (InnerNode.check_consistent node) then bottom_search fuel addr k record
      else
        p ← get_path;
        r ← lift (last_rec p);
        if negb (InnerNode.check_hdr node k) then
          let right := InnerHeader.right_addr (InnerNode.get_hdr node) in
          assert (gaddr_neqb right Gaddr_Null);;
          put_path (<[(length p - 1)%nat := Rec.set_addr r right]> p);;
          mret (false, Rec.set_addr record right, InnerHeader.next_is_leaf (InnerNode.get_hdr node))
        else
          '(record, next_is_leaf) ← lift (InnerNode.search node k);
          assert next_is_leaf;;
          let up := Rec.set_addr (Rec.set_key r (InnerHeader.min_key (InnerNode.get_hdr node))) addr in
          put_path (<[(length p - 1)%nat := up]> p);;
          cached (DMCache.insert_cache up node);;
          mret (true, record, next_is_leaf)
  end.

Fixpoint bottom_loop (fuel : nat) (addr : Gaddr) (k : Key) (record : Rec.t) : M st Rec.t :=
  match fuel with
  | O => lift (Err OutOfFuel)
  | S fuel =>
      '(to_next, record, next_is_leaf) ← bottom_search fuel addr k record;
      if negb to_next then bottom_loop fuel (Rec.addr record) k record
      else
        p ← get_path;
        put_path (p ++ [Rec.copy record]);;
        assert next_is_leaf;; mret record
  end.

Definition read_bottom_inner (fuel : nat) (k : Key) : M st Rec.t :=
  p ← get_path;
  assert (Z.of_nat (length p) =? 2);;
  r0 ← lift (at_index p 0);
  let record := Rec.make KeyNull (Rec.addr r0) Gaddr_Null 0 0 in
  put_path [Rec.copy record];;
  record ← bottom_loop fuel (Rec.addr r0) k record;
  assert (0 <? Rec.capacity record);; mret record.

(** ** Changing the inner levels ([DMInner.cc]) *)

(** The loop [while(!node->check_hdr(inner_record.key))] of [inner_write]: the
    lock moves to the right until the node covers the key. *)
Fixpoint move_right (fuel : nat) (addr : Gaddr) (k : Key) (node : InnerNode.t) : M st (Gaddr * InnerNode.t) :=
  match fuel with
  | O => lift (Err OutOfFuel)
  | S fuel =>
      if InnerNode.check_hdr node k then mret (addr, node)
      else
        unlock_node addr;;
        let addr := InnerHeader.right_addr (InnerNode.get_hdr node) in
        lock_node addr;;
        node ← read_inner addr;
        assert (InnerNode.check_consistent node);;
        move_right fuel addr k node
  end.

(** [inner_write]: whether the record went in, the node's address, and the
    buffered node, whose lock is still held when it did not. *)
Definition inner_write (fuel : nat) (addr : Gaddr) (inner_record update_record : Rec.t) (is_bottom : bool)
    : M st (bool * Gaddr * InnerNode.t) :=
  lock_node addr;;
  node ← read_inner addr;
  assert (InnerNode.check_consistent node);;
  '(addr, node) ← move_right fuel addr (Rec.key inner_record) node;
  node ← (if is_bottom then
            assert (InnerHeader.next_is_leaf (InnerNode.get_hdr node));;
            assert (InnerNode.check_hdr node (Rec.key update_record));;
            '(ok, node) ← lift (InnerNode.insert node update_record);
            assert ok;; mret node
          else mret node);
  '(ok, node) ← lift (InnerNode.insert node inner_record);
  if (ok : bool) then
    write_inner addr (InnerNode.unlock node);; mret (true, addr, InnerNode.unlock node)
  else mret (false, addr, node).

(** [node_split]: the record for the level above. *)
Definition node_split (addr : Gaddr) (record : Rec.t) (node : InnerNode.t) : M st Rec.t :=
  let node := InnerNode.unlock node in
  let origin_hdr := InnerNode.get_hdr node in
  let sibling_hdr := InnerNode.get_hdr node in
  sibling_addr ← alloc memory_alloc InnerNode.size_of;
  '(records, upper_record, node) ← lift (InnerNode.split_origin node);
  let upper_record := Rec.set_addr upper_record sibling_addr in
  let node := InnerNode.set_hdr node
    (InnerHeader.Mk (Rec.key upper_record) (InnerHeader.min_key origin_hdr) sibling_addr false
       (InnerHeader.next_is_leaf origin_hdr)) in
  node ← (if key_gtb (Rec.key upper_record) (Rec.key record) then
            '(ok, node) ← lift (InnerNode.insert node record); assert ok;; mret node
          else mret node);
  let sibling := InnerNode.set_hdr InnerNode.zero
    (InnerHeader.Mk (InnerHeader.max_key sibling_hdr) (Rec.key upper_record) (InnerHeader.right_addr sibling_hdr) false
       (InnerHeader.next_is_leaf sibling_hdr)) in
  sibling ← lift (InnerNode.split_sibling sibling records);
  sibling ← (if key_ltb (Rec.key upper_record) (Rec.key record) then
               '(ok, sibling) ← lift (InnerNode.insert sibling record); assert ok;; mret sibling
             else mret sibling);
  write_inner sibling_addr sibling;;
  write_inner addr node;;
  mret (Rec.set_addr (Rec.set_key record (Rec.key upper_record)) (Rec.addr upper_record)).

Definition update_root (record : Rec.t) (update_addr : Gaddr) : M st unit :=
  lock_index;;
  s ← get;
  p ← get_path;
  r0 ← lift (at_index p 0);
  assert (gaddr_eqb (Rec.addr r0) (root_ptr (mem s)));;
  let root_hdr := InnerHeader.Mk KeyMax KeyNull uninit true false in
  sibling_addr ← alloc memory_alloc InnerNode.size_of;
  let node := InnerNode.set_hdr InnerNode.zero root_hdr in
  let init_record := Rec.make KeyNull update_addr Gaddr_Null 0 0 in
  '(ok, node) ← lift (InnerNode.insert node record);
  assert ok;;
  '(ok, node) ← lift (InnerNode.insert node init_record);
  assert ok;;
  write_inner sibling_addr node;;
  modify (λ s, set_root_ptr s sibling_addr);;
  unlock_index.

(** [inner_insert]: the loop over [i], from the bottom of the path up. *)
Fixpoint inner_insert_loop (fuel : nat) (i : nat) (k : Key) (inner_record update_record : Rec.t)
    (from_cache is_bottom : bool) : M st unit :=
  match fuel with
  | O => lift (Err OutOfFuel)
  | S fuel =>
      match i with
      | O => mret tt
      | S j =>
          p ← get_path;
          up ← lift (at_index p j);
          '(ok, addr, node) ← inner_write fuel (Rec.addr up) inner_record update_record is_bottom;
          if (ok : bool) then mret tt
          else
            put_path (<[j := Rec.set_key (Rec.set_addr up addr) (InnerHeader.min_key (InnerNode.get_hdr node))]> p);;
            if from_cache then
              unlock_node addr;;
              find_leaf fuel k;;
              p ← get_path;
              inner_insert_loop fuel (length p - 1) k inner_record update_record false is_bottom
            else
              inner_record ← node_split addr inner_record node;
              (if (j =? 0)%nat then update_root inner_record addr else mret tt);;
              inner_insert_loop fuel j k inner_record update_record from_cache false
      end
  end.

Definition inner_insert (fuel : nat) (k : Key) (inner_record update_record : Rec.t) (from_cache : bool) : M st unit :=
  p ← get_path;
  inner_insert_loop fuel (length p - 1) k inner_record update_record from_cache true.

(** [init_root_node]: the server that wins the [cas] on the root pointer
    creates the first leaf, its table and the root. *)
Definition init_root_node : M st unit :=
  root_inner_addr ← alloc memory_alloc InnerNode.size_of;
  s ← get;
  if negb (gaddr_val (root_ptr (mem s)) =? 0) then mret tt
  else
    modify (λ s, set_root_ptr s root_inner_addr);;
    root_leaf_addr ← alloc memory_alloc (LeafNode.cur_node_size LeafNodeCapacity);
    let fp_table := FPTable.set_consistent (FPTable.zero LeafNodeCapacity) in
    root_fp_addr ← alloc compute_alloc (FPTable.get_size fp_table);
    store_table root_fp_addr fp_table;;
    let hdr := LeafHeader.make uninit uninit in
    let root_leaf_hdr := LeafHeader.Mk (LeafHeader.max_key hdr) (LeafHeader.min_key hdr) LeafNodeCapacity
      (LeafHeader.version hdr) Gaddr_Null (LeafHeader.right_fp_addr hdr) 0 in
    write_leaf root_leaf_addr
      (MkLeaf root_leaf_hdr (replicate (Z.to_nat LeafNodeCapacity) (Entry.set_consistent Entry.zero)));;
    let root_node_hdr := InnerHeader.Mk KeyMax KeyNull uninit true true in
    let node := InnerNode.set_hdr InnerNode.zero root_node_hdr in
    let init_record := Rec.make KeyNull root_leaf_addr root_fp_addr LeafNodeCapacity 0 in
    '(_, node) ← lift (InnerNode.insert node init_record);
    write_inner root_inner_addr node;;
    cached (DMCache.insert_cache (Rec.set_addr init_record root_inner_addr) node);;
    mret tt.

(** ** Searching a leaf ([SkipVectorDM.cc]) *)

(** The copy of a table at the same offset of the server's own memory
    ([get_local_fp_buffer]); on a memory node there are blocks of the index. *)
Definition my_copy (s : st) (g : Gaddr) : result Gaddr :=
  if memory_nodes <=? Z.of_nat (my_id (srv s)) then Ok (MkGaddr (Z.of_nat (my_id (srv s))) (offset g)) else Err OutOfBounds.

(** The copy viewed through [tmp_fp_buffer]: 64 of its bytes, then what the stack
    holds.  Fresh memory is zero. *)
Definition local_table (s : st) (fp_addr : Gaddr) (c : Z) : result FPTable.t :=
  copy ← my_copy s fp_addr;
  if FPTable.size_for c <=? 128 then
    Ok (FPTable.attach
          (take 64 (match tables (mem s) !! copy with
                    | Some t => FPTable.bytes t
                    | None => replicate 64 0
                    end) ++ stack) c)
  else Err OutOfBounds.

(** Finding the leaf again after a version mismatch: the new record, and the
    flags [from_cache] and [is_sync_leaf]. *)
Definition relocate (fuel : nat) (drop_entry : bool) (k : Key) (from_cache is_sync_leaf : bool)
    : M st (Rec.t * bool * bool) :=
  if from_cache && negb is_sync_leaf then
    (if drop_entry then cached (DMCache.invalidate k) else mret tt);;
    r ← read_bottom_inner fuel k; mret (r, from_cache, true)
  else
    r ← find_leaf fuel k; mret (r, false, is_sync_leaf).

Inductive lookup_result := Found | Stale | Missing.

(** The loop over the slots whose fingerprint matches, and the content of
    [value] after it: [Entry::search] clears it on a miss. *)
Fixpoint search_slots (slots : list nat) (addr : Gaddr) (r : Rec.t) (k : Key) (value : Value)
    : M st (lookup_result * Value) :=
  match slots with
  | [] => mret (Missing, value)
  | i :: slots =>
      b ← read_leaf addr (Rec.capacity r);
      e ← lift (at_index (l_entries b) i);
      if negb (Entry.get_version e =? Rec.version r) then mret (Stale, value)
      else let '(ok, v) := Entry.search e k in
           if (ok : bool) then mret (Found, v) else search_slots slots addr r k v
  end.

(** The slots [i < capacity] with [fp[i] == fp]. *)
Definition matching (t : FPTable.t) (f : Z) : list nat :=
  filter (λ i, FPTable.fp t !! i = Some f) (seq 0 (length (FPTable.fp t))).

Fixpoint leaf_search (fuel : nat) (addr : Gaddr) (r : Rec.t) (from_cache from_local_fp is_sync_leaf : bool)
    (k : Key) (value : Value) : M st Value :=
  match fuel with
  | O => lift (Err OutOfFuel)
  | S fuel =>
      lift (LeafNode.attach_node (Rec.capacity r));;
      s ← get;
      local ← lift (local_table s (Rec.fp_addr r) (Rec.capacity r));
      fp0 ← lift (at_index (FPTable.fp local) 0);
      let from_local_fp := from_local_fp && negb ((fp0 =? 0) || (nodeID (Rec.fp_addr r) =? 0)) in
      fp_table ← (if from_local_fp then mret local else fetch_table (Rec.fp_addr r) (Rec.capacity r));
      if negb (FPTable.check_consistent fp_table) then
        leaf_search fuel addr r from_cache false is_sync_leaf k value
      else
        (if negb from_local_fp && negb (nodeID (Rec.fp_addr r) =? Z.of_nat (my_id (srv s))) &&
            negb (nodeID (Rec.fp_addr r) =? 0)
         then copy ← lift (my_copy s (Rec.fp_addr r)); store_table copy fp_table else mret tt);;
        if negb (FPTable.get_version fp_table =? Rec.version r) then
          '(r, from_cache, is_sync_leaf) ← relocate fuel true k from_cache is_sync_leaf;
          leaf_search fuel (Rec.addr r) r from_cache false is_sync_leaf k value
        else
          '(res, value) ← search_slots (matching fp_table (LeafNode.cal_key_fp k)) addr r k value;
          match res with
          | Found => mret value
          | Stale =>
              '(r, from_cache, is_sync_leaf) ← relocate fuel true k from_cache is_sync_leaf;
              leaf_search fuel (Rec.addr r) r from_cache false is_sync_leaf k value
          | Missing =>
              if from_local_fp then leaf_search fuel addr r from_cache false is_sync_leaf k value
              else mret value
          end
  end.

(** ** Inserting in a leaf *)

(** [local_lock_table->get_combining_value(key, value)]. *)
Definition combining_value (k : Key) (value : Value) : M st Value :=
  s ← get; mret (get_combining_value (local_locks (srv s) (get_hashed_lock_index k)) k value).2.

(** The loop over the slots whose fingerprint matches: the slot whose entry
    took the pair, with the entry and the value, or the value alone. *)
Fixpoint insert_slots (slots : list nat) (addr : Gaddr) (r : Rec.t) (k : Key) (value : Value)
    : M st (option (nat * Entry.t) * Value) :=
  match slots with
  | [] => mret (None, value)
  | i :: slots =>
      b ← read_leaf addr (Rec.capacity r);
      e ← lift (at_index (l_entries b) i);
      assert (Entry.check_consistent e);;
      assert (Entry.get_version e =? Rec.version r);;
      value ← combining_value k value;
      let '(ok, e) := Entry.insert e k value in
      if (ok : bool) then mret (Some (i, e), value) else insert_slots slots addr r k value
  end.

(** The first loop of [leaf_resize]: each entry's version is raised and the
    valid ones are taken out. *)
Fixpoint drain_entries (es : list Entry.t) : result (list EntryPos * list Entry.t) :=
  match es with
  | [] => Ok ([], [])
  | e :: es =>
      require (Entry.check_consistent e) ≫= λ _,
      let e := Entry.add_version e in
      (if Entry.valid e =? 1 then
         Entry.clean e ≫= λ e', drain_entries es ≫= λ '(ps, es), Ok (EntryPos_of e :: ps, e' :: es)
       else drain_entries es ≫= λ '(ps, es), Ok (ps, e :: es))
  end.

(** The second loop of [leaf_resize] for one of the two tables. *)
Fixpoint fill_table (ps : list EntryPos) (t : FPTable.t) (es : list Entry.t) : result (FPTable.t * list Entry.t) :=
  match ps with
  | [] => Ok (t, es)
  | p :: ps =>
      match FPTable.insert t (LeafNode.cal_key_fp (ep_key p)) with
      | (Some i, t) =>
          at_index es i ≫= λ e,
          let '(ok, e) := Entry.insert e (ep_key p) (ep_value p) in
          require ok ≫= λ _, fill_table ps t (<[i := e]> es)
      | (None, _) => Err AssertionFailure
      end
  end.

(** The size of a leaf block with its table behind it, as [leaf_resize] lays
    them out in a page buffer. *)
Definition leaf_and_table (c : Z) : Z := LeafNode.cur_node_size c + FPTable.size_for c.

Definition leaf_resize (fuel : nat) (addr fp_addr : Gaddr) (cap : Z) (k : Key) (value : Value) (from_cache : bool)
    : M st unit :=
  in_page (leaf_and_table cap);;
  value ← combining_value k value;
  b ← read_leaf addr cap;
  '(taken, cur_entries) ← lift (drain_entries (l_entries b));
  s ← get;
  let node_entries := MkEntryPos k value :: taken in
  let sibling_capacity := DMCache.adapt_capacity (dmcache (srv s)) cap in
  let split := if cap <? sibling_capacity then 0%nat else (length node_entries / 2)%nat in
  let node_entries := std_sort entry_cmp node_entries in
  in_page (leaf_and_table sibling_capacity);;
  sibling_addr ← alloc memory_alloc (LeafNode.cur_node_size sibling_capacity);
  sibling_fp_addr ← alloc compute_alloc (FPTable.size_for sibling_capacity);
  mid ← lift (at_index node_entries split);
  let version := LeafHeader.version (l_hdr b) + 1 in
  let current_hdr := LeafHeader.update_right
    (LeafHeader.Mk (ep_key mid) (LeafHeader.min_key (l_hdr b)) (LeafHeader.capacity (l_hdr b)) version
       (LeafHeader.right_addr (l_hdr b)) (LeafHeader.right_fp_addr (l_hdr b)) (LeafHeader.right_capacity (l_hdr b)))
    sibling_addr sibling_fp_addr sibling_capacity in
  '(cur_table, cur_entries) ← lift (fill_table (take split node_entries)
    (FPTable.set_version (FPTable.zero cap) version) cur_entries);
  '(sib_table, sib_entries) ← lift (fill_table (drop split node_entries) (FPTable.zero sibling_capacity)
    (replicate (Z.to_nat sibling_capacity) (Entry.set_consistent Entry.zero)));
  let sibling_hdr := LeafHeader.Mk (LeafHeader.max_key (l_hdr b)) (LeafHeader.max_key current_hdr) sibling_capacity 0
    (LeafHeader.right_addr (l_hdr b)) (LeafHeader.right_fp_addr (l_hdr b)) (LeafHeader.right_capacity (l_hdr b)) in
  write_leaf sibling_addr (MkLeaf sibling_hdr sib_entries);;
  store_table sibling_fp_addr sib_table;;
  write_leaf addr (MkLeaf current_hdr cur_entries);;
  store_table fp_addr cur_table;;
  inner_insert fuel k
    (Rec.make (LeafHeader.min_key sibling_hdr) sibling_addr sibling_fp_addr sibling_capacity 0)
    (Rec.make (LeafHeader.min_key current_hdr) addr fp_addr cap version)
    from_cache.

Fixpoint leaf_insert (fuel : nat) (addr : Gaddr) (r : Rec.t) (from_cache is_sync_leaf : bool)
    (k : Key) (value : Value) : M st unit :=
  match fuel with
  | O => lift (Err OutOfFuel)
  | S fuel =>
      lift (LeafNode.attach_node (Rec.capacity r));;
      lock_table (Rec.fp_addr r) (Rec.capacity r);;
      fp_table ← fetch_table (Rec.fp_addr r) (Rec.capacity r);
      assert (FPTable.check_consistent fp_table);;
      if negb (FPTable.get_version fp_table =? Rec.version r) then
        unlock_table (Rec.fp_addr r) (Rec.capacity r);;
        '(r, from_cache, is_sync_leaf) ← relocate fuel true k from_cache is_sync_leaf;
        leaf_insert fuel (Rec.addr r) r from_cache is_sync_leaf k value
      else
        let f := LeafNode.cal_key_fp k in
        '(hit, value) ← insert_slots (matching fp_table f) addr r k value;
        match hit with
        | Some (i, e) =>
            write_entry addr (Rec.capacity r) i e;;
            unlock_table (Rec.fp_addr r) (Rec.capacity r)
        | None =>
            match FPTable.insert fp_table f with
            | (Some i, fp_table) =>
                value ← combining_value k value;
                let '(ok, e) := Entry.insert (Entry.set_version Entry.zero (Rec.version r)) k value in
                assert ok;;
                write_entry addr (Rec.capacity r) i e;;
                store_table (Rec.fp_addr r) (FPTable.unlock fp_table)
            | (None, _) => leaf_resize fuel addr (Rec.fp_addr r) (Rec.capacity r) k value from_cache
            end
        end
  end.

(** ** Scanning *)

(** [read_table]: the block, when all entries read have one version. *)
Definition read_table (addr : Gaddr) (cap entry_num : Z) : M st (bool * leaf_block) :=
  let read_num := if entry_num <? cap then entry_num + 1 else entry_num in
  b ← read_leaf addr cap;
  let es := take (Z.to_nat read_num) (l_entries b) in
  mret (forallb Entry.check_consistent es &&
        match es with
        | [] => true
        | e :: es => forallb (λ x, Entry.get_version e =? Entry.get_version x) es
        end, b).

(** [leaf_scan]: the entries pushed to the result queue, in the order of the
    pushes. *)
Fixpoint leaf_scan (fuel : nat) (addr : Gaddr) (r : Rec.t) (from_cache is_sync_leaf head_node : bool)
    (from to : Key) (len : Z) : M st (list EntryPos) :=
  match fuel with
  | O => lift (Err OutOfFuel)
  | S fuel =>
      if gaddr_eqb addr Gaddr_Null || (len <=? 0) then mret []
      else
        lift (LeafNode.attach_node (Rec.capacity r));;
        in_page (leaf_and_table (Rec.capacity r));;
        fp_table ← fetch_table (Rec.fp_addr r) (Rec.capacity r);
        let again :=
          '(r, from_cache, is_sync_leaf) ← relocate fuel false from from_cache is_sync_leaf;
          leaf_scan fuel (Rec.addr r) r from_cache is_sync_leaf head_node from to len in
        if negb (FPTable.check_consistent fp_table) then
          leaf_scan fuel addr r from_cache is_sync_leaf head_node from to len
        else if head_node && negb (FPTable.get_version fp_table =? Rec.version r) then again
        else
          let entry_num := FPTable.get_entry_num fp_table in
          '(ok, b) ← read_table addr (Rec.capacity r) entry_num;
          if negb ok then lift (Err OutOfFuel)
          else if head_node && negb (LeafHeader.version (l_hdr b) =? Rec.version r) then again
          else
            assert (Rec.capacity r =? LeafHeader.capacity (l_hdr b));;
            if key_ltb to (LeafHeader.min_key (l_hdr b)) then mret []
            else
              let found := EntryPos_of <$> filter (λ e, Entry.valid e = 1 ∧ key_geb (Entry.key e) from = true)
                (take (Z.to_nat entry_num) (l_entries b)) in
              let right := LeafHeader.right_addr (l_hdr b) in
              if gaddr_eqb right Gaddr_Null then mret found
              else
                let r := Rec.Mk (Rec.valid r) (Rec.version r) (Rec.key r) (Rec.addr r)
                           (LeafHeader.right_fp_addr (l_hdr b)) (LeafHeader.right_capacity (l_hdr b)) in
                more ← leaf_scan fuel right r from_cache is_sync_leaf false from to (len - Z.of_nat (length found));
                mret (found ++ more)
  end.

(** ** Public functions *)

(** [acquire_local_read_lock]: no other thread of the server runs, so a ticket
    that is not served at once is waited for in vain. *)
Definition acquire_read (k : Key) : M st (bool * bool) :=
  s ← get;
  let i := get_hashed_lock_index k in
  match read_enter (local_locks (srv s) i) k with
  | (Conflict, n) => modify (λ s, set_lock s i n);; mret (false, true)
  | (Ticket t, n) =>
      if t =? read_current n
      then let '(r, n) := read_admit n k in modify (λ s, set_lock s i n);; mret r
      else lift (Err OutOfFuel)
  end.
Definition acquire_write (k : Key) (value : Value) : M st (bool * bool) :=
  s ← get;
  let i := get_hashed_lock_index k in
  match write_enter (local_locks (srv s) i) k value with
  | (Conflict, n) => modify (λ s, set_lock s i n);; mret (false, true)
  | (Ticket t, n) =>
      if t =? write_current n
      then let '(r, n) := write_admit n k in modify (λ s, set_lock s i n);; mret r
      else lift (Err OutOfFuel)
  end.
Definition release_read (k : Key) (acquire_ret : bool * bool) (res : bool) (value : Value) : M st (bool * Value) :=
  s ← get;
  let i := get_hashed_lock_index k in
  let '(rv, n) := read_release (local_locks (srv s) i) acquire_ret res value in
  modify (λ s, set_lock s i n);; mret rv.
Definition release_write (k : Key) (acquire_ret : bool * bool) : M st unit :=
  modify (λ s, let i := get_hashed_lock_index k in set_lock s i (write_release (local_locks (srv s) i) acquire_ret)).

(** The start of every operation: the leaf from the cache, or from the root. *)
Definition locate (fuel : nat) (k : Key) : M st (Rec.t * bool) :=
  p ← get_path;
  '(r, p) ← cached (DMCache.search_cache uninit k (Rec.default uninit uninit) p);
  put_path p;;
  if gaddr_neqb (Rec.addr r) Gaddr_Null then mret (r, true)
  else r ← find_leaf fuel k; mret (r, false).

(** [read(key, value)]: the returned flag and the value. *)
Definition read (fuel : nat) (k : Key) (value : Value) : M st (bool * Value) :=
  lock_res ← acquire_read k;
  if lock_res.1 && negb lock_res.2 then
    '(_, value) ← release_read k lock_res false value; mret (value =? ValueNull, value)
  else
    '(r, from_cache) ← locate fuel k;
    value ← leaf_search fuel (Rec.addr r) r from_cache true false k value;
    '(_, value) ← release_read k lock_res false value; mret (value =? ValueNull, value).

Definition write (fuel : nat) (k : Key) (value : Value) : M st unit :=
  lock_res ← acquire_write k value;
  if lock_res.1 && negb lock_res.2 then release_write k lock_res
  else
    '(r, from_cache) ← locate fuel k;
    leaf_insert fuel (Rec.addr r) r from_cache false k value;;
    release_write k lock_res.

(** [scan(from, to, len)]: the entries gathered in [kv_results].  The code drops
    that queue when it returns 0; the model returns it, so that what a scan read
    can be stated. *)
Definition scan (fuel : nat) (from to : Key) (len : Z) : M st (list EntryPos) :=
  '(r, from_cache) ← locate fuel from;
  leaf_scan fuel (Rec.addr r) r from_cache false true from to len.

(** The constructor of server [id]: an empty cache and unused locks, then the
    root node.  [junk] and [lock_junk] are what fresh memory holds. *)
Definition construct (kInnerCacheSize : Z) (junk : nat → InnerNode.t) (lock_junk : Z → bool * Value * Value) (id : nat)
    (m : shared A) : result st :=
  DMCache.make kInnerCacheSize junk ≫= λ c,
  let locks := λ i, let '(r, v1, v2) := lock_junk i in new_node r v1 v2 in
  init_root_node (Mk m (MkServer id c locks Gaddr_Null [])) ≫= λ '(_, s), Ok s.

End SkipVectorDM.

End SkipVectorDM.
