(* ===== verification/TreeChain.v ===== *)
(** * Chains of cells

    The nodes of one level of the index form a list linked to the right; each
    covers the keys from its least key up to the least key of its neighbour.  A
    chain is such a list for any kind of cell, with a condition [ok] on a cell
    and what it knows of the next one. *)

From S2P Require Import Prelude KVConfig RdmaConfig.
Open Scope Z_scope.

(** What a cell knows of its right neighbour. *)
Record link := Link { k_addr : Gaddr; k_fp : Gaddr; k_min : Key }.

Definition limit (nxt : option link) : Z := key_num (match nxt with Some l => k_min l | None => KeyMax end).

Section chain.
Context {C : Type} (lk : C → link).
Implicit Types (L : list C) (c d : C) (ok : C → option link → Prop) (nxt : option link).

Definition first L nxt : option link := match L with [] => nxt | c :: _ => Some (lk c) end.

Fixpoint chain ok L nxt : Prop :=
  match L with
  | [] => True
  | c :: L => ok c (first L nxt) ∧ chain ok L nxt
  end.

Lemma first_app L1 L2 nxt : first (L1 ++ L2) nxt = first L1 (first L2 nxt).
Proof. by destruct L1. Qed.

Lemma chain_app ok L1 L2 nxt : chain ok (L1 ++ L2) nxt ↔ chain ok L1 (first L2 nxt) ∧ chain ok L2 nxt.
Proof. induction L1 as [|c L1 IH]; cbn; [tauto|]. rewrite IH, first_app. tauto. Qed.

Lemma chain_middle ok L1 c L2 nxt :
  chain ok (L1 ++ c :: L2) nxt ↔ chain ok L1 (Some (lk c)) ∧ ok c (first L2 nxt) ∧ chain ok L2 nxt.
Proof. by rewrite chain_app. Qed.

Lemma chain_mono ok ok' L nxt :
  (∀ c nxt, c ∈ L → ok c nxt → ok' c nxt) → chain ok L nxt → chain ok' L nxt.
Proof.
  induction L as [|c L IH]; cbn; [done|]. intros H [Hc HL]. split; [apply H; [left|done]|].
  apply IH; [|done]. intros d n Hd. apply H. by right.
Qed.

Lemma chain_elem ok L nxt c : chain ok L nxt → c ∈ L → ∃ n, ok c n.
Proof.
  intros H (L1 & L2 & ->)%list_elem_of_split. apply chain_middle in H as (_ & H & _). eauto.
Qed.

(** ** Changing a chain *)

(** A cell replaced by one with the same link. *)
Lemma chain_replace (ok ok' : C → option link → Prop) L1 c c' L2 nxt :
  (∀ d n, d ∈ L1 ++ L2 → ok d n → ok' d n) → lk c' = lk c → ok' c' (first L2 nxt) →
  chain ok (L1 ++ c :: L2) nxt → chain ok' (L1 ++ c' :: L2) nxt.
Proof.
  intros Hm Hl Hc (H1 & H2 & H3)%chain_middle. apply chain_middle. rewrite Hl. split_and!; [|done|].
  - eapply chain_mono; [|exact H1]. intros d n Hd. apply Hm. set_solver.
  - eapply chain_mono; [|exact H3]. intros d n Hd. apply Hm. set_solver.
Qed.

(** A cell replaced by two. *)
Lemma chain_split (ok ok' : C → option link → Prop) L1 c c1 c2 L2 nxt :
  (∀ d n, d ∈ L1 ++ L2 → ok d n → ok' d n) → lk c1 = lk c →
  ok' c1 (Some (lk c2)) → ok' c2 (first L2 nxt) →
  chain ok (L1 ++ c :: L2) nxt → chain ok' (L1 ++ c1 :: c2 :: L2) nxt.
Proof.
  intros Hm Hl Hc1 Hc2 (H1 & H2 & H3)%chain_middle. apply chain_middle. rewrite Hl. cbn.
  split_and!; [|done|done|].
  - eapply chain_mono; [|exact H1]. intros d n Hd. apply Hm. set_solver.
  - eapply chain_mono; [|exact H3]. intros d n Hd. apply Hm. set_solver.
Qed.

End chain.

(** ** Ranges *)

Section ranges.
Context {C : Type} (lk : C → link) (hi : C → Z).
Implicit Types (L : list C) (c d : C) (nxt : option link).
Abbreviation chain := (chain lk).
Abbreviation first := (first lk).

Definition lo (c : C) : Z := key_num (k_min (lk c)).
Definition covers (c : C) (k : Key) : Prop := lo c ≤ key_num k < hi c.

Definition ranged (ok : C → option link → Prop) : Prop := ∀ c nxt, ok c nxt → lo c < hi c ∧ hi c = limit nxt.

Context (ok : C → option link → Prop) (Hok : ranged ok).

Lemma chain_limit L nxt : chain ok L nxt → limit (first L nxt) ≤ limit nxt.
Proof.
  induction L as [|c L IH]; cbn; [lia|]. intros [[H1 H2]%Hok HL]. specialize (IH HL).
  change (limit (Some (lk c))) with (lo c). lia.
Qed.

(** The place of a cell among the others. *)
Lemma chain_place L1 c L2 nxt :
  chain ok (L1 ++ c :: L2) nxt →
  lo c < hi c ≤ limit nxt ∧ limit (first (L1 ++ c :: L2) nxt) ≤ lo c ∧
  (∀ d, d ∈ L1 → lo d < hi d ≤ lo c) ∧ (∀ d, d ∈ L2 → hi c ≤ lo d < hi d).
Proof.
  intros H. pose proof H as (H1 & Hc & H2)%chain_middle. pose proof (Hok _ _ Hc) as [Hlt Hhi].
  pose proof (chain_limit _ _ H1) as Hl1. pose proof (chain_limit _ _ H2) as Hl2.
  change (limit (Some (lk c))) with (lo c) in Hl1. split_and!; [lia|lia| | |].
  - rewrite first_app. cbn. lia.
  - intros d (A1 & A2 & ->)%list_elem_of_split. apply chain_middle in H1 as (_ & [? Hd]%Hok & H1).
    pose proof (chain_limit _ _ H1) as Hl. change (limit (Some (lk c))) with (lo c) in Hl. lia.
  - intros d (A1 & A2 & ->)%list_elem_of_split. pose proof H2 as (H3 & [? _]%Hok & _)%chain_middle.
    pose proof (chain_limit _ _ H3) as Hl. change (limit (Some (lk d))) with (lo d) in Hl.
    rewrite first_app in Hhi. cbn in Hhi. lia.
Qed.

(** The border between two parts. *)
Lemma chain_cut L1 L2 nxt :
  chain ok (L1 ++ L2) nxt →
  (∀ d, d ∈ L1 → hi d ≤ limit (first L2 nxt)) ∧ (∀ d, d ∈ L2 → limit (first L2 nxt) ≤ lo d).
Proof.
  intros [H1 H2]%chain_app. split; intros d (B1 & B2 & ->)%list_elem_of_split; by apply chain_place in H1 || apply chain_place in H2; lia.
Qed.

Lemma chain_ascending L nxt : chain ok L nxt → ascending lo L.
Proof.
  unfold ascending. induction L as [|c L IH]; intros H; constructor; [apply IH, H|].
  apply Forall_forall. intros d Hd. destruct (chain_place [] c L nxt H) as (? & _ & _ & H2).
  specialize (H2 d Hd). lia.
Qed.

(** Each key above the first least key has exactly one cell. *)
Lemma chain_cover L nxt k :
  chain ok L nxt → limit (first L nxt) ≤ key_num k < limit nxt → ∃ c, c ∈ L ∧ covers c k.
Proof.
  induction L as [|c L IH]; intros H Hk; [cbn in Hk; lia|]. destruct H as [Hc HL].
  pose proof (Hok _ _ Hc) as [Hlt Hhi]. destruct (Z.lt_ge_cases (key_num k) (hi c)) as [Hl|Hl].
  - exists c. split; [left|]. split; [exact (proj1 Hk)|done].
  - destruct (IH HL) as (d & Hd & Hcov); [lia|]. exists d. split; [by right|done].
Qed.

Lemma chain_cover_unique L nxt c d k :
  chain ok L nxt → c ∈ L → d ∈ L → covers c k → covers d k → c = d.
Proof.
  intros H (L1 & L2 & ->)%list_elem_of_split Hd [Hc1 Hc2] [Hd1 Hd2].
  destruct (chain_place _ _ _ _ H) as (_ & _ & Hl & Hr).
  apply elem_of_app in Hd as [Hd|[->|Hd]%elem_of_cons]; [|done|].
  - specialize (Hl d Hd). lia.
  - specialize (Hr d Hd). lia.
Qed.

(** The cell with the greatest least key not above [k] covers it. *)
Lemma chain_floor L nxt c k :
  chain ok L nxt → c ∈ L → lo c ≤ key_num k < limit nxt →
  (∀ d, d ∈ L → lo d ≤ key_num k → lo d ≤ lo c) → covers c k.
Proof.
  intros H (L1 & L2 & ->)%list_elem_of_split Hk Hmax. split; [lia|].
  pose proof H as (_ & [Hlt Hhi]%Hok & _)%chain_middle. destruct L2 as [|d L2]; [cbn in Hhi; lia|].
  cbn in Hhi. change (limit (Some (lk d))) with (lo d) in Hhi. specialize (Hmax d ltac:(set_solver)). lia.
Qed.

End ranges.
