(* ===== verification/TreeLeaf.v ===== *)
(** * Leaves of the index

    What a leaf block and its fingerprint table represent (a list of distinct
    keys with their values, all entries at one version), and what the slot loops
    of [leaf_search], [leaf_insert] and [leaf_resize] do to it. *)

From S2P Require Import Prelude KVConfig RdmaConfig Hash LeafNode InnerTree LocalLockTable DMCache Tree TreeChain.
Open Scope Z_scope.

Import SkipVectorDM.

Definition cap : nat := 32.
#[global] Arguments cap : simpl never.

Lemma cap_Z : Z.of_nat cap = LeafNodeCapacity.
Proof. done. Qed.

Definition live_entry (ver : Z) (p : EntryPos) : Entry.t := Entry.Mk 1 ver (ep_key p) (ep_value p).

Definition free_entry (ver : Z) (e : Entry.t) : Prop := Entry.valid e = 0 ∧ Entry.version e = ver.

(** The entries of a block: the pairs [kvs] in slot order, then free slots. *)
Record entries_rep (ver : Z) (kvs : list EntryPos) (es : list Entry.t) : Prop := {
  er_live : take (length kvs) es = live_entry ver <$> kvs;
  er_free : Forall (free_entry ver) (drop (length kvs) es);
  er_length : length es = cap }.

(** The fingerprint table of the same slots. *)
Record table_rep (ver : Z) (kvs : list EntryPos) (t : FPTable.t) : Prop := {
  tr_version : FPTable.version t = ver;
  tr_fp : FPTable.fp t = (LeafNode.cal_key_fp ∘ ep_key <$> kvs) ++ replicate (cap - length kvs) 0;
  tr_lock : FPTable.lock t = 0 }.

Definition kv_map (kvs : list EntryPos) : gmap Key Value := list_to_map ((λ p, (ep_key p, ep_value p)) <$> kvs).

(** ** Lemmas on the representation *)

Lemma kv_map_lookup kvs k v :
  NoDup (ep_key <$> kvs) → kv_map kvs !! k = Some v ↔ MkEntryPos k v ∈ kvs.
Proof.
  intros Hd. unfold kv_map. rewrite <- elem_of_list_to_map.
  - rewrite list_elem_of_fmap. split; [intros ([k' v'] & [= -> ->] & ?); done|].
    intros H. by exists (MkEntryPos k v).
  - rewrite <- list_fmap_compose. exact Hd.
Qed.

Lemma kv_map_None kvs k : kv_map kvs !! k = None ↔ k ∉ ep_key <$> kvs.
Proof. unfold kv_map. rewrite <- not_elem_of_list_to_map, <- list_fmap_compose. done. Qed.

Lemma cal_key_fp_byte k : 1 ≤ LeafNode.cal_key_fp k ≤ 255.
Proof.
  unfold LeafNode.cal_key_fp. set (x := u8 (Z.land _ _)).
  assert (fits 8 x) as Hx by (apply wrap_fits; lia). unfold fits in Hx.
  destruct (Z.eqb_spec x 0); lia.
Qed.

#[global] Opaque LeafNode.cal_key_fp.

Lemma er_le ver kvs es : entries_rep ver kvs es → (length kvs ≤ cap)%nat.
Proof.
  intros [H1 _ H3]. apply (f_equal length) in H1. rewrite length_take, length_fmap, H3 in H1. lia.
Qed.

Lemma er_lookup ver kvs es i p :
  entries_rep ver kvs es → kvs !! i = Some p → es !! i = Some (live_entry ver p).
Proof.
  intros [H1 _ _] Hi. pose proof (lookup_lt_Some _ _ _ Hi) as Hlt.
  rewrite <- (lookup_take_lt es (length kvs)) by done. by rewrite H1, list_lookup_fmap, Hi.
Qed.

(** Every slot holds a pair of the list at its place, or is free; all are at
    the leaf's version. *)
Lemma er_slot ver kvs es i e :
  entries_rep ver kvs es → es !! i = Some e →
  Entry.version e = ver ∧
  ((∃ p, kvs !! i = Some p ∧ e = live_entry ver p) ∨ kvs !! i = None ∧ Entry.valid e = 0).
Proof.
  intros Her Hi. pose proof Her as [H1 H2 H3]. destruct (kvs !! i) as [p|] eqn:Hp.
  - rewrite (er_lookup _ _ _ _ _ Her Hp) in Hi. injection Hi as <-. split; [done|]. left. eauto.
  - apply lookup_ge_None in Hp. rewrite Forall_lookup in H2.
    destruct (H2 (i - length kvs)%nat e) as [Hv Hver].
    { rewrite lookup_drop. by replace (length kvs + (i - length kvs))%nat with i by lia. }
    auto.
Qed.

Lemma tr_length ver kvs t : (length kvs ≤ cap)%nat → table_rep ver kvs t → length (FPTable.fp t) = cap.
Proof. intros Hl [_ Hf _]. rewrite Hf, length_app, length_fmap, length_replicate. lia. Qed.

Lemma tr_capacity ver kvs t : (length kvs ≤ cap)%nat → table_rep ver kvs t → FPTable.capacity t = LeafNodeCapacity.
Proof. intros Hl Ht. unfold FPTable.capacity. by rewrite (tr_length _ _ _ Hl Ht). Qed.

(** The slots that may hold a key. *)
Lemma elem_of_matching t f i : i ∈ matching t f ↔ FPTable.fp t !! i = Some f.
Proof.
  unfold matching. rewrite list_elem_of_filter, elem_of_seq. split; [naive_solver|].
  intros H. pose proof (lookup_lt_Some _ _ _ H). split; [done|lia].
Qed.

Lemma matching_present ver kvs t i p :
  table_rep ver kvs t → kvs !! i = Some p → i ∈ matching t (LeafNode.cal_key_fp (ep_key p)).
Proof.
  intros [_ Hf _] Hi. apply elem_of_matching. rewrite Hf. apply lookup_app_l_Some.
  by rewrite list_lookup_fmap, Hi.
Qed.

Lemma matching_live ver kvs t k i :
  table_rep ver kvs t → i ∈ matching t (LeafNode.cal_key_fp k) → (i < length kvs)%nat.
Proof.
  intros [_ Hf _] Hi. apply elem_of_matching in Hi. rewrite Hf in Hi.
  apply lookup_app_Some in Hi as [Hi|[_ Hi]].
  - apply lookup_lt_Some in Hi. by rewrite length_fmap in Hi.
  - apply lookup_replicate in Hi as [Hi _]. pose proof (cal_key_fp_byte k). lia.
Qed.

(** ** Adding and replacing pairs *)

Lemma er_update ver kvs es i p p' :
  entries_rep ver kvs es → kvs !! i = Some p →
  entries_rep ver (<[i := p']> kvs) (<[i := live_entry ver p']> es).
Proof.
  intros [H1 H2 H3] Hi. pose proof (lookup_lt_Some _ _ _ Hi) as Hlt.
  assert (length (<[i := p']> kvs) = length kvs) as Hl by apply length_insert.
  constructor; rewrite ?Hl, ?length_insert; [|by rewrite drop_insert_lt by lia|done].
  by rewrite take_insert_lt, H1, list_fmap_insert by lia.
Qed.

Lemma er_append ver kvs es p :
  entries_rep ver kvs es → (length kvs < cap)%nat →
  entries_rep ver (kvs ++ [p]) (<[length kvs := live_entry ver p]> es).
Proof.
  intros [H1 H2 H3] Hlt. constructor; rewrite ?length_app, ?length_insert; cbn; [| |done].
  - rewrite Nat.add_1_r, (take_S_r _ _ (live_entry ver p)) by (apply list_lookup_insert_eq; lia).
    by rewrite take_insert_ge, H1, fmap_app by lia.
  - rewrite Nat.add_1_r, drop_insert_lt by lia.
    rewrite <- (Nat.add_1_r (length kvs)), <- drop_drop. by apply Forall_drop.
Qed.

Lemma tr_update ver kvs t i p p' :
  table_rep ver kvs t → kvs !! i = Some p → ep_key p' = ep_key p → table_rep ver (<[i := p']> kvs) t.
Proof.
  intros [H1 H2 H3] Hi Hk. constructor; [done| |done]. rewrite H2, length_insert, list_fmap_insert. cbn.
  rewrite Hk, list_insert_id; [done|]. by rewrite list_lookup_fmap, Hi.
Qed.

Section tables.
Context {CH : CityHash}.

(** The table takes the fingerprint of a new pair in the slot of the pair. *)
Lemma tr_insert ver kvs t p :
  table_rep ver kvs t → (length kvs < cap)%nat →
  ∃ t', FPTable.insert t (LeafNode.cal_key_fp (ep_key p)) = (Some (length kvs), t') ∧
    table_rep ver (kvs ++ [p]) t' ∧ FPTable.check_consistent t' = true.
Proof.
  intros [H1 H2 H3] Hlt. set (f := LeafNode.cal_key_fp (ep_key p)).
  assert (first_index (λ x, x =? 0) (FPTable.fp t) = Some (length kvs)) as Hfi.
  { rewrite H2, first_index_app. replace (cap - length kvs)%nat with (S (cap - length kvs - 1)) by lia.
    destruct (first_index _ (_ <$> kvs)) as [i|] eqn:E.
    - apply first_index_Some in E as [(x & Hx & Hx0) _]. apply list_lookup_fmap_Some in Hx as (q & -> & _).
      cbn in Hx0. pose proof (cal_key_fp_byte (ep_key q)). lia.
    - cbn. by rewrite length_fmap, Nat.add_0_r. }
  unfold FPTable.insert. rewrite Hfi. eexists. split; [reflexivity|]. split; [|apply FPTable.table_consistent].
  constructor; cbn; [done| |done]. rewrite H2, length_app, fmap_app. cbn.
  replace (cap - length kvs)%nat with (S (cap - (length kvs + 1))) by lia. cbn.
  rewrite <- app_assoc. rewrite <- (Nat.add_0_r (length kvs)) at 1.
  rewrite <- (length_fmap (LeafNode.cal_key_fp ∘ ep_key) kvs) at 1. by rewrite insert_app_r.
Qed.

Lemma tr_full ver kvs t f : table_rep ver kvs t → length kvs = cap → FPTable.insert t f = (None, t).
Proof.
  intros [_ H2 _] Hl. apply FPTable.insert_None. intros i x Hi. rewrite H2, Hl, Nat.sub_diag, app_nil_r in Hi.
  apply list_lookup_fmap_Some in Hi as (q & -> & _). pose proof (cal_key_fp_byte (ep_key q)). unfold compose. lia.
Qed.

(** ** Splitting a leaf *)

Lemma drain_entries_full ver kvs :
  0 ≤ ver < 2 ^ 56 - 1 →
  ∃ es, drain_entries (live_entry ver <$> kvs) = Ok (kvs, es) ∧ Forall (free_entry (ver + 1)) es ∧
    length es = length kvs.
Proof.
  intros Hv. induction kvs as [|[k v] kvs (es & IH & Hf & Hl)]; [by exists []|].
  rewrite fmap_cons. cbn. rewrite IH. cbn. eexists. split; [reflexivity|]. split; [|cbn; by rewrite Hl].
  constructor; [|done]. split; [done|]. cbn. apply wrap_small. unfold fits. lia.
Qed.

Lemma fill_table_spec ver ps kvs t es :
  table_rep ver kvs t → entries_rep ver kvs es → (length kvs + length ps ≤ cap)%nat →
  ∃ t' es', fill_table ps t es = Ok (t', es') ∧ table_rep ver (kvs ++ ps) t' ∧ entries_rep ver (kvs ++ ps) es' ∧
    (FPTable.check_consistent t = true ∨ ps ≠ [] → FPTable.check_consistent t' = true).
Proof.
  revert kvs t es. induction ps as [|p ps IH]; intros kvs t es Ht He Hl.
  { exists t, es. rewrite app_nil_r. split_and!; [done..|]. by intros [?|?]. }
  cbn in Hl. destruct (tr_insert ver kvs t p Ht) as (t1 & Hi & Ht1 & Hc); [lia|]. cbn. rewrite Hi.
  destruct (lookup_lt_is_Some_2 es (length kvs)) as [e Hes]; [rewrite (er_length _ _ _ He); lia|].
  destruct (er_slot _ _ _ _ _ He Hes) as [Hve [(q & Hq & _)|[_ Hv0]]].
  { apply lookup_lt_Some in Hq. lia. }
  unfold at_index. rewrite Hes. cbn. unfold Entry.insert. rewrite Hv0. cbn.
  assert (Entry.set_consistent (Entry.Mk 1 (Entry.version e) (ep_key p) (ep_value p)) = live_entry ver p) as ->
    by (by rewrite Hve).
  destruct (IH (kvs ++ [p]) t1 (<[length kvs := live_entry ver p]> es)) as (t' & es' & -> & Ht' & He' & Hc').
  - done.
  - apply er_append; [done|lia].
  - rewrite length_app. cbn. lia.
  - exists t', es'. rewrite <- app_assoc in Ht', He'. split_and!; try done. intros _. apply Hc'. by left.
Qed.

(** An empty block and its table. *)
Lemma er_empty ver es : Forall (free_entry ver) es → length es = cap → entries_rep ver [] es.
Proof. intros H Hl. constructor; [done| |done]. by rewrite drop_0. Qed.

End tables.

(** ** Leaf cells

    A leaf in memory: the addresses and contents of its block and its table,
    and the pairs they represent. *)

Record lcell := LCell {
  l_addr : Gaddr;
  l_fp : Gaddr;
  l_blk : leaf_block;
  l_tbl : FPTable.t;
  l_kvs : list EntryPos }.

Definition l_min (c : lcell) : Key := LeafHeader.min_key (l_hdr (l_blk c)).
Definition l_max (c : lcell) : Key := LeafHeader.max_key (l_hdr (l_blk c)).
Definition l_ver (c : lcell) : Z := LeafHeader.version (l_hdr (l_blk c)).
Definition l_hi (c : lcell) : Z := key_num (l_max c).
Definition l_link (c : lcell) : link := Link (l_addr c) (l_fp c) (l_min c).

(** The record of an up-to-date parent. *)
Definition leaf_rec (c : lcell) : Rec.t :=
  Rec.Mk 1 (l_ver c) (l_min c) (l_addr c) (l_fp c) LeafNodeCapacity.

Abbreviation leaf_covers := (covers l_link l_hi).

Definition in_range (c : lcell) (p : EntryPos) : Prop := leaf_covers c (ep_key p).

Record leaf_ok `{CityHash} (c : lcell) (nxt : option link) : Prop := {
  lo_entries : entries_rep (l_ver c) (l_kvs c) (l_entries (l_blk c));
  lo_table : table_rep (l_ver c) (l_kvs c) (l_tbl c);
  lo_consistent : FPTable.check_consistent (l_tbl c) = true;
  lo_NoDup : NoDup (ep_key <$> l_kvs c);
  lo_keys : Forall (in_range c) (l_kvs c);
  lo_range : key_num (l_min c) < key_num (l_max c);
  lo_version : 0 ≤ l_ver c;
  lo_capacity : LeafHeader.capacity (l_hdr (l_blk c)) = LeafNodeCapacity;
  lo_max : l_max c = match nxt with Some l => k_min l | None => KeyMax end;
  lo_right : match nxt with
             | Some l => LeafHeader.right_addr (l_hdr (l_blk c)) = k_addr l ∧
                         LeafHeader.right_fp_addr (l_hdr (l_blk c)) = k_fp l ∧
                         LeafHeader.right_capacity (l_hdr (l_blk c)) = LeafNodeCapacity
             | None => LeafHeader.right_addr (l_hdr (l_blk c)) = Gaddr_Null
             end }.

Abbreviation leaf_chain lv := (chain l_link leaf_ok lv None).

(** The map the leaves hold. *)
Definition contents (lv : list lcell) : gmap Key Value := kv_map (concat (l_kvs <$> lv)).

Section cells.
Context {CH : CityHash}.
Implicit Types (c : lcell) (lv : list lcell).

Lemma leaf_ranged : ranged l_link l_hi leaf_ok.
Proof.
  intros c nxt H. split; [apply (lo_range _ _ H)|]. unfold l_hi, limit. by rewrite (lo_max _ _ H).
Qed.

Lemma leaf_full_le c nxt : leaf_ok c nxt → (length (l_kvs c) ≤ cap)%nat.
Proof. intros H. apply (er_le _ _ _ (lo_entries _ _ H)). Qed.

Lemma kv_map_app l1 l2 : kv_map (l1 ++ l2) = kv_map l1 ∪ kv_map l2.
Proof. unfold kv_map. by rewrite fmap_app, list_to_map_app. Qed.

Lemma kv_map_perm l1 l2 : NoDup (ep_key <$> l1) → l1 ≡ₚ l2 → kv_map l1 = kv_map l2.
Proof.
  intros Hd Hp. unfold kv_map. apply list_to_map_proper; [by rewrite <- list_fmap_compose|by rewrite Hp].
Qed.

Lemma kv_map_update kvs i p v :
  NoDup (ep_key <$> kvs) → kvs !! i = Some p →
  kv_map (<[i := MkEntryPos (ep_key p) v]> kvs) = <[ep_key p := v]> (kv_map kvs).
Proof.
  intros Hd Hi. rewrite insert_take_drop by (by eapply lookup_lt_Some).
  rewrite <- (take_drop_middle kvs i p Hi) in Hd. rewrite <- (take_drop_middle kvs i p Hi) at 3.
  rewrite fmap_app, fmap_cons in Hd. apply NoDup_app in Hd as (_ & Hd & _).
  rewrite !kv_map_app. unfold kv_map at 2 4. cbn. fold (kv_map (drop (S i) kvs)).
  rewrite <- !insert_union_r; [by rewrite insert_insert_eq|..];
    apply kv_map_None; intros Hin; apply (Hd _ Hin); left.
Qed.

(** Keys outside the range of the cells of a part of the chain. *)
Lemma contents_None lv k :
  (∀ d, d ∈ lv → Forall (in_range d) (l_kvs d) ∧ ¬ leaf_covers d k) → contents lv !! k = None.
Proof.
  intros H. apply kv_map_None. intros (p & -> & Hp)%list_elem_of_fmap.
  apply elem_of_concat in Hp as (l & Hp & (d & -> & Hd)%list_elem_of_fmap).
  destruct (H d Hd) as [Hf Hno]. rewrite Forall_forall in Hf. by apply Hno, Hf.
Qed.

Lemma contents_middle L1 new L2 :
  contents (L1 ++ new ++ L2) = contents L1 ∪ (contents new ∪ contents L2).
Proof. unfold contents. by rewrite !fmap_app, !concat_app, !kv_map_app. Qed.

Lemma chain_others L1 c L2 k :
  leaf_chain (L1 ++ c :: L2) → leaf_covers c k → contents L1 !! k = None ∧ contents L2 !! k = None.
Proof.
  intros Hch [Hk1 Hk2]. destruct (chain_place l_link l_hi leaf_ok leaf_ranged _ _ _ _ Hch) as (_ & _ & Hl & Hr).
  assert (∀ d, d ∈ L1 ++ c :: L2 → Forall (in_range d) (l_kvs d)) as Hf.
  { intros d Hd. destruct (chain_elem l_link _ _ _ _ Hch Hd) as [n Hn]. apply (lo_keys _ _ Hn). }
  split; apply contents_None; intros d Hd; (split; [apply Hf; set_solver|]); intros [Hd1 Hd2].
  - specialize (Hl d Hd). lia.
  - specialize (Hr d Hd). lia.
Qed.

Lemma contents_lookup lv c k :
  leaf_chain lv → c ∈ lv → leaf_covers c k → contents lv !! k = kv_map (l_kvs c) !! k.
Proof.
  intros Hch (L1 & L2 & ->)%list_elem_of_split Hk. destruct (chain_others _ _ _ _ Hch Hk) as [H1 H2].
  change (L1 ++ c :: L2) with (L1 ++ [c] ++ L2). rewrite contents_middle, lookup_union_r by done.
  rewrite lookup_union_l by done. unfold contents. cbn. by rewrite app_nil_r.
Qed.

(** Writing [k] in the leaf that covers it. *)
Lemma contents_write L1 c L2 new k v :
  leaf_chain (L1 ++ c :: L2) → leaf_covers c k → contents new = <[k := v]> (kv_map (l_kvs c)) →
  contents (L1 ++ new ++ L2) = <[k := v]> (contents (L1 ++ c :: L2)).
Proof.
  intros Hch Hk Hnew. destruct (chain_others _ _ _ _ Hch Hk) as [H1 H2].
  change (L1 ++ c :: L2) with (L1 ++ [c] ++ L2). rewrite !contents_middle, Hnew.
  rewrite <- insert_union_l, <- insert_union_r by done.
  unfold contents at 5. cbn. by rewrite app_nil_r.
Qed.

(** ** Changing a leaf *)

Definition set_slot (c : lcell) (i : nat) (p : EntryPos) : leaf_block :=
  MkLeaf (l_hdr (l_blk c)) (<[i := live_entry (l_ver c) p]> (l_entries (l_blk c))).

Lemma leaf_update c nxt i p v :
  leaf_ok c nxt → l_kvs c !! i = Some p →
  let p' := MkEntryPos (ep_key p) v in
  let c' := LCell (l_addr c) (l_fp c) (set_slot c i p') (l_tbl c) (<[i := p']> (l_kvs c)) in
  leaf_ok c' nxt ∧ l_link c' = l_link c ∧ contents [c'] = <[ep_key p := v]> (kv_map (l_kvs c)).
Proof.
  intros [H1 H2 H3 H4 H5 H6 H7 H8 H9 H10] Hi p' c'. split; [|split; [done|]].
  - constructor; try done.
    + by apply (er_update _ _ _ _ p).
    + by apply (tr_update _ _ _ _ p).
    + cbn. rewrite list_fmap_insert, list_insert_id; [done|]. by rewrite list_lookup_fmap, Hi.
    + apply Forall_insert; [done|]. rewrite Forall_forall in H5. apply (H5 p). by eapply list_elem_of_lookup_2.
  - unfold contents. cbn. rewrite app_nil_r. by apply kv_map_update.
Qed.

Lemma leaf_append c nxt k v :
  leaf_ok c nxt → (length (l_kvs c) < cap)%nat → leaf_covers c k → k ∉ ep_key <$> l_kvs c →
  ∃ t, FPTable.insert (l_tbl c) (LeafNode.cal_key_fp k) = (Some (length (l_kvs c)), t) ∧
    let p := MkEntryPos k v in
    let c' := LCell (l_addr c) (l_fp c) (set_slot c (length (l_kvs c)) p) t (l_kvs c ++ [p]) in
    leaf_ok c' nxt ∧ l_link c' = l_link c ∧ contents [c'] = <[k := v]> (kv_map (l_kvs c)).
Proof.
  intros [H1 H2 H3 H4 H5 H6 H7 H8 H9 H10] Hlt Hk Hnin.
  destruct (tr_insert _ _ _ (MkEntryPos k v) H2 Hlt) as (t & Ht & Hrep & Hc). exists t. split; [done|].
  assert (NoDup (ep_key <$> l_kvs c ++ [MkEntryPos k v])) as Hd.
  { rewrite fmap_app. apply NoDup_app. split_and!; [done|set_solver|apply NoDup_singleton]. }
  split_and!; [|done|].
  - constructor; try done; cbn; [by apply er_append|].
    apply Forall_app. split; [done|]. by constructor.
  - unfold contents. cbn. rewrite app_nil_r. symmetry.
    apply (kv_map_perm (MkEntryPos k v :: l_kvs c)); [by constructor; [|]|]. apply Permutation_cons_append.
Qed.

(** The pairs of a full leaf and one more, in key order, cut in the middle. *)
Definition sorted_with (c : lcell) (k : Key) (v : Value) : list EntryPos :=
  std_sort entry_cmp (MkEntryPos k v :: l_kvs c).

Lemma entry_cmp_ep a b : entry_cmp a b = (key_num (ep_key a) <? key_num (ep_key b)).
Proof. apply key_ltb_num. Qed.

Lemma sorted_with_spec c nxt k v :
  leaf_ok c nxt → k ∉ ep_key <$> l_kvs c →
  ascending (key_num ∘ ep_key) (sorted_with c k v) ∧ sorted_with c k v ≡ₚ MkEntryPos k v :: l_kvs c.
Proof.
  intros H Hk. split; [|apply std_sort_perm]. apply std_sort_ascending; [apply entry_cmp_ep|].
  rewrite list_fmap_compose. apply NoDup_fmap_2; [intros ? ?; apply key_num_inj|].
  rewrite fmap_cons. constructor; [done|]. apply (lo_NoDup _ _ H).
Qed.

(** The two halves of a leaf, at the addresses [a] and [f] of the sibling. *)
Definition left_hdr (c : lcell) (a f : Gaddr) (mid : Key) : LeafHeader.t :=
  LeafHeader.update_right
    (LeafHeader.Mk mid (l_min c) (LeafHeader.capacity (l_hdr (l_blk c))) (l_ver c + 1)
       (LeafHeader.right_addr (l_hdr (l_blk c))) (LeafHeader.right_fp_addr (l_hdr (l_blk c)))
       (LeafHeader.right_capacity (l_hdr (l_blk c))))
    a f LeafNodeCapacity.
Definition right_hdr (c : lcell) (mid : Key) : LeafHeader.t :=
  LeafHeader.Mk (l_max c) mid LeafNodeCapacity 0
    (LeafHeader.right_addr (l_hdr (l_blk c))) (LeafHeader.right_fp_addr (l_hdr (l_blk c)))
    (LeafHeader.right_capacity (l_hdr (l_blk c))).

Lemma set_version_rep ver : fits 64 ver → table_rep ver [] (FPTable.set_version (FPTable.zero LeafNodeCapacity) ver).
Proof. intros H. constructor; [|done..]. cbn. by apply wrap_small. Qed.

Lemma zero_rep : table_rep 0 [] (FPTable.zero LeafNodeCapacity).
Proof. done. Qed.

Lemma zero_entries : entries_rep 0 [] (replicate (Z.to_nat LeafNodeCapacity) (Entry.set_consistent Entry.zero)).
Proof. apply er_empty; [|done]. by apply Forall_replicate. Qed.

(** Where the pairs of the two halves lie. *)
Lemma sorted_halves c nxt k v mid :
  leaf_ok c nxt → leaf_covers c k → k ∉ ep_key <$> l_kvs c → length (l_kvs c) = cap →
  sorted_with c k v !! 16%nat = Some mid →
  key_num (l_min c) < key_num (ep_key mid) < key_num (l_max c) ∧
  Forall (λ p, key_num (l_min c) ≤ key_num (ep_key p) < key_num (ep_key mid)) (take 16 (sorted_with c k v)) ∧
  Forall (λ p, key_num (ep_key mid) ≤ key_num (ep_key p) < key_num (l_max c)) (drop 16 (sorted_with c k v)).
Proof.
  intros H Hk Hnin Hfull Hmid. destruct (sorted_with_spec c nxt k v H Hnin) as [Ha Hp].
  set (l := sorted_with c k v) in *.
  assert (Forall (in_range c) l) as Hr.
  { rewrite Hp. constructor; [done|]. apply (lo_keys _ _ H). }
  rewrite Forall_lookup in Hr.
  assert (∀ i p, l !! i = Some p → key_num (l_min c) ≤ key_num (ep_key p) < key_num (l_max c)) as Hr' by exact Hr.
  assert (∀ i p, (i < 16)%nat → l !! i = Some p → key_num (ep_key p) < key_num (ep_key mid)) as Hlt.
  { intros i p Hi Hpi. by apply (ascending_lookup (key_num ∘ ep_key) l i 16 p mid). }
  destruct (lookup_lt_is_Some_2 l 0) as [p0 Hp0].
  { rewrite Hp. cbn. lia. }
  pose proof (Hr' 16%nat mid Hmid). pose proof (Hr' 0%nat p0 Hp0). pose proof (Hlt 0%nat p0 ltac:(lia) Hp0).
  split; [lia|]. split; apply Forall_lookup.
  - intros i p [Hi1 Hi2]%lookup_take_Some. pose proof (Hr' i p Hi1). pose proof (Hlt i p Hi2 Hi1). lia.
  - intros i p Hi. rewrite lookup_drop in Hi. pose proof (Hr' _ p Hi). split; [|lia].
    destruct i as [|i]; [rewrite Nat.add_0_r in Hi; simplify_eq; lia|].
    pose proof (ascending_lookup (key_num ∘ ep_key) l 16 (16 + S i) mid p Ha ltac:(lia) Hmid Hi). cbn in *. lia.
Qed.

Lemma leaf_split c nxt k v a f :
  leaf_ok c nxt → leaf_covers c k → k ∉ ep_key <$> l_kvs c → length (l_kvs c) = cap → l_ver c < 2 ^ 31 →
  ∃ es0 mid t1 es1 t2 es2,
    drain_entries (l_entries (l_blk c)) = Ok (l_kvs c, es0) ∧ sorted_with c k v !! 16%nat = Some mid ∧
    fill_table (take 16 (sorted_with c k v))
      (FPTable.set_version (FPTable.zero LeafNodeCapacity) (l_ver c + 1)) es0 = Ok (t1, es1) ∧
    fill_table (drop 16 (sorted_with c k v)) (FPTable.zero LeafNodeCapacity)
      (replicate (Z.to_nat LeafNodeCapacity) (Entry.set_consistent Entry.zero)) = Ok (t2, es2) ∧
    let c1 := LCell (l_addr c) (l_fp c) (MkLeaf (left_hdr c a f (ep_key mid)) es1) t1 (take 16 (sorted_with c k v)) in
    let c2 := LCell a f (MkLeaf (right_hdr c (ep_key mid)) es2) t2 (drop 16 (sorted_with c k v)) in
    leaf_ok c1 (Some (l_link c2)) ∧ leaf_ok c2 nxt ∧ contents [c1; c2] = <[k := v]> (kv_map (l_kvs c)).
Proof.
  intros H Hk Hnin Hfull Hver. destruct (sorted_with_spec c nxt k v H Hnin) as [Ha Hp].
  pose proof (lo_version _ _ H) as Hv0.
  assert (length (sorted_with c k v) = 33%nat) as Hlen by (rewrite Hp; cbn; by rewrite Hfull).
  assert (l_entries (l_blk c) = live_entry (l_ver c) <$> l_kvs c) as Hes.
  { destruct (lo_entries _ _ H) as [E _ El]. rewrite Hfull, take_ge in E by lia. done. }
  destruct (drain_entries_full (l_ver c) (l_kvs c)) as (es0 & Hdr & Hfree & Hl0); [lia|].
  destruct (lookup_lt_is_Some_2 (sorted_with c k v) 16) as [mid Hmid]; [lia|].
  destruct (fill_table_spec (l_ver c + 1) (take 16 (sorted_with c k v)) [] _ es0 (set_version_rep (l_ver c + 1) ltac:(unfold fits; lia)))
    as (t1 & es1 & Hf1 & Ht1 & He1 & Hc1).
  { apply er_empty; [done|lia]. }
  { rewrite length_take, Hlen. cbn. unfold cap. lia. }
  destruct (fill_table_spec 0 (drop 16 (sorted_with c k v)) [] _ _ zero_rep zero_entries) as (t2 & es2 & Hf2 & Ht2 & He2 & Hc2).
  { rewrite length_drop, Hlen. cbn. unfold cap. lia. }
  exists es0, mid, t1, es1, t2, es2. rewrite Hes. split_and!; try done.
  destruct (sorted_halves c nxt k v mid H Hk Hnin Hfull Hmid) as (Hm & Hr1 & Hr2).
  assert (NoDup (ep_key <$> take 16 (sorted_with c k v) ++ drop 16 (sorted_with c k v))) as Hd.
  { rewrite take_drop. apply ascending_NoDup in Ha. rewrite list_fmap_compose in Ha. by eapply NoDup_fmap_1. }
  pose proof Hd as Hd'. rewrite fmap_app in Hd'. apply NoDup_app in Hd' as (Hd1 & _ & Hd2).
  intros c1 c2. split_and!.
  - constructor; try done; [|exact (proj1 Hm)|cbn; lia|apply (lo_capacity _ _ H)]. apply Hc1. left. apply FPTable.table_consistent.
  - constructor; try done; [|exact (proj2 Hm)|apply H..]. apply Hc2. right. intros E. apply (f_equal length) in E.
    rewrite length_drop, Hlen in E. done.
  - unfold contents. cbn. rewrite app_nil_r. symmetry. apply (kv_map_perm (MkEntryPos k v :: l_kvs c)).
    + constructor; [done|]. apply (lo_NoDup _ _ H).
    + by rewrite take_drop, Hp.
Qed.

End cells.

Section slots.
Context {CH : CityHash} {A : Type} `{!Allocator A}.
Implicit Types (s : @st A).

(** ** Reading slots *)

Lemma read_leaf_Ok s a b c :
  leaves (mem s) !! a = Some b → Z.of_nat (length (l_entries b)) = c → read_leaf a c s = Ok (b, s).
Proof.
  intros Hb Hc. unfold read_leaf, mbind, M_bind, get, fetch, lift. rewrite Hb, Hc, Z.eqb_refl. done.
Qed.

(** A leaf read through a record with its version: a hit is the pair of the
    key, a miss excludes the slots tried. *)
Lemma search_slots_current s slots a b r ver kvs k v0 :
  leaves (mem s) !! a = Some b → entries_rep ver kvs (l_entries b) →
  Rec.capacity r = LeafNodeCapacity → Rec.version r = ver → Forall (λ i, (i < cap)%nat) slots →
  ∃ res v, search_slots slots a r k v0 s = Ok ((res, v), s) ∧
    match res with
    | Found => MkEntryPos k v ∈ kvs
    | Stale => False
    | Missing => (v = v0 ∨ v = ValueNull) ∧ ∀ i p, i ∈ slots → kvs !! i = Some p → ep_key p ≠ k
    end.
Proof.
  intros Hb Her Hc Hv Hs. revert v0. induction Hs as [|i slots Hi _ IH]; intros v0; cbn [search_slots].
  { eexists _, _. split; [done|]. split; [by left|]. by intros i p Hi%elem_of_nil. }
  pose proof (er_length _ _ _ Her) as Hlen.
  unfold mbind, M_bind. rewrite (read_leaf_Ok s a b) by (done || rewrite Hlen; done).
  destruct (lookup_lt_is_Some_2 (l_entries b) i ltac:(lia)) as [e He]. unfold lift, at_index. rewrite He.
  destruct (er_slot _ _ _ _ _ Her He) as [Hve He'].
  unfold Entry.get_version. rewrite Hve, Hv, Z.eqb_refl. cbn [negb].
  destruct He' as [(p & Hp & ->)|[Hp Hval]].
  - unfold Entry.search, live_entry. cbn. destruct (key_eqb (ep_key p) k) eqn:Ek; cbn.
    + apply key_eqb_eq in Ek as <-. eexists _, _. split; [done|]. cbn.
      destruct p; by eapply list_elem_of_lookup_2.
    + apply key_eqb_neq in Ek. destruct (IH ValueNull) as (res & v & -> & Hres).
      exists res, v. split; [done|]. destruct res; [done|done|]. destruct Hres as [Hv' Hno].
      split; [by destruct Hv' as [->| ->]; right|]. intros j q [->|Hj]%elem_of_cons Hq; [congruence|eauto].
  - unfold Entry.search. rewrite Hval. cbn. destruct (IH ValueNull) as (res & v & -> & Hres).
    exists res, v. split; [done|]. destruct res; [done|done|]. destruct Hres as [Hv' Hno].
    split; [by destruct Hv' as [->| ->]; right|]. intros j q [->|Hj]%elem_of_cons Hq; [congruence|eauto].
Qed.

(** A leaf read through an outdated record: nothing is found. *)
Lemma search_slots_stale s slots a b r ver kvs k v0 :
  leaves (mem s) !! a = Some b → entries_rep ver kvs (l_entries b) →
  Rec.capacity r = LeafNodeCapacity → Rec.version r ≠ ver → Forall (λ i, (i < cap)%nat) slots →
  ∃ res, search_slots slots a r k v0 s = Ok ((res, v0), s) ∧ res ≠ Found ∧ (slots = [] ∨ res = Stale).
Proof.
  intros Hb Her Hc Hv Hs. destruct Hs as [|i slots Hi _]; cbn [search_slots].
  { eexists. split; [done|]. split; [done|by left]. }
  pose proof (er_length _ _ _ Her) as Hlen.
  unfold mbind, M_bind. rewrite (read_leaf_Ok s a b) by (done || rewrite Hlen; done).
  destruct (lookup_lt_is_Some_2 (l_entries b) i ltac:(lia)) as [e He]. unfold lift, at_index. rewrite He.
  destruct (er_slot _ _ _ _ _ Her He) as [Hve _]. unfold Entry.get_version.
  rewrite (proj2 (Z.eqb_neq _ _)) by congruence. eexists. split; [done|]. by split; [|right].
Qed.

(** ** Writing a slot *)

(** The server's batch of writes to [k] ends with [v]. *)
Definition combines s k v : Prop :=
  ∀ v', (get_combining_value (local_locks (srv s) (get_hashed_lock_index k)) k v').2 = v.

Lemma combining_value_Ok s k v v0 : combines s k v → combining_value k v0 s = Ok (v, s).
Proof. intros H. unfold combining_value, mbind, M_bind, get. by rewrite H. Qed.

Lemma insert_slots_spec s slots a b r ver kvs k v v0 :
  leaves (mem s) !! a = Some b → entries_rep ver kvs (l_entries b) → combines s k v →
  Rec.capacity r = LeafNodeCapacity → Rec.version r = ver → Forall (λ i, (i < length kvs)%nat) slots →
  (∃ i p, insert_slots slots a r k v0 s = Ok ((Some (i, live_entry ver (MkEntryPos k v)), v), s) ∧
     kvs !! i = Some p ∧ ep_key p = k) ∨
  (∃ v1, insert_slots slots a r k v0 s = Ok ((None, v1), s) ∧ ∀ i p, i ∈ slots → kvs !! i = Some p → ep_key p ≠ k).
Proof.
  intros Hb Her Hcv Hc Hv Hs. revert v0. induction Hs as [|i slots Hi _ IH]; intros v0; cbn [insert_slots].
  { right. eexists. split; [done|]. by intros i p Hi%elem_of_nil. }
  pose proof (er_length _ _ _ Her) as Hlen. destruct (lookup_lt_is_Some_2 kvs i Hi) as [p Hp].
  unfold mbind, M_bind. rewrite (read_leaf_Ok s a b) by (done || rewrite Hlen; done).
  unfold lift, at_index. rewrite (er_lookup _ _ _ _ _ Her Hp). cbn -[combining_value]. rewrite Hv, Z.eqb_refl.
  cbn -[combining_value]. rewrite (combining_value_Ok _ _ _ _ Hcv). unfold Entry.insert. cbn. destruct (key_eqb (ep_key p) k) eqn:Ek; cbn.
  - apply key_eqb_eq in Ek as <-. left. exists i, p. done.
  - apply key_eqb_neq in Ek. destruct (IH v) as [(j & q & -> & Hq & Hk)|(v1 & -> & Hno)].
    + left. by exists j, q.
    + right. exists v1. split; [done|]. intros j q [->|Hj]%elem_of_cons Hq; [congruence|eauto].
Qed.

End slots.
