(* ===== verification/TreeInner.v ===== *)
(** * The inner levels of the index

    Inner nodes as cells of a chain, the levels stacked over the leaves (the
    records of a level are the cells of the level below), and what inserting in
    a node and splitting it ([inner_write], [node_split]) do to a level. *)

From S2P Require Import Prelude KVConfig RdmaConfig LeafNode InnerTree DMCache Tree TreeChain TreeLeaf.
Open Scope Z_scope.

Record icell := ICell { i_addr : Gaddr; i_node : InnerNode.t; i_live : list Rec.t }.

Definition i_min (c : icell) : Key := InnerHeader.min_key (InnerNode.hdr (i_node c)).
Definition i_max (c : icell) : Key := InnerHeader.max_key (InnerNode.hdr (i_node c)).
Definition i_hi (c : icell) : Z := key_num (i_max c).
Definition i_link (c : icell) : link := Link (i_addr c) Gaddr_Null (i_min c).

Abbreviation inner_covers := (covers i_link i_hi).

Record inner_ok `{CityHash} (top bottom : bool) (c : icell) (nxt : option link) : Prop := {
  io_rep : InnerNode.node_rep (i_node c) (i_live c);
  io_first : ∃ r0, i_live c !! 0%nat = Some r0 ∧ Rec.key r0 = i_min c;
  io_keys : Forall (λ r, key_num (i_min c) ≤ Rec.num r < key_num (i_max c)) (i_live c);
  io_half : top = false → (16 ≤ length (i_live c))%nat;
  io_consistent : InnerNode.check_consistent (i_node c) = true;
  io_leaf : InnerHeader.next_is_leaf (InnerNode.hdr (i_node c)) = bottom;
  io_root : InnerHeader.is_root (InnerNode.hdr (i_node c)) = top;
  io_max : i_max c = match nxt with Some l => k_min l | None => KeyMax end;
  io_right : match nxt with
             | Some l => InnerHeader.right_addr (InnerNode.hdr (i_node c)) = k_addr l
             | None => True
             end }.

Record level_ok `{CityHash} (top bottom : bool) (L : list icell) : Prop := {
  lv_chain : chain i_link (inner_ok top bottom) L None;
  lv_first : k_min <$> first i_link L None = Some KeyNull;
  lv_single : top = true → length L = 1%nat }.

(** The records of a level, and what identifies a record or a cell. *)
Definition recs (L : list icell) : list Rec.t := concat (i_live <$> L).
Definition rec_idx (r : Rec.t) : Key * Gaddr := (Rec.key r, Rec.addr r).
Definition cell_idx (c : icell) : Key * Gaddr := (i_min c, i_addr c).
Definition leaf_idx (c : lcell) : Key * Gaddr := (l_min c, l_addr c).
Definition idx_num (e : Key * Gaddr) : Z := key_num e.1.

(** Levels from the bottom up, over the index [below] of the leaves. *)
Fixpoint tower `{CityHash} (bottom : bool) (below : list (Key * Gaddr)) (levels : list (list icell)) : Prop :=
  match levels with
  | [] => False
  | L :: rest =>
      level_ok (match rest with [] => true | _ => false end) bottom L ∧ rec_idx <$> recs L = below ∧
      match rest with [] => True | _ => tower false (cell_idx <$> L) rest end
  end.

Section inner.
Context {CH : CityHash}.
Implicit Types (c d : icell) (L : list icell) (levels rest : list (list icell)) (top bottom : bool).

Lemma inner_ranged top bottom : ranged i_link i_hi (inner_ok top bottom).
Proof.
  intros c nxt H. destruct (io_first _ _ _ _ H) as (r0 & H0 & E). pose proof (io_keys _ _ _ _ H) as Hk.
  rewrite Forall_lookup in Hk. specialize (Hk _ _ H0). unfold Rec.num in Hk. rewrite E in Hk.
  unfold i_hi, limit, lo. cbn. rewrite <- (io_max _ _ _ _ H). split; [lia|done].
Qed.

Lemma check_hdr_covers c k : InnerNode.check_hdr (i_node c) k = true ↔ inner_covers c k.
Proof.
  unfold InnerNode.check_hdr, covers, lo, i_hi, i_max. cbn. unfold i_min.
  rewrite key_gtb_num, key_leb_num, andb_true_iff, Z.ltb_lt, Z.leb_le. lia.
Qed.

Lemma check_hdr_dec c k : InnerNode.check_hdr (i_node c) k = bool_decide (inner_covers c k).
Proof. apply eq_true_iff_eq. by rewrite check_hdr_covers, bool_decide_eq_true. Qed.

Lemma elem_of_recs L r : r ∈ recs L ↔ ∃ c, c ∈ L ∧ r ∈ i_live c.
Proof.
  unfold recs. rewrite elem_of_concat. setoid_rewrite list_elem_of_fmap. naive_solver.
Qed.

Lemma recs_app L1 L2 : recs (L1 ++ L2) = recs L1 ++ recs L2.
Proof. unfold recs. by rewrite fmap_app, concat_app. Qed.

Lemma recs_cons c L : recs (c :: L) = i_live c ++ recs L.
Proof. done. Qed.

(** ** Searching a level *)

Lemma level_live top bottom L c r :
  chain i_link (inner_ok top bottom) L None → c ∈ L → r ∈ i_live c → lo i_link c ≤ Rec.num r < i_hi c.
Proof.
  intros Hch Hc Hr. destruct (chain_elem i_link _ _ _ _ Hch Hc) as [n Hn].
  pose proof (io_keys _ _ _ _ Hn) as Hk. rewrite Forall_forall in Hk. by apply Hk.
Qed.

Lemma level_recs_ascending top bottom L nxt :
  chain i_link (inner_ok top bottom) L nxt → ascending Rec.num (recs L).
Proof.
  induction L as [|c L IH]; intros H; [constructor|]. rewrite recs_cons. apply ascending_app. pose proof H as [Hc HL].
  split_and!; [apply (io_rep _ _ _ _ Hc)|by apply IH|].
  intros a b Ha (d & Hd & Hb)%elem_of_recs.
  destruct (chain_place i_link i_hi _ (inner_ranged top bottom) [] c L nxt H) as (_ & _ & _ & Hr).
  specialize (Hr d Hd). destruct (chain_elem i_link _ _ _ _ HL Hd) as [n Hn].
  pose proof (io_keys _ _ _ _ Hc) as K1. pose proof (io_keys _ _ _ _ Hn) as K2.
  rewrite Forall_forall in K1, K2. specialize (K1 a Ha). specialize (K2 b Hb).
  unfold lo, i_hi in Hr. cbn in Hr. lia.
Qed.

(** The record of the greatest separator not above [k]. *)
Definition floor_rec (l : list Rec.t) (k : Key) (r : Rec.t) : Prop :=
  r ∈ l ∧ Rec.num r ≤ key_num k ∧ ∀ r', r' ∈ l → Rec.num r' ≤ key_num k → Rec.num r' ≤ Rec.num r.

Lemma cell_search top bottom c nxt k :
  inner_ok top bottom c nxt → inner_covers c k →
  ∃ r, InnerNode.search (i_node c) k = Ok (r, bottom) ∧ floor_rec (i_live c) k r.
Proof.
  intros H [Hk _]. destruct (io_first _ _ _ _ H) as (r0 & H0 & E).
  destruct (InnerNode.search_spec (i_node c) (i_live c) k r0 (io_rep _ _ _ _ H) H0)
    as (i & r & Hi & Hr & Hmax & Hs). { unfold Rec.num. by rewrite E. }
  exists r. rewrite Hs, (io_leaf _ _ _ _ H). split; [done|].
  split_and!; [by eapply list_elem_of_lookup_2|done|].
  intros r' [j Hj]%list_elem_of_lookup Hr'. destruct (Nat.lt_total i j) as [Hij|[->|Hij]].
  - specialize (Hmax j r' Hij Hj). lia.
  - simplify_eq. lia.
  - pose proof (ascending_lookup Rec.num _ j i r' r (InnerNode.rep_asc _ _ (io_rep _ _ _ _ H)) Hij Hj Hi). lia.
Qed.

Lemma level_search top bottom L c k :
  chain i_link (inner_ok top bottom) L None → c ∈ L → inner_covers c k →
  ∃ r, InnerNode.search (i_node c) k = Ok (r, bottom) ∧ floor_rec (recs L) k r.
Proof.
  intros Hch Hc Hk. destruct (chain_elem i_link _ _ _ _ Hch Hc) as [n Hn].
  destruct (cell_search _ _ _ _ _ Hn Hk) as (r & Hs & Hr & Hle & Hmax). exists r. split; [done|].
  pose proof (level_live _ _ _ _ _ Hch Hc Hr) as Hlr.
  split_and!; [apply elem_of_recs; eauto|done|]. intros r' (d & Hd & Hr')%elem_of_recs Hr'k.
  pose proof (level_live _ _ _ _ _ Hch Hd Hr') as Hld. destruct Hk as [Hk1 Hk2].
  apply list_elem_of_split in Hc as (L1 & L2 & ->).
  destruct (chain_place i_link i_hi _ (inner_ranged top bottom) L1 c L2 None Hch) as (_ & _ & H1 & H2).
  apply elem_of_app in Hd as [Hd|[->|Hd]%elem_of_cons].
  - specialize (H1 d Hd). lia.
  - by apply Hmax.
  - specialize (H2 d Hd). lia.
Qed.

(** ** The stack of levels *)

Lemma tower_lookup bottom below levels j L :
  tower bottom below levels → levels !! j = Some L →
  level_ok (bool_decide (S j = length levels)) (bottom && bool_decide (j = 0%nat)) L ∧
  rec_idx <$> recs L = match j with O => below | S i => cell_idx <$> default [] (levels !! i) end.
Proof.
  revert bottom below j. induction levels as [|L0 rest IH]; intros bottom below j H Hj; [done|].
  destruct H as (H1 & H2 & H3). destruct j as [|j].
  - injection Hj as <-. rewrite andb_true_r. split; [|done]. by destruct rest.
  - cbn in Hj. destruct rest as [|L1 rest]; [done|]. destruct (IH false _ j H3 Hj) as [H4 H5].
    rewrite andb_false_r. split.
    + cbn [length] in *. by rewrite (bool_decide_ext (S (S j) = _) (S j = S (length rest))) by lia.
    + by destruct j.
Qed.

Lemma tower_level bottom below levels j L :
  tower bottom below levels → levels !! j = Some L →
  level_ok (bool_decide (S j = length levels)) (bottom && bool_decide (j = 0%nat)) L.
Proof. intros H Hj. apply (tower_lookup _ _ _ _ _ H Hj). Qed.

(** The level under a record holds the cell the record leads to. *)
Lemma tower_descend bottom below levels j L L' r k :
  tower bottom below levels → levels !! j = Some L → levels !! S j = Some L' → key_num k < key_num KeyMax →
  floor_rec (recs L') k r →
  ∃ c, c ∈ L ∧ i_addr c = Rec.addr r ∧ i_min c = Rec.key r ∧ inner_covers c k.
Proof.
  intros Ht Hj Hj' Hmax (Hr & Hle & Hfl). pose proof (tower_level _ _ _ _ _ Ht Hj) as [Hch _ _].
  pose proof (proj2 (tower_lookup _ _ _ _ _ Ht Hj')) as E. cbn in E. rewrite Hj in E. cbn in E.
  assert (∀ r', r' ∈ recs L' → ∃ c, c ∈ L ∧ rec_idx r' = cell_idx c) as Hto.
  { intros r' Hr'. apply (list_elem_of_fmap_2 rec_idx) in Hr'. rewrite E in Hr'.
    apply list_elem_of_fmap in Hr' as (c & ? & ?). eauto. }
  assert (∀ c, c ∈ L → ∃ r', r' ∈ recs L' ∧ rec_idx r' = cell_idx c) as Hfrom.
  { intros c Hc. apply (list_elem_of_fmap_2 cell_idx) in Hc. rewrite <- E in Hc.
    apply list_elem_of_fmap in Hc as (r' & ? & ?). eauto. }
  destruct (Hto r Hr) as (c & Hc & [= E1 E2]). exists c. split_and!; [done..|].
  assert (∀ d, lo i_link d = key_num (i_min d)) as Hlo by done.
  apply (chain_floor i_link i_hi _ (inner_ranged _ _) _ _ _ _ Hch Hc).
  - rewrite Hlo, <- E1. split; [exact Hle|done].
  - intros d Hd Hdk. destruct (Hfrom d Hd) as (r' & Hr' & [= E3 E4]). rewrite !Hlo, <- E1, <- E3 in *.
    by apply Hfl.
Qed.

(** The single cell of the top level. *)
Lemma tower_top bottom below levels :
  tower bottom below levels → ∃ c, levels !! (length levels - 1)%nat = Some [c] ∧
    inner_ok true (bottom && bool_decide (length levels = 1%nat)) c None ∧ i_min c = KeyNull.
Proof.
  intros Ht. destruct levels as [|L0 rest] eqn:El; [done|]. rewrite <- El in *.
  assert (length levels ≠ 0%nat) as Hl by (by rewrite El).
  destruct (lookup_lt_is_Some_2 levels (length levels - 1)) as [L HL]; [lia|].
  pose proof (tower_level _ _ _ _ _ Ht HL) as [H1 H2 H3].
  rewrite bool_decide_eq_true_2 in H1, H3 by lia.
  rewrite (bool_decide_ext (_ = 0%nat) (length levels = 1%nat)) in H1 by lia.
  specialize (H3 eq_refl). destruct L as [|c [|d L]]; [done| |done]. exists c.
  split; [done|]. split; [apply H1|]. by injection H2.
Qed.

(** ** What the caches may hold *)

(** A record a search may start from: it leads to a leaf that covers [k],
    unless the leaf has been split since. *)
Definition rec_ok (lv : list lcell) (k : Key) (r : Rec.t) : Prop :=
  Rec.capacity r = LeafNodeCapacity ∧ ∃ c : lcell, c ∈ lv ∧ l_addr c = Rec.addr r ∧ l_fp c = Rec.fp_addr r ∧
    Rec.version r ≤ l_ver c ∧ (Rec.version r = l_ver c → leaf_covers c k).

Definition good (lv : list lcell) (n : InnerNode.t) : Prop :=
  DMCache.searchable n ∧ ∀ k r, InnerNode.check_hdr n k = true → InnerNode.search n k = Ok (r, true) → rec_ok lv k r.

Definition home (levels : list (list icell)) (k : Key) (a : Gaddr) : Prop :=
  ∃ L c, levels !! 0%nat = Some L ∧ c ∈ L ∧ i_min c = k ∧ i_addr c = a.

(** Later states: leaves keep their addresses, and their range while their
    version is the same; inner nodes stay. *)
Definition leaves_grow (lv lv' : list lcell) : Prop :=
  ∀ c : lcell, c ∈ lv → ∃ c' : lcell, c' ∈ lv' ∧ l_addr c' = l_addr c ∧ l_fp c' = l_fp c ∧
    (l_ver c < l_ver c' ∨ l_ver c' = l_ver c ∧ l_min c' = l_min c ∧ l_max c' = l_max c).

Definition levels_grow (levels levels' : list (list icell)) : Prop :=
  (∀ k a, home levels k a → home levels' k a) ∧
  (∀ c, c ∈ concat levels → ∃ c', c' ∈ concat levels' ∧ i_addr c' = i_addr c).

#[export] Instance leaves_grow_preorder : PreOrder leaves_grow.
Proof.
  split.
  - intros lv c Hc. exists c. split_and!; auto.
  - intros lv1 lv2 lv3 H12 H23 c Hc. destruct (H12 c Hc) as (c2 & H2 & Ha & Hf & Hv).
    destruct (H23 c2 H2) as (c3 & H3 & Ha' & Hf' & Hv'). exists c3. split_and!; [done|congruence|congruence|].
    destruct Hv as [?|(? & ? & ?)], Hv' as [?|(? & ? & ?)]; [left; lia|left; lia|left; lia|right].
    split_and!; congruence.
Qed.

#[export] Instance levels_grow_preorder : PreOrder levels_grow.
Proof.
  split; [split; eauto|]. intros l1 l2 l3 [H1 H2] [H3 H4]. split; [auto|].
  intros c Hc. destruct (H2 c Hc) as (c2 & Hc2 & E). destruct (H4 c2 Hc2) as (c3 & ? & ?).
  exists c3. split; [done|congruence].
Qed.

Lemma rec_ok_grow lv lv' k r : leaves_grow lv lv' → rec_ok lv k r → rec_ok lv' k r.
Proof.
  intros Hg [Hc (c & Hin & Ha & Hf & Hle & Hv)]. split; [done|].
  destruct (Hg c Hin) as (c' & Hin' & Ha' & Hf' & Hv'). exists c'. split_and!; [done|congruence|congruence| |].
  - destruct Hv' as [?|(? & _)]; lia.
  - intros E. destruct Hv' as [?|(E1 & E2 & E3)]; [lia|]. specialize (Hv ltac:(congruence)).
    unfold covers, lo, l_hi in *. cbn in *. by rewrite E2, E3.
Qed.

Lemma good_grow lv lv' n : leaves_grow lv lv' → good lv n → good lv' n.
Proof. intros Hg [H1 H2]. split; [done|]. intros k r Hh Hs. by eapply rec_ok_grow, H2. Qed.

(** ** The index of the leaves *)

Record index_ok (lv : list lcell) (levels : list (list icell)) : Prop := {
  ix_leaves : leaf_chain lv;
  ix_tower : tower true (leaf_idx <$> lv) levels;
  ix_bottom : ∀ L, levels !! 0%nat = Some L → recs L = leaf_rec <$> lv }.

Lemma index_leaf lv levels L k r :
  index_ok lv levels → levels !! 0%nat = Some L → key_num k < key_num KeyMax → floor_rec (recs L) k r →
  ∃ c : lcell, c ∈ lv ∧ r = leaf_rec c ∧ leaf_covers c k.
Proof.
  intros [Hlv _ Hb] HL Hmax (Hr & Hle & Hfl). rewrite (Hb L HL) in *.
  apply list_elem_of_fmap in Hr as (c & -> & Hc). exists c. split_and!; [done..|].
  apply (chain_floor l_link l_hi _ leaf_ranged _ _ _ _ Hlv Hc); [done|].
  intros d Hd. by apply (Hfl (leaf_rec d)), list_elem_of_fmap_2.
Qed.

Lemma bottom_good lv levels L c :
  index_ok lv levels → levels !! 0%nat = Some L → c ∈ L → good lv (i_node c).
Proof.
  intros Hix HL Hc. pose proof (tower_level _ _ _ _ _ (ix_tower _ _ Hix) HL) as [Hch _ _].
  destruct (chain_elem i_link _ _ _ _ Hch Hc) as [n Hn]. split.
  - destruct (io_first _ _ _ _ Hn) as (r0 & H0 & E). exists (i_live c), r0.
    split_and!; [apply (io_rep _ _ _ _ Hn)|done|]. unfold Rec.num. by rewrite E.
  - intros k r Hh Hs. apply check_hdr_covers in Hh.
    destruct (level_search _ _ _ _ _ Hch Hc Hh) as (r' & Hs' & Hfl).
    rewrite Hs in Hs'. injection Hs' as <-.
    assert (key_num k < key_num KeyMax) as Hmax.
    { apply list_elem_of_split in Hc as (L1 & L2 & ->).
      destruct (chain_place i_link i_hi _ (inner_ranged _ _) L1 c L2 None Hch) as ([_ Hl] & _).
      destruct Hh as [_ Hh]. change (limit None) with (key_num KeyMax) in Hl. lia. }
    destruct (index_leaf _ _ _ _ _ Hix HL Hmax Hfl) as (l & Hl & -> & Hcov).
    split; [done|]. exists l. split_and!; try done.
Qed.

(** ** Inserting in a cell *)

(** The lock word is no part of what a node holds. *)
Definition with_lock (n : InnerNode.t) (l : Z) : InnerNode.t :=
  InnerNode.Mk (InnerNode.hdr n) (InnerNode.record n) (InnerNode.crc n) l.

Lemma inner_ok_lock top bottom c l nxt :
  inner_ok top bottom c nxt → inner_ok top bottom (ICell (i_addr c) (with_lock (i_node c) l) (i_live c)) nxt.
Proof. intros [H1 H2 H3 H4 H5 H6 H7 H8]. constructor; try done. by destruct H1; constructor. Qed.

Lemma ascending_head {X} (num : X → Z) l x :
  ascending num l → x ∈ l → (∀ y, y ∈ l → num x ≤ num y) → l !! 0%nat = Some x.
Proof.
  intros Ha [i Hi]%list_elem_of_lookup Hx. destruct i as [|i]; [done|].
  destruct (lookup_lt_is_Some_2 l 0) as [y Hy]; [apply lookup_lt_Some in Hi; lia|].
  pose proof (ascending_lookup num l 0 (S i) y x Ha ltac:(lia) Hy Hi).
  specialize (Hx y ltac:(by eapply list_elem_of_lookup_2)). lia.
Qed.

Lemma key_not_live (live : list Rec.t) (r : Rec.t) :
  Rec.key r ∉ Rec.key <$> live → ∀ x, x ∈ live → Rec.num x ≠ Rec.num r.
Proof. intros Hk x Hx E. apply Hk. apply key_num_inj in E. rewrite <- E. by apply list_elem_of_fmap_2. Qed.

Lemma inner_fit top bottom c nxt r :
  inner_ok top bottom c nxt → Rec.valid r = 1 → inner_covers c (Rec.key r) → Rec.key r ∉ Rec.key <$> i_live c →
  (length (i_live c) < InnerNodeCapacity)%nat →
  ∃ n live, InnerNode.insert (i_node c) r = Ok (true, n) ∧ inner_ok top bottom (ICell (i_addr c) n live) nxt ∧
    live ≡ₚ r :: i_live c ∧ InnerNode.hdr n = InnerNode.hdr (i_node c) ∧ InnerNode.lock n = InnerNode.lock (i_node c).
Proof.
  intros [H1 H2 H3 H4 H5 H6 H7 H8 H9] Hv Hk Hnin Hlt.
  destruct (InnerNode.insert_absent _ _ _ H1 Hv Hnin Hlt) as (n & He & Hh & Hl & Hrep).
  set (live := std_sort Rec.cmp (i_live c ++ [r])) in *.
  assert (live ≡ₚ r :: i_live c) as Hp.
  { unfold live. rewrite std_sort_perm. symmetry. apply Permutation_cons_append. }
  exists (InnerNode.set_consistent n), live. split; [done|]. split; [|done].
  assert (Forall (λ r, key_num (i_min c) ≤ Rec.num r < key_num (i_max c)) live) as Hall
    by (rewrite Hp; by constructor).
  constructor; unfold i_min, i_max; cbn; rewrite ?Hh; try done.
  - by apply InnerNode.node_rep_set_consistent.
  - destruct H2 as (r0 & H0 & E). exists r0. split; [|done].
    apply (ascending_head Rec.num); [apply Hrep| |].
    + rewrite Hp. right. by eapply list_elem_of_lookup_2.
    + intros y Hy. rewrite Forall_forall in Hall. unfold Rec.num at 1. rewrite E. by apply Hall.
  - intros Ht. rewrite Hp. cbn. specialize (H4 Ht). lia.
  - apply InnerNode.node_consistent.
Qed.

Lemma inner_replace top bottom c nxt i x r :
  inner_ok top bottom c nxt → Rec.valid r = 1 → i_live c !! i = Some x → Rec.key x = Rec.key r →
  ∃ n, InnerNode.insert (i_node c) r = Ok (true, n) ∧ inner_ok top bottom (ICell (i_addr c) n (<[i := r]> (i_live c))) nxt ∧
    InnerNode.hdr n = InnerNode.hdr (i_node c) ∧ InnerNode.lock n = InnerNode.lock (i_node c).
Proof.
  intros [H1 H2 H3 H4 H5 H6 H7 H8 H9] Hv Hi Hx.
  destruct (InnerNode.insert_present _ _ _ _ _ H1 Hv Hi Hx) as [He Hrep]. eexists. split; [exact He|].
  split; [|done]. constructor; unfold i_min, i_max; cbn; try done.
  - by apply InnerNode.node_rep_set_consistent.
  - destruct H2 as (r0 & H0 & E). destruct i as [|i].
    + exists r. split; [apply list_lookup_insert_eq; by eapply lookup_lt_Some|]. unfold i_min in E. congruence.
    + exists r0. by rewrite list_lookup_insert_ne.
  - apply Forall_insert; [done|]. rewrite Forall_lookup in H3. unfold Rec.num. rewrite <- Hx. by apply (H3 i x).
  - by rewrite length_insert.
  - apply InnerNode.node_consistent.
Qed.

(** ** Splitting a cell *)

(** The halves of a full node, before the new record goes in. *)
Lemma inner_halves top bottom c nxt g :
  inner_ok top bottom c nxt → length (i_live c) = InnerNodeCapacity →
  ∃ mid nl nr,
    InnerNode.split_origin (InnerNode.unlock (i_node c)) = Ok (drop 16 (i_live c), mid, nl) ∧
    InnerNode.split_sibling (InnerNode.set_hdr InnerNode.zero
      (InnerHeader.Mk (i_max c) (Rec.key mid) (InnerHeader.right_addr (InnerNode.hdr (i_node c))) false bottom))
      (drop 16 (i_live c)) = Ok nr ∧
    let cl := ICell (i_addr c)
      (InnerNode.set_hdr nl (InnerHeader.Mk (Rec.key mid) (i_min c) g false bottom)) (take 16 (i_live c)) in
    let cr := ICell g nr (drop 16 (i_live c)) in
    inner_ok false bottom cl (Some (i_link cr)) ∧ inner_ok false bottom cr nxt ∧ i_min cr = Rec.key mid ∧
    InnerNode.lock (i_node cl) = 0 ∧ InnerNode.lock nr = 0.
Proof.
  intros [H0 H2 H3 H4 H5 H6 H7 H8 H9] Hfull.
  assert (InnerNode.node_rep (InnerNode.unlock (i_node c)) (i_live c)) as H1 by (by destruct H0; constructor).
  destruct (InnerNode.split_origin_spec _ _ H1 Hfull) as (mid & nl & Hmid & Ho & Hrl & Hhl & Hll & Hcl).
  assert (ascending Rec.num (take 16 (i_live c) ++ drop 16 (i_live c))) as Ha by (rewrite take_drop; apply H1).
  apply ascending_app in Ha as (Ha1 & Ha2 & Hlt).
  assert (drop 16 (i_live c) !! 0%nat = Some mid) as Hmid' by (by rewrite lookup_drop).
  assert (InnerNode.node_rep InnerNode.zero []) as Hz by (constructor; [done|done|done|by apply Forall_replicate|constructor]).
  set (h := InnerHeader.Mk (i_max c) (Rec.key mid) (InnerHeader.right_addr (InnerNode.hdr (i_node c))) false bottom).
  destruct (InnerNode.split_sibling_spec (InnerNode.set_hdr InnerNode.zero h) (drop 16 (i_live c)))
    as (nr & Hs & Hrr & Hhr & Hlr & Hcr).
  { apply InnerNode.node_rep_set_consistent. by destruct Hz; constructor. }
  { by apply Forall_drop, H1. }
  { done. }
  { rewrite length_drop. lia. }
  exists mid, nl, nr. split; [done|]. split; [done|]. intros cl cr.
  assert (i_min cr = Rec.key mid) as Hminr by (unfold i_min; cbn; by rewrite Hhr).
  destruct H2 as (r0 & Hr0 & E0). pose proof H3 as Hall. rewrite Forall_lookup in Hall.
  split_and!; [| |done|done|by rewrite Hlr].
  - constructor; cbn; try done.
    + apply InnerNode.node_rep_set_consistent. by destruct Hrl; constructor.
    + exists r0. split; [by rewrite lookup_take_lt by lia|done].
    + apply Forall_forall. intros r Hr. unfold i_min, i_max; cbn. split.
      * apply list_elem_of_lookup in Hr as [i [Hi _]%lookup_take_Some]. by apply (Hall i r).
      * apply Hlt; [done|by eapply list_elem_of_lookup_2].
    + intros _. rewrite length_take, Hfull. done.
    + apply InnerNode.node_consistent.
  - constructor; cbn; rewrite ?Hhr; try done.
    + by exists mid.
    + unfold i_max. cbn. rewrite Hhr, Hminr. cbn. apply Forall_forall. intros r Hr. split.
      * apply list_elem_of_lookup in Hr as [[|i] Hi]; [simplify_eq; unfold Rec.num; lia|].
        pose proof (ascending_lookup Rec.num _ 0 (S i) mid r Ha2 ltac:(lia) Hmid' Hi). unfold Rec.num in *. lia.
      * apply list_elem_of_lookup in Hr as [i Hi]. rewrite lookup_drop in Hi. by apply (Hall _ r Hi).
    + intros _. rewrite length_drop, Hfull. done.
    + unfold i_max. cbn. by rewrite Hhr.
Qed.

(** ** Changing a level *)

Lemma level_replace top bottom L1 c c' L2 :
  level_ok top bottom (L1 ++ c :: L2) → i_link c' = i_link c → inner_ok top bottom c' (first i_link L2 None) →
  level_ok top bottom (L1 ++ c' :: L2).
Proof.
  intros [H1 H2 H3] Hl Hc. constructor.
  - by eapply chain_replace; [|exact Hl|exact Hc|exact H1].
  - rewrite <- H2, !first_app. cbn. by rewrite Hl.
  - rewrite length_app in *. exact H3.
Qed.

Lemma level_split top bottom L1 c cl cr L2 :
  level_ok top bottom (L1 ++ c :: L2) → i_link cl = i_link c → inner_ok false bottom cl (Some (i_link cr)) →
  inner_ok false bottom cr (first i_link L2 None) → level_ok false bottom (L1 ++ cl :: cr :: L2).
Proof.
  intros [H1 H2 H3] Hl Hcl Hcr. constructor; [| |done].
  - eapply chain_split; [|exact Hl|exact Hcl|exact Hcr|exact H1].
    destruct top; [|done]. intros d n Hd. specialize (H3 eq_refl). rewrite length_app in H3. cbn in H3.
    destruct L1; [|cbn in H3; lia]. destruct L2; [|cbn in H3; lia]. by apply elem_of_nil in Hd.
  - rewrite <- H2, !first_app. cbn. by rewrite Hl.
Qed.

(** Cells of two levels that cover the same key. *)
Lemma tower_lo_up bottom below L L' rest d d' k :
  tower bottom below (L :: L' :: rest) → key_num k < key_num KeyMax →
  d ∈ L → d' ∈ L' → inner_covers d k → inner_covers d' k → lo i_link d' ≤ lo i_link d.
Proof.
  intros Ht Hmax Hd Hd' Hk Hk'.
  pose proof (tower_level _ _ _ 0 _ Ht eq_refl) as [Hch _ _].
  pose proof (tower_level _ _ _ 1 _ Ht eq_refl) as [Hch' _ _].
  destruct (level_search _ _ _ _ _ Hch' Hd' Hk') as (r & Hs & Hfl).
  destruct (chain_elem i_link _ _ _ _ Hch' Hd') as [n Hn].
  destruct (cell_search _ _ _ _ _ Hn Hk') as (r' & Hs' & Hr' & _). rewrite Hs in Hs'. injection Hs' as <-.
  destruct (tower_descend _ _ _ 0 _ _ _ _ Ht eq_refl eq_refl Hmax Hfl) as (e & He & _ & Hem & Hek).
  assert (e = d) as -> by (by eapply (chain_cover_unique i_link i_hi _ (inner_ranged _ _) _ _ _ _ k Hch)).
  pose proof (level_live _ _ _ _ _ Hch' Hd' Hr') as [Hlo _]. unfold lo at 2. cbn. rewrite Hem. exact Hlo.
Qed.

(** ** The records a level gains *)

(** [l'] holds [r] besides the records of [l]; on the bottom level [upd] has
    taken the place of [x]. *)
Definition gains (is_bottom : bool) (x upd r : Rec.t) (l l' : list Rec.t) : Prop :=
  if is_bottom then ∃ R, l ≡ₚ x :: R ∧ l' ≡ₚ r :: upd :: R else l' ≡ₚ r :: l.

Lemma gains_app b x upd r A B l l' : gains b x upd r l l' → gains b x upd r (A ++ l ++ B) (A ++ l' ++ B).
Proof.
  destruct b; cbn.
  - intros (R & Hl & Hl'). exists (A ++ R ++ B). rewrite Hl, Hl'. split; solve_Permutation.
  - intros ->. solve_Permutation.
Qed.

Lemma idx_ascending_recs l : ascending Rec.num l → ascending idx_num (rec_idx <$> l).
Proof. rewrite !ascending_fmap. rewrite <- list_fmap_compose. done. Qed.

Lemma idx_ascending_cells L : ascending (lo i_link) L → ascending idx_num (cell_idx <$> L).
Proof. rewrite !ascending_fmap. rewrite <- list_fmap_compose. done. Qed.

End inner.
