(* ===== verification/TreeFind.v ===== *)
(** * Finding a leaf ([DMInner.cc])

    [find_leaf] from the root and [read_bottom_inner] from a cached address
    return the record of the leaf that covers the key, change no shared memory,
    and leave the server's cache well formed. *)

From S2P Require Import Prelude KVConfig RdmaConfig Hash LeafNode InnerTree LocalLockTable DMCache Tree TreeChain TreeLeaf TreeInner.
Open Scope Z_scope.

Import SkipVectorDM.

Section find.
Context {CH : CityHash} {A : Type} `{!Allocator A} (all_nodes : Z).
Implicit Types (s : @st A) (lv : list lcell) (levels : list (list icell)) (k : Key).

(** Inner cells in the remote memory, unlocked. *)
Definition stored (m : gmap Gaddr InnerNode.t) (L : list icell) : Prop :=
  ∀ c, c ∈ L → m !! i_addr c = Some (i_node c) ∧ InnerNode.lock (i_node c) = 0.

Record inner_mem levels (m : shared A) : Prop := {
  im_stored : stored (inners m) (concat levels);
  im_root : ∃ c, levels !! (length levels - 1)%nat = Some [c] ∧ root_ptr m = i_addr c;
  im_null : ∀ c, c ∈ concat levels → i_addr c ≠ Gaddr_Null }.

Record server_ok lv levels (sv : server) : Prop := {
  sv_cache : DMCache.wf (good lv) (home levels) (dmcache sv);
  sv_nodes : DMCache.all_node_num (dmcache sv) = all_nodes;
  sv_root : local_root_addr sv = Gaddr_Null ∨ ∃ c, c ∈ concat levels ∧ i_addr c = local_root_addr sv }.

Lemma server_ok_grow lv lv' levels levels' sv :
  leaves_grow lv lv' → levels_grow levels levels' → server_ok lv levels sv → server_ok lv' levels' sv.
Proof.
  intros Hl [Hh Hc] [H1 H2 H3]. constructor; [|done|].
  - eapply DMCache.wf_mono; [|exact Hh|exact H1]. intros n. by apply good_grow.
  - destruct H3 as [?|(c & Hin & E)]; [by left|right]. destruct (Hc c Hin) as (c' & ? & ?).
    exists c'. split; [done|congruence].
Qed.

(** Only the cache, the root address and the path of the server change. *)
Record keeps s s' : Prop := {
  kp_mem : mem s' = mem s;
  kp_id : my_id (srv s') = my_id (srv s);
  kp_locks : local_locks (srv s') = local_locks (srv s) }.

#[export] Instance keeps_preorder : PreOrder keeps.
Proof. split; [by intros s|]. intros s1 s2 s3 [] []. constructor; congruence. Qed.

Lemma wp_cached {X} (m : M DMCache.t X) s x c (Q : X → @st A → Prop) :
  m (dmcache (srv s)) = Ok (x, c) → Q x (set_cache s c) → wp (cached m) s Q.
Proof. unfold wp, cached. by intros ->. Qed.

Lemma wp_get_path {X} (f : list Rec.t → M st X) s (R : X → @st A → Prop) :
  wp (f (path (srv s))) s R → wp (get_path ≫= f) s R.
Proof. done. Qed.

Lemma wp_put_path {X} p (f : unit → M st X) s (R : X → @st A → Prop) :
  wp (f tt) (set_path s p) R → wp (put_path p ≫= f) s R.
Proof. done. Qed.

Lemma wp_assert {X} b (f : unit → M st X) s (R : X → @st A → Prop) :
  b = true → wp (f tt) s R → wp (assert b ≫= f) s R.
Proof. by intros ->. Qed.

(** What the searches rely on: levels over [lv0] in memory, and a cache that
    is right about the leaves [lv]. *)
Record ready lv0 lv levels s : Prop := {
  rd_index : index_ok lv0 levels;
  rd_grow : leaves_grow lv0 lv;
  rd_mem : inner_mem levels (mem s);
  rd_server : server_ok lv levels (srv s) }.

Lemma ready_keeps lv0 lv levels s s' :
  ready lv0 lv levels s → keeps s s' → server_ok lv levels (srv s') → ready lv0 lv levels s'.
Proof. intros [H1 H2 H3 H4] [E _ _] H. constructor; try done. by rewrite E. Qed.

Lemma ready_path lv0 lv levels s p : ready lv0 lv levels s → ready lv0 lv levels (set_path s p).
Proof. intros [H1 H2 H3 []]. by constructor; [..|constructor]. Qed.

Lemma keeps_path s p : keeps s (set_path s p).
Proof. done. Qed.

Lemma read_inner_Ok s c levels :
  inner_mem levels (mem s) → c ∈ concat levels → read_inner (i_addr c) s = Ok (i_node c, s).
Proof.
  intros H Hc. destruct (im_stored _ _ H c Hc) as [E _]. unfold read_inner, mbind, M_bind, get, fetch, lift.
  by rewrite E.
Qed.

(** Putting the node of a bottom cell in the cache. *)
Lemma cache_bottom lv0 lv levels s L c up :
  ready lv0 lv levels s → levels !! 0%nat = Some L → c ∈ L → Rec.key up = i_min c → Rec.addr up = i_addr c →
  wp (cached (DMCache.insert_cache up (i_node c))) s (λ _ s',
    ready lv0 lv levels s' ∧ keeps s s' ∧ path (srv s') = path (srv s)).
Proof.
  intros Hrd HL Hc Hk Ha. pose proof (rd_server _ _ _ _ Hrd) as [Hw Hn Hr].
  destruct (DMCache.insert_cache_spec (good lv) (home levels) (dmcache (srv s)) up (i_node c))
    as (b & s1 & E & Hw' & _ & Hn' & _).
  - done.
  - eapply good_grow; [apply (rd_grow _ _ _ _ Hrd)|]. eapply bottom_good; [apply (rd_index _ _ _ _ Hrd)|done|done].
  - done.
  - rewrite Hk, Ha. by exists L, c.
  - eapply wp_cached; [exact E|]. split; [|done]. eapply ready_keeps; [exact Hrd|done|].
    constructor; [done|cbn; congruence|done].
Qed.

(** ** One level *)

(** The outcome of a search that goes down from the cell that covers [k]. *)
Definition descends lv0 lv levels s (j : nat) k (x : bool * Rec.t * bool) s' : Prop :=
  ∃ L r, x = (true, r, bool_decide (j = 0%nat)) ∧ levels !! j = Some L ∧ floor_rec (recs L) k r ∧
    ready lv0 lv levels s' ∧ keeps s s' ∧ path (srv s') = path (srv s).

Lemma elem_of_level levels j (L : list icell) c : levels !! j = Some L → c ∈ L → c ∈ concat levels.
Proof. intros Hj Hc. apply elem_of_concat. exists L. split; [done|by eapply list_elem_of_lookup_2]. Qed.

Lemma last_rec_app p (q : Rec.t) : last_rec (p ++ [q]) = Ok q.
Proof.
  unfold last_rec, at_index. rewrite length_app. cbn. rewrite Nat.add_sub, list_lookup_middle; done.
Qed.

Lemma inner_search_level lv0 lv levels s fuel j L c k record p up :
  ready lv0 lv levels s → levels !! j = Some L → c ∈ L → inner_covers c k →
  path (srv s) = p ++ [up] → Rec.key up = i_min c → Rec.addr up = i_addr c →
  (length p = 0%nat → S j = length levels) →
  wp (inner_search (S fuel) (i_addr c) k record) s (descends lv0 lv levels s j k).
Proof.
  intros Hrd Hj Hc Hcov Hp Hk Ha Htop. cbn [inner_search].
  pose proof (elem_of_level _ _ _ _ Hj Hc) as Hin. pose proof (rd_mem _ _ _ _ Hrd) as Hmem.
  pose proof (tower_level _ _ _ _ _ (ix_tower _ _ (rd_index _ _ _ _ Hrd)) Hj) as [Hch _ _].
  destruct (chain_elem i_link _ _ _ _ Hch Hc) as [n Hn].
  eapply wp_eq; [by eapply read_inner_Ok|]. rewrite (io_consistent _ _ _ _ Hn). cbn [negb].
  apply wp_get. cbn. rewrite Hp. unfold InnerNode.get_is_root. rewrite (io_root _ _ _ _ Hn).
  assert ((Z.of_nat (length (p ++ [up])) =? 1) && negb (bool_decide (S j = length levels)) = false) as ->.
  { rewrite length_app. cbn. destruct (Z.eqb_spec (Z.of_nat (length p + 1)) 1); [|done].
    rewrite bool_decide_eq_true_2 by (apply Htop; lia). done. }
  rewrite (proj2 (check_hdr_covers c k) Hcov). cbn [negb].
  destruct (level_search _ _ _ _ _ Hch Hc Hcov) as (r & Hs & Hfl). eapply wp_lift; [exact Hs|].
  destruct (decide (j = 0%nat)) as [->|Hne]; cbn.
  - apply wp_bind. eapply wp_lift; [apply last_rec_app|].
    eapply wp_seq; [by eapply cache_bottom|]. intros _ s' (Hrd' & Hkp & Hpath). apply wp_ret. apply wp_ret.
    exists L, r. split_and!; done.
  - rewrite (bool_decide_eq_false_2 (j = 0%nat)) by done. apply wp_bind, wp_ret, wp_ret. exists L, r.
    rewrite (bool_decide_eq_false_2 (j = 0%nat)) by done. split_and!; done || reflexivity.
Qed.

(** ** From the root to the leaf *)

(** The path holds, for each level from [j] up, the cell that covers [k]. *)
Definition aligned_from (j : nat) k levels (p : list Rec.t) : Prop :=
  ∀ i L, (j ≤ i)%nat → levels !! i = Some L →
    ∃ q c, p !! (length levels - 1 - i)%nat = Some q ∧ c ∈ L ∧ inner_covers c k ∧ Rec.addr q = i_addr c.

Definition found lv0 lv levels s k (r : Rec.t) s' : Prop :=
  (∃ c : lcell, c ∈ lv0 ∧ r = leaf_rec c ∧ leaf_covers c k) ∧
  ready lv0 lv levels s' ∧ keeps s s' ∧
  aligned_from 0 k levels (path (srv s')) ∧ length (path (srv s')) = S (length levels).

Lemma aligned_snoc j k levels p q :
  aligned_from j k levels p → (length p = length levels - j)%nat → aligned_from j k levels (p ++ [q]).
Proof.
  intros H Hl i L Hi HL. destruct (H i L Hi HL) as (x & c & Hx & ?). exists x, c. split; [|done].
  by apply lookup_app_l_Some.
Qed.

Lemma find_leaf_tail lv0 lv levels k : key_num k < key_num KeyMax → ∀ j fuel s L r,
  ready lv0 lv levels s → levels !! j = Some L → floor_rec (recs L) k r → (j < fuel)%nat →
  aligned_from j k levels (path (srv s)) → (length (path (srv s)) = length levels - j)%nat →
  wp (p ← get_path; put_path (p ++ [Rec.copy r]);;
      if bool_decide (j = 0%nat) then mret r else find_leaf_loop fuel (Rec.addr r) k r) s
     (found lv0 lv levels s k).
Proof.
  intros Hmax. induction j as [|j IH]; intros fuel s L r Hrd HL Hfl Hfuel Hal Hlen; apply wp_get_path, wp_put_path.
  - cbn. destruct (index_leaf _ _ _ _ _ (rd_index _ _ _ _ Hrd) HL Hmax Hfl) as (c & Hc & -> & Hcov).
    split; [by exists c|]. split; [by apply ready_path|]. split; [done|]. cbn. split.
    + apply aligned_snoc; [done|]. lia.
    + rewrite length_app, Hlen. cbn. lia.
  - destruct fuel as [|fuel]; [lia|]. cbn [bool_decide decide_rel find_leaf_loop].
    pose proof (lookup_lt_Some _ _ _ HL) as Hlt.
    destruct (lookup_lt_is_Some_2 levels j ltac:(lia)) as [L1 HL1].
    pose proof (ix_tower _ _ (rd_index _ _ _ _ Hrd)) as Ht.
    destruct (tower_descend _ _ _ _ _ _ _ _ Ht HL1 HL Hmax Hfl) as (c & Hc & Ha & Hm & Hcov).
    rewrite <- Ha. destruct fuel as [|fuel]; [lia|].
    eapply wp_seq; [eapply (inner_search_level lv0 lv levels _ fuel j L1 c k r); try done|].
    + by apply ready_path.
    + cbn. lia.
    + intros x s' (L' & r' & -> & HL' & Hfl' & Hrd' & Hkp & Hp). cbn [negb]. rewrite HL1 in HL'. injection HL' as <-.
      eapply wp_mono; [apply (IH (S fuel) s' L1 r'); try done|].
      * lia.
      * rewrite Hp. cbn. intros i L2 Hi HL2. destruct (decide (i = j)) as [->|Hne].
        -- rewrite HL1 in HL2. injection HL2 as <-. exists (Rec.copy r), c. split; [|done].
           apply list_lookup_middle. lia.
        -- apply (aligned_snoc (S j)); [done|lia|lia|done].
      * rewrite Hp. cbn. rewrite length_app, Hlen. cbn. lia.
      * intros y s2 (H1 & H2 & H3 & H4). split; [done|]. split; [done|]. split; [|done].
        etrans; [|exact H3]. etrans; [|exact Hkp]. done.
Qed.

Definition is_top levels c : Prop := levels !! (length levels - 1)%nat = Some [c].

Lemma top_cell lv0 levels :
  index_ok lv0 levels → ∃ c, is_top levels c ∧ i_min c = KeyNull ∧
    (∀ k, key_num k < key_num KeyMax → inner_covers c k) ∧ (0 < length levels)%nat ∧
    (∀ d, d ∈ concat levels → InnerNode.get_is_root (i_node d) = true ↔ d = c) ∧
    (∀ d, d ∈ concat levels → InnerNode.check_consistent (i_node d) = true).
Proof.
  intros Hix. pose proof (ix_tower _ _ Hix) as Ht. destruct (tower_top _ _ _ Ht) as (c & Hc & Hok & Hmin).
  exists c. assert (length levels ≠ 0%nat) as Hl by (by destruct levels).
  assert (∀ i L d, levels !! i = Some L → d ∈ L → InnerNode.check_consistent (i_node d) = true ∧
    InnerHeader.is_root (InnerNode.hdr (i_node d)) = bool_decide (S i = length levels)) as Hroot.
  { intros i L d Hi Hd. pose proof (tower_level _ _ _ _ _ Ht Hi) as [Hch _ _].
    destruct (chain_elem i_link _ _ _ _ Hch Hd) as [n Hn]. split; apply Hn. }
  split_and!; [done|done| |lia| |].
  - intros k Hk. unfold covers, lo, i_hi. cbn -[KeyMax KeyNull]. rewrite Hmin, (io_max _ _ _ _ Hok), KeyNull_num.
    pose proof (key_num_range k). lia.
  - intros d (L & Hd & [i Hi]%list_elem_of_lookup)%elem_of_concat. unfold InnerNode.get_is_root.
    rewrite (proj2 (Hroot i L d Hi Hd)), bool_decide_eq_true. split.
    + intros Ei. rewrite <- Ei, Nat.sub_succ, Nat.sub_0_r in Hc. rewrite Hc in Hi. injection Hi as <-.
      by apply list_elem_of_singleton in Hd.
    + intros ->. pose proof (Hroot (length levels - 1)%nat [c] c Hc ltac:(left)) as [_ E].
      rewrite bool_decide_eq_true_2 in E by lia. rewrite (proj2 (Hroot i L c Hi Hd)) in E. by apply bool_decide_eq_true in E.
  - intros d (L & Hd & [i Hi]%list_elem_of_lookup)%elem_of_concat. by apply (Hroot i L d).
Qed.

(** The first node searched is the root. *)
Definition from_root lv0 lv levels s k (x : bool * Rec.t * bool) s' : Prop :=
  ∃ c r q, x = (true, r, bool_decide (length levels - 1 = 0)%nat) ∧ is_top levels c ∧
    floor_rec (recs [c]) k r ∧ ready lv0 lv levels s' ∧ keeps s s' ∧ path (srv s') = [q] ∧
    inner_covers c k ∧ Rec.addr q = i_addr c.

Lemma inner_search_top lv0 lv levels s0 s fuel c k record q :
  key_num k < key_num KeyMax → ready lv0 lv levels s → keeps s0 s → is_top levels c →
  path (srv s) = [q] → Rec.key q = KeyNull → Rec.addr q = i_addr c →
  wp (inner_search (S fuel) (i_addr c) k record) s (from_root lv0 lv levels s0 k).
Proof.
  intros Hmax Hrd Hkp Hc Hp Hqk Hqa.
  destruct (top_cell lv0 levels (rd_index _ _ _ _ Hrd)) as (c' & Hc' & Hmin & Hcov & Hlen & _).
  assert (c' = c) as -> by (unfold is_top in *; congruence).
  eapply wp_mono; [eapply (inner_search_level lv0 lv levels s fuel _ [c] c k record [] q); try done|].
  - left.
  - auto.
  - congruence.
  - lia.
  - intros x s' (L & r & -> & HL & Hfl & Hrd' & Hkp' & Hp'). rewrite Hc in HL. injection HL as <-.
    exists c, r, q. split_and!; try done; [by etrans|congruence|auto].
Qed.

(** The server's root address may be the one of a former root. *)
Lemma inner_search_root lv0 lv levels s fuel d k record q :
  key_num k < key_num KeyMax → ready lv0 lv levels s → d ∈ concat levels →
  path (srv s) = [q] → Rec.key q = KeyNull → Rec.addr q = i_addr d →
  wp (inner_search (S (S fuel)) (i_addr d) k record) s (from_root lv0 lv levels s k).
Proof.
  intros Hmax Hrd Hd Hp Hqk Hqa. pose proof (rd_mem _ _ _ _ Hrd) as Hmem.
  destruct (top_cell lv0 levels (rd_index _ _ _ _ Hrd)) as (c & Hc & Hmin & Hcov & Hlen & Hroot & Hcons).
  destruct (InnerNode.get_is_root (i_node d)) eqn:Er.
  { apply Hroot in Er as ->; [|done]. by eapply inner_search_top. }
  cbn [inner_search]. eapply wp_eq; [by eapply read_inner_Ok|]. rewrite (Hcons d Hd). cbn [negb].
  apply wp_get_path. rewrite Hp, Er. cbn [length Z.of_nat Z.eqb andb negb]. apply wp_modify.
  destruct (im_root _ _ Hmem) as (c' & Hc' & Hrp). assert (c' = c) as -> by (unfold is_top in *; congruence).
  assert (i_addr c ≠ Gaddr_Null) as Hnn.
  { apply (im_null _ _ Hmem). eapply elem_of_level; [exact Hc|left]. }
  assert (get_root_addr (set_local_root s Gaddr_Null) = Ok (i_addr c, set_local_root s (i_addr c))) as E.
  { unfold get_root_addr, mbind, M_bind, get. cbn. rewrite Hrp. unfold assert, lift, require.
    unfold gaddr_neqb. by rewrite (proj2 (gaddr_eqb_neq _ _) Hnn). }
  eapply wp_eq; [exact E|]. eapply wp_lift; [reflexivity|]. apply wp_put_path.
  eapply inner_search_top; try done.
  apply ready_path. destruct Hrd as [H1 H2 H3 [H4 H5 H6]]. constructor; try done. constructor; try done.
  right. exists c. split; [|done]. eapply elem_of_level; [exact Hc|left].
Qed.

Lemma find_leaf_loop_S fuel a k r :
  find_leaf_loop (A := A) (S fuel) a k r =
    ('(to_next, r, next_is_leaf) ← inner_search fuel a k r;
     if negb to_next then find_leaf_loop fuel (Rec.addr r) k r
     else p ← get_path; put_path (p ++ [Rec.copy r]);;
          if (next_is_leaf : bool) then mret r else find_leaf_loop fuel (Rec.addr r) k r).
Proof. done. Qed.

Lemma get_root_addr_spec lv0 lv levels s :
  ready lv0 lv levels s →
  wp get_root_addr s (λ a s', ready lv0 lv levels s' ∧ keeps s s' ∧ ∃ d, d ∈ concat levels ∧ a = i_addr d).
Proof.
  intros Hrd. destruct (sv_root _ _ _ (rd_server _ _ _ _ Hrd)) as [E|(d & Hd & E)]; unfold wp, get_root_addr, mbind, M_bind, get.
  - rewrite E. cbn. destruct (im_root _ _ (rd_mem _ _ _ _ Hrd)) as (c & Hc & Hrp).
    assert (c ∈ concat levels) as Hin by (eapply elem_of_level; [exact Hc|left]).
    rewrite Hrp. unfold assert, lift, require, gaddr_neqb.
    rewrite (proj2 (gaddr_eqb_neq _ _) (im_null _ _ (rd_mem _ _ _ _ Hrd) c Hin)). cbn.
    split; [|split; [done|by exists c]].
    destruct Hrd as [H1 H2 H3 [H4 H5 H6]]. constructor; try done. constructor; try done. right. by exists c.
  - unfold gaddr_neqb. rewrite <- E, (proj2 (gaddr_eqb_neq _ _) (im_null _ _ (rd_mem _ _ _ _ Hrd) d Hd)). cbn.
    split; [done|]. split; [done|]. by exists d.
Qed.

Lemma find_leaf_spec lv0 lv levels s fuel k :
  key_num k < key_num KeyMax → ready lv0 lv levels s → (length levels + 2 ≤ fuel)%nat →
  wp (find_leaf fuel k) s (found lv0 lv levels s k).
Proof.
  intros Hmax Hrd Hfuel. unfold find_leaf.
  eapply wp_seq; [by apply get_root_addr_spec|]. intros a s1 (Hrd1 & Hkp1 & d & Hd & ->). apply wp_put_path.
  destruct (top_cell lv0 levels (rd_index _ _ _ _ Hrd)) as (_ & _ & _ & _ & Hlen & _).
  destruct fuel as [|[|[|fuel]]]; [lia..|]. rewrite find_leaf_loop_S.
  apply wp_bind. eapply wp_seq; [eapply (inner_search_root lv0 lv levels _ fuel d k); try done; by apply ready_path|].
  intros x s2 (c & r & q & -> & Hc & Hfl & Hrd2 & Hkp2 & Hp2 & Hcov & Hq). cbn [negb].
  pose proof (lookup_lt_Some _ _ _ Hc) as Hlt.
  eapply wp_mono; [apply (find_leaf_tail lv0 lv levels k Hmax (length levels - 1) _ s2 [c] r); try done|].
  - lia.
  - intros i L Hi HL. assert (i = length levels - 1)%nat as -> by (apply lookup_lt_Some in HL; lia).
    rewrite Hc in HL. injection HL as <-. rewrite Nat.sub_diag, Hp2. exists q, c. split_and!; try done. left.
  - rewrite Hp2. cbn. lia.
  - intros y s3 (H1 & H2 & H3 & H4). pose proof H1 as (l & _ & -> & _). apply wp_assert; [done|]. apply wp_ret.
    split; [done|]. split; [done|]. split; [|done]. etrans; [exact Hkp1|]. etrans; [|exact H3].
    etrans; [|exact Hkp2]. done.
Qed.

(** ** From a cached bottom node *)

(** A path from the cache: a bottom node at or left of the one that covers
    [k], and the leaf. *)
Definition bottom_path k levels (p : list Rec.t) : Prop :=
  ∃ q q' L c, p = [q; q'] ∧ levels !! 0%nat = Some L ∧ c ∈ L ∧ Rec.addr q = i_addr c ∧ lo i_link c ≤ key_num k.

Definition found_bottom lv0 lv levels s k (r : Rec.t) s' : Prop :=
  (∃ c : lcell, c ∈ lv0 ∧ r = leaf_rec c ∧ leaf_covers c k) ∧
  ready lv0 lv levels s' ∧ keeps s s' ∧ bottom_path k levels (path (srv s')).

Lemma bottom_loop_S fuel a k r :
  bottom_loop (A := A) (S fuel) a k r =
    ('(to_next, r, next_is_leaf) ← bottom_search fuel a k r;
     if negb to_next then bottom_loop fuel (Rec.addr r) k r
     else p ← get_path; put_path (p ++ [Rec.copy r]);; assert next_is_leaf;; mret r).
Proof. done. Qed.

(** The cell that covers [k]. *)
Lemma bottom_here lv0 lv levels k L d fuel s record q :
  key_num k < key_num KeyMax → levels !! 0%nat = Some L → d ∈ L → inner_covers d k →
  ready lv0 lv levels s → path (srv s) = [q] →
  wp (bottom_loop (S (S fuel)) (i_addr d) k record) s (found_bottom lv0 lv levels s k).
Proof.
  intros Hmax HL Hd Hcov Hrd Hp. cbn [bottom_loop bottom_search].
  pose proof (elem_of_level _ _ _ _ HL Hd) as Hin.
  pose proof (tower_level _ _ _ _ _ (ix_tower _ _ (rd_index _ _ _ _ Hrd)) HL) as [Hch _ _].
  destruct (chain_elem i_link _ _ _ _ Hch Hd) as [n Hn].
  apply wp_bind. eapply wp_eq; [eapply read_inner_Ok; [apply Hrd|done]|].
  rewrite (io_consistent _ _ _ _ Hn). cbn [negb]. apply wp_get_path. rewrite Hp.
  eapply wp_lift; [apply (last_rec_app [])|]. rewrite (proj2 (check_hdr_covers d k) Hcov). cbn [negb].
  destruct (level_search _ _ _ _ _ Hch Hd Hcov) as (r & Hs & Hfl). eapply wp_lift; [exact Hs|].
  apply wp_assert; [done|]. apply wp_put_path.
  eapply wp_seq; [eapply (cache_bottom lv0 lv levels _ L d); try done; by apply ready_path|].
  intros _ s2 (Hrd2 & Hkp2 & Hp2). apply wp_ret. cbn [negb bool_decide andb decide_rel].
  apply wp_get_path, wp_put_path, wp_assert; [done|]. apply wp_ret.
  destruct (index_leaf _ _ _ _ _ (rd_index _ _ _ _ Hrd) HL Hmax Hfl) as (c & Hc & -> & Hlc).
  split; [by exists c|]. split; [by apply ready_path|]. split; [by destruct Hkp2|].
  cbn. rewrite Hp2. cbn. eexists _, _, L, d. split; [reflexivity|]. split_and!; try done. apply Hcov.
Qed.

Lemma bottom_loop_spec lv0 lv levels k L :
  key_num k < key_num KeyMax → levels !! 0%nat = Some L → ∀ L2 L1 d fuel s record q,
  L = L1 ++ d :: L2 → lo i_link d ≤ key_num k → ready lv0 lv levels s → path (srv s) = [q] →
  (length L2 + 2 ≤ fuel)%nat →
  wp (bottom_loop fuel (i_addr d) k record) s (found_bottom lv0 lv levels s k).
Proof.
  intros Hmax HL. induction L2 as [|d' L2 IH]; intros L1 d fuel s record q EL Hlo Hrd Hp Hfuel;
    (destruct fuel as [|[|fuel]]; [cbn in Hfuel; lia..|]);
    assert (d ∈ L) as Hd by (rewrite EL; set_solver).
  all: pose proof (tower_level _ _ _ _ _ (ix_tower _ _ (rd_index _ _ _ _ Hrd)) HL) as [Hch _ _].
  all: rewrite EL in Hch; apply chain_middle in Hch as (_ & Hn & _).
  all: destruct (inner_ranged _ _ _ _ Hn) as [_ Hhi].
  { eapply bottom_here; try done. split; [done|]. rewrite Hhi. done. }
  destruct (Z.lt_ge_cases (key_num k) (i_hi d)) as [Hlt|Hge]; [by eapply bottom_here|].
  cbn in Hn. assert (d' ∈ concat levels) as Hin' by (eapply elem_of_level; [exact HL|rewrite EL; set_solver]).
  rewrite bottom_loop_S. cbn [bottom_search]. apply wp_bind.
  eapply wp_eq; [eapply read_inner_Ok; [apply Hrd|by eapply elem_of_level]|].
  rewrite (io_consistent _ _ _ _ Hn). cbn [negb]. apply wp_get_path. rewrite Hp.
  eapply wp_lift; [apply (last_rec_app [])|].
  destruct (InnerNode.check_hdr (i_node d) k) eqn:Eh; [apply check_hdr_covers in Eh as [_ ?]; lia|]. cbn [negb].
  unfold InnerNode.get_hdr. rewrite (io_right _ _ _ _ Hn). cbn [k_addr i_link].
  apply wp_assert. { unfold gaddr_neqb. by rewrite (proj2 (gaddr_eqb_neq _ _) (im_null _ _ (rd_mem _ _ _ _ Hrd) d' Hin')). }
  apply wp_put_path, wp_ret. cbn [negb].
  eapply wp_mono; [eapply (IH (L1 ++ [d]) d'); try done|].
  - by rewrite <- app_assoc.
  - cbn in Hhi. change (limit (Some (i_link d'))) with (lo i_link d') in Hhi. lia.
  - by apply ready_path.
  - cbn in Hfuel |- *. lia.
  - intros y s' (H1 & H2 & H3 & H4). split; [done|]. split; [done|]. split; [|done]. etrans; [|exact H3]. done.
Qed.

Lemma read_bottom_inner_spec lv0 lv levels s fuel k L :
  key_num k < key_num KeyMax → ready lv0 lv levels s → bottom_path k levels (path (srv s)) →
  levels !! 0%nat = Some L → (length L + 1 ≤ fuel)%nat →
  wp (read_bottom_inner fuel k) s (found_bottom lv0 lv levels s k).
Proof.
  intros Hmax Hrd (q & q' & L' & c & Hp & HL' & Hc & Ha & Hlo) HL Hfuel. rewrite HL in HL'. injection HL' as <-.
  unfold read_bottom_inner. apply wp_get_path. rewrite Hp. apply wp_assert; [done|]. eapply wp_lift; [reflexivity|].
  apply wp_put_path. rewrite Ha. apply list_elem_of_split in Hc as (L1 & L2 & EL).
  eapply wp_seq; [eapply (bottom_loop_spec lv0 lv levels k L Hmax HL L2 L1 c); try done|].
  - by apply ready_path.
  - rewrite EL, length_app in Hfuel. cbn in Hfuel. lia.
  - intros y s' (H1 & H2 & H3 & H4). pose proof H1 as (l & _ & -> & _). apply wp_assert; [done|]. apply wp_ret.
    split; [done|]. split; [done|]. split; [|done]. etrans; [|exact H3]. done.
Qed.

End find.
