(* ===== verification/TreeGrow.v ===== *)
(** * Growing the inner levels ([DMInner.cc])

    [inner_write], [node_split] and [update_root] on one level, and
    [inner_insert], which adds the record of a new leaf to the bottom level and
    the records of the nodes split on the way to the levels above. *)

From S2P Require Import Prelude KVConfig RdmaConfig Hash LeafNode InnerTree LocalLockTable DMCache Tree TreeChain TreeLeaf TreeInner TreeFind.
Open Scope Z_scope.

Import SkipVectorDM.

(** ** What the index relies on in the allocator

    [alloc_inv a ms ts]: [ms] are the blocks, with their sizes, that
    [memory_alloc] gave so far, and [ts] the tables of [compute_alloc].  Blocks
    are on memory nodes, behind the words of the index, and do not overlap.
    Tables are on compute nodes; they do not overlap even where they are copied
    to the memory of one node, at their offsets.  Servers run on compute nodes. *)
Abbreviation span := (Gaddr * Z)%type.

Definition spans_apart (p q : span) : Prop :=
  nodeID p.1 = nodeID q.1 → offset p.1 + p.2 ≤ offset q.1 ∨ offset q.1 + q.2 ≤ offset p.1.

Definition tables_apart (g h : Gaddr) : Prop :=
  offset g + FPTable.size_for LeafNodeCapacity ≤ offset h ∨ offset h + FPTable.size_for LeafNodeCapacity ≤ offset g.

Class AllocatorSpec (A : Type) `{!Allocator A} := {
  is_server : nat → Prop;
  machines : Z;
  max_blocks : nat;
  max_tables : nat;
  alloc_inv : A → list span → list Gaddr → Prop;
  memory_nodes_pos : 0 < memory_nodes;
  servers_compute i : is_server i → memory_nodes ≤ Z.of_nat i < machines;
  alloc_nodes a ms ts : alloc_inv a ms ts →
    Forall (λ p, 0 ≤ nodeID p.1 < memory_nodes ∧ kChunkSize ≤ offset p.1 ∧ 0 < p.2) ms ∧ Forall (λ g, memory_nodes ≤ nodeID g < machines) ts;
  alloc_apart a ms ts : alloc_inv a ms ts → pairwise spans_apart ms ∧ pairwise tables_apart ts;
  memory_alloc_ok a ms ts i size :
    alloc_inv a ms ts → is_server i → (length ms < max_blocks)%nat →
    size = InnerNode.size_of ∨ size = LeafNode.cur_node_size LeafNodeCapacity →
    ∃ g a', memory_alloc i size a = Ok (g, a') ∧ alloc_inv a' ((g, size) :: ms) ts;
  compute_alloc_ok a ms ts i :
    alloc_inv a ms ts → is_server i → (length ts < max_tables)%nat →
    ∃ g a', compute_alloc i (FPTable.size_for LeafNodeCapacity) a = Ok (g, a') ∧ alloc_inv a' ms (g :: ts) }.

(** The block of an inner node and of a leaf. *)
Definition inner_span (g : Gaddr) : span := (g, InnerNode.size_of).
Definition leaf_span (g : Gaddr) : span := (g, LeafNode.cur_node_size LeafNodeCapacity).

Lemma spans_fst (f : Gaddr → span) l : (∀ g, (f g).1 = g) → (f <$> l).*1 = l.
Proof. intros Hf. induction l as [|g l IH]; [done|]. cbn. by rewrite Hf, IH. Qed.

Section promises.
Context {A : Type} `{!Allocator A, !AllocatorSpec A}.

Lemma alloc_addrs a ms ts : alloc_inv a ms ts → NoDup ms.*1 ∧ Forall (λ g, gaddr_val g ≠ 0) ms.*1.
Proof.
  intros H. destruct (alloc_nodes _ _ _ H) as [Hn _]. destruct (alloc_apart _ _ _ H) as [Ha _]. rewrite Forall_forall in Hn. split.
  - apply NoDup_alt. intros i j g Hi Hj. rewrite list_lookup_fmap in Hi, Hj.
    apply fmap_Some in Hi as (p & Ei & ->). apply fmap_Some in Hj as (q & Ej & E).
    destruct (decide (i = j)) as [|Hne]; [done|]. pose proof (Ha i j p q Hne Ei Ej) as Hap.
    destruct (Hn p) as (_ & _ & Hp); [by eapply list_elem_of_lookup_2|]. destruct (Hn q) as (_ & _ & Hq); [by eapply list_elem_of_lookup_2|].
    unfold spans_apart in Hap. rewrite E in Hap. specialize (Hap eq_refl). lia.
  - apply Forall_forall. intros g (p & -> & Hp)%list_elem_of_fmap E. destruct (Hn p Hp) as (_ & Ho & _). assert (0 < kChunkSize) by done.
    unfold gaddr_val in E. apply Z.lor_eq_0_iff in E as [_ E]. rewrite Z.shiftl_mul_pow2 in E by lia. lia.
Qed.

Lemma alloc_tables a ms ts : alloc_inv a ms ts → NoDup (offset <$> ts) ∧ Forall (λ g, nodeID g ≠ 0) ts.
Proof.
  intros H. destruct (alloc_nodes _ _ _ H) as [_ Hn]. destruct (alloc_apart _ _ _ H) as [_ Ha]. pose proof memory_nodes_pos as Hpos. split.
  - apply NoDup_alt. intros i j x Hi Hj. rewrite list_lookup_fmap in Hi, Hj.
    apply fmap_Some in Hi as (g & Ei & ->). apply fmap_Some in Hj as (h & Ej & E).
    destruct (decide (i = j)) as [|Hne]; [done|]. pose proof (Ha i j g h Hne Ei Ej) as Hap.
    unfold tables_apart in Hap. assert (0 < FPTable.size_for LeafNodeCapacity) by done. lia.
  - eapply Forall_impl; [exact Hn|]. cbn. lia.
Qed.

Lemma alloc_blocks a ms ts : alloc_inv a ms ts → NoDup ms.*1 ∧ Gaddr_Null ∉ ms.*1.
Proof. intros [Hd Hn]%alloc_addrs. split; [done|]. rewrite Forall_forall in Hn. by intros ?%Hn. Qed.

End promises.

Section grow.
Context {CH : CityHash} {A : Type} `{!Allocator A, !AllocatorSpec A} (uninit : Gaddr).
Implicit Types (s : @st A) (levels rest : list (list icell)) (L : list icell) (c d : icell) (k : Key).

(** ** Locking a node *)

Definition lock_cell s c : @st A := set_inners s (<[i_addr c := with_lock (i_node c) 1]> (inners (mem s))).

Lemma set_inners_id s : set_inners s (inners (mem s)) = s.
Proof. by destruct s as [[] ?]. Qed.

Lemma with_lock_id n : InnerNode.lock n = 0 → with_lock n 0 = n.
Proof. destruct n; cbn. by intros ->. Qed.

Lemma lock_node_Ok s c L : stored (inners (mem s)) L → c ∈ L → lock_node (i_addr c) s = Ok (tt, lock_cell s c).
Proof.
  intros Hst Hc. destruct (Hst c Hc) as [E Hl]. unfold lock_node, read_inner, mbind, M_bind, get, fetch, lift.
  rewrite E, Hl. done.
Qed.

Lemma read_locked s c : read_inner (i_addr c) (lock_cell s c) = Ok (with_lock (i_node c) 1, lock_cell s c).
Proof. unfold read_inner, mbind, M_bind, get, fetch, lift. cbn. by rewrite lookup_insert_eq. Qed.

Lemma unlock_node_Ok s c L :
  stored (inners (mem s)) L → c ∈ L → unlock_node (i_addr c) (lock_cell s c) = Ok (tt, s).
Proof.
  intros Hst Hc. destruct (Hst c Hc) as [E Hl]. unfold unlock_node, mbind, M_bind. rewrite read_locked.
  unfold write_inner, modify, lock_cell. cbn. rewrite insert_insert_eq.
  change (InnerNode.unlock (with_lock (i_node c) 1)) with (with_lock (i_node c) 0).
  rewrite (with_lock_id _ Hl), (insert_id (inners (mem s)) (i_addr c) (i_node c) E). by destruct s as [[] ?].
Qed.

(** The lock moves right to the cell that covers the key. *)
Lemma move_right_spec s top bottom L k :
  key_num k < key_num KeyMax → level_ok top bottom L → stored (inners (mem s)) L → ∀ L2 L1 d fuel,
  L = L1 ++ d :: L2 → lo i_link d ≤ key_num k → (length L2 < fuel)%nat →
  ∃ c, c ∈ L ∧ inner_covers c k ∧ lo i_link d ≤ lo i_link c ∧
    move_right fuel (i_addr d) k (with_lock (i_node d) 1) (lock_cell s d) =
      Ok ((i_addr c, with_lock (i_node c) 1), lock_cell s c).
Proof.
  intros Hmax [Hch _ _] Hst. induction L2 as [|d' L2 IH]; intros L1 d fuel EL Hlo Hfuel;
    (destruct fuel as [|fuel]; [lia|]); assert (d ∈ L) as Hd by (rewrite EL; set_solver);
    pose proof Hch as Hch'; rewrite EL in Hch'; apply chain_middle in Hch' as (_ & Hn & _);
    destruct (inner_ranged _ _ _ _ Hn) as [_ Hhi]; cbn [move_right];
    change (InnerNode.check_hdr (with_lock (i_node d) 1) k) with (InnerNode.check_hdr (i_node d) k);
    (destruct (InnerNode.check_hdr (i_node d) k) eqn:Eh; [apply check_hdr_covers in Eh; by exists d|]).
  - assert (inner_covers d k) as Hcov by (split; [done|by rewrite Hhi]). apply check_hdr_covers in Hcov. congruence.
  - destruct (IH (L1 ++ [d]) d' fuel) as (c & Hc & Hcov & Hle & E).
    + by rewrite <- app_assoc.
    + cbn in Hhi. change (limit (Some (i_link d'))) with (lo i_link d') in Hhi.
      destruct (Z.lt_ge_cases (key_num k) (i_hi d)); [|lia].
      assert (inner_covers d k) as Hcov by done. apply check_hdr_covers in Hcov. congruence.
    + cbn in Hfuel. lia.
    + exists c. split_and!; [done|done| |].
      * destruct (inner_ranged _ _ _ _ Hn) as [Hlt _]. cbn in Hhi.
        change (limit (Some (i_link d'))) with (lo i_link d') in Hhi. lia.
      * assert (d' ∈ L) as Hd' by (rewrite EL; set_solver).
        unfold mbind, M_bind. rewrite (unlock_node_Ok s d L Hst Hd). unfold InnerNode.get_hdr. cbn [with_lock InnerNode.hdr].
        rewrite (io_right _ _ _ _ Hn). cbn [first k_addr i_link]. rewrite (lock_node_Ok s d' L Hst Hd'), read_locked.
        change (InnerNode.check_consistent (with_lock (i_node d') 1)) with (InnerNode.check_consistent (i_node d')).
        destruct (chain_elem i_link _ _ _ _ Hch Hd') as [n' Hn']. rewrite (io_consistent _ _ _ _ Hn'). exact E.
Qed.

(** ** [inner_write] *)

(** The record [x] gives way to [upd], on the bottom level only. *)
Definition swapped (is_bottom : bool) (x upd : Rec.t) (l l' : list Rec.t) : Prop :=
  if is_bottom then ∃ R, l ≡ₚ x :: R ∧ l' ≡ₚ upd :: R else l' = l.

Lemma swapped_insert x upd l i : l !! i = Some x → swapped true x upd l (<[i := upd]> l).
Proof.
  intros Hi. exists (take i l ++ drop (S i) l). split.
  - rewrite <- (take_drop_middle l i x Hi) at 1. by rewrite <- Permutation_middle.
  - rewrite insert_take_drop by (by eapply lookup_lt_Some). by rewrite <- Permutation_middle.
Qed.

Lemma swapped_keys is_bottom x upd l l' :
  swapped is_bottom x upd l l' → Rec.key upd = Rec.key x → Rec.key <$> l' ≡ₚ Rec.key <$> l.
Proof.
  destruct is_bottom; [intros (R & -> & ->) E; cbn; by rewrite E|by intros ->].
Qed.

(** What [inner_write] expects of the record it updates on the bottom level. *)
Definition updates (is_bottom bottom : bool) (L : list icell) (r x upd : Rec.t) : Prop :=
  is_bottom = true → bottom = true ∧ floor_rec (recs L) (Rec.key r) x ∧ Rec.key upd = Rec.key x ∧ Rec.valid upd = 1.

(** The buffered node, with the lock held, before the new record goes in. *)
Lemma buffer_update s top bottom is_bottom L c nxt r x upd :
  inner_ok top bottom c nxt → chain i_link (inner_ok top bottom) L None → c ∈ L → inner_covers c (Rec.key r) →
  updates is_bottom bottom L r x upd →
  ∃ n live, (if is_bottom then
              assert (InnerHeader.next_is_leaf (InnerNode.get_hdr (with_lock (i_node c) 1)));;
              assert (InnerNode.check_hdr (with_lock (i_node c) 1) (Rec.key upd));;
              '(ok, node) ← lift (InnerNode.insert (with_lock (i_node c) 1) upd);
              assert ok;; mret node
            else mret (with_lock (i_node c) 1)) s = Ok (n, s) ∧
    inner_ok top bottom (ICell (i_addr c) n live) nxt ∧ swapped is_bottom x upd (i_live c) live ∧
    InnerNode.hdr n = InnerNode.hdr (i_node c).
Proof.
  intros Hn Hch Hc Hcov Hu. pose proof (inner_ok_lock _ _ _ 1 _ Hn) as Hn1.
  destruct is_bottom; [|eexists _, (i_live c); by split_and!].
  destruct (Hu eq_refl) as (-> & Hfl & Hk & Hv). destruct (cell_search _ _ _ _ _ Hn Hcov) as (x' & _ & Hfl').
  assert (x ∈ i_live c) as Hx.
  { destruct Hfl as (H1 & H2 & H3), Hfl' as (H4 & H5 & H6).
    assert (x' ∈ recs L) as Hin by (apply elem_of_recs; eauto).
    pose proof (H3 x' Hin H5). pose proof (level_live _ _ _ _ _ Hch Hc H4) as Hlx.
    apply elem_of_recs in H1 as (d & Hd & Hxd). pose proof (level_live _ _ _ _ _ Hch Hd Hxd) as Hlxd.
    assert (d = c) as ->; [|done]. apply (chain_cover_unique i_link i_hi _ (inner_ranged top true) L None d c (Rec.key x)); try done.
    destruct Hcov as [? ?]. split; unfold Rec.num in *; lia. }
  apply list_elem_of_lookup in Hx as [i Hi].
  destruct (inner_replace _ _ _ _ i x upd Hn1 Hv Hi (eq_sym Hk)) as (n & E & Hn' & Hh & _).
  exists n, (<[i := upd]> (i_live c)). split_and!; [|done|by apply swapped_insert|done].
  unfold mbind, M_bind, assert, lift, require. unfold InnerNode.get_hdr. cbn [with_lock InnerNode.hdr].
  rewrite (io_leaf _ _ _ _ Hn).
  assert (InnerNode.check_hdr (with_lock (i_node c) 1) (Rec.key upd) = true) as ->.
  { change (InnerNode.check_hdr (i_node c) (Rec.key upd) = true). apply check_hdr_covers. rewrite Hk.
    apply (level_live _ _ _ _ x Hch Hc). by eapply list_elem_of_lookup_2. }
  cbn in E. by rewrite E.
Qed.

Lemma covers_hdr c c' k :
  InnerNode.hdr (i_node c') = InnerNode.hdr (i_node c) → inner_covers c k → inner_covers c' k.
Proof. unfold covers, lo, i_hi, i_max. cbn [i_link k_min]. unfold i_min. by intros ->. Qed.

Lemma swapped_fresh is_bottom bottom L c r x upd live :
  c ∈ L → swapped is_bottom x upd (i_live c) live → updates is_bottom bottom L r x upd →
  Rec.key r ∉ Rec.key <$> recs L → Rec.key r ∉ Rec.key <$> live.
Proof.
  intros Hc Hsw Hu Hnin Hin. apply Hnin. assert (Rec.key r ∈ Rec.key <$> i_live c) as Hin'.
  { destruct is_bottom; [|by rewrite <- Hsw]. destruct (Hu eq_refl) as (_ & _ & Hk & _).
    by rewrite <- (swapped_keys _ _ _ _ _ Hsw Hk). }
  apply list_elem_of_fmap in Hin' as (y & Ey & Hy). rewrite Ey. apply list_elem_of_fmap_2, elem_of_recs. eauto.
Qed.

Lemma inner_write_spec s top bottom is_bottom L d r x upd fuel :
  key_num (Rec.key r) < key_num KeyMax → level_ok top bottom L → stored (inners (mem s)) L →
  d ∈ L → lo i_link d ≤ Rec.num r → (length L ≤ fuel)%nat → Rec.valid r = 1 →
  Rec.key r ∉ Rec.key <$> recs L → updates is_bottom bottom L r x upd →
  ∃ L1 c L2 live, L = L1 ++ c :: L2 ∧ inner_covers c (Rec.key r) ∧ lo i_link d ≤ lo i_link c ∧
    swapped is_bottom x upd (i_live c) live ∧
    ((∃ n live', inner_write fuel (i_addr d) r upd is_bottom s =
        Ok ((true, i_addr c, n), set_inners s (<[i_addr c := n]> (inners (mem s)))) ∧
        InnerNode.lock n = 0 ∧ InnerNode.hdr n = InnerNode.hdr (i_node c) ∧
        inner_ok top bottom (ICell (i_addr c) n live') (first i_link L2 None) ∧ live' ≡ₚ r :: live) ∨
     (∃ n, inner_write fuel (i_addr d) r upd is_bottom s = Ok ((false, i_addr c, n), lock_cell s c) ∧
        inner_ok top bottom (ICell (i_addr c) n live) (first i_link L2 None) ∧
        InnerNode.hdr n = InnerNode.hdr (i_node c) ∧ length live = InnerNodeCapacity)).
Proof.
  intros Hmax HL Hst Hd Hlo Hfuel Hv Hnin Hu. pose proof (lv_chain _ _ _ HL) as Hch.
  pose proof Hd as (A1 & A2 & EA)%list_elem_of_split.
  destruct (move_right_spec s top bottom L (Rec.key r) Hmax HL Hst A2 A1 d fuel EA Hlo) as (c & Hc & Hcov & Hle & Hmv).
  { rewrite EA, length_app in Hfuel. cbn in Hfuel. lia. }
  pose proof Hc as (L1 & L2 & EL)%list_elem_of_split.
  assert (inner_ok top bottom c (first i_link L2 None)) as Hn.
  { rewrite EL in Hch. by apply chain_middle in Hch as (_ & ? & _). }
  destruct (buffer_update (lock_cell s c) _ _ is_bottom L c _ r x upd Hn Hch Hc Hcov Hu) as (n & live & Eb & Hn' & Hsw & Hh).
  exists L1, c, L2, live. split_and!; try done.
  assert (Rec.key r ∉ Rec.key <$> live) as Hnin' by (by eapply swapped_fresh).
  assert (inner_write fuel (i_addr d) r upd is_bottom s =
    ('(ok, node) ← lift (InnerNode.insert n r);
     if (ok : bool) then write_inner (i_addr c) (InnerNode.unlock node);; mret (true, i_addr c, InnerNode.unlock node)
     else mret (false, i_addr c, node)) (lock_cell s c)) as ->.
  { unfold inner_write, mbind, M_bind. rewrite (lock_node_Ok s d L Hst Hd), read_locked.
    destruct (chain_elem i_link _ _ _ _ Hch Hd) as [n' Hnd].
    change (InnerNode.check_consistent (with_lock (i_node d) 1)) with (InnerNode.check_consistent (i_node d)).
    rewrite (io_consistent _ _ _ _ Hnd). cbn [assert lift require]. rewrite Hmv. unfold mbind, M_bind in Eb. by rewrite Eb. }
  assert (inner_covers (ICell (i_addr c) n live) (Rec.key r)) as Hcov'.
  { by apply (covers_hdr c). }
  destruct (decide (length live = InnerNodeCapacity)) as [Hfull|Hnf].
  - right. exists n. split_and!; try done.
    rewrite (InnerNode.insert_full n live r (io_rep _ _ _ _ Hn') Hnin' Hfull). done.
  - left. pose proof (InnerNode.node_rep_le _ _ (io_rep _ _ _ _ Hn')).
    destruct (inner_fit _ _ _ _ r Hn' Hv Hcov' Hnin') as (n2 & live2 & E2 & Hn2 & Hp2 & Hh2 & _); [cbn in *; lia|].
    cbn in E2. exists (InnerNode.unlock n2), live2. rewrite E2. split_and!; try done.
    + unfold mbind, M_bind. cbn. unfold write_inner, modify, lock_cell, set_inners. cbn. by rewrite insert_insert_eq.
    + cbn in *. congruence.
    + by apply (inner_ok_lock _ _ (ICell (i_addr c) n2 live2) 0).
Qed.

(** ** [node_split] *)

Lemma alloc_Ok s f size g a :
  f (my_id (srv s)) size (allocs (mem s)) = Ok (g, a) → alloc f size s = Ok (g, set_allocs s a).
Proof. unfold alloc. by intros ->. Qed.

Lemma lift_Ok {S X} (r : result X) x (s : S) : r = Ok x → lift r s = Ok (x, s).
Proof. by intros ->. Qed.

(** The new record goes to the half that covers it. *)
Lemma halves_insert bottom cl cr nxt (mid r : Rec.t) :
  inner_ok false bottom cl (Some (i_link cr)) → inner_ok false bottom cr nxt → i_min cr = Rec.key mid →
  key_num (i_min cl) ≤ Rec.num r < key_num (i_max cr) → Rec.valid r = 1 → Rec.key r ∉ Rec.key <$> i_live cl ++ i_live cr →
  length (i_live cl) = 16%nat → length (i_live cr) = 16%nat → InnerNode.lock (i_node cl) = 0 → InnerNode.lock (i_node cr) = 0 →
  ∃ nl ll nr lr,
    (∀ s : @st A, (if key_gtb (Rec.key mid) (Rec.key r) then
       '(ok, node) ← lift (InnerNode.insert (i_node cl) r); assert ok;; mret node else mret (i_node cl)) s = Ok (nl, s)) ∧
    (∀ s : @st A, (if key_ltb (Rec.key mid) (Rec.key r) then
       '(ok, node) ← lift (InnerNode.insert (i_node cr) r); assert ok;; mret node else mret (i_node cr)) s = Ok (nr, s)) ∧
    inner_ok false bottom (ICell (i_addr cl) nl ll) (Some (i_link (ICell (i_addr cr) nr lr))) ∧
    inner_ok false bottom (ICell (i_addr cr) nr lr) nxt ∧ ll ++ lr ≡ₚ r :: (i_live cl ++ i_live cr) ∧
    InnerNode.hdr nl = InnerNode.hdr (i_node cl) ∧ InnerNode.hdr nr = InnerNode.hdr (i_node cr) ∧
    InnerNode.lock nl = 0 ∧ InnerNode.lock nr = 0.
Proof.
  intros Hl Hr Hm Hk Hv Hnin El Er Kl Kr. rewrite fmap_app, not_elem_of_app in Hnin. destruct Hnin as [Hnl Hnr].
  pose proof (io_max _ _ _ _ Hl) as Hmax. cbn in Hmax. rewrite key_gtb_num, key_ltb_num.
  assert (Rec.num r ≠ key_num (i_min cr)) as Hne.
  { destruct (io_first _ _ _ _ Hr) as (r0 & H0 & E0). intros E. apply Hnr. apply key_num_inj in E. rewrite E, <- E0.
    apply list_elem_of_fmap_2. by eapply list_elem_of_lookup_2. }
  assert (∀ n n' (s : @st A), InnerNode.insert n r = Ok (true, n') →
    ('(ok, node) ← lift (InnerNode.insert n r); assert ok;; mret node) s = Ok (n', s)) as Hins.
  { intros n n' s E. unfold mbind, M_bind, lift. by rewrite E. }
  rewrite Hm in *. unfold Rec.num in *.
  destruct (Z.ltb_spec (key_num (Rec.key r)) (key_num (Rec.key mid))) as [Hlt|Hge].
  - destruct (inner_fit _ _ _ _ r Hl Hv) as (nl & ll & E & Hl' & Hp & Hh & Hlk); [|done|unfold InnerNodeCapacity; lia|].
    { split; unfold lo, i_hi; cbn; [lia|]. by rewrite Hmax. }
    exists nl, ll, (i_node cr), (i_live cr). split_and!; try done.
    + intros s. by apply Hins.
    + intros s. destruct (Z.ltb_spec (key_num (Rec.key mid)) (key_num (Rec.key r))); [lia|done].
    + by destruct cr.
    + by rewrite Hp.
    + congruence.
  - destruct (inner_fit _ _ _ _ r Hr Hv) as (nr & lr & E & Hr' & Hp & Hh & Hlk); [|done|unfold InnerNodeCapacity; lia|].
    { split; unfold lo, i_hi; cbn; [rewrite Hm; lia|lia]. }
    exists (i_node cl), (i_live cl), nr, lr. split_and!; try done.
    + intros s. rewrite (proj2 (Z.ltb_lt _ _)) by lia. by apply Hins.
    + assert (i_link (ICell (i_addr cr) nr lr) = i_link cr) as ->; [|by destruct cl].
      unfold i_link, i_min. cbn. by rewrite Hh.
    + by rewrite Hp, <- Permutation_middle.
    + congruence.
Qed.

Lemma node_split_spec s c top bottom n live nxt r ms ts :
  inner_ok top bottom (ICell (i_addr c) n live) nxt → limit nxt ≤ key_num KeyMax → length live = InnerNodeCapacity →
  inner_covers (ICell (i_addr c) n live) (Rec.key r) → Rec.valid r = 1 → Rec.key r ∉ Rec.key <$> live →
  alloc_inv (allocs (mem s)) ms ts → is_server (my_id (srv s)) → (length ms < max_blocks)%nat → i_addr c ∈ ms.*1 →
  ∃ g a nl ll nr lr r', let cl := ICell (i_addr c) nl ll in let cr := ICell g nr lr in
    node_split (i_addr c) r n (lock_cell s c) =
      Ok (r', set_inners (set_allocs s a) (<[i_addr c := nl]> (<[g := nr]> (inners (mem s))))) ∧
    alloc_inv a (inner_span g :: ms) ts ∧ g ∉ ms.*1 ∧
    inner_ok false bottom cl (Some (i_link cr)) ∧ inner_ok false bottom cr nxt ∧
    i_min cl = InnerHeader.min_key (InnerNode.hdr n) ∧ ll ++ lr ≡ₚ r :: live ∧
    InnerNode.lock nl = 0 ∧ InnerNode.lock nr = 0 ∧
    Rec.key r' = i_min cr ∧ Rec.addr r' = g ∧ Rec.valid r' = 1 ∧ key_num (i_min cl) < Rec.num r' < key_num KeyMax.
Proof.
  intros Hn Hlim Hfull Hcov Hv Hnin Hal Hsv Hms Hc.
  destruct (memory_alloc_ok _ _ _ _ InnerNode.size_of Hal Hsv Hms) as (g & a & Ea & Hal'); [by left|].
  assert (g ∉ ms.*1) as Hg by (destruct (alloc_blocks _ _ _ Hal') as [Hd _]; by apply NoDup_cons in Hd as [? _]).
  destruct (inner_halves _ _ _ _ g Hn Hfull) as (mid & nl0 & nr0 & Eo & Es & Hl & Hr & Hm & Kl & Kr).
  cbn [i_addr i_node i_live] in *. destruct Hcov as [Hc1 Hc2].
  set (cl := ICell (i_addr c) _ _) in Hl, Kl. set (cr := ICell g nr0 _) in Hl, Hr, Hm.
  assert (i_max cr = i_max (ICell (i_addr c) n live)) as Hmr.
  { by rewrite (io_max _ _ _ _ Hr), (io_max _ _ _ _ Hn). }
  destruct (halves_insert bottom cl cr nxt mid r Hl Hr Hm) as (nl & ll & nr & lr & E1 & E2 & Hl' & Hr' & Hp & Hhl & Hhr & Kl' & Kr');
    try done.
  - rewrite Hmr. done.
  - cbn. by rewrite take_drop.
  - cbn. rewrite length_take, Hfull. done.
  - cbn. rewrite length_drop, Hfull. done.
  - exists g, a, nl, ll, nr, lr. eexists. cbn zeta. split.
    { pose proof (io_leaf _ _ _ _ Hn) as Hb. cbn in Hb. unfold node_split, InnerNode.get_hdr. cbn [InnerNode.unlock InnerNode.hdr].
      rewrite Hb. m_step (alloc_Ok (lock_cell s c) memory_alloc InnerNode.size_of g a Ea).
      m_step (lift_Ok (S := @st A) _ _ (set_allocs (lock_cell s c) a) Eo). cbn [Rec.set_addr Rec.key Rec.addr].
      m_step E1. m_step (lift_Ok (S := @st A) _ _ (set_allocs (lock_cell s c) a) Es). m_step E2.
      unfold mbind, M_bind, write_inner, modify. cbn.
      rewrite (insert_insert_ne _ g), insert_insert_eq by congruence. reflexivity. }
    assert (i_min (ICell g nr lr) = Rec.key mid) as Hm' by (unfold i_min; cbn; by rewrite Hhr).
    assert (i_min (ICell (i_addr c) nl ll) = InnerHeader.min_key (InnerNode.hdr n)) as Hml.
    { unfold i_min. cbn. by rewrite Hhl. }
    split_and!; try done.
    + rewrite Hp. cbn. by rewrite take_drop.
    + destruct (inner_ranged _ _ _ _ Hl') as [Hlt Hhi].
      change (limit (Some (i_link (ICell (i_addr cr) nr lr)))) with (key_num (i_min (ICell g nr lr))) in Hhi.
      change (lo i_link (ICell (i_addr cl) nl ll)) with (key_num (i_min (ICell (i_addr c) nl ll))) in Hlt.
      rewrite Hhi, Hm' in Hlt. exact Hlt.
    + destruct (inner_ranged _ _ _ _ Hr') as [Hlt Hhi].
      change (lo i_link (ICell (i_addr cr) nr lr)) with (key_num (i_min (ICell g nr lr))) in Hlt.
      rewrite Hhi, Hm' in Hlt. unfold Rec.num. cbn [Rec.set_addr Rec.set_key Rec.key]. lia.
Qed.

(** ** [update_root] *)

Definition root_hdr : InnerHeader.t := InnerHeader.Mk KeyMax KeyNull uninit true false.

(** The node of a new root over the two halves of the old one. *)
Lemma root_node (r : Rec.t) a :
  Rec.valid r = 1 → 0 < Rec.num r < key_num KeyMax →
  let r0 := Rec.make KeyNull a Gaddr_Null 0 0 in
  ∃ n1 n, InnerNode.insert (InnerNode.set_hdr InnerNode.zero root_hdr) r = Ok (true, n1) ∧
    InnerNode.insert n1 r0 = Ok (true, n) ∧ InnerNode.lock n = 0 ∧
    ∀ g, inner_ok true false (ICell g n [r0; r]) None ∧ i_min (ICell g n [r0; r]) = KeyNull.
Proof.
  intros Hv Hr r0. set (n0 := InnerNode.set_hdr InnerNode.zero root_hdr).
  assert (InnerNode.node_rep n0 []) as H0.
  { constructor; [done|done|done|by apply Forall_replicate|constructor]. }
  destruct (InnerNode.insert_absent n0 [] r H0 Hv) as (n1 & E1 & Hh1 & Hl1 & H1); [apply not_elem_of_nil|unfold InnerNodeCapacity; cbn; lia|].
  apply InnerNode.node_rep_set_consistent in H1. cbn in H1.
  destruct (InnerNode.insert_absent _ _ r0 H1 eq_refl) as (n2 & E2 & Hh2 & Hl2 & H2).
  { cbn. rewrite list_elem_of_singleton. intros E. apply (f_equal key_num) in E. unfold Rec.num in Hr.
    change (Rec.key r0) with KeyNull in E. rewrite KeyNull_num in E. lia. }
  { unfold InnerNodeCapacity. cbn. lia. }
  exists (InnerNode.set_consistent n1), (InnerNode.set_consistent n2). split_and!; try done.
  { cbn. rewrite Hl2. cbn. by rewrite Hl1. }
  assert (InnerNode.hdr n2 = root_hdr) as Hh by (rewrite Hh2; cbn; by rewrite Hh1).
  assert (Rec.num r0 = 0) as Hr0 by apply KeyNull_num.
  assert (std_sort Rec.cmp ([r] ++ [r0]) = [r0; r]) as Es.
  { cbn [app std_sort sort_insert]. rewrite Rec.cmp_num, Hr0, (proj2 (Z.ltb_lt _ _)) by lia. done. }
  rewrite Es in H2. intros g. split; [|unfold i_min; cbn; by rewrite Hh].
  constructor; unfold i_min, i_max; cbn [i_node i_live InnerNode.hdr InnerNode.set_consistent]; rewrite ?Hh; try done.
  - by apply InnerNode.node_rep_set_consistent.
  - by exists r0.
  - cbn [root_hdr InnerHeader.min_key InnerHeader.max_key]. rewrite KeyNull_num. repeat constructor; lia.
  - apply InnerNode.node_consistent.
Qed.

Lemma update_root_spec s q r a ms ts :
  Rec.valid r = 1 → 0 < Rec.num r < key_num KeyMax → path (srv s) !! 0%nat = Some q →
  Rec.addr q = root_ptr (mem s) → glock (mem s) = 0 →
  alloc_inv (allocs (mem s)) ms ts → is_server (my_id (srv s)) → (length ms < max_blocks)%nat →
  ∃ g al n, let c := ICell g n [Rec.make KeyNull a Gaddr_Null 0 0; r] in
    update_root uninit r a s =
      Ok (tt, set_root_ptr (set_inners (set_allocs s al) (<[g := n]> (inners (mem s)))) g) ∧
    alloc_inv al (inner_span g :: ms) ts ∧ g ∉ ms.*1 ∧ inner_ok true false c None ∧ i_min c = KeyNull ∧ InnerNode.lock n = 0.
Proof.
  intros Hv Hr Hq Ha Hgl Hal Hsv Hms.
  destruct (memory_alloc_ok _ _ _ _ InnerNode.size_of Hal Hsv Hms) as (g & al & Ea & Hal'); [by left|].
  assert (g ∉ ms.*1) as Hg by (destruct (alloc_blocks _ _ _ Hal') as [Hd _]; by apply NoDup_cons in Hd as [? _]).
  destruct (root_node r a Hv Hr) as (n1 & n & E1 & E2 & Hl & Hn). destruct (Hn g) as [Hok Hmin].
  exists g, al, n. split_and!; try done.
  assert (lock_index s = Ok (tt, set_glock s 1)) as El by (unfold lock_index, mbind, M_bind, get; by rewrite Hgl).
  unfold update_root. m_step El. m_step (eq_refl (get (set_glock s 1))). m_step (eq_refl (get_path (set_glock s 1))).
  m_step (lift_Ok _ _ (set_glock s 1) (proj2 (at_index_Ok _ _ _) Hq)). rewrite Ha.
  cbn [set_glock mem root_ptr]. rewrite gaddr_eqb_refl. m_step (eq_refl (Ok (tt, set_glock s 1))).
  m_step (alloc_Ok (set_glock s 1) memory_alloc InnerNode.size_of g al Ea).
  m_step (lift_Ok _ _ (set_allocs (set_glock s 1) al) E1). m_step (eq_refl (Ok (tt, set_allocs (set_glock s 1) al))).
  m_step (lift_Ok _ _ (set_allocs (set_glock s 1) al) E2). m_step (eq_refl (Ok (tt, set_allocs (set_glock s 1) al))).
  destruct s as [[] []]. cbn in *. by subst.
Qed.

(** ** One level *)

Lemma stored_app m L1 L2 : stored m (L1 ++ L2) ↔ stored m L1 ∧ stored m L2.
Proof. unfold stored. setoid_rewrite elem_of_app. naive_solver. Qed.

Lemma stored_cons m c L : stored m (c :: L) ↔ (m !! i_addr c = Some (i_node c) ∧ InnerNode.lock (i_node c) = 0) ∧ stored m L.
Proof. unfold stored. setoid_rewrite elem_of_cons. naive_solver. Qed.

Lemma stored_insert m L a n : a ∉ i_addr <$> L → stored m L → stored (<[a := n]> m) L.
Proof.
  intros Ha H d Hd. destruct (H d Hd) as [E ?]. split; [|done]. rewrite lookup_insert_ne; [done|].
  intros ->. apply Ha. by apply list_elem_of_fmap_2.
Qed.

Lemma stored_same m m' L : (∀ a, a ∈ i_addr <$> L → m' !! a = m !! a) → stored m L → stored m' L.
Proof. intros Hm H d Hd. rewrite Hm by (by apply list_elem_of_fmap_2). by apply H. Qed.

Lemma NoDup_middle {X} (l1 l2 : list X) x : NoDup (l1 ++ x :: l2) → x ∉ l1 ∧ x ∉ l2.
Proof. intros (H1 & H2 & [H3 _]%NoDup_cons)%NoDup_app. split; [|done]. intros Hin. apply (H2 _ Hin). left. Qed.

(** The outcome of writing a record in a level: it fits, or a cell is split. *)
Definition level_fits (b top : bool) L r x upd s (m : gmap Gaddr InnerNode.t) : Prop :=
  ∃ L', level_ok top b L' ∧ gains b x upd r (recs L) (recs L') ∧ cell_idx <$> L' = cell_idx <$> L ∧ stored m L' ∧
    (∀ a, a ∉ i_addr <$> L → m !! a = inners (mem s) !! a).

Record level_splits (b : bool) L r x upd s (c : icell) (r' : Rec.t) (m : gmap Gaddr InnerNode.t) (g : Gaddr) L' : Prop := {
  ls_level : level_ok false b L';
  ls_gains : gains b x upd r (recs L) (recs L');
  ls_cells : cell_idx <$> L' ≡ₚ (Rec.key r', g) :: (cell_idx <$> L);
  ls_stored : stored m L';
  ls_other : ∀ a, a ∉ i_addr <$> L → a ≠ g → m !! a = inners (mem s) !! a;
  ls_valid : Rec.valid r' = 1;
  ls_addr : Rec.addr r' = g;
  ls_key : lo i_link c < Rec.num r' < key_num KeyMax }.

Lemma write_level s top b L d r x upd fuel ms ts :
  key_num (Rec.key r) < key_num KeyMax → level_ok top b L → stored (inners (mem s)) L →
  d ∈ L → lo i_link d ≤ Rec.num r → (length L ≤ fuel)%nat → Rec.valid r = 1 →
  Rec.key r ∉ Rec.key <$> recs L → updates b b L r x upd → NoDup (i_addr <$> L) → (∀ c, c ∈ L → i_addr c ∈ ms.*1) →
  alloc_inv (allocs (mem s)) ms ts → is_server (my_id (srv s)) → (length ms < max_blocks)%nat →
  ∃ c n, c ∈ L ∧ lo i_link d ≤ lo i_link c ∧
    ((inner_write fuel (i_addr d) r upd b s =
        Ok ((true, i_addr c, n), set_inners s (<[i_addr c := n]> (inners (mem s)))) ∧
      level_fits b top L r x upd s (<[i_addr c := n]> (inners (mem s)))) ∨
     (inner_write fuel (i_addr d) r upd b s = Ok ((false, i_addr c, n), lock_cell s c) ∧
      ∀ p, ∃ g al m r' L', node_split (i_addr c) r n (lock_cell (set_path s p) c) =
          Ok (r', set_inners (set_allocs (set_path s p) al) m) ∧
        alloc_inv al (inner_span g :: ms) ts ∧ g ∉ ms.*1 ∧ level_splits b L r x upd s c r' m g L')).
Proof.
  intros Hmax HL Hst Hd Hlo Hfuel Hv Hnin Hu Hnd Hms Hal Hsv Hbud.
  destruct (inner_write_spec s top b b L d r x upd fuel) as (L1 & c & L2 & live & EL & Hcov & Hle & Hsw & Hres); try done.
  assert (c ∈ L) as Hc by (rewrite EL; set_solver).
  assert (i_addr c ∉ i_addr <$> L1 ∧ i_addr c ∉ i_addr <$> L2) as [Hn1 Hn2].
  { rewrite EL, fmap_app in Hnd. by apply NoDup_middle. }
  assert (stored (inners (mem s)) L1 ∧ stored (inners (mem s)) L2) as [Hs1 Hs2].
  { rewrite EL, stored_app, stored_cons in Hst. naive_solver. }
  destruct Hres as [(n & live' & E & Hlk & Hh & Hok & Hp)|(n & E & Hok & Hh & Hfull)]; exists c, n; split_and!; try done; [left|right]; (split; [done|]).
  - exists (L1 ++ ICell (i_addr c) n live' :: L2).
    assert (i_link (ICell (i_addr c) n live') = i_link c) as Hlink by (unfold i_link, i_min; cbn; by rewrite Hh).
    rewrite EL in *. split_and!.
    + by eapply level_replace.
    + rewrite !recs_app, !recs_cons. apply gains_app. cbn [i_live]. clear -Hsw Hp. destruct b; cbn in *; [|by rewrite Hp, Hsw].
      destruct Hsw as (R & H1 & H2). exists R. split; [done|]. by rewrite Hp, H2.
    + rewrite !fmap_app, !fmap_cons. do 2 f_equal. unfold cell_idx. injection Hlink as Hm. by rewrite Hm.
    + rewrite stored_app, stored_cons. split_and!; [by apply stored_insert|by rewrite lookup_insert_eq|done|by apply stored_insert].
    + intros a Ha. apply lookup_insert_ne. intros <-. apply Ha. apply list_elem_of_fmap_2. set_solver.
  - intros p. rewrite EL in *. pose proof (lv_chain _ _ _ HL) as (_ & _ & Hch2)%chain_middle.
    destruct (node_split_spec (set_path s p) c top b n live (first i_link L2 None) r ms ts)
      as (g & al & nl & ll & nr & lr & r' & E' & Hal' & Hg & Hl & Hr & Hmin & Hp & Kl & Kr & Hk' & Ha' & Hv' & Hn'); try done.
    { exact (chain_limit i_link i_hi _ (inner_ranged _ _) _ _ Hch2). }
    { by apply (covers_hdr c). }
    { by eapply swapped_fresh. }
    { by apply Hms. }
    assert (i_min (ICell (i_addr c) nl ll) = i_min c) as Hmin' by (by rewrite Hmin, Hh).
    eexists g, al, _, r', (L1 ++ ICell (i_addr c) nl ll :: ICell g nr lr :: L2). split; [exact E'|]. split; [done|]. split; [done|].
    assert (g ∉ i_addr <$> L1 ∧ g ∉ i_addr <$> L2 ∧ g ≠ i_addr c) as (Hg1 & Hg2 & Hgc).
    { split_and!; [intros (d' & -> & Hd')%list_elem_of_fmap..|intros ->]; apply Hg, Hms; set_solver. }
    constructor; try done.
    + eapply level_split; [exact HL| |exact Hl|exact Hr]. unfold i_link. cbn [i_addr]. by rewrite Hmin'.
    + rewrite !recs_app, !recs_cons, (app_assoc ll). apply gains_app. clear -Hsw Hp. destruct b; cbn in *; [|by rewrite Hp, Hsw].
      destruct Hsw as (R & H1 & H2). exists R. split; [done|]. by rewrite Hp, H2.
    + rewrite !fmap_app, !fmap_cons. unfold cell_idx at 2 3 6. rewrite Hmin', Hk'. cbn [i_addr]. solve_Permutation.
    + rewrite stored_app, !stored_cons. cbn [i_addr i_node].
      split_and!; [by do 2 (apply stored_insert; [done|])|by rewrite lookup_insert_eq|done| |done|by do 2 (apply stored_insert; [done|])].
      by rewrite lookup_insert_ne, lookup_insert_eq by congruence.
    + intros a Ha Hne. rewrite !lookup_insert_ne; [done| |]; [congruence|]. intros <-. apply Ha, list_elem_of_fmap_2. set_solver.
    + destruct Hn' as [Hn3 Hn4]. split; [|done]. rewrite Hmin' in Hn3. exact Hn3.
Qed.

(** ** [inner_insert] *)

(** What a call that adds the record [r] to the bottom of [levels] leaves. *)
Record grown (b : bool) (x upd r : Rec.t) below' s ms ts levels s' levels' : Prop := {
  gr_tower : tower b below' levels';
  gr_gains : ∀ L L', levels !! 0%nat = Some L → levels' !! 0%nat = Some L' → gains b x upd r (recs L) (recs L');
  gr_stored : stored (inners (mem s')) (concat levels');
  gr_root : ∃ c, is_top levels' c ∧ root_ptr (mem s') = i_addr c;
  gr_glock : glock (mem s') = 0;
  gr_new : ∃ new, i_addr <$> concat levels' ≡ₚ new ++ (i_addr <$> concat levels) ∧
    alloc_inv (allocs (mem s')) ((inner_span <$> new) ++ ms) ts;
  gr_other : ∀ a, a ∈ ms.*1 → a ∉ i_addr <$> concat levels → inners (mem s') !! a = inners (mem s) !! a;
  gr_home : ∀ k a, home levels k a → home levels' k a;
  gr_leaves : leaves (mem s') = leaves (mem s);
  gr_tables : tables (mem s') = tables (mem s);
  gr_server : srv s' = srv (set_path s (path (srv s'))) }.

Lemma is_top_cons L L' rest c : is_top (L :: L' :: rest) c ↔ is_top (L' :: rest) c.
Proof. unfold is_top. cbn. by rewrite Nat.sub_0_r. Qed.

Lemma home_cells L L' rest rest' k a :
  (∀ e, e ∈ cell_idx <$> L → e ∈ cell_idx <$> L') → home (L :: rest) k a → home (L' :: rest') k a.
Proof.
  intros Hin (L0 & c & [= <-] & Hc & <- & <-). exists L'.
  assert (cell_idx c ∈ cell_idx <$> L') as (c' & E & Hc')%list_elem_of_fmap by (by apply Hin, list_elem_of_fmap_2).
  injection E as E1 E2. exists c'. by rewrite E1, E2.
Qed.

Lemma cells_addr L : i_addr <$> L = snd <$> (cell_idx <$> L).
Proof. by rewrite <- list_fmap_compose. Qed.

(** The record fits in the level. *)
Lemma grown_fits b x upd r below below' s ms ts L rest c n :
  tower b below (L :: rest) → stored (inners (mem s)) (concat (L :: rest)) → NoDup (i_addr <$> concat (L :: rest)) →
  (∃ c, is_top (L :: rest) c ∧ root_ptr (mem s) = i_addr c) → glock (mem s) = 0 → alloc_inv (allocs (mem s)) ms ts →
  (∀ l', ascending Rec.num l' → gains b x upd r (recs L) l' → rec_idx <$> l' = below') → c ∈ L →
  level_fits b (match rest with [] => true | _ => false end) L r x upd s (<[i_addr c := n]> (inners (mem s))) →
  ∃ levels', grown b x upd r below' s ms ts (L :: rest) (set_inners s (<[i_addr c := n]> (inners (mem s)))) levels'.
Proof.
  intros (HL & Hrec & Ht) Hst Hnd (ct & Hct & Hroot) Hgl Hal Hbel Hc (L' & HL' & Hg & Hcells & Hst' & Hoth).
  exists (L' :: rest). cbn in Hnd. rewrite fmap_app in Hnd. apply NoDup_app in Hnd as (_ & Hdis & _).
  assert (i_addr <$> L' = i_addr <$> L) as Haddr by (by rewrite !cells_addr, Hcells).
  constructor; cbn; try done.
  - split; [done|]. split; [by apply Hbel; [eapply level_recs_ascending, HL'|]|]. destruct rest; [done|]. by rewrite Hcells.
  - by intros ? ? [= <-] [= <-].
  - cbn in Hst. rewrite stored_app in Hst |- *. split; [done|]. apply stored_insert; [|apply Hst].
    apply Hdis. by apply list_elem_of_fmap_2.
  - destruct rest as [|L2 rest]; [|exists ct; by rewrite is_top_cons in Hct |- *].
    injection Hct as ->. destruct L' as [|c' [|]]; [done| |done]. exists c'. split; [done|].
    injection Haddr as E. by rewrite E.
  - exists []. split; [|done]. rewrite !fmap_app. by rewrite Haddr.
  - intros a _ Ha. apply Hoth. rewrite fmap_app in Ha. set_solver.
  - intros k a. apply home_cells. by rewrite Hcells.
  - by destruct s as [? []].
Qed.

(** The root is split: a level is added. *)
Lemma grown_root b x upd r r' below below' s ms ts L c m g L' p q al :
  tower b below [L] → stored (inners (mem s)) L →
  (∃ c, is_top [L] c ∧ root_ptr (mem s) = i_addr c) → glock (mem s) = 0 →
  (∀ l', ascending Rec.num l' → gains b x upd r (recs L) l' → rec_idx <$> l' = below') → c ∈ L → (∀ c, c ∈ L → i_addr c ∈ ms.*1) →
  alloc_inv al (inner_span g :: ms) ts → g ∉ ms.*1 → level_splits b L r x upd s c r' m g L' → is_server (my_id (srv s)) →
  (length ms + 2 ≤ max_blocks)%nat → p !! 0%nat = Some q → Rec.addr q = i_addr c →
  let s1 := set_inners (set_allocs (set_path s p) al) m in
  wp (update_root uninit r' (i_addr c)) s1 (λ _ s', ∃ levels', grown b x upd r below' s ms ts [L] s' levels').
Proof.
  intros (HL & Hrec & _) Hst (ct & Hct & Hroot) Hgl Hbel Hc Hms Hal Hg [H1 H2 H3 H4 H5 H6 H7 H8] Hsv Hbud Hq Hqa s1.
  injection Hct as ->. apply list_elem_of_singleton in Hc as ->.
  assert (i_min ct = KeyNull) as Hmin by (pose proof (lv_first _ _ _ HL) as E; by injection E).
  assert (lo i_link ct = 0) as Hlo by (unfold lo; cbn; rewrite Hmin; apply KeyNull_num).
  destruct (update_root_spec s1 q r' (i_addr ct) (inner_span g :: ms) ts) as (g2 & al2 & n & E & Hal2 & Hg2 & Hok & Hmin2 & Hlk); try done.
  { rewrite <- Hlo. done. }
  { by rewrite Hqa. }
  { cbn. lia. }
  apply wp_Ok. eexists _, _. split; [exact E|]. set (root := ICell g2 n _) in *. exists [L'; [root]].
  apply not_elem_of_cons in Hg2 as [Hg2 Hg2'].
  assert (i_addr <$> L' ≡ₚ g :: [i_addr ct]) as Haddr by (rewrite cells_addr, H3; done).
  assert (g2 ∉ i_addr <$> L') as Hng2.
  { rewrite Haddr. rewrite !not_elem_of_cons. split_and!; [done| |apply not_elem_of_nil]. intros ->. apply Hg2', Hms. left. }
  constructor; cbn [mem srv set_root_ptr set_inners set_allocs set_path s1 leaves tables glock inners allocs root_ptr]; try done.
  - split; [done|]. split; [by apply Hbel; [eapply level_recs_ascending, H1|]|]. split; [|split; [|done]].
    + constructor; [by split|cbn; by rewrite Hmin2|done].
    + apply (ascending_unique idx_num).
      * apply idx_ascending_recs, (level_recs_ascending true false _ None). by split.
      * eapply idx_ascending_cells, (chain_ascending i_link i_hi _ (inner_ranged _ _)), H1.
      * rewrite H3. cbn. unfold cell_idx, rec_idx at 2. rewrite Hmin, H7. cbn. apply Permutation_swap.
  - by intros ? ? [= <-] [= <-].
  - cbn [concat app]. rewrite stored_app, stored_cons. split_and!; [by apply stored_insert|by rewrite lookup_insert_eq|done|].
    intros d Hd. by apply elem_of_nil in Hd.
  - by exists root.
  - exists [g2; g]. split; [|done]. cbn. rewrite fmap_app, Haddr. cbn. solve_Permutation.
  - intros a Ha Hna. rewrite lookup_insert_ne by (intros ->; done). apply H5; [|intros ->; done]. cbn in Hna. exact Hna.
  - intros k a. apply home_cells. intros e He. rewrite H3. by right.
Qed.

(** A node is split: its sibling's record goes to the level above. *)
Lemma grown_above b x upd r below below' s ms ts L rest c m g L' p al x2 upd2 r' s' levels2 :
  tower b below (L :: rest) → NoDup (i_addr <$> concat (L :: rest)) → (∀ c, c ∈ concat (L :: rest) → i_addr c ∈ ms.*1) →
  (∀ l', ascending Rec.num l' → gains b x upd r (recs L) l' → rec_idx <$> l' = below') →
  g ∉ ms.*1 → level_splits b L r x upd s c r' m g L' →
  grown false x2 upd2 r' (cell_idx <$> L') (set_inners (set_allocs (set_path s p) al) m) (inner_span g :: ms) ts rest s' levels2 →
  grown b x upd r below' s ms ts (L :: rest) s' (L' :: levels2).
Proof.
  intros (HL & Hrec & _) Hnd Hms Hbel Hg [H1 H2 H3 H4 H5 H6 H7 H8] [G1 G2 G3 G4 G5 (new & G6 & G7) G8 G9 G10 G11 G12].
  cbn in Hnd. rewrite fmap_app in Hnd. apply NoDup_app in Hnd as (_ & Hdis & _).
  assert (i_addr <$> L' ≡ₚ g :: (i_addr <$> L)) as Haddr by (rewrite !cells_addr, H3; done).
  assert (∀ a, a ∈ i_addr <$> L → a ∈ ms.*1) as HLms.
  { intros a (d & -> & Hd)%list_elem_of_fmap. apply Hms. cbn. set_solver. }
  assert (∀ a, a ∈ i_addr <$> concat rest → a ∈ ms.*1) as Hrms.
  { intros a (d & -> & Hd)%list_elem_of_fmap. apply Hms. cbn. set_solver. }
  constructor; try done.
  - destruct levels2 as [|L2 levels2]; [done|]. split; [done|]. split; [|done].
    apply Hbel; [eapply level_recs_ascending, H1|done].
  - by intros ? ? [= <-] [= <-].
  - cbn [concat]. rewrite stored_app. split; [|done]. eapply stored_same; [|exact H4]. intros a Ha. rewrite Haddr in Ha.
    apply G8; [apply elem_of_cons; apply elem_of_cons in Ha as [->|Ha]; [by left|right; by apply HLms]|]. apply elem_of_cons in Ha as [->|Ha]; [by intros ?%Hrms|by apply Hdis].
  - destruct levels2 as [|L2 levels2]; [done|]. destruct G4 as (ct & ? & ?). exists ct. by rewrite is_top_cons.
  - exists (new ++ [g]). split; [|by rewrite fmap_app, <- app_assoc]. cbn [concat]. rewrite !fmap_app, G6, Haddr. solve_Permutation.
  - intros a Ha Hna. cbn [concat] in Hna. rewrite fmap_app, not_elem_of_app in Hna. destruct Hna as [Hn1 Hn2].
    rewrite G8; [|by right|done]. apply H5; [done|by intros ->].
  - intros k a. apply home_cells. intros e He. rewrite H3. by right.
Qed.

Lemma split_key_fresh b L r x upd s c r' m g L' :
  level_splits b L r x upd s c r' m g L' → Rec.key r' ∉ i_min <$> L.
Proof.
  intros [H1 _ H3 _ _ _ _ _] Hin.
  assert (NoDup (fst <$> (cell_idx <$> L'))) as Hd.
  { rewrite <- list_fmap_compose. pose proof (chain_ascending i_link i_hi _ (inner_ranged _ _) _ _ (lv_chain _ _ _ H1)) as Ha.
    apply ascending_NoDup in Ha. eapply (NoDup_fmap_1 key_num). by rewrite <- list_fmap_compose. }
  rewrite H3 in Hd. cbn in Hd. apply NoDup_cons in Hd as [Hd _]. apply Hd. by rewrite <- list_fmap_compose.
Qed.

Lemma inner_insert_loop_S fuel j k r upd b :
  inner_insert_loop (A := A) uninit (S fuel) (S j) k r upd false b =
    (p ← get_path; up ← lift (at_index p j);
     '(ok, addr, node) ← inner_write fuel (Rec.addr up) r upd b;
     if (ok : bool) then mret tt
     else put_path (<[j := Rec.set_key (Rec.set_addr up addr) (InnerHeader.min_key (InnerNode.get_hdr node))]> p);;
          r ← node_split addr r node;
          (if (j =? 0)%nat then update_root uninit r addr else mret tt);;
          inner_insert_loop uninit fuel j k r upd false false).
Proof. done. Qed.

Lemma inner_insert_up k : key_num k < key_num KeyMax → ∀ levels b below below' s r x upd fuel ms ts,
  tower b below levels → stored (inners (mem s)) (concat levels) → NoDup (i_addr <$> concat levels) →
  (∀ c, c ∈ concat levels → i_addr c ∈ ms.*1) → (∃ c, is_top levels c ∧ root_ptr (mem s) = i_addr c) → glock (mem s) = 0 →
  aligned_from 0 k levels (path (srv s)) → alloc_inv (allocs (mem s)) ms ts → is_server (my_id (srv s)) →
  (length ms + length levels + 1 ≤ max_blocks)%nat → (length (concat levels) + length levels + 1 ≤ fuel)%nat →
  Rec.valid r = 1 → key_num (Rec.key r) < key_num KeyMax →
  (∀ L, levels !! 0%nat = Some L → Rec.key r ∉ Rec.key <$> recs L ∧ updates b b L r x upd ∧
    (∀ d, d ∈ L → inner_covers d k → lo i_link d ≤ Rec.num r) ∧
    (∀ l', ascending Rec.num l' → gains b x upd r (recs L) l' → rec_idx <$> l' = below')) →
  wp (inner_insert_loop uninit fuel (length levels) k r upd false b) s
    (λ _ s', ∃ levels', grown b x upd r below' s ms ts levels s' levels').
Proof.
  intros Hmax. induction levels as [|L rest IH]; intros b below below' s r x upd fuel ms ts Ht Hst Hnd Hms Hroot Hgl Hal Hams Hsv Hbud Hfuel Hv Hk HL; [done|].
  destruct (HL L eq_refl) as (Hnin & Hu & Hlo & Hbel). destruct fuel as [|fuel]; [lia|].
  cbn [length concat] in *. rewrite length_app in Hfuel. rewrite inner_insert_loop_S.
  destruct (Hal 0%nat L ltac:(lia) eq_refl) as (q & d & Hq & Hd & Hdk & Hqa). cbn in Hq. rewrite !Nat.sub_0_r in Hq.
  apply wp_get_path. eapply wp_lift; [by apply at_index_Ok|]. rewrite Hqa.
  pose proof Ht as (HLok & Hrec & Htrest).
  destruct (write_level s (match rest with [] => true | _ => false end) b L d r x upd fuel ms ts)
    as (c & n & Hc & Hle & [[E Hfit]|[E Hsplit]]); try done; try lia.
  { by apply stored_app in Hst as [? _]. }
  { by apply Hlo. }
  { rewrite fmap_app in Hnd. by apply NoDup_app in Hnd as [? _]. }
  { intros c Hc. apply Hms, elem_of_app. by left. }
  - eapply wp_eq; [exact E|]. apply wp_ret. by eapply (grown_fits b x upd r below below' s ms ts L rest c n).
  - eapply wp_eq; [exact E|]. cbn [negb]. apply wp_put_path. set (p := <[_ := _]> (path (srv s))).
    destruct (Hsplit p) as (g & al & m & r' & L' & E2 & Hal2 & Hg & Hls).
    eapply wp_eq; [exact E2|]. pose proof (lookup_lt_Some _ _ _ Hq) as Hqlt.
    assert (length L ≠ 0%nat) as HLne by (intros ->%nil_length_inv; by apply elem_of_nil in Hc).
    destruct rest as [|Ln rest].
    + cbn [length Nat.eqb]. eapply wp_seq.
      * eapply (grown_root b x upd r r' below below' s ms ts L c m g L' p _ al); try done.
        -- by apply stored_app in Hst as [? _].
        -- intros c' Hc'. apply Hms, elem_of_app. by left.
        -- cbn in Hbud. lia.
        -- by apply list_lookup_insert_eq.
        -- done.
      * intros [] s' Hs'. destruct fuel as [|fuel]; [cbn in Hfuel; lia|done].
    + cbn [length Nat.eqb]. apply wp_bind, wp_ret.
      assert (∀ d', d' ∈ Ln → inner_covers d' k → lo i_link d' ≤ Rec.num r') as Hlo'.
      { intros d' Hd' Hk'. pose proof (tower_lo_up _ _ _ _ _ _ _ k Ht Hmax Hd Hd' Hdk Hk').
        pose proof (ls_key _ _ _ _ _ _ _ _ _ _ _ Hls). lia. }
      eapply wp_mono; [eapply (IH false (cell_idx <$> L) (cell_idx <$> L') _ r' r' upd fuel (inner_span g :: ms) ts)|]; try done.
      * cbn. apply stored_app in Hst as [_ Hst]. eapply stored_same; [|exact Hst]. intros a Ha.
        apply (ls_other _ _ _ _ _ _ _ _ _ _ _ Hls).
        -- rewrite fmap_app in Hnd. apply NoDup_app in Hnd as (_ & Hdis & _). intros Ha'. by apply (Hdis _ Ha').
        -- intros ->. apply Hg. apply list_elem_of_fmap in Ha as (e & -> & He). apply Hms, elem_of_app. by right.
      * rewrite fmap_app in Hnd. by apply NoDup_app in Hnd as (_ & _ & ?).
      * intros c' Hc'. right. apply Hms, elem_of_app. by right.
      * destruct Hroot as (ct & Hct & Hr). exists ct. by rewrite is_top_cons in Hct.
      * intros i Li _ HLi. destruct (Hal (S i) Li ltac:(lia) HLi) as (q' & d' & Hq' & Hd' & Hdk' & Hqa').
        exists q', d'. split_and!; try done. cbn. cbn in Hq'. rewrite list_lookup_insert_ne.
        -- rewrite <- Hq'. f_equal. lia.
        -- apply lookup_lt_Some in HLi. cbn in HLi. lia.
      * cbn in *. lia.
      * cbn in *. rewrite length_app in *. lia.
      * apply (ls_valid _ _ _ _ _ _ _ _ _ _ _ Hls).
      * pose proof (ls_key _ _ _ _ _ _ _ _ _ _ _ Hls) as [_ ?]. done.
      * intros L2 [= <-]. split_and!; try done.
        -- intros Hin. apply (split_key_fresh _ _ _ _ _ _ _ _ _ _ _ Hls).
           destruct (tower_lookup _ _ _ 1 _ Ht eq_refl) as [_ Eidx]. cbn in Eidx.
           apply (f_equal (fmap fst)) in Eidx. rewrite <- !list_fmap_compose in Eidx.
           change (i_min <$> L) with (fst ∘ cell_idx <$> L). rewrite <- Eidx. exact Hin.
        -- intros l' Hasc Hgn. cbn in Hgn. apply (ascending_unique idx_num).
           ++ by apply idx_ascending_recs.
           ++ eapply idx_ascending_cells, (chain_ascending i_link i_hi _ (inner_ranged _ _)), Hls.
           ++ rewrite Hgn, (ls_cells _ _ _ _ _ _ _ _ _ _ _ Hls). cbn. unfold rec_idx at 1.
              rewrite (ls_addr _ _ _ _ _ _ _ _ _ _ _ Hls). destruct (tower_lookup _ _ _ 1 _ Ht eq_refl) as [_ Eidx].
              cbn in Eidx. by rewrite Eidx.
      * intros _ s' (levels2 & Hgr). exists (L' :: levels2). by eapply grown_above.
Qed.

End grow.
