(* ===== verification/TreeInsert.v ===== *)
(** * Adding the record of a new leaf ([inner_insert] of [DMInner.cc])

    A leaf has been split; [inner_insert] updates its record and adds the one of
    the new leaf, from the path of [find_leaf] or from a cached bottom node, and
    the index is one of the new leaves again. *)

From S2P Require Import Prelude KVConfig RdmaConfig Hash LeafNode InnerTree LocalLockTable DMCache Tree TreeChain TreeLeaf TreeInner TreeFind TreeGrow.
Open Scope Z_scope.

Import SkipVectorDM.

Section new_leaf.
Context {CH : CityHash} {A : Type} `{!Allocator A, !AllocatorSpec A} (uninit : Gaddr).
Implicit Types (s : @st A) (levels : list (list icell)) (L : list icell) (d : icell) (k : Key).

Context (all_nodes : Z) (A1 A2 : list lcell) (c c1 c2 : lcell).
Let lv0 := A1 ++ c :: A2.
Let lv := A1 ++ c1 :: c2 :: A2.
Context (Hlv0 : leaf_chain lv0) (Hlv : leaf_chain lv) (Hmin : l_min c1 = l_min c)
  (Hmid : leaf_covers c (l_min c2)).

Lemma gains_leaves L l' :
  recs L = leaf_rec <$> lv0 → ascending Rec.num l' → gains true (leaf_rec c) (leaf_rec c1) (leaf_rec c2) (recs L) l' →
  l' = leaf_rec <$> lv.
Proof.
  intros EL Ha (R & HR & Hl'). apply (ascending_unique Rec.num); [done| |].
  - apply ascending_fmap. rewrite <- list_fmap_compose.
    exact (proj1 (ascending_fmap _ _) (chain_ascending l_link l_hi _ leaf_ranged _ _ Hlv)).
  - rewrite Hl'. unfold lv0 in EL. rewrite EL, fmap_app, fmap_cons, <- Permutation_middle in HR.
    apply (Permutation_cons_inv (a := leaf_rec c)) in HR. rewrite <- HR. unfold lv. rewrite fmap_app, !fmap_cons. solve_Permutation.
Qed.

Lemma new_leaf_fresh L : recs L = leaf_rec <$> lv0 → Rec.key (leaf_rec c2) ∉ Rec.key <$> recs L.
Proof.
  intros EL. rewrite EL, <- list_fmap_compose. intros Hin.
  pose proof (chain_ascending l_link l_hi _ leaf_ranged _ _ Hlv) as Ha. apply ascending_NoDup in Ha.
  assert (NoDup (l_min <$> lv)) as Hd by (eapply (NoDup_fmap_1 key_num); by rewrite <- list_fmap_compose).
  unfold lv in Hd. change (Rec.key ∘ leaf_rec <$> lv0) with (l_min <$> lv0) in Hin. unfold lv0 in Hin.
  rewrite !fmap_app, !fmap_cons in *. rewrite Hmin in Hd.
  apply NoDup_app in Hd as (_ & Hd1 & Hd2). apply NoDup_cons in Hd2 as [Hd2 Hd3]. apply NoDup_cons in Hd3 as [Hd3 _].
  apply elem_of_app in Hin as [Hin|Hin]; [apply (Hd1 _ Hin); set_solver|]. set_solver.
Qed.

Lemma new_leaf_updates L :
  recs L = leaf_rec <$> lv0 → updates true true L (leaf_rec c2) (leaf_rec c) (leaf_rec c1).
Proof.
  intros EL _. split; [done|]. rewrite EL. split; [|done]. split_and!.
  - apply list_elem_of_fmap_2. unfold lv0. set_solver.
  - apply Hmid.
  - intros r (d & -> & Hd)%list_elem_of_fmap Hr. destruct Hmid as [_ Hhi].
    destruct (chain_place l_link l_hi _ leaf_ranged _ _ _ _ Hlv0) as (_ & _ & H1 & H2).
    unfold lv0 in Hd. change (Rec.num (leaf_rec d)) with (lo l_link d) in *. change (Rec.num (leaf_rec c)) with (lo l_link c).
    change (key_num (Rec.key (leaf_rec c2))) with (key_num (l_min c2)) in Hr.
    apply elem_of_app in Hd as [Hd|[->|Hd]%elem_of_cons]; [specialize (H1 d Hd); lia|lia|specialize (H2 d Hd); lia].
Qed.

(** A bottom cell that starts at or before [k] starts before the new leaf. *)
Lemma new_leaf_right levels L d k :
  index_ok lv0 levels → levels !! 0%nat = Some L → leaf_covers c k → d ∈ L → lo i_link d ≤ key_num k →
  lo i_link d ≤ Rec.num (leaf_rec c2).
Proof.
  intros Hix HL Hk Hd Hlo. pose proof (tower_level _ _ _ _ _ (ix_tower _ _ Hix) HL) as [Hch _ _].
  destruct (chain_elem i_link _ _ _ _ Hch Hd) as [n Hn]. destruct (io_first _ _ _ _ Hn) as (r0 & H0 & E0).
  assert (r0 ∈ recs L) as Hr0 by (apply elem_of_recs; exists d; split; [done|by eapply list_elem_of_lookup_2]).
  rewrite (ix_bottom _ _ Hix L HL) in Hr0. apply list_elem_of_fmap in Hr0 as (e & -> & He).
  assert (lo i_link d = lo l_link e) as Ed by (unfold lo; cbn; by rewrite <- E0).
  destruct (chain_place l_link l_hi _ leaf_ranged _ _ _ _ Hlv0) as (_ & _ & H1 & H2). destruct Hk as [Hk1 Hk2], Hmid as [Hm1 Hm2].
  change (Rec.num (leaf_rec c2)) with (key_num (l_min c2)). rewrite Ed in *. unfold lv0 in He.
  apply elem_of_app in He as [He|[->|He]%elem_of_cons]; [specialize (H1 e He); lia|lia|specialize (H2 e He); lia].
Qed.

(** ** From either path *)

Definition path_ok (from_cache : bool) k levels (p : list Rec.t) : Prop :=
  if from_cache then bottom_path k levels p
  else aligned_from 0 k levels p ∧ length p = S (length levels).

Definition inserted levels s ms ts s' : Prop :=
  ∃ s1 levels', keeps s s1 ∧ server_ok all_nodes lv levels (srv s1) ∧
    grown true (leaf_rec c) (leaf_rec c1) (leaf_rec c2) (leaf_idx <$> lv) s1 ms ts levels s' levels'.

Context (Hgrow : leaves_grow lv0 lv) (ms : list span) (ts : list Gaddr) (k : Key) (Hk : leaf_covers c k)
  (Hmax : key_num k < key_num KeyMax).

(** What the memory and the allocator must provide. *)
Record supply levels s fuel : Prop := {
  su_ready : ready all_nodes lv0 lv levels s;
  su_glock : glock (mem s) = 0;
  su_NoDup : NoDup (i_addr <$> concat levels);
  su_blocks : ∀ d, d ∈ concat levels → i_addr d ∈ ms.*1;
  su_alloc : alloc_inv (allocs (mem s)) ms ts;
  su_server : is_server (my_id (srv s));
  su_room : (length ms + length levels + 1 ≤ max_blocks)%nat;
  su_fuel : (length (concat levels) + length levels + 3 ≤ fuel)%nat }.

Lemma max_new : key_num (l_min c2) < key_num KeyMax.
Proof.
  destruct (chain_place l_link l_hi _ leaf_ranged _ _ _ _ Hlv0) as ([_ Hl] & _). destruct Hmid as [_ H].
  change (limit None) with (key_num KeyMax) in Hl. lia.
Qed.

Lemma insert_aligned levels s fuel :
  supply levels s (S fuel) → path_ok false k levels (path (srv s)) →
  wp (inner_insert_loop uninit fuel (length (path (srv s)) - 1) k (leaf_rec c2) (leaf_rec c1) false true) s
    (λ _ s', inserted levels s ms ts s').
Proof.
  intros [Hrd Hgl Hnd Hms Hal Hsv Hroom Hfuel] [Hp Hlen]. rewrite Hlen, Nat.sub_succ, Nat.sub_0_r.
  pose proof (rd_index _ _ _ _ _ Hrd) as Hix.
  eapply wp_mono; [eapply (inner_insert_up uninit k Hmax levels true _ (leaf_idx <$> lv) s _ (leaf_rec c) _ fuel ms ts)|]; try done.
  - apply (ix_tower _ _ Hix).
  - apply (im_stored _ _ (rd_mem _ _ _ _ _ Hrd)).
  - apply (im_root _ _ (rd_mem _ _ _ _ _ Hrd)).
  - lia.
  - apply max_new.
  - intros L HL. pose proof (ix_bottom _ _ Hix L HL) as EL. split_and!.
    + by apply new_leaf_fresh.
    + by apply new_leaf_updates.
    + intros d Hd [Hdk _]. by eapply new_leaf_right.
    + intros l' Ha Hg. rewrite (gains_leaves L l' EL Ha Hg), <- list_fmap_compose. done.
  - intros _ s' (levels' & Hgr). exists s, levels'. split; [reflexivity|]. split; [apply (rd_server _ _ _ _ _ Hrd)|done].
Qed.

Lemma inner_insert_cached_S fuel (r upd : Rec.t) :
  inner_insert_loop (A := A) uninit (S fuel) 1 k r upd true true =
    (p ← get_path; up ← lift (at_index p 0);
     '(ok, addr, node) ← inner_write fuel (Rec.addr up) r upd true;
     if (ok : bool) then mret tt
     else put_path (<[0%nat := Rec.set_key (Rec.set_addr up addr) (InnerHeader.min_key (InnerNode.get_hdr node))]> p);;
          unlock_node addr;; find_leaf fuel k;; p ← get_path;
          inner_insert_loop uninit fuel (length p - 1) k r upd false true).
Proof. done. Qed.

(** A full node reached from the cache: the path is found again. *)
Lemma insert_cached levels s fuel :
  supply levels s (S fuel) → path_ok true k levels (path (srv s)) →
  wp (inner_insert_loop uninit (S fuel) 1 k (leaf_rec c2) (leaf_rec c1) true true) s (λ _ s', inserted levels s ms ts s').
Proof.
  intros Hsu (q & q' & L & d & Hp & HL & Hd & Hq & Hlo). pose proof Hsu as [Hrd Hgl Hnd Hms Hal Hsv Hroom Hfuel].
  pose proof (rd_index _ _ _ _ _ Hrd) as Hix. pose proof (ix_bottom _ _ Hix L HL) as EL.
  pose proof (rd_mem _ _ _ _ _ Hrd) as Hmem.
  rewrite inner_insert_cached_S. apply wp_get_path. rewrite Hp. eapply wp_lift; [done|]. rewrite Hq.
  assert (∃ rest, levels = L :: rest) as [rest Elev] by (destruct levels; [done|]; injection HL as ->; eauto).
  assert (concat levels = L ++ concat rest) as Ec by (by rewrite Elev).
  pose proof (ix_tower _ _ Hix) as Ht. pose proof Ht as Ht'. rewrite Elev in Ht'. destruct Ht' as (HLok & _ & _).
  pose proof (im_stored _ _ Hmem) as Hst. rewrite Ec in Hst. apply stored_app in Hst as [HstL _].
  destruct (write_level s (match rest with [] => true | _ => false end) true L d (leaf_rec c2) (leaf_rec c) (leaf_rec c1) fuel ms ts)
    as (e & n & He & _ & [[E Hfit]|[E _]]); try done; try lia.
  - apply max_new.
  - by eapply new_leaf_right.
  - rewrite Ec, length_app in Hfuel. lia.
  - by apply new_leaf_fresh.
  - by apply new_leaf_updates.
  - rewrite Ec, fmap_app in Hnd. by apply NoDup_app in Hnd as [? _].
  - intros e He. apply Hms. rewrite Ec. apply elem_of_app. by left.
  - eapply wp_eq; [exact E|]. apply wp_ret. subst levels.
    destruct (grown_fits true (leaf_rec c) (leaf_rec c1) (leaf_rec c2) _ (leaf_idx <$> lv) s ms ts L rest e n Ht) as [levels' Hgr]; try done.
    + apply (im_stored _ _ Hmem).
    + apply (im_root _ _ Hmem).
    + intros l' Ha Hg. rewrite (gains_leaves L l' EL Ha Hg), <- list_fmap_compose. done.
    + exists s, levels'. split; [reflexivity|]. split; [apply (rd_server _ _ _ _ _ Hrd)|done].
  - eapply wp_eq; [exact E|]. cbn [negb]. apply wp_put_path. set (p := <[_ := _]> _).
    eapply wp_eq; [exact (unlock_node_Ok (set_path s p) e L HstL He)|].
    eapply wp_seq; [eapply (find_leaf_spec all_nodes lv0 lv levels); [done|by apply ready_path|]|].
    + rewrite Ec, length_app in Hfuel. lia.
    + intros x s1 (_ & Hrd1 & Hkp & Hal1 & Hlen1). apply wp_get_path.
      eapply wp_mono; [eapply (insert_aligned levels s1 fuel); [|by split]|].
      * destruct Hkp as [Em Ei El]. constructor; rewrite ?Em, ?Ei; done.
      * intros _ s' (s2 & levels' & Hk2 & Hsv2 & Hgr). exists s2, levels'. split; [|done].
        etrans; [|exact Hk2]. by destruct Hkp.
Qed.

Lemma inner_insert_spec levels s fuel from_cache :
  supply levels s fuel → path_ok from_cache k levels (path (srv s)) →
  wp (inner_insert uninit fuel k (leaf_rec c2) (leaf_rec c1) from_cache) s (λ _ s', inserted levels s ms ts s').
Proof.
  intros Hsu Hp. destruct fuel as [|fuel]; [destruct Hsu; lia|]. unfold inner_insert. apply wp_get_path.
  destruct from_cache; cbn in Hp.
  - pose proof Hp as (q & q' & L & d & -> & _). by apply insert_cached.
  - destruct Hsu as [H1 H2 H3 H4 H5 H6 H7 H8]. apply (insert_aligned levels s (S fuel)); [|done]. constructor; try done. lia.
Qed.

End new_leaf.
