(* ===== verification/TreeOps.v ===== *)
(** * Reading and writing through the leaves ([SkipVectorDM.cc])

    The invariant of the index between operations, and the searches and
    insertions of a leaf, which find the leaf again when their record is out of
    date. *)

From S2P Require Import Prelude KVConfig RdmaConfig Hash LeafNode InnerTree LocalLockTable DMCache Tree TreeChain TreeLeaf TreeInner TreeFind TreeGrow TreeInsert.
Open Scope Z_scope.

Import SkipVectorDM.

Section ops.
Context {CH : CityHash} {A : Type} `{!Allocator A, !AllocatorSpec A} (uninit : Gaddr) (stack : list Z) (all_nodes : Z).
Implicit Types (s : @st A) (lv : list lcell) (levels : list (list icell)) (waste : list Gaddr) (k : Key) (c : lcell).

(** ** The invariant *)

(** The blocks of the index, and their addresses. *)
Definition block_spans lv levels waste : list span :=
  (inner_span <$> (i_addr <$> concat levels)) ++ (leaf_span <$> (l_addr <$> lv)) ++ (inner_span <$> waste).
Definition block_addrs lv levels waste : list Gaddr := (i_addr <$> concat levels) ++ (l_addr <$> lv) ++ waste.

Lemma block_spans_addrs lv levels waste : (block_spans lv levels waste).*1 = block_addrs lv levels waste.
Proof. unfold block_spans. by rewrite !fmap_app, !spans_fst. Qed.

Lemma length_block_spans lv levels waste :
  length (block_spans lv levels waste) = (length (concat levels) + length lv + length waste)%nat.
Proof. unfold block_spans. rewrite !length_app, !length_fmap. lia. Qed.

(** The shared memory holds the leaves [lv] under [levels]; [waste] are blocks
    of inner nodes that were allocated and dropped.  Every table in the memory is
    the table of a leaf, or a copy of one at its offset, on a compute node. *)
Record tree lv levels waste (m : shared A) : Prop := {
  tr_index : index_ok lv levels;
  tr_inner : inner_mem levels m;
  tr_glock : glock m = 0;
  tr_leaves : ∀ c, c ∈ lv → leaves m !! l_addr c = Some (l_blk c) ∧ tables m !! l_fp c = Some (l_tbl c);
  tr_tables : ∀ a t, tables m !! a = Some t → length (FPTable.fp t) = cap;
  tr_copies : ∀ a t, tables m !! a = Some t → memory_nodes ≤ nodeID a < machines ∧ ∃ c, c ∈ lv ∧ offset a = offset (l_fp c);
  tr_alloc : ∃ ms ts, alloc_inv (allocs m) ms ts ∧
    ms ≡ₚ block_spans lv levels waste ∧ ts ≡ₚ l_fp <$> lv;
  tr_versions : ∀ c, c ∈ lv → l_ver c < Z.of_nat (length lv) }.

Record inv lv levels waste s : Prop := {
  inv_tree : tree lv levels waste (mem s);
  inv_server : server_ok all_nodes lv levels (srv s);
  inv_id : is_server (my_id (srv s)) }.

(** The server keeps its identity and its local locks. *)
Record same s s' : Prop := {
  sm_id : my_id (srv s') = my_id (srv s);
  sm_locks : local_locks (srv s') = local_locks (srv s) }.

#[export] Instance same_preorder : PreOrder same.
Proof. split; [by intros s|]. intros s1 s2 s3 [] []. constructor; congruence. Qed.

Lemma keeps_same s s' : keeps s s' → same s s'.
Proof. by intros []. Qed.

Lemma inv_ready lv levels waste s : inv lv levels waste s → ready all_nodes lv lv levels s.
Proof. intros [[] ? ?]. by constructor. Qed.

Lemma inv_keeps lv levels waste s s' :
  inv lv levels waste s → keeps s s' → server_ok all_nodes lv levels (srv s') → inv lv levels waste s'.
Proof. intros [H1 H2 H3] [Em Ei _] H. constructor; [by rewrite Em|done|by rewrite Ei]. Qed.

(** Addresses of different leaves. *)
Lemma tree_NoDup lv levels waste m :
  tree lv levels waste m →
  NoDup (l_addr <$> lv) ∧ NoDup (offset ∘ l_fp <$> lv) ∧ (∀ c, c ∈ lv → l_addr c ≠ Gaddr_Null ∧ nodeID (l_fp c) ≠ 0).
Proof.
  intros H. destruct (tr_alloc _ _ _ _ H) as (ms & ts & Hal & Hms & Hts).
  destruct (alloc_blocks _ _ _ Hal) as [Hd1 Hn1]. destruct (alloc_tables _ _ _ Hal) as [Hd2 Hn2].
  rewrite Hms, block_spans_addrs in Hd1, Hn1. rewrite Hts in Hd2, Hn2. rewrite <- list_fmap_compose in Hd2.
  apply NoDup_app in Hd1 as (_ & _ & Hd1). apply NoDup_app in Hd1 as (Hd1 & _). split_and!; [done|done|].
  intros c Hc. split.
  - intros E. apply Hn1. rewrite <- E. apply elem_of_app. right. apply elem_of_app. left. by apply list_elem_of_fmap_2.
  - rewrite Forall_forall in Hn2. apply Hn2. by apply list_elem_of_fmap_2.
Qed.

Lemma lcell_inj {X} (f : lcell → X) lv c d : NoDup (f <$> lv) → c ∈ lv → d ∈ lv → f c = f d → c = d.
Proof.
  intros Hd [i Hi]%list_elem_of_lookup [j Hj]%list_elem_of_lookup E. 
  assert (i = j) as ->; [|congruence]. eapply NoDup_lookup; [exact Hd| |]; rewrite list_lookup_fmap; [by rewrite Hi|].
  by rewrite Hj, E.
Qed.

(** Where a server on a compute node keeps the copy of a table. *)
Definition copy_of s (g : Gaddr) : Gaddr := MkGaddr (Z.of_nat (my_id (srv s))) (offset g).

Lemma my_copy_Ok s g : is_server (my_id (srv s)) → my_copy s g = Ok (copy_of s g).
Proof. intros [H _]%servers_compute. unfold my_copy. by rewrite (proj2 (Z.leb_le _ _) H). Qed.

(** Where the index is: blocks on memory nodes, behind the words of the index,
    tables and their copies on compute nodes, and no two share a byte. *)
Record layout lv levels waste (m : shared A) : Prop := {
  lay_blocks : Forall (λ p, 0 ≤ nodeID p.1 < memory_nodes ∧ kChunkSize ≤ offset p.1) (block_spans lv levels waste);
  lay_apart : pairwise spans_apart (block_spans lv levels waste);
  lay_tables : ∀ a t, tables m !! a = Some t → memory_nodes ≤ nodeID a < machines;
  lay_copies : ∀ a b t u, tables m !! a = Some t → tables m !! b = Some u → offset a = offset b ∨ tables_apart a b }.

Lemma tree_layout lv levels waste m : tree lv levels waste m → layout lv levels waste m.
Proof.
  intros H. destruct (tr_alloc _ _ _ _ H) as (ms & ts & Hal & Hms & Hts). destruct (alloc_nodes _ _ _ Hal) as [Hn _].
  destruct (alloc_apart _ _ _ Hal) as [Ha Hb]. constructor.
  - rewrite <- Hms. eapply Forall_impl; [exact Hn|]. naive_solver.
  - by eapply pairwise_Permutation.
  - intros a t Ht. by destruct (tr_copies _ _ _ _ H _ _ Ht).
  - intros a b t u Hta Htb. destruct (tr_copies _ _ _ _ H _ _ Hta) as (_ & c & Hc & Ea). destruct (tr_copies _ _ _ _ H _ _ Htb) as (_ & d & Hd & Eb).
    destruct (decide (offset a = offset b)) as [|Hne]; [by left|right]. unfold tables_apart. rewrite Ea, Eb in *.
    apply (list_elem_of_fmap_2 l_fp) in Hc as [i Hi]%list_elem_of_lookup, Hd as [j Hj]%list_elem_of_lookup.
    pose proof (pairwise_Permutation _ _ _ Hb (symmetry Hts)) as Hp. eapply (Hp i j); [|done..]. intros ->. congruence.
Qed.

(** A copy of a table in the server's own memory changes no table of the index. *)
Lemma tree_copy lv levels waste s t c :
  tree lv levels waste (mem s) → is_server (my_id (srv s)) → c ∈ lv → nodeID (l_fp c) ≠ Z.of_nat (my_id (srv s)) →
  length (FPTable.fp t) = cap →
  tree lv levels waste (mem (set_tables s (<[copy_of s (l_fp c) := t]> (tables (mem s))))).
Proof.
  intros H Hid%servers_compute Hc Hne Ht. destruct (tree_NoDup _ _ _ _ H) as (_ & Hd & _).
  destruct H as [H1 [] H3 H4 H5 H5' H6 H7]. constructor; cbn; try done.
  - intros d Hd'. destruct (H4 d Hd') as [E1 E2]. split; [done|]. rewrite lookup_insert_ne; [done|].
    intros E. apply Hne. unfold copy_of in E. assert (c = d) as <- by (by eapply lcell_inj; [exact Hd|..]; cbn; rewrite <- ?E).
    by rewrite <- E.
  - intros a t' [(_ & <-)|[_ E]]%lookup_insert_Some; [done|eauto].
  - intros a t' [(<- & _)|[_ E]]%lookup_insert_Some; [|eauto]. split; [done|]. by exists c.
Qed.

(** ** Tables *)

Lemma fetch_table_Ok lv levels waste s c :
  tree lv levels waste (mem s) → c ∈ lv → fetch_table (l_fp c) LeafNodeCapacity s = Ok (l_tbl c, s).
Proof.
  intros H Hc. destruct (tr_leaves _ _ _ _ H c Hc) as [_ E].
  unfold fetch_table, mbind, M_bind, get, fetch, lift. rewrite E. unfold FPTable.capacity.
  by rewrite (tr_tables _ _ _ _ H _ _ E).
Qed.

(** The local copy is some table of 32 slots. *)
Lemma local_table_Ok lv levels waste s a :
  tree lv levels waste (mem s) → is_server (my_id (srv s)) →
  ∃ t, local_table stack s a LeafNodeCapacity = Ok t ∧ length (FPTable.fp t) = cap.
Proof.
  intros H Hid. unfold local_table. rewrite (my_copy_Ok s a Hid). cbn [mbind result_bind FPTable.size_for]. eexists. split; [reflexivity|].
  cbn [FPTable.attach FPTable.fp]. rewrite length_take, length_drop, length_app, length_take.
  assert (56 ≤ length (match tables (mem s) !! copy_of s a with
    | Some t => FPTable.bytes t | None => replicate 64 0%Z end))%nat as Hl.
  { destruct (tables (mem s) !! copy_of s a) as [t|] eqn:E; [|rewrite length_replicate; lia].
    pose proof (FPTable.length_table_bytes t) as Hb. unfold FPTable.get_size, FPTable.size_for, FPTable.capacity in Hb.
    rewrite (tr_tables _ _ _ _ H _ _ E) in Hb. unfold cap in Hb. lia. }
  change (Z.to_nat LeafNodeCapacity) with 32%nat. unfold cap. lia.
Qed.

Lemma matching_lt (t : FPTable.t) f : length (FPTable.fp t) = cap → Forall (λ i, (i < cap)%nat) (matching t f).
Proof.
  intros Hl. apply Forall_forall. intros i Hi%elem_of_matching. apply lookup_lt_Some in Hi. lia.
Qed.

(** ** Finding the leaf again *)

Lemma cache_invalidate lv levels waste s k :
  inv lv levels waste s →
  wp (cached (DMCache.invalidate k)) s (λ _ s', inv lv levels waste s' ∧ keeps s s' ∧ path (srv s') = path (srv s)).
Proof.
  intros Hinv. destruct (inv_server _ _ _ _ Hinv) as [Hw Hn Hr].
  destruct (DMCache.invalidate_spec (good lv) (home levels) (dmcache (srv s)) k Hw) as (c' & E & Hw' & _ & Hn').
  eapply wp_cached; [exact E|]. split; [|done]. eapply inv_keeps; [exact Hinv|done|]. constructor; [done|cbn; congruence|done].
Qed.

(** An up-to-date record for [k], and a path to go up again. *)
Definition located lv levels waste s k (r : Rec.t) (from_cache : bool) s' : Prop :=
  (∃ c, c ∈ lv ∧ r = leaf_rec c ∧ leaf_covers c k) ∧ inv lv levels waste s' ∧ keeps s s' ∧
  path_ok from_cache k levels (path (srv s')).

(** Enough fuel for the searches of the inner levels. *)
Definition fueled levels (fuel : nat) : Prop := (length (concat levels) + length levels + 3 ≤ fuel)%nat.

Lemma fueled_bottom levels L fuel : fueled levels fuel → levels !! 0%nat = Some L → (length L + 1 ≤ fuel)%nat.
Proof. intros Hf HL. destruct levels; [done|]. injection HL as ->. unfold fueled in Hf. cbn in Hf. rewrite length_app in Hf. lia. Qed.

Lemma relocate_spec lv levels waste s fuel drop k from_cache sync :
  key_num k < key_num KeyMax → inv lv levels waste s → fueled levels fuel →
  path_ok from_cache k levels (path (srv s)) →
  wp (relocate fuel drop k from_cache sync) s (λ '(r, fc, _) s', located lv levels waste s k r fc s').
Proof.
  intros Hmax Hinv Hfuel Hp. unfold relocate. destruct (from_cache && negb sync) eqn:E.
  - apply andb_true_iff in E as [-> _].
    assert (wp (if drop then cached (DMCache.invalidate k) else mret tt) s
      (λ _ s', inv lv levels waste s' ∧ keeps s s' ∧ path (srv s') = path (srv s))) as Hd.
    { destruct drop; [by apply cache_invalidate|]. apply wp_ret. split; [done|]. by split. }
    eapply wp_seq; [exact Hd|]. intros [] s1 (Hinv1 & Hkp1 & Hp1).
    pose proof Hp as (q & q' & L & c & _ & HL & _).
    eapply wp_seq; [eapply (read_bottom_inner_spec all_nodes lv lv levels s1 fuel k L); try done|].
    + by apply (inv_ready _ _ waste).
    + by rewrite Hp1.
    + by eapply fueled_bottom.
    + intros r s2 (Hr & Hrd & Hkp2 & Hp2). apply wp_ret. split; [done|]. split; [|split; [by etrans|done]].
      eapply inv_keeps; [exact Hinv1|done|apply (rd_server _ _ _ _ _ Hrd)].
  - eapply wp_seq; [eapply (find_leaf_spec all_nodes lv lv levels s fuel k Hmax)|].
    + by apply (inv_ready _ _ waste).
    + unfold fueled in Hfuel. lia.
    + intros r s2 (Hr & Hrd & Hkp2 & Hp2). apply wp_ret. split; [done|]. split; [|split; done].
      eapply inv_keeps; [exact Hinv|done|apply (rd_server _ _ _ _ _ Hrd)].
Qed.

(** ** [leaf_search] *)

(** What a read of [k] into a variable that held [v0] may leave there. *)
Definition answer (m : gmap Key Value) k (v0 v : Value) : Prop :=
  match m !! k with Some w => v = w | None => v = v0 ∨ v = ValueNull end.

Lemma answer_null m k v0 v1 v : v1 = v0 ∨ v1 = ValueNull → answer m k v1 v → answer m k v0 v.
Proof. unfold answer. intros H1. destruct (m !! k); [done|]. intros [->| ->]; [done|by right]. Qed.

Definition searched lv levels waste s k v0 (v : Value) s' : Prop :=
  answer (contents lv) k v0 v ∧ inv lv levels waste s' ∧ same s s'.

Lemma searched_trans lv levels waste s s1 k v0 v1 v s' :
  same s s1 → v1 = v0 ∨ v1 = ValueNull → searched lv levels waste s1 k v1 v s' → searched lv levels waste s k v0 v s'.
Proof. intros Hs Hv (H1 & H2 & H3). split; [by eapply answer_null|]. split; [done|by etrans]. Qed.

(** A record that is up to date for the leaf [c]. *)
Definition current c (r : Rec.t) : Prop :=
  Rec.addr r = l_addr c ∧ Rec.fp_addr r = l_fp c ∧ Rec.capacity r = LeafNodeCapacity ∧ Rec.version r = l_ver c.

Lemma current_rec c : current c (leaf_rec c).
Proof. done. Qed.

(** One pass over the table: the local copy, or the table of the index. *)
Lemma leaf_search_S fuel addr r fc fl sync k v :
  leaf_search (A := A) stack (S fuel) addr r fc fl sync k v =
    (lift (LeafNode.attach_node (Rec.capacity r));;
     s ← get;
     local ← lift (local_table stack s (Rec.fp_addr r) (Rec.capacity r));
     fp0 ← lift (at_index (FPTable.fp local) 0);
     let fl := fl && negb ((fp0 =? 0) || (nodeID (Rec.fp_addr r) =? 0)) in
     fp_table ← (if fl then mret local else fetch_table (Rec.fp_addr r) (Rec.capacity r));
     if negb (FPTable.check_consistent fp_table) then leaf_search stack fuel addr r fc false sync k v
     else
       (if negb fl && negb (nodeID (Rec.fp_addr r) =? Z.of_nat (my_id (srv s))) && negb (nodeID (Rec.fp_addr r) =? 0)
        then copy ← lift (my_copy s (Rec.fp_addr r)); store_table copy fp_table else mret tt);;
       if negb (FPTable.get_version fp_table =? Rec.version r) then
         '(r, fc, sync) ← relocate fuel true k fc sync; leaf_search stack fuel (Rec.addr r) r fc false sync k v
       else
         '(res, v) ← search_slots (matching fp_table (LeafNode.cal_key_fp k)) addr r k v;
         match res with
         | Found => mret v
         | Stale => '(r, fc, sync) ← relocate fuel true k fc sync; leaf_search stack fuel (Rec.addr r) r fc false sync k v
         | Missing => if fl then leaf_search stack fuel addr r fc false sync k v else mret v
         end).
Proof. done. Qed.

(** A pass over the table of the index, started in state [s]. *)
Definition remote_pass (fuel : nat) (addr : Gaddr) (r : Rec.t) (fc sync : bool) k (v : Value) s : M (@st A) Value :=
  fp_table ← fetch_table (Rec.fp_addr r) (Rec.capacity r);
  if negb (FPTable.check_consistent fp_table) then leaf_search stack fuel addr r fc false sync k v
  else
    (if negb (nodeID (Rec.fp_addr r) =? Z.of_nat (my_id (srv s))) && negb (nodeID (Rec.fp_addr r) =? 0)
     then copy ← lift (my_copy s (Rec.fp_addr r)); store_table copy fp_table else mret tt);;
    if negb (FPTable.get_version fp_table =? Rec.version r) then
      '(r, fc, sync) ← relocate fuel true k fc sync; leaf_search stack fuel (Rec.addr r) r fc false sync k v
    else
      '(res, v) ← search_slots (matching fp_table (LeafNode.cal_key_fp k)) addr r k v;
      match res with
      | Found => mret v
      | Stale => '(r, fc, sync) ← relocate fuel true k fc sync; leaf_search stack fuel (Rec.addr r) r fc false sync k v
      | Missing => mret v
      end.

(** Reading the table of the index. *)
Lemma remote_table {X} lv levels waste s c r (e : M st X) (f : FPTable.t → M st X) (Q : X → @st A → Prop) :
  inv lv levels waste s → c ∈ lv → Rec.fp_addr r = l_fp c → Rec.capacity r = LeafNodeCapacity →
  (∀ s', inv lv levels waste s' → same s s' → path (srv s') = path (srv s) → wp (f (l_tbl c)) s' Q) →
  wp (t ← fetch_table (Rec.fp_addr r) (Rec.capacity r);
      if negb (FPTable.check_consistent t) then e
      else (if negb (nodeID (Rec.fp_addr r) =? Z.of_nat (my_id (srv s))) && negb (nodeID (Rec.fp_addr r) =? 0)
            then copy ← lift (my_copy s (Rec.fp_addr r)); store_table copy t else mret tt);; f t) s Q.
Proof.
  intros Hinv Hc Hf Hcap HQ. rewrite Hf, Hcap. pose proof (inv_tree _ _ _ _ Hinv) as Ht.
  eapply wp_eq; [by eapply fetch_table_Ok|].
  destruct (chain_elem l_link _ _ _ _ (ix_leaves _ _ (tr_index _ _ _ _ Ht)) Hc) as [n Hn].
  rewrite (lo_consistent _ _ Hn). cbn [negb].
  destruct (Z.eqb_spec (nodeID (l_fp c)) (Z.of_nat (my_id (srv s)))) as [E|Hne]; cbn.
  { apply wp_bind, wp_ret, HQ; done. }
  destruct (nodeID (l_fp c) =? 0); cbn; [apply wp_bind, wp_ret, HQ; done|].
  destruct Hinv as [_ Hsv Hid]. rewrite (my_copy_Ok s _ Hid). apply wp_bind. eapply wp_lift; [done|].
  apply HQ; [|done|done]. constructor; [|done|done].
  apply tree_copy; [done..|]. destruct (tr_leaves _ _ _ _ Ht c Hc) as [_ E]. by eapply tr_tables.
Qed.

(** The start of a pass, up to the choice of the table. *)
Lemma leaf_search_start lv levels waste s fuel addr r fc fl sync k v Q :
  inv lv levels waste s → Rec.capacity r = LeafNodeCapacity →
  (∀ t fl', length (FPTable.fp t) = cap → (fl = false → fl' = false) → wp (
     fp_table ← (if fl' then mret t else fetch_table (Rec.fp_addr r) (Rec.capacity r));
     if negb (FPTable.check_consistent fp_table) then leaf_search stack fuel addr r fc false sync k v
     else
       (if negb fl' && negb (nodeID (Rec.fp_addr r) =? Z.of_nat (my_id (srv s))) && negb (nodeID (Rec.fp_addr r) =? 0)
        then copy ← lift (my_copy s (Rec.fp_addr r)); store_table copy fp_table else mret tt);;
       if negb (FPTable.get_version fp_table =? Rec.version r) then
         '(r, fc, sync) ← relocate fuel true k fc sync; leaf_search stack fuel (Rec.addr r) r fc false sync k v
       else
         '(res, v) ← search_slots (matching fp_table (LeafNode.cal_key_fp k)) addr r k v;
         match res with
         | Found => mret v
         | Stale => '(r, fc, sync) ← relocate fuel true k fc sync; leaf_search stack fuel (Rec.addr r) r fc false sync k v
         | Missing => if fl' then leaf_search stack fuel addr r fc false sync k v else mret v
         end) s Q) →
  wp (leaf_search stack (S fuel) addr r fc fl sync k v) s Q.
Proof.
  intros Hinv Hcap HQ. rewrite leaf_search_S. rewrite Hcap at 1. eapply wp_lift; [done|]. apply wp_get.
  destruct (local_table_Ok lv levels waste s (Rec.fp_addr r) (inv_tree _ _ _ _ Hinv) (inv_id _ _ _ _ Hinv)) as (t & Et & Hlt).
  rewrite <- Hcap in Et. eapply wp_lift; [exact Et|].
  destruct (lookup_lt_is_Some_2 (FPTable.fp t) 0) as [f0 Hf0]; [rewrite Hlt; unfold cap; lia|].
  eapply wp_lift; [by apply at_index_Ok|]. apply (HQ t); [done|]. by intros ->.
Qed.

Lemma fresh_pass lv levels waste s fuel c r fc sync k v0 :
  inv lv levels waste s → c ∈ lv → current c r → leaf_covers c k →
  wp (remote_pass fuel (Rec.addr r) r fc sync k v0 s) s (searched lv levels waste s k v0).
Proof.
  intros Hinv Hc (Ha & Hf & Hcap & Hv) Hk. eapply remote_table; [done..|]. intros s1 Hinv1 Hs1 _.
  pose proof (inv_tree _ _ _ _ Hinv1) as Ht. destruct (tr_leaves _ _ _ _ Ht c Hc) as [Eb Etb].
  destruct (chain_elem l_link _ _ _ _ (ix_leaves _ _ (tr_index _ _ _ _ Ht)) Hc) as [n Hn].
  unfold FPTable.get_version. rewrite (tr_version _ _ _ (lo_table _ _ Hn)), Hv, Z.eqb_refl. cbn [negb].
  destruct (search_slots_current s1 (matching (l_tbl c) (LeafNode.cal_key_fp k)) (l_addr c) (l_blk c) r (l_ver c) (l_kvs c) k v0)
    as (res & v & E & Hres); try done.
  - apply Hn.
  - apply matching_lt. by eapply tr_tables.
  - rewrite <- Ha in E. eapply wp_eq; [exact E|].
    assert (contents lv !! k = kv_map (l_kvs c) !! k) as Ek by (apply contents_lookup; try done; apply (tr_index _ _ _ _ Ht)).
    destruct res; [|done|]; apply wp_ret; (split; [|by split]); unfold answer; rewrite Ek.
    + by rewrite (proj2 (kv_map_lookup _ _ _ (lo_NoDup _ _ Hn)) Hres).
    + rewrite (proj2 (kv_map_None _ _)); [apply Hres|]. intros (p & -> & [i Hi]%list_elem_of_lookup)%list_elem_of_fmap.
      apply (proj2 Hres i p); [|done|done]. by eapply matching_present; [apply Hn|].
Qed.

Lemma leaf_search_fresh lv levels waste s fuel c r fc sync k v0 :
  inv lv levels waste s → c ∈ lv → current c r → leaf_covers c k →
  wp (leaf_search stack (S fuel) (Rec.addr r) r fc false sync k v0) s (searched lv levels waste s k v0).
Proof.
  intros Hinv Hc Hr Hk. eapply leaf_search_start; [done|apply Hr|]. intros t fl _ Hfl. rewrite (Hfl eq_refl).
  by eapply fresh_pass.
Qed.

(** After finding the leaf again. *)
Lemma relocate_search lv levels waste s fuel fc sync k v0 :
  key_num k < key_num KeyMax → inv lv levels waste s → fueled levels fuel → path_ok fc k levels (path (srv s)) →
  wp ('(r, fc, sync) ← relocate fuel true k fc sync; leaf_search stack fuel (Rec.addr r) r fc false sync k v0) s
    (searched lv levels waste s k v0).
Proof.
  intros Hmax Hinv Hfuel Hp. eapply wp_seq; [by eapply relocate_spec|].
  intros [[r fc'] sync'] s1 ((c & Hc & -> & Hk) & Hinv1 & Hkp & _).
  assert (∃ f, fuel = S f) as [f ->] by (destruct fuel; [unfold fueled in Hfuel; lia|eauto]).
  eapply wp_mono; [by eapply (leaf_search_fresh lv levels waste s1 f c)|].
  intros v s'. apply searched_trans; [by apply keeps_same|by left].
Qed.

(** Any record the searches may start from, with the table of the index. *)
Lemma index_pass lv levels waste s fuel r fc sync k v0 :
  key_num k < key_num KeyMax → inv lv levels waste s → fueled levels fuel → path_ok fc k levels (path (srv s)) →
  rec_ok lv k r →
  wp (remote_pass fuel (Rec.addr r) r fc sync k v0 s) s (searched lv levels waste s k v0).
Proof.
  intros Hmax Hinv Hfuel Hp (Hcap & c & Hc & Ha & Hf & Hle & Hcov).
  destruct (decide (Rec.version r = l_ver c)) as [Ev|Hne]; [by eapply fresh_pass; [..|apply Hcov]|].
  eapply remote_table; [done..|]. intros s1 Hinv1 Hs1 Hp1.
  destruct (chain_elem l_link _ _ _ _ (ix_leaves _ _ (tr_index _ _ _ _ (inv_tree _ _ _ _ Hinv1))) Hc) as [n Hn].
  unfold FPTable.get_version. rewrite (tr_version _ _ _ (lo_table _ _ Hn)).
  destruct (Z.eqb_spec (l_ver c) (Rec.version r)); [congruence|]. cbn [negb].
  eapply wp_mono; [eapply (relocate_search lv levels waste s1); try done; by rewrite Hp1|].
  intros v s'. apply searched_trans; [done|by left].
Qed.

Lemma leaf_search_remote lv levels waste s fuel r fc sync k v0 :
  key_num k < key_num KeyMax → inv lv levels waste s → fueled levels fuel → path_ok fc k levels (path (srv s)) →
  rec_ok lv k r →
  wp (leaf_search stack (S fuel) (Rec.addr r) r fc false sync k v0) s (searched lv levels waste s k v0).
Proof.
  intros Hmax Hinv Hfuel Hp Hr. eapply leaf_search_start; [done|apply Hr|]. intros t fl _ Hfl. rewrite (Hfl eq_refl).
  by eapply index_pass.
Qed.

(** The slots of a local copy, which may be out of date. *)
Lemma local_slots lv levels waste s t c r k v0 :
  inv lv levels waste s → c ∈ lv → rec_ok lv k r → Rec.addr r = l_addr c → Rec.version r ≤ l_ver c →
  (Rec.version r = l_ver c → leaf_covers c k) → length (FPTable.fp t) = cap →
  ∃ res v, search_slots (matching t (LeafNode.cal_key_fp k)) (Rec.addr r) r k v0 s = Ok ((res, v), s) ∧
    match res with Found => answer (contents lv) k v0 v | _ => v = v0 ∨ v = ValueNull end.
Proof.
  intros Hinv Hc (Hcap & _) Ha Hle Hcov Ht. pose proof (inv_tree _ _ _ _ Hinv) as Htr.
  destruct (tr_leaves _ _ _ _ Htr c Hc) as [Eb _]. rewrite Ha.
  destruct (chain_elem l_link _ _ _ _ (ix_leaves _ _ (tr_index _ _ _ _ Htr)) Hc) as [n Hn].
  destruct (decide (Rec.version r = l_ver c)) as [Ev|Hne].
  - destruct (search_slots_current s (matching t (LeafNode.cal_key_fp k)) (l_addr c) (l_blk c) r (l_ver c) (l_kvs c) k v0)
      as (res & v & E & Hres); try done; [apply Hn|by apply matching_lt|].
    exists res, v. split; [done|]. destruct res; [|done|by destruct Hres].
    unfold answer. rewrite (contents_lookup lv c k); [|apply (tr_index _ _ _ _ Htr)|done|by apply Hcov].
    by rewrite (proj2 (kv_map_lookup _ _ _ (lo_NoDup _ _ Hn)) Hres).
  - destruct (search_slots_stale s (matching t (LeafNode.cal_key_fp k)) (l_addr c) (l_blk c) r (l_ver c) (l_kvs c) k v0)
      as (res & E & Hres & _); try done; [apply Hn|by apply matching_lt|].
    exists res, v0. split; [done|]. destruct res; [done|by left..].
Qed.

Lemma leaf_search_spec lv levels waste s fuel r fc sync k v0 :
  key_num k < key_num KeyMax → inv lv levels waste s → fueled levels fuel → path_ok fc k levels (path (srv s)) →
  rec_ok lv k r →
  wp (leaf_search stack (S (S fuel)) (Rec.addr r) r fc true sync k v0) s (searched lv levels waste s k v0).
Proof.
  intros Hmax Hinv Hfuel Hp Hr. pose proof Hr as (Hcap & c & Hc & Ha & Hf & Hle & Hcov).
  assert (∀ v1, v1 = v0 ∨ v1 = ValueNull →
    wp (leaf_search stack (S fuel) (Rec.addr r) r fc false sync k v1) s (searched lv levels waste s k v0)) as Hagain.
  { intros v1 Hv1. eapply wp_mono; [by eapply leaf_search_remote|]. intros v s'. by apply searched_trans. }
  assert (∀ v1, v1 = v0 ∨ v1 = ValueNull →
    wp ('(r, fc, sync) ← relocate (S fuel) true k fc sync; leaf_search stack (S fuel) (Rec.addr r) r fc false sync k v1) s
      (searched lv levels waste s k v0)) as Hreloc.
  { intros v1 Hv1. eapply wp_mono; [eapply relocate_search; try done; unfold fueled in *; lia|].
    intros v s'. by apply searched_trans. }
  eapply leaf_search_start; [done|done|]. intros t fl Hlt _. destruct fl; cbn [andb negb].
  - apply wp_bind, wp_ret. destruct (FPTable.check_consistent t); cbn [negb]; [|apply Hagain; by left].
    apply wp_bind, wp_ret. destruct (FPTable.get_version t =? Rec.version r); cbn [negb]; [|apply Hreloc; by left].
    destruct (local_slots lv levels waste s t c r k v0) as (res & v & E & Hres); try done.
    eapply wp_eq; [exact E|]. destruct res; [|by apply Hreloc|by apply Hagain].
    apply wp_ret. split; [done|]. by split.
  - eapply index_pass; try done. unfold fueled in *. lia.
Qed.

(** ** The start of an operation *)

Definition started lv levels waste s k (r : Rec.t) (from_cache : bool) s' : Prop :=
  rec_ok lv k r ∧ inv lv levels waste s' ∧ keeps s s' ∧ path_ok from_cache k levels (path (srv s')).

Lemma rec_ok_leaf lv k c : c ∈ lv → leaf_covers c k → rec_ok lv k (leaf_rec c).
Proof. intros Hc Hk. split; [done|]. exists c. by split_and!. Qed.

Lemma locate_spec lv levels waste s fuel k :
  key_num k < key_num KeyMax → inv lv levels waste s → fueled levels fuel →
  wp (locate uninit fuel k) s (λ '(r, fc) s', started lv levels waste s k r fc s').
Proof.
  intros Hmax Hinv Hfuel. destruct (inv_server _ _ _ _ Hinv) as [Hw Hn Hr]. unfold locate. apply wp_get_path.
  destruct (DMCache.search_cache_spec uninit (good lv) (home levels)) with (s := dmcache (srv s)) (k := k)
    (r0 := Rec.default uninit uninit) (path0 := path (srv s)) as (r & p & c' & E & Hw' & _ & Hn' & Hres).
  { intros n k' [Hs _]. by apply DMCache.searchable_search. }
  { done. }
  apply wp_bind. eapply wp_cached; [exact E|]. apply wp_put_path.
  assert (inv lv levels waste (set_path (set_cache s c') p)) as Hinv1.
  { eapply inv_keeps; [exact Hinv|done|]. constructor; [done|cbn; congruence|done]. }
  unfold gaddr_neqb. destruct (gaddr_eqb (Rec.addr r) Gaddr_Null) eqn:Ea; cbn [negb].
  - eapply wp_seq; [eapply (find_leaf_spec all_nodes lv lv levels _ fuel k Hmax)|].
    + by apply (inv_ready _ _ waste).
    + unfold fueled in Hfuel. lia.
    + intros r' s2 ((c & Hc & -> & Hk) & Hrd & Hkp2 & Hp2). apply wp_ret. split; [by apply rec_ok_leaf|].
      split; [|split; [by destruct Hkp2|done]]. eapply inv_keeps; [exact Hinv1|done|apply (rd_server _ _ _ _ _ Hrd)].
  - apply gaddr_eqb_neq in Ea. destruct Hres as [?|(n & a & [[_ Hg] (L & c & HL & Hc & Hcm & Hca) Hs Hh _ Hp])]; [done|].
    apply wp_ret. split; [by apply (Hg k)|]. split; [done|]. split; [done|].
    rewrite Hp. cbn. eexists _, _, L, c. split; [done|]. split_and!; try done.
    unfold InnerNode.check_hdr in Hh. apply andb_prop in Hh as [_ Hh]. rewrite key_leb_num in Hh.
    unfold lo. cbn. rewrite Hcm. lia.
Qed.

End ops.
