(* ===== verification/TreeWrite.v ===== *)
(** * Writing in a leaf ([leaf_insert], [leaf_resize] of [SkipVectorDM.cc])

    A write replaces the value of a key in its slot, takes a free slot, or
    splits the leaf; in each case the index holds the new map afterwards. *)

From S2P Require Import Prelude KVConfig RdmaConfig Hash LeafNode InnerTree LocalLockTable DMCache Tree TreeChain TreeLeaf TreeInner TreeFind TreeGrow TreeInsert TreeOps.
Open Scope Z_scope.

Import SkipVectorDM.

Section write.
Context {CH : CityHash} {A : Type} `{!Allocator A, !AllocatorSpec A} (uninit : Gaddr) (all_nodes : Z).
Implicit Types (s : @st A) (lv : list lcell) (levels : list (list icell)) (waste : list Gaddr) (k : Key) (c : lcell).
Abbreviation inv := (inv all_nodes).

(** ** A leaf changed in place *)

Lemma others_ne {X} (f : lcell → X) A1 c A2 d : NoDup (f <$> A1 ++ c :: A2) → d ∈ A1 ++ A2 → f c ≠ f d.
Proof.
  rewrite <- Permutation_middle, fmap_cons, NoDup_cons. intros [Hn _] Hd E. apply Hn. rewrite E. by apply list_elem_of_fmap_2.
Qed.

Lemma elem_middle A1 c A2 d : d ∈ A1 ++ c :: A2 ↔ d = c ∨ d ∈ A1 ++ A2.
Proof. by rewrite <- Permutation_middle, elem_of_cons. Qed.

Definition put_leaf s c (b : leaf_block) (t : FPTable.t) : @st A :=
  set_tables (set_leaves s (<[l_addr c := b]> (leaves (mem s)))) (<[l_fp c := t]> (tables (mem s))).

(** Writing a table keeps the tables and their copies on compute nodes. *)
Lemma copies_step lv lv' (m : gmap Gaddr FPTable.t) g t t0 :
  m !! g = Some t0 → (∀ a t, m !! a = Some t → memory_nodes ≤ nodeID a < machines ∧ ∃ c, c ∈ lv ∧ offset a = offset (l_fp c)) →
  (∀ c, c ∈ lv → ∃ c', c' ∈ lv' ∧ l_fp c' = l_fp c) →
  ∀ a t', <[g := t]> m !! a = Some t' → memory_nodes ≤ nodeID a < machines ∧ ∃ c, c ∈ lv' ∧ offset a = offset (l_fp c).
Proof.
  intros Hg Hm Hlv a t' Ha. assert (∃ t1, m !! a = Some t1) as [t1 Ha1].
  { apply lookup_insert_Some in Ha as [(<- & _)|[_ ?]]; eauto. }
  destruct (Hm a t1 Ha1) as (Hn & c & Hc & E). split; [done|]. destruct (Hlv c Hc) as (c' & Hc' & E'). exists c'. by rewrite E'.
Qed.

Lemma put_leaf_inv A1 c A2 c' levels waste s :
  inv (A1 ++ c :: A2) levels waste s →
  l_addr c' = l_addr c → l_fp c' = l_fp c → l_min c' = l_min c → l_ver c' = l_ver c →
  leaf_ok c' (first l_link A2 None) →
  inv (A1 ++ c' :: A2) levels waste (put_leaf s c (l_blk c') (l_tbl c')) ∧
  leaves_grow (A1 ++ c :: A2) (A1 ++ c' :: A2) ∧ leaf_chain (A1 ++ c' :: A2).
Proof.
  intros [Ht Hsv Hid] Ea Ef Em Ev Hok. destruct (tree_NoDup _ _ _ _ Ht) as (Hd1 & Hd2 & _).
  assert (leaf_rec c' = leaf_rec c) as Er by (unfold leaf_rec; by rewrite Ea, Ef, Em, Ev).
  assert (leaf_chain (A1 ++ c' :: A2)) as Hch.
  { eapply chain_replace; [..|apply (ix_leaves _ _ (tr_index _ _ _ _ Ht))]; try done. unfold l_link. by rewrite Ea, Ef, Em. }
  assert (l_max c' = l_max c) as Emax.
  { pose proof (ix_leaves _ _ (tr_index _ _ _ _ Ht)) as (_ & Hc & _)%chain_middle. by rewrite (lo_max _ _ Hok), (lo_max _ _ Hc). }
  assert (leaves_grow (A1 ++ c :: A2) (A1 ++ c' :: A2)) as Hg.
  { intros d [->|Hd]%elem_middle; [exists c'|exists d]; rewrite elem_middle; split_and!; auto. }
  split; [|done]. constructor; [|by eapply server_ok_grow; [exact Hg|reflexivity|]|done].
  destruct Ht as [[I1 I2 I3] [] H3 H4 H5 H6 (ms & ts & Hal & Hms & Hts) H7]. constructor; cbn; try done.
  - constructor; [done| |].
    + rewrite fmap_app, fmap_cons in *. unfold leaf_idx at 2. rewrite Ea, Em. done.
    + intros L HL. rewrite (I3 L HL), !fmap_app, !fmap_cons, Er. done.
  - intros d [->|Hd]%elem_middle; [by rewrite Ea, Ef, !lookup_insert_eq|].
    rewrite !lookup_insert_ne; [apply H4, elem_middle; by right| |by apply (others_ne l_addr A1 c A2)].
    intros E. apply (others_ne (offset ∘ l_fp) A1 c A2 d Hd2 Hd). cbn. by rewrite E.
  - intros a t [(_ & <-)|[_ E]]%lookup_insert_Some; [|by eauto].
    apply (tr_length _ _ _ (leaf_full_le _ _ Hok) (lo_table _ _ Hok)).
  - intros a t Ha. eapply (copies_step (A1 ++ c :: A2)); [..|exact Ha]; [apply (proj2 (H4 c ltac:(apply elem_middle; by left)))|done|].
    intros d [->|Hd]%elem_middle; [exists c'|exists d]; rewrite elem_middle, ?Ef; auto.
  - exists ms, ts. split; [done|]. rewrite Hms, Hts. unfold block_spans. rewrite !fmap_app, !fmap_cons, Ea, Ef. done.
  - intros d Hd. rewrite length_app in *. cbn in *. apply elem_middle in Hd as [->|Hd]; [rewrite Ev|]; apply H7, elem_middle; auto.
Qed.

(** ** The lock of a table *)

Definition locked (t : FPTable.t) : FPTable.t := FPTable.Mk (FPTable.version t) (FPTable.fp t) (FPTable.crc t) 1.

Definition with_table s c (t : FPTable.t) : @st A := set_tables s (<[l_fp c := t]> (tables (mem s))).

Lemma lock_table_Ok lv levels waste s c n :
  tree lv levels waste (mem s) → c ∈ lv → leaf_ok c n →
  lock_table (l_fp c) LeafNodeCapacity s = Ok (tt, with_table s c (locked (l_tbl c))).
Proof.
  intros Ht Hc Hn. unfold lock_table. etrans; [eapply M_bind_eq; by eapply fetch_table_Ok|].
  by rewrite (tr_lock _ _ _ (lo_table _ _ Hn)).
Qed.

Lemma fetch_Ok s a t :
  tables (mem s) !! a = Some t → length (FPTable.fp t) = cap → fetch_table a LeafNodeCapacity s = Ok (t, s).
Proof.
  intros E Hl. unfold fetch_table, mbind, M_bind, get, fetch, lift. rewrite E. unfold FPTable.capacity. by rewrite Hl.
Qed.

Lemma unlock_table_Ok s a t :
  tables (mem s) !! a = Some (locked t) → length (FPTable.fp t) = cap → FPTable.lock t = 0 →
  unlock_table a LeafNodeCapacity s = Ok (tt, set_tables s (<[a := t]> (tables (mem s)))).
Proof.
  intros E Hl H0. unfold unlock_table. etrans; [eapply M_bind_eq; by apply fetch_Ok|].
  destruct t. cbn in *. by rewrite H0.
Qed.

Lemma with_table_same s c : tables (mem s) !! l_fp c = Some (l_tbl c) → with_table s c (l_tbl c) = s.
Proof. intros E. unfold with_table. rewrite insert_id by done. by destruct s as [[] ?]. Qed.

(** ** The capacity of a new leaf *)

Lemma length_omap_le {X Y} (f : X → option Y) l : (length (omap f l) ≤ length l)%nat.
Proof. induction l as [|x l IH]; cbn; [lia|]. destruct (f x); cbn; lia. Qed.

(** The cache holds at most one node per bottom node of the index. *)
Lemma cache_small lv levels L sv :
  server_ok all_nodes lv levels sv → levels !! 0%nat = Some L →
  all_nodes - DMCache.free_node_count (dmcache sv) ≤ 1 + Z.of_nat (length L).
Proof.
  intros [[[Hs Hb Hz _ _ Hh _ _] Hf] Hn _] HL. rewrite Hf, <- Hn.
  assert (length (DMCache.skiplist (dmcache sv)) ≤ length L)%nat as Hle.
  { rewrite <- (length_fmap DMCache.e_key), <- (length_fmap i_min L).
    apply submseteq_length, NoDup_submseteq.
    - apply ascending_NoDup in Hs. apply (NoDup_fmap_1 (λ k, - key_num k)). by rewrite <- list_fmap_compose.
    - intros k (e & -> & He)%list_elem_of_fmap. destruct (Hh e He) as (L' & c & HL' & Hc & <- & _).
      simplify_eq. by apply list_elem_of_fmap_2. }
  apply Permutation_length in Hb. rewrite app_nil_l, length_app, length_seq in Hb.
  assert (length (DMCache.nodes (dmcache sv)) ≤ length (DMCache.skiplist (dmcache sv)))%nat by (apply length_omap_le). lia.
Qed.

(** Room for one more write. *)
Record roomy lv levels waste : Prop := {
  ro_blocks : (length (concat levels) + length lv + length waste + length levels + 2 ≤ max_blocks)%nat;
  ro_tables : (length lv < max_tables)%nat;
  ro_version : Z.of_nat (length lv) < 2 ^ 31;
  ro_cache : ∀ L, levels !! 0%nat = Some L → 100 * (1 + Z.of_nat (length L)) ≤ 99 * all_nodes }.

Lemma adapt_capacity_same lv levels waste sv :
  server_ok all_nodes lv levels sv → roomy lv levels waste → (0 < length levels)%nat →
  DMCache.adapt_capacity (dmcache sv) LeafNodeCapacity = LeafNodeCapacity.
Proof.
  intros Hsv Hro Hl. destruct (lookup_lt_is_Some_2 levels 0 Hl) as [L HL].
  pose proof (cache_small _ _ _ _ Hsv HL). pose proof (ro_cache _ _ _ Hro L HL). unfold DMCache.adapt_capacity.
  rewrite (sv_nodes _ _ _ _ Hsv). destruct (Z.ltb_spec (99 * all_nodes) (100 * (all_nodes - DMCache.free_node_count (dmcache sv)))); [lia|done].
Qed.

(** ** [leaf_resize] *)

(** The memory after both halves and their tables are written. *)
Definition split_state s (al : A) (c1 c2 : lcell) : @st A :=
  Mk (MkShared (inners (mem s)) (<[l_addr c1 := l_blk c1]> (<[l_addr c2 := l_blk c2]> (leaves (mem s))))
        (<[l_fp c1 := l_tbl c1]> (<[l_fp c2 := l_tbl c2]> (tables (mem s)))) (root_ptr (mem s)) (glock (mem s)) al)
     (srv s).

(** The two halves of [c] after a write of [v] at [k]. *)
Record halves c n k v (c1 c2 : lcell) : Prop := {
  hv_addr : l_addr c1 = l_addr c;
  hv_fp : l_fp c1 = l_fp c;
  hv_min : l_min c1 = l_min c;
  hv_ver : l_ver c1 = l_ver c + 1;
  hv_ver' : l_ver c2 = 0;
  hv_mid : leaf_covers c (l_min c2);
  hv_left : leaf_ok c1 (Some (l_link c2));
  hv_right : leaf_ok c2 n;
  hv_contents : contents [c1; c2] = <[k := v]> (kv_map (l_kvs c)) }.

Lemma resize_allocs s ms ts :
  alloc_inv (allocs (mem s)) ms ts → is_server (my_id (srv s)) → (length ms < max_blocks)%nat → (length ts < max_tables)%nat →
  ∃ a f al1 al2,
    alloc memory_alloc (LeafNode.cur_node_size LeafNodeCapacity) s = Ok (a, set_allocs s al1) ∧
    alloc compute_alloc (FPTable.size_for LeafNodeCapacity) (set_allocs s al1) = Ok (f, set_allocs s al2) ∧
    alloc_inv al2 (leaf_span a :: ms) (f :: ts).
Proof.
  intros Hal Hid Hm Ht. destruct (memory_alloc_ok _ ms ts (my_id (srv s)) (LeafNode.cur_node_size LeafNodeCapacity) Hal Hid Hm)
    as (a & al1 & E1 & Hal1); [by right|].
  destruct (compute_alloc_ok _ _ _ (my_id (srv s)) Hal1 Hid Ht) as (f & al2 & E2 & Hal2).
  exists a, f, al1, al2. split_and!; [by apply alloc_Ok|by apply (alloc_Ok (set_allocs s al1))|done].
Qed.

Lemma leaf_resize_writes lv levels waste s c n k v v0 fuel fc ms ts :
  leaves (mem s) !! l_addr c = Some (l_blk c) → c ∈ lv →
  leaf_ok c n → leaf_covers c k → k ∉ ep_key <$> l_kvs c → length (l_kvs c) = cap → l_ver c < 2 ^ 31 → combines s k v →
  server_ok all_nodes lv levels (srv s) → roomy lv levels waste → (0 < length levels)%nat →
  alloc_inv (allocs (mem s)) ms ts → is_server (my_id (srv s)) → (length ms < max_blocks)%nat → (length ts < max_tables)%nat →
  l_fp c ∈ ts →
  ∃ c1 c2 al, halves c n k v c1 c2 ∧ alloc_inv al (leaf_span (l_addr c2) :: ms) (l_fp c2 :: ts) ∧
    leaf_resize uninit fuel (l_addr c) (l_fp c) LeafNodeCapacity k v0 fc (with_table s c (locked (l_tbl c))) =
    inner_insert uninit fuel k (leaf_rec c2) (leaf_rec c1) fc (split_state s al c1 c2).
Proof.
  intros Eb Hc Hn Hk Hnin Hfull Hver Hcv Hsv Hro Hlev Hal Hid Hm Hts Hfp.
  set (s0 := with_table s c (locked (l_tbl c))).
  destruct (resize_allocs s0 ms ts Hal Hid Hm Hts) as (a & f & al1 & al2 & E1 & E2 & Hal2).
  destruct (leaf_split c n k v a f Hn Hk Hnin Hfull Hver) as (es0 & mid & t1 & es1 & t2 & es2 & Hdr & Hmid & Hf1 & Hf2 & Hrest).
  set (c1 := LCell (l_addr c) (l_fp c) _ t1 _) in *. set (c2 := LCell a f _ t2 _) in *. cbn zeta in Hrest.
  destruct Hrest as (Hc1 & Hc2 & Hcont). destruct (sorted_halves c n k v mid Hn Hk Hnin Hfull Hmid) as (Hrange & _).
  exists c1, c2, al2. split_and!; [|done|].
  { constructor; try done. unfold covers, lo, l_hi. cbn. lia. }
  assert (f ≠ l_fp c) as Hne.
  { intros E. apply alloc_tables in Hal2 as [Hd _]. apply NoDup_cons in Hd as [Hd _]. apply Hd. rewrite E. by apply list_elem_of_fmap_2. }
  unfold leaf_resize. etrans; [eapply M_bind_eq; by apply lift_Ok|]. cbv beta.
  m_step (combining_value_Ok s0 k v v0 Hcv).
  m_step (read_leaf_Ok s0 (l_addr c) (l_blk c) LeafNodeCapacity Eb).
  { by rewrite (er_length _ _ _ (lo_entries _ _ Hn)). }
  m_step (lift_Ok _ _ s0 Hdr). etrans; [by eapply M_bind_eq|]. cbv beta.
  change (srv s0) with (srv s). rewrite (adapt_capacity_same _ _ _ _ Hsv Hro Hlev), Z.ltb_irrefl.
  cbn [length]. rewrite Hfull. change (S cap / 2)%nat with 16%nat.
  fold (sorted_with c k v). etrans; [eapply M_bind_eq; by apply lift_Ok|]. cbv beta.
  m_step E1. m_step E2. m_step (lift_Ok _ _ (set_allocs s0 al2) (proj2 (at_index_Ok _ _ _) Hmid)).
  m_step (lift_Ok _ _ (set_allocs s0 al2) Hf1). m_step (lift_Ok _ _ (set_allocs s0 al2) Hf2).
  unfold Rec.make. rewrite (wrap_small 56 (_ + 1)) by (pose proof (lo_version _ _ Hn); unfold fits, l_ver in *; lia).
  assert (set_tables (set_leaves (set_tables (set_leaves (set_allocs s0 al2)
    (<[a := l_blk c2]> (leaves (mem s)))) (<[f := t2]> (tables (mem s0)))) (<[l_addr c := l_blk c1]> (<[a := l_blk c2]> (leaves (mem s)))))
    (<[l_fp c := t1]> (<[f := t2]> (tables (mem s0)))) = split_state s al2 c1 c2) as <-; [|reflexivity].
  unfold split_state, set_tables, set_leaves, set_allocs, s0, with_table. cbn [mem srv inners leaves tables root_ptr glock allocs].
  do 2 f_equal. cbn [l_fp c1 c2 l_tbl mem tables set_tables]. rewrite (insert_insert_ne _ f) by done. by rewrite insert_insert_eq.
Qed.

Section halves.
Context (A1 A2 : list lcell) (c c1 c2 : lcell) (k : Key) (v : Value)
  (Hh : halves c (first l_link A2 None) k v c1 c2) (Hlv0 : leaf_chain (A1 ++ c :: A2)).
Let lv0 := A1 ++ c :: A2.
Let lv := A1 ++ c1 :: c2 :: A2.

Lemma halves_chain : leaf_chain lv.
Proof.
  eapply (chain_split l_link); [..|exact Hlv0]; try done; [|apply Hh..].
  unfold l_link. by rewrite (hv_addr _ _ _ _ _ _ Hh), (hv_fp _ _ _ _ _ _ Hh), (hv_min _ _ _ _ _ _ Hh).
Qed.

Lemma elem_halves d : d ∈ lv ↔ d = c1 ∨ d = c2 ∨ d ∈ A1 ++ A2.
Proof. unfold lv. rewrite elem_middle, <- Permutation_middle, elem_of_cons. done. Qed.

Lemma halves_grow : leaves_grow lv0 lv.
Proof.
  intros d [->|Hd]%elem_middle; [exists c1|exists d]; rewrite elem_halves; split_and!; auto; [apply Hh..|].
  left. rewrite (hv_ver _ _ _ _ _ _ Hh). lia.
Qed.

Lemma halves_contents : leaf_covers c k → contents lv = <[k := v]> (contents lv0).
Proof. intros Hk. apply (contents_write A1 c A2 [c1; c2]); [done|done|apply Hh]. Qed.

Lemma length_halves : length lv = S (length lv0).
Proof. unfold lv, lv0. rewrite !length_app. cbn. lia. Qed.

(** The leaves after the split are those of the index once it has grown. *)
Lemma halves_index levels levels' s s' ms ts :
  index_ok lv0 levels →
  grown true (leaf_rec c) (leaf_rec c1) (leaf_rec c2) (leaf_idx <$> lv) s ms ts levels s' levels' → index_ok lv levels'.
Proof.
  intros Hix Hgr. constructor; [apply halves_chain|apply Hgr|]. intros L' HL'.
  assert (∃ L, levels !! 0%nat = Some L) as [L HL].
  { pose proof (ix_tower _ _ Hix) as Ht. destruct levels; [done|]. by eexists. }
  pose proof (gr_tower _ _ _ _ _ _ _ _ _ _ _ Hgr) as Ht. destruct levels' as [|L1 rest]; [done|]. injection HL' as ->.
  destruct Ht as (_ & Hidx & _).
  eapply (gains_leaves A1 A2 c c1 c2 halves_chain L (recs L')); [by apply (ix_bottom _ _ Hix)| |by apply Hgr].
  apply ascending_fmap. change (Rec.num <$> recs L') with (idx_num ∘ rec_idx <$> recs L').
  rewrite list_fmap_compose, Hidx, <- list_fmap_compose. 
  exact (proj1 (ascending_fmap _ _) (chain_ascending l_link l_hi _ leaf_ranged _ _ halves_chain)).
Qed.

Lemma grown_levels levels levels' s s' ms ts x upd r below :
  grown true x upd r below s ms ts levels s' levels' → levels_grow levels levels'.
Proof.
  intros Hgr. split; [apply Hgr|]. intros d Hd. destruct (gr_new _ _ _ _ _ _ _ _ _ _ _ Hgr) as (new & Hp & _).
  assert (i_addr d ∈ i_addr <$> concat levels') as Hin.
  { rewrite Hp. apply elem_of_app. right. by apply list_elem_of_fmap_2. }
  apply list_elem_of_fmap in Hin as (d' & E & Hd'). by exists d'.
Qed.

End halves.

Definition wrote lv levels waste s k (v : Value) s' : Prop :=
  ∃ lv' levels', inv lv' levels' waste s' ∧ contents lv' = <[k := v]> (contents lv) ∧ same s s' ∧
    leaves_grow lv lv' ∧ levels_grow levels levels' ∧ (length lv' ≤ S (length lv))%nat.

(** The block and the table of the new leaf are those of no other leaf. *)
Lemma new_leaf_apart al c2 lv levels waste ms ts :
  alloc_inv al (leaf_span (l_addr c2) :: ms) (l_fp c2 :: ts) → ms ≡ₚ block_spans lv levels waste → ts ≡ₚ l_fp <$> lv →
  ∀ d, d ∈ lv → l_addr d ≠ l_addr c2 ∧ offset (l_fp d) ≠ offset (l_fp c2).
Proof.
  intros Hal Hms Hts d Hd. pose proof (alloc_blocks _ _ _ Hal) as [Hd1 _]. pose proof (alloc_tables _ _ _ Hal) as [Hd2 _].
  rewrite (fmap_cons fst) in Hd1. apply NoDup_cons in Hd1 as [Hd1 _]. apply NoDup_cons in Hd2 as [Hd2 _]. split; intros E.
  - apply Hd1. rewrite Hms, block_spans_addrs. cbn. rewrite <- E.
    apply elem_of_app. right. apply elem_of_app. left. by apply list_elem_of_fmap_2.
  - apply Hd2. rewrite Hts, <- E. by do 2 apply list_elem_of_fmap_2.
Qed.

Lemma halves_copies A1 A2 c c1 c2 levels waste m al ms ts t1 t2 :
  tree (A1 ++ c :: A2) levels waste m → l_fp c1 = l_fp c → alloc_inv al ms (l_fp c2 :: ts) →
  ∀ a t, <[l_fp c1 := t1]> (<[l_fp c2 := t2]> (tables m)) !! a = Some t →
    memory_nodes ≤ nodeID a < machines ∧ ∃ d, d ∈ A1 ++ c1 :: c2 :: A2 ∧ offset a = offset (l_fp d).
Proof.
  intros Ht Ef Hal a t Ha. assert (c ∈ A1 ++ c :: A2) as Hc by (apply elem_middle; by left).
  destruct (tr_leaves _ _ _ _ Ht c Hc) as [_ Hc1].
  assert (a = l_fp c2 ∨ ∃ t', <[l_fp c := t1]> (tables m) !! a = Some t') as [->|[t' Ha']].
  { rewrite Ef, lookup_insert_Some in Ha. setoid_rewrite lookup_insert_Some. rewrite lookup_insert_Some in Ha. naive_solver. }
  - apply alloc_nodes in Hal as [_ Hnt]. apply Forall_cons in Hnt as [Hnt _]. split; [apply Hnt|].
    exists c2. split; [|done]. apply elem_halves. auto.
  - eapply copies_step; [exact Hc1|apply (tr_copies _ _ _ _ Ht)| |exact Ha'].
    intros d [->|Hd]%elem_middle; [exists c1|exists d]; rewrite elem_halves; auto.
Qed.

(** The memory of the split and of the grown index is that of the new leaves. *)
Lemma halves_tree A1 A2 c c1 c2 k v levels levels' waste s s1 s' al ms ts :
  halves c (first l_link A2 None) k v c1 c2 →
  tree (A1 ++ c :: A2) levels waste (mem s) →
  ms ≡ₚ block_spans (A1 ++ c :: A2) levels waste → ts ≡ₚ l_fp <$> A1 ++ c :: A2 →
  alloc_inv al (leaf_span (l_addr c2) :: ms) (l_fp c2 :: ts) → mem s1 = mem (split_state s al c1 c2) →
  grown true (leaf_rec c) (leaf_rec c1) (leaf_rec c2) (leaf_idx <$> A1 ++ c1 :: c2 :: A2) s1 (leaf_span (l_addr c2) :: ms)
    (l_fp c2 :: ts) levels s' levels' →
  tree (A1 ++ c1 :: c2 :: A2) levels' waste (mem s').
Proof.
  intros Hh Ht Hms Hts Hal Em Hgr. pose proof (tr_index _ _ _ _ Ht) as Hix. pose proof Hgr as [_ _ Hst Hroot Hgl Hnew _ _ Hl Htb _].
  destruct Hnew as (new & Hp & Hal'). rewrite Em in Hl, Htb. cbn in Hl, Htb.
  pose proof (hv_addr _ _ _ _ _ _ Hh) as Ea. pose proof (hv_fp _ _ _ _ _ _ Hh) as Ef.
  pose proof (new_leaf_apart _ _ _ _ _ _ _ Hal Hms Hts) as Hfresh.
  destruct (tree_NoDup _ _ _ _ Ht) as (Hd3 & Hd4 & _). constructor.
  - by eapply halves_index; [exact Hh|apply Hix|..].
  - constructor; [done| |].
    + destruct Hroot as (d & Hd & E). by exists d.
    + intros d Hd E. apply alloc_blocks in Hal' as [_ Hn]. apply Hn. rewrite <- E.
      assert (i_addr d ∈ i_addr <$> concat levels') as Hin by (by apply list_elem_of_fmap_2).
      rewrite Hp in Hin. rewrite fmap_app, (spans_fst inner_span) by done.
      apply elem_of_app in Hin as [?|Hin]; apply elem_of_app; [by left|right].
      apply elem_of_cons. right. rewrite Hms, block_spans_addrs. apply elem_of_app. by left.
  - done.
  - intros d Hd. rewrite Hl, Htb. apply elem_halves in Hd as [->|[->|Hd]].
    + by rewrite !lookup_insert_eq.
    + destruct (Hfresh c) as [H1 H2]; [apply elem_middle; by left|].
      rewrite (lookup_insert_ne _ (l_addr c1)), (lookup_insert_ne _ (l_fp c1)) by (rewrite ?Ea, ?Ef; congruence). by rewrite !lookup_insert_eq.
    + pose proof (others_ne l_addr A1 c A2 d Hd3 Hd) as H1. pose proof (others_ne (offset ∘ l_fp) A1 c A2 d Hd4 Hd) as H2. cbn in H2.
      assert (d ∈ A1 ++ c :: A2) as Hd' by (apply elem_middle; by right). destruct (Hfresh d Hd') as [H3 H4].
      rewrite !lookup_insert_ne by (rewrite ?Ea, ?Ef; congruence). by apply (tr_leaves _ _ _ _ Ht).
  - intros a t. rewrite Htb. pose proof (hv_left _ _ _ _ _ _ Hh) as H1. pose proof (hv_right _ _ _ _ _ _ Hh) as H2.
    intros [(_ & <-)|[_ [(_ & <-)|[_ E]]%lookup_insert_Some]]%lookup_insert_Some.
    + apply (tr_length _ _ _ (leaf_full_le _ _ H1) (lo_table _ _ H1)).
    + apply (tr_length _ _ _ (leaf_full_le _ _ H2) (lo_table _ _ H2)).
    + by apply (tr_tables _ _ _ _ Ht _ _ E).
  - rewrite Htb. by eapply halves_copies.
  - exists ((inner_span <$> new) ++ leaf_span (l_addr c2) :: ms), (l_fp c2 :: ts). split; [done|].
    rewrite Hms, Hts. unfold block_spans. rewrite Hp, !fmap_app, !fmap_cons, Ea, Ef. split; solve_Permutation.
  - intros d Hd. rewrite (length_halves A1 A2 c c1 c2), Nat2Z.inj_succ. apply elem_halves in Hd as [->|[->|Hd]].
    + rewrite (hv_ver _ _ _ _ _ _ Hh). pose proof (tr_versions _ _ _ _ Ht c). rewrite elem_middle in *. specialize (H (or_introl eq_refl)). lia.
    + rewrite (hv_ver' _ _ _ _ _ _ Hh). lia.
    + pose proof (tr_versions _ _ _ _ Ht d). rewrite elem_middle in *. specialize (H (or_intror Hd)). lia.
Qed.

Lemma leaf_resize_spec A1 c A2 levels waste s fuel k v v0 fc :
  key_num k < key_num KeyMax → inv (A1 ++ c :: A2) levels waste s → leaf_covers c k → k ∉ ep_key <$> l_kvs c →
  length (l_kvs c) = cap → combines s k v → roomy (A1 ++ c :: A2) levels waste → fueled levels fuel →
  path_ok fc k levels (path (srv s)) →
  wp (leaf_resize uninit fuel (l_addr c) (l_fp c) LeafNodeCapacity k v0 fc) (with_table s c (locked (l_tbl c)))
    (λ _ s', wrote (A1 ++ c :: A2) levels waste s k v s').
Proof.
  intros Hmax [Ht Hsv Hid] Hk Hnin Hfull Hcv Hro Hfuel Hp.
  assert (c ∈ A1 ++ c :: A2) as Hc by (apply elem_middle; by left).
  pose proof (tr_index _ _ _ _ Ht) as Hix. pose proof (ix_leaves _ _ Hix) as Hch. pose proof (proj1 (chain_middle l_link _ _ _ _ _) Hch) as (_ & Hn & _).
  destruct (tr_alloc _ _ _ _ Ht) as (ms & ts & Hal & Hms & Hts). destruct (tr_leaves _ _ _ _ Ht c Hc) as [Eb _].
  pose proof (tr_versions _ _ _ _ Ht c Hc) as Hver. destruct (top_cell _ _ Hix) as (_ & _ & _ & _ & Hlev & _).
  pose proof Hro as [Hro1 Hro2 Hro3 _]. pose proof (Permutation_length Hms) as Hlms. pose proof (Permutation_length Hts) as Hlts.
  rewrite length_block_spans in Hlms. rewrite length_fmap in Hlts.
  destruct (leaf_resize_writes (A1 ++ c :: A2) levels waste s c (first l_link A2 None) k v v0 fuel fc ms ts)
    as (c1 & c2 & al & Hh & Hal2 & E); try done; try lia.
  { rewrite Hts. by apply list_elem_of_fmap_2. }
  unfold wp. rewrite E. change (wp (inner_insert uninit fuel k (leaf_rec c2) (leaf_rec c1) fc) (split_state s al c1 c2)
    (λ _ s', wrote (A1 ++ c :: A2) levels waste s k v s')).
  pose proof (halves_chain A1 A2 c c1 c2 k v Hh Hch) as Hch'. pose proof (halves_grow A1 A2 c c1 c2 k v Hh) as Hg.
  eapply wp_mono; [eapply (inner_insert_spec uninit all_nodes A1 A2 c c1 c2 Hch Hch') with (ms := leaf_span (l_addr c2) :: ms) (ts := l_fp c2 :: ts)
    (levels := levels)|]; try done; [apply Hh..| |].
  - constructor; try done; cbn [length]; try lia.
    + constructor; [done|done|by destruct (tr_inner _ _ _ _ Ht)|]. by eapply server_ok_grow; [exact Hg|reflexivity|].
    + apply (tr_glock _ _ _ _ Ht).
    + apply alloc_blocks in Hal as [Hd _]. rewrite Hms, block_spans_addrs in Hd. by apply NoDup_app in Hd as [? _].
    + intros d Hd. right. rewrite Hms, block_spans_addrs. apply elem_of_app. left. by apply list_elem_of_fmap_2.
  - intros _ s' (s1 & levels' & [Em Ei El] & Hsv1 & Hgr). pose proof (gr_server _ _ _ _ _ _ _ _ _ _ _ Hgr) as Es.
    exists (A1 ++ c1 :: c2 :: A2), levels'. pose proof (grown_levels _ _ _ _ _ _ _ _ _ _ Hgr) as Hlg.
    split; [|split_and!].
    + constructor; [by eapply halves_tree|rewrite Es|rewrite Es; cbn; by rewrite Ei].
      eapply server_ok_grow; [reflexivity|exact Hlg|]. by destruct Hsv1.
    + by eapply halves_contents.
    + constructor; rewrite Es; cbn; by rewrite ?Ei, ?El.
    + done.
    + done.
    + rewrite (length_halves A1 A2 c c1 c2). lia.
Qed.

(** ** [leaf_insert] *)

(** What follows once the table is locked and read. *)
Definition insert_locked (fuel : nat) (r : Rec.t) (fc sync : bool) k (v : Value) (fp_table : FPTable.t) : M (@st A) unit :=
  if negb (FPTable.get_version fp_table =? Rec.version r) then
    unlock_table (Rec.fp_addr r) (Rec.capacity r);;
    '(r, fc, sync) ← relocate fuel true k fc sync; leaf_insert uninit fuel (Rec.addr r) r fc sync k v
  else
    let f := LeafNode.cal_key_fp k in
    '(hit, v) ← insert_slots (matching fp_table f) (Rec.addr r) r k v;
    match hit with
    | Some (i, e) => write_entry (Rec.addr r) (Rec.capacity r) i e;; unlock_table (Rec.fp_addr r) (Rec.capacity r)
    | None =>
        match FPTable.insert fp_table f with
        | (Some i, fp_table) =>
            v ← combining_value k v;
            let '(ok, e) := Entry.insert (Entry.set_version Entry.zero (Rec.version r)) k v in
            assert ok;;
            write_entry (Rec.addr r) (Rec.capacity r) i e;;
            store_table (Rec.fp_addr r) (FPTable.unlock fp_table)
        | (None, _) => leaf_resize uninit fuel (Rec.addr r) (Rec.fp_addr r) (Rec.capacity r) k v fc
        end
    end.

Lemma leaf_insert_S fuel r fc sync k v :
  leaf_insert (A := A) uninit (S fuel) (Rec.addr r) r fc sync k v =
    (lift (LeafNode.attach_node (Rec.capacity r));;
     lock_table (Rec.fp_addr r) (Rec.capacity r);;
     fp_table ← fetch_table (Rec.fp_addr r) (Rec.capacity r);
     assert (FPTable.check_consistent fp_table);;
     insert_locked fuel r fc sync k v fp_table).
Proof. done. Qed.

Lemma leaf_insert_start lv levels waste s fuel c n r fc sync k v (Q : unit → @st A → Prop) :
  inv lv levels waste s → c ∈ lv → leaf_ok c n → Rec.fp_addr r = l_fp c → Rec.capacity r = LeafNodeCapacity →
  wp (insert_locked fuel r fc sync k v (locked (l_tbl c))) (with_table s c (locked (l_tbl c))) Q →
  wp (leaf_insert uninit (S fuel) (Rec.addr r) r fc sync k v) s Q.
Proof.
  intros [Ht Hsv Hid] Hc Hn Hf Hcap HQ. rewrite leaf_insert_S. rewrite Hcap at 1. eapply wp_lift; [done|].
  rewrite Hf, Hcap at 1. eapply wp_eq; [by eapply lock_table_Ok|].
  rewrite Hf, Hcap at 1. eapply wp_eq; [apply fetch_Ok; [by apply lookup_insert_eq|]|].
  { apply (tr_length _ _ _ (leaf_full_le _ _ Hn) (lo_table _ _ Hn)). }
  eapply wp_lift; [|exact HQ]. change (FPTable.check_consistent (locked (l_tbl c))) with (FPTable.check_consistent (l_tbl c)).
  by rewrite (lo_consistent _ _ Hn).
Qed.

Lemma write_entry_Ok s a b i e :
  leaves (mem s) !! a = Some b → length (l_entries b) = cap →
  write_entry a LeafNodeCapacity i e s =
    Ok (tt, set_leaves s (<[a := MkLeaf (l_hdr b) (<[i := e]> (l_entries b))]> (leaves (mem s)))).
Proof.
  intros E Hl. unfold write_entry. etrans; [eapply M_bind_eq; apply read_leaf_Ok; [exact E|by rewrite Hl]|]. done.
Qed.

(** A write in place, in the leaf and its table. *)
Lemma wrote_in_place A1 c A2 c' levels waste s k v :
  inv (A1 ++ c :: A2) levels waste s → leaf_covers c k →
  l_addr c' = l_addr c → l_fp c' = l_fp c → l_min c' = l_min c → l_ver c' = l_ver c →
  leaf_ok c' (first l_link A2 None) → contents [c'] = <[k := v]> (kv_map (l_kvs c)) →
  wrote (A1 ++ c :: A2) levels waste s k v (put_leaf s c (l_blk c') (l_tbl c')).
Proof.
  intros Hinv Hk Ea Ef Em Ev Hok Hcont.
  destruct (put_leaf_inv A1 c A2 c' levels waste s Hinv Ea Ef Em Ev Hok) as (Hinv' & Hg & _).
  exists (A1 ++ c' :: A2), levels. split_and!; try done.
  - apply (contents_write A1 c A2 [c']); [apply (tr_index _ _ _ _ (inv_tree _ _ _ _ _ Hinv))|done|done].
  - rewrite !length_app. cbn. lia.
Qed.

(** The slot, then the table, of a locked leaf. *)
Lemma put_leaf_locked s c t b u :
  set_tables (set_leaves (with_table s c t) (<[l_addr c := b]> (leaves (mem s)))) (<[l_fp c := u]> (tables (mem (with_table s c t)))) =
  put_leaf s c b u.
Proof. unfold put_leaf, with_table, set_tables, set_leaves. cbn. by rewrite insert_insert_eq. Qed.

Lemma write_unlock_Ok s c i e n :
  leaves (mem s) !! l_addr c = Some (l_blk c) → leaf_ok c n →
  (write_entry (l_addr c) LeafNodeCapacity i e;; unlock_table (l_fp c) LeafNodeCapacity) (with_table s c (locked (l_tbl c))) =
    Ok (tt, put_leaf s c (MkLeaf (l_hdr (l_blk c)) (<[i := e]> (l_entries (l_blk c)))) (l_tbl c)).
Proof.
  intros Eb Hn. etrans; [eapply M_bind_eq; apply (write_entry_Ok (with_table s c (locked (l_tbl c)))); [exact Eb|apply (lo_entries _ _ Hn)]|].
  etrans; [apply (unlock_table_Ok _ _ (l_tbl c)); [by apply lookup_insert_eq| |apply (lo_table _ _ Hn)]|].
  - apply (tr_length _ _ _ (leaf_full_le _ _ Hn) (lo_table _ _ Hn)).
  - do 2 f_equal. exact (put_leaf_locked _ _ _ _ _).
Qed.

Lemma write_store_Ok s c i e t u :
  leaves (mem s) !! l_addr c = Some (l_blk c) → length (l_entries (l_blk c)) = cap →
  (write_entry (l_addr c) LeafNodeCapacity i e;; store_table (l_fp c) u) (with_table s c t) =
    Ok (tt, put_leaf s c (MkLeaf (l_hdr (l_blk c)) (<[i := e]> (l_entries (l_blk c)))) u).
Proof.
  intros Eb Hl. etrans; [eapply M_bind_eq; apply (write_entry_Ok (with_table s c t)); [exact Eb|done]|].
  unfold store_table, modify. do 2 f_equal. exact (put_leaf_locked _ _ _ _ _).
Qed.

(** The lock word plays no part in an insertion. *)
Lemma insert_table_locked t f i t' :
  FPTable.insert t f = (Some i, t') → FPTable.lock t = 0 →
  ∃ u, FPTable.insert (locked t) f = (Some i, u) ∧ FPTable.unlock u = t'.
Proof.
  unfold FPTable.insert. intros E H0. change (FPTable.fp (locked t)) with (FPTable.fp t).
  destruct (first_index _ _); [|done]. injection E as <- <-. eexists. split; [done|]. destruct t. cbn in *. by subst.
Qed.

Lemma insert_table_full c n f : leaf_ok c n → length (l_kvs c) = cap → (FPTable.insert (locked (l_tbl c)) f).1 = None.
Proof.
  intros Hn Hl. pose proof (tr_full _ _ _ f (lo_table _ _ Hn) Hl) as E. unfold FPTable.insert in *.
  change (FPTable.fp (locked (l_tbl c))) with (FPTable.fp (l_tbl c)). by destruct (first_index _ _).
Qed.

(** With an up-to-date record, the pair is written. *)
Lemma insert_current A1 c A2 levels waste s fuel r fc sync k v v0 :
  key_num k < key_num KeyMax → inv (A1 ++ c :: A2) levels waste s → current c r → leaf_covers c k → combines s k v →
  roomy (A1 ++ c :: A2) levels waste → fueled levels fuel → path_ok fc k levels (path (srv s)) →
  wp (insert_locked fuel r fc sync k v0 (locked (l_tbl c))) (with_table s c (locked (l_tbl c)))
    (λ _ s', wrote (A1 ++ c :: A2) levels waste s k v s').
Proof.
  intros Hmax Hinv (Ea & Ef & Ecap & Ever) Hk Hcv Hro Hfuel Hp. pose proof (inv_tree _ _ _ _ _ Hinv) as Ht.
  assert (c ∈ A1 ++ c :: A2) as Hc by (apply elem_middle; by left).
  pose proof (ix_leaves _ _ (tr_index _ _ _ _ Ht)) as Hch.
  pose proof (proj1 (chain_middle l_link _ _ _ _ _) Hch) as (_ & Hn & _). destruct (tr_leaves _ _ _ _ Ht c Hc) as [Eb Et].
  pose proof (tr_length _ _ _ (leaf_full_le _ _ Hn) (lo_table _ _ Hn)) as Hlt.
  pose proof (er_length _ _ _ (lo_entries _ _ Hn)) as Hle.
  assert (wrap 56 (l_ver c) = l_ver c) as Ew.
  { pose proof (tr_versions _ _ _ _ Ht c Hc). pose proof (ro_version _ _ _ Hro). pose proof (lo_version _ _ Hn).
    apply wrap_small. unfold fits. lia. }
  unfold insert_locked, FPTable.get_version. cbn [FPTable.version locked].
  rewrite (tr_version _ _ _ (lo_table _ _ Hn)), Ever, Z.eqb_refl, Ea, Ef, Ecap. cbn [negb]. cbv zeta.
  set (s0 := with_table s c (locked (l_tbl c))). change (matching (locked (l_tbl c))) with (matching (l_tbl c)).
  destruct (insert_slots_spec s0 (matching (l_tbl c) (LeafNode.cal_key_fp k)) (l_addr c) (l_blk c) r (l_ver c) (l_kvs c) k v v0)
    as [(i & p & E & Hi & <-)|(v1 & E & Hno)]; try done.
  - apply Hn.
  - apply Forall_forall. intros i. apply (matching_live (l_ver c)), Hn.
  - eapply wp_eq; [exact E|]. destruct (leaf_update c _ i p v Hn Hi) as (Hok & _ & Hcont). cbn zeta in Hok, Hcont.
    unfold wp. unfold s0. rewrite (write_unlock_Ok s c i _ _ Eb Hn).
    eapply wrote_in_place in Hok; [exact Hok|done..].
  - eapply wp_eq; [exact E|].
    assert (k ∉ ep_key <$> l_kvs c) as Hnin.
    { intros (p & -> & [i Hi]%list_elem_of_lookup)%list_elem_of_fmap. apply (Hno i p); [|done|done]. by eapply matching_present; [apply Hn|]. }
    destruct (decide (length (l_kvs c) < cap)%nat) as [Hlt'|Hge].
    + destruct (leaf_append c _ k v Hn Hlt' Hk Hnin) as (t & Eins & Hok & _ & Hcont). cbn zeta in Hok, Hcont.
      destruct (insert_table_locked _ _ _ _ Eins (tr_lock _ _ _ (lo_table _ _ Hn))) as (u & -> & Eu).
      eapply wp_eq; [by apply combining_value_Ok|]. cbn [Entry.insert Entry.valid Entry.set_version Entry.zero].
      unfold Entry.set_version. rewrite Ew. eapply wp_lift; [done|]. unfold wp, s0. rewrite (write_store_Ok s c _ _ _ _ Eb Hle), Eu.
      eapply wrote_in_place in Hok; [exact Hok|done..].
    + pose proof (insert_table_full c _ (LeafNode.cal_key_fp k) Hn) as Hnone. pose proof (leaf_full_le _ _ Hn).
      destruct (FPTable.insert (locked (l_tbl c)) _) as [o u]. cbn in Hnone. rewrite Hnone by lia.
      apply leaf_resize_spec; try done. lia.
Qed.

Lemma wrote_keeps lv levels waste s s1 k v s' : keeps s s1 → wrote lv levels waste s1 k v s' → wrote lv levels waste s k v s'.
Proof.
  intros Hkp (lv' & levels' & H1 & H2 & H3 & H). exists lv', levels'. split_and!; try done; [|apply H..].
  etrans; [by apply keeps_same|done].
Qed.

Lemma leaf_insert_fresh lv levels waste s fuel c r fc sync k v v0 :
  key_num k < key_num KeyMax → inv lv levels waste s → c ∈ lv → current c r → leaf_covers c k → combines s k v →
  roomy lv levels waste → fueled levels fuel → path_ok fc k levels (path (srv s)) →
  wp (leaf_insert uninit (S fuel) (Rec.addr r) r fc sync k v0) s (λ _ s', wrote lv levels waste s k v s').
Proof.
  intros Hmax Hinv Hc Hr Hk Hcv Hro Hfuel Hp.
  destruct (chain_elem l_link _ _ _ _ (ix_leaves _ _ (tr_index _ _ _ _ (inv_tree _ _ _ _ _ Hinv))) Hc) as [n Hn].
  eapply leaf_insert_start; [done|done|done|apply Hr|apply Hr|].
  apply list_elem_of_split in Hc as (A1 & A2 & ->). by apply insert_current.
Qed.

Lemma relock_Ok s c n :
  tables (mem s) !! l_fp c = Some (l_tbl c) → leaf_ok c n →
  unlock_table (l_fp c) LeafNodeCapacity (with_table s c (locked (l_tbl c))) = Ok (tt, s).
Proof.
  intros Et Hn. etrans; [apply (unlock_table_Ok _ _ (l_tbl c)); [by apply lookup_insert_eq| |apply (lo_table _ _ Hn)]|].
  - apply (tr_length _ _ _ (leaf_full_le _ _ Hn) (lo_table _ _ Hn)).
  - do 2 f_equal. etrans; [|by apply (with_table_same s c)]. unfold with_table, set_tables. cbn. by rewrite insert_insert_eq.
Qed.

Lemma leaf_insert_spec lv levels waste s fuel r fc sync k v v0 :
  key_num k < key_num KeyMax → inv lv levels waste s → rec_ok lv k r → combines s k v →
  roomy lv levels waste → fueled levels fuel → path_ok fc k levels (path (srv s)) →
  wp (leaf_insert uninit (S (S fuel)) (Rec.addr r) r fc sync k v0) s (λ _ s', wrote lv levels waste s k v s').
Proof.
  intros Hmax Hinv (Hcap & c & Hc & Ha & Hf & _ & Hcov) Hcv Hro Hfuel Hp. pose proof (inv_tree _ _ _ _ _ Hinv) as Ht.
  assert (fueled levels (S fuel)) as Hfuel' by (unfold fueled in *; lia).
  destruct (decide (Rec.version r = l_ver c)) as [Ev|Hne]; [by eapply leaf_insert_fresh; [..|apply Hcov| | | |]|].
  destruct (chain_elem l_link _ _ _ _ (ix_leaves _ _ (tr_index _ _ _ _ Ht)) Hc) as [n Hn].
  destruct (tr_leaves _ _ _ _ Ht c Hc) as [_ Et].
  eapply leaf_insert_start; [done..|]. unfold insert_locked, FPTable.get_version. cbn [FPTable.version locked].
  rewrite (tr_version _ _ _ (lo_table _ _ Hn)), (proj2 (Z.eqb_neq _ _)) by done. cbn [negb]. rewrite <- Hf, Hcap.
  eapply wp_eq; [by eapply relock_Ok|]. eapply wp_seq; [by eapply relocate_spec|].
  intros [[r' fc'] sync'] s1 ((c' & Hc' & -> & Hk') & Hinv1 & Hkp & Hp1).
  eapply wp_mono; [eapply leaf_insert_fresh; try done|].
  - intros v'. rewrite (kp_locks _ _ Hkp). apply Hcv.
  - intros [] s'. by apply wrote_keeps.
Qed.

End write.
