(* ===== verification/TreeScan.v ===== *)
(** * Scanning the leaves ([leaf_scan] of [SkipVectorDM.cc])

    A scan walks the chain of the leaves from the one of its first key. *)

From S2P Require Import Prelude KVConfig RdmaConfig Hash LeafNode InnerTree LocalLockTable DMCache Tree TreeChain TreeLeaf TreeInner TreeFind TreeGrow TreeInsert TreeOps.
Open Scope Z_scope.

Import SkipVectorDM.

(** ** What a scan gathers *)

Definition in_scan (from : Key) (c : lcell) : list EntryPos :=
  filter (λ p, key_geb (ep_key p) from = true) (l_kvs c).

Fixpoint scan_leaves (from to : Key) (len : Z) (L : list lcell) : list EntryPos :=
  match L with
  | [] => []
  | c :: L =>
      if (len <=? 0) || key_ltb to (l_min c) then []
      else in_scan from c ++ scan_leaves from to (len - Z.of_nat (length (in_scan from c))) L
  end.

Section scan.
Context {CH : CityHash} {A : Type} `{!Allocator A, !AllocatorSpec A} (uninit : Gaddr) (all_nodes : Z).
Implicit Types (s : @st A) (lv L : list lcell) (levels : list (list icell)) (waste : list Gaddr) (from to k : Key) (c : lcell).
Abbreviation inv := (inv all_nodes).

(** The pairs of a part of the chain are those of the map in its range. *)
Lemma in_scan_elem from c p : p ∈ in_scan from c ↔ p ∈ l_kvs c ∧ key_num from ≤ key_num (ep_key p).
Proof. unfold in_scan. rewrite list_elem_of_filter, key_geb_num, Z.leb_le. naive_solver. Qed.

Lemma scan_leaves_range from to len L nxt :
  chain l_link leaf_ok L nxt →
  ∃ L1 L2, L = L1 ++ L2 ∧ scan_leaves from to len L = concat (in_scan from <$> L1) ∧
    (L2 = [] ∨ len ≤ Z.of_nat (length (scan_leaves from to len L)) ∨ ∃ c L', L2 = c :: L' ∧ key_num to < key_num (l_min c)).
Proof.
  revert len. induction L as [|c L IH]; intros len Hch; [by exists [], []; auto|]. cbn.
  destruct (Z.leb_spec len 0); cbn.
  { exists [], (c :: L). split_and!; [done|done|]. cbn. right. left. lia. }
  rewrite key_ltb_num. destruct (Z.ltb_spec (key_num to) (key_num (l_min c))).
  { exists [], (c :: L). split_and!; [done|done|]. right. right. by exists c, L. }
  destruct (IH (len - Z.of_nat (length (in_scan from c))) (proj2 Hch)) as (L1 & L2 & -> & E & Hend).
  exists (c :: L1), L2. split; [done|]. split; [by rewrite E|]. rewrite length_app.
  destruct Hend as [?|[?|?]]; [by left|right; left; lia|by right; right].
Qed.

(** What a scan promises: the pairs of the map from [from] up to some bound,
    which is past [to] unless [len] pairs were found. *)
Definition scanned (m : gmap Key Value) from to (len : Z) (res : list EntryPos) : Prop :=
  NoDup (ep_key <$> res) ∧ ∃ hi,
    (∀ k v, MkEntryPos k v ∈ res ↔ m !! k = Some v ∧ key_num from ≤ key_num k < hi) ∧
    (hi = key_num KeyMax ∨ key_num to < hi ∨ len ≤ Z.of_nat (length res)).

Lemma chain_keys L nxt : chain l_link leaf_ok L nxt → NoDup (ep_key <$> concat (l_kvs <$> L)).
Proof.
  induction L as [|c L IH]; intros Hch; [constructor|]. pose proof (chain_place l_link l_hi _ leaf_ranged [] c L nxt Hch) as (_ & _ & _ & Hr).
  destruct Hch as [Hn Hch]. cbn. rewrite fmap_app. apply NoDup_app. split_and!; [apply Hn| |by apply IH].
  intros k (p & -> & Hp)%list_elem_of_fmap (q & E & Hq)%list_elem_of_fmap.
  apply elem_of_concat in Hq as (l & Hq & (d & -> & Hd)%list_elem_of_fmap).
  destruct (chain_elem l_link _ _ _ _ Hch Hd) as [n' Hn']. pose proof (lo_keys _ _ Hn) as H1. pose proof (lo_keys _ _ Hn') as H2.
  rewrite Forall_forall in H1, H2. specialize (H1 p Hp) as [_ H1]. specialize (H2 q Hq) as [H2 _]. specialize (Hr d Hd).
  rewrite E in H1. lia.
Qed.

Lemma contents_elem lv k v : leaf_chain lv → contents lv !! k = Some v ↔ ∃ d, d ∈ lv ∧ MkEntryPos k v ∈ l_kvs d.
Proof.
  intros Hch. unfold contents. rewrite kv_map_lookup by (by eapply chain_keys). rewrite elem_of_concat. split.
  - intros (l & Hp & (d & -> & Hd)%list_elem_of_fmap). eauto.
  - intros (d & Hd & Hp). eexists. split; [done|]. by apply list_elem_of_fmap_2.
Qed.

Lemma concat_in_scan from L : concat (in_scan from <$> L) = filter (λ p, key_geb (ep_key p) from = true) (concat (l_kvs <$> L)).
Proof. induction L as [|c L IH]; [done|]. cbn. by rewrite filter_app, IH. Qed.

Lemma scanned_empty m from to len : len ≤ 0 ∨ key_num to < key_num from → scanned m from to len [].
Proof.
  intros H. split; [constructor|]. exists (key_num from). split; [|cbn; lia]. intros k v. rewrite elem_of_nil. split; [done|lia].
Qed.

Lemma scan_leaves_scanned P c L from to len :
  leaf_chain (P ++ c :: L) → leaf_covers c from → scanned (contents (P ++ c :: L)) from to len (scan_leaves from to len (c :: L)).
Proof.
  intros Hch [Hf1 Hf2]. pose proof (proj1 (chain_app l_link _ _ _ _) Hch) as [_ HchL].
  destruct (scan_leaves_range from to len (c :: L) None HchL) as (L1 & L2 & EL & Eres & Hend).
  destruct L1 as [|c' L1].
  { cbn in EL. rewrite Eres in Hend |- *. cbn in Hend |- *. apply scanned_empty. destruct Hend as [->|[?|(c' & L' & -> & Hto)]]; [done|by left|].
    injection EL as -> ->. change (key_num (l_min c')) with (lo l_link c') in Hto. lia. }
  injection EL as <- ->. rewrite concat_in_scan in Eres. rewrite Eres in Hend |- *. clear Eres. set (res := filter _ _) in *.
  pose proof (chain_place l_link l_hi _ leaf_ranged _ _ _ _ Hch) as (_ & _ & HP & _).
  change (P ++ c :: L1 ++ L2) with (P ++ (c :: L1) ++ L2) in Hch. rewrite app_assoc in Hch.
  pose proof (chain_cut l_link l_hi _ leaf_ranged _ _ _ Hch) as [Hc1 Hc2].
  rewrite <- app_assoc in Hch. pose proof (chain_keys _ _ Hch) as Hd. cbn [app] in Hch.
  split.
  - rewrite !fmap_app, !concat_app, !fmap_app in Hd. apply NoDup_app in Hd as (_ & _ & Hd). apply NoDup_app in Hd as (Hd & _).
    unfold res. clear -Hd. induction (concat _) as [|p l IH]; [constructor|].
    cbn in Hd. apply NoDup_cons in Hd as [Hn Hd]. rewrite filter_cons. case_decide; [|by apply IH]. cbn. constructor; [|by apply IH].
    intros (q & E & [_ Hq]%list_elem_of_filter)%list_elem_of_fmap. apply Hn. rewrite E. by apply list_elem_of_fmap_2.
  - exists (limit (first l_link L2 None)). split.
    + intros k v. rewrite (contents_elem _ _ _ Hch). unfold res. rewrite list_elem_of_filter, key_geb_num, Z.leb_le, elem_of_concat. cbn [ep_key]. split.
      * intros (Hk & l & Hp & (d & -> & Hd')%list_elem_of_fmap). destruct (chain_elem l_link _ _ _ d Hch) as [n Hn]; [set_solver|].
        split; [exists d; split; [set_solver|done]|]. pose proof (lo_keys _ _ Hn) as Hr. rewrite Forall_forall in Hr. specialize (Hr _ Hp) as [_ Hr].
        cbn in Hr. specialize (Hc1 d ltac:(set_solver)). lia.
      * intros ((d & Hd' & Hp) & Hk1 & Hk2). split; [done|]. exists (l_kvs d). split; [done|]. apply list_elem_of_fmap_2.
        destruct (chain_elem l_link _ _ _ d Hch Hd') as [n Hn]. pose proof (lo_keys _ _ Hn) as Hr. rewrite Forall_forall in Hr.
        specialize (Hr _ Hp) as [Hr1 Hr2]. cbn in Hr1, Hr2. apply elem_of_app in Hd' as [Hd'|Hd']; [specialize (HP d Hd'); lia|].
        change (c :: L1 ++ L2) with ((c :: L1) ++ L2) in Hd'. apply elem_of_app in Hd' as [Hd'|Hd']; [done|specialize (Hc2 d Hd'); lia].
    + destruct Hend as [->|[?|(d & L' & -> & Hto)]]; [by left|by right; right|right; left; done].
Qed.

(** ** One leaf *)

Lemma entry_num_rep ver kvs t : table_rep ver kvs t → FPTable.get_entry_num t = Z.of_nat (length kvs).
Proof.
  intros [_ H _]. unfold FPTable.get_entry_num. rewrite H, countb_app, countb_all, countb_none, length_fmap; [lia|..].
  - by apply Forall_replicate.
  - apply Forall_fmap, Forall_true. intros p. unfold compose, FPTable.fp_used. pose proof (cal_key_fp_byte (ep_key p)).
    destruct (Z.eqb_spec (LeafNode.cal_key_fp (ep_key p)) 0); [lia|done].
Qed.

(** Every entry of a block has the version of the leaf. *)
Lemma er_versions ver kvs es e : entries_rep ver kvs es → e ∈ es → Entry.get_version e = ver.
Proof. intros H [i Hi]%list_elem_of_lookup. by destruct (er_slot _ _ _ _ _ H Hi) as [E _]. Qed.

Lemma read_table_Ok s c n num :
  leaves (mem s) !! l_addr c = Some (l_blk c) → leaf_ok c n →
  read_table (l_addr c) LeafNodeCapacity num s = Ok ((true, l_blk c), s).
Proof.
  intros Eb Hn. unfold read_table. etrans; [eapply M_bind_eq, read_leaf_Ok; [exact Eb|]|].
  { by rewrite (er_length _ _ _ (lo_entries _ _ Hn)). }
  cbv beta. set (es := take _ _). assert (∀ e, e ∈ es → Entry.get_version e = l_ver c) as Hv.
  { intros e (i & Hi & _)%elem_of_take. eapply er_versions; [apply (lo_entries _ _ Hn)|by eapply list_elem_of_lookup_2]. }
  assert (forallb Entry.check_consistent es = true) as -> by (by apply forallb_forall).
  destruct es as [|e es]; [done|]. 
  assert (forallb (λ x, Entry.get_version e =? Entry.get_version x) es = true) as ->; [|done].
  apply forallb_forall. intros x Hx%list_elem_of_In. rewrite (Hv e), (Hv x) by (by constructor). by rewrite Z.eqb_refl.
Qed.

Lemma found_rep from c n :
  leaf_ok c n →
  EntryPos_of <$> filter (λ e, Entry.valid e = 1 ∧ key_geb (Entry.key e) from = true)
    (take (Z.to_nat (FPTable.get_entry_num (l_tbl c))) (l_entries (l_blk c))) = in_scan from c.
Proof.
  intros Hn. rewrite (entry_num_rep _ _ _ (lo_table _ _ Hn)), Nat2Z.id, (er_live _ _ _ (lo_entries _ _ Hn)).
  unfold in_scan. clear. induction (l_kvs c) as [|p kvs IH]; [done|]. rewrite fmap_cons, !filter_cons.
  destruct (decide (key_geb (ep_key p) from = true)) as [E|E]; case_decide as D; cbn in D; try naive_solver.
  rewrite fmap_cons, IH. by destruct p.
Qed.

Lemma leaf_scan_S fuel addr r fc sync head from to len :
  leaf_scan (A := A) (S fuel) addr r fc sync head from to len =
    (if gaddr_eqb addr Gaddr_Null || (len <=? 0) then mret []
     else
       lift (LeafNode.attach_node (Rec.capacity r));;
       in_page (leaf_and_table (Rec.capacity r));;
       fp_table ← fetch_table (Rec.fp_addr r) (Rec.capacity r);
       let again := '(r, fc, sync) ← relocate fuel false from fc sync;
         leaf_scan fuel (Rec.addr r) r fc sync head from to len in
       if negb (FPTable.check_consistent fp_table) then leaf_scan fuel addr r fc sync head from to len
       else if head && negb (FPTable.get_version fp_table =? Rec.version r) then again
       else
         let entry_num := FPTable.get_entry_num fp_table in
         '(ok, b) ← read_table addr (Rec.capacity r) entry_num;
         if negb ok then lift (Err OutOfFuel)
         else if head && negb (LeafHeader.version (l_hdr b) =? Rec.version r) then again
         else
           assert (Rec.capacity r =? LeafHeader.capacity (l_hdr b));;
           if key_ltb to (LeafHeader.min_key (l_hdr b)) then mret []
           else
             let found := EntryPos_of <$> filter (λ e, Entry.valid e = 1 ∧ key_geb (Entry.key e) from = true)
               (take (Z.to_nat entry_num) (l_entries b)) in
             let right := LeafHeader.right_addr (l_hdr b) in
             if gaddr_eqb right Gaddr_Null then mret found
             else
               let r := Rec.Mk (Rec.valid r) (Rec.version r) (Rec.key r) (Rec.addr r)
                          (LeafHeader.right_fp_addr (l_hdr b)) (LeafHeader.right_capacity (l_hdr b)) in
               more ← leaf_scan fuel right r fc sync false from to (len - Z.of_nat (length found));
               mret (found ++ more)).
Proof. done. Qed.

(** A visit of a leaf whose record is up to date. *)
Lemma leaf_scan_visit lv levels waste s c n fuel r fc sync head from to len :
  tree lv levels waste (mem s) → c ∈ lv → leaf_ok c n → (∀ l, n = Some l → k_addr l ≠ Gaddr_Null) →
  Rec.fp_addr r = l_fp c → Rec.capacity r = LeafNodeCapacity → (head = true → Rec.version r = l_ver c) → 0 < len →
  leaf_scan (S fuel) (l_addr c) r fc sync head from to len s =
    (if key_ltb to (l_min c) then mret []
     else match n with
          | None => mret (in_scan from c)
          | Some l =>
              more ← leaf_scan fuel (k_addr l) (Rec.Mk (Rec.valid r) (Rec.version r) (Rec.key r) (Rec.addr r) (k_fp l) LeafNodeCapacity)
                fc sync false from to (len - Z.of_nat (length (in_scan from c)));
              mret (in_scan from c ++ more)
          end) s.
Proof.
  intros Ht Hc Hn Hnull Hf Hcap Hhead Hlen. destruct (tr_leaves _ _ _ _ Ht c Hc) as [Eb _].
  destruct (tree_NoDup _ _ _ _ Ht) as (_ & _ & Hnull'). rewrite leaf_scan_S.
  rewrite (proj2 (gaddr_eqb_neq _ _)), (proj2 (Z.leb_gt _ _)) by (done || by apply Hnull'). cbn [orb].
  rewrite Hf, Hcap. etrans; [by eapply M_bind_eq|]. etrans; [by eapply M_bind_eq|].
  etrans; [eapply M_bind_eq; by eapply fetch_table_Ok|]. cbv beta zeta.
  rewrite (lo_consistent _ _ Hn). cbn [negb]. unfold FPTable.get_version. rewrite (tr_version _ _ _ (lo_table _ _ Hn)).
  assert (head && negb (l_ver c =? Rec.version r) = false) as Hh.
  { destruct head; [|done]. rewrite Hhead by done. by rewrite Z.eqb_refl. }
  rewrite Hh. etrans; [eapply M_bind_eq; by eapply read_table_Ok|]. cbv beta. cbn [negb].
  change (LeafHeader.version (l_hdr (l_blk c))) with (l_ver c). rewrite Hh, (lo_capacity _ _ Hn).
  etrans; [by eapply M_bind_eq|]. cbv beta. change (LeafHeader.min_key (l_hdr (l_blk c))) with (l_min c).
  destruct (key_ltb to (l_min c)); [done|]. rewrite (found_rep _ _ _ Hn). pose proof (lo_right _ _ Hn) as Hright.
  destruct n as [l|]; [|by rewrite Hright]. destruct Hright as (-> & -> & ->).
  by rewrite (proj2 (gaddr_eqb_neq _ _)) by (by apply Hnull).
Qed.

(** The walk along the chain. *)
Lemma leaf_scan_walk lv levels waste s fc sync from to L :
  tree lv levels waste (mem s) → ∀ L1 c fuel r head len,
  lv = L1 ++ c :: L → Rec.fp_addr r = l_fp c → Rec.capacity r = LeafNodeCapacity → (head = true → Rec.version r = l_ver c) →
  (length L < fuel)%nat →
  leaf_scan fuel (l_addr c) r fc sync head from to len s = Ok (scan_leaves from to len (c :: L), s).
Proof.
  intros Ht. destruct (tree_NoDup _ _ _ _ Ht) as (_ & _ & Hnull).
  induction L as [|d L IH]; intros L1 c fuel r head len E Hf Hcap Hhead Hfuel; (destruct fuel as [|fuel]; [lia|]).
  all: assert (c ∈ lv) as Hc by (rewrite E; apply elem_of_app; right; left).
  all: pose proof (ix_leaves _ _ (tr_index _ _ _ _ Ht)) as Hch; rewrite E in Hch; apply chain_middle in Hch as (_ & Hn & _).
  all: cbn [scan_leaves]; destruct (Z.leb_spec len 0) as [?|Hlen]; cbn [orb].
  1,3: rewrite leaf_scan_S, (proj2 (Z.leb_le _ _)), orb_true_r by done; done.
  - rewrite (leaf_scan_visit lv levels waste s c None); try done. destruct (key_ltb _ _); [done|]. by rewrite app_nil_r.
  - assert (d ∈ lv) as Hd by (rewrite E; apply elem_of_app; right; right; left).
    rewrite (leaf_scan_visit lv levels waste s c (Some (l_link d))); try done; [|intros ? [= <-]; by apply Hnull].
    destruct (key_ltb _ _); [done|]. cbn in Hfuel.
    etrans; [eapply M_bind_eq, (IH (L1 ++ [c])); try done; [by rewrite E, <- app_assoc|lia]|]. done.
Qed.

(** ** [scan] *)

Definition scans lv levels waste s from to len (res : list EntryPos) s' : Prop :=
  scanned (contents lv) from to len res ∧ inv lv levels waste s' ∧ keeps s s'.

Lemma leaf_scan_fresh lv levels waste s fuel c r fc sync from to len :
  inv lv levels waste s → c ∈ lv → current c r → leaf_covers c from → (length lv ≤ fuel)%nat →
  wp (leaf_scan fuel (Rec.addr r) r fc sync true from to len) s (scans lv levels waste s from to len).
Proof.
  intros Hinv Hc (Ha & Hf & Hcap & Hv) Hk Hfuel. pose proof (inv_tree _ _ _ _ _ Hinv) as Ht.
  apply list_elem_of_split in Hc as (P & L & E). rewrite Ha. unfold wp.
  rewrite (leaf_scan_walk lv levels waste s fc sync from to L Ht P c); try done.
  - split; [|done]. pose proof (ix_leaves _ _ (tr_index _ _ _ _ Ht)) as Hch. rewrite E in Hch |- *. by apply scan_leaves_scanned.
  - rewrite E, length_app in Hfuel. cbn in Hfuel. lia.
Qed.

Lemma leaf_scan_spec lv levels waste s fuel r fc sync from to len :
  key_num from < key_num KeyMax → inv lv levels waste s → rec_ok lv from r → fueled levels fuel → (length lv ≤ fuel)%nat →
  path_ok fc from levels (path (srv s)) →
  wp (leaf_scan (S fuel) (Rec.addr r) r fc sync true from to len) s (scans lv levels waste s from to len).
Proof.
  intros Hmax Hinv (Hcap & c & Hc & Ha & Hf & _ & Hcov) Hfuel Hfuel' Hp.
  destruct (decide (Rec.version r = l_ver c)) as [Ev|Hne]; [by eapply leaf_scan_fresh; [..|apply Hcov|lia]|].
  pose proof (inv_tree _ _ _ _ _ Hinv) as Ht. destruct (tree_NoDup _ _ _ _ Ht) as (_ & _ & Hnull). destruct (Hnull c Hc) as [Hnull' _].
  rewrite leaf_scan_S, (proj2 (gaddr_eqb_neq _ _)) by congruence. cbn [orb].
  destruct (Z.leb_spec len 0) as [Hlen|_]; [apply wp_ret; split; [apply scanned_empty; by left|done]|].
  destruct (chain_elem l_link _ _ _ _ (ix_leaves _ _ (tr_index _ _ _ _ Ht)) Hc) as [n Hn].
  rewrite Hcap, <- Hf. eapply wp_lift; [done|]. eapply wp_lift; [done|]. eapply wp_eq; [by eapply fetch_table_Ok|].
  cbv zeta. rewrite (lo_consistent _ _ Hn). cbn [negb andb]. unfold FPTable.get_version.
  rewrite (tr_version _ _ _ (lo_table _ _ Hn)), (proj2 (Z.eqb_neq _ _)) by congruence. cbn [negb].
  eapply wp_seq; [by eapply relocate_spec|]. intros [[r' fc'] sync'] s1 ((c' & Hc' & -> & Hk') & Hinv1 & Hkp & _).
  eapply wp_mono; [by eapply (leaf_scan_fresh lv levels waste s1 fuel c')|].
  intros res s' (H1 & H2 & H3). split; [done|]. split; [done|by etrans].
Qed.

Lemma scan_spec lv levels waste s fuel from to len :
  key_num from < key_num KeyMax → inv lv levels waste s → fueled levels fuel → (length lv ≤ fuel)%nat →
  wp (scan uninit (S fuel) from to len) s (scans lv levels waste s from to len).
Proof.
  intros Hmax Hinv Hfuel Hfuel'. unfold scan. eapply wp_seq; [eapply (locate_spec uninit all_nodes lv levels waste s (S fuel) from); try done; unfold fueled in *; lia|].
  intros [r fc] s1 (Hr & Hinv1 & Hkp & Hp). eapply wp_mono; [by eapply leaf_scan_spec|].
  intros res s' (H1 & H2 & H3). split; [done|]. split; [done|by etrans].
Qed.

End scan.
