(* ===== verification/TreeBoot.v ===== *)
(** * Starting the index ([SkipVectorDM::SkipVectorDM], [init_root_node])

    The first server that starts creates an index with one empty leaf under one
    root; the others find it, and drop the block they allocated for the root. *)

From S2P Require Import Prelude KVConfig RdmaConfig Hash LeafNode InnerTree LocalLockTable DMCache Tree TreeChain TreeLeaf TreeInner TreeFind TreeGrow TreeInsert TreeOps.
Open Scope Z_scope.

Import SkipVectorDM.

Section boot.
Context {CH : CityHash} {A : Type} `{!Allocator A, !AllocatorSpec A} (uninit : Gaddr) (all_nodes : Z).
Implicit Types (s : @st A) (sv : server) (lv : list lcell) (levels : list (list icell)) (waste : list Gaddr).
Abbreviation inv := (inv all_nodes).

(** No thread of the server is in the local lock table. *)
Definition quiet sv : Prop := ∀ i, quiescent (local_locks sv i).

(** A server before [init_root_node]. *)
Record fresh sv : Prop := {
  fr_cache : DMCache.wf (λ _, False) (λ _ _, False) (dmcache sv);
  fr_nodes : DMCache.all_node_num (dmcache sv) = all_nodes;
  fr_root : local_root_addr sv = Gaddr_Null;
  fr_id : is_server (my_id sv);
  fr_quiet : quiet sv }.

Lemma fresh_ok lv levels sv : fresh sv → server_ok all_nodes lv levels sv.
Proof. intros [H1 H2 H3 _ _]. constructor; [|done|by left]. by eapply DMCache.wf_mono; [..|exact H1]. Qed.

(** Memory before any server started. *)
Definition blank (al : A) : shared A := MkShared ∅ ∅ ∅ Gaddr_Null 0 al.

(** ** The first server *)

Definition first_leaf (a f : Gaddr) : lcell :=
  LCell a f (MkLeaf (LeafHeader.Mk KeyMax KeyNull LeafNodeCapacity 0 Gaddr_Null uninit 0)
               (replicate (Z.to_nat LeafNodeCapacity) (Entry.set_consistent Entry.zero)))
    (FPTable.set_consistent (FPTable.zero LeafNodeCapacity)) [].

Lemma first_leaf_ok a f : leaf_ok (first_leaf a f) None.
Proof.
  constructor; try done.
  - apply zero_entries.
  - apply FPTable.table_consistent.
  - constructor.
Qed.

(** The root with the record of the first leaf. *)
Lemma first_root c :
  l_min c = KeyNull → l_ver c = 0 →
  let r := leaf_rec c in
  ∃ n, InnerNode.insert (InnerNode.set_hdr InnerNode.zero (InnerHeader.Mk KeyMax KeyNull uninit true true)) r = Ok (true, n) ∧
    InnerNode.lock n = 0 ∧ ∀ g, inner_ok true true (ICell g n [r]) None ∧ i_min (ICell g n [r]) = KeyNull.
Proof.
  intros Hmin Hver r. set (h := InnerHeader.Mk KeyMax KeyNull uninit true true).
  set (n0 := InnerNode.set_hdr InnerNode.zero h).
  assert (InnerNode.node_rep n0 []) as H0.
  { constructor; [done|done|done|by apply Forall_replicate|constructor]. }
  destruct (InnerNode.insert_absent n0 [] r H0 eq_refl) as (n & E & Hh & Hl & H1); [apply not_elem_of_nil|unfold InnerNodeCapacity; cbn; lia|].
  exists (InnerNode.set_consistent n). split; [done|]. split; [cbn; by rewrite Hl|]. intros g.
  assert (InnerNode.hdr n = h) as Hh' by done. split; [|unfold i_min; cbn; by rewrite Hh'].
  constructor; unfold i_min, i_max; cbn [i_node i_live InnerNode.hdr InnerNode.set_consistent]; rewrite ?Hh'; try done.
  - by apply InnerNode.node_rep_set_consistent.
  - exists r. split; [done|]. exact Hmin.
  - cbn [h InnerHeader.min_key InnerHeader.max_key]. repeat constructor; unfold Rec.num; change (Rec.key r) with (l_min c); by rewrite Hmin.
  - apply InnerNode.node_consistent.
Qed.

(** One leaf under one root. *)
Lemma first_index_ok c d :
  leaf_ok c None → l_min c = KeyNull → inner_ok true true d None → i_live d = [leaf_rec c] → i_min d = KeyNull →
  index_ok [c] [[d]].
Proof.
  intros Hc Hmin Hd El Hdm. constructor.
  - by split.
  - split; [constructor; [by split|cbn; by rewrite Hdm|done]|]. unfold recs. cbn. by rewrite El.
  - intros L [= <-]. unfold recs. cbn. by rewrite El.
Qed.

Lemma first_tree al c d :
  index_ok [c] [[d]] → InnerNode.lock (i_node d) = 0 → alloc_inv al [leaf_span (l_addr c); inner_span (i_addr d)] [l_fp c] → l_ver c = 0 →
  length (FPTable.fp (l_tbl c)) = cap →
  tree [c] [[d]] [] (MkShared {[i_addr d := i_node d]} {[l_addr c := l_blk c]} {[l_fp c := l_tbl c]} (i_addr d) 0 al).
Proof.
  intros Hix Hlk Hal Hv Hl. constructor; cbn; try done.
  - constructor; cbn.
    + intros e He. apply list_elem_of_singleton in He as ->. by rewrite lookup_singleton_eq.
    + by exists d.
    + intros e He E. apply list_elem_of_singleton in He as ->. apply alloc_blocks in Hal as [_ Hn]. apply Hn. rewrite E. right. left.
  - intros e He. apply list_elem_of_singleton in He as ->. by rewrite !lookup_singleton_eq.
  - by intros a t [_ <-]%lookup_singleton_Some.
  - intros a t [<- _]%lookup_singleton_Some. apply alloc_nodes in Hal as [_ Hn]. apply Forall_cons in Hn as [Hn _].
    split; [apply Hn|]. exists c. split; [left|done].
  - eexists _, _. split; [exact Hal|]. split; [apply Permutation_swap|done].
  - intros e He. apply list_elem_of_singleton in He as ->. lia.
Qed.

Lemma init_first al sv :
  fresh sv → alloc_inv al [] [] → (2 ≤ max_blocks)%nat → (1 ≤ max_tables)%nat →
  wp (init_root_node uninit) (Mk (blank al) sv) (λ _ s', ∃ c d,
    inv [c] [[d]] [] s' ∧ l_kvs c = [] ∧ same (Mk (blank al) sv) s').
Proof.
  intros Hsv Hal Hmb Hmt. pose proof (fr_id _ Hsv) as Hid.
  destruct (memory_alloc_ok al [] [] (my_id sv) InnerNode.size_of Hal Hid) as (ra & al1 & E1 & Hal1); [cbn; lia|by left|].
  destruct (memory_alloc_ok al1 _ _ (my_id sv) (LeafNode.cur_node_size LeafNodeCapacity) Hal1 Hid) as (la & al2 & E2 & Hal2); [cbn; lia|by right|].
  destruct (compute_alloc_ok al2 _ _ (my_id sv) Hal2 Hid) as (fa & al3 & E3 & Hal3); [cbn; lia|].
  set (c := first_leaf la fa). destruct (first_root c eq_refl eq_refl) as (n & En & Hlk & Hn). set (d := ICell ra n [leaf_rec c]).
  pose proof (first_index_ok c d (first_leaf_ok la fa) eq_refl (proj1 (Hn ra)) eq_refl (proj2 (Hn ra))) as Hix.
  unfold init_root_node. eapply wp_eq; [by apply alloc_Ok|]. apply wp_get. cbn [set_allocs mem root_ptr blank].
  change (negb (gaddr_val Gaddr_Null =? 0)) with false. cbv iota. apply wp_modify.
  eapply wp_eq; [by apply alloc_Ok|]. eapply wp_eq; [by apply alloc_Ok|]. cbv zeta.
  do 2 apply wp_modify. eapply wp_lift; [exact En|]. apply wp_modify.
  set (s := set_inners _ _).
  assert (mem s = MkShared {[ra := n]} {[la := l_blk c]} {[fa := l_tbl c]} ra 0 al3) as Em by done.
  assert (server_ok all_nodes [c] [[d]] (srv s)) as Hok by (by apply fresh_ok).
  destruct (DMCache.insert_cache_spec (good [c]) (home [[d]]) (dmcache (srv s)) (Rec.set_addr (leaf_rec c) ra) n)
    as (b & c' & Ec & Hw & _ & Hnum & _).
  { apply Hok. }
  { by apply (bottom_good [c] [[d]] [d] d Hix); [|left]. }
  { symmetry. apply (Hn ra). }
  { exists [d], d. split; [done|]. split; [left|]. split; [apply (Hn ra)|done]. }
  apply wp_bind. eapply wp_cached; [exact Ec|]. apply wp_ret. exists c, d. split; [|done].
  destruct Hok as [_ Hok2 Hok3]. constructor; [|constructor; [done|cbn; congruence|done]|done].
  change (mem (set_cache s c')) with (mem s). rewrite Em. by apply (first_tree al3 c d).
Qed.

(** ** The other servers *)

Lemma tree_waste lv levels waste m a al ms ts :
  tree lv levels waste m → alloc_inv al (inner_span a :: ms) ts →
  ms ≡ₚ block_spans lv levels waste → ts ≡ₚ l_fp <$> lv →
  tree lv levels (a :: waste) (MkShared (inners m) (leaves m) (tables m) (root_ptr m) (glock m) al).
Proof.
  intros [H1 [] H3 H4 H5 H6 _ H7] Hal Hms Hts. constructor; try done. exists (inner_span a :: ms), ts. split; [done|].
  split; [|done]. rewrite Hms. unfold block_spans. rewrite fmap_cons. solve_Permutation.
Qed.

Lemma init_later lv levels waste m sv :
  tree lv levels waste m → fresh sv → (length (concat levels) + length lv + length waste < max_blocks)%nat →
  wp (init_root_node uninit) (Mk m sv) (λ _ s', ∃ a, inv lv levels (a :: waste) s' ∧ srv s' = sv).
Proof.
  intros Ht Hsv Hroom. destruct (tr_alloc _ _ _ _ Ht) as (ms & ts & Hal & Hms & Hts).
  destruct (memory_alloc_ok _ _ _ (my_id sv) InnerNode.size_of Hal) as (a & al & E & Hal'); [by apply Hsv| |by left|].
  { by rewrite Hms, length_block_spans. }
  unfold init_root_node. eapply wp_eq; [by apply alloc_Ok|]. apply wp_get. cbn [set_allocs mem root_ptr].
  assert (gaddr_val (root_ptr m) ≠ 0) as Hroot.
  { destruct (im_root _ _ (tr_inner _ _ _ _ Ht)) as (c & Hc & ->). apply alloc_addrs in Hal as [_ Hn].
    rewrite Forall_forall in Hn. apply Hn. rewrite Hms, block_spans_addrs. apply elem_of_app. left. apply list_elem_of_fmap_2.
    apply elem_of_concat. exists [c]. split; [left|by eapply list_elem_of_lookup_2]. }
  rewrite (proj2 (Z.eqb_neq _ _)) by done. apply wp_ret. exists a. split; [|done].
  constructor; [by eapply tree_waste|by apply fresh_ok|apply Hsv].
Qed.

End boot.
