(* ===== verification/TreeRefine.v ===== *)
(** * The index as a map ([SkipVectorDM::read], [write], [scan])

    The public operations run between the local locks of a server; servers take
    turns.  Every run of the index is a run of a map. *)

From S2P Require Import Prelude KVConfig RdmaConfig Hash LeafNode InnerTree LocalLockTable DMCache Tree TreeChain TreeLeaf TreeInner TreeFind TreeGrow TreeInsert TreeOps TreeWrite TreeScan TreeBoot.
Open Scope Z_scope.

Import SkipVectorDM.

Section operations.
Context {CH : CityHash} {A : Type} `{!Allocator A, !AllocatorSpec A} (uninit : Gaddr) (stack : list Z) (all_nodes : Z).
Implicit Types (s : @st A) (sv : server) (lv : list lcell) (levels : list (list icell)) (waste : list Gaddr) (k : Key).
Abbreviation inv := (inv all_nodes).

(** ** The local locks around an operation *)

Lemma inv_set_lock lv levels waste s i n : inv lv levels waste s → inv lv levels waste (set_lock s i n).
Proof. intros [H1 [] H3]. by constructor. Qed.

Lemma quiet_set_lock s s0 i n :
  quiet (srv s0) → (∀ j, j ≠ i → local_locks (srv s) j = local_locks (srv s0) j) → quiescent n → quiet (srv (set_lock s i n)).
Proof. intros Hq He Hn j. cbn. destruct (Z.eqb_spec j i); [done|]. rewrite He by done. apply Hq. Qed.

Lemma acquire_read_Ok s k :
  quiet (srv s) →
  ∃ n, acquire_read k s = Ok ((false, false), set_lock s (get_hashed_lock_index k) n) ∧
    ∀ r v, (read_release n (false, false) r v).1 = (r, v) ∧ quiescent (read_release n (false, false) r v).2.
Proof.
  intros Hq. destruct (read_alone _ k (Hq (get_hashed_lock_index k))) as (n1 & n2 & E1 & Ec & E2 & Hr).
  exists n2. split; [|done]. unfold acquire_read, mbind, M_bind, get. rewrite E1, Ec, Z.eqb_refl, E2. done.
Qed.

Lemma acquire_write_Ok s k v :
  quiet (srv s) →
  ∃ n, acquire_write k v s = Ok ((false, false), set_lock s (get_hashed_lock_index k) n) ∧
    combines (set_lock s (get_hashed_lock_index k) n) k v ∧ quiescent (write_release n (false, false)).
Proof.
  intros Hq. destruct (write_alone _ k v (Hq (get_hashed_lock_index k))) as (n1 & n2 & E1 & Ec & E2 & Hv & Hr).
  exists n2. split_and!; [|intros v'; cbn; by rewrite Z.eqb_refl|done].
  unfold acquire_write, mbind, M_bind, get. rewrite E1, Ec, Z.eqb_refl, E2. done.
Qed.

(** What the operations leave of the server that ran them. *)
Record served lv levels waste s s' : Prop := {
  se_inv : inv lv levels waste s';
  se_quiet : quiet (srv s');
  se_id : my_id (srv s') = my_id (srv s) }.

Lemma read_spec lv levels waste s fuel k v0 :
  key_num k < key_num KeyMax → inv lv levels waste s → quiet (srv s) → fueled levels fuel →
  wp (read uninit stack (S (S fuel)) k v0) s (λ '(b, v) s',
    answer (contents lv) k v0 v ∧ b = (v =? ValueNull) ∧ served lv levels waste s s').
Proof.
  intros Hmax Hinv Hq Hfuel. destruct (acquire_read_Ok s k Hq) as (n & E & Hrel). set (i := get_hashed_lock_index k) in *.
  unfold read. eapply wp_eq; [exact E|]. cbn [fst snd andb].
  eapply wp_seq; [eapply (locate_spec uninit all_nodes lv levels waste); [done|by apply inv_set_lock|unfold fueled in *; lia]|].
  intros [r fc] s1 (Hr & Hinv1 & Hkp & Hp). eapply wp_seq; [by eapply leaf_search_spec|].
  intros v s2 (Ha & Hinv2 & [Hid Hlk]). rewrite (kp_id _ _ Hkp) in Hid. rewrite (kp_locks _ _ Hkp) in Hlk. cbn in Hid, Hlk.
  destruct (Hrel false v) as [Hres Hqn]. 
  assert (local_locks (srv s2) i = n) as Hn by (rewrite Hlk; by rewrite Z.eqb_refl).
  unfold release_read. fold i. apply wp_bind, wp_get. cbv zeta. rewrite Hn. destruct (read_release n (false, false) false v) as [rv n3].
  cbn in Hres, Hqn. subst rv. apply wp_modify, wp_ret, wp_ret. split; [done|]. split; [done|].
  constructor; [by apply inv_set_lock| |done]. eapply quiet_set_lock; [exact Hq| |done].
  intros j Hj. rewrite Hlk. by rewrite (proj2 (Z.eqb_neq _ _)) by done.
Qed.

Lemma write_spec lv levels waste s fuel k v :
  key_num k < key_num KeyMax → inv lv levels waste s → quiet (srv s) → roomy all_nodes lv levels waste → fueled levels fuel →
  wp (write uninit (S (S fuel)) k v) s (λ _ s', ∃ lv' levels',
    contents lv' = <[k := v]> (contents lv) ∧ served lv' levels' waste s s' ∧
    leaves_grow lv lv' ∧ levels_grow levels levels' ∧ (length lv' ≤ S (length lv))%nat).
Proof.
  intros Hmax Hinv Hq Hro Hfuel. destruct (acquire_write_Ok s k v Hq) as (n & E & Hcv & Hrel). set (i := get_hashed_lock_index k) in *.
  unfold write. eapply wp_eq; [exact E|]. cbn [fst snd andb].
  eapply wp_seq; [eapply (locate_spec uninit all_nodes lv levels waste); [done|by apply inv_set_lock|unfold fueled in *; lia]|].
  intros [r fc] s1 (Hr & Hinv1 & Hkp & Hp). eapply wp_seq; [eapply (leaf_insert_spec uninit all_nodes); try done|].
  { intros v'. rewrite (kp_locks _ _ Hkp). apply Hcv. }
  intros [] s2 (lv' & levels' & Hinv2 & Hc & [Hid Hlk] & Hg). rewrite (kp_id _ _ Hkp) in Hid. rewrite (kp_locks _ _ Hkp) in Hlk. cbn in Hid, Hlk.
  unfold release_write. exists lv', levels'. split; [done|]. split; [|done].
  constructor; [by apply inv_set_lock| |done]. eapply quiet_set_lock; [exact Hq| |].
  - intros j Hj. rewrite Hlk. by rewrite (proj2 (Z.eqb_neq _ _)) by done.
  - fold i. rewrite Hlk, Z.eqb_refl. done.
Qed.

End operations.

(** ** How many inner nodes there are *)

(** Below the top, nodes are at least half full. *)
Lemma level_half `{CityHash} bottom L : chain i_link (inner_ok false bottom) L None → (16 * length L ≤ length (recs L))%nat.
Proof.
  intros Hch. assert (∀ c, c ∈ L → 16 ≤ length (i_live c))%nat as H16.
  { intros c Hc. destruct (chain_elem i_link _ _ _ _ Hch Hc) as [n Hn]. by apply Hn. }
  clear Hch. unfold recs. induction L as [|c L IH]; cbn; [lia|]. rewrite length_app. pose proof (H16 c ltac:(left)).
  specialize (IH (λ d Hd, H16 d (list_elem_of_further _ _ _ Hd))). lia.
Qed.

Lemma tower_count `{CityHash} levels : ∀ bottom below,
  tower bottom below levels →
  (15 * length (concat levels) ≤ length below + 15)%nat ∧ (length levels ≤ length (concat levels))%nat.
Proof.
  induction levels as [|L rest IH]; intros bottom below; [done|]. intros ([Hch Hf Hs] & <- & Hrest). cbn.
  rewrite length_app. destruct rest as [|L2 rest].
  { rewrite (Hs eq_refl). cbn. lia. }
  destruct (IH _ _ Hrest) as [IH1 IH2]. rewrite length_fmap in IH1. rewrite length_fmap.
  assert (L ≠ []) as HL by (intros ->; done).
  pose proof (level_half _ _ Hch) as Hhalf. destruct L; [done|]. cbn in *. lia.
Qed.

Lemma index_count `{CityHash} lv levels n :
  index_ok lv levels → (length lv ≤ n)%nat →
  (length (concat levels) ≤ n / 15 + 1)%nat ∧ (length levels ≤ n / 15 + 1)%nat ∧
  ∀ L, levels !! 0%nat = Some L → (length L ≤ n / 15 + 1)%nat.
Proof.
  intros Hix Hn. destruct (tower_count levels _ _ (ix_tower _ _ Hix)) as [H1 H2]. rewrite length_fmap in H1.
  assert (length (concat levels) ≤ n / 15 + 1)%nat as H3.
  { pose proof (Nat.div_mod_eq n 15). pose proof (Nat.mod_upper_bound n 15 ltac:(lia)). lia. }
  split_and!; [done|lia|]. intros L HL. destruct levels; [done|]. injection HL as ->. cbn [concat] in H3. rewrite length_app in H3. lia.
Qed.

(** ** Servers in turn *)

Section system.
Context {CH : CityHash} {A : Type} `{!Allocator A, !AllocatorSpec A} (uninit : Gaddr) (stack : list Z).

(** The shared memory and the servers. *)
Record system := Sys { s_mem : shared A; s_servers : list server }.

Inductive op :=
| Read (k : Key) (v0 : Value)
| Write (k : Key) (v : Value)
| Scan (from to : Key) (len : Z).

Inductive reply :=
| Value_read (is_null : bool) (v : Value)
| Written
| Scanned (res : list EntryPos).

Definition run_op (fuel : nat) (o : op) : M (@st A) reply :=
  match o with
  | Read k v0 => '(b, v) ← read uninit stack fuel k v0; mret (Value_read b v)
  | Write k v => write uninit fuel k v;; mret Written
  | Scan from to len => res ← scan uninit fuel from to len; mret (Scanned res)
  end.

(** Server [i] runs an operation. *)
Definition turn (fuel : nat) (i : nat) (o : op) : M system reply := λ w,
  match s_servers w !! i with
  | None => Err OutOfBounds
  | Some sv =>
      match run_op fuel o (Mk (s_mem w) sv) with
      | Ok (r, s) => Ok (r, Sys (mem s) (<[i := srv s]> (s_servers w)))
      | Err e => Err e
      end
  end.

Fixpoint turns (fuel : nat) (l : list (nat * op)) : M system (list reply) :=
  match l with
  | [] => mret []
  | (i, o) :: l => r ← turn fuel i o; rs ← turns fuel l; mret (r :: rs)
  end.

(** Servers start one after the other. *)
Fixpoint start (kInnerCacheSize : Z) (junk : nat → nat → InnerNode.t) (lock_junk : nat → Z → bool * Value * Value)
    (ids : list nat) (w : system) : result system :=
  match ids with
  | [] => Ok w
  | id :: ids =>
      construct uninit kInnerCacheSize (junk id) (lock_junk id) id (s_mem w) ≫= λ s,
      start kInnerCacheSize junk lock_junk ids (Sys (mem s) (s_servers w ++ [srv s]))
  end.

(** ** The map *)

(** The replies a map may give. *)
Definition map_step (m : gmap Key Value) (o : op) (r : reply) (m' : gmap Key Value) : Prop :=
  match o, r with
  | Read k v0, Value_read b v => answer m k v0 v ∧ b = (v =? ValueNull) ∧ m' = m
  | Write k v, Written => m' = <[k := v]> m
  | Scan from to len, Scanned res => scanned m from to len res ∧ m' = m
  | _, _ => False
  end.

Inductive map_run : gmap Key Value → list (nat * op) → list reply → gmap Key Value → Prop :=
| run_nil m : map_run m [] [] m
| run_cons m i o l r rs m1 m' : map_step m o r m1 → map_run m1 l rs m' → map_run m ((i, o) :: l) (r :: rs) m'.

(** ** Refinement *)

Section refine.
Context (all_nodes : Z).
Implicit Types (w : system) (m : gmap Key Value) (lv : list lcell) (levels : list (list icell)) (waste : list Gaddr) (o : op).

Definition member lv levels sv : Prop :=
  server_ok all_nodes lv levels sv ∧ is_server (my_id sv) ∧ quiet sv.

(** The system holds the map [m] in at most [n] leaves. *)
Definition sys_ok (n : nat) waste w m : Prop :=
  ∃ lv levels, tree lv levels waste (s_mem w) ∧ contents lv = m ∧ Forall (member lv levels) (s_servers w) ∧ (length lv ≤ n)%nat.

(** What [n] leaves need of the allocator, the cache and the fuel, when [d]
    blocks were dropped. *)
Record provisioned (n d fuel : nat) : Prop := {
  pv_blocks : (2 * (n / 15 + 1) + n + d + 2 ≤ max_blocks)%nat;
  pv_tables : (n < max_tables)%nat;
  pv_version : Z.of_nat n < 2 ^ 31;
  pv_cache : 100 * (2 + Z.of_nat (n / 15)) ≤ 99 * all_nodes;
  pv_fuel : (2 * (n / 15 + 1) + n + 6 ≤ fuel)%nat }.

(** Keys below the greatest one. *)
Definition in_domain o : Prop :=
  match o with
  | Read k _ | Write k _ => key_num k < key_num KeyMax
  | Scan from _ _ => key_num from < key_num KeyMax
  end.

Definition is_write o : nat := match o with Write _ _ => 1 | _ => 0 end.

Lemma provisioned_room n waste fuel lv levels :
  provisioned n (length waste) (S (S fuel)) → index_ok lv levels → (length lv ≤ n)%nat →
  roomy all_nodes lv levels waste ∧ fueled levels fuel ∧ (length lv ≤ fuel)%nat.
Proof.
  intros [P1 P2 P3 P4 P5] Hix Hn. destruct (index_count lv levels n Hix Hn) as (H1 & H2 & H3). unfold fueled.
  split_and!; [|lia..]. constructor; [lia|lia|lia|]. intros L HL. specialize (H3 L HL). lia.
Qed.

Lemma member_grow lv lv' levels levels' sv :
  leaves_grow lv lv' → levels_grow levels levels' → member lv levels sv → member lv' levels' sv.
Proof. intros H1 H2 (H3 & H4). split; [by eapply server_ok_grow|done]. Qed.

(** The server that ran takes its place again. *)
Lemma sys_ok_turn n waste w m lv lv' levels levels' i sv s' :
  Forall (member lv levels) (s_servers w) → s_servers w !! i = Some sv →
  served all_nodes lv' levels' waste (Mk (s_mem w) sv) s' → is_server (my_id sv) →
  leaves_grow lv lv' → levels_grow levels levels' → contents lv' = m → (length lv' ≤ n)%nat →
  sys_ok n waste (Sys (mem s') (<[i := srv s']> (s_servers w))) m.
Proof.
  intros Hall Hi [[Ht Hsv Hid] Hq Heq] Hm Hg1 Hg2 Hc Hn. exists lv', levels'. split_and!; try done. cbn.
  apply Forall_insert; [|by split_and!]. eapply Forall_impl; [exact Hall|]. intros x. by apply member_grow.
Qed.

Lemma turn_spec n waste fuel w m i o :
  sys_ok n waste w m → provisioned n (length waste) fuel → in_domain o → (i < length (s_servers w))%nat →
  wp (turn fuel i o) w (λ r w', ∃ m', map_step m o r m' ∧ sys_ok (n + is_write o) waste w' m' ∧
    length (s_servers w') = length (s_servers w)).
Proof.
  intros (lv & levels & Ht & Hm & Hall & Hn) Hpv Hdom Hi. destruct (lookup_lt_is_Some_2 _ _ Hi) as [sv Hsv].
  destruct (Forall_lookup_1 _ _ _ _ Hall Hsv) as (Hok & Hid & Hq). destruct fuel as [|[|fuel]]; [destruct Hpv; lia..|].
  destruct (provisioned_room n waste fuel lv levels Hpv (tr_index _ _ _ _ Ht) Hn) as (Hro & Hfuel & Hlen).
  set (s := Mk (s_mem w) sv). assert (inv all_nodes lv levels waste s) as Hinv by (by constructor).
  assert (∀ Q, wp (run_op (S (S fuel)) o) s (λ r s', Q r (Sys (mem s') (<[i := srv s']> (s_servers w)))) →
    wp (turn (S (S fuel)) i o) w Q) as Hturn.
  { intros Q. unfold wp, turn. rewrite Hsv. fold s. by destruct (run_op (S (S fuel)) o s) as [[r s']|e]. }
  apply Hturn. destruct o as [k v0|k v|from to len]; cbn [run_op is_write].
  - eapply wp_seq; [by eapply (read_spec uninit stack all_nodes)|]. intros [b v] s' (Ha & Hb & Hs). apply wp_ret.
    exists m. subst m. split; [done|]. split; [|by cbn; rewrite length_insert]. by eapply sys_ok_turn; try done; lia.
  - eapply wp_seq; [by eapply (write_spec uninit all_nodes)|]. intros [] s' (lv' & levels' & Hc & Hs & Hg1 & Hg2 & Hl). apply wp_ret.
    exists (<[k := v]> m). subst m. split; [done|]. split; [|by cbn; rewrite length_insert]. by eapply sys_ok_turn; try done; lia.
  - eapply wp_seq; [eapply (scan_spec uninit all_nodes); try done; unfold fueled in *; lia|].
    intros res s' (Hsc & Hinv' & [Em Ei El]). apply wp_ret. exists m. subst m. split; [done|].
    split; [|by cbn; rewrite length_insert]. eapply sys_ok_turn; try done; [|lia]. constructor; [done|intros j; rewrite El; apply Hq|done].
Qed.

Definition writes (l : list (nat * op)) : nat := sum_list (is_write ∘ snd <$> l).

Lemma provisioned_le n n' d fuel : (n ≤ n')%nat → provisioned n' d fuel → provisioned n d fuel.
Proof.
  intros Hn [P1 P2 P3 P4 P5]. pose proof (Nat.Div0.div_le_mono n n' 15 Hn). constructor; lia.
Qed.

Lemma turns_spec l : ∀ n waste fuel w m,
  sys_ok n waste w m → provisioned (n + writes l) (length waste) fuel →
  Forall (λ '(i, o), in_domain o ∧ (i < length (s_servers w))%nat) l →
  wp (turns fuel l) w (λ rs w', ∃ m', map_run m l rs m' ∧ sys_ok (n + writes l) waste w' m').
Proof.
  induction l as [|[i o] l IH]; intros n waste fuel w m Hok Hpv Hl; cbn [turns].
  { apply wp_ret. exists m. split; [constructor|]. unfold writes. cbn. by rewrite Nat.add_0_r. }
  apply Forall_cons in Hl as [[Hdom Hi] Hl]. change (writes ((i, o) :: l)) with (is_write o + writes l)%nat in *.
  rewrite Nat.add_assoc in *. eapply wp_seq; [eapply turn_spec; try done; eapply provisioned_le, Hpv; lia|].
  intros r w1 (m1 & Hstep & Hok1 & Hlen). eapply wp_seq; [eapply IH; [exact Hok1|exact Hpv|by rewrite Hlen]|].
  intros rs w' (m' & Hrun & Hok'). apply wp_ret. exists m'. split; [by econstructor|done].
Qed.

(** *** Start *)

Context (kInnerCacheSize : Z) (junk : nat → nat → InnerNode.t) (lock_junk : nat → Z → bool * Value * Value)
  (Hsize : all_nodes = kInnerCacheSize * MB / (InnerNode.size_of + DMCache.entry_size)) (Hnodes : 2 ≤ all_nodes).

Lemma construct_fresh id :
  is_server id →
  ∃ sv, fresh all_nodes sv ∧ my_id sv = id ∧ ∀ m : shared A,
    construct uninit kInnerCacheSize (junk id) (lock_junk id) id m = init_root_node uninit (Mk m sv) ≫= λ '(_, s), Ok s.
Proof.
  intros Hid. unfold construct, DMCache.make. cbv zeta. rewrite <- Hsize. unfold require. rewrite (proj2 (Z.ltb_lt _ _)) by lia. cbn [mbind result_bind].
  eexists. split; [|split; [|intros m; reflexivity]]; [|done]. constructor; try done.
  - apply (DMCache.cache_make_wf _ _ kInnerCacheSize (junk id)); [|done]. unfold DMCache.make. rewrite <- Hsize. unfold require.
    by rewrite (proj2 (Z.ltb_lt _ _)) by lia.
  - intros i. cbn. destruct (lock_junk id i) as [[r v1] v2]. apply new_node_quiescent.
Qed.

Lemma member_fresh lv levels sv : fresh all_nodes sv → member lv levels sv.
Proof. intros H. split; [by apply fresh_ok|]. by destruct H. Qed.

Lemma start_more ids : ∀ n waste w m,
  sys_ok n waste w m → Forall is_server ids → (2 * (n / 15 + 1) + n + length waste + length ids ≤ max_blocks)%nat →
  ∃ w' waste', start kInnerCacheSize junk lock_junk ids w = Ok w' ∧ sys_ok n waste' w' m ∧
    length waste' = (length ids + length waste)%nat ∧ length (s_servers w') = (length (s_servers w) + length ids)%nat.
Proof.
  induction ids as [|id ids IH]; intros n waste w m Hok Hids Hroom; cbn [start].
  { exists w, waste. cbn. split_and!; [done..|lia]. }
  apply Forall_cons in Hids as [Hid Hids]. destruct (construct_fresh id Hid) as (sv & Hfr & Hmy & ->).
  destruct Hok as (lv & levels & Ht & Hm & Hall & Hn). destruct (index_count lv levels n (tr_index _ _ _ _ Ht) Hn) as (H1 & _).
  cbn [length] in Hroom. pose proof (init_later uninit all_nodes lv levels waste (s_mem w) sv Ht Hfr ltac:(lia)) as Hw.
  apply wp_Ok in Hw as ([] & s & E & a & [Ht' Hsv' Hid'] & Es). rewrite E. cbn [mbind result_bind].
  destruct (IH n (a :: waste) (Sys (mem s) (s_servers w ++ [srv s])) m) as (w' & waste' & E' & Hok' & Hl & Hs); [|done|cbn [length]; lia|].
  { exists lv, levels. split_and!; try done. cbn. apply Forall_app. split; [done|]. constructor; [|constructor].
    rewrite Es. by apply member_fresh. }
  exists w', waste'. split_and!; [done|done|cbn [length] in *; lia|]. rewrite Hs. cbn. rewrite length_app. cbn. lia.
Qed.

Lemma start_spec ids al :
  alloc_inv al [] [] → Forall is_server ids → ids ≠ [] → (length ids + 3 ≤ max_blocks)%nat → (1 ≤ max_tables)%nat →
  ∃ w waste, start kInnerCacheSize junk lock_junk ids (Sys (blank al) []) = Ok w ∧ sys_ok 1 waste w ∅ ∧
    length waste = (length ids - 1)%nat ∧ length (s_servers w) = length ids.
Proof.
  intros Hal Hids Hne Hmb Hmt. destruct ids as [|id ids]; [done|]. apply Forall_cons in Hids as [Hid Hids]. cbn [start length] in *.
  destruct (construct_fresh id Hid) as (sv & Hfr & Hmy & ->).
  pose proof (init_first uninit all_nodes al sv Hfr Hal ltac:(lia) Hmt) as Hw.
  apply wp_Ok in Hw as ([] & s & E & c & d & [Ht Hsv Hid'] & Hkv & [Ei El]). cbn [s_mem]. rewrite E. cbn [mbind result_bind].
  destruct (start_more ids 1 [] (Sys (mem s) ([] ++ [srv s])) ∅) as (w & waste & E' & Hok & Hl & Hs); [|done|cbn; lia|].
  { exists [c], [[d]]. split_and!; [done| |constructor; [|constructor]|done].
    - unfold contents. cbn. by rewrite Hkv.
    - split_and!; [done|done|]. intros i. rewrite El. apply Hfr. }
  exists w, waste. split_and!; [done|done|cbn in Hl; lia|done].
Qed.

End refine.

(** A deployment: the servers that start, the operations they run in turn, and
    what these need. *)
Record deployment (kInnerCacheSize : Z) (al : A) (ids : list nat) (ops : list (nat * op)) (fuel : nat) : Prop := {
  dp_alloc : alloc_inv al [] [];
  dp_servers : Forall is_server ids;
  dp_first : ids ≠ [];
  dp_room : provisioned (kInnerCacheSize * MB / (InnerNode.size_of + DMCache.entry_size)) (1 + writes ops) (length ids) fuel;
  dp_ops : Forall (λ '(i, o), in_domain o ∧ (i < length ids)%nat) ops }.

Lemma deployment_run kInnerCacheSize junk lock_junk al ids ops fuel :
  deployment kInnerCacheSize al ids ops fuel →
  ∃ w rs w' m waste,
    start kInnerCacheSize junk lock_junk ids (Sys (blank al) []) = Ok w ∧ turns fuel ops w = Ok (rs, w') ∧
    map_run ∅ ops rs m ∧
    sys_ok (kInnerCacheSize * MB / (InnerNode.size_of + DMCache.entry_size)) (1 + writes ops) waste w' m.
Proof.
  intros [Hal Hids Hne Hpv Hops]. pose proof Hpv as [P1 P2 P3 P4 P5]. set (nodes := kInnerCacheSize * MB / _) in *.
  destruct (start_spec nodes kInnerCacheSize junk lock_junk eq_refl ltac:(lia) ids al Hal Hids Hne) as (w & waste & E & Hok & Hl & Hs); [lia|lia|].
  pose proof (turns_spec nodes ops 1 waste fuel w ∅ Hok) as Hw.
  apply wp_Ok in Hw as (rs & w' & E' & m & Hrun & Hok'); [|destruct Hpv; constructor; lia|by rewrite Hs].
  by exists w, rs, w', m, waste.
Qed.

End system.
