(* ===== verification/TreeAlloc.v ===== *)
(** * The allocators under the index

    [DMVerbs::memory_alloc] and [DMVerbs::compute_alloc] give the index what it
    asks of an allocator ([AllocatorSpec]): the bytes left at the end of a chunk
    are few, so the chunks of the directories last for a known number of
    blocks, and the tables stay below the limit of the leaf cache. *)

From S2P Require Import Prelude KVConfig RdmaConfig Hash LeafNode InnerTree Allocators LocalLockTable DMCache Tree TreeChain TreeLeaf TreeInner TreeFind TreeGrow.
Open Scope Z_scope.

(** ** Sums *)

Definition total {X} (f : X → Z) (l : list X) : Z := foldr (λ x a, f x + a) 0 l.

Lemma total_insert {X} (f : X → Z) l i x y : l !! i = Some x → total f (<[i := y]> l) = total f l - f x + f y.
Proof.
  revert i. induction l as [|z l IH]; intros [|i] H; [done|done|injection H as ->; cbn; lia|].
  change (total f (z :: <[i := y]> l) = total f (z :: l) - f x + f y). specialize (IH i H). cbn in *. unfold total in IH. lia.
Qed.

Lemma total_same {X} (f : X → Z) l i x y : l !! i = Some x → f y = f x → total f (<[i := y]> l) = total f l.
Proof. intros H E. rewrite (total_insert _ _ _ _ _ H). lia. Qed.

Lemma total_le {X} (f g : X → Z) l : Forall (λ x, f x ≤ g x) l → total f l ≤ total g l.
Proof. induction 1; cbn; unfold total in *; lia. Qed.

(** ** Chunks and blocks *)

Definition heads (la : LocalAllocator.t) : Z := Z.of_nat (length (LocalAllocator.log_heads la)).

(** Bytes given out, when each chunk but the last gave all but a block of [M]. *)
Definition debt (M : Z) (la : LocalAllocator.t) : Z :=
  if bool_decide (LocalAllocator.log_heads la = []) then 0
  else (heads la - 1) * (kChunkSize - M) + (offset (LocalAllocator.cur la) - offset (LocalAllocator.head la)).

Lemma heads_debt P M la : la_ok P la → M ≤ kChunkSize → heads la * (kChunkSize - M) ≤ debt M la + (kChunkSize - M).
Proof.
  intros Hla HM. unfold debt, heads. case_bool_decide as E; [rewrite E; cbn; lia|]. destruct Hla as [|(_ & _ & H & _)]; [done|]. lia.
Qed.

(** Where a directory ends. *)
Definition dir_end (d : Directory.t) : Z :=
  offset (GlobalAllocator.start (Directory.chunckAlloc d)) + GlobalAllocator.bitmap_len (Directory.chunckAlloc d) * kChunkSize.

Lemma frontier_left ds n d : ds !! n = Some d → Directory.frontier d = dir_end d - left ds n * kChunkSize.
Proof. intros E. unfold left. rewrite E. unfold Directory.frontier, dir_end. lia. Qed.

Lemma rpc_account node my th ds chunk ds' :
  dirs_ok ds → 0 ≤ node → rpc_malloc node my th ds = Ok (chunk, ds') →
  (∀ n, left ds' n = left ds n - (if decide (n = Z.to_nat node) then 1 else 0)) ∧
  (∀ n d', ds' !! n = Some d' → ∃ d, ds !! n = Some d ∧ dir_end d' = dir_end d).
Proof.
  intros Hd Hn E. unfold rpc_malloc in E. apply bind_Ok in E as (d & Hdn & E). apply at_index_Ok in Hdn.
  destruct (Hd _ _ Hdn) as (Hw & _).
  pose proof (Directory.directory_malloc_spec d (Directory.MkMsg Directory.MALLOC my th Gaddr_Null 0) Hw eq_refl) as Hm.
  destruct (Z.ltb_spec (Directory.tail d) (GlobalAllocator.bitmap_len (Directory.chunckAlloc d))) as [Hlt|];
    [|by rewrite Hm in E]. destruct Hm as (d' & Em & _ & _ & Hf & Ho & Hlen).
  rewrite Em in E. cbn in E. injection E as <- <-. assert (kChunkSize = 33554432) by done. split.
  - intros n. unfold left. destruct (decide (n = Z.to_nat node)) as [->|Hne].
    + rewrite Hdn, list_lookup_insert_eq by (by eapply lookup_lt_Some). rewrite Hlen.
      unfold Directory.frontier in Hf. rewrite Ho in Hf. lia.
    + rewrite list_lookup_insert_ne by done. lia.
  - intros n x [(<- & <- & _)|[_ Hx]]%list_lookup_insert_Some; [|by exists x]. exists d. split; [done|].
    unfold dir_end. by rewrite Ho, Hlen.
Qed.

Lemma cut_account P M la node my th size ds addr la' ds' :
  dirs_ok ds → la_ok P la → P node → 0 ≤ node → 0 < size ≤ M → M ≤ kChunkSize →
  cut la node my th size ds = Ok (addr, la', ds') →
  debt M la' ≤ debt M la + size ∧
  (∀ n, left ds' n = left ds n - (if decide (n = Z.to_nat node) then heads la' - heads la else 0)) ∧ heads la ≤ heads la' ≤ heads la + 1 ∧
  (∀ n d', ds' !! n = Some d' → ∃ d, ds !! n = Some d ∧ dir_end d' = dir_end d).
Proof.
  intros Hd Hla HP Hn Hs HM E. unfold cut, LocalAllocator.malloc in E. assert (kChunkSize < 2 ^ 48) by done.
  destruct (bool_decide (LocalAllocator.log_heads la = []) || _) eqn:Eneed.
  - apply bind_Ok in E as ([chunk ds1] & Er & E).
    destruct (rpc_malloc_spec node my th ds chunk ds1 Hd Hn Er) as (f & -> & Hf0 & Hf48 & _).
    destruct (rpc_account node my th ds _ ds1 Hd Hn Er) as [Hl He]. cbn in E.
    rewrite bool_decide_false in E by (intros [_ ?]%app_nil; done). cbn in E.
    rewrite !(wrap_small 64), (proj2 (Z.ltb_ge _ _)) in E by (unfold fits; lia). injection E as <- <- <-.
    rewrite (wrap_small 48) by (unfold fits; lia). unfold heads, debt. cbn. rewrite length_app. cbn.
    rewrite (bool_decide_false (_ ++ _ = [])) by (intros [_ ?]%app_nil; done). unfold heads. cbn. rewrite length_app. cbn.
    split_and!; [|intros n; rewrite Hl; case_decide; lia|lia|lia|done].
    destruct (bool_decide_reflect (LocalAllocator.log_heads la = [])) as [E0|Hne]; [rewrite E0; cbn; lia|].
    cbn in Eneed. destruct Hla as [|(_ & _ & H1 & H2)]; [done|]. rewrite !(wrap_small 64) in Eneed by (unfold fits; lia).
    apply Z.ltb_lt in Eneed. nia.
  - injection E as <- <- <-. apply orb_false_iff in Eneed as [E0 E1]. apply bool_decide_eq_false in E0.
    destruct Hla as [|(_ & _ & H1 & H2)]; [done|]. rewrite !(wrap_small 64) in E1 by (unfold fits; lia). apply Z.ltb_ge in E1.
    unfold debt, heads. cbn. rewrite !(bool_decide_false (_ = [])) by done. unfold heads. cbn.
    rewrite (wrap_small 48) by (unfold fits; lia). split_and!; [lia|intros n; case_decide; lia|lia|lia|]. intros n d Hd'. by exists d.
Qed.

Lemma memory_alloc_fp MemoryNumber my th size c ds addr c' ds' :
  Allocators.memory_alloc MemoryNumber my th size (c, ds) = Ok (addr, (c', ds')) →
  use_memory_fp c' = use_memory_fp c ∧ compute_target c' = compute_target c ∧ alloc_compute_nodes c' = alloc_compute_nodes c.
Proof.
  unfold Allocators.memory_alloc. destruct (default _ _) as [node dir]. destruct (LocalAllocator.malloc _ _) as [[a need] la].
  destruct need; [|by intros [= <- <- <-]]. destruct (rpc_malloc _ _ _ _) as [[chunk ds1]|]; [|done].
  destruct (next_target _ _ _ _) as [count target]. destruct (LocalAllocator.malloc _ _) as [[a2 n2] la2]. by intros [= <- <- <-].
Qed.

Lemma compute_cut_fp MemoryNumber ComputeNumber my th size c ds addr c' ds' :
  compute_cut MemoryNumber ComputeNumber my th size (c, ds) = Ok (addr, (c', ds')) → use_memory_fp c' = use_memory_fp c.
Proof.
  unfold compute_cut. destruct (default _ _) as [node dir]. destruct (LocalAllocator.malloc _ _) as [[a need] la].
  destruct need; [|by intros [= <- <- <-]]. destruct (rpc_malloc _ _ _ _) as [[chunk ds1]|]; [|done].
  destruct (next_target _ _ _ _) as [count target]. destruct (LocalAllocator.malloc _ _) as [[a2 n2] la2]. by intros [= <- <- <-].
Qed.

(** The tables of a client go to compute nodes: its directories are number 0,
    and the node is chosen anew with its first chunk. *)
Definition tables_placed (ComputeNumber : Z) (c : client) : Prop :=
  (∀ th t, compute_target c !! th = Some t → t.2 = 0) ∧
  (LocalAllocator.log_heads (local_compute_allocator c) ≠ [] → 0 ≤ alloc_compute_nodes c < ComputeNumber).

Lemma compute_cut_placed MemoryNumber ComputeNumber my th size c ds addr c' ds' :
  0 < ComputeNumber → tables_placed ComputeNumber c → compute_cut MemoryNumber ComputeNumber my th size (c, ds) = Ok (addr, (c', ds')) →
  tables_placed ComputeNumber c' ∧ 0 ≤ alloc_compute_nodes c' < ComputeNumber.
Proof.
  intros Hc [Ht Hn] E. unfold compute_cut in E.
  destruct (default (alloc_compute_nodes c mod ComputeNumber, (th + my) mod NR_DIRECTORY) (compute_target c !! th)) as [node dir] eqn:Et.
  assert (dir = 0) as ->.
  { destruct (compute_target c !! th) as [t|] eqn:Eth; cbn in Et; [subst t; by apply Ht in Eth|]. injection Et as _ <-. apply Z.mod_1_r. }
  assert (∀ t, t.2 = 0 → ∀ th' t', <[th := t]> (compute_target c) !! th' = Some t' → t'.2 = 0) as Hins.
  { intros t Ht0 th' t' [(_ & <-)|[_ ?]]%lookup_insert_Some; [done|eauto]. }
  destruct (LocalAllocator.malloc (local_compute_allocator c) size) as [[a need] la] eqn:Em. destruct need.
  - destruct (rpc_malloc _ _ _ _) as [[chunk ds1]|]; [|done]. change (next_target (alloc_compute_nodes c) ComputeNumber node 0) with
      (u64 (alloc_compute_nodes c + 1) mod ComputeNumber, (u64 (alloc_compute_nodes c + 1) mod ComputeNumber, 0)) in E.
    destruct (LocalAllocator.malloc (LocalAllocator.set_chunck la chunk) size) as [[a2 n2] la2]. injection E as <- <- <-.
    pose proof (Z.mod_pos_bound (u64 (alloc_compute_nodes c + 1)) ComputeNumber Hc) as Hb. split; [|done]. split; [by apply Hins|done].
  - injection E as <- <- <-. unfold LocalAllocator.malloc in Em. destruct (bool_decide _ || _) eqn:Eb; [done|].
    apply orb_false_iff in Eb as [Eb%bool_decide_eq_false _]. simplify_eq. specialize (Hn Eb). split; [|done]. split; [by apply Hins|done].
Qed.

(** ** The allocators of a cluster *)

Definition cluster : Type := list client * list Directory.t.

Section cluster.
Context (MemoryNumber ComputeNumber thread : Z) (n_clients : nat) (chunks : Z).
Context (memory_pos : 0 < MemoryNumber) (compute_pos : 0 < ComputeNumber)
        (nodes_fit : MemoryNumber + ComputeNumber < 2 ^ 16) (clients_fit : Z.of_nat n_clients ≤ MemoryNumber + ComputeNumber).

(** The calls of the thread that runs the index on server [i]. *)
Definition cluster_alloc (p : pool) (i : nat) (size : Z) (a : cluster) : result (Gaddr * cluster) :=
  serve MemoryNumber ComputeNumber (MkReq i thread p size) a.1 a.2 ≫= λ '(g, cs, ds), Ok (g, (cs, ds)).

#[local] Instance cluster_allocator : Allocator cluster := {
  memory_nodes := MemoryNumber;
  memory_alloc := cluster_alloc MemoryPool;
  compute_alloc := cluster_alloc ComputePool }.

(** The largest block of the index, and the size of a table. *)
Definition block_size : Z := Z.max InnerNode.size_of (LeafNode.cur_node_size LeafNodeCapacity).
Definition table_size : Z := FPTable.size_for LeafNodeCapacity.

(** The chunks of the tables end below the limit of [compute_alloc]. *)
Definition table_chunks : Z := Z.min chunks ((kLeafCacheSize - 1) * MB / kChunkSize - 41).

Definition memory_heads (c : client) : Z := heads (local_memory_allocator c).
Definition memory_debt (c : client) : Z := debt block_size (local_memory_allocator c).
Definition compute_heads (c : client) : Z := heads (local_compute_allocator c).
Definition compute_debt (c : client) : Z := debt table_size (local_compute_allocator c).

(** Each directory had [chunks] chunks; [ms] and [ts] were given out. *)
Record cluster_inv (a : cluster) (ms : list span) (ts : list Gaddr) : Prop := {
  ci_length : length a.1 = n_clients;
  ci_placed : Forall (tables_placed ComputeNumber) a.1;
  ci_direct : Forall (λ c, use_memory_fp c = false) a.1;
  ci_pieces : ∃ given, inv MemoryNumber a.1 a.2 given ∧
    (∀ p, p ∈ ms → (nodeID p.1, offset p.1, offset p.1 + p.2) ∈ given) ∧
    (∀ g, g ∈ ts → (MemoryNumber, offset g, offset g + table_size) ∈ given);
  ci_blocks : pairwise spans_apart ms ∧ Forall (λ p, 0 ≤ nodeID p.1 < MemoryNumber ∧ kChunkSize ≤ offset p.1 ∧ 0 < p.2) ms;
  ci_tables : pairwise tables_apart ts ∧ Forall (λ g, MemoryNumber ≤ nodeID g < MemoryNumber + ComputeNumber) ts;
  ci_memory : ∀ n, (n < Z.to_nat MemoryNumber)%nat → chunks - left a.2 n ≤ total memory_heads a.1;
  ci_compute : chunks - left a.2 (Z.to_nat MemoryNumber) ≤ total compute_heads a.1;
  ci_end : ∀ d, a.2 !! Z.to_nat MemoryNumber = Some d → dir_end d = (41 + chunks) * kChunkSize;
  ci_memory_debt : total memory_debt a.1 ≤ block_size * Z.of_nat (length ms);
  ci_compute_debt : total compute_debt a.1 ≤ table_size * Z.of_nat (length ts) }.

(** Chunks taken, from the bytes given out. *)
Lemma heads_bound (f : client → LocalAllocator.t) P M cs b :
  Forall (λ c, la_ok P (f c)) cs → M ≤ kChunkSize → total (λ c, debt M (f c)) cs ≤ b →
  total (λ c, heads (f c)) cs * (kChunkSize - M) ≤ b + Z.of_nat (length cs) * (kChunkSize - M).
Proof.
  intros Hok HM Hb. enough (total (λ c, heads (f c)) cs * (kChunkSize - M) ≤
    total (λ c, debt M (f c)) cs + Z.of_nat (length cs) * (kChunkSize - M)) by lia. clear Hb.
  induction Hok as [|c cs Hc _ IH]; cbn; [lia|]. pose proof (heads_debt P M (f c) Hc HM). unfold total in IH. lia.
Qed.

(** Blocks and tables the chunks last for. *)
Definition cluster_blocks : nat := Z.to_nat ((chunks - Z.of_nat n_clients) * (kChunkSize - block_size) / block_size).
Definition cluster_tables : nat := Z.to_nat ((table_chunks - Z.of_nat n_clients) * (kChunkSize - table_size) / table_size).

Lemma sizes : 0 < block_size < kChunkSize ∧ 0 < table_size < kChunkSize ∧ 0 < InnerNode.size_of ≤ block_size ∧
  0 < LeafNode.cur_node_size LeafNodeCapacity ≤ block_size.
Proof. vm_compute. split_and!; done. Qed.

(** [b] blocks of [size] bytes in chunks, for [n] clients. *)
Lemma chunks_last C n b K size h :
  0 < size → 0 < K → (b < Z.to_nat ((C - n) * K / size))%nat → h * K ≤ size * Z.of_nat b + n * K → h < C.
Proof.
  intros Hs HK Hb Hh. assert (Z.of_nat b < (C - n) * K / size) as Hb' by lia.
  assert (size * (Z.of_nat b + 1) ≤ (C - n) * K). { pose proof (Z.mul_div_le ((C - n) * K) size Hs). nia. }
  nia.
Qed.

(** A new piece does not overlap the others. *)
Lemma piece_new cs ds given p q :
  inv MemoryNumber cs ds (given ++ [p]) → q ∈ given → q.1.1 = p.1.1 → p.1.2 < p.2 → q.1.2 < q.2 → q.2 ≤ p.1.2 ∨ p.2 ≤ q.1.2.
Proof.
  intros [_ _ Hp _] Hq E1 Hp1 Hq1. rewrite app_assoc in Hp.
  assert (apart q p) as Ha by (eapply pairwise_app_in; [exact Hp|apply elem_of_app; by right|left]).
  unfold apart in Ha. lia.
Qed.

Lemma piece_below cs ds given p :
  inv MemoryNumber cs ds (given ++ [p]) → p.1.2 < p.2 →
  ∃ d, 0 ≤ p.1.1 ∧ ds !! Z.to_nat p.1.1 = Some d ∧ first_byte ≤ p.1.2 ∧ p.2 ≤ Directory.frontier d.
Proof.
  intros [_ _ _ Hb] Hp. rewrite !Forall_app in Hb. destruct Hb as (_ & _ & Hb). apply Forall_singleton in Hb as [?|H]; [lia|done].
Qed.

Lemma memory_left a ms ts : cluster_inv a ms ts → (length ms < cluster_blocks)%nat →
  ∀ n, (n < Z.to_nat MemoryNumber)%nat → 0 < left a.2 n.
Proof.
  intros Hci Hb n Hn. destruct sizes as (Hs & _). destruct (ci_pieces _ _ _ Hci) as (given & [_ Hcs _ _] & _).
  pose proof (heads_bound local_memory_allocator (memory_node MemoryNumber) block_size a.1 _
    (Forall_impl _ _ _ Hcs (λ c Hc, ok_memory _ c Hc)) ltac:(lia) (ci_memory_debt _ _ _ Hci)) as Hh.
  rewrite (ci_length _ _ _ Hci) in Hh. pose proof (ci_memory _ _ _ Hci n Hn) as Hm.
  enough (total memory_heads a.1 < chunks) by lia.
  eapply (chunks_last chunks (Z.of_nat n_clients) (length ms) (kChunkSize - block_size) block_size); [lia|lia|done|exact Hh].
Qed.

Lemma compute_left a ms ts : cluster_inv a ms ts → (length ts < cluster_tables)%nat →
  total compute_heads a.1 < table_chunks.
Proof.
  intros Hci Hb. destruct sizes as (_ & Hs & _). destruct (ci_pieces _ _ _ Hci) as (given & [_ Hcs _ _] & _).
  pose proof (heads_bound local_compute_allocator (compute_node MemoryNumber) table_size a.1 _
    (Forall_impl _ _ _ Hcs (λ c Hc, ok_compute _ c Hc)) ltac:(lia) (ci_compute_debt _ _ _ Hci)) as Hh.
  rewrite (ci_length _ _ _ Hci) in Hh.
  eapply (chunks_last table_chunks (Z.of_nat n_clients) (length ts) (kChunkSize - table_size) table_size); [lia|lia|done|exact Hh].
Qed.

Lemma cluster_memory a ms ts i size :
  cluster_inv a ms ts → (i < n_clients)%nat → (length ms < cluster_blocks)%nat → 0 < size ≤ block_size →
  ∃ g a', cluster_alloc MemoryPool i size a = Ok (g, a') ∧ cluster_inv a' ((g, size) :: ms) ts.
Proof.
  intros Hci Hi Hb Hsize. destruct sizes as (Hs & _). destruct a as [cs ds]. pose proof Hci as [Hlen Hpl Hdir Hpc [Hnd Hms] Hts Hm Hc He Hmd Hcd].
  destruct Hpc as (given & Hinv & Hgm & Hgt). cbn [fst snd] in *.
  destruct (lookup_lt_is_Some_2 cs i ltac:(lia)) as [c Hci'].
  destruct (inv_lookup _ _ _ _ _ _ Hinv Hci') as (Hok & _).
  destruct (memory_alloc_total MemoryNumber memory_pos (Z.of_nat i) thread size c ds Hok (inv_dirs _ _ _ _ Hinv) (memory_left _ _ _ Hci Hb))
    as (g & c' & ds' & _ & E & _ & _).
  assert (0 < size ≤ kChunkSize) as Hsz' by lia.
  destruct (memory_alloc_inv MemoryNumber memory_pos i _ _ _ _ _ _ _ _ _ _ Hinv Hci' Hsz' E) as [Hinv' Hg].
  destruct (memory_alloc_cut MemoryNumber memory_pos _ _ _ _ _ _ _ _ Hok E) as (node & Hnode & Ecut & Ecomp & _ & _).
  destruct (cut_account (memory_node MemoryNumber) block_size _ _ _ _ _ _ _ _ _ (inv_dirs _ _ _ _ Hinv) (ok_memory _ _ Hok) Hnode
    ltac:(apply Hnode) Hsize ltac:(lia) Ecut) as (Hdebt & Hleft & Hheads & Hend).
  exists g, (<[i := c']> cs, ds'). split.
  { unfold cluster_alloc, serve, at_index. cbn [r_client r_pool r_thread r_size fst snd]. rewrite Hci'. cbn [mbind result_bind]. by rewrite E. }
  assert (block_piece MemoryNumber (g, size) = (nodeID g, offset g, offset g + size)) as Ep.
  { unfold block_piece. cbn. by rewrite (proj2 (Z.ltb_lt _ _)) by apply Hg. }
  rewrite Ep in Hinv'. unfold memory_node in Hnode, Hg. destruct (memory_alloc_fp _ _ _ _ _ _ _ _ _ E) as (Efp & Etg & Ean).
  assert (Z.to_nat MemoryNumber ≠ Z.to_nat node) as Hne by lia.
  constructor; cbn [fst snd].
  - by rewrite length_insert.
  - apply Forall_insert; [done|]. unfold tables_placed. rewrite Etg, Ean, Ecomp. apply (Forall_lookup_1 _ _ _ _ Hpl Hci').
  - apply Forall_insert; [done|]. rewrite Efp. by apply (Forall_lookup_1 _ _ _ _ Hdir Hci').
  - exists (given ++ [(nodeID g, offset g, offset g + size)]). split_and!; [done| |].
    + intros p [->|Hp]%elem_of_cons; apply elem_of_app; [right; left|left; by apply Hgm].
    + intros g' Hg'. apply elem_of_app. left. by apply Hgt.
  - split; [apply pairwise_cons; [done|]|constructor; [|done]].
    + intros p Hp. rewrite Forall_forall in Hms. destruct (Hms p Hp) as (_ & _ & Hp0). unfold spans_apart. cbn.
      split; intros En; destruct (piece_new _ _ _ _ _ Hinv' (Hgm p Hp)); cbn in *; lia.
    + destruct (piece_below _ _ _ _ Hinv') as (d & _ & _ & Hfb & _); [cbn; lia|]. cbn in *.
      assert (kChunkSize ≤ first_byte) by done. lia.
  - done.
  - intros n Hn. rewrite Hleft, (total_insert _ _ _ _ _ Hci'). specialize (Hm n Hn). unfold memory_heads at 2 3. case_decide; lia.
  - rewrite Hleft, decide_False, (total_same _ _ _ _ _ Hci') by (done || unfold compute_heads; by rewrite Ecomp). lia.
  - intros d Hd. destruct (Hend _ _ Hd) as (d0 & Hd0 & ->). by apply He.
  - rewrite (total_insert _ _ _ _ _ Hci'). unfold memory_debt at 2 3. cbn [length]. lia.
  - rewrite (total_same _ _ _ _ _ Hci') by (unfold compute_debt; by rewrite Ecomp). done.
Qed.

Lemma cluster_compute a ms ts i :
  cluster_inv a ms ts → (i < n_clients)%nat → (length ts < cluster_tables)%nat →
  ∃ g a', cluster_alloc ComputePool i table_size a = Ok (g, a') ∧ cluster_inv a' ms (g :: ts).
Proof.
  intros Hci Hi Hb. destruct sizes as (_ & Hs & _). destruct a as [cs ds]. pose proof (compute_left _ _ _ Hci Hb) as Hcl.
  pose proof Hci as [Hlen Hpl Hdir Hpc Hms [Hnd Hts] Hm Hc He Hmd Hcd]. destruct Hpc as (given & Hinv & Hgm & Hgt). cbn [fst snd] in *.
  destruct (lookup_lt_is_Some_2 cs i ltac:(lia)) as [c Hci']. destruct (inv_lookup _ _ _ _ _ _ Hinv Hci') as (Hok & _).
  destruct (compute_cut_total MemoryNumber ComputeNumber memory_pos (Z.of_nat i) thread table_size c ds (inv_dirs _ _ _ _ Hinv)) as (g & c' & ds' & E & _);
    [unfold table_chunks in Hcl; lia|].
  assert (0 < table_size ≤ kChunkSize) as Hsz by lia.
  pose proof (compute_cut_inv MemoryNumber ComputeNumber memory_pos compute_pos nodes_fit i _ _ _ _ _ _ _ _ _ _ Hinv Hci' Hsz E) as Hinv'.
  destruct (compute_cut_cut MemoryNumber ComputeNumber compute_pos nodes_fit _ _ _ _ _ _ _ _ Hok E) as (Ecut & Emem & Hnodes & _).
  destruct (compute_cut_placed _ _ _ _ _ _ _ _ _ _ compute_pos (Forall_lookup_1 _ _ _ _ Hpl Hci') E) as [Hpl' Hn'].
  destruct (cut_account (compute_node MemoryNumber) table_size _ MemoryNumber _ _ table_size _ _ _ _ (inv_dirs _ _ _ _ Hinv) (ok_compute _ _ Hok) eq_refl
    ltac:(lia) ltac:(lia) ltac:(lia) Ecut) as (Hdebt & Hleft & Hheads & Hend).
  destruct (piece_below _ _ _ _ Hinv') as (d & _ & Hd & _ & Hfr); [cbn; lia|]. cbn in Hd, Hfr.
  assert (cluster_inv (<[i := c']> cs, ds') ms (MkGaddr (u16 (alloc_compute_nodes c' + MemoryNumber)) (offset g) :: ts)) as Hci2.
  { constructor; cbn [fst snd].
    - by rewrite length_insert.
    - by apply Forall_insert.
    - apply Forall_insert; [done|]. rewrite (compute_cut_fp _ _ _ _ _ _ _ _ _ _ E). by apply (Forall_lookup_1 _ _ _ _ Hdir Hci').
    - eexists. split_and!; [exact Hinv'| |].
      + intros p Hp. apply elem_of_app. left. by apply Hgm.
      + intros g' [->|Hg']%elem_of_cons; apply elem_of_app; [right; left|left; by apply Hgt].
    - done.
    - split; [|constructor; [cbn; rewrite wrap_small by (unfold fits; lia); lia|done]]. apply pairwise_cons; [done|].
      intros g' Hg'. unfold tables_apart. cbn. fold table_size. destruct (piece_new _ _ _ _ _ Hinv' (Hgt g' Hg')); cbn in *; lia.
    - intros n Hn. rewrite Hleft, decide_False, (total_same _ _ _ _ _ Hci') by (lia || unfold memory_heads; by rewrite Emem).
      specialize (Hm n Hn). lia.
    - rewrite Hleft, decide_True, (total_insert _ _ _ _ _ Hci') by done. unfold compute_heads at 2 3. lia.
    - intros d' Hd'. destruct (Hend _ _ Hd') as (d0 & Hd0 & ->). by apply He.
    - rewrite (total_same _ _ _ _ _ Hci') by (unfold memory_debt; by rewrite Emem). done.
    - rewrite (total_insert _ _ _ _ _ Hci'). unfold compute_debt at 2 3. cbn [length]. lia. }
  eexists _, _. split; [|exact Hci2]. unfold cluster_alloc, serve, at_index, Allocators.compute_alloc.
  cbn [r_client r_pool r_thread r_size fst snd]. rewrite Hci'. cbn [mbind result_bind].
  rewrite (Forall_lookup_1 _ _ _ _ Hdir Hci'), E.
  rewrite (frontier_left _ _ _ Hd), (ci_end _ _ _ Hci2 d Hd) in Hfr. pose proof (ci_compute _ _ _ Hci2) as Hc2.
  assert (offset g < (kLeafCacheSize - 1) * MB) as Hlim.
  { cbn [fst snd] in Hc2. rewrite (total_insert _ _ _ _ _ Hci') in Hc2. unfold compute_heads at 2 3 in Hc2. unfold table_chunks in Hcl.
    assert (kChunkSize = 33554432) by done. pose proof (Z.mul_div_le ((kLeafCacheSize - 1) * MB) kChunkSize). nia. }
  rewrite (proj2 (Z.leb_gt _ _)) by done. reflexivity.
Qed.

(** ** The promise to the index *)

Lemma cluster_memory_ok a ms ts i size :
  cluster_inv a ms ts → (i < n_clients)%nat → (length ms < cluster_blocks)%nat →
  size = InnerNode.size_of ∨ size = LeafNode.cur_node_size LeafNodeCapacity →
  ∃ g a', cluster_alloc MemoryPool i size a = Ok (g, a') ∧ cluster_inv a' ((g, size) :: ms) ts.
Proof. intros H Hi Hb Hs. destruct sizes as (_ & _ & ? & ?). apply cluster_memory; [done..|]. destruct Hs as [->| ->]; lia. Qed.

Lemma cluster_servers i : MemoryNumber ≤ Z.of_nat i ∧ (i < n_clients)%nat → MemoryNumber ≤ Z.of_nat i < MemoryNumber + ComputeNumber.
Proof. lia. Qed.

#[local] Instance cluster_spec : AllocatorSpec cluster := {
  is_server i := MemoryNumber ≤ Z.of_nat i ∧ (i < n_clients)%nat;
  machines := MemoryNumber + ComputeNumber;
  max_blocks := cluster_blocks;
  max_tables := cluster_tables;
  alloc_inv := cluster_inv;
  memory_nodes_pos := memory_pos;
  servers_compute := cluster_servers;
  alloc_nodes a ms ts H := conj (proj2 (ci_blocks a ms ts H)) (proj2 (ci_tables a ms ts H));
  alloc_apart a ms ts H := conj (proj1 (ci_blocks a ms ts H)) (proj1 (ci_tables a ms ts H));
  memory_alloc_ok a ms ts i size H Hi := cluster_memory_ok a ms ts i size H (proj2 Hi);
  compute_alloc_ok a ms ts i H Hi := cluster_compute a ms ts i H (proj2 Hi) }.

End cluster.

(** A cluster at start-up. *)
Lemma boot_end dsmSize n : ∀ ds,
  41 * kChunkSize ≤ dsmSize < 2 ^ 48 → Z.of_nat n ≤ 2 ^ 16 → boot dsmSize n = Ok ds →
  ∀ i d, ds !! i = Some d → dir_end d = dsmSize / kChunkSize * kChunkSize.
Proof.
  induction n as [|n IH]; intros ds Hs Hn E; cbn [boot] in E; [by injection E as <-|].
  apply bind_Ok in E as (ds0 & E0 & E). apply bind_Ok in E as (d0 & E1 & [= <-]).
  destruct (Directory.directory_make_spec dsmSize (Z.of_nat n)) as (d1 & E1' & _ & _ & _ & Ho & Hl); [unfold fits; lia|lia|].
  rewrite E1 in E1'. injection E1' as <-. intros i d [Hd|[_ Hd]]%lookup_app_Some; [by eapply IH; try done; lia|].
  apply list_lookup_singleton_Some in Hd as [_ <-]. unfold dir_end. by rewrite Ho, Hl.
Qed.

Lemma total_zero {X} (f : X → Z) l : Forall (λ x, f x = 0) l → total f l = 0.
Proof. induction 1 as [|x l Hx _ IH]; cbn; [done|]. unfold total in IH. lia. Qed.

Lemma cluster_boot MemoryNumber ComputeNumber dsmSize seeds :
  0 < MemoryNumber → 0 < ComputeNumber → 2 * MemoryNumber + ComputeNumber < 2 ^ 16 →
  Z.of_nat (length seeds) ≤ MemoryNumber + ComputeNumber → 41 * kChunkSize ≤ dsmSize < 2 ^ 48 →
  ∃ ds, boot dsmSize (Z.to_nat (MemoryNumber + ComputeNumber)) = Ok ds ∧
    cluster_inv MemoryNumber ComputeNumber (length seeds) (dsmSize / kChunkSize - 41) (clients seeds, ds) [] [].
Proof.
  intros Hm Hc Hn Hlen Hd.
  destruct (boot_spec dsmSize (Z.to_nat (MemoryNumber + ComputeNumber))) as (ds & E & Hl & Hds & Hleft); [lia|lia|].
  exists ds. split; [done|]. pose proof (boot_inv MemoryNumber ComputeNumber ds seeds Hm Hc Hn Hlen Hds) as Hinv.
  assert (∀ f, (∀ i seed, f (new_client seed (Z.of_nat i)) = 0) → total f (clients seeds) = 0) as Hz.
  { intros f Hf. apply total_zero, Forall_lookup. intros i c Hi. unfold clients in Hi. rewrite list_lookup_imap in Hi.
    destruct (seeds !! i); [|done]. injection Hi as <-. apply Hf. }
  constructor; cbn [fst snd length].
  - unfold clients. by rewrite length_imap.
  - apply Forall_lookup. intros i c Hi. unfold clients in Hi. rewrite list_lookup_imap in Hi. destruct (seeds !! i); by simplify_eq/=.
  - apply Forall_lookup. intros i c Hi. unfold clients in Hi. rewrite list_lookup_imap in Hi. destruct (seeds !! i); by simplify_eq/=.
  - exists []. split; [done|]. split; intros g Hg; by apply elem_of_nil in Hg.
  - split; [by intros ? ? ? ? _ ?|constructor].
  - split; [by intros ? ? ? ? _ ?|constructor].
  - intros n Hn'. rewrite Hleft, Hz by (done || lia). lia.
  - rewrite Hleft, Hz by (done || lia). lia.
  - intros d Hd'. rewrite (boot_end dsmSize (Z.to_nat (MemoryNumber + ComputeNumber)) ds Hd ltac:(lia) E _ _ Hd'). lia.
  - by rewrite Hz.
  - by rewrite Hz.
Qed.
