(* ===== verification/Index.v ===== *)
(** * The index, end to end

    The theorems about whole runs: servers start on a blank memory, then run
    reads, writes and scans in turn. *)

From S2P Require Import Prelude KVConfig RdmaConfig Hash LeafNode InnerTree Allocators LocalLockTable DMCache Tree TreeChain TreeLeaf TreeInner TreeFind TreeGrow TreeInsert TreeOps TreeWrite TreeScan TreeBoot TreeRefine TreeAlloc.
Open Scope Z_scope.

Import SkipVectorDM.

(** ** Height *)

Lemma tower_height `{CityHash} levels : ∀ bottom below,
  tower bottom below levels → (16 ^ (length levels - 1) ≤ length below)%nat.
Proof.
  induction levels as [|L rest IH]; intros bottom below; [done|]. intros ([Hch Hf Hs] & <- & Hrest).
  rewrite length_fmap. assert (L ≠ []) as HL by (intros ->; done). destruct rest as [|L2 rest].
  - cbn. destruct L as [|c L]; [done|]. destruct Hch as [Hc _]. destruct (io_first _ _ _ _ Hc) as (r & Hr & _).
    unfold recs. cbn. rewrite length_app. apply lookup_lt_Some in Hr. lia.
  - specialize (IH _ _ Hrest). rewrite length_fmap in IH. pose proof (level_half bottom L Hch) as Hhalf.
    change (length (L :: L2 :: rest) - 1)%nat with (S (length rest)).
    change (length (L2 :: rest) - 1)%nat with (length rest - 0)%nat in IH. rewrite Nat.sub_0_r in IH. rewrite Nat.pow_succ_r'. lia.
Qed.

Section index.
Context {CH : CityHash} {A : Type} `{!Allocator A, !AllocatorSpec A} (uninit : Gaddr) (stack : list Z).
Context (cache_mb : Z) (junk : nat → nat → InnerNode.t) (lock_junk : nat → Z → bool * Value * Value).
Context (al : A) (ids : list nat) (ops : list (nat * op)) (fuel : nat).

(** C1: the index is a map.  Servers on compute nodes start on a blank memory, then run reads,
    writes and scans in turn, each with its own cache of inner nodes that the
    other servers' writes make stale.  As long as the allocator, the cache and
    the fuel are provisioned for the number of writes, every operation returns
    (no assertion fails, no loop runs on, no access goes astray) and the replies
    are those of a map that is empty at first: a read returns the last value
    written, and a scan gathers (in [kv_results], which the code then drops) all
    pairs in a range of keys that extends past its end unless enough pairs were
    found. *)
Theorem index_refines_map :
  deployment cache_mb al ids ops fuel →
  ∃ w rs w' m,
    start uninit cache_mb junk lock_junk ids (Sys (blank al) []) = Ok w ∧
    turns uninit stack fuel ops w = Ok (rs, w') ∧ map_run ∅ ops rs m.
Proof.
  intros H. destruct (deployment_run uninit stack cache_mb junk lock_junk al ids ops fuel H) as (w & rs & w' & m & waste & E & E' & Hr & _).
  by exists w, rs, w', m.
Qed.

(** C3: the structure of the index.  After any provisioned run the shared memory
    is a tree that holds the map: the leaves form a chain whose ranges follow
    one another from the least to the greatest key, entries and fingerprint
    tables agree with each other and with the versions, each inner level indexes
    the one below it up to a single root that the root pointer names, every
    block belongs to exactly one node, and no lock is held.  The blocks are on
    memory nodes and the tables, with the copies servers made of them, on compute
    nodes; no two of them share a byte. *)
Theorem index_invariant :
  deployment cache_mb al ids ops fuel →
  ∃ w rs w' m lv levels waste,
    start uninit cache_mb junk lock_junk ids (Sys (blank al) []) = Ok w ∧
    turns uninit stack fuel ops w = Ok (rs, w') ∧ map_run ∅ ops rs m ∧
    tree lv levels waste (s_mem w') ∧ layout lv levels waste (s_mem w') ∧ contents lv = m ∧ (length lv ≤ 1 + writes ops)%nat.
Proof.
  intros H. destruct (deployment_run uninit stack cache_mb junk lock_junk al ids ops fuel H)
    as (w & rs & w' & m & waste & E & E' & Hr & lv & levels & Ht & Hm & _ & Hl).
  exists w, rs, w', m, lv, levels, waste. pose proof (tree_layout _ _ _ _ Ht). by split_and!.
Qed.

(** C13: [find_leaf] is total and right.  After any provisioned run, on every
    server and for every key below the greatest, the search from the root
    (through the server's possibly outdated root address) ends, changes nothing
    in the shared memory, and returns a record of the leaf that covers the key,
    with the version of its block and of its table. *)
Theorem find_leaf_covers :
  deployment cache_mb al ids ops fuel →
  ∃ w rs w',
    start uninit cache_mb junk lock_junk ids (Sys (blank al) []) = Ok w ∧
    turns uninit stack fuel ops w = Ok (rs, w') ∧
    ∀ sv k, sv ∈ s_servers w' → key_num k < key_num KeyMax →
      ∃ r s' b t, find_leaf fuel k (Mk (s_mem w') sv) = Ok (r, s') ∧ mem s' = s_mem w' ∧
        leaves (s_mem w') !! Rec.addr r = Some b ∧
        key_num (LeafHeader.min_key (l_hdr b)) ≤ key_num k < key_num (LeafHeader.max_key (l_hdr b)) ∧
        LeafHeader.version (l_hdr b) = Rec.version r ∧
        tables (s_mem w') !! Rec.fp_addr r = Some t ∧ FPTable.get_version t = Rec.version r.
Proof.
  intros H. destruct (deployment_run uninit stack cache_mb junk lock_junk al ids ops fuel H)
    as (w & rs & w' & m & waste & E & E' & Hr & lv & levels & Ht & Hm & Hall & Hl).
  exists w, rs, w'. split; [done|]. split; [done|]. intros sv k Hsv Hk. rewrite Forall_forall in Hall.
  destruct (Hall sv Hsv) as (Hok & Hid & _). pose proof (tr_index _ _ _ _ Ht) as Hix.
  destruct (index_count lv levels _ Hix Hl) as (_ & Hlev & _). pose proof (pv_fuel _ _ _ _ (dp_room _ _ _ _ _ H)) as Hfuel.
  pose proof (find_leaf_spec (cache_mb * MB / (InnerNode.size_of + DMCache.entry_size)) lv lv levels (Mk (s_mem w') sv) fuel k Hk) as Hf.
  apply wp_Ok in Hf as (r & s' & Ef & (c & Hc & -> & Hcov) & _ & Hkp & _); [|by apply (inv_ready _ lv levels waste); constructor|lia].
  destruct (tr_leaves _ _ _ _ Ht c Hc) as [Eb Et]. destruct (chain_elem l_link _ _ _ _ (ix_leaves _ _ Hix) Hc) as [n Hn].
  exists (leaf_rec c), s', (l_blk c), (l_tbl c). split_and!; try done; [apply (kp_mem _ _ Hkp)|apply Hcov..|apply (lo_table _ _ Hn)].
Qed.

(** C14: a cached node is never wrong without showing it.  After any provisioned
    run, whatever node a server has in its cache and however old it is, the
    record the node's search gives for a key it claims to cover names a block
    and a table of the index, and carries their version only if the leaf still
    covers the key; otherwise the version in memory is newer. *)
Theorem cached_records_detectable :
  deployment cache_mb al ids ops fuel →
  ∃ w rs w',
    start uninit cache_mb junk lock_junk ids (Sys (blank al) []) = Ok w ∧
    turns uninit stack fuel ops w = Ok (rs, w') ∧
    ∀ sv e p k r, sv ∈ s_servers w' → e ∈ DMCache.skiplist (dmcache sv) → DMCache.e_node e = Some p →
      InnerNode.check_hdr (DMCache.buffer (dmcache sv) p) k = true →
      InnerNode.search (DMCache.buffer (dmcache sv) p) k = Ok (r, true) →
      ∃ b t, leaves (s_mem w') !! Rec.addr r = Some b ∧ tables (s_mem w') !! Rec.fp_addr r = Some t ∧
        FPTable.get_version t = LeafHeader.version (l_hdr b) ∧
        (Rec.version r < FPTable.get_version t ∨
         Rec.version r = FPTable.get_version t ∧
         key_num (LeafHeader.min_key (l_hdr b)) ≤ key_num k < key_num (LeafHeader.max_key (l_hdr b))).
Proof.
  intros H. destruct (deployment_run uninit stack cache_mb junk lock_junk al ids ops fuel H)
    as (w & rs & w' & m & waste & E & E' & Hr & lv & levels & Ht & Hm & Hall & Hl).
  exists w, rs, w'. split; [done|]. split; [done|]. intros sv e p k r Hsv He Hp Hh Hs. rewrite Forall_forall in Hall.
  destruct (Hall sv Hsv) as ([[Hcore _] _ _] & _). destruct (DMCache.c_good _ _ _ _ Hcore e p He Hp) as [_ Hg].
  destruct (Hg k r Hh Hs) as (_ & c & Hc & <- & <- & Hv & Hcov). destruct (tr_leaves _ _ _ _ Ht c Hc) as [Eb Et].
  destruct (chain_elem l_link _ _ _ _ (ix_leaves _ _ (tr_index _ _ _ _ Ht)) Hc) as [n Hn].
  pose proof (tr_version _ _ _ (lo_table _ _ Hn)) as Ev. unfold FPTable.get_version. exists (l_blk c), (l_tbl c). rewrite Ev.
  split_and!; try done. destruct (Z.eq_dec (Rec.version r) (l_ver c)) as [Eq|Hne]; [right|left; lia]. split; [done|]. by apply Hcov.
Qed.

(** C39: the index is shallow.  After any provisioned run, an index of [h] inner
    levels has at least [16 ^ (h - 1)] leaves, and its inner nodes are fewer
    than a fifteenth of the leaves, up to the root; a write adds at most one
    leaf. *)
Theorem index_height :
  deployment cache_mb al ids ops fuel →
  ∃ w rs w' lv levels waste,
    start uninit cache_mb junk lock_junk ids (Sys (blank al) []) = Ok w ∧
    turns uninit stack fuel ops w = Ok (rs, w') ∧ tree lv levels waste (s_mem w') ∧
    (16 ^ (length levels - 1) ≤ length lv)%nat ∧ (15 * length (concat levels) ≤ length lv + 15)%nat ∧
    (length lv ≤ 1 + writes ops)%nat.
Proof.
  intros H. destruct (deployment_run uninit stack cache_mb junk lock_junk al ids ops fuel H)
    as (w & rs & w' & m & waste & E & E' & Hr & lv & levels & Ht & Hm & _ & Hl).
  exists w, rs, w', lv, levels, waste. pose proof (ix_tower _ _ (tr_index _ _ _ _ Ht)) as Htw.
  pose proof (tower_height _ _ _ Htw) as Hh. destruct (tower_count _ _ _ Htw) as [Hc _]. rewrite length_fmap in *. by split_and!.
Qed.

End index.

(** ** Over the allocators of a cluster *)

Lemma to_nat_div s k X : 0 < s → s * Z.of_nat k ≤ X → (k ≤ Z.to_nat (X / s))%nat.
Proof. intros Hs H. pose proof (Z.div_le_lower_bound X s (Z.of_nat k) Hs H). lia. Qed.

Section on_cluster.
Context {CH : CityHash} (uninit : Gaddr) (stack : list Z).
Context (junk : nat → nat → InnerNode.t) (lock_junk : nat → Z → bool * Value * Value).
Context (MemoryNumber ComputeNumber thread dsmSize : Z) (seeds : list Z).
Context (memory_pos : 0 < MemoryNumber) (compute_pos : 0 < ComputeNumber)
  (nodes_fit : 2 * MemoryNumber + ComputeNumber < 2 ^ 16) (clients_fit : Z.of_nat (length seeds) ≤ MemoryNumber + ComputeNumber).

Lemma nodes_fit' : MemoryNumber + ComputeNumber < 2 ^ 16.
Proof. lia. Qed.

#[local] Instance the_allocator : Allocator cluster := cluster_allocator MemoryNumber ComputeNumber thread.
#[local] Instance the_spec : AllocatorSpec cluster :=
  cluster_spec MemoryNumber ComputeNumber thread (length seeds) (dsmSize / kChunkSize - 41) memory_pos compute_pos nodes_fit' clients_fit.

(** The chunks left to the blocks and to the tables. *)
Definition spare (c : Z) : Z := c - 41 - Z.of_nat (length seeds).

Lemma cluster_provisioned nodes n d fuel :
  block_size * Z.of_nat (2 * (n / 15 + 1) + n + d + 2) ≤ spare (dsmSize / kChunkSize) * (kChunkSize - block_size) →
  table_size * Z.of_nat (n + 1) ≤
    Z.min (spare (dsmSize / kChunkSize)) (spare ((kLeafCacheSize - 1) * MB / kChunkSize)) * (kChunkSize - table_size) →
  Z.of_nat n < 2 ^ 31 → 100 * (2 + Z.of_nat (n / 15)) ≤ 99 * nodes → (2 * (n / 15 + 1) + n + 6 ≤ fuel)%nat →
  provisioned nodes n d fuel.
Proof.
  intros H1 H2 H3 H4 H5. destruct sizes as (Hb & Ht & _). constructor; try done.
  - apply to_nat_div; [lia|]. exact H1.
  - apply Nat.lt_le_trans with (n + 1)%nat; [lia|]. apply to_nat_div; [lia|].
    unfold table_chunks, spare in *. by rewrite <- Z.sub_min_distr_r.
Qed.


End on_cluster.

(** ** A small deployment

    One memory node and two compute nodes, whose servers write, read and scan. *)

#[local] Instance sample_alloc : Allocator cluster := the_allocator 1 2 0.
#[local] Instance sample_alloc_spec : AllocatorSpec cluster := the_spec 1 2 0 (8 * GB) [5; 9; 4] eq_refl eq_refl eq_refl ltac:(done).

Definition sample_cluster : cluster := (clients [5; 9; 4], match boot (8 * GB) 3 with Ok ds => ds | Err _ => [] end).
Definition sample_ops : list (nat * op) := [(0%nat, Write KeyNull 7); (1%nat, Read KeyNull 0); (1%nat, Scan KeyNull KeyMax 10)].

Lemma sample_deployment : deployment 1 sample_cluster [1%nat; 2%nat] sample_ops 20.
Proof.
  constructor.
  - destruct (cluster_boot 1 2 (8 * GB) [5; 9; 4]) as (ds & E & H); [done|done|done|done|by vm_compute|].
    unfold sample_cluster. change (Z.to_nat (1 + 2)) with 3%nat in E. rewrite E. exact H.
  - repeat (apply Forall_cons; split; [cbn; lia|]). constructor.
  - done.
  - apply (cluster_provisioned 1 2 0 (8 * GB) [5; 9; 4] eq_refl eq_refl eq_refl ltac:(done)); [by vm_compute..|vm_compute; lia].
  - assert (key_num KeyNull < key_num KeyMax) as Hk by (by vm_compute).
    repeat (apply Forall_cons; split; [split; [exact Hk|cbn; lia]|]). constructor.
Qed.

#[local] Existing Instance InnerNode.sample_hash.
Abbreviation sample_start := (start Gaddr_Null 1 (λ _ _, InnerNode.zero) (λ _ _, (false, 0, 0)) [1%nat; 2%nat] (Sys (blank sample_cluster) [])).
Abbreviation sample_turns := (turns Gaddr_Null [] 20 sample_ops).

Lemma index_refines_map_witness :
  ∃ w b res w', sample_start = Ok w ∧ sample_turns w = Ok ([Written; Value_read b 7; Scanned res], w').
Proof.
  destruct (index_refines_map Gaddr_Null [] 1 (λ _ _, InnerNode.zero) (λ _ _, (false, 0, 0)) sample_cluster
    [1%nat; 2%nat] sample_ops 20 sample_deployment) as (w & rs & w' & m & E & E' & Hr).
  inversion Hr as [|? ? ? ? r1 ? m1 ? H1 Hr1]; subst. destruct r1; [destruct H1| |destruct H1]. cbn in H1. subst m1.
  inversion Hr1 as [|? ? ? ? r2 ? m2 ? H2 Hr2]; subst. destruct r2 as [b v| |]; [|destruct H2|destruct H2]. destruct H2 as (Ha & _ & ->).
  inversion Hr2 as [|? ? ? ? r3 ? m3 ? H3 Hr3]; subst. destruct r3 as [| |res]; [destruct H3|destruct H3|].
  inversion Hr3; subst. unfold answer in Ha. rewrite lookup_insert_eq in Ha. subst v.
  exists w, b, res, w'. split; [exact E|exact E'].
Defined.

Lemma index_invariant_witness :
  ∃ w rs w' lv levels waste, sample_start = Ok w ∧ sample_turns w = Ok (rs, w') ∧ tree lv levels waste (s_mem w') ∧
    layout lv levels waste (s_mem w') ∧ (length lv ≤ 2)%nat.
Proof.
  destruct (index_invariant Gaddr_Null [] 1 (λ _ _, InnerNode.zero) (λ _ _, (false, 0, 0)) sample_cluster
    [1%nat; 2%nat] sample_ops 20 sample_deployment) as (w & rs & w' & m & lv & levels & waste & E & E' & _ & Ht & Hy & _ & Hl).
  exists w, rs, w', lv, levels, waste. split; [exact E|]. split; [exact E'|]. split; [exact Ht|]. split; [exact Hy|exact Hl].
Defined.

Lemma find_leaf_covers_witness :
  ∃ w rs w', sample_start = Ok w ∧ sample_turns w = Ok (rs, w') ∧
    ∀ sv, sv ∈ s_servers w' → ∃ r s', find_leaf 20 KeyNull (Mk (s_mem w') sv) = Ok (r, s').
Proof.
  destruct (find_leaf_covers Gaddr_Null [] 1 (λ _ _, InnerNode.zero) (λ _ _, (false, 0, 0)) sample_cluster
    [1%nat; 2%nat] sample_ops 20 sample_deployment) as (w & rs & w' & E & E' & H).
  exists w, rs, w'. split; [exact E|]. split; [exact E'|]. intros sv Hsv.
  destruct (H sv KeyNull Hsv ltac:(by vm_compute)) as (r & s' & b & t & Ef & _). exists r, s'. exact Ef.
Defined.

Lemma cached_records_detectable_witness :
  ∃ w rs w', sample_start = Ok w ∧ sample_turns w = Ok (rs, w') ∧
    ∀ sv e p k r, sv ∈ s_servers w' → e ∈ DMCache.skiplist (dmcache sv) → DMCache.e_node e = Some p →
      InnerNode.check_hdr (DMCache.buffer (dmcache sv) p) k = true →
      InnerNode.search (DMCache.buffer (dmcache sv) p) k = Ok (r, true) → ∃ b, leaves (s_mem w') !! Rec.addr r = Some b.
Proof.
  destruct (cached_records_detectable Gaddr_Null [] 1 (λ _ _, InnerNode.zero) (λ _ _, (false, 0, 0)) sample_cluster
    [1%nat; 2%nat] sample_ops 20 sample_deployment) as (w & rs & w' & E & E' & H).
  exists w, rs, w'. split; [exact E|]. split; [exact E'|]. intros sv e p k r H1 H2 H3 H4 H5.
  destruct (H sv e p k r H1 H2 H3 H4 H5) as (b & t & Eb & _). exists b. exact Eb.
Defined.

Lemma index_height_witness :
  ∃ w rs w' lv levels waste, sample_start = Ok w ∧ sample_turns w = Ok (rs, w') ∧ tree lv levels waste (s_mem w') ∧
    (16 ^ (length levels - 1) ≤ length lv ≤ 2)%nat.
Proof.
  destruct (index_height Gaddr_Null [] 1 (λ _ _, InnerNode.zero) (λ _ _, (false, 0, 0)) sample_cluster
    [1%nat; 2%nat] sample_ops 20 sample_deployment) as (w & rs & w' & lv & levels & waste & E & E' & Ht & Hh & _ & Hl).
  exists w, rs, w', lv, levels, waste. split; [exact E|]. split; [exact E'|]. split; [exact Ht|]. split; [exact Hh|exact Hl].
Defined.

