(* ===== verification/LsmCoding.v ===== *)
(** * dLSM: the encoding of numbers and strings

    [dLSM/util/coding.h] and [coding.cc].  A [Slice], a [std::string] and a
    buffer between [p] and [limit] are lists of bytes; a [Put] returns the bytes
    it appends, a [Get] the value and the bytes that remain, or nothing where the
    source returns false or null.  The processor is little-endian, as
    [port::kLittleEndian] says of it. *)
From S2P Require Import Prelude.

Module Coding.

(** ** Numbers of fixed width *)

Definition EncodeFixed16 (value : Z) : list Z := le_bytes 2 value.
Definition EncodeFixed32 (value : Z) : list Z := le_bytes 4 value.
Definition EncodeFixed64 (value : Z) : list Z := le_bytes 8 value.

(** The first [n] bytes at a pointer; fewer are undefined behaviour. *)
Definition decode_fixed (n : nat) (ptr : list Z) : result Z :=
  if (n <=? length ptr)%nat then Ok (le_num (take n ptr)) else Err OutOfBounds.

Definition DecodeFixed16 (ptr : list Z) : result Z := decode_fixed 2 ptr.
Definition DecodeFixed32 (ptr : list Z) : result Z := decode_fixed 4 ptr.
Definition DecodeFixed64 (ptr : list Z) : result Z := decode_fixed 8 ptr.

Definition get_fixed (n : nat) (input : list Z) : option (Z * list Z) :=
  if (length input <? n)%nat then None else Some (le_num (take n input), drop n input).

Definition GetFixed16 (input : list Z) : option (Z * list Z) := get_fixed 2 input.
Definition GetFixed32 (input : list Z) : option (Z * list Z) := get_fixed 4 input.
Definition GetFixed64 (input : list Z) : option (Z * list Z) := get_fixed 8 input.

(** ** Numbers of variable width *)

Definition B : Z := 128.

Definition EncodeVarint32 (v : Z) : list Z :=
  if v <? Z.shiftl 1 7 then [u8 v]
  else if v <? Z.shiftl 1 14 then [u8 (Z.lor v B); u8 (Z.shiftr v 7)]
  else if v <? Z.shiftl 1 21 then [u8 (Z.lor v B); u8 (Z.lor (Z.shiftr v 7) B); u8 (Z.shiftr v 14)]
  else if v <? Z.shiftl 1 28 then
    [u8 (Z.lor v B); u8 (Z.lor (Z.shiftr v 7) B); u8 (Z.lor (Z.shiftr v 14) B); u8 (Z.shiftr v 21)]
  else
    [u8 (Z.lor v B); u8 (Z.lor (Z.shiftr v 7) B); u8 (Z.lor (Z.shiftr v 14) B);
     u8 (Z.lor (Z.shiftr v 21) B); u8 (Z.shiftr v 28)].

(** [while (v >= B)], for at most [fuel] bytes. *)
Fixpoint varint64_loop (fuel : nat) (v : Z) : list Z :=
  match fuel with
  | O => []
  | S fuel =>
      if B <=? v then u8 (Z.lor (Z.land v (B - 1)) B) :: varint64_loop fuel (Z.shiftr v 7) else [u8 v]
  end.

Definition kMaxVarint64Length : nat := 10.

Definition EncodeVarint64 (v : Z) : list Z := varint64_loop kMaxVarint64Length v.

Fixpoint length_loop (fuel : nat) (v len : Z) : Z :=
  match fuel with
  | O => len
  | S fuel => if 128 <=? v then length_loop fuel (Z.shiftr v 7) (len + 1) else len
  end.

Definition VarintLength (v : Z) : Z := length_loop kMaxVarint64Length v 1.

(** The loop of [GetVarint32PtrFallback] and [GetVarint64Ptr], which differ in
    the width [w] of the result and the last shift. *)
Fixpoint varint_ptr (w last_shift : Z) (p : list Z) (shift result : Z) : option (Z * list Z) :=
  match p with
  | [] => None
  | byte :: p =>
      if shift <=? last_shift then
        if negb (Z.land byte 128 =? 0) then
          varint_ptr w last_shift p (shift + 7) (Z.lor result (wrap w (Z.shiftl (Z.land byte 127) shift)))
        else Some (Z.lor result (wrap w (Z.shiftl byte shift)), p)
      else None
  end.

Definition GetVarint32PtrFallback (p : list Z) : option (Z * list Z) := varint_ptr 32 28 p 0 0.

Definition GetVarint32Ptr (p : list Z) : option (Z * list Z) :=
  match p with
  | byte :: rest => if Z.land byte 128 =? 0 then Some (byte, rest) else GetVarint32PtrFallback p
  | [] => GetVarint32PtrFallback p
  end.

Definition GetVarint64Ptr (p : list Z) : option (Z * list Z) := varint_ptr 64 63 p 0 0.

Definition PutVarint32 (dst : list Z) (v : Z) : list Z := dst ++ EncodeVarint32 v.
Definition PutVarint64 (dst : list Z) (v : Z) : list Z := dst ++ EncodeVarint64 v.
Definition PutFixed32 (dst : list Z) (v : Z) : list Z := dst ++ EncodeFixed32 v.
Definition PutFixed64 (dst : list Z) (v : Z) : list Z := dst ++ EncodeFixed64 v.
Definition GetVarint32 (input : list Z) : option (Z * list Z) := GetVarint32Ptr input.
Definition GetVarint64 (input : list Z) : option (Z * list Z) := GetVarint64Ptr input.

(** ** Signed numbers *)

(** Conversion to a signed 64-bit number. *)
Definition int64 (x : Z) : Z := (x + 2 ^ 63) mod 2 ^ 64 - 2 ^ 63.

Definition i64ToZigzag (l : Z) : Z := Z.lxor (u64 (Z.shiftl (u64 l) 1)) (u64 (Z.shiftr l 63)).

Definition zigzagToI64 (n : Z) : Z := int64 (Z.lxor (Z.shiftr n 1) (u64 (- Z.land n 1))).

Definition PutVarsignedint64 (dst : list Z) (v : Z) : list Z := dst ++ EncodeVarint64 (i64ToZigzag v).

Definition GetVarsignedint64 (input : list Z) : option (Z * list Z) :=
  '(u, rest) ← GetVarint64Ptr input; Some (zigzagToI64 u, rest).

(** ** Strings *)

Definition PutLengthPrefixedSlice (dst value : list Z) : list Z :=
  PutVarint32 dst (u32 (Z.of_nat (length value))) ++ value.

Definition GetLengthPrefixedSlice (input : list Z) : option (list Z * list Z) :=
  '(len, input) ← GetVarint32 input;
  if len <=? Z.of_nat (length input) then Some (take (Z.to_nat len) input, drop (Z.to_nat len) input) else None.

Definition PutLengthPrefixedSliceParts (dst : list Z) (total_bytes : Z) (parts : list (list Z)) : list Z :=
  let total := fold_left (λ n p, n + Z.of_nat (length p)) parts total_bytes in
  PutVarint32 dst (u32 total) ++ concat parts.

Definition PutLengthPrefixedSlicePartsWithPadding (dst : list Z) (parts : list (list Z)) (pad_sz : nat) : list Z :=
  PutLengthPrefixedSliceParts dst (Z.of_nat pad_sz) parts ++ replicate pad_sz 0.

(** The bytes before the delimiter, and those after it. *)
Fixpoint until_len (delimiter : Z) (l : list Z) : nat :=
  match l with
  | [] => 0
  | b :: l => if b =? delimiter then 0 else S (until_len delimiter l)
  end.

Definition GetSliceUntil (slice : list Z) (delimiter : Z) : list Z * list Z :=
  let len := until_len delimiter slice in
  (take len slice, drop (len + if (len <? length slice)%nat then 1 else 0) slice).

End Coding.
Import Coding.

(** ** Bits of a byte *)

(** A fact about the bytes that holds of each of the 256. *)
Lemma byte_cases (P : Z → bool) : forallb P (seqZ 0 256) = true → ∀ b, byte b → P b = true.
Proof.
  intros H b Hb. rewrite forallb_forall in H. apply H, list_elem_of_In, elem_of_seqZ.
  unfold byte, fits in Hb. lia.
Qed.

Lemma byte_more b : byte b → negb (Z.land b 128 =? 0) = (128 <=? b).
Proof.
  intros Hb. apply eqb_prop, (byte_cases (λ b, Bool.eqb (negb (Z.land b 128 =? 0)) (128 <=? b))); [|done].
  vm_compute. reflexivity.
Qed.

Lemma byte_low b : byte b → Z.land b 127 = b mod 128.
Proof.
  intros Hb. apply Z.eqb_eq, (byte_cases (λ b, Z.land b 127 =? b mod 128)); [|done]. vm_compute. reflexivity.
Qed.

Lemma low_lor x : 0 ≤ x < 128 → Z.lor x B = x + 128.
Proof. intros Hx. apply (lor_shiftl 7 x 1); [lia|]. unfold fits. lia. Qed.

Lemma byte_mark b : byte b → Z.lor b B = b mod 128 + 128.
Proof.
  intros Hb. apply Z.eqb_eq, (byte_cases (λ b, Z.lor b B =? b mod 128 + 128)); [|done]. vm_compute. reflexivity.
Qed.

Lemma wrap_lor w x y : 0 ≤ w → wrap w (Z.lor x y) = Z.lor (wrap w x) (wrap w y).
Proof. intros Hw. unfold wrap. rewrite <- !Z.land_ones by done. apply Z.land_lor_distr_l. Qed.

(** A byte of seven bits with the mark that more follow. *)
Lemma more_byte x : 0 ≤ x → u8 (Z.lor x B) = x mod 128 + 128.
Proof.
  intros Hx. rewrite wrap_lor, (wrap_small 8 B), byte_mark by (done || by apply wrap_fits).
  unfold wrap. rewrite <- Znumtheory.Zmod_div_mod; [done|lia|lia|]. by exists 2.
Qed.

(** The bytes of seven bits of [v], the last one without the mark. *)
Fixpoint septets (n : nat) (v : Z) : list Z :=
  match n with
  | O => [v]
  | S n => if v <? 128 then [v] else v mod 128 + 128 :: septets n (v / 128)
  end.

Lemma EncodeVarint32_septets v : fits 32 v → EncodeVarint32 v = septets 4 v.
Proof.
  intros [H0 Hv]. unfold EncodeVarint32, septets. rewrite !Z.shiftl_mul_pow2, !Z.shiftr_div_pow2 by lia.
  rewrite !more_byte by (try apply Z.div_pos; lia).
  change (2 ^ 14) with (128 * 128). change (2 ^ 21) with (128 * 128 * 128). change (2 ^ 28) with (128 * 128 * 128 * 128).
  change (2 ^ 7) with 128. rewrite <- !Z.div_div by lia. rewrite !Z.mul_1_l.
  set (v1 := v / 128). set (v2 := v1 / 128). set (v3 := v2 / 128). set (v4 := v3 / 128).
  assert (v1 = v / 128 ∧ v2 = v1 / 128 ∧ v3 = v2 / 128 ∧ v4 = v3 / 128) as (E1 & E2 & E3 & E4) by done.
  clearbody v1 v2 v3 v4.
  assert (0 ≤ v1 ∧ 0 ≤ v2 ∧ 0 ≤ v3 ∧ 0 ≤ v4 < 16) by (Z.to_euclidean_division_equations; lia).
  destruct (Z.ltb_spec v 128); [by rewrite wrap_small by (unfold fits; lia)|].
  destruct (Z.ltb_spec v1 128), (Z.ltb_spec v (128 * 128)); try (Z.to_euclidean_division_equations; lia);
    [by rewrite wrap_small by (unfold fits; lia)|].
  destruct (Z.ltb_spec v2 128), (Z.ltb_spec v (128 * 128 * 128)); try (Z.to_euclidean_division_equations; lia);
    [by rewrite wrap_small by (unfold fits; lia)|].
  destruct (Z.ltb_spec v3 128), (Z.ltb_spec v (128 * 128 * 128 * 128)); try (Z.to_euclidean_division_equations; lia);
    [by rewrite wrap_small by (unfold fits; lia)|].
  by rewrite wrap_small by (unfold fits; lia).
Qed.

Lemma varint64_septets n v : 0 ≤ v < 128 ^ Z.of_nat (S n) → varint64_loop (S n) v = septets n v.
Proof.
  revert v. induction n as [|n IH]; intros v Hv.
  - cbn. unfold B. rewrite (proj2 (Z.leb_gt _ _)) by (cbn in Hv; lia). by rewrite wrap_small by (unfold fits; cbn in Hv; lia).
  - cbn [septets]. rewrite <- IH.
    + set (m := S n). cbn [varint64_loop]. unfold B. rewrite Z.leb_antisym. destruct (v <? 128) eqn:E; cbn [negb].
      * apply Z.ltb_lt in E. by rewrite wrap_small by (unfold fits; lia).
      * change 127 with (Z.ones 7). replace (128 - 1) with (Z.ones 7) by done.
        rewrite Z.land_ones, Z.shiftr_div_pow2 by lia. rewrite more_byte by (apply Z.mod_pos_bound; lia).
        change (2 ^ 7) with 128. by rewrite Z.mod_mod by lia.
    + rewrite (Nat2Z.inj_succ (S n)), Z.pow_succ_r in Hv by lia.
      split; [apply Z.div_pos; lia|apply Z.div_lt_upper_bound; lia].
Qed.

Lemma EncodeVarint64_septets v : fits 64 v → EncodeVarint64 v = septets 9 v.
Proof. intros [H0 Hv]. apply varint64_septets. cbn. lia. Qed.

Lemma septets_byte n v : 0 ≤ v < 128 ^ Z.of_nat (S n) → Forall byte (septets n v).
Proof.
  revert v. induction n as [|n IH]; intros v Hv.
  - constructor; [|done]. unfold byte, fits. cbn in Hv. lia.
  - cbn [septets]. destruct (Z.ltb_spec v 128); [constructor; [unfold byte, fits; lia|done]|].
    constructor; [pose proof (Z.mod_pos_bound v 128); unfold byte, fits; lia|]. apply IH.
    rewrite (Nat2Z.inj_succ (S n)), Z.pow_succ_r in Hv by lia.
    split; [apply Z.div_pos; lia|apply Z.div_lt_upper_bound; lia].
Qed.

(** The decoding loop, after [shift] bits are read into [acc]. *)
Lemma varint_ptr_septets w last n v shift acc rest :
  0 ≤ v < 128 ^ Z.of_nat (S n) → 0 ≤ shift → shift + 7 * Z.of_nat n ≤ last → 0 ≤ w →
  fits shift acc → v * 2 ^ shift < 2 ^ w →
  varint_ptr w last (septets n v ++ rest) shift acc = Some (acc + v * 2 ^ shift, rest).
Proof.
  revert v shift acc. induction n as [|n IH]; intros v shift acc Hv Hs Hl Hw Ha Hvw.
  - cbn [septets app varint_ptr]. assert (0 ≤ v < 128) as Hv' by (cbn in Hv; lia).
    rewrite (proj2 (Z.leb_le _ _)), byte_more by (unfold byte, fits; lia). rewrite (proj2 (Z.leb_gt 128 v)) by lia.
    rewrite wrap_small by (rewrite Z.shiftl_mul_pow2 by lia; unfold fits; lia). by rewrite lor_shiftl by done.
  - cbn [septets]. destruct (Z.ltb_spec v 128) as [Hlt|Hge].
    + cbn [app varint_ptr]. rewrite (proj2 (Z.leb_le _ _)), byte_more by (unfold byte, fits; lia).
      rewrite (proj2 (Z.leb_gt 128 v)) by lia.
      rewrite wrap_small by (rewrite Z.shiftl_mul_pow2 by lia; unfold fits; lia). by rewrite lor_shiftl by done.
    + pose proof (Z.mod_pos_bound v 128 ltac:(lia)) as Hr. pose proof (Z.div_mod v 128 ltac:(lia)) as Hd.
      assert (byte (v mod 128 + 128)) as Hb by (unfold byte, fits; lia).
      cbn [app varint_ptr]. rewrite (proj2 (Z.leb_le _ _)), byte_more, byte_low by (done || lia).
      rewrite (proj2 (Z.leb_le 128 _)) by lia. replace ((v mod 128 + 128) mod 128) with (v mod 128)
        by (rewrite (Z.add_mod _ 128), Z.mod_same, Z.add_0_r by lia; by rewrite !Z.mod_mod by lia).
      assert (0 < 2 ^ shift) by (apply Z.pow_pos_nonneg; lia).
      rewrite wrap_small by (rewrite Z.shiftl_mul_pow2 by lia; unfold fits; nia).
      rewrite lor_shiftl by done.
      assert (2 ^ (shift + 7) = 128 * 2 ^ shift) as Ep by (rewrite Z.pow_add_r by lia; change (2 ^ 7) with 128; lia).
      rewrite IH; [f_equal; f_equal; rewrite Ep; nia| | | |done| |].
      * rewrite (Nat2Z.inj_succ (S n)), Z.pow_succ_r in Hv by lia.
        split; [apply Z.div_pos; lia|apply Z.div_lt_upper_bound; lia].
      * lia.
      * lia.
      * unfold fits in *. rewrite Ep. nia.
      * rewrite Ep. nia.
Qed.

(** ** Round trips *)

Lemma GetVarint32_Encode v rest : fits 32 v → GetVarint32 (EncodeVarint32 v ++ rest) = Some (v, rest).
Proof.
  intros Hv. rewrite EncodeVarint32_septets by done. unfold GetVarint32, GetVarint32Ptr, GetVarint32PtrFallback.
  assert (varint_ptr 32 28 (septets 4 v ++ rest) 0 0 = Some (v, rest)) as E.
  { rewrite varint_ptr_septets; [by rewrite Z.mul_1_r|unfold fits in Hv; cbn; lia|lia|lia|lia|done|].
    rewrite Z.mul_1_r. apply Hv. }
  destruct (septets 4 v ++ rest) as [|b l] eqn:El; [done|].
  destruct (Z.land b 128 =? 0) eqn:Eb; [|done].
  cbn in E. rewrite Eb in E. cbn in E. rewrite Z.shiftl_0_r in E. rewrite <- E. f_equal. f_equal.
  assert (Forall byte (septets 4 v)) as Hb by (apply septets_byte; unfold fits in Hv; cbn; lia).
  assert (byte b) as Hbb.
  { destruct (septets 4 v) as [|b' l'] eqn:Es; [cbn in Es; by case_match|].
    injection El as <- _. by apply Forall_inv in Hb. }
  rewrite wrap_small; [done|]. by apply (fits_le 8).
Qed.

Lemma GetVarint64_Encode v rest : fits 64 v → GetVarint64 (EncodeVarint64 v ++ rest) = Some (v, rest).
Proof.
  intros Hv. rewrite EncodeVarint64_septets by done. unfold GetVarint64, GetVarint64Ptr.
  rewrite varint_ptr_septets; [by rewrite Z.mul_1_r|unfold fits in Hv; cbn; lia|lia|lia|lia|done|].
  rewrite Z.mul_1_r. apply Hv.
Qed.

Lemma get_fixed_encode n v rest : fits (8 * Z.of_nat n) v → get_fixed n (le_bytes n v ++ rest) = Some (v, rest).
Proof.
  intros Hv. unfold get_fixed. rewrite length_app, length_le_bytes.
  rewrite (proj2 (Nat.ltb_ge _ _)) by lia. rewrite take_app_length', drop_app_length' by (by rewrite length_le_bytes).
  by rewrite le_num_le_bytes.
Qed.

Lemma decode_fixed_encode n v rest : fits (8 * Z.of_nat n) v → decode_fixed n (le_bytes n v ++ rest) = Ok v.
Proof.
  intros Hv. unfold decode_fixed. rewrite length_app, length_le_bytes.
  rewrite (proj2 (Nat.leb_le _ _)) by lia. rewrite take_app_length' by (by rewrite length_le_bytes).
  by rewrite le_num_le_bytes.
Qed.

Lemma GetLengthPrefixed_Put s rest :
  Z.of_nat (length s) < 2 ^ 32 →
  GetLengthPrefixedSlice (PutLengthPrefixedSlice [] s ++ rest) = Some (s, rest).
Proof.
  intros Hs. unfold GetLengthPrefixedSlice, PutLengthPrefixedSlice, PutVarint32. cbn [app].
  rewrite wrap_small by (unfold fits; lia). rewrite <- app_assoc, GetVarint32_Encode by (unfold fits; lia). cbn.
  rewrite (proj2 (Z.leb_le _ _)) by (rewrite length_app; lia). rewrite Nat2Z.id.
  by rewrite take_app_length, drop_app_length.
Qed.

(** ** Zigzag *)

Lemma lxor_ones w x : 0 ≤ w → fits w x → Z.lxor x (Z.ones w) = Z.ones w - x.
Proof.
  intros Hw [H0 Hx]. assert (Z.ldiff x (Z.ones w) = 0) as E.
  { destruct (decide (x = 0)) as [->|]; [apply Z.ldiff_0_l|].
    apply Z.ldiff_ones_r_low; [done|]. apply Z.log2_lt_pow2; lia. }
  rewrite Z.sub_nocarry_ldiff by done. apply Z.bits_inj'. intros i Hi.
  apply (f_equal (λ z, Z.testbit z i)) in E. rewrite Z.ldiff_spec, Z.bits_0 in E.
  rewrite Z.lxor_spec, Z.ldiff_spec. destruct (Z.testbit x i), (Z.testbit (Z.ones w) i); done.
Qed.

Lemma i64ToZigzag_spec l :
  - 2 ^ 63 ≤ l < 2 ^ 63 → i64ToZigzag l = if l <? 0 then - 2 * l - 1 else 2 * l.
Proof.
  intros Hl. unfold i64ToZigzag. rewrite Z.shiftl_mul_pow2, Z.shiftr_div_pow2 by lia. change (2 ^ 1) with 2.
  destruct (Z.ltb_spec l 0).
  - assert (l / 2 ^ 63 = -1) as -> by (symmetry; apply (Z.div_unique_pos _ _ _ (l + 2 ^ 63)); lia).
    assert (u64 l = l + 2 ^ 64) as -> by (symmetry; apply (Z.mod_unique_pos _ _ (-1)); lia).
    assert (u64 ((l + 2 ^ 64) * 2) = 2 * l + 2 ^ 64) as -> by (symmetry; apply (Z.mod_unique_pos _ _ 1); lia).
    change (u64 (-1)) with (Z.ones 64). rewrite lxor_ones by (unfold fits; lia). replace (Z.ones 64) with (2 ^ 64 - 1) by done. lia.
  - rewrite Z.div_small by lia. rewrite (wrap_small 64 l) by (unfold fits; lia).
    rewrite wrap_small by (unfold fits; lia). change (u64 0) with 0. rewrite Z.lxor_0_r. lia.
Qed.

Lemma zigzag_roundtrip l : - 2 ^ 63 ≤ l < 2 ^ 63 → zigzagToI64 (i64ToZigzag l) = l ∧ fits 64 (i64ToZigzag l).
Proof.
  intros Hl. rewrite i64ToZigzag_spec by done. unfold zigzagToI64. rewrite Z.shiftr_div_pow2 by lia.
  change (2 ^ 1) with 2. rewrite (λ x, Z.land_ones x 1 ltac:(lia) : Z.land x 1 = x mod 2).
  destruct (Z.ltb_spec l 0).
  - assert ((-2 * l - 1) / 2 = - l - 1) as -> by (symmetry; apply (Z.div_unique_pos _ _ _ 1); lia).
    assert ((-2 * l - 1) mod 2 = 1) as -> by (symmetry; apply (Z.mod_unique_pos _ _ (- l - 1)); lia).
    change (u64 (- (1))) with (Z.ones 64). rewrite lxor_ones by (unfold fits; lia).
    split; [|unfold fits; lia]. unfold int64. replace (Z.ones 64 - (- l - 1) + 2 ^ 63) with (l + 2 ^ 63 + 1 * 2 ^ 64) by (replace (Z.ones 64) with (2 ^ 64 - 1) by done; lia).
    rewrite Z.mod_add, Z.mod_small by lia. lia.
  - rewrite Z.mul_comm, Z.div_mul, Z.mod_mul by lia. change (u64 (- 0)) with 0. rewrite Z.lxor_0_r.
    split; [|unfold fits; lia]. unfold int64. rewrite Z.mod_small by lia. lia.
Qed.

(** ** Truncated input *)

Lemma varint_ptr_truncated w last l shift acc :
  Forall (λ b, byte b ∧ 128 ≤ b) l → varint_ptr w last l shift acc = None.
Proof.
  intros Hl. revert shift acc. induction Hl as [|b l [Hb Hge] _ IH]; intros shift acc; cbn; [done|].
  destruct (shift <=? last); [|done]. rewrite byte_more by done. by rewrite (proj2 (Z.leb_le _ _)).
Qed.

Lemma septets_take n v j :
  0 ≤ v < 128 ^ Z.of_nat (S n) → (j < length (septets n v))%nat →
  Forall (λ b, byte b ∧ 128 ≤ b) (take j (septets n v)).
Proof.
  revert v j. induction n as [|n IH]; intros v j Hv Hj.
  - cbn in Hj. by replace j with 0%nat by lia.
  - cbn [septets] in *. destruct (Z.ltb_spec v 128); [cbn in Hj; by replace j with 0%nat by lia|].
    destruct j as [|j]; [done|]. cbn in Hj |- *. constructor.
    + pose proof (Z.mod_pos_bound v 128). unfold byte, fits. lia.
    + apply IH; [|lia]. rewrite (Nat2Z.inj_succ (S n)), Z.pow_succ_r in Hv by lia.
      split; [apply Z.div_pos; lia|apply Z.div_lt_upper_bound; lia].
Qed.

Lemma GetVarint64_truncated v j :
  fits 64 v → (j < length (EncodeVarint64 v))%nat → GetVarint64 (take j (EncodeVarint64 v)) = None.
Proof.
  intros Hv. rewrite EncodeVarint64_septets by done. intros Hj.
  apply varint_ptr_truncated, septets_take; [unfold fits in Hv; cbn; lia|done].
Qed.

Lemma GetVarint32_truncated v j :
  fits 32 v → (j < length (EncodeVarint32 v))%nat → GetVarint32 (take j (EncodeVarint32 v)) = None.
Proof.
  intros Hv. rewrite EncodeVarint32_septets by done. intros Hj.
  pose proof (septets_take 4 v j) as Ht. specialize (Ht ltac:(unfold fits in Hv; cbn; lia) Hj).
  unfold GetVarint32, GetVarint32Ptr, GetVarint32PtrFallback.
  destruct (take j (septets 4 v)) as [|b l] eqn:E; [done|]. pose proof (Forall_inv Ht) as [Hb Hge].
  pose proof (byte_more b Hb) as Hm. rewrite (proj2 (Z.leb_le 128 b)) in Hm by done.
  apply negb_true_iff in Hm. rewrite Hm. by apply varint_ptr_truncated.
Qed.

(** ** Lengths *)

Lemma length_loop_septets n v len :
  0 ≤ v < 128 ^ Z.of_nat (S n) → length_loop (S n) v len = len + Z.of_nat (length (septets n v)) - 1.
Proof.
  revert v len. induction n as [|n IH]; intros v len Hv.
  - cbn. rewrite (proj2 (Z.leb_gt _ _)) by (cbn in Hv; lia). lia.
  - cbn [septets]. set (m := S n) in *. cbn [length_loop]. rewrite Z.leb_antisym.
    destruct (Z.ltb_spec v 128); cbn [negb length]; [lia|].
    rewrite Z.shiftr_div_pow2 by lia. change (2 ^ 7) with 128. rewrite IH; [lia|].
    unfold m in *. rewrite (Nat2Z.inj_succ (S n)), Z.pow_succ_r in Hv by lia.
    split; [apply Z.div_pos; lia|apply Z.div_lt_upper_bound; lia].
Qed.

Lemma VarintLength_spec v : fits 64 v → VarintLength v = Z.of_nat (length (EncodeVarint64 v)).
Proof.
  intros Hv. rewrite EncodeVarint64_septets by done. unfold VarintLength, kMaxVarint64Length.
  rewrite length_loop_septets by (unfold fits in Hv; cbn; lia). lia.
Qed.

Lemma length_septets n v : (1 ≤ length (septets n v) ≤ S n)%nat.
Proof.
  revert v. induction n as [|n IH]; intros v; cbn; [lia|]. destruct (v <? 128); cbn; [lia|].
  specialize (IH (v / 128)). lia.
Qed.

Lemma EncodeVarint32_bytes v :
  fits 32 v → Forall byte (EncodeVarint32 v) ∧ (1 ≤ length (EncodeVarint32 v) ≤ 5)%nat.
Proof.
  intros Hv. rewrite EncodeVarint32_septets by done. split; [|apply length_septets].
  apply septets_byte. unfold fits in Hv. cbn. lia.
Qed.

(** C33: what is put is got back.  Numbers of fixed and variable width, signed
    numbers and strings with their length are read back from the front of any
    bytes that start with their encoding, and the rest is left; a number of
    variable width that is cut short is refused; [VarintLength] is the length of
    the encoding. *)
Theorem coding_roundtrip v32 v64 i s rest :
  fits 32 v32 → fits 64 v64 → - 2 ^ 63 ≤ i < 2 ^ 63 → Z.of_nat (length s) < 2 ^ 32 →
  GetFixed32 (PutFixed32 [] v32 ++ rest) = Some (v32, rest) ∧
  GetFixed64 (PutFixed64 [] v64 ++ rest) = Some (v64, rest) ∧
  GetVarint32 (PutVarint32 [] v32 ++ rest) = Some (v32, rest) ∧
  GetVarint64 (PutVarint64 [] v64 ++ rest) = Some (v64, rest) ∧
  GetVarsignedint64 (PutVarsignedint64 [] i ++ rest) = Some (i, rest) ∧
  GetLengthPrefixedSlice (PutLengthPrefixedSlice [] s ++ rest) = Some (s, rest) ∧
  (∀ j, (j < length (EncodeVarint32 v32))%nat → GetVarint32 (take j (EncodeVarint32 v32)) = None) ∧
  (∀ j, (j < length (EncodeVarint64 v64))%nat → GetVarint64 (take j (EncodeVarint64 v64)) = None) ∧
  VarintLength v64 = Z.of_nat (length (EncodeVarint64 v64)).
Proof.
  intros H32 H64 Hi Hs. destruct (zigzag_roundtrip i Hi) as [Hz Hzf]. split_and!.
  - by apply (get_fixed_encode 4).
  - by apply (get_fixed_encode 8).
  - by apply GetVarint32_Encode.
  - by apply GetVarint64_Encode.
  - unfold GetVarsignedint64, PutVarsignedint64. cbn [app].
    pose proof (GetVarint64_Encode _ rest Hzf) as E. unfold GetVarint64 in E. rewrite E. cbn. by rewrite Hz.
  - by apply GetLengthPrefixed_Put.
  - intros j Hj. by apply GetVarint32_truncated.
  - intros j Hj. by apply GetVarint64_truncated.
  - by apply VarintLength_spec.
Qed.

Lemma coding_roundtrip_witness :
  GetVarint32 (PutVarint32 [] 300 ++ [1]) = Some (300, [1]) ∧ PutVarint32 [] 300 = [172; 2] ∧
  GetVarsignedint64 (PutVarsignedint64 [] (-65) ++ [1]) = Some (-65, [1]).
Proof.
  destruct (coding_roundtrip 300 5 (-65) [7; 8] [1]) as (_ & _ & H & _ & H' & _); [done|done|lia|done|].
  split; [exact H|]. split; [reflexivity|exact H'].
Defined.
