(* ===== verification/LsmFile.v ===== *)
(** * dLSM: files

    The interfaces [WritableFile] and [SequentialFile] of
    [dLSM/include/TimberSaw/env.h], as classes with the laws the log relies on,
    and their POSIX implementations from [dLSM/util/env_posix.h].  The system
    calls are not part of the program: a file carries the outcomes that the next
    calls on its descriptor will have, in order, after which every call
    completes.  A status is true when it is [ok()]. *)
From S2P Require Import Prelude.

(** The size of a slice, at the type of the source. *)
Definition len {A} (l : list A) : Z := Z.of_nat (length l).

Definition ztake {A} (n : Z) (l : list A) : list A := take (Z.to_nat n) l.
Definition zdrop {A} (n : Z) (l : list A) : list A := drop (Z.to_nat n) l.

Lemma len_app {A} (l k : list A) : len (l ++ k) = len l + len k.
Proof. unfold len. rewrite length_app. lia. Qed.
Lemma len_cons {A} (x : A) l : len (x :: l) = len l + 1.
Proof. unfold len. cbn. lia. Qed.
Lemma len_nil {A} : len (@nil A) = 0.
Proof. done. Qed.
Lemma len_pos {A} (l : list A) : 0 ≤ len l.
Proof. unfold len. lia. Qed.
Lemma len_ztake {A} n (l : list A) : 0 ≤ n → len (ztake n l) = n `min` len l.
Proof. unfold len, ztake. rewrite length_take. lia. Qed.
Lemma len_zdrop {A} n (l : list A) : 0 ≤ n → len (zdrop n l) = 0 `max` (len l - n).
Proof. unfold len, zdrop. rewrite length_drop. lia. Qed.
Lemma len_ztake_le {A} n (l : list A) : len (ztake n l) ≤ 0 `max` n.
Proof. unfold len, ztake. rewrite length_take. lia. Qed.
Lemma len_ztake_len {A} n (l : list A) : len (ztake n l) ≤ len l.
Proof. unfold len, ztake. rewrite length_take. lia. Qed.
Lemma len_zero {A} (l : list A) : len l = 0 → l = [].
Proof. destruct l; [done|]. rewrite len_cons. pose proof (len_pos l). lia. Qed.
Lemma ztake_zdrop {A} n (l : list A) : ztake n l ++ zdrop n l = l.
Proof. apply take_drop. Qed.
Lemma ztake_all {A} n (l : list A) : len l ≤ n → ztake n l = l.
Proof. unfold len, ztake. intros. apply take_ge. lia. Qed.
Lemma zdrop_all {A} n (l : list A) : len l ≤ n → zdrop n l = [].
Proof. unfold len, zdrop. intros. apply drop_ge. lia. Qed.
Lemma ztake_app {A} n (l k : list A) : n = len l → ztake n (l ++ k) = l.
Proof. unfold len, ztake. intros ->. apply take_app_length'. lia. Qed.
Lemma zdrop_app {A} n (l k : list A) : n = len l → zdrop n (l ++ k) = k.
Proof. unfold len, zdrop. intros ->. apply drop_app_length'. lia. Qed.
Lemma ztake_app_le {A} n (l k : list A) : n ≤ len l → ztake n (l ++ k) = ztake n l.
Proof. unfold len, ztake. intros. apply take_app_le. lia. Qed.
Lemma ztake_app_ge {A} n (l k : list A) : len l ≤ n → ztake n (l ++ k) = l ++ ztake (n - len l) k.
Proof. unfold len, ztake. intros. rewrite take_app_ge by lia. f_equal. f_equal. lia. Qed.
Lemma zdrop_app_ge {A} n (l k : list A) : len l ≤ n → zdrop n (l ++ k) = zdrop (n - len l) k.
Proof. unfold len, zdrop. intros. rewrite drop_app_ge by lia. f_equal. lia. Qed.

Lemma ztake_neg {A} n (l : list A) : n ≤ 0 → ztake n l = [].
Proof. unfold ztake. intros. by replace (Z.to_nat n) with O by lia. Qed.
Lemma zdrop_ztake_app {A} n (l k : list A) : zdrop (len l) (ztake n (l ++ k)) = ztake (n - len l) k.
Proof.
  destruct (Z.le_gt_cases (len l) n); [by rewrite ztake_app_ge, zdrop_app|].
  rewrite (ztake_neg (n - len l)) by lia. apply zdrop_all. pose proof (len_ztake_le n (l ++ k)). pose proof (len_pos l). lia.
Qed.
Lemma prefix_take_app {A} (l k : list A) n : l `prefix_of` l ++ take n k ∧ l ++ take n k `prefix_of` l ++ k.
Proof. split; [by apply prefix_app_r|]. apply prefix_app. eexists. symmetry. apply take_drop. Qed.

#[export] Hint Rewrite @len_app @len_cons @len_nil : len.

(** ** The interfaces *)

Class WritableFile (F : Type) := {
  Append : F → list Z → F * bool;
  Flush : F → F * bool;
  (** the bytes the operating system has *)
  disk : F → list Z;
  (** the bytes appended that it has not yet been given *)
  buffered : F → list Z;
}.

(** An append or a flush, successful or not, adds to the file a prefix of the
    bytes it has to write; a successful append loses nothing, and one that fits
    in the buffer succeeds. *)
Class WritableFileSpec (F : Type) `{WritableFile F} (capacity : Z) : Prop := {
  Append_grows f d : disk f `prefix_of` disk (Append f d).1 ∧ disk (Append f d).1 `prefix_of` disk f ++ buffered f ++ d;
  Append_ok f d : (Append f d).2 = true →
    disk (Append f d).1 ++ buffered (Append f d).1 = disk f ++ buffered f ++ d;
  Append_fits f d : len (buffered f) + len d ≤ capacity → (Append f d).2 = true;
  Flush_grows f : disk f `prefix_of` disk (Flush f).1 ∧ disk (Flush f).1 `prefix_of` disk f ++ buffered f;
  Flush_ok f : (Flush f).2 = true → disk (Flush f).1 = disk f ++ buffered f ∧ buffered (Flush f).1 = [];
}.

Class SequentialFile (F : Type) := {
  Read : F → Z → F * bool * list Z;
  Skip : F → Z → F * bool;
  (** the bytes from the position to the end *)
  rest : F → list Z;
  (** no call on the file fails *)
  readable : F → Prop;
  (** how far the position can still move *)
  room : F → Z;
}.

Class SequentialFileSpec (F : Type) `{SequentialFile F} : Prop := {
  Read_ok f n : readable f → 0 ≤ n →
    ∃ f', Read f n = (f', true, ztake n (rest f)) ∧ rest f' = zdrop n (rest f) ∧ readable f';
  Skip_ok f n : readable f → 0 ≤ n ≤ room f →
    ∃ f', Skip f n = (f', true) ∧ rest f' = zdrop n (rest f) ∧ readable f';
}.

(** ** System calls *)

(** What one [read] or [write] does: it is interrupted by a signal, it fails, or
    it handles [n] bytes, or all if there are fewer. *)
Inductive outcome := Interrupted | Failed | Partial (n : Z).

Module PosixWritableFile.

Definition kWritableFileBufferSize : Z := 16777216.

(** [buf] is the first [pos_] bytes of [buf_]. *)
Record t := Mk { contents : list Z; calls : list outcome; buf : list Z }.

(** [while (size > 0)]; the outcomes that remain, and the file. *)
Fixpoint write_loop (calls : list outcome) (contents data : list Z) : list Z * list outcome * bool :=
  match calls with
  | [] => (contents ++ data, [], true)
  | c :: calls' =>
      if 0 <? len data then
        match c with
        | Interrupted => write_loop calls' contents data
        | Failed => (contents, calls', false)
        | Partial n => write_loop calls' (contents ++ ztake n data) (zdrop n data)
        end
      else (contents, calls, true)
  end.

Definition WriteUnbuffered (f : t) (data : list Z) : t * bool :=
  let '(c, cs, status) := write_loop (calls f) (contents f) data in (Mk c cs (buf f), status).

Definition FlushBuffer (f : t) : t * bool :=
  let '(f, status) := WriteUnbuffered f (buf f) in (Mk (contents f) (calls f) [], status).

Definition Append (f : t) (data : list Z) : t * bool :=
  let copy_size := len data `min` (kWritableFileBufferSize - len (buf f)) in
  let f := Mk (contents f) (calls f) (buf f ++ ztake copy_size data) in
  let write_data := zdrop copy_size data in
  if len write_data =? 0 then (f, true)
  else
    let '(f, status) := FlushBuffer f in
    if negb status then (f, status)
    else if len write_data <? kWritableFileBufferSize then (Mk (contents f) (calls f) write_data, true)
    else WriteUnbuffered f write_data.

Definition Flush (f : t) : t * bool := FlushBuffer f.

(** [close_result] is what the system call returns. *)
Definition Close (f : t) (close_result : bool) : t * bool :=
  let '(f, status) := FlushBuffer f in (f, status && close_result).

(** [dir] is the outcome of [SyncDirIfManifest], [fd] that of [SyncFd]. *)
Definition Sync (f : t) (dir fd : bool) : t * bool :=
  if negb dir then (f, false)
  else let '(f, status) := FlushBuffer f in if negb status then (f, status) else (f, fd).

End PosixWritableFile.

Module PosixSequentialFile.

Record t := Mk { contents : list Z; position : Z; calls : list outcome }.

Definition unread (f : t) : list Z := zdrop (position f) (contents f).

(** [while (true)] around [read]: how many bytes it returns, if it does not fail. *)
Fixpoint read_loop (calls : list outcome) (n avail : Z) : list outcome * option Z :=
  match calls with
  | [] => ([], Some (n `min` avail))
  | Interrupted :: calls => read_loop calls n avail
  | Failed :: calls => (calls, None)
  | Partial k :: calls => (calls, Some (0 `max` (k `min` (n `min` avail))))
  end.

Definition Read (f : t) (n : Z) : t * bool * list Z :=
  match read_loop (calls f) n (len (unread f)) with
  | (cs, Some k) => (Mk (contents f) (position f + k) cs, true, ztake k (unread f))
  | (cs, None) => (Mk (contents f) (position f) cs, false, [])
  end.

(** [lseek] to a place behind the largest offset fails. *)
Definition Skip (f : t) (n : Z) : t * bool :=
  if position f + n <? 2 ^ 63 then (Mk (contents f) (position f + n) (calls f), true) else (f, false).

End PosixSequentialFile.

#[export] Instance posix_writable : WritableFile PosixWritableFile.t := {
  Append := PosixWritableFile.Append;
  Flush := PosixWritableFile.Flush;
  disk := PosixWritableFile.contents;
  buffered := PosixWritableFile.buf;
}.

#[export] Instance posix_sequential : SequentialFile PosixSequentialFile.t := {
  Read := PosixSequentialFile.Read;
  Skip := PosixSequentialFile.Skip;
  rest := PosixSequentialFile.unread;
  readable f := 0 ≤ PosixSequentialFile.position f ∧ Forall (λ c, c = Interrupted) (PosixSequentialFile.calls f);
  room f := 2 ^ 63 - 1 - PosixSequentialFile.position f;
}.

(** ** The POSIX files keep the laws *)

Import PosixWritableFile.

Lemma write_loop_spec cs c d :
  ∃ k, (write_loop cs c d).1.1 = c ++ take k d ∧ ((write_loop cs c d).2 = true → take k d = d).
Proof.
  revert c d. induction cs as [|o cs IH]; intros c d; cbn.
  { exists (length d). cbn. by rewrite firstn_all. }
  destruct (Z.ltb_spec 0 (len d)) as [Hd|Hd]; cbn.
  - destruct o as [| |n]; [apply IH|exists O; cbn; by rewrite app_nil_r|].
    destruct (IH (c ++ ztake n d) (zdrop n d)) as (k & -> & Hk).
    exists (Z.to_nat n + k)%nat. unfold ztake, zdrop in *.
    rewrite <- take_take_drop, app_assoc. split; [done|]. intros H. by rewrite Hk, take_drop.
  - exists O. pose proof (len_pos d). rewrite (len_zero d) by lia. by rewrite app_nil_r.
Qed.

Lemma FlushBuffer_spec f :
  ∃ k, contents (FlushBuffer f).1 = contents f ++ take k (buf f) ∧ buf (FlushBuffer f).1 = [] ∧
    ((FlushBuffer f).2 = true → take k (buf f) = buf f).
Proof.
  unfold FlushBuffer, WriteUnbuffered. destruct (write_loop_spec (calls f) (contents f) (buf f)) as (k & E & H).
  exists k. by destruct (write_loop _ _ _) as [[c cs] s].
Qed.

Lemma Append_spec f d :
  ∃ k, contents (PosixWritableFile.Append f d).1 = contents f ++ take k (buf f ++ d) ∧
    ((PosixWritableFile.Append f d).2 = true →
      contents (PosixWritableFile.Append f d).1 ++ buf (PosixWritableFile.Append f d).1 = contents f ++ buf f ++ d).
Proof.
  unfold PosixWritableFile.Append. set (n := _ `min` _). cbn [contents calls buf].
  assert (buf f ++ d = (buf f ++ ztake n d) ++ zdrop n d) as E by (by rewrite <- app_assoc, ztake_zdrop).
  rewrite E. clear E. generalize (buf f ++ ztake n d) (zdrop n d). clear n d. intros b d.
  destruct (Z.eqb_spec (len d) 0) as [H0|H0].
  { exists O. cbn. rewrite app_nil_r. split; [done|]. intros _. by rewrite (len_zero _ H0), app_nil_r. }
  pose proof (FlushBuffer_spec (Mk (contents f) (calls f) b)) as (k & Hc & Hb & Hk).
  destruct (FlushBuffer _) as [g s]. cbn [fst snd contents calls buf] in *.
  destruct s; cbn [negb]; cycle 1.
  { exists (k `min` length b)%nat. cbn. rewrite Hc, (take_app_le b) by lia. split; [|done].
    by rewrite <- take_take, (take_ge b _ (le_n _)). }
  rewrite (Hk eq_refl) in Hc. destruct (_ <? _).
  { exists (length b). cbn. rewrite take_app_length, Hc. by rewrite <- !app_assoc. }
  unfold WriteUnbuffered. destruct (write_loop_spec (calls g) (contents g) d) as (j & E1 & E2).
  destruct (write_loop _ _ _) as [[c cs] s]. cbn in *. subst c. rewrite Hc, Hb.
  exists (length b + j)%nat. rewrite take_app_add, app_assoc.
  split; [done|]. intros ->%E2. by rewrite app_nil_r, !app_assoc.
Qed.

#[export] Instance posix_writable_spec : WritableFileSpec PosixWritableFile.t kWritableFileBufferSize.
Proof.
  split; cbn -[Z.add Z.sub Z.le Z.pow len kWritableFileBufferSize].
  - intros f d. destruct (Append_spec f d) as (k & -> & _). apply prefix_take_app.
  - intros f d. by destruct (Append_spec f d) as (k & _ & H).
  - intros f d H. unfold PosixWritableFile.Append. rewrite Z.min_l by lia. by rewrite zdrop_all.
  - intros f. destruct (FlushBuffer_spec f) as (k & H & _).
    unfold PosixWritableFile.Flush. rewrite H. apply prefix_take_app.
  - intros f Hs. unfold PosixWritableFile.Flush in Hs. destruct (FlushBuffer_spec f) as (k & H & Hb & E). unfold PosixWritableFile.Flush. by rewrite H, (E Hs).
Qed.

Import PosixSequentialFile.

Lemma read_loop_ok cs n a : Forall (λ c, c = Interrupted) cs → read_loop cs n a = ([], Some (n `min` a)).
Proof. by induction 1 as [|? ? ->]. Qed.

#[export] Instance posix_sequential_spec : SequentialFileSpec PosixSequentialFile.t.
Proof.
  split; cbn -[Z.add Z.sub Z.le Z.pow len kWritableFileBufferSize].
  - intros f n [Hp Hr] Hn. unfold PosixSequentialFile.Read. rewrite read_loop_ok by done.
    set (k := n `min` len (unread f)). pose proof (len_pos (unread f)).
    assert (ztake k (unread f) = ztake n (unread f)) as ->.
    { unfold k. destruct (Z.le_gt_cases (len (unread f)) n); [|by rewrite Z.min_l by lia].
      by rewrite Z.min_r, !ztake_all by lia. }
    eexists. split; [done|]. split; [|cbn; split; [lia|constructor]].
    unfold k, unread, zdrop. cbn. rewrite drop_drop.
    destruct (Z.le_gt_cases (len (unread f)) n) as [H1|H1].
    + unfold unread, len, zdrop in *. rewrite length_drop in H1 |- *. rewrite !drop_ge; [done| |]; lia.
    + f_equal. unfold unread, zdrop in H1. lia.
  - intros f n [Hp Hr] Hn. unfold PosixSequentialFile.Skip.
    destruct (Z.ltb_spec (PosixSequentialFile.position f + n) (2 ^ 63)); [|lia].
    eexists. split; [done|]. split; [|cbn; split; [lia|done]].
    unfold unread, zdrop. cbn. rewrite drop_drop. f_equal. lia.
Qed.
