(* ===== verification/LsmLog.v ===== *)
(** * dLSM: the write-ahead log

    [dLSM/db/log_format.h], [log_writer.cc] and [log_reader.cc]: a log is a
    sequence of blocks of 32 KB; a record is cut into fragments that fit in the
    blocks, each behind a header with a checksum, a length and a type.  The
    writer runs over any [WritableFile], the reader over any [SequentialFile].
    A slice is its bytes and the address of the first one, on which the checksum
    routine depends. *)
From stdpp Require Import strings.
From S2P Require Import Prelude LsmCoding LsmCrc32c LsmFile.
Import Coding Crc32c.

Module Log.

Inductive RecordType := kZeroType | kFullType | kFirstType | kMiddleType | kLastType.

Definition type_value (t : RecordType) : Z :=
  match t with kZeroType => 0 | kFullType => 1 | kFirstType => 2 | kMiddleType => 3 | kLastType => 4 end.

Definition kMaxRecordType : Z := type_value kLastType.
Definition kBlockSize : Z := 32768.
Definition kHeaderSize : Z := 4 + 2 + 1.

(** ** The writer *)

Section writer.
Context {F : Type} `{WritableFile F}.

Record Writer := MkWriter { dest : F; block_offset : Z; type_crc : list Z }.

(** [t] is the address of the local variable. *)
Definition InitTypeCrc (t : nat) : list Z := map (λ i, Value t [u8 i]) [0; 1; 2; 3; 4].

Definition make_writer (dest : F) (t : nat) : Writer := MkWriter dest 0 (InitTypeCrc t).

Definition reopen_writer (dest : F) (dest_length : Z) (t : nat) : Writer :=
  MkWriter dest (dest_length mod kBlockSize) (InitTypeCrc t).

Definition EmitPhysicalRecord (w : Writer) (t : RecordType) (ptr : nat) (data : list Z) : result (Writer * bool) :=
  require (len data <=? 0xffff);;
  require (block_offset w + kHeaderSize + len data <=? kBlockSize);;
  crc ← at_index (type_crc w) (Z.to_nat (type_value t));
  let crc := Mask (Extend ptr crc data) in
  let buf := EncodeFixed32 crc ++ [u8 (Z.land (len data) 0xff); u8 (Z.shiftr (len data) 8); u8 (type_value t)] in
  let '(f, s) := Append (dest w) buf in
  let '(f, s) :=
    if s : bool then let '(f, s) := Append f data in if s : bool then Flush f else (f, s) else (f, s) in
  Ok (MkWriter f (block_offset w + kHeaderSize + len data) (type_crc w), s).

(** Switch to a new block where no header fits; the status is not looked at. *)
Definition fill_trailer (w : Writer) : Writer :=
  let leftover := kBlockSize - block_offset w in
  if leftover <? kHeaderSize then
    MkWriter (if 0 <? leftover then (Append (dest w) (replicate (Z.to_nat leftover) 0)).1 else dest w) 0 (type_crc w)
  else w.

Definition fragment_type (begin is_end : bool) : RecordType :=
  if begin && is_end then kFullType else if begin then kFirstType else if is_end then kLastType else kMiddleType.

(** [do ... while (s.ok() && left > 0)]. *)
Fixpoint add_loop (fuel : nat) (w : Writer) (begin : bool) (ptr : nat) (data : list Z) : result (Writer * bool) :=
  match fuel with
  | O => Err OutOfFuel
  | S fuel =>
      require (0 <=? kBlockSize - block_offset w);;
      let w := fill_trailer w in
      require (0 <=? kBlockSize - block_offset w - kHeaderSize);;
      let avail := kBlockSize - block_offset w - kHeaderSize in
      let fragment_length := if len data <? avail then len data else avail in
      let is_end := len data =? fragment_length in
      '(w, s) ← EmitPhysicalRecord w (fragment_type begin is_end) ptr (ztake fragment_length data);
      let left := zdrop fragment_length data in
      if s && (0 <? len left) then add_loop fuel w false (ptr + Z.to_nat fragment_length) left else Ok (w, s)
  end.

(** A first fragment may be empty; every other one takes a byte. *)
Definition AddRecord (w : Writer) (ptr : nat) (data : list Z) : result (Writer * bool) :=
  add_loop (2 + length data) w true ptr data.

End writer.
Arguments Writer : clear implicits.

(** ** The reader *)

Definition kEof : Z := kMaxRecordType + 1.
Definition kBadRecord : Z := kMaxRecordType + 2.

(** The status given to [Reporter::Corruption]. *)
Inductive reason := ReadError | Corruption (what : string) | UnknownType (type : Z).

Section reader.
Context {F : Type} `{SequentialFile F}.

(** [buffer_data] is the address of the first byte of [buffer_], [reports] what
    the reporter has been told. *)
Record Reader := MkReader {
  file : F;
  reporter : bool;
  checksum : bool;
  backing_store : nat;
  buffer_data : nat;
  buffer : list Z;
  eof : bool;
  last_record_offset : Z;
  end_of_buffer_offset : Z;
  initial_offset : Z;
  resyncing : bool;
  reports : list (Z * reason)
}.

Definition make_reader (file : F) (reporter checksum : bool) (initial_offset : Z) (backing_store : nat) : Reader :=
  MkReader file reporter checksum backing_store 0 [] false 0 0 initial_offset (0 <? initial_offset) [].

Definition set_file (r : Reader) (f : F) : Reader :=
  MkReader f (reporter r) (checksum r) (backing_store r) (buffer_data r) (buffer r) (eof r)
    (last_record_offset r) (end_of_buffer_offset r) (initial_offset r) (resyncing r) (reports r).
Definition set_buffer (r : Reader) (data : nat) (b : list Z) : Reader :=
  MkReader (file r) (reporter r) (checksum r) (backing_store r) data b (eof r)
    (last_record_offset r) (end_of_buffer_offset r) (initial_offset r) (resyncing r) (reports r).
Definition set_eof (r : Reader) : Reader :=
  MkReader (file r) (reporter r) (checksum r) (backing_store r) (buffer_data r) (buffer r) true
    (last_record_offset r) (end_of_buffer_offset r) (initial_offset r) (resyncing r) (reports r).
Definition set_last (r : Reader) (o : Z) : Reader :=
  MkReader (file r) (reporter r) (checksum r) (backing_store r) (buffer_data r) (buffer r) (eof r)
    o (end_of_buffer_offset r) (initial_offset r) (resyncing r) (reports r).
Definition set_end (r : Reader) (o : Z) : Reader :=
  MkReader (file r) (reporter r) (checksum r) (backing_store r) (buffer_data r) (buffer r) (eof r)
    (last_record_offset r) o (initial_offset r) (resyncing r) (reports r).
Definition stop_resyncing (r : Reader) : Reader :=
  MkReader (file r) (reporter r) (checksum r) (backing_store r) (buffer_data r) (buffer r) (eof r)
    (last_record_offset r) (end_of_buffer_offset r) (initial_offset r) false (reports r).
Definition add_report (r : Reader) (bytes : Z) (why : reason) : Reader :=
  MkReader (file r) (reporter r) (checksum r) (backing_store r) (buffer_data r) (buffer r) (eof r)
    (last_record_offset r) (end_of_buffer_offset r) (initial_offset r) (resyncing r) (reports r ++ [(bytes, why)]).

Definition ReportDrop (r : Reader) (bytes : Z) (why : reason) : Reader :=
  if reporter r && (initial_offset r <=? u64 (end_of_buffer_offset r - len (buffer r) - bytes))
  then add_report r bytes why else r.

Definition ReportCorruption (r : Reader) (bytes : Z) (what : string) : Reader := ReportDrop r bytes (Corruption what).

(** [buffer_.clear()]. *)
Definition clear_buffer (r : Reader) : Reader := set_buffer r 0 [].

Definition SkipToInitialBlock (r : Reader) : Reader * bool :=
  let offset_in_block := initial_offset r mod kBlockSize in
  let start := initial_offset r - offset_in_block in
  let start := if kBlockSize - 6 <? offset_in_block then u64 (start + kBlockSize) else start in
  let r := set_end r start in
  if 0 <? start then
    let '(f, status) := Skip (file r) start in
    let r := set_file r f in
    if status : bool then (r, true) else (ReportDrop r start ReadError, false)
  else (r, true).

(** [const unsigned int type = header[6]], where [char] is signed. *)
Definition unsigned_of_char (c : Z) : Z := if c <? 128 then c else u32 (c - 256).

(** The part of the loop behind the check that the buffer holds a header. *)
Definition parse_record (r : Reader) (fragment : list Z) : result (Reader * Z * list Z) :=
  let header := buffer r in
  a ← at_index header 4;
  b ← at_index header 5;
  c ← at_index header 6;
  let type := unsigned_of_char c in
  let length := Z.lor (Z.land a 0xff) (Z.shiftl (Z.land b 0xff) 8) in
  if len header <? kHeaderSize + length then
    let r := clear_buffer r in
    if negb (eof r) then Ok (ReportCorruption r (len header) "bad record length", kBadRecord, fragment)
    else Ok (r, kEof, fragment)
  else if (type =? type_value kZeroType) && (length =? 0) then Ok (clear_buffer r, kBadRecord, fragment)
  else
    crc ← DecodeFixed32 header;
    let actual := Value (buffer_data r + 6) (ztake (1 + length) (drop 6 header)) in
    if checksum r && negb (actual =? Unmask crc) then
      Ok (ReportCorruption (clear_buffer r) (len header) "checksum mismatch", kBadRecord, fragment)
    else
      let r := set_buffer r (buffer_data r + Z.to_nat (kHeaderSize + length)) (zdrop (kHeaderSize + length) header) in
      if u64 (end_of_buffer_offset r - len (buffer r) - kHeaderSize - length) <? initial_offset r
      then Ok (r, kBadRecord, [])
      else Ok (r, type, ztake length (zdrop kHeaderSize header)).

(** [while (true)]: the buffer is filled at most once. *)
Fixpoint physical_loop (fuel : nat) (r : Reader) (fragment : list Z) : result (Reader * Z * list Z) :=
  match fuel with
  | O => Err OutOfFuel
  | S fuel =>
      if len (buffer r) <? kHeaderSize then
        if negb (eof r) then
          let r := clear_buffer r in
          let '(f, status, data) := Read (file r) kBlockSize in
          let r := set_buffer (set_file r f) (backing_store r) data in
          let r := set_end r (u64 (end_of_buffer_offset r + len (buffer r))) in
          if negb status then Ok (set_eof (ReportDrop (clear_buffer r) kBlockSize ReadError), kEof, fragment)
          else physical_loop fuel (if len (buffer r) <? kBlockSize then set_eof r else r) fragment
        else Ok (clear_buffer r, kEof, fragment)
      else parse_record r fragment
  end.

(** The type of the next fragment and its bytes; [fragment] is the old value of
    [*result], which stays where there is none. *)
Definition ReadPhysicalRecord (r : Reader) (fragment : list Z) : result (Reader * Z * list Z) :=
  physical_loop 2 r fragment.

(** A partial record that is dropped, if there is one. *)
Definition drop_partial (r : Reader) (in_fragmented_record : bool) (scratch : list Z) (what : string) : Reader :=
  if in_fragmented_record && negb (len scratch =? 0) then ReportCorruption r (len scratch) what else r.

(** [while (true)] of [ReadRecord]: the record, or nothing at the end. *)
Fixpoint record_loop (fuel : nat) (r : Reader) (scratch : list Z) (in_fragmented_record : bool)
    (prospective_record_offset : Z) (fragment : list Z) : result (Reader * option (list Z)) :=
  match fuel with
  | O => Err OutOfFuel
  | S fuel =>
      '(r, record_type, fragment) ← ReadPhysicalRecord r fragment;
      let physical_record_offset := u64 (end_of_buffer_offset r - len (buffer r) - kHeaderSize - len fragment) in
      if resyncing r && (record_type =? type_value kMiddleType) then
        record_loop fuel r scratch in_fragmented_record prospective_record_offset fragment
      else if resyncing r && (record_type =? type_value kLastType) then
        record_loop fuel (stop_resyncing r) scratch in_fragmented_record prospective_record_offset fragment
      else
        let r := if resyncing r then stop_resyncing r else r in
        if record_type =? type_value kFullType then
          let r := drop_partial r in_fragmented_record scratch "partial record without end(1)" in
          Ok (set_last r physical_record_offset, Some fragment)
        else if record_type =? type_value kFirstType then
          let r := drop_partial r in_fragmented_record scratch "partial record without end(2)" in
          record_loop fuel r fragment true physical_record_offset fragment
        else if record_type =? type_value kMiddleType then
          if negb in_fragmented_record then
            record_loop fuel (ReportCorruption r (len fragment) "missing start of fragmented record(1)")
              scratch in_fragmented_record prospective_record_offset fragment
          else record_loop fuel r (scratch ++ fragment) in_fragmented_record prospective_record_offset fragment
        else if record_type =? type_value kLastType then
          if negb in_fragmented_record then
            record_loop fuel (ReportCorruption r (len fragment) "missing start of fragmented record(2)")
              scratch in_fragmented_record prospective_record_offset fragment
          else Ok (set_last r prospective_record_offset, Some (scratch ++ fragment))
        else if record_type =? kEof then Ok (r, None)
        else if record_type =? kBadRecord then
          if in_fragmented_record then
            record_loop fuel (ReportCorruption r (len scratch) "error in middle of record")
              [] false prospective_record_offset fragment
          else record_loop fuel r scratch in_fragmented_record prospective_record_offset fragment
        else
          let dropped := len fragment + (if in_fragmented_record then len scratch else 0) in
          record_loop fuel (ReportDrop r dropped (UnknownType record_type)) [] false prospective_record_offset fragment
  end.

Definition ReadRecord (fuel : nat) (r : Reader) : result (Reader * option (list Z)) :=
  let '(r, ok) := if last_record_offset r <? initial_offset r then SkipToInitialBlock r else (r, true) in
  if ok then record_loop fuel r [] false 0 [] else Ok (r, None).

Definition LastRecordOffset (r : Reader) : Z := last_record_offset r.

(** [while (reader.ReadRecord(&record, &scratch))], as [DBImpl::RecoverLogFile]
    and [VersionSet::Recover] run it: the records, and the reader at the end. *)
Fixpoint ReadRecords (fuel : nat) (r : Reader) : result (Reader * list (list Z)) :=
  match fuel with
  | O => Err OutOfFuel
  | S n =>
      '(r, record) ← ReadRecord fuel r;
      match record with
      | None => Ok (r, [])
      | Some record => '(r, records) ← ReadRecords n r; Ok (r, record :: records)
      end
  end.

End reader.
Arguments Reader : clear implicits.

End Log.
