(* ===== verification/LsmLogWrite.v ===== *)
(** * dLSM: what the log writer leaves in the file

    The layout of a log: where each fragment of each record lies, and the bytes
    of the file.  [AddRecord_spec] shows that the writer of [LsmLog] produces this
    layout over any [WritableFile], and that a call that fails leaves a prefix of
    it; a file that was closed can be reopened for more records. *)
From S2P Require Import Prelude LsmCoding LsmCrc32c LsmFile LsmLog.
Import Coding Crc32c Log.

(** ** The layout *)

(** The zeros that fill a block in which no header fits. *)
Definition pad (pos : Z) : Z :=
  let left := kBlockSize - pos mod kBlockSize in if left <? kHeaderSize then left else 0.

(** A fragment, and where its header starts. *)
Record physical := MkPhysical { start : Z; ptype : RecordType; pdata : list Z }.

Definition stop (p : physical) : Z := start p + kHeaderSize + len (pdata p).

Definition encode (t : RecordType) (data : list Z) : list Z :=
  EncodeFixed32 (Mask (crc32c 0 (type_value t :: data))) ++
  [u8 (Z.land (len data) 0xff); u8 (Z.shiftr (len data) 8); type_value t] ++ data.

(** The bytes of fragments from a position on. *)
Fixpoint tape (pos : Z) (ps : list physical) : list Z :=
  match ps with
  | [] => []
  | p :: ps => replicate (Z.to_nat (pad pos)) 0 ++ encode (ptype p) (pdata p) ++ tape (stop p) ps
  end.

(** The fragments of a record. *)
Fixpoint cut (fuel : nat) (pos : Z) (begin : bool) (data : list Z) : list physical :=
  match fuel with
  | O => []
  | S fuel =>
      let s := pos + pad pos in
      let avail := kBlockSize - s mod kBlockSize - kHeaderSize in
      if len data <=? avail then [MkPhysical s (fragment_type begin true) data]
      else MkPhysical s (fragment_type begin false) (ztake avail data) ::
           cut fuel (s + kHeaderSize + avail) false (zdrop avail data)
  end.

Definition record_fragments (pos : Z) (data : list Z) : list physical := cut (2 + length data) pos true data.

Definition record_bytes (pos : Z) (data : list Z) : list Z := tape pos (record_fragments pos data).

(** The file of a log. *)
Fixpoint log_bytes (pos : Z) (records : list (list Z)) : list Z :=
  match records with
  | [] => []
  | r :: rs => let b := record_bytes pos r in b ++ log_bytes (pos + len b) rs
  end.

Lemma pad_cases pos :
  0 ≤ pos →
  let o := pos mod kBlockSize in
  (kBlockSize - o < kHeaderSize ∧ pad pos = kBlockSize - o ∧ (pos + pad pos) mod kBlockSize = 0) ∨
  (kHeaderSize ≤ kBlockSize - o ∧ pad pos = 0 ∧ (pos + pad pos) mod kBlockSize = o).
Proof.
  intros Hp o. unfold pad. fold o. destruct (Z.ltb_spec (kBlockSize - o) kHeaderSize) as [H|H]; [left|right];
    (split; [done|]; split; [done|]); [|by rewrite Z.add_0_r].
  subst o. unfold kBlockSize, kHeaderSize in *. Z.to_euclidean_division_equations. lia.
Qed.

Lemma pad_range pos : 0 ≤ pad pos < kHeaderSize.
Proof.
  unfold pad. pose proof (Z.mod_pos_bound pos kBlockSize eq_refl).
  destruct (Z.ltb_spec (kBlockSize - pos mod kBlockSize) kHeaderSize); unfold kHeaderSize in *; lia.
Qed.

Lemma len_encode t data : len (encode t data) = kHeaderSize + len data.
Proof. unfold encode, EncodeFixed32, kHeaderSize, len. rewrite !length_app, length_le_bytes. cbn. lia. Qed.

Lemma len_replicate {A} (x : A) n : 0 ≤ n → len (replicate (Z.to_nat n) x) = n.
Proof. unfold len. rewrite length_replicate. lia. Qed.

Lemma tape_app pos ps qs : tape pos (ps ++ qs) = tape pos ps ++ tape (default pos (stop <$> last ps)) qs.
Proof.
  revert pos. induction ps as [|p ps IH]; intros pos; [done|]. cbn [tape app]. rewrite IH, <- !app_assoc.
  do 4 f_equal. rewrite last_cons. by destruct (last ps).
Qed.

(** ** The writer *)

Section writer.
Context {F : Type} `{WritableFile F} {capacity : Z} `{!WritableFileSpec F capacity}.
Hypothesis capacity_trailer : kHeaderSize ≤ capacity.
Implicit Types (w : Writer F) (f : F) (data : list Z).

(** The state of a writer between records. *)
Record writing w : Prop := {
  writing_flushed : buffered (dest w) = [];
  writing_offset : 0 ≤ block_offset w ≤ kBlockSize;
  writing_aligned : block_offset w mod kBlockSize = len (disk (dest w)) mod kBlockSize;
  writing_crc : type_crc w = map (λ i, crc32c 0 [i]) [0; 1; 2; 3; 4];
}.

Lemma InitTypeCrc_crc32c t : InitTypeCrc t = map (λ i, crc32c 0 [i]) [0; 1; 2; 3; 4].
Proof.
  unfold InitTypeCrc, Value. cbn [map]. by rewrite !Extend_crc32c by (done || (repeat constructor; vm_compute; done)).
Qed.

Lemma fill_trailer_spec w :
  writing w →
  let pos := len (disk (dest w)) in
  let w' := fill_trailer w in
  type_crc w' = type_crc w ∧ block_offset w' = (pos + pad pos) mod kBlockSize ∧
  disk (dest w') ++ buffered (dest w') = disk (dest w) ++ replicate (Z.to_nat (pad pos)) 0 ∧
  disk (dest w) `prefix_of` disk (dest w').
Proof.
  intros [Hf Ho Ha Hc] pos w'. fold pos in Ha. pose proof (len_pos (disk (dest w))) as Hp. fold pos in Hp.
  pose proof (pad_cases pos Hp) as Hpad. cbn zeta in Hpad. rewrite <- Ha in Hpad.
  unfold w', fill_trailer. destruct (Z.eq_dec (block_offset w) kBlockSize) as [E|E].
  { rewrite E, Z.mod_same in Hpad by done. destruct Hpad as [(? & _)|(_ & Ep & Eo)]; [done|].
    rewrite Eo, Ep, E. change (kBlockSize - kBlockSize <? kHeaderSize) with true.
    change (0 <? kBlockSize - kBlockSize) with false. cbn. by rewrite Hf. }
  rewrite (Z.mod_small (block_offset w)) in Hpad by lia.
  destruct (Z.ltb_spec (kBlockSize - block_offset w) kHeaderSize) as [H1|H1].
  - destruct Hpad as [(_ & Ep & Eo)|]; [|lia]. rewrite Eo, Ep.
    destruct (Z.ltb_spec 0 (kBlockSize - block_offset w)) as [H2|]; [|lia]. cbn.
    set (z := replicate _ 0).
    assert ((Append (dest w) z).2 = true) as Hok.
    { apply (Append_fits (capacity:=capacity)). unfold z. rewrite len_replicate, Hf, len_nil by lia. lia. }
    pose proof (Append_ok (dest w) z Hok) as Hd. rewrite Hf in Hd. cbn in Hd.
    split; [done|]. split; [done|]. split; [done|]. apply (Append_grows (capacity:=capacity)).
  - destruct Hpad as [(? & _)|(_ & Ep & Eo)]; [lia|]. by rewrite Eo, Ep, Hf.
Qed.

Lemma EmitPhysicalRecord_spec w t ptr data :
  Forall byte data →
  type_crc w = map (λ i, crc32c 0 [i]) [0; 1; 2; 3; 4] →
  0 ≤ block_offset w → block_offset w + kHeaderSize + len data ≤ kBlockSize →
  ∃ f s, EmitPhysicalRecord w t ptr data = Ok (MkWriter f (block_offset w + kHeaderSize + len data) (type_crc w), s) ∧
    disk (dest w) `prefix_of` disk f ∧
    disk f `prefix_of` disk (dest w) ++ buffered (dest w) ++ encode t data ∧
    (s = true → disk f = disk (dest w) ++ buffered (dest w) ++ encode t data ∧ buffered f = []).
Proof.
  intros Hd Hc Ho Hl. unfold EmitPhysicalRecord.
  rewrite (proj2 (Z.leb_le (len data) 0xffff)) by (unfold kBlockSize, kHeaderSize in *; lia).
  rewrite (proj2 (Z.leb_le (block_offset w + kHeaderSize + len data) kBlockSize)) by done.
  assert (at_index (type_crc w) (Z.to_nat (type_value t)) = Ok (crc32c 0 [type_value t])) as ->.
  { rewrite Hc. by destruct t. }
  cbn [require mbind result_bind]. rewrite Extend_crc32c, crc32c_app by (done || (apply crc32c_fits; [done|by destruct t; repeat constructor])).
  cbn [app]. rewrite (wrap_small 8 (type_value t)) by (by destruct t).
  set (hdr := EncodeFixed32 _ ++ _). assert (encode t data = hdr ++ data) as -> by (unfold encode, hdr; by rewrite <- app_assoc).
  clearbody hdr. generalize (dest w). intros g. 
  pose proof (Append_grows g hdr) as [G1 G2]. pose proof (Append_ok g hdr) as G3.
  destruct (Append g hdr) as [f1 s1]. cbn [fst snd] in *. destruct s1; cycle 1.
  { eexists _, _. split; [done|]. split; [done|]. split; [|done]. by rewrite !app_assoc in *; apply prefix_app_r. }
  specialize (G3 eq_refl). pose proof (Append_grows f1 data) as [A1 A2]. pose proof (Append_ok f1 data) as A3.
  assert (disk g ++ buffered g ++ hdr ++ data = disk f1 ++ buffered f1 ++ data) as -> by (by rewrite (app_assoc (disk f1)), G3, <- !app_assoc).
  destruct (Append f1 data) as [f2 s2]. cbn [fst snd] in *. destruct s2; cycle 1.
  { eexists _, _. split; [done|]. split; [by etrans|]. done. }
  specialize (A3 eq_refl). pose proof (Flush_grows f2) as [B1 B2]. pose proof (Flush_ok f2) as B3. rewrite <- A3.
  destruct (Flush f2) as [f3 s3]. cbn [fst snd] in *.
  eexists _, _. split; [done|]. split; [by etrans; [|etrans]|]. done.
Qed.

(** One fragment: the trailer before it, its header and its bytes. *)
Lemma emit_fragment w t ptr data :
  writing w → Forall byte data →
  let pos := len (disk (dest w)) in
  let s := pos + pad pos in
  let b := replicate (Z.to_nat (pad pos)) 0 ++ encode t data in
  s mod kBlockSize + kHeaderSize + len data ≤ kBlockSize →
  ∃ w' ok, EmitPhysicalRecord (fill_trailer w) t ptr data = Ok (w', ok) ∧
    disk (dest w) `prefix_of` disk (dest w') ∧ disk (dest w') `prefix_of` disk (dest w) ++ b ∧
    (ok = true → disk (dest w') = disk (dest w) ++ b ∧ writing w').
Proof.
  intros Hw Hd pos s b Hl. pose proof (fill_trailer_spec w Hw) as (Hc & Ho & Hb & Hp). fold pos s in Ho, Hb.
  pose proof (Z.mod_pos_bound s kBlockSize eq_refl).
  destruct (EmitPhysicalRecord_spec (fill_trailer w) t ptr data) as (f & ok & -> & P1 & P2 & P3);
    [done|by rewrite Hc; apply writing_crc|lia|by rewrite Ho|].
  rewrite (app_assoc (disk (dest (fill_trailer w)))), Hb, <- app_assoc in P2, P3. fold b in P2, P3.
  eexists _, _. split; [done|]. cbn [dest]. split; [by etrans|]. split; [done|].
  intros Hok. destruct (P3 Hok) as [E1 E2]. split; [done|]. split; cbn [dest block_offset type_crc]; [done| | |].
  - rewrite Ho. pose proof (len_pos data). unfold kHeaderSize in *. lia.
  - rewrite E1, Ho. unfold b. rewrite !len_app, len_replicate, len_encode.
    2:{ apply pad_range. }
    fold pos. rewrite <- Z.add_assoc, Zplus_mod_idemp_l. f_equal. unfold s. lia.
  - by rewrite Hc; apply writing_crc.
Qed.

Lemma add_loop_spec fuel w (begin : bool) ptr data :
  writing w → Forall byte data → (length data + (if begin then 2 else 1) ≤ fuel)%nat →
  let pos := len (disk (dest w)) in
  (begin = false → data ≠ [] ∧ pos mod kBlockSize = 0) →
  let b := tape pos (cut fuel pos begin data) in
  ∃ w' ok, add_loop fuel w begin ptr data = Ok (w', ok) ∧
    disk (dest w) `prefix_of` disk (dest w') ∧ disk (dest w') `prefix_of` disk (dest w) ++ b ∧
    (ok = true → disk (dest w') = disk (dest w) ++ b ∧ writing w').
Proof.
  revert w begin ptr data. induction fuel as [|fuel IH]; intros w begin ptr data Hw Hd Hf pos Hb b.
  { destruct begin; lia. }
  pose proof (fill_trailer_spec w Hw) as (_ & Ho & _). fold pos in Ho.
  pose proof (pad_cases pos (len_pos _)) as Hpad. cbn zeta in Hpad.
  unfold b. cbn [add_loop cut]. set (s := pos + pad pos) in *. rewrite Ho.
  pose proof (Z.mod_pos_bound pos kBlockSize eq_refl). pose proof (writing_offset w Hw) as Hwo.
  assert (0 ≤ s mod kBlockSize ≤ kBlockSize - kHeaderSize) as Hs by (unfold kBlockSize, kHeaderSize in *; lia).
  rewrite (proj2 (Z.leb_le 0 (kBlockSize - block_offset w))) by lia.
  rewrite (proj2 (Z.leb_le 0 (kBlockSize - s mod kBlockSize - kHeaderSize))) by lia. cbn [require mbind result_bind].
  set (avail := kBlockSize - s mod kBlockSize - kHeaderSize) in *.
  pose proof (len_pos data) as Hlen.
  destruct (Z.leb_spec (len data) avail) as [Ha|Ha].
  - assert ((if len data <? avail then len data else avail) = len data) as -> by (destruct (Z.ltb_spec (len data) avail); lia).
    rewrite Z.eqb_refl, ztake_all, zdrop_all by lia. cbn [tape ptype pdata].
    destruct (emit_fragment w (fragment_type begin true) ptr data Hw Hd) as (w' & ok & -> & P1 & P2 & P3);
      [fold pos s; lia|].
    cbn. rewrite andb_false_r. eexists _, _. split; [done|]. by rewrite app_nil_r.
  - rewrite (proj2 (Z.ltb_ge (len data) avail)), (proj2 (Z.eqb_neq (len data) avail)) by lia. cbn [tape ptype pdata].
    destruct (emit_fragment w (fragment_type begin false) ptr (ztake avail data) Hw) as (w' & ok & -> & P1 & P2 & P3).
    { by apply Forall_take. } { fold pos s. rewrite len_ztake; lia. }
    fold pos in P2, P3. cbn [mbind result_bind]. rewrite len_zdrop by lia.
    rewrite (proj2 (Z.ltb_lt 0 (0 `max` (len data - avail)))) by lia. rewrite andb_true_r.
    unfold stop. cbn [start pdata]. rewrite len_ztake, (Z.min_l avail) by lia. rewrite (app_assoc (replicate _ _)).
    destruct ok; cycle 1.
    { eexists _, _. split; [done|]. split; [done|]. split; [|done]. rewrite app_assoc. by apply prefix_app_r. }
    destruct (P3 eq_refl) as [E1 Hw'].
    assert (len (disk (dest w')) = s + kHeaderSize + avail) as El.
    { rewrite E1, !len_app, len_encode, len_replicate, len_ztake by lia. fold pos. unfold s. lia. }
    destruct (IH w' false (ptr + Z.to_nat avail)%nat (zdrop avail data) Hw') as (w'' & ok & -> & Q1 & Q2 & Q3).
    { by apply Forall_drop. }
    { assert (begin = true ∨ 0 < avail) as Hba.
      { destruct begin; [by left|right]. destruct (Hb eq_refl) as [_ E0]. unfold kBlockSize, kHeaderSize in *. lia. }
      unfold zdrop, len in *. rewrite length_drop. destruct begin; destruct Hba; try done; lia. }
    { intros _. split; [intros E; pose proof (len_zdrop avail data ltac:(lia)) as El'; rewrite E in El'; rewrite len_nil in El'; lia|].
      rewrite El. replace (s + kHeaderSize + avail) with ((s / kBlockSize + 1) * kBlockSize); [by apply Z.mod_mul|].
      unfold avail. pose proof (Z.div_mod s kBlockSize). lia. }
    rewrite El, E1 in Q2, Q3. rewrite <- !app_assoc in *.
    eexists _, _. split; [done|]. split; [by etrans|]. done.
Qed.

Lemma AddRecord_spec w ptr data :
  writing w → Forall byte data →
  let b := record_bytes (len (disk (dest w))) data in
  ∃ w' ok, AddRecord w ptr data = Ok (w', ok) ∧
    disk (dest w) `prefix_of` disk (dest w') ∧ disk (dest w') `prefix_of` disk (dest w) ++ b ∧
    (ok = true → disk (dest w') = disk (dest w) ++ b ∧ writing w').
Proof. intros Hw Hd. by apply add_loop_spec; [| |lia|]. Qed.

Lemma make_writer_writing f t : disk f = [] → buffered f = [] → writing (make_writer f t).
Proof. intros Hd Hb. split; cbn; [done|done|by rewrite Hd|apply InitTypeCrc_crc32c]. Qed.

Lemma reopen_writer_writing f t : buffered f = [] → writing (reopen_writer f (len (disk f)) t).
Proof.
  intros Hb. pose proof (Z.mod_pos_bound (len (disk f)) kBlockSize eq_refl).
  split; cbn -[kBlockSize]; [done|lia|by rewrite Z.mod_mod|apply InitTypeCrc_crc32c].
Qed.

(** ** A run of the writer *)

(** Add a record whose bytes lie at an address, or close the file and open it
    again; a run stops at the first record that fails. *)
Inductive call := Add (ptr : nat) (data : list Z) | Reopen (t : nat).

Definition call_records (cs : list call) : list (list Z) :=
  omap (λ c, match c with Add _ d => Some d | Reopen _ => None end) cs.

Fixpoint run_writer w (cs : list call) : result (Writer F * bool) :=
  match cs with
  | [] => Ok (w, true)
  | Add ptr data :: cs => '(w, s) ← AddRecord w ptr data; if s : bool then run_writer w cs else Ok (w, false)
  | Reopen t :: cs => run_writer (reopen_writer (dest w) (len (disk (dest w))) t) cs
  end.

Lemma run_writer_spec w cs :
  writing w → Forall (Forall byte) (call_records cs) →
  let b := log_bytes (len (disk (dest w))) (call_records cs) in
  ∃ w' ok, run_writer w cs = Ok (w', ok) ∧
    disk (dest w) `prefix_of` disk (dest w') ∧ disk (dest w') `prefix_of` disk (dest w) ++ b ∧
    (ok = true → disk (dest w') = disk (dest w) ++ b ∧ writing w').
Proof.
  revert w. induction cs as [|[ptr data|t] cs IH]; intros w Hw Hd b.
  - eexists _, _. split; [done|]. unfold b. cbn. by rewrite app_nil_r.
  - apply Forall_cons in Hd as [Hd Hcs]. destruct (AddRecord_spec w ptr data Hw Hd) as (w1 & ok & E & P1 & P2 & P3).
    unfold b. cbn [run_writer call_records omap list_omap log_bytes]. rewrite E. cbn [mbind result_bind].
    destruct ok; cycle 1.
    { eexists _, _. split; [done|]. split; [done|]. split; [|done]. rewrite app_assoc. by apply prefix_app_r. }
    destruct (P3 eq_refl) as [E1 Hw1]. destruct (IH w1 Hw1 Hcs) as (w2 & ok & -> & Q1 & Q2 & Q3).
    rewrite E1, len_app, <- app_assoc in Q2, Q3.
    eexists _, _. split; [done|]. split; [by etrans|]. done.
  - apply (IH (reopen_writer (dest w) _ t)); [|done]. apply reopen_writer_writing, writing_flushed, Hw.
Qed.

End writer.
