(* ===== verification/LsmLogRead.v ===== *)
(** * dLSM: what the log reader makes of the file

    The reader of [LsmLog] over any [SequentialFile]: the invariant of its
    buffer, what one fragment gives, and what a stream of fragments gives.  A
    stream may end in the torn remains of a fragment whose writer died. *)
From stdpp Require Import strings.
From S2P Require Import Prelude LsmCoding LsmCrc32c LsmFile LsmLog LsmLogWrite.
Import Coding Crc32c Log.

(** ** Headers *)

Lemma encode_app t data V :
  encode t data ++ V = EncodeFixed32 (Mask (crc32c 0 (type_value t :: data))) ++
    [u8 (Z.land (len data) 0xff); u8 (Z.shiftr (len data) 8); type_value t] ++ data ++ V.
Proof. unfold encode. by rewrite <- !app_assoc. Qed.

(** A buffer that starts with the header of a fragment. *)
Definition headed (b : list Z) (t : RecordType) (data : list Z) : Prop := take 7 b = take 7 (encode t data).

Lemma headed_app t data V : headed (encode t data ++ V) t data.
Proof.
  unfold headed. rewrite take_app_le; [done|]. pose proof (len_encode t data). unfold len, kHeaderSize in *. lia.
Qed.

Lemma headed_take t data n : kHeaderSize ≤ n → headed (ztake n (encode t data)) t data.
Proof. unfold headed, ztake, kHeaderSize. intros Hn. rewrite take_take. f_equal. lia. Qed.

Lemma header_fields b t data :
  headed b t data →
  b !! 4%nat = Some (u8 (Z.land (len data) 0xff)) ∧ b !! 5%nat = Some (u8 (Z.shiftr (len data) 8)) ∧
  b !! 6%nat = Some (type_value t).
Proof.
  intros E. rewrite <- !(lookup_take_lt b 7), E, !lookup_take_lt by lia. unfold encode, EncodeFixed32.
  by rewrite !(lookup_app_r (le_bytes 4 _)), length_le_bytes by (rewrite length_le_bytes; lia).
Qed.

Lemma header_length n :
  0 ≤ n ≤ 0xffff → Z.lor (Z.land (u8 (Z.land n 0xff)) 0xff) (Z.shiftl (Z.land (u8 (Z.shiftr n 8)) 0xff) 8) = n.
Proof.
  intros Hn. change 0xff with (Z.ones 8). rewrite !Z.land_ones, Z.shiftr_div_pow2 by lia.
  rewrite lor_shiftl; [|lia|apply wrap_fits; lia]. unfold wrap. rewrite !Z.mod_mod by done.
  rewrite (Z.mod_small (n / 2 ^ 8)); Z.to_euclidean_division_equations; lia.
Qed.

Lemma header_crc b t data :
  Forall byte data → headed b t data →
  ∃ crc, DecodeFixed32 b = Ok crc ∧ Unmask crc = crc32c 0 (type_value t :: data).
Proof.
  intros Hd E. set (c := crc32c 0 (type_value t :: data)).
  assert (fits 32 c) as Hc. { apply crc32c_fits; [done|]. constructor; [by destruct t|done]. }
  destruct (Unmask_Mask c Hc) as [Eu Hm]. exists (Mask c). split; [|done].
  rewrite <- (take_drop 7 b), E. unfold encode, EncodeFixed32. fold c.
  rewrite take_app_ge, <- app_assoc by (rewrite length_le_bytes; lia). by apply decode_fixed_encode.
Qed.

Section reader.
Context {G : Type} `{SequentialFile G} `{!SequentialFileSpec G}.
Implicit Types (r : Reader G) (U V fragment : list Z) (pos : Z).

(** ** The buffer of the reader *)

(** The bytes from position [pos] on are [U]; the buffer holds those up to the
    end of a block, or of the file. *)
Record reading r pos U : Prop := {
  reading_readable : readable (file r);
  reading_unread : U = buffer r ++ rest (file r);
  reading_end : end_of_buffer_offset r = pos + len (buffer r);
  reading_pos : 0 ≤ pos;
  reading_small : pos + len U + kBlockSize < 2 ^ 64;
  reading_block : len (buffer r) ≤ kBlockSize - pos mod kBlockSize;
  reading_more : eof r = false → end_of_buffer_offset r mod kBlockSize = 0;
  reading_eof : eof r = true → rest (file r) = [];
}.

(** What reading a fragment leaves alone. *)
Record same_log r r' : Prop := {
  same_reporter : reporter r' = reporter r;
  same_checksum : checksum r' = checksum r;
  same_initial : initial_offset r' = initial_offset r;
  same_last : last_record_offset r' = last_record_offset r;
  same_resyncing : resyncing r' = resyncing r;
  same_reports : reports r' = reports r;
}.

(** Where the block has not been used up, the buffer reaches to its end. *)
Lemma reading_fills r pos U n :
  reading r pos U → 0 < len (buffer r) → n ≤ len U → pos mod kBlockSize + n ≤ kBlockSize → n ≤ len (buffer r).
Proof.
  intros [_ HU He Hp _ Hb Hm Hf] H0 Hn HB. destruct (eof r).
  - rewrite HU, (Hf eq_refl), app_nil_r in Hn. done.
  - specialize (Hm eq_refl). rewrite He in Hm. unfold kBlockSize in *. Z.to_euclidean_division_equations. nia.
Qed.

Lemma parse_record_header r t data fragment :
  Forall byte data → len data ≤ 0xffff → t ≠ kZeroType → headed (buffer r) t data →
  parse_record r fragment =
    if len (buffer r) <? kHeaderSize + len data then
      if negb (eof r) then Ok (ReportCorruption (clear_buffer r) (len (buffer r)) "bad record length", kBadRecord, fragment)
      else Ok (clear_buffer r, kEof, fragment)
    else
      let actual := Value (buffer_data r + 6) (ztake (1 + len data) (drop 6 (buffer r))) in
      if checksum r && negb (actual =? crc32c 0 (type_value t :: data)) then
        Ok (ReportCorruption (clear_buffer r) (len (buffer r)) "checksum mismatch", kBadRecord, fragment)
      else
        let r' := set_buffer r (buffer_data r + Z.to_nat (kHeaderSize + len data)) (zdrop (kHeaderSize + len data) (buffer r)) in
        if u64 (end_of_buffer_offset r - len (buffer r') - kHeaderSize - len data) <? initial_offset r
        then Ok (r', kBadRecord, [])
        else Ok (r', type_value t, ztake (len data) (zdrop kHeaderSize (buffer r))).
Proof.
  intros Hd Hl Ht Hh. unfold parse_record. destruct (header_fields _ _ _ Hh) as (E4 & E5 & E6).
  destruct (header_crc _ _ _ Hd Hh) as (crc & Ec & Eu). unfold at_index. rewrite E4, E5, E6.
  cbn [mbind result_bind]. rewrite header_length by (pose proof (len_pos data); lia). rewrite Ec. cbn [mbind result_bind].
  rewrite Eu.
  assert (unsigned_of_char (type_value t) = type_value t) as -> by (by destruct t).
  assert ((type_value t =? type_value kZeroType) = false) as -> by (by destruct t).
  done.
Qed.

(** What is handed on for a fragment: those before the initial offset are not. *)
Definition seen r (p : physical) : bool := initial_offset r <=? start p.

(** A fragment of a log: its place in its block, its type and its bytes. *)
Definition fragment_ok (p : physical) : Prop :=
  ptype p ≠ kZeroType ∧ Forall byte (pdata p) ∧ start p mod kBlockSize + kHeaderSize + len (pdata p) ≤ kBlockSize.

Lemma parse_record_full r p V fragment :
  reading r (start p) (encode (ptype p) (pdata p) ++ V) → kHeaderSize ≤ len (buffer r) → fragment_ok p →
  ∃ r', parse_record r fragment =
      Ok (r', if seen r p then type_value (ptype p) else kBadRecord, if seen r p then pdata p else []) ∧
    reading r' (stop p) V ∧ same_log r r'.
Proof.
  destruct p as [pos t data]. unfold fragment_ok, seen, stop. cbn [start ptype pdata].
  intros Hr Hlen (Ht & Hd & Hfit). pose proof (len_pos data) as Hdl.
  assert (kHeaderSize + len data ≤ len (buffer r)) as Hall.
  { eapply reading_fills; [done|unfold kHeaderSize in *; lia| |lia]. rewrite len_app, len_encode. pose proof (len_pos V). lia. }
  destruct Hr as [Hrd HU He Hp Hs Hb Hm Hf].
  pose proof (Z.mod_pos_bound pos kBlockSize eq_refl) as Hmod.
  assert (buffer r = encode t data ++ ztake (len (buffer r) - kHeaderSize - len data) V) as EB.
  { rewrite <- (ztake_app (len (buffer r)) (buffer r) (rest (file r)) eq_refl) at 1.
    rewrite <- HU, ztake_app_ge by (by rewrite len_encode). by rewrite len_encode, Z.sub_add_distr. }
  set (W := ztake _ V) in EB. assert (headed (buffer r) t data) as Hh by (rewrite EB; apply headed_app).
  rewrite (parse_record_header r t data fragment Hd) by (done || (unfold kBlockSize, kHeaderSize in *; lia)).
  rewrite (proj2 (Z.ltb_ge _ _)) by done.
  assert (ztake (1 + len data) (drop 6 (buffer r)) = type_value t :: data) as ->.
  { rewrite EB, encode_app. change (drop 6) with (@zdrop Z 6). rewrite zdrop_app_ge by done.
    cbn -[len]. unfold zdrop. cbn -[len]. rewrite (app_comm_cons data). apply ztake_app. rewrite len_cons. lia. }
  unfold Value. rewrite Extend_crc32c by (done || (constructor; [by destruct t|done])).
  rewrite Z.eqb_refl. cbn [negb]. rewrite andb_false_r. cbn zeta.
  assert (zdrop (kHeaderSize + len data) (buffer r) = W) as ->.
  { rewrite EB. apply zdrop_app. by rewrite len_encode. }
  assert (ztake (len data) (zdrop kHeaderSize (buffer r)) = data) as ->.
  { rewrite EB, encode_app. rewrite app_assoc. rewrite zdrop_app by done. by apply ztake_app. }
  assert (len (buffer r) = kHeaderSize + len data + len W) as EL by (rewrite EB at 1; by rewrite len_app, len_encode).
  cbn [buffer set_buffer]. replace (end_of_buffer_offset r - len W - kHeaderSize - len data) with pos by lia.
  rewrite (wrap_small 64 pos) by (split; [done|]; pose proof (len_pos (encode t data ++ V)); unfold kBlockSize in *; lia).
  assert (reading (set_buffer r (buffer_data r + Z.to_nat (kHeaderSize + len data)) W) (pos + kHeaderSize + len data) V) as Hr'.
  { split; cbn; try done.
    - apply (app_inv_head (encode t data)). by rewrite HU, EB at 1; rewrite <- app_assoc.
    - lia.
    - unfold kHeaderSize. lia.
    - rewrite len_app, len_encode in Hs. lia.
    - pose proof (len_pos W). unfold kBlockSize, kHeaderSize in *. Z.to_euclidean_division_equations. lia. }
  destruct (Z.ltb_spec pos (initial_offset r)); [rewrite (proj2 (Z.leb_gt _ _)) by lia|rewrite (proj2 (Z.leb_le _ _)) by lia];
    (eexists; split; [done|]; split; [done|by split]).
Qed.

Lemma parse_record_torn r p n fragment :
  reading r (start p) (ztake n (encode (ptype p) (pdata p))) → fragment_ok p →
  kHeaderSize ≤ len (buffer r) → kHeaderSize ≤ n < kHeaderSize + len (pdata p) →
  parse_record r fragment = Ok (clear_buffer r, kEof, fragment).
Proof.
  intros Hr (Ht & Hd & Hfit) Hlen Hn. pose proof (Z.mod_pos_bound (start p) kBlockSize eq_refl) as Hmod.
  assert (len (ztake n (encode (ptype p) (pdata p))) = n) as EL.
  { rewrite len_ztake, len_encode; unfold kHeaderSize in *; lia. }
  assert (n ≤ len (buffer r)) as Hn1.
  { eapply reading_fills; [done| |by rewrite EL|]; unfold kBlockSize, kHeaderSize in *; lia. }
  destruct Hr as [Hrd HU He Hp Hs Hb Hm Hf].
  assert (len (buffer r) = n) as En.
  { rewrite HU, len_app in EL. pose proof (len_pos (rest (file r))). lia. }
  assert (buffer r = ztake n (encode (ptype p) (pdata p))) as EB.
  { rewrite HU. rewrite HU, len_app in EL. rewrite (len_zero (rest (file r))) by lia. by rewrite app_nil_r. }
  rewrite (parse_record_header r (ptype p) (pdata p)); [|done|unfold kBlockSize, kHeaderSize in *; lia|done|].
  2:{ rewrite EB. apply headed_take. lia. }
  rewrite (proj2 (Z.ltb_lt _ _)) by lia. destruct (eof r); [done|].
  specialize (Hm eq_refl). rewrite He in Hm. unfold kBlockSize, kHeaderSize in *. Z.to_euclidean_division_equations. nia.
Qed.

(** The block is used up: the zeros at its end go, the next block comes. *)
Lemma physical_refill fuel r pos U fragment :
  reading r pos U → len (buffer r) < kHeaderSize → eof r = false →
  ∃ r', physical_loop (S fuel) r fragment = physical_loop fuel r' fragment ∧
    reading r' (pos + pad pos) (zdrop (pad pos) U) ∧ same_log r r' ∧
    len (buffer r') = kBlockSize `min` len (zdrop (pad pos) U) ∧
    (len (buffer r') < kBlockSize → eof r' = true).
Proof.
  intros [Hrd HU He Hp Hs Hb Hm Hf] Hlen Heof. specialize (Hm Heof).
  pose proof (len_pos (buffer r)) as Hbl. pose proof (Z.mod_pos_bound pos kBlockSize eq_refl) as Hmod.
  assert (pad pos = len (buffer r)) as Epad.
  { pose proof (pad_cases pos Hp) as Hpad. cbn zeta in Hpad. rewrite He in Hm.
    unfold kBlockSize, kHeaderSize in *. Z.to_euclidean_division_equations. nia. }
  assert (zdrop (pad pos) U = rest (file r)) as -> by (rewrite HU, Epad; by apply zdrop_app).
  cbn [physical_loop]. rewrite (proj2 (Z.ltb_lt _ _)), Heof by done. cbn [negb file clear_buffer set_buffer].
  destruct (Read_ok (file r) kBlockSize Hrd) as (f & -> & Erest & Hrd'); [done|]. cbn [negb].
  set (d := ztake kBlockSize (rest (file r))).
  assert (len d = kBlockSize `min` len (rest (file r))) as Ed by (by apply len_ztake).
  cbn [set_end set_buffer set_file clear_buffer buffer end_of_buffer_offset].
  assert (u64 (end_of_buffer_offset r + len d) = pos + pad pos + len d) as ->.
  { rewrite He, Epad. rewrite HU, len_app in Hs. pose proof (len_pos d). apply wrap_small. split; lia. }
  eexists. split; [done|]. rewrite He, <- Epad in Hm.
  assert (len U = pad pos + len (rest (file r))) as Hle by (by rewrite HU, len_app, Epad).
  destruct (Z.ltb_spec (len d) kBlockSize) as [Hd|Hd]; (split; [|split; [by split|split; [done|cbn; done || lia]]]); split; cbn; try done; try lia.
  all: try (by rewrite Erest; unfold d; symmetry; apply ztake_zdrop).
  all: try (rewrite Erest; intros _; apply zdrop_all; lia).
  - intros _. rewrite <- Zplus_mod_idemp_l, Hm. replace (len d) with kBlockSize by lia. done.
  - by rewrite Heof.
Qed.

Lemma ReadPhysicalRecord_full r pos p V fragment :
  reading r pos (replicate (Z.to_nat (pad pos)) 0 ++ encode (ptype p) (pdata p) ++ V) →
  start p = pos + pad pos → fragment_ok p →
  ∃ r', ReadPhysicalRecord r fragment =
      Ok (r', if seen r p then type_value (ptype p) else kBadRecord, if seen r p then pdata p else []) ∧
    reading r' (stop p) V ∧ same_log r r'.
Proof.
  intros Hr Es Hok. pose proof (reading_pos _ _ _ Hr) as Hp. pose proof (pad_cases pos Hp) as Hpad. cbn zeta in Hpad.
  pose proof (Z.mod_pos_bound pos kBlockSize eq_refl). pose proof (len_pos (pdata p)) as Hdl. pose proof (len_pos V) as HVl.
  unfold ReadPhysicalRecord. destruct (Z.ltb_spec (len (buffer r)) kHeaderSize) as [Hlen|Hlen].
  - destruct (eof r) eqn:Heof.
    { exfalso. pose proof (reading_unread _ _ _ Hr) as HU. rewrite (reading_eof _ _ _ Hr Heof), app_nil_r in HU.
      rewrite <- HU, !len_app, len_encode, len_replicate in Hlen; lia. }
    destruct (physical_refill 1 r pos _ fragment Hr Hlen Heof) as (r1 & -> & Hr1 & [S1 S2 S3 S4 S5 S6] & Hl & _).
    rewrite zdrop_app in Hr1, Hl by (rewrite len_replicate; lia). rewrite <- Es in Hr1.
    rewrite len_app, len_encode in Hl. cbn [physical_loop].
    rewrite (proj2 (Z.ltb_ge (len (buffer r1)) kHeaderSize)) by (unfold kBlockSize, kHeaderSize in *; lia).
    destruct (parse_record_full r1 p V fragment Hr1) as (r' & E & Hr' & [T1 T2 T3 T4 T5 T6]);
      [unfold kBlockSize, kHeaderSize in *; lia|done|].
    unfold seen in *. rewrite S3 in E. exists r'. split; [done|]. split; [done|]. split; congruence.
  - cbn [physical_loop]. rewrite (proj2 (Z.ltb_ge _ _)) by done.
    pose proof (reading_block _ _ _ Hr). assert (pad pos = 0) as E0 by (unfold kBlockSize, kHeaderSize in *; lia).
    rewrite E0 in *. rewrite Z.add_0_r in Es. rewrite <- Es in *. by apply parse_record_full.
Qed.

(** A fragment of which the file holds only some bytes, or none. *)
Definition torn (pos : Z) (T : list Z) : Prop :=
  ∃ p n, start p = pos + pad pos ∧ fragment_ok p ∧ n < pad pos + kHeaderSize + len (pdata p) ∧
    T = ztake n (replicate (Z.to_nat (pad pos)) 0 ++ encode (ptype p) (pdata p)).

Lemma ReadPhysicalRecord_torn r pos T fragment :
  reading r pos T → torn pos T → ∃ r', ReadPhysicalRecord r fragment = Ok (r', kEof, fragment) ∧ same_log r r'.
Proof.
  intros Hr (p & n & Es & Hok & Hn & ->). pose proof (reading_pos _ _ _ Hr) as Hp. pose proof (pad_cases pos Hp) as Hpad.
  cbn zeta in Hpad. pose proof (Z.mod_pos_bound pos kBlockSize eq_refl). pose proof (len_pos (pdata p)) as Hdl.
  unfold ReadPhysicalRecord. destruct (Z.ltb_spec (len (buffer r)) kHeaderSize) as [Hlen|Hlen].
  - destruct (eof r) eqn:Heof.
    { cbn [physical_loop]. rewrite (proj2 (Z.ltb_lt _ _)), Heof by done. eexists. split; [done|]. by split. }
    destruct (physical_refill 1 r pos _ fragment Hr Hlen Heof) as (r1 & -> & Hr1 & S & Hl & Heof1).
    assert (zdrop (pad pos) (ztake n (replicate (Z.to_nat (pad pos)) 0 ++ encode (ptype p) (pdata p))) =
      ztake (n - pad pos) (encode (ptype p) (pdata p))) as E.
    { pose proof (zdrop_ztake_app n (replicate (Z.to_nat (pad pos)) 0) (encode (ptype p) (pdata p))) as E.
      by rewrite len_replicate in E by lia. }
    rewrite E, <- Es in Hr1. rewrite E in Hl. pose proof (len_ztake_le (n - pad pos) (encode (ptype p) (pdata p))).
    cbn [physical_loop]. destruct (Z.ltb_spec (len (buffer r1)) kHeaderSize) as [Hlen1|Hlen1].
    { rewrite Heof1 by (unfold kBlockSize, kHeaderSize in *; lia). eexists. split; [done|]. by destruct S; split. }
    rewrite (parse_record_torn r1 p _ fragment Hr1 Hok Hlen1) by (unfold kHeaderSize in *; lia).
    eexists. split; [done|]. by destruct S; split.
  - cbn [physical_loop]. rewrite (proj2 (Z.ltb_ge _ _)) by done.
    pose proof (reading_block _ _ _ Hr). assert (pad pos = 0) as E0 by (unfold kBlockSize, kHeaderSize in *; lia).
    rewrite E0 in *. rewrite Z.add_0_r in Es. rewrite <- Es in *. change (reading r (start p) (ztake n (encode (ptype p) (pdata p)))) in Hr.
    rewrite (parse_record_torn r p n fragment Hr Hok Hlen); [eexists; split; [done|by split]|].
    pose proof (len_ztake_le n (encode (ptype p) (pdata p))) as Hle. rewrite (reading_unread _ _ _ Hr), len_app in Hle.
    pose proof (len_pos (rest (file r))). unfold kHeaderSize in *. lia.
Qed.

(** ** Streams of fragments *)

(** Fragments one behind the other. *)
Fixpoint chain pos (ps : list physical) : Prop :=
  match ps with [] => True | p :: ps => start p = pos + pad pos ∧ fragment_ok p ∧ chain (stop p) ps end.

Definition end_pos pos (ps : list physical) : Z := default pos (stop <$> last ps).

Lemma end_pos_cons pos p ps : end_pos pos (p :: ps) = end_pos (stop p) ps.
Proof. unfold end_pos. rewrite last_cons. by destruct (last ps). Qed.

(** The records in a stream of fragments, for a reader that starts at offset
    [i]; [st] is the part of a record that has been seen. *)
Fixpoint assemble (i : Z) (st : option (list Z)) (ps : list physical) : list (list Z) :=
  match ps with
  | [] => []
  | p :: ps =>
      if start p <? i then assemble i None ps
      else match ptype p, st with
        | kFullType, _ => pdata p :: assemble i None ps
        | kFirstType, _ => assemble i (Some (pdata p)) ps
        | kMiddleType, Some s => assemble i (Some (s ++ pdata p)) ps
        | kLastType, Some s => (s ++ pdata p) :: assemble i None ps
        | _, _ => assemble i None ps
        end
  end.

Definition is_open (st : option (list Z)) : bool := match st with Some _ => true | None => false end.

(** A stream in which nothing is missing. *)
Fixpoint regular (i : Z) (open : bool) (ps : list physical) : bool :=
  match ps with
  | [] => true
  | p :: ps =>
      (i <=? start p) &&
      match ptype p with
      | kFullType => negb open && regular i false ps
      | kFirstType => negb open && regular i true ps
      | kMiddleType => open && regular i true ps
      | kLastType => open && regular i false ps
      | kZeroType => false
      end
  end.

(** What [record_loop] does with a stream that ends in torn bytes. *)
Definition loop_post (i : Z) (st : option (list Z)) (ps : list physical) T r (res : result (Reader G * option (list Z))) : Prop :=
  ∃ r' o, res = Ok (r', o) ∧ initial_offset r' = i ∧
    (regular i (is_open st) ps = true → resyncing r = false → reports r' = reports r) ∧
    match o with
    | None => assemble i st ps = []
    | Some d => ∃ ps' pos', assemble i st ps = d :: assemble i None ps' ∧
        reading r' pos' (tape pos' ps' ++ T) ∧ chain pos' ps' ∧ torn (end_pos pos' ps') T ∧ (length ps' < length ps)%nat ∧
        i ≤ last_record_offset r' ∧ resyncing r' = false ∧
        (regular i (is_open st) ps = true → regular i false ps' = true)
    end.

Lemma loop_post_skip i st st' p ps T r r2 res :
  loop_post i st' ps T r2 res → assemble i st (p :: ps) = assemble i st' ps →
  (regular i (is_open st) (p :: ps) = true → regular i (is_open st') ps = true ∧
    (resyncing r = false → resyncing r2 = false ∧ reports r2 = reports r)) →
  loop_post i st (p :: ps) T r res.
Proof.
  intros (r' & o & E & Hi & Hrep & Ho) Ea Hreg. exists r', o. split; [done|]. split; [done|]. split.
  { intros H1 H2. destruct (Hreg H1) as [H3 [H4 <-]%(λ f, f H2)]. by apply Hrep. }
  destruct o as [d|]; [|by rewrite Ea]. destruct Ho as (ps' & pos' & A1 & A2 & A3 & A4 & A5 & A6 & A7 & A8).
  exists ps', pos'. rewrite Ea. cbn [length]. split_and!; try done; [lia|]. intros H1. by apply A8, (Hreg H1).
Qed.

Lemma loop_post_found i st d p ps T r r' :
  initial_offset r' = i → reading r' (stop p) (tape (stop p) ps ++ T) → chain (stop p) ps → torn (end_pos (stop p) ps) T →
  i ≤ last_record_offset r' → resyncing r' = false → assemble i st (p :: ps) = d :: assemble i None ps →
  (regular i (is_open st) (p :: ps) = true → regular i false ps = true ∧ (resyncing r = false → reports r' = reports r)) →
  loop_post i st (p :: ps) T r (Ok (r', Some d)).
Proof.
  intros Hi Hr Hc Ht Hl Hs Ea Hreg. exists r', (Some d). split; [done|]. split; [done|]. split; [by intros H1; apply Hreg|].
  exists ps, (stop p). split_and!; try done; [cbn; lia|]. intros H1. by apply Hreg.
Qed.

Lemma reading_stop r pos U : reading r pos U → reading (stop_resyncing r) pos U.
Proof. by intros []; split. Qed.

Lemma reading_report r pos U n why : reading r pos U → reading (ReportDrop r n why) pos U.
Proof. intros []. unfold ReportDrop. destruct (_ && _); by split. Qed.

Lemma initial_report r n why : initial_offset (ReportDrop r n why) = initial_offset r.
Proof. unfold ReportDrop. by destruct (_ && _). Qed.

Lemma resyncing_report r n why : resyncing (ReportDrop r n why) = resyncing r.
Proof. unfold ReportDrop. by destruct (_ && _). Qed.

Lemma drop_partial_spec r pos U b x what :
  reading r pos U → let r' := drop_partial r b x what in
  reading r' pos U ∧ initial_offset r' = initial_offset r ∧ resyncing r' = resyncing r ∧ (b = false → reports r' = reports r).
Proof.
  intros Hr. unfold drop_partial. destruct b; [|done]. cbn. destruct (negb _); [|done].
  unfold ReportCorruption. rewrite initial_report, resyncing_report.
  split_and!; [by apply reading_report|done|done|done].
Qed.

Lemma reading_last r pos U o : reading r pos U → reading (set_last r o) pos U.
Proof. by intros []; split. Qed.

Lemma physical_offset r pos p ps T :
  0 ≤ pos → start p = pos + pad pos → reading r (stop p) (tape (stop p) ps ++ T) →
  u64 (end_of_buffer_offset r - len (buffer r) - kHeaderSize - len (pdata p)) = start p.
Proof.
  intros Hp Es Hr. rewrite (reading_end _ _ _ Hr). pose proof (reading_small _ _ _ Hr). pose proof (pad_range pos).
  pose proof (len_pos (pdata p)). pose proof (len_pos (tape (stop p) ps ++ T)). unfold stop in *.
  rewrite wrap_small; unfold fits, kBlockSize, kHeaderSize in *; lia.
Qed.

(** The two functions on streams agree with the type of the first fragment. *)
Ltac by_stream Et Hlt :=
  cbn; rewrite Et; first [by rewrite Hlt | by rewrite andb_false_r | by intros [_ ?]%andb_true_iff].

(** One round of the loop for the fragment [p], with [r2] the reader behind it. *)
Section round.
Context (fuel : nat) (i : Z) (p : physical) (ps : list physical) (T : list Z) (r r2 : Reader G) (st : option (list Z)).
Hypothesis behind : reading r2 (stop p) (tape (stop p) ps ++ T).
Hypothesis behind_initial : initial_offset r2 = i.
Hypothesis behind_resyncing : resyncing r2 = false.
Hypothesis behind_reports : reports r2 = reports r.
Hypothesis behind_chain : chain (stop p) ps.
Hypothesis behind_torn : torn (end_pos (stop p) ps) T.
Hypothesis visible : i ≤ start p.
Hypothesis rounds : ∀ st' r' pro' fragment', initial_offset r' = i → reading r' (stop p) (tape (stop p) ps ++ T) →
  (resyncing r' = true → st' = None) → (is_open st' = true → i ≤ pro') →
  loop_post i st' ps T r' (record_loop fuel r' (default [] st') (is_open st') pro' fragment').

Lemma round_full what :
  ptype p = kFullType →
  loop_post i st (p :: ps) T r (Ok (set_last (drop_partial r2 (is_open st) (default [] st) what) (start p), Some (pdata p))).
Proof.
  intros Et. destruct (drop_partial_spec r2 _ _ (is_open st) (default [] st) what behind) as (Hr3 & I3 & R3 & P3).
  apply loop_post_found; cbn [initial_offset set_last last_record_offset resyncing reports]; try (done || congruence);
    [by apply reading_last|by_stream Et (proj2 (Z.ltb_ge _ _) visible)|].
  cbn [regular]. rewrite Et. intros [_ [Ho Hreg]%andb_true_iff]%andb_true_iff. split; [done|].
  intros _. rewrite P3 by (by destruct st). done.
Qed.

Lemma round_first what pro :
  ptype p = kFirstType → i ≤ pro →
  loop_post i st (p :: ps) T r
    (record_loop fuel (drop_partial r2 (is_open st) (default [] st) what) (pdata p) true pro (pdata p)).
Proof.
  intros Et Hp. destruct (drop_partial_spec r2 _ _ (is_open st) (default [] st) what behind) as (Hr3 & I3 & R3 & P3).
  eapply (loop_post_skip i st (Some (pdata p))); [apply (rounds (Some (pdata p)))| |]; try (done || congruence).
  { by_stream Et (proj2 (Z.ltb_ge _ _) visible). }
  cbn [regular]. rewrite Et. intros [_ [Ho Hreg]%andb_true_iff]%andb_true_iff. split; [done|].
  intros _. rewrite P3 by (by destruct st). by rewrite R3.
Qed.

(** The rest of a record whose start has not been seen. *)
Lemma round_missing r' pro fragment :
  ptype p = kMiddleType ∨ ptype p = kLastType → initial_offset r' = i → reading r' (stop p) (tape (stop p) ps ++ T) →
  loop_post i None (p :: ps) T r (record_loop fuel r' [] false pro fragment).
Proof.
  intros [Et|Et] HI HR; (eapply (loop_post_skip i None None); [by apply (rounds None)|by_stream Et (proj2 (Z.ltb_ge _ _) visible)|by_stream Et Et]).
Qed.

Lemma round_middle x pro fragment :
  ptype p = kMiddleType → i ≤ pro →
  loop_post i (Some x) (p :: ps) T r (record_loop fuel r2 (x ++ pdata p) true pro fragment).
Proof.
  intros Et Hp. eapply (loop_post_skip i _ (Some (x ++ pdata p))); [apply (rounds (Some (x ++ pdata p)))| |]; try (done || congruence);
    by_stream Et (proj2 (Z.ltb_ge _ _) visible).
Qed.

Lemma round_last x pro :
  ptype p = kLastType → i ≤ pro →
  loop_post i (Some x) (p :: ps) T r (Ok (set_last r2 pro, Some (x ++ pdata p))).
Proof.
  intros Et Hp. apply loop_post_found; cbn [initial_offset set_last last_record_offset resyncing reports]; try done;
    [by apply reading_last|by_stream Et (proj2 (Z.ltb_ge _ _) visible)..].
Qed.

(** A fragment before the initial offset. *)
Lemma round_hidden r' pro fragment :
  start p < i → initial_offset r' = i → reading r' (stop p) (tape (stop p) ps ++ T) →
  loop_post i st (p :: ps) T r (record_loop fuel r' [] false pro fragment).
Proof.
  intros Hlt HI HR. eapply (loop_post_skip i st None); [by apply (rounds None)|by cbn; rewrite (proj2 (Z.ltb_lt _ _))|].
  cbn. by rewrite (proj2 (Z.leb_gt _ _)).
Qed.

End round.

Lemma record_loop_spec ps : ∀ fuel r pos T st pro fragment,
  let i := initial_offset r in
  reading r pos (tape pos ps ++ T) → chain pos ps → torn (end_pos pos ps) T → (length ps < fuel)%nat →
  (resyncing r = true → st = None) → (is_open st = true → i ≤ pro) →
  loop_post i st ps T r (record_loop fuel r (default [] st) (is_open st) pro fragment).
Proof.
  induction ps as [|p ps IH]; intros fuel r pos T st pro fragment i Hr Hc Ht Hf Hs Hp;
    (destruct fuel as [|fuel]; [cbn in Hf; lia|]); cbn [record_loop].
  { destruct (ReadPhysicalRecord_torn r pos T fragment Hr Ht) as (r' & -> & [S1 S2 S3 S4 S5 S6]).
    cbn -[u64]. rewrite !andb_false_r. eexists _, None. split; [done|]. by destruct (resyncing r'). }
  destruct Hc as (Es & Hok & Hc). rewrite end_pos_cons in Ht. cbn [tape] in Hr. rewrite <- app_assoc, <- (app_assoc (encode _ _)) in Hr.
  destruct (ReadPhysicalRecord_full r pos p _ fragment Hr Es Hok) as (r1 & -> & Hr1 & [_ _ S3 _ S5 S6]).
  cbn [mbind result_bind]. fold i in S3. pose proof (physical_offset r1 pos p ps T (reading_pos _ _ _ Hr) Es Hr1) as Eoff.
  assert (∃ r2, (if resyncing r1 then stop_resyncing r1 else r1) = r2 ∧ initial_offset r2 = i ∧ resyncing r2 = false ∧
    reading r2 (stop p) (tape (stop p) ps ++ T) ∧ reports r2 = reports r) as (r2 & E2 & I2 & R2 & Hr2 & P2).
  { eexists. split; [done|]. destruct (resyncing r1) eqn:?; cbn; auto using reading_stop. }
  assert (∀ st' r' pro' fragment', initial_offset r' = i → reading r' (stop p) (tape (stop p) ps ++ T) →
    (resyncing r' = true → st' = None) → (is_open st' = true → i ≤ pro') →
    loop_post i st' ps T r' (record_loop fuel r' (default [] st') (is_open st') pro' fragment')) as IH'.
  { intros st' r' pro' fragment' E Hr' H1 H2. rewrite <- E in *. apply (IH fuel r' (stop p)); try done. cbn in Hf. lia. }
  rewrite E2. clear IH Hr. unfold seen. fold i. destruct (Z.leb_spec i (start p)) as [Hseen|Hseen]; cycle 1.
  { rewrite !andb_false_r. cbn -[u64]. unfold ReportCorruption.
    destruct st; apply round_hidden; rewrite ?initial_report; auto using reading_report. }
  rewrite Eoff. destruct Hok as (Hz & _). destruct (ptype p) eqn:Et; [done|..]; cbn -[u64]; rewrite ?andb_false_r, ?andb_true_r.
  - by apply round_full.
  - by apply round_first.
  - destruct (resyncing r1) eqn:R1; [assert (st = None) as -> by (by apply Hs); apply round_missing; by auto|].
    destruct st as [x|]; [by apply round_middle; [..|apply Hp]|]. unfold ReportCorruption.
    apply round_missing; rewrite ?initial_report; auto using reading_report.
  - destruct (resyncing r1) eqn:R1; [assert (st = None) as -> by (by apply Hs); apply round_missing; auto using reading_stop|].
    destruct st as [x|]; [by apply round_last; [..|apply Hp]|]. unfold ReportCorruption.
    apply round_missing; rewrite ?initial_report; auto using reading_report.
Qed.

End reader.
