(* ===== verification/LsmLogRecovery.v ===== *)
(** * dLSM: the log survives crashes

    Writer and reader of the log together: whatever prefix of the file a crash
    leaves, the reader returns the records that lie wholly inside it, from the
    initial offset on, and reports no corruption. *)
From stdpp Require Import strings.
From S2P Require Import Prelude LsmCoding LsmCrc32c LsmFile LsmLog LsmLogWrite LsmLogRead.
Import Coding Crc32c Log.

(** ** The fragments of a record *)

Inductive fragmented : bool → list physical → list Z → Prop :=
| fragmented_end b p : ptype p = fragment_type b true → fragmented b [p] (pdata p)
| fragmented_more b p ps data :
    ptype p = fragment_type b false → fragmented false ps data → fragmented b (p :: ps) (pdata p ++ data).

Lemma log_cut_spec fuel pos (begin : bool) data :
  0 ≤ pos → Forall byte data → (length data + (if begin then 2 else 1) ≤ fuel)%nat →
  (begin = false → data ≠ [] ∧ pos mod kBlockSize = 0) →
  chain pos (cut fuel pos begin data) ∧ fragmented begin (cut fuel pos begin data) data.
Proof.
  revert pos begin data. induction fuel as [|fuel IH]; intros pos begin data Hp Hd Hf Hb.
  { destruct begin; lia. }
  cbn [cut]. set (s := pos + pad pos). set (avail := kBlockSize - s mod kBlockSize - kHeaderSize).
  pose proof (pad_cases pos Hp) as Hpad. cbn zeta in Hpad. fold s in Hpad. pose proof (pad_range pos) as Hr.
  pose proof (Z.mod_pos_bound pos kBlockSize eq_refl). pose proof (len_pos data) as Hl.
  assert (fragment_type begin true ≠ kZeroType ∧ fragment_type begin false ≠ kZeroType) as [T1 T2] by (by destruct begin).
  destruct (Z.leb_spec (len data) avail) as [Ha|Ha].
  { split; [|by apply (fragmented_end begin (MkPhysical s _ data))].
    split; [done|]. split; [|done]. split; [done|]. split; [done|]. cbn. unfold avail in Ha. lia. }
  assert (0 ≤ avail) as Hav by (unfold avail, kBlockSize, kHeaderSize in *; lia).
  destruct (IH (s + kHeaderSize + avail) false (zdrop avail data)) as [Hc Hfr].
  - unfold s, kHeaderSize in *. lia.
  - by apply Forall_drop.
  - assert (begin = true ∨ 0 < avail) as Hba.
    { destruct begin; [by left|right]. destruct (Hb eq_refl) as [_ E0]. unfold avail, kBlockSize, kHeaderSize in *. lia. }
    unfold zdrop, len in *. rewrite length_drop. destruct begin; destruct Hba; try done; lia.
  - intros _. split; [intros E; pose proof (len_zdrop avail data ltac:(lia)) as El; rewrite E, len_nil in El; lia|].
    replace (s + kHeaderSize + avail) with ((s / kBlockSize + 1) * kBlockSize); [by apply Z.mod_mul|].
    unfold avail. pose proof (Z.div_mod s kBlockSize). lia.
  - assert (len (ztake avail data) = avail) as El by (rewrite len_ztake; lia).
    split.
    + split; [done|]. unfold stop, fragment_ok. cbn [start ptype pdata]. rewrite El.
      split; [|done]. split; [done|]. split; [by apply Forall_take|]. unfold avail. lia.
    + pose proof (fragmented_more begin (MkPhysical s (fragment_type begin false) (ztake avail data)) _ _ eq_refl Hfr) as F.
      cbn [pdata] in F. by rewrite ztake_zdrop in F.
Qed.

Lemma len_tape pos ps : chain pos ps → pos + len (tape pos ps) = end_pos pos ps.
Proof.
  revert pos. induction ps as [|p ps IH]; intros pos Hc; [by cbn; rewrite Z.add_0_r|].
  destruct Hc as (Es & _ & Hc). rewrite end_pos_cons, <- IH by done. cbn [tape].
  rewrite !len_app, len_encode, len_replicate by (apply pad_range). unfold stop. lia.
Qed.

(** ** Truncation *)

(** The fragments that end before an offset. *)
Fixpoint whole (n : Z) (ps : list physical) : list physical :=
  match ps with [] => [] | p :: ps => if stop p <=? n then p :: whole n ps else [] end.

Lemma torn_nil pos : 0 ≤ pos → torn pos [].
Proof.
  intros Hp. exists (MkPhysical (pos + pad pos) kFullType []), 0. split; [done|]. split.
  { split; [done|]. split; [constructor|]. cbn [start pdata]. rewrite len_nil.
    pose proof (pad_cases pos Hp) as Hpad. cbn zeta in Hpad. unfold kBlockSize, kHeaderSize in *. lia. }
  split; [|done]. pose proof (pad_range pos). cbn [pdata]. change (len (@nil Z)) with 0. unfold kHeaderSize in *. lia.
Qed.

Lemma stop_pos pos p : 0 ≤ pos → start p = pos + pad pos → pos < stop p.
Proof. intros Hp Es. unfold stop. pose proof (pad_range pos). pose proof (len_pos (pdata p)). unfold kHeaderSize in *. lia. Qed.

Lemma truncate_stream n pos ps :
  0 ≤ pos → chain pos ps →
  ∃ T, ztake (n - pos) (tape pos ps) = tape pos (whole n ps) ++ T ∧
    chain pos (whole n ps) ∧ torn (end_pos pos (whole n ps)) T.
Proof.
  revert pos. induction ps as [|p ps IH]; intros pos Hp Hc.
  { exists []. split; [by cbn [tape]; unfold ztake; rewrite take_nil|]. split; [done|]. by apply torn_nil. }
  destruct Hc as (Es & Hok & Hc). pose proof (stop_pos pos p Hp Es) as Hlt. cbn [tape whole].
  set (A := replicate (Z.to_nat (pad pos)) 0 ++ encode (ptype p) (pdata p)). rewrite app_assoc. fold A.
  assert (len A = stop p - pos) as EA.
  { unfold A. rewrite len_app, len_encode, len_replicate by apply pad_range. unfold stop. lia. }
  destruct (Z.leb_spec (stop p) n) as [Hn|Hn].
  - destruct (IH (stop p)) as (T & E & Hc' & HT); [lia|done|]. exists T.
    rewrite ztake_app_ge, EA by lia. replace (n - pos - (stop p - pos)) with (n - stop p) by lia. rewrite E.
    cbn [tape chain]. rewrite end_pos_cons. unfold A. by rewrite <- !app_assoc.
  - exists (ztake (n - pos) A). rewrite ztake_app_le by lia. split; [done|]. split; [done|].
    change (end_pos pos []) with pos. exists p, (n - pos). split; [done|]. split; [done|]. split; [|done]. unfold stop in *. lia.
Qed.

(** ** Starting in the middle *)

Lemma block_cases s pos p :
  0 ≤ pos ≤ s → s mod kBlockSize = 0 → start p = pos + pad pos → fragment_ok p →
  s = pos ∨ s = start p ∨ stop p ≤ s.
Proof.
  intros Hp Hs Es (_ & _ & Hfit). pose proof (pad_cases pos) as Hpad. cbn zeta in Hpad. rewrite <- Es in Hpad.
  pose proof (len_pos (pdata p)). unfold stop, kBlockSize, kHeaderSize in *.
  Z.to_euclidean_division_equations. nia.
Qed.

Lemma pad_boundary s : 0 ≤ s → s mod kBlockSize = 0 → pad s = 0.
Proof. intros H0 Hs. unfold pad. by rewrite Hs. Qed.

Lemma drop_stream s pos ps T :
  0 ≤ pos ≤ s → s mod kBlockSize = 0 → chain pos ps → torn (end_pos pos ps) T →
  ∃ ps1 ps2 T', ps = ps1 ++ ps2 ∧ zdrop (s - pos) (tape pos ps ++ T) = tape s ps2 ++ T' ∧
    chain s ps2 ∧ torn (end_pos s ps2) T' ∧ Forall (λ p, start p < s) ps1.
Proof.
  revert pos T. induction ps as [|p ps IH]; intros pos T Hp Hs Hc HT.
  - change (end_pos pos []) with pos in HT. destruct HT as (p & n & Es & Hok & Hn & ->).
    set (T := ztake n _). exists [], []. cbn [tape app chain]. change (end_pos s []) with s.
    destruct (block_cases s pos p Hp Hs Es Hok) as [->|[E|E]].
    + exists T. rewrite Z.sub_diag. split_and!; [done|done|done| |constructor]. by exists p, n.
    + exists (zdrop (s - pos) T). split_and!; [done|done|done| |constructor].
      exists p, (n - pad pos). rewrite pad_boundary by lia. split; [lia|]. split; [done|]. split; [lia|].
      unfold T. replace (s - pos) with (len (replicate (Z.to_nat (pad pos)) 0)).
      2:{ rewrite len_replicate by apply pad_range. lia. }
      rewrite zdrop_ztake_app, len_replicate by apply pad_range. done.
    + exists []. split_and!; [done| |done|by apply torn_nil; lia|constructor].
      apply zdrop_all. unfold T. pose proof (len_ztake_le n (replicate (Z.to_nat (pad pos)) 0 ++ encode (ptype p) (pdata p))).
      unfold stop in E. lia.
  - destruct Hc as (Es & Hok & Hc). rewrite end_pos_cons in HT.
    destruct (block_cases s pos p Hp Hs Es Hok) as [->|[E|E]].
    + exists [], (p :: ps), T. rewrite Z.sub_diag. split_and!; [done|done|done|by rewrite end_pos_cons|constructor].
    + exists [], (p :: ps), T. cbn [tape chain]. rewrite (pad_boundary s) by lia.
      split_and!; [done| |lia|done|done|by rewrite end_pos_cons|constructor].
      rewrite <- app_assoc. apply zdrop_app. rewrite len_replicate by apply pad_range. lia.
    + pose proof (stop_pos pos p). destruct (IH (stop p) T) as (ps1 & ps2 & T' & -> & Ed & Hc2 & HT2 & H1); [lia|done..|].
      exists (p :: ps1), ps2, T'. split_and!; [done| |done|done|].
      * rewrite <- Ed. cbn [tape]. rewrite (app_assoc (replicate _ _)), <- app_assoc.
        rewrite zdrop_app_ge, len_app, len_encode, len_replicate by (rewrite ?len_app, ?len_encode, ?len_replicate by apply pad_range; unfold stop in *; lia || apply pad_range).
        f_equal. unfold stop. lia.
      * constructor; [|done]. unfold stop in E. pose proof (len_pos (pdata p)). unfold kHeaderSize in *. lia.
Qed.

(** ** From fragments to records *)

Lemma length_tape pos ps : chain pos ps → (length ps ≤ length (tape pos ps))%nat.
Proof.
  revert pos. induction ps as [|p ps IH]; intros pos Hc; [done|]. destruct Hc as (_ & _ & Hc). specialize (IH _ Hc).
  cbn [tape length]. rewrite !length_app. pose proof (len_encode (ptype p) (pdata p)) as El.
  pose proof (len_pos (pdata p)). unfold len, kHeaderSize in El, H. lia.
Qed.

Lemma whole_app n ps qs :
  (whole n ps = ps ∧ whole n (ps ++ qs) = ps ++ whole n qs) ∨ (whole n ps ≠ ps ∧ whole n (ps ++ qs) = whole n ps).
Proof.
  induction ps as [|p ps IH]; [by left|]. cbn. destruct (stop p <=? n); [|by right].
  destruct IH as [[E1 E2]|[E1 E2]]; [left|right]; rewrite E2; (split; [congruence|done]).
Qed.

Lemma end_pos_ge pos ps : chain pos ps → pos ≤ end_pos pos ps.
Proof. intros Hc. rewrite <- len_tape by done. pose proof (len_pos (tape pos ps)). lia. Qed.

Lemma whole_end n pos ps : chain pos ps → ps ≠ [] → whole n ps = ps ↔ end_pos pos ps ≤ n.
Proof.
  intros Hc Hne. split.
  - revert pos Hc. induction ps as [|p ps IH]; intros pos Hc; [done|]. destruct Hc as (Es & Hok & Hc). rewrite end_pos_cons. cbn.
    destruct (Z.leb_spec (stop p) n) as [Hn|]; [|done]. intros [= E]. destruct ps as [|q ps]; [done|]. by apply IH.
  - clear Hne. revert pos Hc. induction ps as [|p ps IH]; intros pos Hc; [done|]. destruct Hc as (Es & Hok & Hc).
    rewrite end_pos_cons. intros Hn. cbn. pose proof (end_pos_ge _ _ Hc).
    rewrite (proj2 (Z.leb_le _ _)) by lia. f_equal. by eapply IH.
Qed.

Section assemble.
Context (i : Z).

Lemma assemble_hidden ps qs :
  Forall (λ p, start p < i) ps → assemble i None (ps ++ qs) = assemble i None qs.
Proof. induction 1 as [|p ps Hp _ IH]; [done|]. cbn. by rewrite (proj2 (Z.ltb_lt _ _)). Qed.

Lemma assemble_tail b ps d qs :
  fragmented b ps d → b = false → assemble i None (ps ++ qs) = assemble i None qs.
Proof.
  induction 1 as [b p Et|b p ps d Et Hf IH]; intros ->; cbn; rewrite Et; cbn; destruct (start p <? i); auto.
Qed.

Lemma assemble_record b ps d qs x :
  fragmented b ps d → Forall (λ p, i ≤ start p) ps →
  assemble i (if b then None else Some x) (ps ++ qs) = ((if b then [] else x) ++ d) :: assemble i None qs.
Proof.
  intros Hf. revert x. induction Hf as [b p Et|b p ps d Et Hf IH]; intros x [Hp Hps]%Forall_cons; cbn;
    rewrite Et, (proj2 (Z.ltb_ge _ _)) by done; destruct b; cbn; try done.
  - by rewrite IH.
  - by rewrite IH, <- app_assoc.
Qed.

Lemma assemble_skipped p ps d qs :
  fragmented true (p :: ps) d → start p < i → assemble i None ((p :: ps) ++ qs) = assemble i None qs.
Proof.
  intros Hf Hp. cbn. rewrite (proj2 (Z.ltb_lt _ _)) by done. inversion Hf; subst; [done|]. by eapply assemble_tail.
Qed.

Lemma assemble_partial n b ps d st : fragmented b ps d → whole n ps ≠ ps → assemble i st (whole n ps) = [].
Proof.
  intros Hf. revert st. induction Hf as [b p Et|b p ps d Et Hf IH]; intros st; cbn; destruct (stop p <=? n); try done.
  intros Hne. cbn. rewrite Et. assert (whole n ps ≠ ps) as Hne' by congruence.
  destruct (start p <? i); [by apply IH|]. destruct b; cbn; [by apply IH|]. destruct st; by apply IH.
Qed.

Lemma regular_record b ps d qs :
  fragmented b ps d → Forall (λ p, i ≤ start p) ps → regular i (negb b) (ps ++ qs) = regular i false qs.
Proof.
  induction 1 as [b p Et|b p ps d Et Hf IH]; intros [Hp Hps]%Forall_cons; cbn;
    rewrite Et, (proj2 (Z.leb_le _ _)) by done; destruct b; cbn; auto.
Qed.

Lemma regular_partial n b ps d :
  fragmented b ps d → whole n ps ≠ ps → Forall (λ p, i ≤ start p) ps → regular i (negb b) (whole n ps) = true.
Proof.
  induction 1 as [b p Et|b p ps d Et Hf IH]; intros Hne [Hp Hps]%Forall_cons; cbn in *;
    (destruct (stop p <=? n) eqn:E; [|done]); cbn; [done|].
  rewrite Et, (proj2 (Z.leb_le _ _)) by done. destruct b; cbn; apply IH; congruence || done.
Qed.

End assemble.

(** ** The fragments of a log *)

Fixpoint log_fragments (pos : Z) (records : list (list Z)) : list physical :=
  match records with
  | [] => []
  | r :: rs => record_fragments pos r ++ log_fragments (pos + len (record_bytes pos r)) rs
  end.

(** The records of a log that lie wholly in its first [n] bytes and start at or
    behind the offset [i]. *)
Fixpoint surviving (n i pos : Z) (records : list (list Z)) : list (list Z) :=
  match records with
  | [] => []
  | r :: rs =>
      let e := pos + len (record_bytes pos r) in
      if e <=? n then (if i <=? pos + pad pos then [r] else []) ++ surviving n i e rs else []
  end.

Lemma log_chain_app pos ps qs : chain pos ps → chain (end_pos pos ps) qs → chain pos (ps ++ qs).
Proof.
  revert pos. induction ps as [|p ps IH]; intros pos; [done|]. intros (Es & Hok & Hc). rewrite end_pos_cons. cbn.
  intros Hq. by auto.
Qed.

Lemma chain_starts pos ps : 0 ≤ pos → chain pos ps → Forall (λ p, pos + pad pos ≤ start p) ps.
Proof.
  revert pos. induction ps as [|p ps IH]; intros pos Hp Hc; [constructor|]. destruct Hc as (Es & Hok & Hc).
  constructor; [lia|]. pose proof (stop_pos pos p Hp Es). eapply Forall_impl; [apply (IH (stop p)); [lia|done]|].
  intros q Hq. cbn in Hq. pose proof (pad_range (stop p)). unfold stop, kHeaderSize in *. pose proof (len_pos (pdata p)). lia.
Qed.

Lemma record_fragments_spec pos r :
  0 ≤ pos → Forall byte r →
  let ps := record_fragments pos r in
  chain pos ps ∧ fragmented true ps r ∧ ps ≠ [] ∧ end_pos pos ps = pos + len (record_bytes pos r).
Proof.
  intros Hp Hr ps. destruct (log_cut_spec (2 + length r) pos true r Hp Hr) as [Hc Hf]; [lia|done|].
  split; [done|]. split; [done|]. split; [intros E; change (fragmented true ps r) in Hf; rewrite E in Hf; by inversion Hf|]. by rewrite <- len_tape.
Qed.

Lemma log_fragments_spec pos rs :
  0 ≤ pos → Forall (Forall byte) rs → chain pos (log_fragments pos rs) ∧ tape pos (log_fragments pos rs) = log_bytes pos rs.
Proof.
  intros Hp Hrs. revert pos Hp. induction Hrs as [|r rs Hr _ IH]; intros pos Hp; [done|].
  destruct (record_fragments_spec pos r Hp Hr) as (Hc & Hf & Hne & He). cbn [log_fragments log_bytes].
  pose proof (len_pos (record_bytes pos r)). destruct (IH (pos + len (record_bytes pos r))) as [Hc' Et]; [lia|].
  split; [by apply log_chain_app; [|rewrite He]|]. rewrite tape_app. fold (end_pos pos (record_fragments pos r)). by rewrite He, Et.
Qed.

Lemma surviving_spec n i pos rs :
  0 ≤ pos → Forall (Forall byte) rs → assemble i None (whole n (log_fragments pos rs)) = surviving n i pos rs.
Proof.
  intros Hp Hrs. revert pos Hp. induction Hrs as [|r rs Hr _ IH]; intros pos Hp; [done|].
  destruct (record_fragments_spec pos r Hp Hr) as (Hc & Hf & Hne & He). cbn [log_fragments surviving].
  set (ps := record_fragments pos r) in *. set (e := pos + len (record_bytes pos r)) in *.
  pose proof (len_pos (record_bytes pos r)). pose proof (whole_end n pos ps Hc Hne) as Hw. rewrite He in Hw.
  destruct (whole_app n ps (log_fragments e rs)) as [[E1 E2]|[E1 E2]]; rewrite E2.
  - rewrite (proj2 (Z.leb_le _ _)) by (by apply Hw). rewrite <- IH by (unfold e; lia).
    destruct (Z.leb_spec i (pos + pad pos)) as [Hi|Hi].
    + apply (assemble_record i true ps r _ [] Hf). eapply Forall_impl; [by apply (chain_starts pos)|]. cbn. lia.
    + destruct ps as [|p ps]; [done|]. eapply assemble_skipped; [done|]. destruct Hc as (Es & _). lia.
  - rewrite (proj2 (Z.leb_gt _ _)) by (apply Z.nle_gt; by intros ?%Hw). by eapply assemble_partial.
Qed.

Lemma surviving_regular n i pos rs :
  0 ≤ pos → i ≤ pos → Forall (Forall byte) rs → regular i false (whole n (log_fragments pos rs)) = true.
Proof.
  intros Hp Hi Hrs. revert pos Hp Hi. induction Hrs as [|r rs Hr _ IH]; intros pos Hp Hi; [done|].
  destruct (record_fragments_spec pos r Hp Hr) as (Hc & Hf & Hne & He). cbn [log_fragments].
  assert (Forall (λ p, i ≤ start p) (record_fragments pos r)) as Hs.
  { eapply Forall_impl; [by apply (chain_starts pos)|]. cbn. pose proof (pad_range pos). lia. }
  pose proof (len_pos (record_bytes pos r)).
  destruct (whole_app n (record_fragments pos r) (log_fragments (pos + len (record_bytes pos r)) rs)) as [[E1 E2]|[E1 E2]]; rewrite E2.
  - rewrite (regular_record i true _ r) by done. apply IH; lia.
  - by apply (regular_partial i n true _ r).
Qed.

(** ** All records *)

Section reader.
Context {G : Type} `{SequentialFile G} `{!SequentialFileSpec G}.

(** [ReadRecords] behind the skip to the initial block. *)
Definition records_from (fuel : nat) (r : Reader G) : result (Reader G * list (list Z)) :=
  '(r, record) ← record_loop (S fuel) r [] false 0 [];
  match record with
  | None => Ok (r, [])
  | Some record => '(r, records) ← ReadRecords fuel r; Ok (r, record :: records)
  end.

Lemma ReadRecords_from fuel (r : Reader G) :
  initial_offset r ≤ last_record_offset r → ReadRecords (S fuel) r = records_from fuel r.
Proof. intros Hl. cbn [ReadRecords]. unfold ReadRecord at 1. by rewrite (proj2 (Z.ltb_ge _ _)). Qed.

Lemma records_from_spec fuel : ∀ ps (r : Reader G) pos T,
  let i := initial_offset r in
  reading r pos (tape pos ps ++ T) → chain pos ps → torn (end_pos pos ps) T → (length ps ≤ fuel)%nat →
  ∃ r', records_from fuel r = Ok (r', assemble i None ps) ∧
    (regular i false ps = true → resyncing r = false → reports r' = reports r).
Proof.
  induction fuel as [|fuel IH]; intros ps r pos T i Hr Hc HT Hn; unfold records_from;
    (destruct (record_loop_spec ps (S _) r pos T None 0 [] Hr Hc HT ltac:(apply le_n_S, Hn)) as (r1 & o & E & Hi & Hrep & Ho); [done|done|]);
    cbn [default is_open] in E, Hrep; fold i in Hrep, Ho, Hi; rewrite E; cbn [mbind result_bind];
    (destruct o as [d|]; [|exists r1; rewrite Ho; auto]);
    destruct Ho as (ps' & pos' & Ea & Hr1 & Hc1 & HT1 & Hlen & Hl1 & Hs1 & Hreg); [lia|].
  rewrite ReadRecords_from by (by rewrite Hi).
  destruct (IH ps' r1 pos' T Hr1 Hc1 HT1) as (r2 & E2 & Hrep2); [lia|].
  rewrite E2, Ea. rewrite Hi in *. exists r2. split; [done|]. intros H1 H2. rewrite Hrep2 by auto. auto.
Qed.

(** The block a reader with an initial offset starts in. *)
Definition first_block (i : Z) : Z :=
  let start := i - i mod kBlockSize in if kBlockSize - 6 <? i mod kBlockSize then start + kBlockSize else start.

Lemma first_block_spec i :
  0 ≤ i → first_block i mod kBlockSize = 0 ∧ 0 ≤ first_block i < i + kBlockSize ∧
  ∀ p, fragment_ok p → start p < first_block i → start p < i.
Proof.
  intros Hi. unfold first_block. split_and!.
  1-3: destruct (Z.ltb_spec (kBlockSize - 6) (i mod kBlockSize)); unfold kBlockSize in *; Z.to_euclidean_division_equations; lia.
  intros p (_ & _ & Hfit). pose proof (len_pos (pdata p)).
  destruct (Z.ltb_spec (kBlockSize - 6) (i mod kBlockSize)); unfold kBlockSize, kHeaderSize in *; Z.to_euclidean_division_equations; nia.
Qed.

Lemma chain_fragments pos ps : chain pos ps → Forall fragment_ok ps.
Proof. revert pos. induction ps as [|p ps IH]; intros pos; [by constructor|]. intros (_ & Hok & Hc). constructor; eauto. Qed.

Lemma SkipToInitialBlock_spec g rep c i b U :
  readable g → rest g = U → 0 ≤ i → i + kBlockSize ≤ room g → i + len U + 2 * kBlockSize < 2 ^ 63 →
  ∃ r, SkipToInitialBlock (make_reader g rep c i b) = (r, true) ∧ reading r (first_block i) (zdrop (first_block i) U) ∧
    initial_offset r = i ∧ reports r = [] ∧ resyncing r = (0 <? i).
Proof.
  intros Hg HU Hi Hroom Hsmall. destruct (first_block_spec i Hi) as (Hm & Hs & _). unfold SkipToInitialBlock.
  cbn [initial_offset make_reader]. pose proof (len_pos U) as HUl.
  assert ((if kBlockSize - 6 <? i mod kBlockSize then u64 (i - i mod kBlockSize + kBlockSize) else i - i mod kBlockSize) = first_block i) as ->.
  { revert Hs. unfold first_block. destruct (_ <? _); intros Hs; [|done]. apply wrap_small. split; unfold kBlockSize in *; lia. }
  assert (∀ f, readable f → rest f = zdrop (first_block i) U → ∀ r, file r = f → buffer r = [] → eof r = false →
    end_of_buffer_offset r = first_block i → reading r (first_block i) (zdrop (first_block i) U)) as Hread.
  { intros f Hf Ef r <- Eb Ee Eo. pose proof (Z.mod_pos_bound (first_block i) kBlockSize eq_refl).
    split; rewrite ?Eb, ?Ee, ?Eo; cbn [app]; change (len (@nil Z)) with 0; try (done || lia). rewrite len_zdrop; lia. }
  destruct (Z.ltb_spec 0 (first_block i)) as [H0|H0].
  - cbn [file set_end make_reader]. destruct (Skip_ok g (first_block i) Hg) as (f & -> & Ef & Hf); [lia|].
    eexists. split; [done|]. split; [|done]. apply (Hread f); [done|by rewrite Ef, HU|done..].
  - assert (first_block i = 0) as E0 by lia. eexists. split; [done|]. split; [|done].
    apply (Hread g); try done. by rewrite E0.
Qed.

Lemma log_reader g rep c i b rs n fuel :
  readable g → rest g = ztake n (log_bytes 0 rs) → Forall (Forall byte) rs →
  0 ≤ i → i + kBlockSize ≤ room g → i + len (rest g) + 2 * kBlockSize < 2 ^ 63 → (length (rest g) < fuel)%nat →
  ∃ r', ReadRecords fuel (make_reader g rep c i b) = Ok (r', surviving n i 0 rs) ∧ (i = 0 → reports r' = []).
Proof.
  intros Hg HU Hrs Hi Hroom Hsmall Hfuel. destruct (log_fragments_spec 0 rs) as [Hc Et]; [done..|].
  destruct (truncate_stream n 0 _ ltac:(done) Hc) as (T & E & Hcw & HT). rewrite Z.sub_0_r, Et, <- HU in E.
  destruct fuel as [|fuel]; [lia|].
  assert (length (whole n (log_fragments 0 rs)) ≤ fuel)%nat as Hw.
  { pose proof (length_tape _ _ Hcw). rewrite E, length_app in Hfuel. lia. }
  destruct (decide (i = 0)) as [->|Hi0].
  - rewrite ReadRecords_from by done. rewrite <- surviving_spec by done.
    destruct (records_from_spec fuel (whole n (log_fragments 0 rs)) (make_reader g rep c 0 b) 0 T) as (r' & E' & Hrep);
      [|done|done|lia|exists r'; split; [done|]; intros _; apply Hrep; [by apply surviving_regular|done]].
    rewrite <- E. split; try done. unfold kBlockSize in *. lia.
  - cbn [ReadRecords]. unfold ReadRecord at 1.
    cbn [last_record_offset initial_offset make_reader]. rewrite (proj2 (Z.ltb_lt _ _)) by lia.
    destruct (SkipToInitialBlock_spec g rep c i b (rest g)) as (r & -> & Hr & Ei & _ & _); [done..|lia|].
    destruct (first_block_spec i Hi) as (Hm & Hs & Hhid).
    destruct (drop_stream (first_block i) 0 _ T ltac:(lia) Hm Hcw HT) as (ps1 & ps2 & T' & Eps & Ed & Hc2 & HT2 & Hh).
    rewrite Z.sub_0_r, <- E in Ed. rewrite Ed in Hr. apply chain_fragments in Hcw. rewrite Eps, Forall_app in Hcw.
    assert (assemble i None ps2 = surviving n i 0 rs) as Ea.
    { rewrite <- surviving_spec, Eps by done. symmetry. apply assemble_hidden. apply Forall_forall. intros p Hp.
      apply Hhid; [|by apply (proj1 (Forall_forall _ _) Hh)]. by apply (proj1 (Forall_forall _ _) (proj1 Hcw)). }
    rewrite <- Ea, <- Ei. destruct (records_from_spec fuel ps2 r _ T' Hr Hc2 HT2) as (r' & E' & _);
      [|exists r'; split; [done|]; by rewrite Ei].
    rewrite Eps, length_app in Hw. lia.
Qed.

End reader.

(** ** The log as a whole *)

Lemma log_bytes_app pos rs qs :
  log_bytes pos (rs ++ qs) = log_bytes pos rs ++ log_bytes (pos + len (log_bytes pos rs)) qs.
Proof.
  revert pos. induction rs as [|r rs IH]; intros pos; cbn [app log_bytes]; [by rewrite Z.add_0_r|].
  rewrite IH, <- app_assoc. do 2 f_equal. rewrite len_app. f_equal. lia.
Qed.

Lemma surviving_app n i pos rs qs :
  0 ≤ pos → i ≤ pos → pos + len (log_bytes pos rs) ≤ n →
  surviving n i pos (rs ++ qs) = rs ++ surviving n i (pos + len (log_bytes pos rs)) qs.
Proof.
  revert pos. induction rs as [|r rs IH]; intros pos Hp Hi Hn; cbn [app log_bytes surviving]; [by rewrite Z.add_0_r|].
  cbn [log_bytes] in Hn. set (e := pos + len (record_bytes pos r)) in *. rewrite len_app in Hn |- *. fold e in Hn |- *.
  pose proof (len_pos (record_bytes pos r)). pose proof (len_pos (log_bytes e rs)). pose proof (pad_range pos).
  rewrite (proj2 (Z.leb_le e n)), (proj2 (Z.leb_le i (pos + pad pos))) by lia. cbn [app]. f_equal.
  rewrite IH by lia. do 2 f_equal. unfold e. lia.
Qed.

Section log.
Context {F : Type} `{WritableFile F} {capacity : Z} `{!WritableFileSpec F capacity}.
Context {G : Type} `{SequentialFile G} `{!SequentialFileSpec G}.

(** C18: a log survives the death of the process that writes it.  Whatever
    sequence of calls a client makes -- adding records, closing the file and
    opening it again -- the writer meets its assertions.  When all of them
    succeeded and the process dies in the middle of adding one more record, so
    that the file has what the earlier calls wrote and any part of what the last
    one did, the reader returns every record that had been added before, then
    possibly the last one, and reports no corruption.  The last record is there
    if its call returned success and all that it wrote is left. *)
Theorem log_recovery (f : F) t cs ptr record :
  kHeaderSize ≤ capacity → disk f = [] → buffered f = [] →
  Forall (Forall byte) (call_records cs) → Forall byte record →
  ∃ w ok, run_writer (make_writer f t) cs = Ok (w, ok) ∧
    (ok = true → ∃ w' ok', AddRecord w ptr record = Ok (w', ok') ∧ disk (dest w) `prefix_of` disk (dest w') ∧
      ∀ (g : G) checksum b fuel,
        disk (dest w) `prefix_of` rest g → rest g `prefix_of` disk (dest w') →
        readable g → kBlockSize ≤ room g → len (rest g) + 2 * kBlockSize < 2 ^ 63 → (length (rest g) < fuel)%nat →
        ∃ r records, ReadRecords fuel (make_reader g true checksum 0 b) = Ok (r, records) ∧ reports r = [] ∧
          (records = call_records cs ∨ records = call_records cs ++ [record]) ∧
          (ok' = true → rest g = disk (dest w') → records = call_records cs ++ [record])).
Proof.
  intros Hcap Hd Hb Hcs Hr.
  destruct (run_writer_spec (capacity:=capacity) Hcap (make_writer f t) cs) as (w & ok & E & _ & _ & Hok);
    [by apply make_writer_writing|done|].
  cbn [dest make_writer] in Hok. rewrite Hd in Hok. cbn [app] in Hok. change (len []) with 0 in Hok.
  exists w, ok. split; [done|]. intros [Ew Hw]%Hok. clear Hok E.
  destruct (AddRecord_spec (capacity:=capacity) Hcap w ptr record Hw Hr) as (w' & ok' & -> & P1 & P2 & P3).
  eexists _, _. split; [done|]. split; [done|]. intros g c b fuel G1 G2 Hg Hroom Hsmall Hfuel.
  assert (disk (dest w) ++ record_bytes (len (disk (dest w))) record = log_bytes 0 (call_records cs ++ [record])) as El.
  { rewrite log_bytes_app, <- Ew. cbn. by rewrite app_nil_r. }
  rewrite El in P2, P3. destruct (log_reader g true c 0 b (call_records cs ++ [record]) (len (rest g)) fuel) as (r & Er & Hrep); try done.
  { destruct (transitivity G2 P2) as [k ->]. symmetry. by apply ztake_app. }
  { by apply Forall_app_2; [|constructor]. }
  assert (len (disk (dest w)) ≤ len (rest g)) as Hle.
  { destruct G1 as [k ->]. rewrite len_app. pose proof (len_pos k). lia. }
  rewrite surviving_app, Z.add_0_l, <- Ew in Er by (rewrite <- ?Ew; lia).
  eexists _, _. split; [done|]. split; [by apply Hrep|]. cbn [surviving]. destruct (Z.leb_spec (len (disk (dest w)) + len (record_bytes (len (disk (dest w))) record)) (len (rest g))) as [H1|H1].
  - pose proof (pad_range (len (disk (dest w)))). pose proof (len_pos (disk (dest w))).
    rewrite (proj2 (Z.leb_le _ _)) by lia. cbn [app]. auto.
  - rewrite app_nil_r. split; [by left|]. intros Hok Eg. destruct (P3 Hok) as [E3 _].
    rewrite Eg, E3, <- El, len_app in H1. lia.
Qed.

(** C29: a reader can start anywhere.  On any prefix of a log that was written
    without errors, a reader with an initial offset ends, and returns exactly
    the records that start at or behind the offset and lie wholly in the prefix. *)
Theorem log_offsets (f : F) t cs w (g : G) reporter checksum i n b fuel :
  kHeaderSize ≤ capacity → disk f = [] → buffered f = [] → Forall (Forall byte) (call_records cs) →
  run_writer (make_writer f t) cs = Ok (w, true) →
  readable g → rest g = ztake n (disk (dest w)) →
  0 ≤ i → i + kBlockSize ≤ room g → i + len (rest g) + 2 * kBlockSize < 2 ^ 63 → (length (rest g) < fuel)%nat →
  ∃ r, ReadRecords fuel (make_reader g reporter checksum i b) = Ok (r, surviving n i 0 (call_records cs)).
Proof.
  intros Hcap Hd Hb Hcs Hrun Hg Hrest Hi Hroom Hsmall Hfuel.
  destruct (run_writer_spec (capacity:=capacity) Hcap (make_writer f t) cs) as (w1 & ok & E & _ & _ & Hok);
    [by apply make_writer_writing|done|].
  rewrite Hrun in E. injection E as <- <-. destruct (Hok eq_refl) as [Ew _].
  cbn [dest make_writer] in Ew. rewrite Hd in Ew. cbn [app] in Ew. change (len []) with 0 in Ew. rewrite Ew in Hrest.
  destruct (log_reader g reporter checksum i b (call_records cs) n fuel) as (r & Er & _); eauto.
Qed.

End log.

(** A disk on which one write is interrupted, some are short, and the last one
    fails in the middle of a header. *)
Definition failing_disk : PosixWritableFile.t :=
  PosixWritableFile.Mk [] [Interrupted; Partial 3; Partial 20; Partial 20; Partial 4; Failed] [].

Lemma log_recovery_witness :
  ∃ w w' r, run_writer (make_writer failing_disk 0) [Add 0 [1; 2; 3]; Reopen 0; Add 0 [4]] = Ok (w, true) ∧
    AddRecord w 0 [5; 6] = Ok (w', false) ∧ len (disk (dest w')) = 22 ∧
    ReadRecords 100 (make_reader (PosixSequentialFile.Mk (disk (dest w')) 0 [Interrupted]) true true 0 0) =
      Ok (r, [[1; 2; 3]; [4]]) ∧ reports r = [].
Proof.
  destruct (log_recovery (G:=PosixSequentialFile.t) failing_disk 0 [Add 0 [1; 2; 3]; Reopen 0; Add 0 [4]] 0 [5; 6])
    as (w & ok & E & H); [done|done|done|repeat constructor; done|repeat constructor; done|].
  pose proof E as E0. vm_compute in E. injection E as <- <-. destruct (H eq_refl) as (w' & ok' & E' & _ & R). clear H.
  pose proof E' as E1. vm_compute in E'. injection E' as <- <-.
  set (d := disk (dest _)) in R at 2.
  destruct (R (PosixSequentialFile.Mk d 0 [Interrupted]) true 0%nat 100%nat) as (r & l & Er & Hrep & _);
    [by eexists|done|by split; [|repeat constructor]|done|done|vm_compute; lia|].
  eexists _, _, r. split; [exact E0|]. split; [exact E1|]. split; [done|]. split; [|done].
  pose proof Er as E2. vm_compute in Er. injection Er as _ <-. exact E2.
Defined.

Definition empty_disk : PosixWritableFile.t := PosixWritableFile.Mk [] [] [].
Definition sample_calls : list call := [Add 0 [1; 2; 3]; Add 3 [4]; Add 4 [5; 6; 7]].
Definition sample_file : list Z :=
  match run_writer (make_writer empty_disk 0) sample_calls with Ok (w, _) => disk (dest w) | Err _ => [] end.

Lemma log_offsets_witness :
  ∃ w r, run_writer (make_writer empty_disk 0) sample_calls = Ok (w, true) ∧ disk (dest w) = sample_file ∧
    ReadRecords 100 (make_reader (PosixSequentialFile.Mk (ztake 25 sample_file) 0 []) true true 5 0) = Ok (r, [[4]]).
Proof.
  destruct (run_writer (make_writer empty_disk 0) sample_calls) as [[w ok]|] eqn:E; [|by vm_compute in E].
  assert (ok = true) as ->. { vm_compute in E. by injection E. }
  assert (disk (dest w) = sample_file) as Ed. { unfold sample_file. by rewrite E. }
  destruct (log_offsets (G:=PosixSequentialFile.t) empty_disk 0 sample_calls w
    (PosixSequentialFile.Mk (ztake 25 sample_file) 0 []) true true 5 25 0 100) as [r Er];
    [done|done|done|by repeat constructor|done|by split|by rewrite Ed|done|done|vm_compute; done|vm_compute; lia|].
  exists w, r. split; [done|]. split; [done|]. exact Er.
Defined.

(** A reader that starts behind the start of a record reports the rest of this
    record as a corruption, although nothing is missing: the first fragment,
    which it skips, ends the mode in which such rests are passed over. *)
Lemma log_offset_reports :
  ∃ w r, AddRecord (make_writer empty_disk 0) 0 (replicate (Z.to_nat 32800) 1) = Ok (w, true) ∧
    ReadRecords 100 (make_reader (PosixSequentialFile.Mk (disk (dest w)) 0 []) true true 1 0) = Ok (r, []) ∧
    reports r = [(39, Corruption "missing start of fragmented record(2)")].
Proof.
  set (run (x : result (Writer PosixWritableFile.t * bool)) := match x return option (bool * list (Z * reason) * list (list Z)) with
    | Ok (w, ok) => match ReadRecords 100 (make_reader (PosixSequentialFile.Mk (disk (dest w)) 0 []) true true 1 0) with
        | Ok (r, l) => Some (ok, reports r, l) | Err _ => None end
    | Err _ => None end).
  assert (run (AddRecord (make_writer empty_disk 0) 0 (replicate (Z.to_nat 32800) 1)) =
    Some (true, [(39, Corruption "missing start of fragmented record(2)")], [])) as E by (vm_compute; reflexivity).
  destruct (AddRecord _ _ _) as [[w ok]|]; [|done]. cbn [run] in E.
  destruct (ReadRecords _ _) as [[r l]|] eqn:Er in E; [|done]. injection E as -> Hr ->. by exists w, r.
Qed.
