(* ===== verification/LsmFormat.v ===== *)
(** * dLSM: keys and their order

    [dLSM/include/TimberSaw/comparator.h] as a class, its bytewise instance from
    [util/comparator.cc], and the internal keys of [db/dbformat.h] and
    [dbformat.cc]: a user key followed by eight bytes that pack a sequence number
    and a type, ordered by ascending user key and descending number. *)
From S2P Require Import Prelude KVConfig LsmCoding LsmFile.
Import Coding.

(** ** Slices *)

(** [Slice::compare]. *)
Definition slice_compare (a b : list Z) : Z :=
  let min_len := if (length a <? length b)%nat then length a else length b in
  let r := memcmp a b min_len in
  if r =? 0 then if (length a <? length b)%nat then -1 else if (length b <? length a)%nat then 1 else r else r.

(** ** Comparators *)

Class KeyComparator := {
  Compare : list Z → list Z → Z;
  FindShortestSeparator : list Z → list Z → result (list Z);
  FindShortSuccessor : list Z → result (list Z);
}.

(** What the comments of [Comparator] ask for, and that the separator of a key
    and itself is this key. *)
Class KeyComparatorSpec `{KeyComparator} : Prop := {
  Compare_eq a b : Compare a b = 0 ↔ a = b;
  Compare_sgn a b : Z.sgn (Compare a b) = - Z.sgn (Compare b a);
  Compare_trans a b c : Compare a b < 0 → Compare b c < 0 → Compare a c < 0;
  separator_between a b : Forall byte a → Forall byte b → Compare a b < 0 →
    ∃ s, FindShortestSeparator a b = Ok s ∧ Forall byte s ∧ Compare a s ≤ 0 ∧ Compare s b < 0;
  separator_same a : FindShortestSeparator a a = Ok a;
  successor_above a : Forall byte a → ∃ s, FindShortSuccessor a = Ok s ∧ Forall byte s ∧ Compare a s ≤ 0;
}.

Module Bytewise.

(** [while (diff_index < min_length && ...)]. *)
Fixpoint diff_index (start limit : list Z) : nat :=
  match start, limit with
  | x :: start, y :: limit => if x =? y then S (diff_index start limit) else O
  | _, _ => O
  end.

Definition FindShortestSeparator (start limit : list Z) : result (list Z) :=
  let min_length := (length start `min` length limit)%nat in
  let diff_index := diff_index start limit in
  if (min_length <=? diff_index)%nat then Ok start
  else
    diff_byte ← at_index start diff_index;
    limit_byte ← at_index limit diff_index;
    if (diff_byte <? 0xff) && (diff_byte + 1 <? limit_byte) then
      let start := take diff_index start ++ [u8 (diff_byte + 1)] in
      require (slice_compare start limit <? 0);; Ok start
    else Ok start.

(** The [for] loop: nothing for a run of 0xff. *)
Fixpoint successor (key : list Z) : option (list Z) :=
  match key with
  | [] => None
  | byte :: key => if negb (byte =? 0xff) then Some [u8 (byte + 1)] else cons byte <$> successor key
  end.

Definition FindShortSuccessor (key : list Z) : result (list Z) := Ok (default key (successor key)).

End Bytewise.

#[export] Instance BytewiseComparator : KeyComparator := {
  Compare := slice_compare;
  FindShortestSeparator := Bytewise.FindShortestSeparator;
  FindShortSuccessor := Bytewise.FindShortSuccessor;
}.

(** ** Internal keys *)

Module Format.

Inductive ValueType := kTypeDeletion | kTypeValue.

Definition type_num (t : ValueType) : Z := match t with kTypeDeletion => 0 | kTypeValue => 1 end.

Definition kValueTypeForSeek : ValueType := kTypeValue.

Definition kMaxSequenceNumber : Z := Z.shiftl 1 56 - 1.

Record ParsedInternalKey := MkParsed { user_key : list Z; sequence : Z; type : ValueType }.

Definition PackSequenceAndType (seq : Z) (t : ValueType) : result Z :=
  require (seq <=? kMaxSequenceNumber);; Ok (Z.lor (u64 (Z.shiftl seq 8)) (type_num t)).

Definition AppendInternalKey (dst : list Z) (key : ParsedInternalKey) : result (list Z) :=
  n ← PackSequenceAndType (sequence key) (type key); Ok (PutFixed64 (dst ++ user_key key) n).

(** [Slice(key.data(), key.size() - 8)]. *)
Definition ExtractUserKey (internal_key : list Z) : result (list Z) :=
  require (8 <=? length internal_key)%nat;; Ok (take (length internal_key - 8) internal_key).

(** [DecodeFixed64(key.data() + key.size() - 8)]. *)
Definition key_tag (internal_key : list Z) : result Z := DecodeFixed64 (drop (length internal_key - 8) internal_key).

Definition ParseInternalKey (internal_key : list Z) : result (option ParsedInternalKey) :=
  if (length internal_key <? 8)%nat then Ok None
  else
    num ← key_tag internal_key;
    let c := u8 (Z.land num 0xff) in
    let k := take (length internal_key - 8) internal_key in
    if c <=? type_num kTypeValue
    then Ok (Some (MkParsed k (Z.shiftr num 8) (if c =? 0 then kTypeDeletion else kTypeValue)))
    else Ok None.

Section comparator.
Context `{KeyComparator}.

(** [InternalKeyComparator::Compare]. *)
Definition InternalCompare (akey bkey : list Z) : result Z :=
  a ← ExtractUserKey akey;
  b ← ExtractUserKey bkey;
  let r := Compare a b in
  if r =? 0 then
    anum ← key_tag akey;
    bnum ← key_tag bkey;
    Ok (if bnum <? anum then -1 else if anum <? bnum then 1 else r)
  else Ok r.

(** [InternalKeyComparator::FindShortestSeparator]. *)
Definition InternalSeparator (start limit : list Z) : result (list Z) :=
  user_start ← ExtractUserKey start;
  user_limit ← ExtractUserKey limit;
  tmp ← FindShortestSeparator user_start user_limit;
  if (length tmp <? length user_start)%nat && (Compare user_start tmp <? 0) then
    n ← PackSequenceAndType kMaxSequenceNumber kValueTypeForSeek;
    let tmp := PutFixed64 tmp n in
    c1 ← InternalCompare start tmp;
    require (c1 <? 0);;
    c2 ← InternalCompare tmp limit;
    require (c2 <? 0);;
    Ok tmp
  else Ok start.

(** [InternalKeyComparator::FindShortSuccessor]. *)
Definition InternalSuccessor (key : list Z) : result (list Z) :=
  user_key ← ExtractUserKey key;
  tmp ← FindShortSuccessor user_key;
  if (length tmp <? length user_key)%nat && (Compare user_key tmp <? 0) then
    n ← PackSequenceAndType kMaxSequenceNumber kValueTypeForSeek;
    let tmp := PutFixed64 tmp n in
    c ← InternalCompare key tmp;
    require (c <? 0);;
    Ok tmp
  else Ok key.

End comparator.

(** ** Lookup keys *)

(** The bytes from [start_] to [end_] and how many of them are before [kstart_]. *)
Record LookupKey := MkLookup { lookup_bytes : list Z; kstart : nat }.

Definition make_lookup (user_key : list Z) (s : Z) : result LookupKey :=
  let usize := len user_key in
  let klength := EncodeVarint32 (u32 (usize + 8)) in
  n ← PackSequenceAndType s kValueTypeForSeek;
  Ok (MkLookup (klength ++ user_key ++ EncodeFixed64 n) (length klength)).

Definition memtable_key (k : LookupKey) : list Z := lookup_bytes k.
Definition internal_key (k : LookupKey) : list Z := drop (kstart k) (lookup_bytes k).
Definition lookup_user_key (k : LookupKey) : list Z :=
  take (length (lookup_bytes k) - kstart k - 8) (drop (kstart k) (lookup_bytes k)).

End Format.

(** ** The bytewise order *)

Lemma slice_compare_nil_l b : slice_compare [] b = match b with [] => 0 | _ => -1 end.
Proof. by destruct b. Qed.

Lemma slice_compare_nil_r a : slice_compare a [] = match a with [] => 0 | _ => 1 end.
Proof. by destruct a. Qed.

Lemma slice_compare_cons x y a b :
  slice_compare (x :: a) (y :: b) = if x =? y then slice_compare a b else x - y.
Proof.
  unfold slice_compare. cbn [length]. change (S (length a) <? S (length b))%nat with (length a <? length b)%nat.
  change (S (length b) <? S (length a))%nat with (length b <? length a)%nat.
  destruct (length a <? length b)%nat; cbn [memcmp]; destruct (Z.eqb_spec x y); try done;
    (destruct (Z.eqb_spec (x - y) 0); [lia|done]).
Qed.

Lemma slice_compare_eq a b : slice_compare a b = 0 ↔ a = b.
Proof.
  revert b. induction a as [|x a IH]; intros [|y b]; rewrite ?slice_compare_cons; try done.
  destruct (Z.eqb_spec x y) as [->|Hxy]; [|split; [lia|congruence]]. rewrite IH. split; congruence.
Qed.

Lemma slice_compare_sgn a b : Z.sgn (slice_compare a b) = - Z.sgn (slice_compare b a).
Proof.
  revert b. induction a as [|x a IH]; intros [|y b]; rewrite ?slice_compare_cons; try done.
  rewrite (Z.eqb_sym y x). destruct (Z.eqb_spec x y) as [->|Hxy]; [apply IH|lia].
Qed.

Lemma slice_compare_trans a b c : slice_compare a b < 0 → slice_compare b c < 0 → slice_compare a c < 0.
Proof.
  revert b c. induction a as [|x a IH]; intros [|y b] [|z c]; rewrite ?slice_compare_cons; try done.
  destruct (Z.eqb_spec x y), (Z.eqb_spec y z), (Z.eqb_spec x z); try lia. apply IH.
Qed.

(** A key cut behind its first difference from another, with the last byte raised. *)
Lemma raised_prefix p (a b : list Z) x y z :
  x < z → z < y → slice_compare (p ++ x :: a) (p ++ [z]) < 0 ∧ slice_compare (p ++ [z]) (p ++ y :: b) < 0.
Proof.
  intros Hx Hy. induction p as [|w p IH]; cbn [app]; rewrite !slice_compare_cons.
  - destruct (Z.eqb_spec x z), (Z.eqb_spec z y); lia.
  - by rewrite !Z.eqb_refl.
Qed.

Lemma diff_index_spec a b :
  (length a `min` length b ≤ Bytewise.diff_index a b)%nat ∨
  ∃ p x y a' b', a = p ++ x :: a' ∧ b = p ++ y :: b' ∧ x ≠ y ∧ length p = Bytewise.diff_index a b.
Proof.
  revert b. induction a as [|x a IH]; intros [|y b]; try (left; cbn; lia). cbn.
  destruct (Z.eqb_spec x y) as [->|Hxy]; [|right; by exists [], x, y, a, b].
  destruct (IH b) as [Hle|(p & x' & y' & a' & b' & -> & -> & Hne & Hp)]; [left; lia|right].
  exists (y :: p), x', y', a', b'. cbn. by rewrite Hp.
Qed.

Lemma bytewise_separator a b :
  Forall byte a → Forall byte b →
  ∃ s, Bytewise.FindShortestSeparator a b = Ok s ∧ Forall byte s ∧
    (s = a ∨ (slice_compare a s < 0 ∧ slice_compare s b < 0)).
Proof.
  intros Ha Hb. unfold Bytewise.FindShortestSeparator.
  destruct (diff_index_spec a b) as [Hle|(p & x & y & a' & b' & -> & -> & Hne & <-)].
  { rewrite (proj2 (Nat.leb_le _ _)) by done. eauto. }
  rewrite (proj2 (Nat.leb_gt _ _)) by (rewrite !length_app; cbn; lia).
  unfold at_index. rewrite !lookup_app_r, !Nat.sub_diag by lia. cbn [lookup list_lookup mbind result_bind].
  pose proof Ha as Ha0. apply Forall_app in Ha as [Hpb [Hx _]%Forall_cons]. destruct (_ && _) eqn:Hc; [|by eauto].
  apply andb_true_iff in Hc as [Hx1%Z.ltb_lt Hx2%Z.ltb_lt].
  rewrite take_app_length, (wrap_small 8) by (unfold byte, fits in *; lia).
  destruct (raised_prefix p a' b' x y (x + 1)) as [H1 H2]; [lia|lia|].
  rewrite (proj2 (Z.ltb_lt _ _)) by done. cbn. eexists. split; [done|].
  split; [|auto]. apply Forall_app_2; [done|]. constructor; [unfold byte, fits in *; lia|constructor].
Qed.

Lemma bytewise_successor a :
  Forall byte a → ∃ s, Bytewise.FindShortSuccessor a = Ok s ∧ Forall byte s ∧ slice_compare a s ≤ 0.
Proof.
  intros Ha. eexists. split; [done|].
  assert (∀ s, Bytewise.successor a = Some s → Forall byte s ∧ slice_compare a s < 0) as Hs.
  { induction Ha as [|x a Hx Ha IH]; [done|]. cbn. intros s. destruct (Z.eqb_spec x 0xff) as [->|Hne]; cbn.
    - destruct (Bytewise.successor a) as [s'|] eqn:E; [|done]. intros [= <-]. destruct (IH s' eq_refl).
      rewrite slice_compare_cons, Z.eqb_refl. split; [by constructor|done].
    - intros [= <-]. rewrite wrap_small by (unfold byte, fits in *; lia). rewrite slice_compare_cons.
      destruct (Z.eqb_spec x (x + 1)); [lia|]. split; [|lia]. constructor; [unfold byte, fits in *; lia|constructor]. }
  destruct (Bytewise.successor a) as [s|]; cbn; [destruct (Hs s eq_refl); split; [done|lia]|].
  split; [done|]. by rewrite (proj2 (slice_compare_eq a a)).
Qed.

#[export] Instance BytewiseComparator_spec : KeyComparatorSpec.
Proof.
  split.
  - apply slice_compare_eq.
  - apply slice_compare_sgn.
  - apply slice_compare_trans.
  - intros a b Ha Hb Hlt. cbn in *. destruct (bytewise_separator a b Ha Hb) as (s & -> & Hs & Hc). exists s.
    destruct Hc as [->|[H1 H2]]; split_and!; try (done || lia). by rewrite (proj2 (slice_compare_eq a a)).
  - intros a. cbn. unfold Bytewise.FindShortestSeparator.
    destruct (diff_index_spec a a) as [Hle|(p & x & y & a' & b' & E1 & E2 & Hne & _)].
    + by rewrite (proj2 (Nat.leb_le _ _)).
    + rewrite E1 in E2. apply app_inv_head in E2. congruence.
  - apply bytewise_successor.
Qed.

(** ** Internal keys *)

Import Format.

(** The internal key with a user key and a tag. *)
Definition internal (u : list Z) (n : Z) : list Z := u ++ EncodeFixed64 n.

Lemma length_internal u n : length (internal u n) = (length u + 8)%nat.
Proof. unfold internal, EncodeFixed64. by rewrite length_app, length_le_bytes. Qed.

Lemma ExtractUserKey_internal u n : ExtractUserKey (internal u n) = Ok u.
Proof.
  unfold ExtractUserKey. rewrite length_internal, (proj2 (Nat.leb_le _ _)) by lia. cbn [require mbind result_bind].
  f_equal. unfold internal. rewrite Nat.add_sub. apply take_app_length.
Qed.

Lemma key_tag_internal u n : fits 64 n → key_tag (internal u n) = Ok n.
Proof.
  intros Hn. unfold key_tag. rewrite length_internal, Nat.add_sub. unfold internal. rewrite drop_app_length.
  unfold EncodeFixed64. rewrite <- (app_nil_r (le_bytes 8 n)). by apply decode_fixed_encode.
Qed.

Lemma le_bytes_le_num l : Forall byte l → le_bytes (length l) (le_num l) = l.
Proof.
  induction 1 as [|x l Hx _ IH]; [done|]. cbn [length le_bytes le_num].
  assert (0 ≤ x < 256) as Hx' by (unfold byte, fits in Hx; lia). f_equal.
  - rewrite Z.mul_comm, Z.mod_add, Z.mod_small by lia. done.
  - rewrite Z.mul_comm, Z.div_add, (Z.div_small x), Z.add_0_l by lia. done.
Qed.

(** Every string of eight bytes or more is an internal key. *)
Lemma internal_form k :
  Forall byte k → (8 ≤ length k)%nat → ∃ u n, k = internal u n ∧ fits 64 n ∧ Forall byte u.
Proof.
  intros Hk Hl. set (t := drop (length k - 8) k).
  assert (length t = 8%nat) as Ht by (unfold t; rewrite length_drop; lia).
  assert (Forall byte t) as Hb by (by apply Forall_drop).
  exists (take (length k - 8) k), (le_num t). pose proof (le_num_range t Hb) as Hr. rewrite Ht in Hr.
  split; [|split; [done|by apply Forall_take]]. unfold internal, EncodeFixed64.
  rewrite <- (take_drop (length k - 8) k) at 1. f_equal. fold t. rewrite <- Ht. symmetry. by apply le_bytes_le_num.
Qed.

Lemma PackSequenceAndType_spec seq t :
  0 ≤ seq ≤ kMaxSequenceNumber → PackSequenceAndType seq t = Ok (seq * 256 + type_num t) ∧ fits 64 (seq * 256 + type_num t).
Proof.
  intros Hs. unfold PackSequenceAndType. rewrite (proj2 (Z.leb_le _ _)) by lia. cbn [require mbind result_bind].
  change kMaxSequenceNumber with (2 ^ 56 - 1) in Hs. rewrite Z.shiftl_mul_pow2 by lia.
  assert (0 ≤ type_num t < 2) by (by destruct t). split; [|split; lia].
  rewrite wrap_small by (split; lia). rewrite Z.lor_comm, <- Z.shiftl_mul_pow2, lor_shiftl by (split || idtac; lia). f_equal. lia.
Qed.

Section comparator.
Context `{KeyComparator} `{!KeyComparatorSpec}.

Lemma InternalCompare_internal a n b m :
  fits 64 n → fits 64 m →
  InternalCompare (internal a n) (internal b m) =
    Ok (if Compare a b =? 0 then if m <? n then -1 else if n <? m then 1 else 0 else Compare a b).
Proof.
  intros Hn Hm. unfold InternalCompare. rewrite !ExtractUserKey_internal, !key_tag_internal by done. cbn [mbind result_bind].
  destruct (Z.eqb_spec (Compare a b) 0) as [->|]; done.
Qed.

Lemma Compare_refl a : Compare a a = 0.
Proof. by apply Compare_eq. Qed.

Lemma Compare_ne a b : a ≠ b → Compare a b ≠ 0.
Proof. intros Hne ?%Compare_eq. done. Qed.

(** The earliest key behind a user key, with the number that
    [FindShortestSeparator] and [FindShortSuccessor] append. *)
Lemma seek_tag : PackSequenceAndType kMaxSequenceNumber kValueTypeForSeek = Ok (kMaxSequenceNumber * 256 + 1) ∧
  fits 64 (kMaxSequenceNumber * 256 + 1).
Proof. by apply (PackSequenceAndType_spec kMaxSequenceNumber kTypeValue). Qed.

Lemma internal_lt a n b m : fits 64 n → fits 64 m → Compare a b < 0 → ∃ c, InternalCompare (internal a n) (internal b m) = Ok c ∧ c < 0.
Proof.
  intros Hn Hm Hlt. rewrite InternalCompare_internal by done. destruct (Z.eqb_spec (Compare a b) 0); [lia|eauto].
Qed.

Lemma internal_refl a n : fits 64 n → InternalCompare (internal a n) (internal a n) = Ok 0.
Proof. intros Hn. rewrite InternalCompare_internal, Compare_refl by done. by rewrite Z.ltb_irrefl. Qed.

(** C30: the shortened keys of index entries lie where they should.  For internal
    keys with [a] before [b], the separator is at or behind [a], before [b] and
    not longer than [a]; the successor of a key is at or behind it.  The
    assertions in both routines hold, for every user comparator that keeps its
    contract. *)
Theorem internal_separator a b c :
  Forall byte a → Forall byte b → InternalCompare a b = Ok c → c < 0 →
  (∃ s c1 c2, InternalSeparator a b = Ok s ∧ (length s ≤ length a)%nat ∧
    InternalCompare a s = Ok c1 ∧ c1 ≤ 0 ∧ InternalCompare s b = Ok c2 ∧ c2 < 0) ∧
  (∃ s c1, InternalSuccessor a = Ok s ∧ InternalCompare a s = Ok c1 ∧ c1 ≤ 0).
Proof.
  intros Ha Hb E Hc. destruct (seek_tag) as [Et Ht].
  assert (8 ≤ length a ∧ 8 ≤ length b)%nat as [Hla Hlb].
  { unfold InternalCompare, ExtractUserKey in E. destruct (Nat.leb_spec 8 (length a)), (Nat.leb_spec 8 (length b)); done. }
  destruct (internal_form a Ha Hla) as (u & n & -> & Hn & Hu). destruct (internal_form b Hb Hlb) as (v & m & -> & Hm & Hv).
  split.
  - unfold InternalSeparator. rewrite !ExtractUserKey_internal. cbn [mbind result_bind].
    assert (∃ s, FindShortestSeparator u v = Ok s ∧ (Compare u s < 0 → Compare s v < 0)) as (s & Es & Hs).
    { rewrite InternalCompare_internal in E by done. destruct (Z.eqb_spec (Compare u v) 0) as [->%Compare_eq|Hne].
      - exists v. rewrite separator_same. by rewrite Compare_refl.
      - injection E as E. destruct (separator_between u v Hu Hv) as (s & E1 & _ & _ & E2); [lia|]. eauto. }
    rewrite Es. cbn [mbind result_bind]. destruct (_ && _) eqn:Hsh.
    + apply andb_true_iff in Hsh as [H1%Nat.ltb_lt H2%Z.ltb_lt]. rewrite Et. cbn [mbind result_bind].
      change (PutFixed64 s (kMaxSequenceNumber * 256 + 1)) with (internal s (kMaxSequenceNumber * 256 + 1)).
      destruct (internal_lt u n s _ Hn Ht H2) as (c1 & E1 & H3). destruct (internal_lt s _ v m Ht Hm (Hs H2)) as (c2 & E2 & H4).
      rewrite E1. cbn [mbind result_bind]. rewrite (proj2 (Z.ltb_lt _ _)) by done. cbn [require mbind result_bind].
      rewrite E2. cbn [mbind result_bind]. rewrite (proj2 (Z.ltb_lt _ _)) by done. cbn [require mbind result_bind].
      exists (internal s (kMaxSequenceNumber * 256 + 1)), c1, c2. rewrite !length_internal. split_and!; (done || lia).
    + exists (internal u n), 0, c. rewrite internal_refl by done. by split_and!.
  - unfold InternalSuccessor. rewrite ExtractUserKey_internal. cbn [mbind result_bind].
    destruct (successor_above u Hu) as (s & Es & _ & _). rewrite Es. cbn [mbind result_bind]. destruct (_ && _) eqn:Hsh.
    + apply andb_true_iff in Hsh as [H1%Nat.ltb_lt H2%Z.ltb_lt]. rewrite Et. cbn [mbind result_bind].
      change (PutFixed64 s (kMaxSequenceNumber * 256 + 1)) with (internal s (kMaxSequenceNumber * 256 + 1)).
      destruct (internal_lt u n s _ Hn Ht H2) as (c1 & E1 & H3). rewrite E1. cbn [mbind result_bind].
      rewrite (proj2 (Z.ltb_lt _ _)) by done. eexists _, c1. split_and!; (done || lia).
    + exists (internal u n), 0. by rewrite internal_refl.
Qed.

End comparator.

Lemma internal_separator_witness :
  let a := internal [97; 98; 99; 100] 257 in let b := internal [97; 100] 513 in
  InternalCompare a b = Ok (-2) ∧
  InternalSeparator a b = Ok (internal [97; 99] (kMaxSequenceNumber * 256 + 1)) ∧
  ((∃ s c1 c2, InternalSeparator a b = Ok s ∧ (length s ≤ length a)%nat ∧
    InternalCompare a s = Ok c1 ∧ c1 ≤ 0 ∧ InternalCompare s b = Ok c2 ∧ c2 < 0) ∧
  (∃ s c1, InternalSuccessor a = Ok s ∧ InternalCompare a s = Ok c1 ∧ c1 ≤ 0)).
Proof.
  intros a b. split; [reflexivity|]. split; [reflexivity|].
  apply (internal_separator a b (-2)); [by repeat constructor|by repeat constructor|reflexivity|lia].
Defined.
