(* ===== verification/LsmBatch.v ===== *)
(** * dLSM: write batches

    [dLSM/include/TimberSaw/write_batch.h], [db/write_batch.cc] and
    [write_batch_internal.h].  A batch is the string [rep_]: a sequence number, a
    count, and the updates one behind the other. *)
From stdpp Require Import strings.
From S2P Require Import Prelude LsmCoding LsmFile LsmFormat.
Import Coding Format.

Module WriteBatch.

Definition kHeader : nat := 12.

(** [Status]. *)
Inductive Status := StatusOK | Corruption (what : string).

(** [WriteBatch::Handler]: what the two calls do to its state. *)
Class Handler (S : Type) := {
  HandlePut : S → list Z → list Z → result S;
  HandleDelete : S → list Z → result S;
}.

Definition Clear : list Z := replicate kHeader 0.

Definition ApproximateSize (rep : list Z) : Z := len rep.

(** The [int] in the header. *)
Definition Count (rep : list Z) : result Z := n ← DecodeFixed32 (drop 8 rep); Ok (int32 n).

Definition SetCount (rep : list Z) (n : Z) : list Z := take 8 rep ++ EncodeFixed32 (u32 n) ++ drop 12 rep.

Definition Sequence (rep : list Z) : result Z := DecodeFixed64 rep.

Definition SetSequence (rep : list Z) (seq : Z) : list Z := EncodeFixed64 seq ++ drop 8 rep.

Definition Put (rep key value : list Z) : result (list Z) :=
  n ← Count rep;
  let rep := SetCount rep (n + 1) ++ [type_num kTypeValue] in
  Ok (PutLengthPrefixedSlice (PutLengthPrefixedSlice rep key) value).

Definition Delete (rep key : list Z) : result (list Z) :=
  n ← Count rep;
  let rep := SetCount rep (n + 1) ++ [type_num kTypeDeletion] in
  Ok (PutLengthPrefixedSlice rep key).

(** [WriteBatchInternal::Append]. *)
Definition Append (dst src : list Z) : result (list Z) :=
  n ← Count dst;
  m ← Count src;
  let dst := SetCount dst (n + m) in
  require (kHeader <=? length src)%nat;;
  Ok (dst ++ drop kHeader src).

Definition Contents (rep : list Z) : list Z := rep.

Definition SetContents (contents : list Z) : result (list Z) :=
  require (kHeader <=? length contents)%nat;; Ok contents.

(** [ParseFirst]: the slice has the size of the whole string, so the bytes
    [beyond] its end belong to it. *)
Definition ParseFirst (rep beyond : list Z) : list Z :=
  match GetLengthPrefixedSlice (take (length rep) (drop (1 + kHeader) rep ++ beyond)) with
  | Some (output, _) => output
  | None => []
  end.

Section iterate.
Context {S : Type} `{Handler S}.

(** [while (!input.empty())]: a status that ends the call, or the number of
    updates; each takes a byte. *)
Fixpoint iterate_loop (fuel : nat) (input : list Z) (found : Z) (s : S) : result (S * (Status + Z)) :=
  match fuel, input with
  | _, [] => Ok (s, inr found)
  | O, _ => Err OutOfFuel
  | Datatypes.S fuel, tag :: input =>
      let found := found + 1 in
      if tag =? type_num kTypeValue then
        match GetLengthPrefixedSlice input with
        | Some (key, input) =>
            match GetLengthPrefixedSlice input with
            | Some (value, input) => s ← HandlePut s key value; iterate_loop fuel input found s
            | None => Ok (s, inl (Corruption "bad WriteBatch Put"))
            end
        | None => Ok (s, inl (Corruption "bad WriteBatch Put"))
        end
      else if tag =? type_num kTypeDeletion then
        match GetLengthPrefixedSlice input with
        | Some (key, input) => s ← HandleDelete s key; iterate_loop fuel input found s
        | None => Ok (s, inl (Corruption "bad WriteBatch Delete"))
        end
      else Ok (s, inl (Corruption "unknown WriteBatch tag"))
  end.

Definition Iterate (rep : list Z) (s : S) : result (S * Status) :=
  if (length rep <? kHeader)%nat then Ok (s, Corruption "malformed WriteBatch (too small)")
  else
    '(s, r) ← iterate_loop (length rep) (drop kHeader rep) 0 s;
    match r with
    | inl status => Ok (s, status)
    | inr found => n ← Count rep; Ok (s, if found =? n then StatusOK else Corruption "WriteBatch has wrong count")
    end.

End iterate.

End WriteBatch.
Import WriteBatch.

(** ** A batch as a list of updates *)

Inductive update := UPut (key value : list Z) | UDelete (key : list Z).

Definition encode_update (u : update) : list Z :=
  match u with
  | UPut key value => type_num kTypeValue :: PutLengthPrefixedSlice (PutLengthPrefixedSlice [] key) value
  | UDelete key => type_num kTypeDeletion :: PutLengthPrefixedSlice [] key
  end.

(** The lengths fit in 32 bits. *)
Definition short_update (u : update) : Prop :=
  match u with UPut key value => fits 32 (len key) ∧ fits 32 (len value) | UDelete key => fits 32 (len key) end.

Definition batch_bytes (seq : Z) (us : list update) : list Z :=
  EncodeFixed64 seq ++ EncodeFixed32 (len us) ++ concat (encode_update <$> us).

(** The calls that build a batch. *)
Definition add_update (rep : list Z) (u : update) : result (list Z) :=
  match u with UPut key value => Put rep key value | UDelete key => Delete rep key end.

Fixpoint build (rep : list Z) (us : list update) : result (list Z) :=
  match us with [] => Ok rep | u :: us => rep ← add_update rep u; build rep us end.

(** The calls an iteration makes. *)
Section replay.
Context {S : Type} `{Handler S}.

Definition replay_one (s : S) (u : update) : result S :=
  match u with UPut key value => HandlePut s key value | UDelete key => HandleDelete s key end.

Fixpoint replay (s : S) (us : list update) : result S :=
  match us with [] => Ok s | u :: us => s ← replay_one s u; replay s us end.

End replay.

Lemma drop_le_bytes n x l : drop n (le_bytes n x ++ l) = l.
Proof. apply drop_app_length'. by rewrite length_le_bytes. Qed.

Lemma take_le_bytes n x l : take n (le_bytes n x ++ l) = le_bytes n x.
Proof. apply take_app_length'. by rewrite length_le_bytes. Qed.

Lemma Count_batch seq us : len us < 2 ^ 31 → Count (batch_bytes seq us) = Ok (len us).
Proof.
  intros Hn. pose proof (len_pos us). unfold Count, batch_bytes, EncodeFixed64. rewrite drop_le_bytes.
  unfold EncodeFixed32, DecodeFixed32. rewrite decode_fixed_encode by (split; lia). cbn. f_equal. apply int32_small. lia.
Qed.

Lemma SetCount_batch seq us n : SetCount (batch_bytes seq us) n = EncodeFixed64 seq ++ EncodeFixed32 (u32 n) ++ concat (encode_update <$> us).
Proof.
  unfold SetCount, batch_bytes, EncodeFixed64, EncodeFixed32. by rewrite take_le_bytes.
Qed.

Lemma add_update_batch seq us u :
  len us + 1 < 2 ^ 31 → add_update (batch_bytes seq us) u = Ok (batch_bytes seq (us ++ [u])).
Proof.
  intros Hn. pose proof (len_pos us).
  assert (batch_bytes seq (us ++ [u]) = (EncodeFixed64 seq ++ EncodeFixed32 (u32 (len us + 1)) ++ concat (encode_update <$> us)) ++ encode_update u) as ->.
  { unfold batch_bytes. rewrite fmap_app, concat_app, len_app, wrap_small by (split; lia).
    cbn [fmap list_fmap concat]. by rewrite app_nil_r, <- !app_assoc. }
  destruct u; cbn [add_update]; unfold Put, Delete; rewrite Count_batch by lia; cbn [mbind result_bind];
    rewrite SetCount_batch; unfold encode_update, PutLengthPrefixedSlice, PutVarint32; by rewrite <- !app_assoc.
Qed.

Lemma build_batch seq us vs :
  len us + len vs < 2 ^ 31 → build (batch_bytes seq us) vs = Ok (batch_bytes seq (us ++ vs)).
Proof.
  revert us. induction vs as [|v vs IH]; intros us Hn; [by rewrite app_nil_r|]. cbn [build]. rewrite len_cons in Hn.
  pose proof (len_pos vs). rewrite add_update_batch by lia. cbn [mbind result_bind].
  rewrite IH by (rewrite len_app, len_cons, len_nil; lia). by rewrite <- app_assoc.
Qed.

Lemma iterate_updates {S} `{Handler S} us fuel found (s : S) :
  Forall short_update us → (length us ≤ fuel)%nat →
  iterate_loop fuel (concat (encode_update <$> us)) found s = (s ← replay s us; Ok (s, inr (found + len us))).
Proof.
  intros Hus. revert fuel found s. induction Hus as [|u us Hu Hus IH]; intros fuel found s Hf.
  { cbn. rewrite len_nil, Z.add_0_r. by destruct fuel. }
  destruct fuel as [|fuel]; [cbn in Hf; lia|]. cbn [fmap list_fmap concat replay].
  assert (∀ s', iterate_loop fuel (concat (encode_update <$> us)) (found + 1) s' = (s ← replay s' us; Ok (s, inr (found + len (u :: us))))) as E.
  { intros s'. rewrite IH by (cbn in Hf; lia). rewrite len_cons, <- Z.add_assoc, (Z.add_comm 1). done. }
  destruct u as [k v|k]; cbn [encode_update app iterate_loop].
  - destruct Hu as [Hk Hv]. unfold fits, len in Hk, Hv.
    assert (PutLengthPrefixedSlice (PutLengthPrefixedSlice [] k) v = PutLengthPrefixedSlice [] k ++ PutLengthPrefixedSlice [] v) as ->
      by (unfold PutLengthPrefixedSlice, PutVarint32; by rewrite <- !app_assoc).
    rewrite Z.eqb_refl, <- app_assoc, GetLengthPrefixed_Put by lia. rewrite GetLengthPrefixed_Put by lia.
    cbn [replay_one]. destruct (HandlePut s k v); [apply E|done].
  - unfold short_update, fits, len in Hu. change (type_num kTypeDeletion =? type_num kTypeValue) with false.
    rewrite Z.eqb_refl, GetLengthPrefixed_Put by lia. cbn [replay_one]. destruct (HandleDelete s k); [apply E|done].
Qed.

Lemma Iterate_batch {S} `{Handler S} seq us (s : S) :
  Forall short_update us → len us < 2 ^ 31 → Iterate (batch_bytes seq us) s = (s ← replay s us; Ok (s, StatusOK)).
Proof.
  intros Hus Hn. unfold Iterate. rewrite Count_batch by done.
  assert (length (batch_bytes seq us) = 12 + length (concat (encode_update <$> us)))%nat as El.
  { unfold batch_bytes, EncodeFixed64, EncodeFixed32. rewrite !length_app, !length_le_bytes. lia. }
  rewrite (proj2 (Nat.ltb_ge _ _)) by (unfold kHeader; lia).
  assert (drop kHeader (batch_bytes seq us) = concat (encode_update <$> us)) as -> by done.
  rewrite iterate_updates; [|done|].
  2:{ rewrite El. enough (length us ≤ length (concat (encode_update <$> us)))%nat by lia.
      clear. induction us as [|u us IH]; cbn; [lia|]. rewrite length_app. destruct u; cbn; lia. }
  destruct (replay s us); [|done]. cbn [mbind result_bind]. by rewrite Z.add_0_l, Z.eqb_refl.
Qed.

Lemma SetSequence_batch seq us seq' : SetSequence (batch_bytes seq us) seq' = batch_bytes seq' us.
Proof. done. Qed.

Lemma Append_batch seq seq' us vs :
  len us + len vs < 2 ^ 31 → Append (batch_bytes seq us) (batch_bytes seq' vs) = Ok (batch_bytes seq (us ++ vs)).
Proof.
  intros Hn. pose proof (len_pos us). pose proof (len_pos vs). unfold Append. rewrite !Count_batch by lia. cbn [mbind result_bind].
  rewrite SetCount_batch, (proj2 (Nat.leb_le _ _)) by (unfold batch_bytes, EncodeFixed64, EncodeFixed32, kHeader; rewrite !length_app, !length_le_bytes; lia).
  cbn [require mbind result_bind]. assert (drop kHeader (batch_bytes seq' vs) = concat (encode_update <$> vs)) as -> by done.
  unfold batch_bytes. rewrite fmap_app, concat_app, len_app, wrap_small by (split; lia). by rewrite <- !app_assoc.
Qed.

Definition first_key (us : list update) : option (list Z) :=
  match us with UPut k _ :: _ | UDelete k :: _ => Some k | [] => None end.

Lemma ParseFirst_batch seq us k beyond :
  Forall short_update us → first_key us = Some k → ParseFirst (batch_bytes seq us) beyond = k.
Proof.
  intros Hus Hk.
  assert (∃ X, drop (1 + kHeader) (batch_bytes seq us) = PutLengthPrefixedSlice [] k ++ X ∧ Z.of_nat (length k) < 2 ^ 32) as (X & E & Hl).
  { destruct us as [|[k' v|k'] us]; [done|..]; injection Hk as ->; apply Forall_cons in Hus as [Hu _]; unfold short_update, fits, len in Hu.
    - exists (PutLengthPrefixedSlice [] v ++ concat (encode_update <$> us)). split; [|lia]. unfold batch_bytes. cbn [fmap list_fmap concat encode_update].
      change (1 + kHeader)%nat with (8 + (4 + 1))%nat. unfold EncodeFixed64, EncodeFixed32.
      rewrite <- !drop_drop, !drop_le_bytes. cbn [drop app]. unfold PutLengthPrefixedSlice, PutVarint32. by rewrite <- !app_assoc.
    - exists (concat (encode_update <$> us)). split; [done|lia]. }
  unfold ParseFirst. rewrite E, <- app_assoc, take_app_ge.
  - by rewrite GetLengthPrefixed_Put.
  - apply (f_equal length) in E. rewrite length_drop, length_app in E. lia.
Qed.

(** C31: a write batch holds its updates.  Building two batches with puts and
    deletes and appending one to the other gives a batch whose header has the
    right count and sequence number, whose first key is the first one put or
    deleted, and whose iteration makes exactly the calls that were recorded, in
    order, and reports no corruption. *)
Theorem write_batch_roundtrip us vs seq :
  Forall short_update (us ++ vs) → len us + len vs < 2 ^ 31 → fits 64 seq →
  ∃ b1 b2 b, build Clear us = Ok b1 ∧ build Clear vs = Ok b2 ∧ Append b1 b2 = Ok b ∧
    let rep := SetSequence b seq in
    Sequence rep = Ok seq ∧ Count rep = Ok (len us + len vs) ∧
    (∀ k beyond, first_key (us ++ vs) = Some k → ParseFirst rep beyond = k) ∧
    ∀ S (h : Handler S) (s : S), Iterate rep s = (s ← replay s (us ++ vs); Ok (s, StatusOK)).
Proof.
  intros Hus Hn Hseq. pose proof (len_pos us). pose proof (len_pos vs).
  exists (batch_bytes 0 us), (batch_bytes 0 vs), (batch_bytes 0 (us ++ vs)).
  split; [apply (build_batch 0 [] us); rewrite len_nil; lia|]. split; [apply (build_batch 0 [] vs); rewrite len_nil; lia|].
  split; [by apply Append_batch|]. rewrite SetSequence_batch. split; [|split; [|split]].
  - unfold Sequence, batch_bytes, EncodeFixed64. by apply decode_fixed_encode.
  - rewrite <- len_app. apply Count_batch. by rewrite len_app.
  - intros k beyond Hk. by apply ParseFirst_batch.
  - intros S h s. apply Iterate_batch; [done|by rewrite len_app].
Qed.

(** A handler that writes the calls down. *)
#[export] Instance recorder : Handler (list update) := {
  HandlePut s k v := Ok (s ++ [UPut k v]);
  HandleDelete s k := Ok (s ++ [UDelete k]);
}.

Lemma write_batch_roundtrip_witness :
  ∃ b1 b2 b, build Clear [UPut [1] [2; 3]] = Ok b1 ∧ build Clear [UDelete [1]; UPut [] []] = Ok b2 ∧ Append b1 b2 = Ok b ∧
    Iterate (SetSequence b 100) [] = Ok ([UPut [1] [2; 3]; UDelete [1]; UPut [] []], StatusOK).
Proof.
  destruct (write_batch_roundtrip [UPut [1] [2; 3]] [UDelete [1]; UPut [] []] 100) as (b1 & b2 & b & E1 & E2 & E & _ & _ & _ & HI);
    [by repeat constructor|done|done|].
  exists b1, b2, b. split; [done|]. split; [done|]. split; [done|]. exact (HI _ recorder []).
Defined.
