(* ===== verification/LsmMemTable.v ===== *)
(** * dLSM: the memtable

    [dLSM/db/memtable.h] and [memtable.cc]: a table of versions of keys, kept in
    an inline skip list of encoded entries.  [dLSM/db/inlineskiplist.h] is the
    skip list that [InlineSkipList] models, with further assertions.  An entry is
    its bytes; the model of a table is for keys of at most [n] bytes, for any
    [n], so that the order of the entries embeds in the integers. *)
From S2P Require Import Prelude KVConfig LsmCoding LsmFile LsmFormat LsmBatch RandomGen InlineSkipList SkipListShape SkipListThreads.
Import Coding Format InlineSkipList.

(** [GetLengthPrefixedSlice] of a pointer: the slice there, and the bytes
    behind it. *)
Definition GetLengthPrefixedPtr (data : list Z) : list Z * list Z :=
  match GetVarint32Ptr (take 5 data) with
  | Some (len, rest) =>
      let p := drop (length (take 5 data) - length rest) data in (ztake len p, zdrop len p)
  | None => ([], data)
  end.

(** ** The order of entries *)

(** The position of a key of at most [n] bytes among all of them. *)
Fixpoint lexrank (n : nat) (l : list Z) : Z :=
  match n, l with
  | S n, x :: l => (x + 1) * 257 ^ Z.of_nat n + lexrank n l
  | _, _ => 0
  end.

Lemma lexrank_range n l : Forall byte l → 0 ≤ lexrank n l < 257 ^ Z.of_nat n.
Proof.
  intros Hl. revert n. induction Hl as [|x l Hx _ IH]; intros [|n]; cbn [lexrank]; try (split; [done|]; apply Z.pow_pos_nonneg; lia).
  specialize (IH n). rewrite Nat2Z.inj_succ, Z.pow_succ_r by lia. unfold byte, fits in Hx. nia.
Qed.

Lemma lexrank_compare n a b :
  Forall byte a → Forall byte b → (length a ≤ n)%nat → (length b ≤ n)%nat →
  Z.sgn (slice_compare a b) = Z.sgn (lexrank n a - lexrank n b).
Proof.
  intros Ha. revert n b. induction Ha as [|x a Hx Ha IH]; intros n b Hb Hla Hlb; destruct Hb as [|y b Hy Hb];
    (destruct n as [|n]; [cbn in Hla, Hlb; (done || lia)|]); cbn [lexrank]; try done.
  - pose proof (lexrank_range n b Hb). unfold byte, fits in Hy. rewrite slice_compare_nil_l. nia.
  - pose proof (lexrank_range n a Ha). unfold byte, fits in Hx. rewrite slice_compare_nil_r. nia.
  - rewrite slice_compare_cons. cbn in Hla, Hlb. pose proof (lexrank_range n a Ha). pose proof (lexrank_range n b Hb).
    destruct (Z.eqb_spec x y) as [->|Hne]; [rewrite (IH n b) by (done || lia); f_equal; lia|]. nia.
Qed.

Module MemTable.

(** The internal key of an entry. *)
Definition decode_key (entry : list Z) : list Z := (GetLengthPrefixedPtr entry).1.

(** [KeyComparator::operator()]. *)
Definition compare_entries (a b : list Z) : result Z := InternalCompare (decode_key a) (decode_key b).

Section table.
Context (n : nat).

(** Entries with an internal key of bytes that is not too long. *)
Definition entry_ok (b : list Z) : bool :=
  let k := decode_key b in
  (8 <=? length k)%nat && (length k <=? n + 8)%nat && forallb (λ x, (0 <=? x) && (x <? 256)) k.

Definition entry : Type := { b : list Z | entry_ok b = true }.

Definition mk_entry (b : list Z) : result entry :=
  match entry_ok b as ok return entry_ok b = ok → result entry with
  | true => λ H, Ok (exist _ b H)
  | false => λ _, Err OutOfBounds
  end eq_refl.

Definition entry_tag (b : list Z) : Z := le_num (drop (length (decode_key b) - 8) (decode_key b)).
Definition entry_user_key (b : list Z) : list Z := take (length (decode_key b) - 8) (decode_key b).

(** Ascending user keys, then descending tags. *)
Definition entry_rank (b : list Z) : Z := lexrank n (entry_user_key b) * 2 ^ 64 + (2 ^ 64 - 1 - entry_tag b).

End table.

Lemma entry_ok_internal n b :
  entry_ok n b = true → ∃ u t, decode_key b = internal u t ∧ Forall byte u ∧ (length u ≤ n)%nat ∧ fits 64 t ∧
    entry_user_key b = u ∧ entry_tag b = t.
Proof.
  unfold entry_ok. intros [[H1%Nat.leb_le H2%Nat.leb_le]%andb_true_iff H3]%andb_true_iff.
  assert (Forall byte (decode_key b)) as Hb.
  { apply Is_true_true_2, forallb_True in H3. eapply Forall_impl; [exact H3|]. intros x Hx.
    apply Is_true_true_1, andb_true_iff in Hx as [?%Z.leb_le ?%Z.ltb_lt]. by split. }
  destruct (internal_form (decode_key b) Hb H1) as (u & t & E & Ht & Hu). exists u, t.
  pose proof (length_internal u t) as Hl. rewrite <- E in Hl. split_and!; try done; [lia| |].
  - unfold entry_user_key. rewrite Hl, Nat.add_sub, E. apply take_app_length.
  - unfold entry_tag. rewrite Hl, Nat.add_sub, E. unfold internal, EncodeFixed64. rewrite drop_app_length.
    by apply (le_num_le_bytes 8).
Qed.

Lemma compare_entries_rank n a b :
  entry_ok n a = true → entry_ok n b = true →
  ∃ c, compare_entries a b = Ok c ∧ Z.sgn c = Z.sgn (entry_rank n a - entry_rank n b).
Proof.
  intros Ha Hb. destruct (entry_ok_internal n a Ha) as (u & x & Ea & Hu & Hlu & Hx & Eu & Ex).
  destruct (entry_ok_internal n b Hb) as (v & y & Eb & Hv & Hlv & Hy & Ev & Ey).
  unfold compare_entries, entry_rank. rewrite Ea, Eb, Eu, Ev, Ex, Ey, InternalCompare_internal by done. eexists. split; [done|].
  cbn [Compare BytewiseComparator]. pose proof (lexrank_compare n u v Hu Hv Hlu Hlv) as Hc. unfold fits in Hx, Hy.
  destruct (Z.eqb_spec (slice_compare u v) 0) as [->%slice_compare_eq|Hne].
  - destruct (Z.ltb_spec y x), (Z.ltb_spec x y); lia.
  - rewrite Hc. nia.
Qed.

(** The comparator of the skip list; it fails only on strings that are not entries. *)
#[export] Instance EntryComparator n : Comparator (entry n).
Proof.
  refine {| compare a b := match compare_entries (`a) (`b) with Ok c => c | Err _ => 0 end; rank a := entry_rank n (`a) |}.
  intros [a Ha] [b Hb]. cbn. by destruct (compare_entries_rank n a b Ha Hb) as (c & -> & E).
Defined.

(** ** The table *)

Inductive FlushStateEnum := FLUSH_NOT_REQUESTED | FLUSH_REQUESTED | FLUSH_PROCESSING | FLUSH_FINISHED.

#[export] Instance FlushStateEnum_eq_dec : EqDecision FlushStateEnum.
Proof. solve_decision. Defined.

Definition MEMTABLE_SEQ_SIZE : Z := 1005640.

(** A lookup finds a value, or a deletion, or no version of the key. *)
Inductive answer := Value (v : list Z) | NotFound.

Section memtable.
Context (n : nat).

(** [first_seq] and [largest_seq_supposed] are not initialised by the
    constructor. *)
Record memtable := Mk {
  table : t (K:=entry n);
  flush_state : FlushStateEnum;
  seq_count : Z;
  able_to_flush : bool;
  full_table_flush : bool;
  refs_ : Z;
  first_seq : option Z;
  largest_seq_supposed : option Z
}.

Definition make_memtable : result memtable :=
  t ← make 12 4; Ok (Mk t FLUSH_NOT_REQUESTED 0 false true 0 None None).

Definition set_table (m : memtable) t : memtable :=
  Mk t (flush_state m) (seq_count m) (able_to_flush m) (full_table_flush m) (refs_ m) (first_seq m) (largest_seq_supposed m).

Definition Ref (m : memtable) : memtable :=
  Mk (table m) (flush_state m) (seq_count m) (able_to_flush m) (full_table_flush m) (int32 (refs_ m + 1)) (first_seq m)
    (largest_seq_supposed m).

Definition NotFullTableflush (m : memtable) : memtable :=
  Mk (table m) (flush_state m) (seq_count m) (able_to_flush m) false (refs_ m) (first_seq m) (largest_seq_supposed m).

(** The table, or nothing where it has been deleted. *)
Definition Unref (m : memtable) : result (option memtable) :=
  let m := Mk (table m) (flush_state m) (seq_count m) (able_to_flush m) (full_table_flush m) (int32 (refs_ m - 1)) (first_seq m)
    (largest_seq_supposed m) in
  require (0 <=? refs_ m);;
  if refs_ m <=? 0 then
    require (negb (full_table_flush m) || (seq_count m =? MEMTABLE_SEQ_SIZE));;
    Ok None
  else Ok (Some m).

Definition SetFirstSeq (m : memtable) (seq : Z) : memtable :=
  Mk (table m) (flush_state m) (seq_count m) (able_to_flush m) (full_table_flush m) (refs_ m) (Some (int64 seq)) (largest_seq_supposed m).

Definition SetLargestSeq (m : memtable) (seq : Z) : memtable :=
  Mk (table m) (flush_state m) (seq_count m) (able_to_flush m) (full_table_flush m) (refs_ m) (first_seq m) (Some (int64 seq)).

(** Nothing can be said of a value that was not initialised. *)
Definition initialised (x : option Z) : result Z := match x with Some x => Ok x | None => Err OutOfBounds end.

Definition GetFirstseq (m : memtable) : result Z := x ← initialised (first_seq m); Ok (u64 x).
Definition Getlargest_seq_supposed (m : memtable) : result Z := x ← initialised (largest_seq_supposed m); Ok (u64 x).
Definition Getlargest_seq (m : memtable) : result Z :=
  x ← initialised (largest_seq_supposed m); Ok (u64 (x - MEMTABLE_SEQ_SIZE + seq_count m)).

Definition CheckFlushInProcess (m : memtable) : bool := bool_decide (flush_state m = FLUSH_PROCESSING).
Definition CheckFlush_Requested (m : memtable) : bool := bool_decide (flush_state m = FLUSH_REQUESTED).
Definition CheckFlushFinished (m : memtable) : bool := bool_decide (flush_state m = FLUSH_FINISHED).

Definition SetFlushState (m : memtable) (state : FlushStateEnum) : memtable :=
  Mk (table m) state (seq_count m) (able_to_flush m) (full_table_flush m) (refs_ m) (first_seq m) (largest_seq_supposed m).

Definition MarkFlushed (m : memtable) : result memtable :=
  require (bool_decide (flush_state m = FLUSH_PROCESSING));; Ok (SetFlushState m FLUSH_FINISHED).

(** [increase_seq_count] in the three accesses of the count: the addition, the
    assertion, and the comparison, behind which the flag is set. *)
Definition add_seq_count (m : memtable) (num : Z) : result memtable :=
  require (num =? 1);;
  Ok (Mk (table m) (flush_state m) (u64 (seq_count m + num)) (able_to_flush m) (full_table_flush m) (refs_ m) (first_seq m)
    (largest_seq_supposed m)).

Definition check_seq_count (m : memtable) : result unit := require (seq_count m <=? MEMTABLE_SEQ_SIZE).

Definition store_able (m : memtable) : memtable :=
  if MEMTABLE_SEQ_SIZE <=? seq_count m then
    Mk (table m) (flush_state m) (seq_count m) true (full_table_flush m) (refs_ m) (first_seq m) (largest_seq_supposed m)
  else m.

Definition Get_seq_count (m : memtable) : Z := seq_count m.

(** The bytes [Add] writes. *)
Definition encode_entry (s : Z) (type : ValueType) (key value : list Z) : result (list Z) :=
  let internal_key_size := len key + 8 in
  let val_size := len value in
  let encoded_len := VarintLength internal_key_size + internal_key_size + VarintLength val_size + val_size in
  let buf := EncodeVarint32 (u32 internal_key_size) ++ key ++ EncodeFixed64 (Z.lor (u64 (Z.shiftl s 8)) (type_num type)) ++
    EncodeVarint32 (u32 val_size) ++ value in
  require (len buf =? encoded_len);; Ok buf.

(** [Add], with the height that [RandomHeight] draws for the node. *)
Definition Add (m : memtable) (fuel height : nat) (s : Z) (type : ValueType) (key value : list Z) : result memtable :=
  buf ← encode_entry s type key value;
  k ← mk_entry n buf;
  '(x, t) ← AllocateKey (table m) None height k;
  '(_, t) ← InsertConcurrently t fuel x k;
  Ok (set_table m t).

Definition Get (m : memtable) (fuel : nat) (key : LookupKey) : result (option answer) :=
  k ← mk_entry n (memtable_key key);
  iter ← Seek (table m) fuel k;
  if Valid iter then
    e ← Iterator_key (table m) iter;
    let entry := `e in
    let '(internal, value) := GetLengthPrefixedPtr entry in
    let key_length := len internal in
    if Compare (ztake (key_length - 8) internal) (lookup_user_key key) =? 0 then
      tag ← DecodeFixed64 (zdrop (key_length - 8) internal);
      let c := Z.land tag 0xff in
      if c =? type_num kTypeValue then Ok (Some (Value (GetLengthPrefixedPtr value).1))
      else if c =? type_num kTypeDeletion then Ok (Some NotFound) else Ok None
    else Ok None
  else Ok None.

(** [MemTableIterator]. *)
Definition EncodeKey (target : list Z) : list Z := PutVarint32 [] (u32 (len target)) ++ target.
Definition iterator_seek (m : memtable) (fuel : nat) (k : list Z) : result ptr :=
  e ← mk_entry n (EncodeKey k); Seek (table m) fuel e.
Definition iterator_key (m : memtable) (iter : ptr) : result (list Z) :=
  e ← Iterator_key (table m) iter; Ok (GetLengthPrefixedPtr (`e)).1.
Definition iterator_value (m : memtable) (iter : ptr) : result (list Z) :=
  e ← Iterator_key (table m) iter; Ok (GetLengthPrefixedPtr (GetLengthPrefixedPtr (`e)).2).1.

End memtable.

End MemTable.
Import MemTable.

(** ** Versions *)

Lemma int64_small x : - 2 ^ 63 ≤ x < 2 ^ 63 → int64 x = x.
Proof. intros. unfold int64. rewrite Z.mod_small; lia. Qed.

(** A version of a key: what a call of [Add] records. *)
Record version := MkVersion { v_seq : Z; v_type : ValueType; v_key : list Z; v_value : list Z }.

Definition v_tag (v : version) : Z := v_seq v * 256 + type_num (v_type v).

Definition version_bytes (v : version) : list Z :=
  EncodeVarint32 (len (v_key v) + 8) ++ internal (v_key v) (v_tag v) ++ EncodeVarint32 (len (v_value v)) ++ v_value v.

Record version_ok (n : nat) (v : version) : Prop := {
  ok_seq : 0 ≤ v_seq v ≤ kMaxSequenceNumber;
  ok_key : Forall byte (v_key v);
  ok_short : (length (v_key v) ≤ n)%nat;
  ok_key_len : len (v_key v) + 8 < 2 ^ 32;
  ok_value_len : len (v_value v) < 2 ^ 32;
}.

Lemma length_septets_more n m v : 0 ≤ v < 128 ^ Z.of_nat (S n) → (n ≤ m)%nat → septets m v = septets n v.
Proof.
  revert m v. induction n as [|n IH]; intros m v Hv Hm.
  { destruct m; cbn; [done|]. by rewrite (proj2 (Z.ltb_lt _ _)) by (cbn in Hv; lia). }
  destruct m as [|m]; [lia|]. cbn [septets]. destruct (v <? 128); [done|]. f_equal. apply IH; [|lia].
  rewrite (Nat2Z.inj_succ (S n)), Z.pow_succ_r in Hv by lia. split; [apply Z.div_pos; lia|apply Z.div_lt_upper_bound; lia].
Qed.

Lemma len_EncodeVarint32 v : fits 32 v → len (EncodeVarint32 v) = VarintLength v.
Proof.
  intros Hv. assert (fits 64 v) as Hv' by (unfold fits in *; lia).
  rewrite VarintLength_spec, EncodeVarint64_septets, EncodeVarint32_septets by done. unfold len. f_equal. f_equal.
  symmetry. apply length_septets_more; [|lia]. unfold fits in Hv. cbn. lia.
Qed.

Lemma GetLengthPrefixedPtr_put k rest :
  len k < 2 ^ 32 → GetLengthPrefixedPtr (EncodeVarint32 (len k) ++ k ++ rest) = (k, rest).
Proof.
  intros Hk. assert (fits 32 (len k)) as Hf by (pose proof (len_pos k); by split).
  destruct (EncodeVarint32_bytes (len k) Hf) as [_ Hl]. unfold GetLengthPrefixedPtr.
  rewrite take_app_ge by lia.
  pose proof (GetVarint32_Encode (len k) (take (5 - length (EncodeVarint32 (len k))) (k ++ rest)) Hf) as E. unfold GetVarint32 in E.
  rewrite E, length_app, Nat.add_sub, drop_app_length. f_equal; [by apply ztake_app|by apply zdrop_app].
Qed.

Lemma v_tag_fits n v : version_ok n v → fits 64 (v_tag v).
Proof.
  intros [[H0 H1] _ _ _ _]. change kMaxSequenceNumber with (2 ^ 56 - 1) in H1. unfold v_tag, fits.
  assert (0 ≤ type_num (v_type v) < 2) by (by destruct (v_type v)). lia.
Qed.

Lemma decode_key_version n v : version_ok n v → decode_key (version_bytes v) = internal (v_key v) (v_tag v).
Proof.
  intros Hv. unfold decode_key, version_bytes.
  assert (len (v_key v) + 8 = len (internal (v_key v) (v_tag v))) as -> by (unfold len; rewrite length_internal; lia).
  rewrite GetLengthPrefixedPtr_put; [done|]. pose proof (ok_key_len _ _ Hv). unfold len in *. rewrite length_internal. lia.
Qed.

Lemma encode_entry_version n v :
  version_ok n v → encode_entry (v_seq v) (v_type v) (v_key v) (v_value v) = Ok (version_bytes v).
Proof.
  intros Hv. destruct Hv as [Hs Hk Hn Hkl Hvl]. pose proof (len_pos (v_key v)). pose proof (len_pos (v_value v)).
  unfold encode_entry. rewrite !(wrap_small 32) by (split; lia).
  assert (Z.lor (u64 (Z.shiftl (v_seq v) 8)) (type_num (v_type v)) = v_tag v) as ->.
  { destruct (PackSequenceAndType_spec (v_seq v) (v_type v) Hs) as [E _]. unfold PackSequenceAndType in E.
    rewrite (proj2 (Z.leb_le _ _)) in E by lia. by injection E. }
  unfold version_bytes, internal. rewrite <- (app_assoc (v_key v)).
  assert (len (EncodeFixed64 (v_tag v)) = 8) as H8 by (unfold len, EncodeFixed64; by rewrite length_le_bytes).
  rewrite !len_app, !len_EncodeVarint32, H8 by (split; lia).
  by rewrite (proj2 (Z.eqb_eq _ _)) by lia.
Qed.

Lemma entry_ok_bytes n u t b :
  decode_key b = internal u t → Forall byte u → (length u ≤ n)%nat → entry_ok n b = true.
Proof.
  intros E Hu Hl. unfold entry_ok. rewrite E, length_internal. rewrite !(proj2 (Nat.leb_le _ _)) by lia. cbn [andb].
  apply Is_true_true_1, forallb_True. unfold internal. apply Forall_app_2; eapply Forall_impl; [exact Hu| |apply le_bytes_byte|];
    intros x [H1 H2]; cbn in H2; apply Is_true_true_2, andb_true_iff; (split; [by apply Z.leb_le|by apply Z.ltb_lt]).
Qed.

Lemma mk_entry_ok n b : entry_ok n b = true → ∃ e, mk_entry n b = Ok e ∧ `e = b.
Proof.
  intros H. unfold mk_entry.
  enough (∀ ok (E : entry_ok n b = ok), ok = true → ∃ e, (match ok as ok return entry_ok n b = ok → result (entry n) with
    | true => λ H, Ok (exist _ b H) | false => λ _, Err OutOfBounds end) E = Ok e ∧ `e = b) as HH by (by apply HH).
  intros [] E ?; [|done]. by eexists.
Qed.

Lemma version_entry n v : version_ok n v → ∃ e, mk_entry n (version_bytes v) = Ok e ∧ `e = version_bytes v.
Proof. intros Hv. apply mk_entry_ok. eapply entry_ok_bytes; [by eapply decode_key_version| |]; apply Hv. Qed.

Lemma entry_rank_bytes n u t b :
  decode_key b = internal u t → fits 64 t → entry_rank n b = lexrank n u * 2 ^ 64 + (2 ^ 64 - 1 - t).
Proof.
  intros E Ht. unfold entry_rank, entry_user_key, entry_tag. rewrite E, length_internal, Nat.add_sub. unfold internal.
  rewrite take_app_length, drop_app_length. unfold EncodeFixed64. by rewrite (le_num_le_bytes 8).
Qed.

(** ** What the table holds *)

Lemma sorted_seek_spec `{!Comparator K} (l : list K) k :
  ascending rank l →
  match sorted_seek l k with
  | Some y => y ∈ l ∧ rank k ≤ rank y ∧ ∀ z, z ∈ l → rank k ≤ rank z → rank y ≤ rank z
  | None => ∀ z, z ∈ l → rank z < rank k
  end.
Proof.
  unfold sorted_seek. induction 1 as [|x l Hl IH Hx]; [intros z Hz; by apply not_elem_of_nil in Hz|].
  cbn [first_index]. pose proof (compare_lt x k) as Hlt. rewrite Forall_forall in Hx.
  destruct (Z.leb_spec 0 (compare x k)) as [Hc|Hc].
  - rewrite (proj2 (Z.ltb_ge _ _)) in Hlt by lia. symmetry in Hlt. apply Z.ltb_ge in Hlt. cbn. split; [by left|]. split; [done|].
    intros z [->|Hz]%elem_of_cons _; [done|]. specialize (Hx z Hz). lia.
  - rewrite (proj2 (Z.ltb_lt _ _)) in Hlt by lia. symmetry in Hlt. apply Z.ltb_lt in Hlt.
    destruct (first_index _ l) as [j|]; cbn in *.
    + destruct (l !! j) as [y|]; cbn in *.
      * destruct IH as (Hy & Hky & Hmin). split; [by right|]. split; [done|].
        intros z [->|Hz]%elem_of_cons ?; [lia|by apply Hmin].
      * intros z [->|Hz]%elem_of_cons; [done|by apply IH].
    + intros z [->|Hz]%elem_of_cons; [done|by apply IH].
Qed.

Section rel.
Context (n : nat).

Record mem_rel (m : memtable n) (vs : list version) : Prop := {
  mr_shape : ∃ L, shape (table n m) L;
  mr_height : kMaxHeight_ (table n m) = 12%nat;
  mr_contents : proj1_sig <$> contents (table n m) ≡ₚ version_bytes <$> vs;
  mr_ok : Forall (version_ok n) vs;
}.

(** No version has the key and the sequence number of [v]. *)
Definition fresh (vs : list version) (v : version) : Prop :=
  ∀ w, w ∈ vs → v_key w = v_key v → v_seq w ≠ v_seq v.

Definition rank_v (v : version) : Z := entry_rank n (version_bytes v).

Lemma rank_v_eq v : version_ok n v → rank_v v = lexrank n (v_key v) * 2 ^ 64 + (2 ^ 64 - 1 - v_tag v).
Proof. intros Hv. apply entry_rank_bytes; [by eapply decode_key_version|by eapply v_tag_fits]. Qed.

Lemma lexrank_inj u v :
  Forall byte u → Forall byte v → (length u ≤ n)%nat → (length v ≤ n)%nat → lexrank n u = lexrank n v → u = v.
Proof.
  intros Hu Hv Hlu Hlv E. apply slice_compare_eq. pose proof (lexrank_compare n u v Hu Hv Hlu Hlv). lia.
Qed.

Lemma rank_v_inj v w : version_ok n v → version_ok n w → rank_v v = rank_v w → v_key v = v_key w ∧ v_seq v = v_seq w.
Proof.
  intros Hv Hw. rewrite !rank_v_eq by done. intros E. pose proof (v_tag_fits n v Hv) as Tv. pose proof (v_tag_fits n w Hw) as Tw.
  unfold fits in Tv, Tw. assert (v_tag v = v_tag w) as Et by lia. split.
  - apply lexrank_inj; try apply Hv; try apply Hw. lia.
  - unfold v_tag in Et. destruct (v_type v), (v_type w); cbn in Et; lia.
Qed.

Lemma contents_version m vs e :
  mem_rel m vs → e ∈ contents (table n m) → ∃ v, v ∈ vs ∧ `e = version_bytes v.
Proof.
  intros Hm He. assert (`e ∈ proj1_sig <$> contents (table n m)) as H by (apply list_elem_of_fmap; eauto).
  rewrite (mr_contents _ _ Hm) in H. apply list_elem_of_fmap in H as (v & -> & ?). eauto.
Qed.

Lemma length_table m vs : mem_rel m vs → length (contents (table n m)) = length vs.
Proof.
  intros Hm. pose proof (Permutation_length (mr_contents _ _ Hm)) as H. by rewrite !length_fmap in H.
Qed.

Lemma version_contents m vs v :
  mem_rel m vs → v ∈ vs → ∃ e, e ∈ contents (table n m) ∧ `e = version_bytes v.
Proof.
  intros Hm Hv. assert (version_bytes v ∈ version_bytes <$> vs) as H by (apply list_elem_of_fmap; eauto).
  rewrite <- (mr_contents _ _ Hm) in H. apply list_elem_of_fmap in H as (e & -> & ?). eauto.
Qed.

(** Inserting a key of a new rank adds it and nothing else. *)
Lemma sorted_insert_new (l : list (entry n)) k :
  (∀ y, y ∈ l → rank y ≠ rank k) → ∃ l', sorted_insert l k = (true, l') ∧ l' ≡ₚ k :: l.
Proof.
  induction l as [|z l IH]; intros Hl; [by eexists|]. cbn [sorted_insert]. rewrite compare_lt, compare_eq.
  pose proof (Hl z (list_elem_of_here _ _)). destruct (Z.ltb_spec (rank z) (rank k)).
  - destruct IH as (l' & -> & Hp); [intros y Hy; apply Hl; by right|]. eexists. split; [done|]. rewrite Hp. apply perm_swap.
  - rewrite (proj2 (Z.eqb_neq _ _)) by lia. by eexists.
Qed.

Lemma make_memtable_rel : ∃ m, make_memtable n = Ok m ∧ mem_rel m [].
Proof.
  destruct (make (K:=entry n) 12 4) as [s|] eqn:E; [|done]. unfold make_memtable. rewrite E. eexists. split; [done|].
  destruct (make_ok 12 4 s 0 E ltac:(by vm_compute)) as [Hs Ha]. injection Ha as Hc. cbn in Hc. split; cbn [table set_table].
  - eexists. apply Hs.
  - by injection E as <-.
  - by rewrite Hc.
  - constructor.
Qed.

Lemma Add_rel m vs v fuel h :
  mem_rel m vs → version_ok n v → fresh vs v → (1 ≤ h ≤ 12)%nat → (29 + length vs < fuel)%nat →
  ∃ t, Add n m fuel h (v_seq v) (v_type v) (v_key v) (v_value v) = Ok (set_table n m t) ∧ mem_rel (set_table n m t) (v :: vs).
Proof.
  intros Hm Hv Hnew Hh Hf. destruct (version_entry n v Hv) as (e & Ee & He). pose proof (mr_shape _ _ Hm) as [L Hs].
  unfold Add. rewrite (encode_entry_version n v Hv). cbn [mbind result_bind]. rewrite Ee. cbn [mbind result_bind].
  pose proof (mr_height _ _ Hm) as Hmax0. pose proof (sh_bound _ _ Hs).
  destruct (idle_step (MkChoice (CallInsert e) h 1 true) (table n m) L None Hs) as (th & s1 & E & Hok);
    [split; cbn; lia|by split|]. cbn [step c_call c_height] in E.
  apply bind_Ok in E as ([y s1'] & Ea & [= <- <-]). rewrite Ea. cbn [mbind result_bind].
  destruct Hok as (L1 & o & Hs1 & Hth1 & Hev & _ & _ & Hc).
  assert (contents s1' = contents (table n m)) as Hc1 by (destruct Hc as [[-> _]|Hc]; [done|]; inversion Hc; subst; congruence).
  pose proof (ev_max _ _ _ _ _ Hev) as Hmax. pose proof (length_table m vs Hm) as Hlen.
  destruct (InsertConcurrently_spec s1' L1 y e fuel Hs1 Hth1) as (b & s2 & L2 & -> & Hs2 & _ & Hins & Hmax2);
    [rewrite Hmax, Hmax0, Hc1; lia|].
  cbn [mbind result_bind]. eexists. split; [done|]. rewrite Hc1 in Hins.
  destruct (sorted_insert_new (contents (table n m)) e) as (l' & El & Hp).
  { intros x Hx Er. destruct (contents_version m vs x Hm Hx) as (w & Hw & Exw). cbn in Er. rewrite Exw, He in Er.
    destruct (rank_v_inj w v) as [Hk Hq]; [by eapply Forall_forall; [apply (mr_ok _ _ Hm)|]|done|done|]. by apply (Hnew w). }
  rewrite El in Hins. injection Hins as <- ->. split; cbn [table set_table].
  - by exists L2.
  - congruence.
  - rewrite Hp, !fmap_cons, He. by rewrite (mr_contents _ _ Hm).
  - constructor; [done|apply (mr_ok _ _ Hm)].
Qed.

(** ** Lookups *)

Lemma Seek_rel m vs k fuel :
  mem_rel m vs → (12 + length vs ≤ fuel)%nat →
  match sorted_seek (contents (table n m)) k with
  | Some e => ∃ p, Seek (table n m) fuel k = Ok (Some p) ∧ Iterator_key (table n m) (Some p) = Ok e
  | None => Seek (table n m) fuel k = Ok None
  end.
Proof.
  intros Hm Hf. destruct (mr_shape _ _ Hm) as [L Hs]. pose proof (sh_bound _ _ Hs). pose proof (mr_height _ _ Hm).
  pose proof (length_table m vs Hm) as Hlen. rewrite (length_contents _ L Hs) in Hlen.
  rewrite (sorted_seek_contents _ L k Hs). unfold Seek. rewrite (FindGreaterOrEqual_spec _ L Hs) by lia.
  unfold first_ge. destruct (first_index _ _) as [j|]; [|done]. cbn [mbind option_bind].
  destruct (L 0%nat !! j) as [p|] eqn:Ej; [|done]. cbn [mbind option_bind].
  destruct (sh_keys _ _ Hs p (list_elem_of_lookup_2 _ _ _ Ej)) as [e He]. rewrite He. exists p. split; [done|].
  cbn. by rewrite (proj2 (Key_of _ p e) He).
Qed.

End rel.

(** The newest version of a key with a sequence number of at most [s]. *)
Fixpoint newest (k : list Z) (s : Z) (vs : list version) : option version :=
  match vs with
  | [] => None
  | v :: vs =>
      if bool_decide (v_key v = k) && (v_seq v <=? s) then
        match newest k s vs with
        | Some w => if v_seq v <? v_seq w then Some w else Some v
        | None => Some v
        end
      else newest k s vs
  end.

Definition answer_of (v : version) : answer :=
  match v_type v with kTypeValue => Value (v_value v) | kTypeDeletion => NotFound end.

Definition stamp (v : version) : list Z * Z := (v_key v, v_seq v).

(** No two versions of the list have the same key and sequence number. *)
Definition distinct (vs : list version) : Prop := NoDup (stamp <$> vs).

Lemma distinct_cons v vs : distinct (v :: vs) ↔ fresh vs v ∧ distinct vs.
Proof.
  unfold distinct, fresh. rewrite fmap_cons, NoDup_cons. split; intros [H Hd]; (split; [|done]).
  - intros w Hw Hk Hs. apply H, list_elem_of_fmap. exists w. split; [|done]. unfold stamp. by rewrite Hk, Hs.
  - intros (w & [= Hk Hs] & Hw)%list_elem_of_fmap. by apply (H w).
Qed.

Lemma mem_rel_perm n m vs ws : vs ≡ₚ ws → mem_rel n m vs → mem_rel n m ws.
Proof. intros Hp [H1 H2 H3 H4]. split; [done|done|by rewrite H3, Hp|by rewrite <- Hp]. Qed.

Definition visible (k : list Z) (s : Z) (v : version) : Prop := v_key v = k ∧ v_seq v ≤ s.

Lemma newest_spec k s vs :
  match newest k s vs with
  | Some v => v ∈ vs ∧ visible k s v ∧ ∀ w, w ∈ vs → visible k s w → v_seq w ≤ v_seq v
  | None => ∀ w, w ∈ vs → ~ visible k s w
  end.
Proof.
  induction vs as [|v vs IH]; [intros w Hw; by apply not_elem_of_nil in Hw|]. cbn [newest].
  destruct (bool_decide (v_key v = k) && (v_seq v <=? s)) eqn:E.
  - apply andb_true_iff in E as [Ek%bool_decide_eq_true Es%Z.leb_le].
    destruct (newest k s vs) as [w|]; [destruct (Z.ltb_spec (v_seq v) (v_seq w))|].
    + destruct IH as (? & ? & Hmax). split; [by right|]. split; [done|].
      intros x [->|Hx]%elem_of_cons Hv; [lia|by apply Hmax].
    + destruct IH as (? & ? & Hmax). split; [by left|]. split; [done|].
      intros x [->|Hx]%elem_of_cons Hv; [lia|]. specialize (Hmax x Hx Hv). lia.
    + split; [by left|]. split; [done|]. intros x [->|Hx]%elem_of_cons Hv; [lia|by destruct (IH x)].
  - assert (~ visible k s v) as Hv.
    { intros [Hk Hq]. rewrite bool_decide_eq_true_2, (proj2 (Z.leb_le _ _)) in E by done. done. }
    destruct (newest k s vs) as [w|].
    + destruct IH as (? & ? & Hmax). split; [by right|]. split; [done|]. intros x [->|Hx]%elem_of_cons ?; [done|by apply Hmax].
    + intros x [->|Hx]%elem_of_cons; [done|by apply IH].
Qed.

Lemma distinct_eq vs v w : distinct vs → v ∈ vs → w ∈ vs → v_key v = v_key w → v_seq v = v_seq w → v = w.
Proof.
  induction vs as [|x vs IH]; [intros _ Hv; by apply not_elem_of_nil in Hv|]. intros [Hf Hd]%distinct_cons Hv Hw Hk Hs.
  apply elem_of_cons in Hv as [->|Hv], Hw as [->|Hw]; try done.
  - by destruct (Hf w Hw).
  - by destruct (Hf v Hv).
  - by apply IH.
Qed.

Lemma newest_eq k s vs v :
  distinct vs → v ∈ vs → visible k s v → (∀ w, w ∈ vs → visible k s w → v_seq w ≤ v_seq v) → newest k s vs = Some v.
Proof.
  intros Hd Hv Hvis Hmax. pose proof (newest_spec k s vs) as H. destruct (newest k s vs) as [w|]; [|by destruct (H v)].
  destruct H as (Hw & Hwv & Hm). f_equal. apply (distinct_eq vs); try done.
  - by destruct Hwv as [-> _], Hvis as [-> _].
  - specialize (Hm v Hv Hvis). specialize (Hmax w Hw Hwv). lia.
Qed.

Lemma newest_none k s vs : (∀ w, w ∈ vs → ~ visible k s w) → newest k s vs = None.
Proof.
  intros Hn. pose proof (newest_spec k s vs) as H. destruct (newest k s vs) as [w|]; [|done]. by destruct (Hn w); apply H.
Qed.

(** Lists of which the first has the newer versions of every key. *)
Definition not_older (A B : list version) : Prop := ∀ v w, v ∈ A → w ∈ B → v_key v = v_key w → v_seq w ≤ v_seq v.

Lemma newest_app k s A B :
  not_older A B → newest k s (A ++ B) = match newest k s A with Some v => Some v | None => newest k s B end.
Proof.
  induction A as [|a A IH]; intros Hn; [done|]. cbn [app newest].
  rewrite IH by (intros v w Hv; apply Hn; by right). destruct (bool_decide (v_key a = k) && (v_seq a <=? s)) eqn:Ev; [|done].
  destruct (newest k s A) as [v|]; [by destruct (v_seq a <? v_seq v)|]. pose proof (newest_spec k s B) as HB. destruct (newest k s B) as [w|]; [|done].
  apply andb_true_iff in Ev as [Ek%bool_decide_eq_true _]. destruct HB as (Hw & [Hwk _] & _).
  rewrite (proj2 (Z.ltb_ge _ _)); [done|]. apply Hn; [by left|done|congruence].
Qed.

Section get.
Context (n : nat) (k : list Z) (s : Z) (Hok : version_ok n (MkVersion s kTypeValue k [])).

Definition seek_tag : Z := s * 256 + 1.

Lemma seek_tag_fits : fits 64 seek_tag.
Proof. exact (v_tag_fits n _ Hok). Qed.

Lemma make_lookup_ok :
  ∃ key, make_lookup k s = Ok key ∧ lookup_user_key key = k ∧
    ∃ e, mk_entry n (memtable_key key) = Ok e ∧ rank e = lexrank n k * 2 ^ 64 + (2 ^ 64 - 1 - seek_tag).
Proof.
  destruct Hok as [Hs Hk Hn Hkl _]. cbn in Hs, Hk, Hn, Hkl. pose proof (len_pos k). unfold make_lookup.
  rewrite (wrap_small 32) by (split; lia). change kValueTypeForSeek with kTypeValue. destruct (PackSequenceAndType_spec s kTypeValue Hs) as [-> _].
  cbn [mbind result_bind]. change (type_num kTypeValue) with 1. fold seek_tag. eexists. split; [done|].
  change (k ++ EncodeFixed64 seek_tag) with (internal k seek_tag). split.
  { unfold lookup_user_key. cbn [lookup_bytes kstart]. rewrite drop_app_length, length_app, length_internal.
    replace (_ - _ - 8)%nat with (length k) by lia. apply take_app_length. }
  assert (decode_key (EncodeVarint32 (len k + 8) ++ internal k seek_tag) = internal k seek_tag) as Hd.
  { unfold decode_key. replace (len k + 8) with (len (internal k seek_tag)) by (unfold len; rewrite length_internal; lia).
    rewrite <- (app_nil_r (internal k seek_tag)) at 2. rewrite GetLengthPrefixedPtr_put; [done|].
    unfold len in *. rewrite length_internal. lia. }
  destruct (mk_entry_ok n (EncodeVarint32 (len k + 8) ++ internal k seek_tag)) as (e & E & He).
  { by eapply entry_ok_bytes. }
  exists e. split; [done|]. cbn [rank EntryComparator]. rewrite He. apply entry_rank_bytes; [done|apply seek_tag_fits].
Qed.

(** The versions at or behind the target are the visible ones and those of
    greater keys. *)
Lemma rank_visible v :
  version_ok n v → visible k s v → lexrank n k * 2 ^ 64 + (2 ^ 64 - 1 - seek_tag) ≤ rank_v n v < (lexrank n k + 1) * 2 ^ 64.
Proof.
  intros Hv [Hk Hs]. rewrite rank_v_eq, Hk by done. pose proof (v_tag_fits n v Hv) as Ht. unfold fits in Ht.
  unfold seek_tag, v_tag in *. assert (0 ≤ type_num (v_type v) ≤ 1) by (by destruct (v_type v)). lia.
Qed.

Lemma rank_same_key v :
  version_ok n v → v_key v = k → lexrank n k * 2 ^ 64 + (2 ^ 64 - 1 - seek_tag) ≤ rank_v n v → visible k s v.
Proof.
  intros Hv Hk. rewrite rank_v_eq, Hk by done. unfold seek_tag, v_tag.
  assert (0 ≤ type_num (v_type v) ≤ 1) by (by destruct (v_type v)). split; [done|lia].
Qed.

Lemma rank_other_key v :
  version_ok n v → v_key v ≠ k → lexrank n k * 2 ^ 64 + (2 ^ 64 - 1 - seek_tag) ≤ rank_v n v →
  (lexrank n k + 1) * 2 ^ 64 ≤ rank_v n v.
Proof.
  intros Hv Hk. rewrite rank_v_eq by done. pose proof (v_tag_fits n v Hv) as Ht. pose proof seek_tag_fits as Hst.
  unfold fits in Ht, Hst. enough (lexrank n (v_key v) ≠ lexrank n k) by nia.
  intros E. apply Hk. destruct Hok. by apply (lexrank_inj n); try apply Hv.
Qed.

(** What [Get] does with the entry it finds. *)
Lemma entry_answer v :
  version_ok n v →
  (let '(internal, value) := GetLengthPrefixedPtr (version_bytes v) in
   let key_length := len internal in
   if Compare (ztake (key_length - 8) internal) k =? 0 then
     tag ← DecodeFixed64 (zdrop (key_length - 8) internal);
     let c := Z.land tag 0xff in
     if c =? type_num kTypeValue then Ok (Some (Value (GetLengthPrefixedPtr value).1))
     else if c =? type_num kTypeDeletion then Ok (Some NotFound) else Ok None
   else Ok None) = Ok (if bool_decide (v_key v = k) then Some (answer_of v) else None).
Proof.
  intros Hv. unfold version_bytes.
  assert (len (v_key v) + 8 = len (internal (v_key v) (v_tag v))) as El by (unfold len; rewrite length_internal; lia).
  pose proof (ok_key_len _ _ Hv). rewrite El, GetLengthPrefixedPtr_put by lia. cbv zeta. rewrite <- El, Z.add_simpl_r.
  unfold internal. rewrite ztake_app, zdrop_app by done. cbn [Compare BytewiseComparator].
  destruct (Z.eqb_spec (slice_compare (v_key v) k) 0) as [E|E]; rewrite slice_compare_eq in E;
    [rewrite bool_decide_eq_true_2 by done|by rewrite bool_decide_eq_false_2].
  rewrite <- (app_nil_r (EncodeFixed64 _)). unfold EncodeFixed64, DecodeFixed64.
  rewrite decode_fixed_encode by (by eapply v_tag_fits). cbn [mbind result_bind].
  assert (Z.land (v_tag v) 0xff = type_num (v_type v)) as ->.
  { change 0xff with (Z.ones 8). rewrite Z.land_ones by lia. unfold v_tag. rewrite Z.add_comm, Z_mod_plus_full.
    by destruct (v_type v). }
  unfold answer_of. destruct (v_type v); [done|]. cbn. rewrite <- (app_nil_r (v_value v)) at 2.
  by rewrite GetLengthPrefixedPtr_put by apply Hv.
Qed.

Lemma Get_rel m vs fuel :
  mem_rel n m vs → distinct vs → (12 + length vs ≤ fuel)%nat →
  (key ← make_lookup k s; Get n m fuel key) = Ok (answer_of <$> newest k s vs).
Proof.
  intros Hm Hd Hf. destruct make_lookup_ok as (key & -> & Hu & e & Ee & He). cbn [mbind result_bind].
  unfold Get. rewrite Ee. cbn [mbind result_bind]. pose proof (Seek_rel n m vs e fuel Hm Hf) as Hseek.
  destruct (mr_shape _ _ _ Hm) as [L Hs]. pose proof (sorted_seek_spec _ e (contents_ascending _ L Hs)) as Hmin.
  assert (∀ w, w ∈ vs → version_ok n w) as Hall by (apply Forall_forall, Hm).
  destruct (sorted_seek (contents (table n m)) e) as [y|].
  2:{ rewrite Hseek. cbn. rewrite newest_none; [done|]. intros w Hw Hv.
      destruct (version_contents n m vs w Hm Hw) as (z & Hz & Ez). specialize (Hmin z Hz).
      rewrite He in Hmin. cbn [rank EntryComparator] in Hmin. rewrite Ez in Hmin. fold (rank_v n w) in Hmin.
      pose proof (rank_visible w (Hall w Hw) Hv). lia. }
  destruct Hseek as (p & -> & Hy). cbn [mbind result_bind Valid]. rewrite Hy. cbn [mbind result_bind].
  destruct Hmin as (Hin & Hge & Hle). destruct (contents_version n m vs y Hm Hin) as (v & Hv & Ey).
  rewrite Ey, Hu. etrans; [exact (entry_answer v (Hall v Hv))|]. rewrite He in Hge, Hle. cbn [rank EntryComparator] in Hge, Hle. rewrite Ey in Hge, Hle.
  fold (rank_v n v) in Hge, Hle.
  assert (∀ w, w ∈ vs → visible k s w → rank_v n v ≤ rank_v n w) as Hless.
  { intros w Hw Hwv. destruct (version_contents n m vs w Hm Hw) as (z & Hz & Ez). specialize (Hle z Hz).
    rewrite Ez in Hle. apply Hle. by apply rank_visible; auto. }
  case_bool_decide as Hk.
  - rewrite (newest_eq k s vs v); [done|done|done|by apply rank_same_key; auto|]. intros w Hw Hwv. specialize (Hless w Hw Hwv).
    destruct Hwv as [Hwk _]. rewrite !rank_v_eq, Hk, Hwk in Hless by auto. unfold v_tag in Hless.
    assert (0 ≤ type_num (v_type v) ≤ 1) by (by destruct (v_type v)).
    assert (0 ≤ type_num (v_type w) ≤ 1) by (by destruct (v_type w)). lia.
  - rewrite newest_none; [done|]. intros w Hw Hwv. specialize (Hless w Hw Hwv).
    pose proof (rank_other_key v (Hall v Hv) Hk Hge). pose proof (rank_visible w (Hall w Hw) Hwv). lia.
Qed.

End get.

(** ** A table that is filled and read *)

(** Calls of [Add], each with the height drawn for its node. *)
Fixpoint add_all (n : nat) (fuel : nat) (m : memtable n) (ops : list (nat * version)) : result (memtable n) :=
  match ops with
  | [] => Ok m
  | (h, v) :: ops => m ← Add n m fuel h (v_seq v) (v_type v) (v_key v) (v_value v); add_all n fuel m ops
  end.

Lemma add_all_rel n fuel m vs ops :
  mem_rel n m vs → distinct (vs ++ ops.*2) → Forall (version_ok n) ops.*2 → Forall (λ h, 1 ≤ h ≤ 12)%nat ops.*1 →
  (29 + length vs + length ops < fuel)%nat →
  ∃ t, add_all n fuel m ops = Ok (set_table n m t) ∧ mem_rel n (set_table n m t) (vs ++ ops.*2).
Proof.
  revert m vs. induction ops as [|[h v] ops IH]; intros m vs Hm Hd Hv Hh Hf.
  { exists (table n m). cbn. rewrite app_nil_r. by destruct m. }
  cbn [fmap list_fmap fst snd length] in *. apply Forall_cons in Hv as [Hv Hvs], Hh as [Hh Hhs].
  assert (vs ++ v :: ops.*2 ≡ₚ v :: (vs ++ ops.*2)) as Hp by (symmetry; apply Permutation_middle).
  assert (fresh vs v) as Hfr.
  { unfold distinct in Hd. rewrite Hp in Hd. apply distinct_cons in Hd as [Hd _]. intros w Hw. apply Hd, elem_of_app. by left. }
  destruct (Add_rel n m vs v fuel h Hm Hv Hfr Hh) as (t1 & E & Hm1); [lia|]. cbn [add_all]. rewrite E. cbn [mbind result_bind].
  destruct (IH (set_table n m t1) (v :: vs)) as (t & E' & Hm'); [done| |done|done|cbn; lia|].
  { unfold distinct in *. by rewrite Hp in Hd. }
  exists t. split; [done|]. eapply mem_rel_perm; [|done]. by rewrite Hp.
Qed.

(** C27: a memtable answers for the newest version.  Whatever versions are added,
    in whatever order and with whatever node heights, a lookup of a key at a
    sequence number returns: the value of the newest version of the key that is
    not newer than the number, or that it is deleted, or that the table has none.
    No assertion of the table fails, and both calls end. *)
Theorem memtable_get n ops fuel :
  distinct ops.*2 → Forall (version_ok n) ops.*2 → Forall (λ h, 1 ≤ h ≤ 12)%nat ops.*1 → (29 + length ops < fuel)%nat →
  ∃ m, (m ← make_memtable n; add_all n fuel m ops) = Ok m ∧
    ∀ k s, 0 ≤ s ≤ kMaxSequenceNumber → Forall byte k → (length k ≤ n)%nat → len k + 8 < 2 ^ 32 →
      (key ← make_lookup k s; Get n m fuel key) = Ok (answer_of <$> newest k s ops.*2).
Proof.
  intros Hd Hv Hh Hf. destruct (make_memtable_rel n) as (m0 & -> & H0). cbn [mbind result_bind].
  destruct (add_all_rel n fuel m0 [] ops H0 Hd Hv Hh) as (t & E & Hm); [cbn; lia|]. eexists. split; [done|].
  intros k s Hs Hk Hl Hkl. apply Get_rel; [by split|done|done|rewrite length_fmap; lia].
Qed.

Definition sample_versions : list (nat * version) :=
  [(1%nat, MkVersion 5 kTypeValue [1; 2] [9]); (3%nat, MkVersion 7 kTypeDeletion [1; 2] []);
   (2%nat, MkVersion 6 kTypeValue [1] [8; 8]); (1%nat, MkVersion 9 kTypeValue [1; 2] [7])].

Lemma sample_ok : Forall (version_ok 4) sample_versions.*2.
Proof. repeat (constructor; [split; try done; by repeat constructor|]). constructor. Qed.

Lemma memtable_get_witness :
  ∃ m, (m ← make_memtable 4; add_all 4 40 m sample_versions) = Ok m ∧
    (key ← make_lookup [1; 2] 6; Get 4 m 40 key) = Ok (Some (Value [9])) ∧
    (key ← make_lookup [1; 2] 8; Get 4 m 40 key) = Ok (Some NotFound) ∧
    (key ← make_lookup [1; 2] 4; Get 4 m 40 key) = Ok None.
Proof.
  destruct (memtable_get 4 sample_versions 40) as (m & E & HG).
  - apply (bool_decide_unpack _). reflexivity.
  - apply sample_ok.
  - repeat (constructor; [cbn; lia|]). constructor.
  - cbn. lia.
  - exists m. split; [exact E|]. clear E. specialize (HG [1; 2]).
    split_and!; (rewrite HG; [reflexivity|change kMaxSequenceNumber with (2 ^ 56 - 1); lia|by repeat constructor|cbn; lia|done]).
Defined.
