(* ===== verification/LsmRecovery.v ===== *)
(** * dLSM: recovery of a database from its log

    [MemTableInserter] and [InsertInto] of [dLSM/db/write_batch.cc], and
    [DBImpl::RecoverLogFile] of [db/db_impl.cc]: the batches that the log holds
    are replayed into a memtable.  The theorem puts log, batches and memtable
    together.  The heights drawn by the skip list and the comparison of the
    memory that a memtable uses with the size of the write buffer are arguments. *)
From stdpp Require Import strings.
From S2P Require Import Prelude KVConfig LsmCoding LsmCrc32c LsmFile LsmLog LsmLogWrite LsmLogRead LsmLogRecovery LsmFormat LsmBatch LsmMemTable.
Import Coding Format WriteBatch MemTable.

Module Recovery.

Section recovery.
Context (n fuel : nat) (heights : nat → nat).

(** ** Inserting a batch *)

(** [draws] counts the heights drawn. *)
Record MemTableInserter := MkInserter { sequence_ : Z; mem_ : memtable n; draws : nat }.

Definition inserter_add (s : MemTableInserter) (type : ValueType) (key value : list Z) : result MemTableInserter :=
  m ← Add n (mem_ s) fuel (heights (draws s)) (sequence_ s) type key value;
  Ok (MkInserter (u64 (sequence_ s + 1)) m (S (draws s))).

#[export] Instance Inserter : Handler MemTableInserter := {
  HandlePut s key value := inserter_add s kTypeValue key value;
  HandleDelete s key := inserter_add s kTypeDeletion key [];
}.

Definition InsertInto (b : list Z) (memtable : memtable n) (draws : nat) : result (MemTableInserter * Status) :=
  require (negb (CheckFlushFinished n memtable));;
  sequence ← Sequence b;
  Iterate b (MkInserter sequence memtable draws).

(** ** [RecoverLogFile] *)

(** Where an error comes from; [None] is [Status::OK()]. *)
Inductive error := Reported (why : Log.reason) | BadBatch (s : Status) | OpenError.

Context (paranoid_checks reuse_logs : bool).
Context (full : memtable n → bool).

(** The overload that takes a memtable begins with [assert(false)]. *)
Definition WriteLevel0Table (m : memtable n) : result (option error) := require false;; Ok None.

Definition MaybeIgnoreError (s : option error) : option error := if paranoid_checks then s else None.

Record state := MkState {
  status : option error;
  mem : option (memtable n);
  max_sequence : Z;
  save_manifest : bool;
  compactions : Z;
  drawn : nat
}.

Definition set_status (st : state) (s : option error) : state :=
  MkState s (mem st) (max_sequence st) (save_manifest st) (compactions st) (drawn st).

Definition ok (s : option error) : bool := match s with None => true | Some _ => false end.

(** [LogReporter::Corruption]. *)
Definition Corruption (st : state) (why : Log.reason) : state :=
  match status st with
  | None => if paranoid_checks then set_status st (Some (Reported why)) else st
  | Some _ => st
  end.

Definition new_memtable : result (memtable n) := m ← make_memtable n; Ok (Ref n m).

(** The body of the loop: the state, and whether the loop goes on. *)
Definition recover_record (record : list Z) (st : state) : result (state * bool) :=
  if (length record <? 12)%nat then Ok (Corruption st (Log.Corruption "log record too small"), true)
  else
    batch ← SetContents record;
    m ← match mem st with Some m => Ok m | None => new_memtable end;
    '(ins, s) ← InsertInto batch m (drawn st);
    let m := mem_ ins in
    let s := MaybeIgnoreError (match s with StatusOK => None | _ => Some (BadBatch s) end) in
    let st := MkState s (Some m) (max_sequence st) (save_manifest st) (compactions st) (draws ins) in
    if negb (ok s) then Ok (st, false)
    else
      sequence ← Sequence batch;
      count ← Count batch;
      let last_seq := u64 (sequence + count - 1) in
      let max := if max_sequence st <? last_seq then last_seq else max_sequence st in
      if full m then
        s ← WriteLevel0Table m;
        Unref n m;;
        Ok (MkState s None max true (compactions st + 1) (drawn st), ok s)
      else Ok (MkState s (Some m) max (save_manifest st) (compactions st) (drawn st), true).

Section reader.
Context {G : Type} `{SequentialFile G}.

(** [while (reader.ReadRecord(&record, &scratch) && status.ok())]. *)
Fixpoint recover_loop (loops : nat) (r : Log.Reader G) (st : state) : result (Log.Reader G * state) :=
  match loops with
  | O => Err OutOfFuel
  | S k =>
      '(r', record) ← Log.ReadRecord loops r;
      let st := foldl Corruption st (drop (length (Log.reports r)) (Log.reports r')).*2 in
      match record, status st with
      | Some record, None =>
          '(st, go) ← recover_record record st;
          if go : bool then recover_loop k r' st else Ok (r', st)
      | _, _ => Ok (r', st)
      end
  end.

(** What the call leaves: its status, [mem_] of the database and whether the
    log is written further, which go together. *)
Record recovered := MkRecovered {
  r_status : option error;
  r_mem : option (memtable n);
  r_max_sequence : Z;
  r_save_manifest : bool
}.

(** The part behind the loop; [reopened] tells whether the size of the file
    could be read and the file be opened to append. *)
Definition finish (last_log reopened : bool) (st : state) : result recovered :=
  if ok (status st) && reuse_logs && last_log && (compactions st =? 0) && reopened then
    m ← match mem st with Some m => Ok m | None => new_memtable end;
    Ok (MkRecovered (status st) (Some m) (max_sequence st) (save_manifest st))
  else
    match mem st with
    | Some m =>
        '(s, save) ← (if ok (status st) then s ← WriteLevel0Table m; Ok (s, true) else Ok (status st, save_manifest st));
        Unref n m;;
        Ok (MkRecovered s None (max_sequence st) save)
    | None => Ok (MkRecovered (status st) None (max_sequence st) (save_manifest st))
    end.

(** [file] is [None] where it could not be opened; the log is read into the
    buffer at [b]. *)
Definition RecoverLogFile (loops : nat) (file : option G) (b : nat) (last_log reopened : bool) (max_sequence : Z)
    (save_manifest : bool) : result recovered :=
  match file with
  | None => Ok (MkRecovered (MaybeIgnoreError (Some OpenError)) None max_sequence save_manifest)
  | Some g =>
      '(_, st) ← recover_loop loops (Log.make_reader g true true 0 b) (MkState None None max_sequence save_manifest 0 0);
      finish last_log reopened st
  end.

End reader.

End recovery.

End Recovery.
Import Recovery.

(** ** Reports only grow *)

Section reports.
Context {G : Type} `{SequentialFile G}.
Import Log.

Definition extends (r r' : Reader G) : Prop := reports r `prefix_of` reports r'.

#[local] Instance extends_preorder : PreOrder extends.
Proof. unfold extends. split; [by intros r|intros a b c H1 H2; by etrans]. Qed.

Lemma ReportDrop_extends r bytes why : extends r (ReportDrop r bytes why).
Proof. unfold ReportDrop, extends. case_match; [by eexists|done]. Qed.

Lemma same_reports r r' : reports r = reports r' → extends r r'.
Proof. unfold extends. by intros ->. Qed.

Lemma parse_record_extends r fragment r' t d : parse_record r fragment = Ok (r', t, d) → extends r r'.
Proof.
  unfold parse_record. intros (a & _ & E)%bind_Ok. apply bind_Ok in E as (b & _ & E). apply bind_Ok in E as (c & _ & E).
  case_match; [case_match; injection E as <- _ _; [apply (ReportDrop_extends (clear_buffer r))|by apply same_reports]|].
  case_match; [injection E as <- _ _; by apply same_reports|]. apply bind_Ok in E as (crc & _ & E).
  case_match; [injection E as <- _ _; apply (ReportDrop_extends (clear_buffer r))|]. case_match; injection E as <- _ _; by apply same_reports.
Qed.

Lemma physical_loop_extends fuel r fragment r' t d : physical_loop fuel r fragment = Ok (r', t, d) → extends r r'.
Proof.
  revert r. induction fuel as [|fuel IH]; intros r E; [done|]. cbn [physical_loop] in E.
  case_match; [|by eapply parse_record_extends]. case_match; [|injection E as <- _ _; by apply same_reports].
  destruct (Read _ _) as [[f status] data]. case_match.
  - injection E as <- _ _. unfold extends. exact (ReportDrop_extends (clear_buffer (set_end _ _)) _ _).
  - apply IH in E. unfold extends in *. by case_match.
Qed.

Lemma drop_partial_extends r b scratch what : extends r (drop_partial r b scratch what).
Proof. unfold drop_partial. case_match; [apply ReportDrop_extends|done]. Qed.

Lemma record_loop_extends fuel r scratch b o fragment r' d :
  record_loop fuel r scratch b o fragment = Ok (r', d) → extends r r'.
Proof.
  revert r scratch b o fragment. induction fuel as [|fuel IH]; intros r scratch b o fragment E; [done|].
  cbn [record_loop] in E. apply bind_Ok in E as ([[r1 t] x] & E1 & E). apply physical_loop_extends in E1. etrans; [exact E1|].
  set (r2 := if resyncing r1 then stop_resyncing r1 else r1) in E.
  assert (extends r1 r2) as E2 by (unfold r2; destruct (resyncing r1); by apply same_reports). clearbody r2.
  repeat case_match; first [apply IH in E; etrans; [|exact E]|injection E as <- _]; clear IH;
    first [by apply same_reports | etrans; [exact E2|]];
    first [by apply same_reports | apply ReportDrop_extends | apply drop_partial_extends | etrans; [apply drop_partial_extends|]; by apply same_reports].
Qed.

Lemma ReadRecord_extends fuel r r' d : ReadRecord fuel r = Ok (r', d) → extends r r'.
Proof.
  unfold ReadRecord. destruct (if last_record_offset r <? initial_offset r then SkipToInitialBlock r else (r, true)) as [r1 ok] eqn:E1.
  intros E.
  assert (extends r r1) as H1.
  { clear E. case_match; [|injection E1 as <- _; by apply same_reports]. unfold SkipToInitialBlock in E1. case_match; [|injection E1 as <- _; by apply same_reports].
    destruct (Skip _ _) as [f []]; injection E1 as <- _; [by apply same_reports|]. exact (ReportDrop_extends (set_file (set_end r _) f) _ _). }
  etrans; [exact H1|]. destruct ok; [by eapply record_loop_extends|injection E as <- _; by apply same_reports].
Qed.

Lemma ReadRecords_extends fuel r r' l : ReadRecords fuel r = Ok (r', l) → extends r r'.
Proof.
  revert r r' l. induction fuel as [|fuel IH]; intros r r' l E; [done|]. cbn [ReadRecords] in E.
  apply bind_Ok in E as ([r1 [x|]] & E1%ReadRecord_extends & E); [|by injection E as <- _].
  apply bind_Ok in E as ([r2 l'] & E2 & [= <- _]). etrans; [exact E1|by eapply IH].
Qed.

End reports.

(** ** The versions a batch makes *)

Definition version_of (seq : Z) (u : update) : version :=
  match u with
  | UPut key value => MkVersion seq kTypeValue key value
  | UDelete key => MkVersion seq kTypeDeletion key []
  end.

Fixpoint batch_versions (seq : Z) (us : list update) : list version :=
  match us with [] => [] | u :: us => version_of seq u :: batch_versions (seq + 1) us end.

(** A batch as it is logged: a sequence number and updates. *)
Definition batch : Type := Z * list update.
Definition record_of (b : batch) : list Z := batch_bytes b.1 b.2.
Definition versions_of (bs : list batch) : list version := bs ≫= λ b, batch_versions b.1 b.2.

Definition update_ok (n : nat) (u : update) : Prop :=
  match u with UPut key value => Forall byte key ∧ (length key ≤ n)%nat ∧ len key + 8 < 2 ^ 32 ∧ Forall byte value ∧ len value < 2 ^ 32
  | UDelete key => Forall byte key ∧ (length key ≤ n)%nat ∧ len key + 8 < 2 ^ 32 end.

Record batch_ok (n : nat) (b : batch) : Prop := {
  bo_seq : 0 ≤ b.1;
  bo_end : b.1 + len b.2 ≤ kMaxSequenceNumber;
  bo_count : len b.2 < 2 ^ 31;
  bo_updates : Forall (update_ok n) b.2;
}.

Lemma length_batch_versions seq us : length (batch_versions seq us) = length us.
Proof. revert seq. induction us as [|u us IH]; intros seq; cbn; [done|]. by rewrite IH. Qed.

Lemma batch_versions_ok n seq us :
  0 ≤ seq → seq + len us ≤ kMaxSequenceNumber → Forall (update_ok n) us → Forall (version_ok n) (batch_versions seq us).
Proof.
  intros H0 H1 Hus. revert seq H0 H1. induction Hus as [|u us Hu _ IH]; intros seq H0 H1; [constructor|].
  rewrite len_cons in H1. pose proof (len_pos us). cbn [batch_versions]. constructor; [|apply IH; lia].
  destruct u as [k v|k]; cbn in Hu; split; cbn [version_of v_seq v_key v_value]; try lia; try apply Hu. done.
Qed.

Lemma short_updates n us : Forall (update_ok n) us → Forall short_update us.
Proof.
  intros H. eapply Forall_impl; [exact H|]. intros [k v|k] Hu; cbn in *.
  - pose proof (len_pos k). pose proof (len_pos v). destruct Hu as (_ & _ & ? & _ & ?). split; split; lia.
  - pose proof (len_pos k). destruct Hu as (_ & _ & ?). split; lia.
Qed.

Section insert.
Context (n fuel : nat) (heights : nat → nat) (Hh : ∀ i, (1 ≤ heights i ≤ 12)%nat).

#[local] Existing Instance Inserter.

(** The calls of [Add] that replay a batch. *)
Fixpoint batch_ops (d : nat) (seq : Z) (us : list update) : list (nat * version) :=
  match us with [] => [] | u :: us => (heights d, version_of seq u) :: batch_ops (S d) (seq + 1) us end.

Lemma batch_ops_versions d seq us : (batch_ops d seq us).*2 = batch_versions seq us.
Proof. revert d seq. induction us as [|u us IH]; intros d seq; cbn; [done|]. by rewrite IH. Qed.

Lemma batch_ops_heights d seq us : Forall (λ h, 1 ≤ h ≤ 12)%nat (batch_ops d seq us).*1.
Proof. revert d seq. induction us as [|u us IH]; intros d seq; cbn; constructor; [apply Hh|apply IH]. Qed.

Lemma replay_add_all us seq m d :
  0 ≤ seq → seq + len us < 2 ^ 64 →
  replay (H:=Inserter n fuel heights) (MkInserter n seq m d) us =
    (m ← add_all n fuel m (batch_ops d seq us); Ok (MkInserter n (seq + len us) m (d + length us)%nat)).
Proof.
  revert seq m d. induction us as [|u us IH]; intros seq m d H0 H1.
  { cbn. rewrite len_nil, Z.add_0_r, Nat.add_0_r. done. }
  rewrite len_cons in *. pose proof (len_pos us). cbn [replay batch_ops add_all].
  assert (replay_one (H:=Inserter n fuel heights) (MkInserter n seq m d) u =
    (m ← Add n m fuel (heights d) (v_seq (version_of seq u)) (v_type (version_of seq u)) (v_key (version_of seq u)) (v_value (version_of seq u));
     Ok (MkInserter n (seq + 1) m (S d)))) as ->.
  { destruct u; cbn -[u64 Add]; unfold inserter_add; cbn [sequence_ mem_ draws]; by rewrite wrap_small by (split; lia). }
  destruct (Add n m fuel _ _ _ _ _) as [m1|]; [|done]. cbn [mbind result_bind]. rewrite IH by lia.
  destruct (add_all n fuel m1 _); [|done]. cbn [mbind result_bind length]. f_equal. f_equal; lia.
Qed.

Lemma InsertInto_rel b m vs d :
  mem_rel n m vs → CheckFlushFinished n m = false → batch_ok n b → distinct (vs ++ batch_versions b.1 b.2) →
  (29 + length vs + length b.2 < fuel)%nat →
  ∃ t, InsertInto n fuel heights (record_of b) m d = Ok (MkInserter n (b.1 + len b.2) (set_table n m t) (d + length b.2)%nat, StatusOK) ∧
    mem_rel n (set_table n m t) (vs ++ batch_versions b.1 b.2).
Proof.
  intros Hm Ho [H0 H1 H2 H3] Hd Hf. change kMaxSequenceNumber with (2 ^ 56 - 1) in H1. pose proof (len_pos b.2).
  unfold InsertInto. rewrite Ho. cbn [negb require mbind result_bind].
  assert (Sequence (record_of b) = Ok b.1) as -> by (apply decode_fixed_encode; split; lia). cbn [mbind result_bind].
  unfold record_of. rewrite Iterate_batch by (done || by eapply short_updates). rewrite replay_add_all by lia.
  destruct (add_all_rel n fuel m vs (batch_ops d b.1 b.2) Hm) as (m' & E & Hm').
  - by rewrite batch_ops_versions.
  - rewrite batch_ops_versions. by apply batch_versions_ok.
  - apply batch_ops_heights.
  - rewrite <- (length_fmap snd), batch_ops_versions, length_batch_versions. lia.
  - rewrite E, batch_ops_versions in *. by exists m'.
Qed.

End insert.

(** ** The loop *)

(** What is in the memtable, if there is one. *)
Definition hold {n} (o : option (memtable n)) (vs : list version) : Prop :=
  match o with Some m => mem_rel n m vs ∧ CheckFlushFinished n m = false | None => vs = [] end.

Lemma new_memtable_rel n :
  ∃ t, new_memtable n = Ok (Mk n t FLUSH_NOT_REQUESTED 0 false true 1 None None) ∧
    mem_rel n (Mk n t FLUSH_NOT_REQUESTED 0 false true 1 None None) [].
Proof.
  unfold new_memtable. destruct (make_memtable_rel n) as (m & E & [H1 H2 H3 H4]). rewrite E. unfold make_memtable in E.
  apply bind_Ok in E as (t & _ & [= <-]). exists t. split; [done|]. by split.
Qed.

Lemma current_table {n} (o : option (memtable n)) vs :
  hold o vs →
  ∃ m, (match o with Some m => Ok m | None => new_memtable n end) = Ok m ∧ mem_rel n m vs ∧ CheckFlushFinished n m = false.
Proof.
  destruct o as [m|]; [by exists m|]. intros ->. destruct (new_memtable_rel n) as (t & -> & Ht). by eexists.
Qed.

Definition last_sequence (b : batch) : Z := u64 (b.1 + len b.2 - 1).

Lemma record_of_size b : (12 ≤ length (record_of b))%nat.
Proof. unfold record_of, batch_bytes, EncodeFixed64, EncodeFixed32. rewrite !length_app, !length_le_bytes. lia. Qed.

Section loop.
Context (n fuel : nat) (heights : nat → nat) (Hh : ∀ i, (1 ≤ heights i ≤ 12)%nat).
Context (paranoid : bool) (full : memtable n → bool) (Hfull : ∀ m, full m = false).

#[local] Notation recover_record := (recover_record n fuel heights paranoid full).
#[local] Notation recover_loop := (recover_loop n fuel heights paranoid full).

Lemma recover_record_batch b st vs :
  status n st = None → hold (mem n st) vs → batch_ok n b → distinct (vs ++ batch_versions b.1 b.2) →
  (29 + length vs + length b.2 < fuel)%nat →
  ∃ m d, recover_record (record_of b) st =
      Ok (MkState n None (Some m) (Z.max (max_sequence n st) (last_sequence b)) (save_manifest n st) (compactions n st) d, true) ∧
    hold (Some m) (vs ++ batch_versions b.1 b.2).
Proof.
  intros Hst Hvs Hb Hd Hf. destruct (current_table (mem n st) vs Hvs) as (m & Em & Hm & Ho).
  unfold Recovery.recover_record. pose proof (record_of_size b). rewrite (proj2 (Nat.ltb_ge _ _)) by lia.
  unfold SetContents. rewrite (proj2 (Nat.leb_le _ _)) by (unfold kHeader; lia). cbn [require mbind result_bind]. rewrite Em.
  cbn [mbind result_bind].
  destruct (InsertInto_rel n fuel heights Hh b m vs (drawn n st) Hm Ho Hb Hd Hf) as (t & -> & Hm').
  pose proof Hb as [H0 Hend Hc _]. change kMaxSequenceNumber with (2 ^ 56 - 1) in Hend. pose proof (len_pos b.2).
  assert (Sequence (record_of b) = Ok b.1) as Es by (apply decode_fixed_encode; split; lia).
  assert (Count (record_of b) = Ok (len b.2)) as Ec by (by apply Count_batch).
  assert (MaybeIgnoreError paranoid None = None) as Ei by (unfold MaybeIgnoreError; by destruct paranoid).
  cbn [mbind result_bind mem_ draws]. rewrite Ei. cbn [ok negb]. rewrite Es, Ec. cbn [mbind result_bind max_sequence]. fold (last_sequence b).
  rewrite Hfull. eexists _, _. split; [|done].
  assert ((if max_sequence n st <? last_sequence b then last_sequence b else max_sequence n st) =
    Z.max (max_sequence n st) (last_sequence b)) as -> by (destruct (Z.ltb_spec (max_sequence n st) (last_sequence b)); lia).
  done.
Qed.

Lemma recover_loop_batches {G} `{SequentialFile G} bs : ∀ loops (r r' : Log.Reader G) st vs,
  Log.ReadRecords loops r = Ok (r', record_of <$> bs) → Log.reports r' = [] →
  status n st = None → hold (mem n st) vs → Forall (batch_ok n) bs → distinct (vs ++ versions_of bs) →
  (29 + length vs + length (versions_of bs) < fuel)%nat →
  ∃ o d, recover_loop loops r st =
      Ok (r', MkState n None o (foldl Z.max (max_sequence n st) (last_sequence <$> bs)) (save_manifest n st) (compactions n st) d) ∧
    hold o (vs ++ versions_of bs) ∧ (o = None ↔ mem n st = None ∧ bs = []).
Proof.
  induction bs as [|b bs IH]; intros loops r r' st vs Er Hrep Hst Hvs Hbs Hd Hf;
    (destruct loops as [|loops]; [done|]); cbn [Log.ReadRecords Recovery.recover_loop] in *;
    apply bind_Ok in Er as ([r1 [record|]] & E1 & Er); try done.
  - apply bind_Ok in Er as ([r2 l] & _ & [=]).
  - injection Er as <-. rewrite E1. cbn [mbind result_bind]. rewrite Hrep, drop_nil. cbn [fmap list_fmap foldl].
    exists (mem n st), (drawn n st). cbn [versions_of mbind list_bind]. rewrite app_nil_r. destruct st; cbn in *. subst. naive_solver.
  - apply bind_Ok in Er as ([r2 l] & E2 & [= <- -> ->]). rewrite E1. cbn [mbind result_bind].
    assert (Log.reports r1 = []) as Hr1.
    { apply ReadRecords_extends in E2 as [k Hk]. rewrite Hrep in Hk. by destruct (Log.reports r1). }
    rewrite Hr1, drop_nil. cbn [fmap list_fmap foldl]. rewrite Hst. apply Forall_cons in Hbs as [Hb Hbs].
    cbn [versions_of mbind list_bind] in Hd, Hf |- *. fold (versions_of bs) in *. rewrite app_assoc in Hd |- *. rewrite length_app, length_batch_versions in Hf.
    destruct (recover_record_batch b st vs Hst Hvs Hb) as (m & d & -> & Hm); [|lia|].
    { unfold distinct in *. rewrite fmap_app in Hd. by apply NoDup_app in Hd as [? _]. }
    cbn [mbind result_bind]. set (st1 := MkState _ _ _ _ _ _ _).
    destruct (IH loops r1 r2 st1 _ E2 Hrep eq_refl Hm Hbs Hd) as (o & d' & -> & ? & Ho).
    { rewrite length_app, length_batch_versions. lia. }
    exists o, d'. cbn [mem st1] in Ho. naive_solver.
Qed.

End loop.

(** ** What survives a crash *)

Lemma surviving_take c pos rs : 0 ≤ pos → ∃ j, surviving c 0 pos rs = take j rs.
Proof.
  revert pos. induction rs as [|r rs IH]; intros pos Hp; [by exists 0%nat|]. cbn [surviving].
  pose proof (pad_range pos). rewrite (proj2 (Z.leb_le 0 _)) by lia. case_match; [|by exists 0%nat].
  destruct (IH (pos + len (record_bytes pos r))) as [j ->]; [pose proof (len_pos (record_bytes pos r)); lia|]. by exists (S j).
Qed.

Lemma record_of_bytes n b : batch_ok n b → Forall byte (record_of b).
Proof.
  intros Hb. unfold record_of, batch_bytes, EncodeFixed64, EncodeFixed32. repeat (apply Forall_app_2; [apply le_bytes_byte|]).
  apply Forall_concat, Forall_fmap. eapply Forall_impl; [apply (bo_updates _ _ Hb)|].
  assert (∀ k, len k < 2 ^ 32 → Forall byte k → Forall byte (EncodeVarint32 (u32 (len k)) ++ k)) as Hput.
  { intros k Hk Hkb. pose proof (len_pos k). apply Forall_app_2; [|done].
    apply EncodeVarint32_bytes. rewrite wrap_small by (split; lia). split; lia. }
  intros [k v|k] Hu; cbn in Hu |- *; unfold PutLengthPrefixedSlice, PutVarint32; cbn [app].
  - destruct Hu as (H1 & _ & H2 & H3 & H4). constructor; [by split|]. rewrite <- app_assoc. apply Forall_app_2; apply Hput; (done || lia).
  - destruct Hu as (H1 & _ & H2). constructor; [by split|]. apply Hput; [lia|done].
Qed.

(** A table answers lookups from a list of versions. *)
Definition answers (n fuel : nat) (m : memtable n) (vs : list version) : Prop :=
  ∀ k s, 0 ≤ s ≤ kMaxSequenceNumber → Forall byte k → (length k ≤ n)%nat → len k + 8 < 2 ^ 32 →
    (key ← make_lookup k s; Get n m fuel key) = Ok (answer_of <$> newest k s vs).

Lemma mem_rel_answers n fuel m vs : mem_rel n m vs → distinct vs → (12 + length vs ≤ fuel)%nat → answers n fuel m vs.
Proof. intros Hm Hd Hf k s Hs Hk Hl Hkl. apply Get_rel; [by split|done|done|lia]. Qed.

Section database.
Context {F : Type} `{WritableFile F} {capacity : Z} `{!WritableFileSpec F capacity}.
Context {G : Type} `{SequentialFile G} `{!SequentialFileSpec G}.

(** The records that a reader finds in a log of which a crash leaves a part. *)
Lemma crash_records (f : F) t cs1 cs2 w1 w2 (g : G) b loops :
  Log.kHeaderSize ≤ capacity → disk f = [] → buffered f = [] →
  Forall (Forall byte) (call_records cs1) → Forall (Forall byte) (call_records cs2) →
  run_writer (Log.make_writer f t) cs1 = Ok (w1, true) → run_writer w1 cs2 = Ok (w2, true) →
  disk (Log.dest w1) `prefix_of` rest g → rest g `prefix_of` disk (Log.dest w2) →
  readable g → Log.kBlockSize ≤ room g → len (rest g) + 2 * Log.kBlockSize < 2 ^ 63 → (length (rest g) < loops)%nat →
  ∃ r j, Log.ReadRecords loops (Log.make_reader g true true 0 b) = Ok (r, call_records cs1 ++ take j (call_records cs2)) ∧
    Log.reports r = [] ∧ (rest g = disk (Log.dest w2) → take j (call_records cs2) = call_records cs2).
Proof.
  intros Hcap Hd Hb Hc1 Hc2 R1 R2 G1 G2 Hg Hroom Hsmall Hfuel.
  destruct (run_writer_spec (capacity:=capacity) Hcap (Log.make_writer f t) cs1) as (w & ok & E & _ & _ & Hok);
    [by apply make_writer_writing|done|].
  rewrite R1 in E. injection E as <- <-. destruct (Hok eq_refl) as [E1 Hw1]. clear Hok.
  destruct (run_writer_spec (capacity:=capacity) Hcap w1 cs2 Hw1 Hc2) as (w & ok & E & _ & _ & Hok).
  rewrite R2 in E. injection E as <- <-. destruct (Hok eq_refl) as [E2 _]. clear Hok R1 R2.
  cbn [Log.dest Log.make_writer] in E1. rewrite Hd in E1. cbn [app] in E1. change (len []) with 0 in E1.
  assert (disk (Log.dest w2) = log_bytes 0 (call_records cs1 ++ call_records cs2)) as E.
  { by rewrite E2, log_bytes_app, <- E1. }
  assert (len (disk (Log.dest w1)) ≤ len (rest g)) as Hle by (destruct G1 as [k ->]; rewrite len_app; pose proof (len_pos k); lia).
  destruct (log_reader g true true 0 b (call_records cs1 ++ call_records cs2) (len (rest g)) loops) as (r & Er & Hrep); try done.
  { rewrite <- E. destruct G2 as [k ->]. symmetry. by apply ztake_app. }
  { by apply Forall_app_2. }
  rewrite surviving_app in Er by (rewrite <- ?E1; lia). rewrite <- E1, Z.add_0_l in Er.
  destruct (surviving_take (len (rest g)) (len (disk (Log.dest w1))) (call_records cs2)) as [j Ej]; [apply len_pos|].
  rewrite Ej in Er. exists r, j. split; [done|]. split; [by apply Hrep|]. intros Eg. rewrite <- Ej.
  rewrite <- (app_nil_r (call_records cs2)) at 1. pose proof (len_pos (disk (Log.dest w1))).
  rewrite surviving_app; [by cbn; rewrite app_nil_r|done|done|]. by rewrite Eg, E2, len_app.
Qed.

(** C11: recovery from a log that a dead process left.  Batches [bs1] are written
    to an empty log, then [bs2], and what is left of the file is all that was
    written for [bs1] and any part of what was written for [bs2]; nothing is said
    of files that lose written bytes.  The replayed memtable never fills up
    ([full] is false), and no two updates have the same sequence number.  Recovery
    reads [bs1] and the first [j] batches of [bs2], all of them if the whole log
    is left.  Only if the log is reused -- the option is set, the log is the last
    one and it could be opened again -- it ends without error and with no
    assertion failing, and leaves a memtable that answers every lookup from the
    updates of these batches, with the sequence numbers the batches gave them,
    and from no others, and the largest of these numbers.  In every other case
    recovery of one batch or more stops at the assertion in
    [WriteLevel0Table]. *)
Theorem recovery_durable (n fuel : nat) (heights : nat → nat) paranoid reuse full
    (f : F) t cs1 cs2 w1 w2 (g : G) b bs1 bs2 loops last reopened max save :
  (∀ i, (1 ≤ heights i ≤ 12)%nat) → (∀ m, full m = false) →
  Log.kHeaderSize ≤ capacity → disk f = [] → buffered f = [] →
  call_records cs1 = record_of <$> bs1 → call_records cs2 = record_of <$> bs2 →
  Forall (batch_ok n) (bs1 ++ bs2) → distinct (versions_of (bs1 ++ bs2)) →
  run_writer (Log.make_writer f t) cs1 = Ok (w1, true) → run_writer w1 cs2 = Ok (w2, true) →
  disk (Log.dest w1) `prefix_of` rest g → rest g `prefix_of` disk (Log.dest w2) →
  readable g → Log.kBlockSize ≤ room g → len (rest g) + 2 * Log.kBlockSize < 2 ^ 63 → (length (rest g) < loops)%nat →
  (29 + length (versions_of (bs1 ++ bs2)) < fuel)%nat →
  ∃ j, (rest g = disk (Log.dest w2) → take j bs2 = bs2) ∧
    let bs := bs1 ++ take j bs2 in
    let max' := foldl Z.max max (last_sequence <$> bs) in
    let run := RecoverLogFile n fuel heights paranoid reuse full loops (Some g) b last reopened max save in
    if reuse && last && reopened then
      ∃ m, run = Ok (MkRecovered n None (Some m) max' save) ∧ answers n fuel m (versions_of bs)
    else run = if bool_decide (bs = []) then Ok (MkRecovered n None None max save) else Err AssertionFailure.
Proof.
  intros Hh Hfull Hcap Hd Hb Hc1 Hc2 Hbs Hdist R1 R2 G1 G2 Hg Hroom Hsmall Hloops Hfuel.
  assert (∀ bs, Forall (batch_ok n) bs → Forall (Forall byte) (record_of <$> bs)) as Hbytes.
  { intros bs Hall. apply Forall_fmap. eapply Forall_impl; [exact Hall|]. apply record_of_bytes. }
  pose proof Hbs as [Hb1 Hb2]%Forall_app.
  destruct (crash_records f t cs1 cs2 w1 w2 g b loops) as (r & j & Er & Hrep & Hall); try done; [rewrite Hc1; auto|rewrite Hc2; auto|].
  exists j. rewrite Hc1, Hc2, <- fmap_take, <- fmap_app in Er. split.
  { intros Eg. specialize (Hall Eg). rewrite Hc2, <- fmap_take in Hall.
    apply (f_equal length) in Hall. rewrite !length_fmap, length_take in Hall. apply take_ge. lia. }
  intros bs max' run.
  assert (∃ l, versions_of (bs1 ++ bs2) = versions_of bs ++ l) as [l El].
  { exists (versions_of (drop j bs2)). unfold versions_of, bs. by rewrite <- bind_app, <- app_assoc, take_drop. }
  assert (distinct (versions_of bs)) as Hd'.
  { unfold distinct in *. rewrite El, fmap_app in Hdist. by apply NoDup_app in Hdist as [? _]. }
  rewrite El, length_app in Hfuel.
  destruct (recover_loop_batches n fuel heights Hh paranoid full Hfull bs loops
    (Log.make_reader g true true 0 b) r (MkState n None None max save 0 0) [] Er Hrep eq_refl eq_refl) as (o & d & E & Hhold & Ho).
  - apply Forall_app_2; [done|by apply Forall_take].
  - done.
  - cbn [length]. lia.
  - unfold run, RecoverLogFile. rewrite E. cbn [mbind result_bind]. unfold finish. cbn [status ok andb mem compactions max_sequence save_manifest].
    change (0 =? 0) with true. rewrite andb_true_r. destruct (reuse && last && reopened).
    + destruct (current_table o _ Hhold) as (m & -> & Hm & _). exists m. split; [done|]. apply mem_rel_answers; [done|done|cbn [app]; lia].
    + destruct o as [m|]; case_bool_decide as Hnil; try done.
      * by pose proof (proj2 Ho (conj eq_refl Hnil)).
      * unfold max'. by rewrite Hnil.
      * by destruct (proj1 Ho eq_refl).
Qed.

End database.

Definition old_batches : list batch := [(5, [UPut [1] [2]; UDelete [3]])].
Definition new_batches : list batch := [(7, [UPut [1] [4]])].
Definition log_calls (bs : list batch) : list call := (λ b, LsmLogWrite.Add 0 (record_of b)) <$> bs.
Definition no_log : PosixWritableFile.t := PosixWritableFile.Mk [] [] [].

(** The last byte of the log is lost. *)
Definition crashed_log : PosixSequentialFile.t :=
  PosixSequentialFile.Mk (match run_writer (Log.make_writer no_log 0) (log_calls (old_batches ++ new_batches)) with
    | Ok (w, _) => ztake (len (disk (Log.dest w)) - 1) (disk (Log.dest w)) | Err _ => [] end) 0 [].

Lemma recovery_durable_witness :
  ∃ j m,
    RecoverLogFile 4 40 (λ _, 2%nat) true true (λ _, false) 100 (Some crashed_log) 0 true true 0 false =
      Ok (MkRecovered 4 None (Some m) (foldl Z.max 0 (last_sequence <$> old_batches ++ take j new_batches)) false) ∧
    answers 4 40 m (versions_of (old_batches ++ take j new_batches)).
Proof.
  destruct (run_writer (Log.make_writer no_log 0) (log_calls old_batches)) as [[w1 ok]|] eqn:E1; [|by vm_compute in E1].
  pose proof E1 as R1. vm_compute in R1. injection R1 as <- <-.
  match type of E1 with _ = Ok (?w, true) => destruct (run_writer w (log_calls new_batches)) as [[w2 ok]|] eqn:E2; [|by vm_compute in E2] end.
  pose proof E2 as R2. vm_compute in R2. injection R2 as <- <-.
  match type of E1 with _ = Ok (?w, true) => set (w1 := w) in * end.
  match type of E2 with _ = Ok (?w, true) => set (w2 := w) in * end.
  destruct (recovery_durable (G:=PosixSequentialFile.t) 4 40 (λ _, 2%nat) true true (λ _, false)
    no_log 0 (log_calls old_batches) (log_calls new_batches) w1 w2 crashed_log 0 old_batches new_batches 100 true true 0 false)
    as (j & _ & m & E & Ha).
  - intros _. lia.
  - done.
  - done.
  - done.
  - done.
  - done.
  - done.
  - repeat (constructor; [split; [done|done|done|by repeat constructor]|]). constructor.
  - apply (bool_decide_unpack _). reflexivity.
  - exact E1.
  - exact E2.
  - vm_compute. by eexists.
  - vm_compute. by eexists.
  - by split.
  - done.
  - vm_compute. done.
  - vm_compute. lia.
  - vm_compute. lia.
  - exists j, m. exact (conj E Ha).
Defined.
