(* ===== verification/LsmWrite.v ===== *)
(** * dLSM: concurrent writes and flushes

    [DBImpl::Write], [PickupTableToWrite] and [CompactMemTable] of
    [dLSM/db/db_impl.cc] with [MemTableList] of [db/memtable_list.cc].  A writer
    takes a sequence number and looks for the memtable whose range holds it,
    making the next one when there is none; a flush job takes an immutable
    memtable, waits until every number of its range has been written, builds a
    table from it and installs the table.  A step of a thread is what it does
    between two points where other threads can interfere; what runs under
    [superversion_memlist_mtx] is one step.  The new memtable can be loaded, and
    an old number of immutable memtables read, by a writer that does not take the
    lock while another one switches memtables: it then goes on as it does after
    the switch, and what it reads of that number is any number in the model.

    Insertions in a memtable are one step here ([SkipListThreads] has the finer
    view).  The reference counts of memtables, list versions and super versions,
    with the reclamation of memory, the memory accounting and the history of
    flushed memtables are left out; memtables stay where they are; the number of
    level-0 files is any number at each reading; a table is the sequence of keys
    and values that the table builder is given. *)
From stdpp Require Import strings gmap.
From S2P Require Import Prelude KVConfig LsmCoding LsmFile LsmFormat LsmBatch InlineSkipList SkipListShape LsmMemTable LsmRecovery.
Import Coding Format WriteBatch InlineSkipList MemTable Recovery.

Module WritePath.

(** ** Configuration *)

Definition MaxImmuNumPerFlush : Z := 1.
Definition Immutable_FlushTrigger : Z := 1.
Definition Immutable_StopWritesTrigger : Z := 2.
Definition kL0_SlowdownWritesTrigger : Z := 2.
Definition kL0_StopWritesTrigger : Z := 4.

(** A table: internal keys with their values. *)
Notation TableData := (list (list Z * list Z)).

Section db.
Context (n fuel : nat) (heights : nat → nat).

(** ** The state *)

(** Memtables are numbered as they are made; [memlist_] has the newest first.
    [sstable] is the table built from a memtable, [files] the installed ones. *)
Record db := MkDb {
  last_sequence_ : Z;
  mems : list (memtable n);
  mem_ : nat;
  memlist_ : list nat;
  current_memtable_num_ : Z;
  num_flush_not_started_ : Z;
  sstable : gmap nat TableData;
  files : list TableData;
  draws : nat
}.

Definition set_mems (d : db) (ms : list (memtable n)) : db :=
  MkDb (last_sequence_ d) ms (mem_ d) (memlist_ d) (current_memtable_num_ d) (num_flush_not_started_ d) (sstable d) (files d) (draws d).

Definition on_table {A} (d : db) (i : nat) (f : memtable n → result (A * memtable n)) : result (A * db) :=
  m ← at_index (mems d) i; '(a, m) ← f m; Ok (a, set_mems d (<[i := m]> (mems d))).

Definition set_state (d : db) (i : nat) (s : FlushStateEnum) : result db :=
  '(_, d) ← on_table d i (λ m, Ok (tt, SetFlushState n m s)); Ok d.

(** [DB::Open] on an empty directory. *)
Definition open_db : result db :=
  m ← make_memtable n;
  Ok (MkDb 0 [Ref n (SetLargestSeq n (SetFirstSeq n m 0) (MEMTABLE_SEQ_SIZE - 1))] 0 [] 0 0 ∅ [] 0).

(** [VersionSet::AssignSequnceNumbers]. *)
Definition AssignSequnceNumbers (d : db) (k : Z) : result (Z * db) :=
  require (k =? 1);;
  Ok (last_sequence_ d, MkDb (u64 (last_sequence_ d + k)) (mems d) (mem_ d) (memlist_ d) (current_memtable_num_ d)
    (num_flush_not_started_ d) (sstable d) (files d) (draws d)).

(** ** The list of immutable memtables *)

Definition in_range (m : memtable n) (seq : Z) : result bool :=
  first ← GetFirstseq n m; largest ← Getlargest_seq_supposed n m; Ok ((first <=? seq) && (seq <=? largest)).

Fixpoint PickMemtablesSeqBelong (ms : list (memtable n)) (memlist : list nat) (seq : Z) : result (option nat) :=
  match memlist with
  | [] => Ok None
  | i :: memlist =>
      m ← at_index ms i;
      b ← in_range m seq;
      if b : bool then Ok (Some i) else PickMemtablesSeqBelong ms memlist seq
  end.

Definition Add (d : db) (i : nat) : result db :=
  require (num_flush_not_started_ d <=? len (memlist_ d));;
  require (bool_decide (i ∉ memlist_ d));;
  d ← set_state d i FLUSH_REQUESTED;
  Ok (MkDb (last_sequence_ d) (mems d) (mem_ d) (i :: memlist_ d) (u64 (current_memtable_num_ d + 1))
    (int32 (num_flush_not_started_ d + 1)) (sstable d) (files d) (draws d)).

Definition IsFlushPending (d : db) : bool := Immutable_FlushTrigger <=? num_flush_not_started_ d.

(** The tables from the oldest on. *)
Fixpoint pick_loop (l : list nat) (table_counter : Z) (d : db) : result (list nat * db) :=
  match l with
  | [] => Ok ([], d)
  | i :: l =>
      m ← at_index (mems d) i;
      if CheckFlush_Requested n m then
        d ← set_state d i FLUSH_PROCESSING;
        let d := MkDb (last_sequence_ d) (mems d) (mem_ d) (memlist_ d) (current_memtable_num_ d)
          (int32 (num_flush_not_started_ d - 1)) (sstable d) (files d) (draws d) in
        if MaxImmuNumPerFlush <=? table_counter + 1 then Ok ([i], d)
        else '(picked, d) ← pick_loop l (table_counter + 1) d; Ok (i :: picked, d)
      else pick_loop l table_counter d
  end.

Definition PickMemtablesToFlush (d : db) : result (list nat * db) := pick_loop (reverse (memlist_ d)) 0 d.

(** ** Writers *)

(** Where a call of [Put] or [Delete] is. [Reload]: before [mem_.load()];
    [Loop]: at the head of the first loop; [Wait]: at the condition of the inner
    loop; [Switch]: before taking the lock to make a memtable; [Find]: in the
    second loop; [Insert]: [PickupTableToWrite] has returned; [Increase], [Check]
    and [Able]: before the three accesses of [increase_seq_count]. *)
Inductive writer :=
  | Idle
  | Start (u : update)
  | Reload (u : update) (seq : Z) (delayed : bool)
  | Loop (u : update) (seq : Z) (mem_r : nat) (delayed : bool)
  | Wait (u : update) (seq : Z) (delayed : bool)
  | Switch (u : update) (seq : Z) (delayed : bool)
  | Find (u : update) (seq : Z) (mem_r : option nat)
  | Insert (u : update) (seq : Z) (mem_r : nat)
  | Increase (u : update) (seq : Z) (mem_r : nat)
  | Check (u : update) (seq : Z) (mem_r : nat)
  | Able (u : update) (seq : Z) (mem_r : nat).

Definition no_room (imm_num level0 : Z) : bool :=
  (Immutable_StopWritesTrigger <=? imm_num) || (kL0_StopWritesTrigger <=? level0).

(** The memtable that follows the current one. *)
Definition switch_memtable (d : db) (mem_r : nat) (last_mem_seq : Z) : result (nat * db) :=
  m ← make_memtable n;
  let temp_mem := Ref n (SetLargestSeq n (SetFirstSeq n m (u64 (last_mem_seq + 1))) (u64 (last_mem_seq + MEMTABLE_SEQ_SIZE))) in
  d ← set_state d mem_r FLUSH_REQUESTED;
  let i := length (mems d) in
  let d := MkDb (last_sequence_ d) (mems d ++ [temp_mem]) i (memlist_ d) (current_memtable_num_ d) (num_flush_not_started_ d)
    (sstable d) (files d) (draws d) in
  require (current_memtable_num_ d <=? Immutable_StopWritesTrigger);;
  d ← Add d mem_r;
  Ok (i, d).

(** The insertion by [InsertInto]; its status is what the call returns. *)
Definition insert_batch (d : db) (i : nat) (rep : list Z) : result (Status * db) :=
  '(p, d) ← on_table d i (λ m, '(ins, s) ← InsertInto n fuel heights rep m (draws d); Ok ((s, Recovery.draws n ins), Recovery.mem_ n ins));
  Ok (p.1, MkDb (last_sequence_ d) (mems d) (mem_ d) (memlist_ d) (current_memtable_num_ d) (num_flush_not_started_ d)
    (sstable d) (files d) p.2).

(** [level0] is the number of level-0 files; [imm_num] the number of immutable
    memtables that is read without the lock. *)
Definition writer_step (level0 imm_num : Z) (d : db) (w : writer) : result (db * writer) :=
  match w with
  | Idle => Ok (d, Idle)
  | Start u =>
      updates ← build Clear [u];
      kv_num ← Count updates;
      require (kv_num =? 1);;
      '(sequence, d) ← AssignSequnceNumbers d kv_num;
      Ok (d, Reload u sequence false)
  | Reload u seq delayed => Ok (d, Loop u seq (mem_ d) delayed)
  | Loop u seq mem_r delayed =>
      m ← at_index (mems d) mem_r;
      largest ← Getlargest_seq_supposed n m;
      if largest <? seq then
        if no_room imm_num level0 then Ok (d, Wait u seq delayed)
        else if (kL0_SlowdownWritesTrigger <? level0) && negb delayed then Ok (d, Reload u seq true)
        else Ok (d, Switch u seq delayed)
      else Ok (d, Find u seq (Some mem_r))
  | Wait u seq delayed =>
      m ← at_index (mems d) (mem_ d);
      largest ← Getlargest_seq_supposed n m;
      first ← GetFirstseq n m;
      if no_room (current_memtable_num_ d) level0 && (largest <? seq) then require (first <? seq);; Ok (d, Wait u seq delayed)
      else Ok (d, Reload u seq delayed)
  | Switch u seq delayed =>
      let mem_r := mem_ d in
      m ← at_index (mems d) mem_r;
      largest ← Getlargest_seq_supposed n m;
      if (current_memtable_num_ d <=? Immutable_StopWritesTrigger) && (level0 <=? kL0_StopWritesTrigger) && (largest <? seq) then
        '(mem_r, d) ← switch_memtable d mem_r largest;
        Ok (d, Insert u seq mem_r)
      else Ok (d, Reload u seq delayed)
  | Find u seq None => Err OutOfBounds
  | Find u seq (Some mem_r) =>
      m ← at_index (mems d) mem_r;
      b ← in_range m seq;
      if b : bool then Ok (d, Insert u seq mem_r)
      else
        mem_r ← PickMemtablesSeqBelong (mems d) (memlist_ d) seq;
        Ok (d, match mem_r with Some i => Insert u seq i | None => Find u seq None end)
  | Insert u seq mem_r =>
      updates ← build Clear [u];
      let updates := SetSequence updates seq in
      m ← at_index (mems d) mem_r;
      b ← in_range m seq;
      require b;;
      '(_, d) ← insert_batch d mem_r updates;
      Ok (d, Increase u seq mem_r)
  | Increase u seq mem_r =>
      '(_, d) ← on_table d mem_r (λ m, m ← add_seq_count n m 1; Ok (tt, m));
      Ok (d, Check u seq mem_r)
  | Check u seq mem_r => m ← at_index (mems d) mem_r; check_seq_count n m;; Ok (d, Able u seq mem_r)
  | Able u seq mem_r => '(_, d) ← on_table d mem_r (λ m, Ok (tt, store_able n m)); Ok (d, Idle)
  end.

(** ** Flush jobs *)

(** [Picked]: in [Waitforpendingwriter]; [Ready]: before [WriteLevel0Table];
    [Built]: before the tables are marked; [Marked]: before they are installed. *)
Inductive flusher :=
  | FIdle
  | Picked (mem_vec : list nat)
  | Ready (mem_vec : list nat)
  | Built (mem_vec : list nat) (meta : TableData)
  | Marked.

Fixpoint for_tables (d : db) (l : list nat) (f : db → nat → result db) : result db :=
  match l with [] => Ok d | i :: l => d ← f d i; for_tables d l f end.

(** Whether [Waitforpendingwriter] is through. *)
Fixpoint no_pending_writer (ms : list (memtable n)) (l : list nat) : result bool :=
  match l with
  | [] => Ok true
  | i :: l => m ← at_index ms i; if full_table_flush n m && negb (able_to_flush n m) then Ok false else no_pending_writer ms l
  end.

(** The loop of [FlushJob::BuildTable]; [None] for a key that does not parse. *)
Fixpoint build_loop (m : memtable n) (k : nat) (iter : ptr) (current_user_key : option (list Z)) : result (option TableData) :=
  match k with
  | O => Err OutOfFuel
  | S k =>
      if Valid iter then
        key ← iterator_key n m iter;
        ikey ← ParseInternalKey key;
        match ikey with
        | None => Ok None
        | Some ikey =>
            first ← match current_user_key with
              | None => Ok true
              | Some current => r ← InternalCompare (user_key ikey) current; Ok (negb (r =? 0))
              end;
            value ← iterator_value n m iter;
            next ← Iterator_Next (table n m) iter;
            rest ← build_loop m k next (if first : bool then Some (user_key ikey) else current_user_key);
            Ok (if first : bool then option_map (cons (key, value)) rest else rest)
        end
      else Ok (Some [])
  end.

(** [FlushJob::BuildTable]; a table whose keys do not parse is left without data.
    The input iterator of a single memtable is the one of the memtable; two
    memtables would fail the assertion of [TryInstallMemtableFlushResults]. *)
Definition BuildTable (ms : list (memtable n)) (mem_vec : list nat) : result TableData :=
  match mem_vec with
  | [] => Ok []
  | [i] => m ← at_index ms i; iter ← SeekToFirst (table n m); t ← build_loop m fuel iter None; Ok (default [] t)
  | _ => Err AssertionFailure
  end.

Definition mark_flushed (meta : TableData) (d : db) (i : nat) : result db :=
  '(_, d) ← on_table d i (λ m, m ← MarkFlushed n m; Ok (tt, m));
  Ok (MkDb (last_sequence_ d) (mems d) (mem_ d) (memlist_ d) (current_memtable_num_ d) (num_flush_not_started_ d)
    (<[i := meta]> (sstable d)) (files d) (draws d)).

(** The tables of the memtables that are flushed, from the oldest on. *)
Fixpoint finished_tables (d : db) (l : list nat) : result (list TableData) :=
  match l with
  | [] => Ok []
  | i :: l =>
      m ← at_index (mems d) i;
      if CheckFlushFinished n m then
        match sstable d !! i with
        | Some meta => rest ← finished_tables d l; Ok (meta :: rest)
        | None => Err AssertionFailure
        end
      else Ok []
  end.

(** The part of [TryInstallMemtableFlushResults] under the lock. *)
Definition install (d : db) : result db :=
  batch ← finished_tables d (reverse (memlist_ d));
  let batch_count := length batch in
  Ok (MkDb (last_sequence_ d) (mems d) (mem_ d) (take (length (memlist_ d) - batch_count) (memlist_ d))
    (u64 (current_memtable_num_ d - Z.of_nat batch_count)) (num_flush_not_started_ d) (sstable d) (files d ++ batch) (draws d)).

Definition flusher_step (d : db) (f : flusher) : result (db * flusher) :=
  match f with
  | FIdle => if IsFlushPending d then '(mem_vec, d) ← PickMemtablesToFlush d; Ok (d, Picked mem_vec) else Ok (d, FIdle)
  | Picked mem_vec => b ← no_pending_writer (mems d) mem_vec; Ok (d, if b : bool then Ready mem_vec else Picked mem_vec)
  | Ready mem_vec =>
      d ← for_tables d mem_vec (λ d i, set_state d i FLUSH_PROCESSING);
      meta ← BuildTable (mems d) mem_vec;
      Ok (d, Built mem_vec meta)
  | Built mem_vec meta =>
      require (bool_decide (mem_vec ≠ []));;
      require (bool_decide (length mem_vec ≤ 1)%nat);;
      d ← for_tables d mem_vec (mark_flushed meta);
      Ok (d, Marked)
  | Marked => d ← install d; Ok (d, FIdle)
  end.

(** ** Reads *)

(** What [InstallSuperVersion] keeps for readers: the current memtable and the
    list of immutable ones, at the end of a switch or of an installation. *)
Record SuperVersion := MkSuperVersion { sv_mem : nat; sv_imm : list nat }.

Definition super_version (d : db) : SuperVersion := MkSuperVersion (mem_ d) (memlist_ d).

(** [DBImpl::Get] as far as the memtables go, newest first: [None] where the
    key has to be looked up in the tables.  The super version is one that the
    thread has cached or that was the last, so one that was installed before. *)
Fixpoint GetFromList (ms : list (memtable n)) (l : list nat) (key : LookupKey) : result (option answer) :=
  match l with
  | [] => Ok None
  | i :: l => m ← at_index ms i; a ← Get n m fuel key; match a with Some a => Ok (Some a) | None => GetFromList ms l key end
  end.

Definition get_in_memory (d : db) (sv : SuperVersion) (key : list Z) (snapshot : Z) : result (option answer) :=
  lkey ← make_lookup key snapshot;
  m ← at_index (mems d) (sv_mem sv);
  a ← Get n m fuel lkey;
  match a with Some a => Ok (Some a) | None => GetFromList (mems d) (sv_imm sv) lkey end.

(** ** The system *)

(** [acked] lists the versions whose calls have returned. *)
Record sys := MkSys { database : db; writers : list writer; flushers : list flusher; acked : list version }.

Definition ack (w : writer) : list version := match w with Able u seq _ => [version_of seq u] | _ => [] end.

(** What a client may write: user keys of at least eight bytes.  The flush compares
    user keys as if they were internal keys, which takes the last eight bytes off
    and fails an assertion on shorter ones. *)
Definition write_ok (u : update) : Prop := update_ok n u ∧ (8 ≤ length (v_key (version_of 0 u)))%nat.

Inductive sys_step : sys → sys → Prop :=
| step_call d ws fs a j u :
    ws !! j = Some Idle → write_ok u → sys_step (MkSys d ws fs a) (MkSys d (<[j := Start u]> ws) fs a)
| step_writer d ws fs a j w level0 imm_num d' w' :
    ws !! j = Some w → w ≠ Idle → writer_step level0 imm_num d w = Ok (d', w') →
    sys_step (MkSys d ws fs a) (MkSys d' (<[j := w']> ws) fs (ack w ++ a))
| step_flusher d ws fs a j f d' f' :
    fs !! j = Some f → flusher_step d f = Ok (d', f') → sys_step (MkSys d ws fs a) (MkSys d' ws (<[j := f']> fs) a).

End db.

End WritePath.
Import WritePath.
