(* ===== verification/LsmFlush.v ===== *)
(** * dLSM: the table that a flush builds

    [FlushJob::BuildTable] walks over a memtable and keeps the first entry of
    every user key.  Entries are in the order of the internal keys, so what is
    kept is the newest version of every key. *)
From stdpp Require Import strings gmap.
From S2P Require Import Prelude KVConfig LsmCoding LsmFile LsmFormat LsmBatch InlineSkipList SkipListShape LsmMemTable LsmRecovery LsmWrite.
Import Coding Format WriteBatch InlineSkipList MemTable Recovery WritePath.

#[export] Instance ValueType_eq_dec : EqDecision ValueType.
Proof. solve_decision. Defined.
#[export] Instance version_eq_dec : EqDecision version.
Proof. solve_decision. Defined.

Definition entries {n} (m : memtable n) : list (list Z) := proj1_sig <$> contents (table n m).

(** The internal key and the value of an entry. *)
Definition entry_kv (e : list Z) : list Z * list Z := (decode_key e, (GetLengthPrefixedPtr (GetLengthPrefixedPtr e).2).1).

Fixpoint keep_first (current : option (list Z)) (l : list (list Z)) : list (list Z) :=
  match l with
  | [] => []
  | e :: l =>
      if bool_decide (current = Some (entry_user_key e)) then keep_first current l
      else e :: keep_first (Some (entry_user_key e)) l
  end.

Definition flushed {n} (m : memtable n) : TableData := entry_kv <$> keep_first None (entries m).

(** ** User keys compared as internal keys *)

Lemma InternalCompare_zero (a b : list Z) :
  Forall byte a → Forall byte b → (8 ≤ length a)%nat → (8 ≤ length b)%nat →
  ∃ r, InternalCompare a b = Ok r ∧ (r =? 0) = bool_decide (a = b).
Proof.
  intros Ha Hb Hla Hlb. destruct (internal_form a Ha Hla) as (u & x & -> & Hx & _).
  destruct (internal_form b Hb Hlb) as (v & y & -> & Hy & _). rewrite InternalCompare_internal by done. eexists. split; [done|].
  destruct (Z.eqb_spec (Compare u v) 0) as [->%Compare_eq|Hne].
  - destruct (Z.ltb_spec y x), (Z.ltb_spec x y); try lia;
      (rewrite bool_decide_eq_true_2 by (f_equal; lia); done) || (rewrite bool_decide_eq_false_2; [done|]).
    all: intros E%(f_equal key_tag); rewrite !key_tag_internal in E by done; injection E; lia.
  - rewrite (proj2 (Z.eqb_neq _ _)) by done. rewrite bool_decide_eq_false_2; [done|].
    intros E%(f_equal ExtractUserKey). rewrite !ExtractUserKey_internal in E. injection E as ->. by rewrite Compare_refl in Hne.
Qed.

Lemma entry_user_key_version n v : version_ok n v → entry_user_key (version_bytes v) = v_key v.
Proof.
  intros Hv. unfold entry_user_key. rewrite (decode_key_version n v Hv), length_internal, Nat.add_sub. apply take_app_length.
Qed.

Lemma ParseInternalKey_version n v :
  version_ok n v → ParseInternalKey (internal (v_key v) (v_tag v)) = Ok (Some (MkParsed (v_key v) (v_seq v) (v_type v))).
Proof.
  intros Hv. unfold ParseInternalKey. rewrite length_internal, (proj2 (Nat.ltb_ge _ _)) by lia.
  rewrite key_tag_internal by (by eapply v_tag_fits). cbn [mbind result_bind].
  assert (Z.land (v_tag v) 0xff = type_num (v_type v)) as ->.
  { change 0xff with (Z.ones 8). rewrite Z.land_ones by lia. unfold v_tag. rewrite Z.add_comm, Z_mod_plus_full. by destruct (v_type v). }
  assert (Z.shiftr (v_tag v) 8 = v_seq v) as ->.
  { rewrite Z.shiftr_div_pow2 by lia. unfold v_tag. change (2 ^ 8) with 256.
    rewrite Z.div_add_l, Z.div_small by (done || by destruct (v_type v)). apply Z.add_0_r. }
  rewrite Nat.add_sub. unfold internal. rewrite take_app_length. by destruct (v_type v).
Qed.

(** ** The loop *)

Section build.
Context {n : nat} (m : memtable n) (vs : list version) (L : nat → list nat).
Context (Hrel : mem_rel n m vs) (Hs : shape (table n m) L) (Hlong : Forall (λ v, 8 ≤ length (v_key v))%nat vs).

Lemma entry_at j p :
  L 0%nat !! j = Some p → ∃ v, v ∈ vs ∧ entries m !! j = Some (version_bytes v) ∧
    iterator_key n m (Some p) = Ok (internal (v_key v) (v_tag v)) ∧ iterator_value n m (Some p) = Ok (entry_kv (version_bytes v)).2.
Proof using Hrel Hs.
  intros Hp. destruct (sh_keys _ _ Hs p) as [e He]; [by eapply list_elem_of_lookup_2|].
  assert (contents (table n m) !! j = Some e) as Hc.
  { rewrite (contents_shape _ L Hs), (lookup_keys _ _ _ (sh_keys _ _ Hs)), Hp. done. }
  destruct (contents_version n m vs e Hrel) as (v & Hv & Ev); [by eapply list_elem_of_lookup_2|]. exists v. split; [done|].
  pose proof (proj1 (Forall_forall _ _) (mr_ok _ _ _ Hrel) v Hv) as Hok.
  split; [unfold entries; rewrite list_lookup_fmap; exact (eq_trans (f_equal (fmap proj1_sig) Hc) (f_equal Some Ev))|].
  assert (Iterator_key (table n m) (Some p) = Ok e) as Ek.
  { unfold Iterator_key, Key, at_index. unfold key_of in He. destruct (heap (table n m) !! p) as [nd|]; [|done]. cbn in *. by rewrite He. }
  unfold iterator_key, iterator_value. rewrite Ek. cbn [mbind result_bind]. rewrite Ev. split; [|done].
  f_equal. by apply (decode_key_version n).
Qed.

Lemma build_loop_ok k j cur :
  (length (entries m) - j < k)%nat → (∀ c, cur = Some c → Forall byte c ∧ (8 ≤ length c)%nat) →
  build_loop n m k (L 0%nat !! j) cur = Ok (Some (entry_kv <$> keep_first cur (drop j (entries m)))).
Proof using Hrel Hs Hlong.
  revert j cur. induction k as [|k IH]; intros j cur Hk Hcur; [lia|]. cbn [build_loop].
  assert (length (entries m) = length (L 0%nat)) as Hlen.
  { unfold entries. rewrite length_fmap, (contents_shape _ L Hs), <- (length_fmap rank), keys_rank by apply (sh_keys _ _ Hs). apply length_fmap. }
  destruct (L 0%nat !! j) as [p|] eqn:Hp; cycle 1.
  { rewrite drop_ge; [done|]. apply lookup_ge_None in Hp. lia. }
  destruct (entry_at j p Hp) as (v & Hv & He & Ek & Ev). pose proof (proj1 (Forall_forall _ _) (mr_ok _ _ _ Hrel) v Hv) as Hok.
  pose proof (proj1 (Forall_forall _ _) Hlong v Hv) as H8. cbn in H8.
  cbn [Valid]. rewrite Ek. cbn [mbind result_bind]. rewrite (ParseInternalKey_version n v Hok). cbn [mbind result_bind user_key].
  rewrite Ev, (Iterator_Next_spec _ L Hs j p Hp), (drop_S _ _ _ He). cbn [keep_first]. rewrite (entry_user_key_version n v Hok).
  assert (match cur with None => Ok true | Some c => r ← InternalCompare (v_key v) c; Ok (negb (r =? 0)) end =
    Ok (negb (bool_decide (cur = Some (v_key v))))) as ->.
  { destruct cur as [c|]; [|by rewrite bool_decide_eq_false_2]. destruct (Hcur c eq_refl) as [Hb Hc].
    destruct (InternalCompare_zero (v_key v) c) as (r & -> & E); [apply Hok|done|done|done|]. cbn. rewrite E. do 2 f_equal.
    apply bool_decide_ext. naive_solver. }
  cbn [mbind result_bind]. pose proof (lookup_lt_Some _ _ _ Hp). case_bool_decide as Hc; cbn [negb].
  - rewrite IH by (done || lia). done.
  - rewrite IH; [|lia|intros c [= <-]; split; [apply Hok|done]]. cbn [option_map fmap list_fmap mbind result_bind]. unfold entry_kv at 1 3. by rewrite (decode_key_version n v Hok).
Qed.

End build.

Lemma BuildTable_ok n fuel ms i m vs :
  ms !! i = Some m → mem_rel n m vs → Forall (λ v, 8 ≤ length (v_key v))%nat vs → (length vs < fuel)%nat →
  BuildTable n fuel ms [i] = Ok (flushed m).
Proof.
  intros Hm Hrel Hlong Hf. destruct (mr_shape _ _ _ Hrel) as [L Hs]. cbn [BuildTable]. unfold at_index. rewrite Hm. cbn [mbind result_bind].
  rewrite (SeekToFirst_spec _ L Hs). cbn [mbind result_bind]. rewrite (build_loop_ok m vs L Hrel Hs Hlong); [done| |done].
  pose proof (Permutation_length (mr_contents _ _ _ Hrel)) as Hl. rewrite (length_fmap version_bytes) in Hl. unfold entries. lia.
Qed.

(** ** What is kept *)

Definition kv_of (v : version) : list Z * list Z := (internal (v_key v) (v_tag v), v_value v).

Lemma entry_kv_version n v : version_ok n v → entry_kv (version_bytes v) = kv_of v.
Proof.
  intros Hv. unfold entry_kv, kv_of. rewrite (decode_key_version n v Hv). f_equal. unfold version_bytes.
  assert (len (v_key v) + 8 = len (internal (v_key v) (v_tag v))) as El by (unfold len; rewrite length_internal; lia).
  pose proof (ok_key_len _ _ Hv). rewrite El, GetLengthPrefixedPtr_put by lia. cbn. rewrite <- (app_nil_r (v_value v)) at 2.
  by rewrite GetLengthPrefixedPtr_put by apply Hv.
Qed.

Fixpoint keep_newest (current : option (list Z)) (vs : list version) : list version :=
  match vs with
  | [] => []
  | v :: vs => if bool_decide (current = Some (v_key v)) then keep_newest current vs else v :: keep_newest (Some (v_key v)) vs
  end.

Lemma keep_first_newest n cur vs :
  Forall (version_ok n) vs → entry_kv <$> keep_first cur (version_bytes <$> vs) = kv_of <$> keep_newest cur vs.
Proof.
  intros Hok. revert cur. induction Hok as [|v vs Hv Hok IH]; intros cur; [done|]. cbn. rewrite (entry_user_key_version n v Hv).
  case_bool_decide; [apply IH|]. cbn. by rewrite IH, (entry_kv_version n v Hv).
Qed.

(** ** Versions in the order of the table *)

Section order.
Context (n : nat).
#[local] Notation key_rank v := (lexrank n (v_key v)).

Lemma rank_v_key v w : version_ok n v → version_ok n w → rank_v n v < rank_v n w → key_rank v ≤ key_rank w.
Proof.
  intros Hv Hw. rewrite !rank_v_eq by done. pose proof (v_tag_fits n v Hv) as Tv. pose proof (v_tag_fits n w Hw) as Tw.
  unfold fits in Tv, Tw. nia.
Qed.

Lemma key_rank_inj v w : version_ok n v → version_ok n w → key_rank v = key_rank w → v_key v = v_key w.
Proof. intros Hv Hw. apply lexrank_inj; try apply Hv; apply Hw. Qed.

(** The versions after a key has been seen whose rank is at least [r]. *)
Lemma keep_newest_spec cur vs :
  Forall (version_ok n) vs → ascending (rank_v n) vs → (∀ c v, cur = Some c → v ∈ vs → lexrank n c ≤ key_rank v) →
  (∀ v, v ∈ keep_newest cur vs ↔ v ∈ vs ∧ cur ≠ Some (v_key v) ∧ ∀ w, w ∈ vs → v_key w = v_key v → rank_v n v ≤ rank_v n w) ∧
  ascending (λ v, key_rank v) (keep_newest cur vs).
Proof.
  intros Hok Hasc. revert cur. induction Hasc as [|v vs Hasc IH Hv]; intros cur Hcur.
  { split; [|constructor]. intros v. cbn. split; [intros H|intros [H _]]; by apply not_elem_of_nil in H. }
  apply Forall_cons in Hok as [Hok Hoks]. rewrite Forall_forall in Hv, Hoks. rewrite <- Forall_forall in Hoks. cbn [keep_newest].
  case_bool_decide as Hc.
  - destruct (IH Hoks cur) as [H1 H2]; [intros c w E Hw; apply Hcur; [done|by right]|]. split; [|done]. intros x. rewrite H1.
    split; intros (Hx & Hne & Hmin); split_and!; try done.
    + by right.
    + intros w [->|Hw]%elem_of_cons E; [congruence|by apply Hmin].
    + by apply elem_of_cons in Hx as [->|].
    + intros w Hw. apply Hmin. by right.
  - destruct (IH Hoks (Some (v_key v))) as [H1 H2].
    { intros c w [= <-] Hw. apply rank_v_key; [done|by eapply Forall_forall in Hoks|by apply Hv]. }
    split; [|constructor; [done|]].
    + intros x. rewrite elem_of_cons, H1. split.
      * intros [->|(Hx & Hne & Hmin)].
        { split; [by left|]. split; [done|]. intros w [->|Hw]%elem_of_cons _; [done|]. specialize (Hv w Hw). lia. }
        split; [by right|]. split.
        { intros E. pose proof (Hcur _ v E (list_elem_of_here _ _)) as Hle. pose proof (proj1 (Forall_forall _ _) Hoks x Hx) as Hokx.
          pose proof (rank_v_key v x Hok Hokx (Hv x Hx)) as Hge. apply Hne. f_equal. apply key_rank_inj; [done|done|lia]. }
        intros w [->|Hw]%elem_of_cons E; [congruence|by apply Hmin].
      * intros (Hx & Hne & Hmin). apply elem_of_cons in Hx as [->|Hx]; [by left|right]. split; [done|]. split.
        { intros [= E]. specialize (Hmin v (list_elem_of_here _ _) E). specialize (Hv x Hx). lia. }
        intros w Hw. apply Hmin. by right.
    + apply Forall_forall. intros x (Hx & Hne & _)%H1. pose proof (proj1 (Forall_forall _ _) Hoks x Hx) as Hokx.
      pose proof (rank_v_key v x Hok Hokx (Hv x Hx)). destruct (decide (key_rank v = key_rank x)) as [E|]; [|lia].
      destruct Hne. f_equal. by apply key_rank_inj.
Qed.

(** The table has the newest version of every key of the memtable, in the order
    of the keys, and nothing else. *)
Lemma flushed_spec m vs :
  mem_rel n m vs → distinct vs →
  ∃ ks, flushed m = kv_of <$> ks ∧ ascending (λ v, key_rank v) ks ∧
    ∀ v, v ∈ ks ↔ newest (v_key v) kMaxSequenceNumber vs = Some v.
Proof.
  intros Hrel Hd. destruct (mr_shape _ _ _ Hrel) as [L Hs].
  destruct (Permutation_map_inv version_bytes vs (mr_contents _ _ _ Hrel)) as (ws & Ews & P).
  assert (Forall (version_ok n) ws) as Hok by (rewrite <- P; apply (mr_ok _ _ _ Hrel)).
  assert (ascending (rank_v n) ws) as Hasc.
  { pose proof (contents_ascending _ L Hs) as Ha. apply ascending_fmap. apply ascending_fmap in Ha.
    replace (rank_v n <$> ws) with (rank <$> contents (table n m)); [done|].
    change (map version_bytes ws) with (version_bytes <$> ws) in Ews.
    transitivity (entry_rank n <$> (proj1_sig <$> contents (table n m))); [by rewrite <- list_fmap_compose|].
    rewrite Ews, <- list_fmap_compose. done. }
  destruct (keep_newest_spec None ws Hok Hasc) as [Hin Hsort]; [done|].
  exists (keep_newest None ws). split; [|split; [done|]].
  - unfold flushed, entries. rewrite Ews. by apply (keep_first_newest n).
  - intros v. rewrite Hin. setoid_rewrite <- P. rewrite Forall_forall in Hok. setoid_rewrite <- P in Hok. split.
    + intros (Hv & _ & Hmin). pose proof (Hok v Hv) as Hv'. apply newest_eq; try done; [split; [done|apply Hv']|].
      intros w Hw [Ek _]. specialize (Hmin w Hw Ek). rewrite !rank_v_eq, Ek in Hmin by auto. unfold v_tag in Hmin.
      destruct (v_type v), (v_type w); cbn in Hmin; lia.
    + intros E. pose proof (newest_spec (v_key v) kMaxSequenceNumber vs) as H. rewrite E in H. destruct H as (Hv & _ & Hmax).
      split; [done|]. split; [done|]. intros w Hw Ek. destruct (decide (w = v)) as [->|Hne]; [done|].
      assert (v_seq w ≤ v_seq v) as Hle by (apply Hmax; [done|split; [done|apply Hok, Hw]]).
      assert (v_seq w ≠ v_seq v) by (intros ?; apply Hne; by apply (distinct_eq vs)).
      rewrite !rank_v_eq, Ek by auto. unfold v_tag. destruct (v_type v), (v_type w); cbn; lia.
Qed.

(** A version that is not newer than one of the table with the same key. *)
Definition superseded (f : TableData) (v : version) : Prop :=
  ∃ v', kv_of v' ∈ f ∧ v_key v' = v_key v ∧ v_seq v ≤ v_seq v'.

Lemma flushed_superseded m vs v : mem_rel n m vs → distinct vs → v ∈ vs → superseded (flushed m) v.
Proof.
  intros Hrel Hd Hv. destruct (flushed_spec m vs Hrel Hd) as (ks & -> & _ & Hks).
  pose proof (proj1 (Forall_forall _ _) (mr_ok _ _ _ Hrel) v Hv) as Hok.
  assert (visible (v_key v) kMaxSequenceNumber v) as Hvis by (split; [done|apply Hok]).
  pose proof (newest_spec (v_key v) kMaxSequenceNumber vs) as H. destruct (newest _ _ vs) as [v'|] eqn:E; [|by destruct (H v Hv)].
  destruct H as (Hv' & [Ek _] & Hmax). exists v'. split; [|auto]. apply list_elem_of_fmap. exists v'. split; [done|].
  apply Hks. by rewrite Ek.
Qed.

End order.
