(* ===== verification/LsmWriteSafety.v ===== *)
(** * dLSM: no write is lost

    The invariant of the write path of [LsmWrite]: every sequence number handed
    out is either held by a writer that has not inserted yet, or in the memtable
    whose range holds it; a flush job builds a table only from a memtable that
    has all numbers of its range. *)
From stdpp Require Import strings gmap.
From S2P Require Import Prelude KVConfig LsmCoding LsmFile LsmFormat LsmBatch InlineSkipList SkipListShape LsmMemTable LsmRecovery LsmWrite LsmFlush.
Import Coding Format WriteBatch InlineSkipList MemTable Recovery WritePath.

#[local] Notation SZ := MEMTABLE_SEQ_SIZE.

(** The first number of a memtable. *)
Definition base (i : nat) : Z := SZ * Z.of_nat i.

Ltac szlia := unfold base, MEMTABLE_SEQ_SIZE in *; lia.

(** ** Lists *)

Lemma omap_insert_perm {A B} (f : A → option B) (l : list A) j x y :
  l !! j = Some x → option_list (f y) ++ omap f l ≡ₚ option_list (f x) ++ omap f (<[j := y]> l).
Proof.
  intros Hj. rewrite <- (take_drop_middle l j x Hj) at 1. rewrite insert_take_drop by (by eapply lookup_lt_Some).
  rewrite !omap_app. cbn. destruct (f x), (f y); cbn; solve_Permutation.
Qed.

Lemma omap_insert_same {A B} (f : A → option B) (l : list A) j x y :
  l !! j = Some x → f y = f x → omap f (<[j := y]> l) ≡ₚ omap f l.
Proof. intros Hj E. pose proof (omap_insert_perm f l j x y Hj) as P. rewrite E in P. by apply Permutation_app_inv_l in P. Qed.

Lemma elem_of_insert {A} (l : list A) j x y : y ∈ <[j := x]> l → y = x ∨ y ∈ l.
Proof.
  intros (i & Hi)%list_elem_of_lookup. apply list_lookup_insert_Some in Hi as [(_ & -> & _)|[_ Hi]]; [by left|right].
  by apply list_elem_of_lookup_2 in Hi.
Qed.

Lemma filter_same {A} (f g : A → bool) (l : list A) :
  (∀ x, x ∈ l → f x = g x) → filter (λ x, f x = true) l = filter (λ x, g x = true) l.
Proof.
  induction l as [|x l IH]; intros H; [done|]. rewrite !filter_cons, IH by (intros y Hy; apply H; by right).
  by rewrite (H x) by left.
Qed.

Lemma filter_none {A} (f : A → bool) (l : list A) : (∀ x, x ∈ l → f x = false) → filter (λ x, f x = true) l = [].
Proof.
  induction l as [|x l IH]; intros H; [done|]. rewrite filter_cons_False by (rewrite (H x) by left; done).
  apply IH. intros y Hy. apply H. by right.
Qed.

Lemma concat_insert {A} (ls : list (list A)) i l l' :
  ls !! i = Some l → concat (<[i := l']> ls) ++ l ≡ₚ concat ls ++ l'.
Proof.
  intros Hi. rewrite <- (take_drop_middle ls i l Hi) at 2. rewrite insert_take_drop by (by eapply lookup_lt_Some).
  rewrite !concat_app. cbn [concat]. solve_Permutation.
Qed.

#[local] Instance update_eq_dec : EqDecision update.
Proof. solve_decision. Defined.
#[local] Instance writer_eq_dec : EqDecision writer.
Proof. solve_decision. Defined.

Lemma elem_of_insert_other {A} (l : list A) j x y z : l !! j = Some y → x ∈ l → x ≠ y → x ∈ <[j := z]> l.
Proof.
  intros Hj (i & Hi)%list_elem_of_lookup Hne. apply (list_elem_of_lookup_2 _ i). rewrite list_lookup_insert_ne; [done|congruence].
Qed.

(** ** What the threads hold *)

(** A number that has been handed out and not been inserted. *)
Definition pending (w : writer) : option Z :=
  match w with
  | Idle | Start _ | Increase _ _ _ | Check _ _ _ | Able _ _ _ => None
  | Reload _ seq _ | Loop _ seq _ _ | Wait _ seq _ | Switch _ seq _ | Find _ seq _ | Insert _ seq _ => Some seq
  end.

(** A memtable with an insertion that has not been counted. *)
Definition at_increase (w : writer) : option nat := match w with Increase _ _ i => Some i | _ => None end.

Definition uncounted (ws : list writer) (i : nat) : Z := len (filter (λ x, x = i) (omap at_increase ws)).

(** The memtable that a flush job has picked. *)
Definition held (f : flusher) : list nat :=
  match f with Picked l | Ready l | Built l _ => l | FIdle | Marked => [] end.

Definition update_of (w : writer) : option update :=
  match w with
  | Idle => None
  | Start u | Reload u _ _ | Loop u _ _ _ | Wait u _ _ | Switch u _ _ | Find u _ _ | Insert u _ _ | Increase u _ _ | Check u _ _ | Able u _ _ => Some u
  end.

(** A version that has been inserted by a call that has not returned. *)
Definition inserted (w : writer) : list version :=
  match w with Increase u seq _ | Check u seq _ | Able u seq _ => [version_of seq u] | _ => [] end.

(** The call that made a version has returned, or is about to. *)
Definition finished (a : list version) (ws : list writer) (v : version) : Prop := v ∈ a ∨ ∃ w, w ∈ ws ∧ inserted w = [v].

Section invariant.
Context (n : nat).

Definition requested (ms : list (memtable n)) (i : nat) : bool :=
  match ms !! i with Some m => CheckFlush_Requested n m | None => false end.

Record table_ok (d : db n) (ws : list writer) (i : nat) (m : memtable n) (vs : list version) : Prop := {
  to_rel : mem_rel n m vs;
  to_first : first_seq n m = Some (base i);
  to_largest : largest_seq_supposed n m = Some (base i + SZ - 1);
  to_full : full_table_flush n m = true;
  to_range : Forall (λ v, base i ≤ v_seq v < base i + SZ) vs;
  to_count : seq_count n m + uncounted ws i = len vs;
  to_able : able_to_flush n m = true → seq_count n m = SZ;
  to_current : i = mem_ n d ↔ flush_state n m = FLUSH_NOT_REQUESTED;
  to_installed : (i < length (files n d))%nat → flush_state n m = FLUSH_FINISHED;
  to_finished : flush_state n m = FLUSH_FINISHED → able_to_flush n m = true ∧ sstable n d !! i = Some (flushed m);
  to_pos : 0 ≤ seq_count n m;
  to_keys : Forall (λ v, 8 ≤ length (v_key v))%nat vs;
}.

Definition writer_ok (d : db n) (vss : list (list version)) (w : writer) : Prop :=
  match w with
  | Loop _ _ i _ => (i ≤ mem_ n d)%nat
  | Find _ seq o => ∃ i, o = Some i ∧ (i ≤ mem_ n d)%nat ∧ seq < base i + SZ
  | Insert _ seq i => (i ≤ mem_ n d)%nat ∧ base i ≤ seq < base i + SZ
  | Increase u seq i | Check u seq i | Able u seq i => (i ≤ mem_ n d)%nat ∧ ∃ vs, vss !! i = Some vs ∧ version_of seq u ∈ vs
  | _ => True
  end.

Definition flusher_ok (d : db n) (f : flusher) : Prop :=
  match f with
  | FIdle | Marked => True
  | Picked l => ∃ i m, l = [i] ∧ mems n d !! i = Some m ∧ flush_state n m = FLUSH_PROCESSING
  | Ready l => ∃ i m, l = [i] ∧ mems n d !! i = Some m ∧ flush_state n m = FLUSH_PROCESSING ∧ able_to_flush n m = true
  | Built l sst => ∃ i m, l = [i] ∧ mems n d !! i = Some m ∧ flush_state n m = FLUSH_PROCESSING ∧ able_to_flush n m = true ∧ sst = flushed m
  end.

Record inv (d : db n) (ws : list writer) (fs : list flusher) (a : list version) (vss : list (list version)) : Prop := {
  iv_mems : length (mems n d) = S (mem_ n d);
  iv_vss : length vss = S (mem_ n d);
  iv_tables : ∀ i m vs, mems n d !! i = Some m → vss !! i = Some vs → table_ok d ws i m vs;
  iv_installed : (length (files n d) ≤ mem_ n d)%nat;
  iv_memlist : memlist_ n d = reverse (seq (length (files n d)) (mem_ n d - length (files n d)));
  iv_number : current_memtable_num_ n d = len (memlist_ n d);
  iv_requested : num_flush_not_started_ n d = len (filter (λ i, requested (mems n d) i = true) (memlist_ n d));
  iv_seqs : omap pending ws ++ (v_seq <$> concat vss) ≡ₚ seqZ 0 (last_sequence_ n d);
  iv_bounds : 0 ≤ last_sequence_ n d ≤ kMaxSequenceNumber;
  iv_current : mem_ n d = 0%nat ∨ base (mem_ n d) < last_sequence_ n d;
  iv_threads : len ws ≤ SZ;
  iv_writers : ∀ w, w ∈ ws → writer_ok d vss w;
  iv_updates : ∀ w u, w ∈ ws → update_of w = Some u → write_ok n u;
  iv_flushers : ∀ f, f ∈ fs → flusher_ok d f;
  iv_held : NoDup (fs ≫= held);
  iv_files : ∀ j f m, files n d !! j = Some f → mems n d !! j = Some m → f = flushed m;
  iv_acked : ∀ v, v ∈ a → ∃ i vs, vss !! i = Some vs ∧ v ∈ vs;
  iv_small : len (memlist_ n d) ≤ Immutable_StopWritesTrigger + 1;
  iv_written : ∀ i vs v, vss !! i = Some vs → v ∈ vs → finished a ws v;
}.

End invariant.

(** ** Consequences *)

Lemma uncounted_perm ws ws' i : omap at_increase ws ≡ₚ omap at_increase ws' → uncounted ws i = uncounted ws' i.
Proof. intros P. unfold uncounted, len. by rewrite P. Qed.

Lemma uncounted_cons ws ws' i j :
  j :: omap at_increase ws ≡ₚ omap at_increase ws' → uncounted ws' i = (if decide (j = i) then 1 else 0) + uncounted ws i.
Proof.
  intros P. unfold uncounted, len. rewrite <- P, filter_cons. destruct (decide (j = i)); cbn; lia.
Qed.

Section facts.
Context {n : nat} {d : db n} {ws : list writer} {fs : list flusher} {a : list version} {vss : list (list version)}.
Context (I : inv n d ws fs a vss).

Lemma table_at i : (i ≤ mem_ n d)%nat → ∃ m vs, mems n d !! i = Some m ∧ vss !! i = Some vs ∧ table_ok n d ws i m vs.
Proof.
  intros Hi. destruct (lookup_lt_is_Some_2 (mems n d) i) as [m Hm]; [rewrite (iv_mems _ _ _ _ _ _ I); lia|].
  destruct (lookup_lt_is_Some_2 vss i) as [vs Hvs]; [rewrite (iv_vss _ _ _ _ _ _ I); lia|].
  exists m, vs. split_and!; [done|done|by apply (iv_tables _ _ _ _ _ _ I)].
Qed.

Lemma at_table i m : mems n d !! i = Some m → (i ≤ mem_ n d)%nat ∧ ∃ vs, vss !! i = Some vs ∧ table_ok n d ws i m vs.
Proof.
  intros Hm. assert (i ≤ mem_ n d)%nat as Hi by (apply lookup_lt_Some in Hm; rewrite (iv_mems _ _ _ _ _ _ I) in Hm; lia).
  destruct (table_at i Hi) as (m' & vs & Hm' & Hvs & T). simplify_eq. eauto.
Qed.

Lemma base_bound i : (i ≤ mem_ n d)%nat → 0 ≤ base i ≤ 2 ^ 56.
Proof.
  intros Hi. pose proof (iv_bounds _ _ _ _ _ _ I) as Hb. change kMaxSequenceNumber with (2 ^ 56 - 1) in Hb.
  destruct (iv_current _ _ _ _ _ _ I); szlia.
Qed.

Lemma table_range i m vs : (i ≤ mem_ n d)%nat → table_ok n d ws i m vs →
  GetFirstseq n m = Ok (base i) ∧ Getlargest_seq_supposed n m = Ok (base i + SZ - 1) ∧
  ∀ seq, in_range n m seq = Ok ((base i <=? seq) && (seq <=? base i + SZ - 1)).
Proof.
  intros Hi T. pose proof (base_bound i Hi). unfold in_range, GetFirstseq, Getlargest_seq_supposed.
  rewrite (to_first _ _ _ _ _ _ T), (to_largest _ _ _ _ _ _ T). cbn [initialised mbind result_bind].
  rewrite !wrap_small by (split; szlia). done.
Qed.

(** ** Sequence numbers *)

Lemma seqs_NoDup : NoDup (omap pending ws ++ (v_seq <$> concat vss)).
Proof. rewrite (iv_seqs _ _ _ _ _ _ I). apply NoDup_seqZ. Qed.

Lemma pending_range w seq : w ∈ ws → pending w = Some seq → 0 ≤ seq < last_sequence_ n d.
Proof.
  intros Hw Hp. enough (seq ∈ seqZ 0 (last_sequence_ n d)) as H%elem_of_seqZ by lia.
  rewrite <- (iv_seqs _ _ _ _ _ _ I). apply elem_of_app. left. apply list_elem_of_omap. eauto.
Qed.

Lemma pending_not_written w seq v : w ∈ ws → pending w = Some seq → v ∈ concat vss → v_seq v ≠ seq.
Proof.
  intros Hw Hp Hv E. pose proof seqs_NoDup as (_ & H & _)%NoDup_app. apply (H seq).
  - apply list_elem_of_omap. eauto.
  - apply list_elem_of_fmap. eauto.
Qed.

Lemma elem_of_vss i vs v : vss !! i = Some vs → v ∈ vs → v ∈ concat vss.
Proof. intros Hi Hv. apply elem_of_concat. exists vs. split; [done|by eapply list_elem_of_lookup_2]. Qed.

Lemma vs_NoDup i vs : vss !! i = Some vs → NoDup (v_seq <$> vs).
Proof.
  intros Hi. pose proof seqs_NoDup as (_ & _ & H)%NoDup_app. rewrite <- (take_drop_middle vss i vs Hi) in H.
  rewrite concat_app in H. cbn [concat] in H. rewrite !fmap_app in H. apply NoDup_app in H as (_ & _ & H).
  by apply NoDup_app in H as (H & _ & _).
Qed.

Lemma vs_submseteq i m vs : vss !! i = Some vs → table_ok n d ws i m vs → v_seq <$> vs ⊆+ seqZ (base i) SZ.
Proof.
  intros Hi T. apply NoDup_submseteq; [by eapply vs_NoDup|]. intros x (v & -> & Hv)%list_elem_of_fmap.
  apply elem_of_seqZ. pose proof (proj1 (Forall_forall _ _) (to_range _ _ _ _ _ _ T) v Hv). cbn in *. lia.
Qed.

Lemma vs_length i m vs : vss !! i = Some vs → table_ok n d ws i m vs → len vs ≤ SZ.
Proof.
  intros Hi T. pose proof (submseteq_length _ _ (vs_submseteq i m vs Hi T)) as H.
  rewrite length_fmap, length_seqZ in H. unfold len. szlia.
Qed.

Lemma vs_full i m vs :
  vss !! i = Some vs → table_ok n d ws i m vs → able_to_flush n m = true → v_seq <$> vs ≡ₚ seqZ (base i) SZ.
Proof.
  intros Hi T Ha. apply submseteq_length_Permutation; [by eapply vs_submseteq|]. rewrite length_fmap, length_seqZ.
  pose proof (to_count _ _ _ _ _ _ T) as Hc. rewrite (to_able _ _ _ _ _ _ T Ha) in Hc.
  assert (0 ≤ uncounted ws i) by (unfold uncounted, len; lia). unfold len in Hc. lia.
Qed.

(** A memtable that a writer has not written yet cannot be flushed. *)
Lemma pending_not_able i m vs w seq :
  vss !! i = Some vs → table_ok n d ws i m vs → w ∈ ws → pending w = Some seq → base i ≤ seq < base i + SZ →
  able_to_flush n m = false ∧ CheckFlushFinished n m = false ∧ (length (files n d) ≤ i)%nat ∧ len vs < SZ.
Proof.
  intros Hi T Hw Hp Hr.
  assert (~ v_seq <$> vs ≡ₚ seqZ (base i) SZ) as Hnot.
  { intros P. assert (seq ∈ v_seq <$> vs) as (v & -> & Hv)%list_elem_of_fmap by (rewrite P; apply elem_of_seqZ; lia).
    by apply (pending_not_written w _ v Hw Hp); [eapply elem_of_vss|]. }
  assert (able_to_flush n m = false) as Ha.
  { destruct (able_to_flush n m) eqn:E; [|done]. destruct Hnot. by eapply vs_full. }
  assert (flush_state n m ≠ FLUSH_FINISHED) as Hf.
  { intros E. destruct (to_finished _ _ _ _ _ _ T E). congruence. }
  split; [done|]. split; [by apply bool_decide_eq_false_2|]. split.
  - destruct (decide (length (files n d) ≤ i)%nat) as [|Hk]; [done|]. destruct Hf. apply (to_installed _ _ _ _ _ _ T). lia.
  - pose proof (vs_length i m vs Hi T). destruct (decide (len vs = SZ)) as [E|]; [|lia]. destruct Hnot.
    apply submseteq_length_Permutation; [by eapply vs_submseteq|]. rewrite length_fmap, length_seqZ. unfold len in E. lia.
Qed.

Lemma requested_length : num_flush_not_started_ n d ≤ len (memlist_ n d).
Proof.
  rewrite (iv_requested _ _ _ _ _ _ I). unfold len. pose proof (length_filter (λ i, requested n (mems n d) i = true) (memlist_ n d)). lia.
Qed.

Lemma in_memlist i : i ∈ memlist_ n d ↔ (length (files n d) ≤ i < mem_ n d)%nat.
Proof. rewrite (iv_memlist _ _ _ _ _ _ I), elem_of_reverse, elem_of_seq. pose proof (iv_installed _ _ _ _ _ _ I). lia. Qed.

Lemma Pick_belong i seq l :
  (∀ j, j ∈ l → (j ≤ mem_ n d)%nat) → i ∈ l → base i ≤ seq < base i + SZ → PickMemtablesSeqBelong n (mems n d) l seq = Ok (Some i).
Proof.
  intros Hl Hi Hr. induction l as [|j l IH]; [by apply not_elem_of_nil in Hi|]. cbn [PickMemtablesSeqBelong].
  destruct (table_at j) as (m & vs & Hm & _ & T); [apply Hl; by left|]. unfold at_index. rewrite Hm. cbn [mbind result_bind].
  destruct (table_range j m vs) as (_ & _ & Hin); [apply Hl; by left|done|]. rewrite Hin. cbn [mbind result_bind].
  destruct (decide (j = i)) as [->|Hne].
  - by rewrite (proj2 (Z.leb_le _ _)), (proj2 (Z.leb_le _ _)) by lia.
  - replace (_ && _) with false; [apply IH; [intros j' Hj'; apply Hl; by right|]|].
    + by apply elem_of_cons in Hi as [->|].
    + symmetry. apply andb_false_iff. rewrite !Z.leb_gt. destruct (decide (j < i)%nat); [right|left]; szlia.
Qed.

End facts.

(** ** Steps of writers *)

Section writer_steps.
Context (n fuel : nat) (heights : nat → nat).

Lemma finished_move a ws j w w' v :
  ws !! j = Some w → (inserted w = [] ∨ inserted w' = inserted w) → finished a ws v → finished a (<[j := w']> ws) v.
Proof.
  intros Hj Hw [Hv|(x & Hx & Hv)]; [by left|right]. destruct (decide (x = w)) as [->|Hne].
  - exists w'. split; [apply list_elem_of_insert; by eapply lookup_lt_Some|]. destruct Hw; congruence.
  - exists x. split; [|done]. by eapply elem_of_insert_other.
Qed.

Lemma table_frame d d' ws ws' i m vs :
  table_ok n d ws i m vs → uncounted ws' i = uncounted ws i → mem_ n d' = mem_ n d →
  ((i < length (files n d'))%nat → (i < length (files n d))%nat) → sstable n d' !! i = sstable n d !! i → table_ok n d' ws' i m vs.
Proof.
  intros [] Hu Hm Hf Hs. split; rewrite ?Hu, ?Hm, ?Hs; auto.
Qed.

(** A step that changes neither the database nor what the writer holds. *)
Lemma inv_move d ws fs a vss j w w' :
  inv n d ws fs a vss → ws !! j = Some w → pending w' = pending w → at_increase w = None → at_increase w' = None →
  (inserted w = [] ∨ inserted w' = inserted w) → writer_ok n d vss w' → (∀ u, update_of w' = Some u → write_ok n u) → inv n d (<[j := w']> ws) fs a vss.
Proof.
  intros I Hj Hp Hi0 Hi Hins Hok Hu. assert (∀ i, uncounted (<[j := w']> ws) i = uncounted ws i) as Hun.
  { intros i. apply uncounted_perm, (omap_insert_same at_increase ws j w w'); congruence. }
  destruct I. split; try done.
  - intros i m vs Hm Hvs. eapply table_frame; eauto.
  - by rewrite (omap_insert_same pending ws j w w' Hj Hp).
  - unfold len in *. by rewrite length_insert.
  - intros x [->|Hx]%elem_of_insert; auto.
  - intros x u [->|Hx]%elem_of_insert ?; eauto.
  - intros i vs v Hvs Hv. eapply finished_move; eauto.
Qed.

Lemma Start_ok level0 imm_num d ws fs a vss j u :
  inv n d ws fs a vss → ws !! j = Some (Start u) →
  ∃ d', writer_step n fuel heights level0 imm_num d (Start u) = Ok (d', Reload u (last_sequence_ n d) false) ∧
    (last_sequence_ n d' ≤ kMaxSequenceNumber → inv n d' (<[j := Reload u (last_sequence_ n d) false]> ws) fs a vss).
Proof.
  intros I Hj. pose proof (iv_bounds _ _ _ _ _ _ I) as Hb. change kMaxSequenceNumber with (2 ^ 56 - 1) in Hb.
  cbn [writer_step]. change (build Clear [u]) with (add_update (batch_bytes 0 []) u ≫= Ok). rewrite (add_update_batch 0 [] u) by done.
  cbn [mbind result_bind]. rewrite Count_batch by done. change (len ([] ++ [u])) with 1. cbn [mbind result_bind].
  eexists. split; [done|]. cbn [last_sequence_]. rewrite wrap_small by (split; lia). intros Hmax. set (w' := Reload u _ _).
  assert (∀ i, uncounted (<[j := w']> ws) i = uncounted ws i) as Hun.
  { intros i. by apply uncounted_perm, (omap_insert_same at_increase ws j (Start u) w'). }
  pose proof (omap_insert_perm pending ws j (Start u) w' Hj) as P. cbn in P. destruct I. split; cbn; try done.
  - intros i m vs Hm Hvs. eapply table_frame; eauto.
  - rewrite <- P. cbn. rewrite iv_seqs0.
    rewrite (seqZ_app 0 (last_sequence_ n d) 1) by lia. cbn. rewrite Z.add_0_l. symmetry. apply Permutation_app_comm.
  - lia.
  - lia.
  - unfold len in *. by rewrite length_insert.
  - intros x [->|Hx]%elem_of_insert; [done|]. by apply iv_writers0 in Hx.
  - intros x u' [->|Hx]%elem_of_insert Hu; [|eauto]. injection Hu as <-.
    apply (iv_updates0 (Start u)); [by eapply list_elem_of_lookup_2|done].
  - intros i vs v Hvs Hv. eapply finished_move; eauto.
Qed.

(** The steps that look for a memtable. *)
Lemma search_ok level0 imm_num d ws fs a vss j w :
  inv n d ws fs a vss → ws !! j = Some w → match w with Reload _ _ _ | Loop _ _ _ _ | Wait _ _ _ | Find _ _ _ => True | _ => False end →
  ∃ w', writer_step n fuel heights level0 imm_num d w = Ok (d, w') ∧ inv n d (<[j := w']> ws) fs a vss.
Proof.
  intros I Hj Hw. pose proof (list_elem_of_lookup_2 _ _ _ Hj) as Hin. pose proof (iv_writers _ _ _ _ _ _ I w Hin) as Hok.
  assert (∀ w', pending w' = pending w → update_of w' = update_of w → at_increase w' = None → writer_ok n d vss w' →
    inv n d (<[j := w']> ws) fs a vss) as Hmove.
  { intros w' Hp Hu Hi Ho. eapply inv_move; try done; [by destruct w|left; by destruct w|]. rewrite Hu. intros u Eu. by eapply (iv_updates _ _ _ _ _ _ I). }
  destruct w as [|u|u seq dl|u seq i dl|u seq dl| |u seq o| | | |]; try done; cbn [writer_step writer_ok] in *.
  - eexists. split; [done|]. by apply Hmove; try apply le_n.
  - destruct (table_at I i Hok) as (m & vs & Hm & Hvs & T). destruct (table_range I i m vs Hok T) as (_ & Hl & _).
    unfold at_index. rewrite Hm. cbn [mbind result_bind]. rewrite Hl. cbn [mbind result_bind].
    destruct (Z.ltb_spec (base i + SZ - 1) seq); [destruct (no_room imm_num level0); [|destruct (_ && _)]|];
      (eexists; split; [done|]); apply Hmove; try done.
    exists i. split_and!; [done|done|lia].
  - destruct (table_at I (mem_ n d)) as (m & vs & Hm & Hvs & T); [done|]. destruct (table_range I _ m vs (le_n _) T) as (Hf & Hl & _).
    unfold at_index. rewrite Hm. cbn [mbind result_bind]. rewrite Hl, Hf. cbn [mbind result_bind].
    destruct (no_room (current_memtable_num_ n d) level0); cbn [andb]; [|eexists; split; [done|]; by apply Hmove].
    destruct (Z.ltb_spec (base (mem_ n d) + SZ - 1) seq); [|eexists; split; [done|]; by apply Hmove].
    rewrite (proj2 (Z.ltb_lt _ _)) by szlia. eexists. split; [done|]. by apply Hmove.
  - destruct Hok as (i & -> & Hi & Hs). destruct (table_at I i Hi) as (m & vs & Hm & Hvs & T).
    destruct (table_range I i m vs Hi T) as (_ & _ & Hr). unfold at_index. rewrite Hm. cbn [mbind result_bind]. rewrite Hr.
    cbn [mbind result_bind]. rewrite (proj2 (Z.leb_le seq _)), andb_true_r by lia.
    destruct (Z.leb_spec (base i) seq); [eexists; split; [done|]; apply Hmove; try done; by split; [|lia]|].
    pose proof (pending_range I _ seq Hin eq_refl) as [Hs0 _].
    set (k := Z.to_nat (seq / SZ)). assert (base k ≤ seq < base k + SZ) as Hk.
    { unfold base, k. rewrite Z2Nat.id by (apply Z.div_pos; szlia). pose proof (Z.mul_div_le seq SZ eq_refl).
      pose proof (Z.mul_succ_div_gt seq SZ eq_refl). lia. }
    assert (k < i)%nat as Hki by szlia. destruct (table_at I k ltac:(lia)) as (mk & vk & Hmk & Hvk & Tk).
    destruct (pending_not_able I k mk vk _ seq Hvk Tk Hin eq_refl Hk) as (_ & _ & Hfl & _).
    rewrite (Pick_belong I k seq); [|intros j' Hj'%(in_memlist I); lia|apply (in_memlist I); lia|done].
    cbn [mbind result_bind]. eexists. split; [done|]. apply Hmove; try done. by split; [lia|].
Qed.

Lemma uncounted_beyond d ws fs a vss i : inv n d ws fs a vss → (mem_ n d < i)%nat → uncounted ws i = 0.
Proof.
  intros I Hi. unfold uncounted, len. enough (filter (λ x, x = i) (omap at_increase ws) = []) as -> by done.
  destruct (filter _ _) as [|x l] eqn:E; [done|]. assert (x ∈ filter (λ x, x = i) (omap at_increase ws)) as H by (rewrite E; by left).
  apply list_elem_of_filter in H as [-> (w & Hw & Ew)%list_elem_of_omap]. destruct w; try done. injection Ew as ->.
  destruct (iv_writers _ _ _ _ _ _ I _ Hw) as [Hle _]. lia.
Qed.

(** The numbers for which there is no memtable yet are all held by writers, of
    which there are no more than numbers in a memtable. *)
Lemma next_range d ws fs a vss w seq :
  inv n d ws fs a vss → w ∈ ws → pending w = Some seq → base (S (mem_ n d)) ≤ seq →
  seq < base (S (mem_ n d)) + SZ.
Proof.
  intros I Hw Hp Hge. pose proof (pending_range I w seq Hw Hp) as [_ Hlt]. set (b := base (S (mem_ n d))) in *.
  assert (seqZ b (last_sequence_ n d - b) ⊆+ omap pending ws) as Hsub.
  { apply NoDup_submseteq; [apply NoDup_seqZ|]. intros x Hx%elem_of_seqZ.
    assert (0 ≤ b) as Hb by (unfold b; szlia).
    assert (x ∈ omap pending ws ++ (v_seq <$> concat vss)) as Hxs by (rewrite (iv_seqs _ _ _ _ _ _ I); apply elem_of_seqZ; lia).
    apply elem_of_app in Hxs as [Hxs|(v & -> & Hv)%list_elem_of_fmap]; [done|exfalso].
    apply elem_of_concat in Hv as (vs & Hv & [i Hi]%list_elem_of_lookup). pose proof (lookup_lt_Some _ _ _ Hi) as Hlt'.
    rewrite (iv_vss _ _ _ _ _ _ I) in Hlt'. destruct (table_at I i) as (m & vs' & _ & Hvs' & T); [lia|]. simplify_eq.
    pose proof (proj1 (Forall_forall _ _) (to_range _ _ _ _ _ _ T) v Hv) as Hr. cbn in Hr. unfold b in *. szlia. }
  apply submseteq_length in Hsub. rewrite length_seqZ in Hsub.
  assert (length (omap pending ws) ≤ length ws)%nat.
  { clear. induction ws as [|w ws IH]; [done|]. cbn. destruct (pending w); cbn; lia. }
  pose proof (iv_threads _ _ _ _ _ _ I). unfold len in *. lia.
Qed.

Lemma mem_rel_table m m' vs : mem_rel n m vs → table n m' = table n m → mem_rel n m' vs.
Proof. intros [R1 R2 R3 R4] E. split; rewrite ?E; done. Qed.

Lemma set_state_eq (d : db n) i m st :
  mems n d !! i = Some m → set_state n d i st = Ok (set_mems n d (<[i := SetFlushState n m st]> (mems n d))).
Proof. intros Hm. unfold set_state, on_table, at_index. by rewrite Hm. Qed.

Lemma new_table C : 0 ≤ base C ≤ 2 ^ 56 →
  ∃ t m0, let m := Mk n t FLUSH_NOT_REQUESTED 0 false true 1 (Some (base (S C))) (Some (base (S C) + SZ - 1)) in
    make_memtable n = Ok m0 ∧
    Ref n (SetLargestSeq n (SetFirstSeq n m0 (u64 (base C + SZ - 1 + 1))) (u64 (base C + SZ - 1 + SZ))) = m ∧
    mem_rel n m [].
Proof.
  intros Hb. destruct (make_memtable_rel n) as (m & E & [R1 R2 R3 R4]). rewrite E. unfold make_memtable in E.
  apply bind_Ok in E as (t & _ & [= <-]). exists t. eexists. split; [done|]. split; [|by split].
  unfold SetLargestSeq, SetFirstSeq, Ref. cbn -[Z.add Z.sub base int64 u64]. do 2 f_equal.
  - rewrite wrap_small by (split; szlia). rewrite int64_small by szlia. szlia.
  - rewrite wrap_small by (split; szlia). rewrite int64_small by szlia. szlia.
Qed.

Lemma switch_memtable_eq d ws fs a vss m :
  inv n d ws fs a vss → mems n d !! mem_ n d = Some m → current_memtable_num_ n d ≤ Immutable_StopWritesTrigger →
  ∃ t, let new := Mk n t FLUSH_NOT_REQUESTED 0 false true 1 (Some (base (S (mem_ n d)))) (Some (base (S (mem_ n d)) + SZ - 1)) in
    mem_rel n new [] ∧
    switch_memtable n d (mem_ n d) (base (mem_ n d) + SZ - 1) =
      Ok (S (mem_ n d), MkDb n (last_sequence_ n d) (<[mem_ n d := SetFlushState n m FLUSH_REQUESTED]> (mems n d) ++ [new])
        (S (mem_ n d)) (mem_ n d :: memlist_ n d) (current_memtable_num_ n d + 1) (num_flush_not_started_ n d + 1)
        (sstable n d) (files n d) (draws n d)).
Proof.
  intros I Hm Hnum. set (C := mem_ n d) in *. destruct (new_table C (base_bound I C (le_n _))) as (t & m0 & E0 & E1 & Hrel). exists t.
  split; [done|]. unfold switch_memtable. rewrite E0. cbn [mbind result_bind]. rewrite E1.
  rewrite (set_state_eq d C m) by done. cbn [mbind result_bind mems set_mems last_sequence_ memlist_ current_memtable_num_ num_flush_not_started_ sstable files draws].
  rewrite length_insert, (iv_mems _ _ _ _ _ _ I). fold C. rewrite (proj2 (Z.leb_le _ _)) by done. cbn [require mbind result_bind].
  set (new := Mk n t _ _ _ _ _ _ _). unfold Add. cbn [num_flush_not_started_ memlist_].
  pose proof (requested_length I) as Hreq. rewrite (proj2 (Z.leb_le _ _)) by done.
  rewrite bool_decide_eq_true_2 by (rewrite (in_memlist I); fold C; lia). cbn [require mbind result_bind].
  assert (C < length (mems n d))%nat as HC by (by eapply lookup_lt_Some).
  rewrite (set_state_eq _ C (SetFlushState n m FLUSH_REQUESTED)) by (cbn [mems]; rewrite lookup_app_l by (by rewrite length_insert); by apply list_lookup_insert_eq).
  cbn [mbind result_bind set_mems mems last_sequence_ mem_ memlist_ current_memtable_num_ num_flush_not_started_ sstable files draws].
  change (SetFlushState n (SetFlushState n m FLUSH_REQUESTED) FLUSH_REQUESTED) with (SetFlushState n m FLUSH_REQUESTED).
  rewrite insert_app_l by (by rewrite length_insert). rewrite list_insert_insert_eq.
  pose proof (iv_number _ _ _ _ _ _ I) as Hn. pose proof (len_pos (memlist_ n d)). unfold Immutable_StopWritesTrigger in Hnum.
  assert (0 ≤ num_flush_not_started_ n d) by (rewrite (iv_requested _ _ _ _ _ _ I); apply len_pos).
  rewrite int32_small by lia. rewrite wrap_small by (split; lia). done.
Qed.

Section switch.
Context d ws fs a vss m (I : inv n d ws fs a vss) (Hm : mems n d !! mem_ n d = Some m) (t : InlineSkipList.t (K:=entry n)).

Let C := mem_ n d.
Let new := Mk n t FLUSH_NOT_REQUESTED 0 false true 1 (Some (base (S C))) (Some (base (S C) + SZ - 1)).
Let d' := MkDb n (last_sequence_ n d) (<[C := SetFlushState n m FLUSH_REQUESTED]> (mems n d) ++ [new]) (S C) (C :: memlist_ n d)
  (current_memtable_num_ n d + 1) (num_flush_not_started_ n d + 1) (sstable n d) (files n d) (draws n d).
Context (Hnew : mem_rel n new []).

Lemma switch_lookup i x :
  mems n d' !! i = Some x →
  (i < C ∧ mems n d !! i = Some x)%nat ∨ i = C ∧ x = SetFlushState n m FLUSH_REQUESTED ∨ i = S C ∧ x = new.
Proof.
  cbn. pose proof (iv_mems _ _ _ _ _ _ I) as Hl. fold C in Hl. intros Hx.
  apply lookup_app_Some in Hx as [Hx|[Hge Hx]]; rewrite ?length_insert, ?Hl in *.
  - apply list_lookup_insert_Some in Hx as [(-> & -> & _)|[Hne Hx]]; [by right; left|left]. split; [|done].
    apply lookup_lt_Some in Hx. lia.
  - right. right. apply list_lookup_singleton_Some in Hx as [? ->]. split; [lia|done].
Qed.

Lemma switch_old i x : (i < C)%nat → mems n d !! i = Some x → mems n d' !! i = Some x.
Proof.
  intros Hi Hx. cbn. rewrite lookup_app_l by (rewrite length_insert, (iv_mems _ _ _ _ _ _ I); fold C; lia).
  by rewrite list_lookup_insert_ne by lia.
Qed.

Lemma switch_tables i x vs : mems n d' !! i = Some x → (vss ++ [[]]) !! i = Some vs → table_ok n d' ws i x vs.
Proof.
  intros Hx Hvs. pose proof (iv_vss _ _ _ _ _ _ I) as Hl. fold C in Hl.
  assert ((i ≤ C)%nat → vss !! i = Some vs) as Hold by (intros; by rewrite lookup_app_l in Hvs by lia).
  apply switch_lookup in Hx as [[Hi Hx]|[[-> ->]|[-> ->]]].
  - destruct (iv_tables _ _ _ _ _ _ I i x vs Hx (Hold ltac:(lia))) as [T1 T2 T3 T4 T5 T6 T7 T8 T9 T10 T11 T12].
    fold C in T8. split; try done. change (mem_ n d') with (S C). split; [lia|]. intros E. apply T8 in E. lia.
  - destruct (iv_tables _ _ _ _ _ _ I C m vs Hm (Hold ltac:(lia))) as [T1 T2 T3 T4 T5 T6 T7 T8 T9 T10 T11 T12].
    split; try done; [by eapply mem_rel_table|change (mem_ n d') with (S C); split; [lia|done]|].
    intros Hf. change (files n d') with (files n d) in Hf. pose proof (iv_installed _ _ _ _ _ _ I) as HK. fold C in HK. lia.
  - rewrite lookup_app_r, Hl, Nat.sub_diag in Hvs by lia. injection Hvs as <-.
    split; try done; [|change (files n d') with (files n d); intros Hf; pose proof (iv_installed _ _ _ _ _ _ I) as HK; fold C in HK; lia].
    cbn [seq_count new]. rewrite (uncounted_beyond _ _ _ _ _ (S C) I) by (fold C; lia). done.
Qed.

Lemma switch_requested : num_flush_not_started_ n d' = len (filter (λ i, requested n (mems n d') i = true) (memlist_ n d')).
Proof.
  cbn [num_flush_not_started_ memlist_ d']. rewrite filter_cons_True.
  - rewrite len_cons, (iv_requested _ _ _ _ _ _ I). f_equal; f_equal. apply filter_same. intros i Hi.
    apply (in_memlist I) in Hi. fold C in Hi. unfold requested.
    destruct (table_at I i) as (x & _ & Hx & _); [fold C; lia|]. rewrite (switch_old i x), Hx by (done || lia). done.
  - unfold requested. cbn. rewrite lookup_app_l by (rewrite length_insert; by eapply lookup_lt_Some).
    by rewrite list_lookup_insert_eq by (by eapply lookup_lt_Some).
Qed.

Lemma switch_inv j u seq dl :
  ws !! j = Some (Switch u seq dl) → base (S C) ≤ seq → current_memtable_num_ n d ≤ Immutable_StopWritesTrigger → inv n d' (<[j := Insert u seq (S C)]> ws) fs a (vss ++ [[]]).
Proof.
  intros Hj Hge Hnum. pose proof (list_elem_of_lookup_2 _ _ _ Hj) as Hin. pose proof (next_range _ _ _ _ _ _ seq I Hin eq_refl Hge) as Hlt.
  pose proof (pending_range I _ seq Hin eq_refl). fold C in Hlt. set (w' := Insert u seq (S C)).
  enough (inv n d' ws fs a (vss ++ [[]])) as I'.
  { eapply inv_move; try done; [by left|]. intros u' [= <-]. by apply (iv_updates _ _ _ _ _ _ I _ u Hin). }
  pose proof I as [H1 H2 H3 H4 H5 H6 H7 H8 H9 H10 H11 H12 H13 H14 H15 H16 H17 H18 H19]. fold C in H1, H2, H4, H5, H10. split; try done.
  - cbn. rewrite length_app, length_insert, H1. cbn. lia.
  - rewrite length_app, H2. cbn. lia.
  - apply switch_tables.
  - cbn. lia.
  - cbn [memlist_ d' files mem_]. rewrite H5. replace (S C - _)%nat with (S (C - length (files n d)))%nat by lia.
    rewrite seq_S, reverse_app. cbn. f_equal. lia.
  - cbn [memlist_ d' current_memtable_num_]. rewrite len_cons. lia.
  - apply switch_requested.
  - rewrite concat_app. cbn. by rewrite app_nil_r.
  - right. cbn [mem_ d' last_sequence_]. lia.
  - intros w Hw. specialize (H12 w Hw). destruct w; cbn [writer_ok mem_ d'] in *; try done; fold C in H12; try lia.
    { destruct H12 as (i & ? & ? & ?). exists i. split_and!; [done|lia|done]. }
    all: destruct H12 as [? (vs & ? & ?)]; (split; [lia|]); exists vs; (split; [by apply lookup_app_l_Some|done]).
  - intros f Hf. specialize (H14 f Hf).
    assert (∀ i x, mems n d !! i = Some x → flush_state n x = FLUSH_PROCESSING → mems n d' !! i = Some x) as Hkeep.
    { intros i x Hx Est. apply switch_old; [|done]. destruct (at_table I i x Hx) as [Hle (vs & _ & T)]. fold C in Hle.
      destruct (decide (i = C)) as [E|]; [|lia]. apply (to_current _ _ _ _ _ _ T) in E. congruence. }
    destruct f; cbn [flusher_ok] in *; naive_solver.
  - intros k f x Hf Hx. cbn [files d'] in Hf. pose proof (lookup_lt_Some _ _ _ Hf).
    apply switch_lookup in Hx as [[_ Hx]|[[-> _]|[-> _]]]; [by eapply H16|lia|lia].
  - intros v Hv. destruct (H17 v Hv) as (i & vs & ? & ?). exists i, vs. split; [by apply lookup_app_l_Some|done].
  - cbn [memlist_ d']. rewrite len_cons. lia.
  - intros i vs v Hvs Hv. apply lookup_app_Some in Hvs as [Hvs|[_ Hvs]]; [by eapply H19|].
    apply list_lookup_singleton_Some in Hvs as [_ <-]. by apply not_elem_of_nil in Hv.
Qed.

End switch.

Lemma Switch_ok level0 imm_num d ws fs a vss j u seq dl :
  inv n d ws fs a vss → ws !! j = Some (Switch u seq dl) →
  ∃ d' w' vss', writer_step n fuel heights level0 imm_num d (Switch u seq dl) = Ok (d', w') ∧ inv n d' (<[j := w']> ws) fs a vss'.
Proof.
  intros I Hj. destruct (table_at I (mem_ n d) (le_n _)) as (m & vs & Hm & Hvs & T).
  destruct (table_range I _ m vs (le_n _) T) as (_ & Hl & _). cbn [writer_step]. unfold at_index. rewrite Hm.
  cbn [mbind result_bind]. rewrite Hl. cbn [mbind result_bind].
  destruct (_ && _ && _) eqn:E.
  - apply andb_true_iff in E as [[E1%Z.leb_le _]%andb_true_iff E2%Z.ltb_lt].
    destruct (switch_memtable_eq _ _ _ _ _ m I Hm E1) as (t & Hnew & ->). cbn [mbind result_bind]. eexists _, _, _. split; [done|].
    apply (switch_inv d ws fs a vss m I Hm t Hnew j u seq dl Hj); [szlia|done].
  - eexists _, _, vss. split; [done|]. eapply inv_move; try done; [by left|]. intros u' [= <-].
    apply (iv_updates _ _ _ _ _ _ I (Switch u seq dl)); [by eapply list_elem_of_lookup_2|done].
Qed.

(** A step that changes one memtable. *)
Lemma inv_table d ws fs a vss i m vs ws' m' vs' a' dr :
  inv n d ws fs a vss → mems n d !! i = Some m → vss !! i = Some vs →
  table_ok n d ws' i m' vs' → flush_state n m' = flush_state n m →
  (able_to_flush n m = true → able_to_flush n m' = true ∧ flushed m' = flushed m) →
  (∀ k, k ≠ i → uncounted ws' k = uncounted ws k) →
  omap pending ws' ++ (v_seq <$> vs') ≡ₚ omap pending ws ++ (v_seq <$> vs) → vs ⊆ vs' → length ws' = length ws →
  (∀ w, w ∈ ws' → w ∉ ws → writer_ok n d (<[i := vs']> vss) w ∧ ∀ u, update_of w = Some u → write_ok n u) →
  (∀ v, v ∈ a' → v ∉ a → v ∈ vs') → (∀ v, finished a ws v → finished a' ws' v) → (∀ v, v ∈ vs' → v ∉ vs → finished a' ws' v) →
  inv n (MkDb n (last_sequence_ n d) (<[i := m']> (mems n d)) (mem_ n d) (memlist_ n d) (current_memtable_num_ n d)
    (num_flush_not_started_ n d) (sstable n d) (files n d) dr) ws' fs a' (<[i := vs']> vss).
Proof.
  intros I Hm Hvs T Hst Hab Hun Hseq Hsub Hlen Hws Ha Hfin Hadd. pose proof (lookup_lt_Some _ _ _ Hm) as Hl1.
  pose proof (lookup_lt_Some _ _ _ Hvs) as Hl2.
  assert (∀ k vk, vss !! k = Some vk → ∃ vk', <[i := vs']> vss !! k = Some vk' ∧ vk ⊆ vk') as Hmono.
  { intros k vk Hk. destruct (decide (k = i)) as [->|]; [exists vs'; simplify_eq; by rewrite list_lookup_insert_eq|].
    exists vk. by rewrite list_lookup_insert_ne by done. }
  pose proof I as [H1 H2 H3 H4 H5 H6 H7 H8 H9 H10 H11 H12 H13 H14 H15 H16 H17 H18 H19].
  split; cbn [mems mem_ memlist_ current_memtable_num_ num_flush_not_started_ sstable files last_sequence_]; try done.
  - by rewrite length_insert.
  - by rewrite length_insert.
  - intros k mk vk Hmk Hvk. destruct (decide (k = i)) as [->|Hne].
    + rewrite list_lookup_insert_eq in Hmk by done. rewrite list_lookup_insert_eq in Hvk by done. simplify_eq. by eapply table_frame.
    + rewrite list_lookup_insert_ne in Hmk by done. rewrite list_lookup_insert_ne in Hvk by done. eapply table_frame; eauto.
  - rewrite H7. do 2 f_equal. apply filter_same. intros k _. unfold requested. destruct (decide (k = i)) as [->|].
    + rewrite Hm, list_lookup_insert_eq by done. unfold CheckFlush_Requested. by rewrite Hst.
    + by rewrite list_lookup_insert_ne.
  - pose proof (concat_insert vss i vs vs' Hvs) as P. apply (fmap_Permutation v_seq) in P. rewrite !fmap_app in P.
    apply (Permutation_app_inv_r (v_seq <$> vs)). rewrite <- H8, <- !app_assoc, P, (Permutation_app_comm (v_seq <$> concat vss)).
    rewrite !app_assoc, Hseq. rewrite <- !app_assoc. apply Permutation_app_head, Permutation_app_comm.
  - unfold len in *. by rewrite Hlen.
  - intros w Hw. destruct (decide (w ∈ ws)) as [Hold|Hnew]; [|by apply Hws]. specialize (H12 w Hold).
    destruct w; cbn [writer_ok mem_] in *; try done; destruct H12 as (Hle & vk & Hvk & Hin); (split; [done|]);
      destruct (Hmono _ _ Hvk) as (vk' & ? & Hs); exists vk'; (split; [done|]); by apply Hs.
  - intros w u Hw Hu. destruct (decide (w ∈ ws)) as [Hold|Hnew]; [by eapply H13|by apply (Hws w Hw Hnew)].
  - intros f Hf. specialize (H14 f Hf).
    assert (∀ k x, mems n d !! k = Some x → ∃ x', <[i := m']> (mems n d) !! k = Some x' ∧ flush_state n x' = flush_state n x ∧
      (able_to_flush n x = true → able_to_flush n x' = true ∧ flushed x' = flushed x)) as Hkeep.
    { intros k x Hx. destruct (decide (k = i)) as [->|]; [exists m'; simplify_eq; by rewrite list_lookup_insert_eq|].
      exists x. by rewrite list_lookup_insert_ne by done. }
    destruct f as [|l|l|l sst|]; cbn [flusher_ok mems] in *; try done.
    + destruct H14 as (k & x & -> & Hx & E). destruct (Hkeep k x Hx) as (x' & ? & E' & _). exists k, x'. split_and!; congruence.
    + destruct H14 as (k & x & -> & Hx & E & Ea). destruct (Hkeep k x Hx) as (x' & ? & E' & Hc). exists k, x'.
      destruct (Hc Ea). split_and!; congruence.
    + destruct H14 as (k & x & -> & Hx & E & Ea & ->). destruct (Hkeep k x Hx) as (x' & ? & E' & Hc). exists k, x'.
      destruct (Hc Ea). split_and!; congruence.
  - intros k f x Hf Hx. destruct (decide (k = i)) as [->|].
    + rewrite list_lookup_insert_eq in Hx by done. injection Hx as <-. rewrite (H16 i f m Hf Hm). symmetry. apply Hab.
      destruct (iv_tables _ _ _ _ _ _ I i m vs Hm Hvs). apply to_finished0, to_installed0. by eapply lookup_lt_Some.
    + rewrite list_lookup_insert_ne in Hx by done. by eapply H16.
  - intros v Hv. destruct (decide (v ∈ a)) as [Hold|Hnew].
    + destruct (H17 v Hold) as (k & vk & Hk & Hin). destruct (Hmono _ _ Hk) as (vk' & ? & Hs). exists k, vk'. split; [done|]. by apply Hs.
    + exists i, vs'. rewrite list_lookup_insert_eq by done. auto.
  - intros k vk v Hk Hv. destruct (decide (k = i)) as [->|].
    + rewrite list_lookup_insert_eq in Hk by done. injection Hk as <-. destruct (decide (v ∈ vs)); [apply Hfin; by eapply H19|by apply Hadd].
    + rewrite list_lookup_insert_ne in Hk by done. apply Hfin. by eapply H19.
Qed.

Lemma distinct_seqs vs : NoDup (v_seq <$> vs) → distinct vs.
Proof. intros H. unfold distinct. apply (NoDup_fmap_1 snd). by rewrite <- list_fmap_compose. Qed.

Lemma Increase_ok level0 imm_num d ws fs a vss j u seq i :
  inv n d ws fs a vss → ws !! j = Some (Increase u seq i) →
  ∃ d' vss', writer_step n fuel heights level0 imm_num d (Increase u seq i) = Ok (d', Check u seq i) ∧
    inv n d' (<[j := Check u seq i]> ws) fs a vss'.
Proof.
  intros I Hj. pose proof (list_elem_of_lookup_2 _ _ _ Hj) as Hin. destruct (iv_writers _ _ _ _ _ _ I _ Hin) as (Hi & vs' & Hvs' & Hv).
  destruct (table_at I i Hi) as (m & vs & Hm & Hvs & T). assert (vs' = vs) as -> by congruence.
  set (w' := Check u seq i). pose proof (omap_insert_perm pending ws j _ w' Hj) as P. pose proof (omap_insert_perm at_increase ws j _ w' Hj) as Q. cbn in P, Q.
  assert (∀ k, uncounted ws k = (if decide (i = k) then 1 else 0) + uncounted (<[j := w']> ws) k) as Hun
    by (intros k; by apply uncounted_cons).
  pose proof (vs_length I i m vs Hvs T) as Hlen. pose proof (to_count _ _ _ _ _ _ T) as Hc. rewrite Hun, decide_True in Hc by done.
  assert (0 ≤ uncounted (<[j := w']> ws) i) as H0 by (apply len_pos). pose proof (to_pos _ _ _ _ _ _ T) as Hpos.
  assert (able_to_flush n m = false) as Ha.
  { destruct (able_to_flush n m) eqn:E; [|done]. pose proof (to_able _ _ _ _ _ _ T E). lia. }
  cbn [writer_step]. unfold on_table, at_index. rewrite Hm. cbn [mbind result_bind]. unfold add_seq_count.
  rewrite wrap_small by (split; szlia). cbn [Z.eqb require mbind result_bind].
  eexists _, _. split; [done|]. set (m' := Mk n _ _ _ _ _ _ _ _).
  apply (inv_table d ws fs a vss i m vs (<[j := w']> ws) m' vs a (draws n d)); try done.
  - destruct T as [T1 T2 T3 T4 T5 T6 T7 T8 T9 T10 T11 T12]. split; try done; cbn [seq_count able_to_flush m'].
    + by eapply mem_rel_table.
    + lia.
    + congruence.
    + lia.
  - intros k Hk. by rewrite (Hun k), decide_False.
  - by rewrite P.
  - by rewrite length_insert.
  - intros w [->|?]%elem_of_insert ?; [|done]. split; [|intros u' [= <-]; by apply (iv_updates _ _ _ _ _ _ I _ u Hin)].
    split; [done|]. exists vs. split; [|done]. apply list_lookup_insert_eq. by eapply lookup_lt_Some.
  - intros v. apply finished_move with (w := Increase u seq i); [done|by right].
Qed.

Lemma Check_ok level0 imm_num d ws fs a vss j u seq i :
  inv n d ws fs a vss → ws !! j = Some (Check u seq i) →
  writer_step n fuel heights level0 imm_num d (Check u seq i) = Ok (d, Able u seq i) ∧ inv n d (<[j := Able u seq i]> ws) fs a vss.
Proof.
  intros I Hj. pose proof (list_elem_of_lookup_2 _ _ _ Hj) as Hin. pose proof (iv_writers _ _ _ _ _ _ I _ Hin) as Hw. destruct (id Hw) as (Hi & _).
  destruct (table_at I i Hi) as (m & vs & Hm & Hvs & T). pose proof (vs_length I i m vs Hvs T). pose proof (to_count _ _ _ _ _ _ T) as Hc.
  assert (0 ≤ uncounted ws i) by (apply len_pos). split.
  - cbn [writer_step]. unfold at_index. rewrite Hm. cbn [mbind result_bind]. unfold check_seq_count. by rewrite (proj2 (Z.leb_le _ _)) by lia.
  - eapply inv_move; try done; [by right|]. intros u' [= <-]. by apply (iv_updates _ _ _ _ _ _ I _ u Hin).
Qed.

Lemma Able_ok level0 imm_num d ws fs a vss j u seq i :
  inv n d ws fs a vss → ws !! j = Some (Able u seq i) →
  ∃ d' vss', writer_step n fuel heights level0 imm_num d (Able u seq i) = Ok (d', Idle) ∧
    inv n d' (<[j := Idle]> ws) fs (version_of seq u :: a) vss'.
Proof.
  intros I Hj. pose proof (list_elem_of_lookup_2 _ _ _ Hj) as Hin. destruct (iv_writers _ _ _ _ _ _ I _ Hin) as (Hi & vs' & Hvs' & Hv).
  destruct (table_at I i Hi) as (m & vs & Hm & Hvs & T). assert (vs' = vs) as -> by congruence.
  assert (∀ k, uncounted (<[j := Idle]> ws) k = uncounted ws k) as Hun by (intros k; by apply uncounted_perm, (omap_insert_same at_increase ws j (Able u seq i) Idle)).
  pose proof (vs_length I i m vs Hvs T) as Hlen. pose proof (to_count _ _ _ _ _ _ T) as Hc. assert (0 ≤ uncounted ws i) by (apply len_pos).
  cbn [writer_step]. unfold on_table, at_index. rewrite Hm. cbn [mbind result_bind]. eexists _, _. split; [done|].
  assert (flush_state n (store_able n m) = flush_state n m ∧ seq_count n (store_able n m) = seq_count n m ∧ table n (store_able n m) = table n m ∧
    (able_to_flush n (store_able n m) = true → seq_count n m = SZ) ∧ (able_to_flush n m = true → able_to_flush n (store_able n m) = true))
    as (E1 & E2 & E3 & E4 & E5).
  { unfold store_able. destruct (Z.leb_spec SZ (seq_count n m)); split_and!; try done; [intros _; lia|apply T]. }
  apply (inv_table d ws fs a vss i m vs (<[j := Idle]> ws) (store_able n m) vs (version_of seq u :: a) (draws n d)); try done.
  - destruct T as [T1 T2 T3 T4 T5 T6 T7 T8 T9 T10 T11 T12]. unfold flushed, entries in *.
    split; rewrite ?E1, ?E2, ?E3, ?Hun; try done; try (unfold store_able; by case_match).
    + by eapply mem_rel_table.
    + intros Hf. destruct (T10 Hf). split; [auto|]. unfold flushed, entries. by rewrite E3.
  - intros Ha. split; [auto|]. unfold flushed, entries. by rewrite E3.
  - by rewrite (omap_insert_same pending ws j (Able u seq i) Idle Hj eq_refl).
  - by rewrite length_insert.
  - by intros w [->|?]%elem_of_insert ?.
  - by intros v [->|?]%elem_of_cons ?.
  - intros v [Hv'|(x & Hx & Hv')]; [left; by right|]. destruct (decide (x = Able u seq i)) as [->|].
    + left. injection Hv' as <-. by left.
    + right. exists x. split; [by eapply elem_of_insert_other|done].
Qed.

Context (Hh : ∀ i, (1 ≤ heights i ≤ 12)%nat) (Hfuel : SZ + 30 < Z.of_nat fuel).

Lemma Insert_ok level0 imm_num d ws fs a vss j u seq i :
  inv n d ws fs a vss → ws !! j = Some (Insert u seq i) →
  ∃ d' vss', writer_step n fuel heights level0 imm_num d (Insert u seq i) = Ok (d', Increase u seq i) ∧
    inv n d' (<[j := Increase u seq i]> ws) fs a vss'.
Proof.
  intros I Hj. pose proof (list_elem_of_lookup_2 _ _ _ Hj) as Hin. destruct (iv_writers _ _ _ _ _ _ I _ Hin) as [Hi Hr].
  destruct (iv_updates _ _ _ _ _ _ I _ u Hin eq_refl) as [Hu H8]. pose proof (pending_range I _ seq Hin eq_refl) as Hseq.
  destruct (table_at I i Hi) as (m & vs & Hm & Hvs & T). destruct (table_range I i m vs Hi T) as (_ & _ & Hrng).
  destruct (pending_not_able I i m vs _ seq Hvs T Hin eq_refl Hr) as (Ha & Hopen & Hfile & Hlen).
  assert (NoDup (v_seq <$> vs ++ [version_of seq u])) as Hnd.
  { rewrite fmap_app. apply NoDup_app. split; [by eapply (vs_NoDup I)|]. split; [|apply NoDup_singleton].
    intros x (v & -> & Hv)%list_elem_of_fmap Hx%list_elem_of_singleton. apply (pending_not_written I _ seq v Hin eq_refl).
    - by eapply elem_of_vss. - rewrite Hx. by destruct u. }
  destruct (InsertInto_rel n fuel heights Hh (seq, [u]) m vs (draws n d) (to_rel _ _ _ _ _ _ T) Hopen) as (t & E & Hrel).
  { pose proof (iv_bounds _ _ _ _ _ _ I). split; cbn [fst snd]; [lia|change (len [u]) with 1; lia|done|by constructor]. }
  { by apply distinct_seqs. }
  { unfold len in Hlen. cbn [snd length]. lia. }
  cbn [writer_step]. change (build Clear [u]) with (add_update (batch_bytes 0 []) u ≫= Ok). rewrite (add_update_batch 0 [] u) by done.
  cbn [mbind result_bind]. unfold at_index. rewrite Hm. cbn [mbind result_bind]. rewrite Hrng.
  rewrite (proj2 (Z.leb_le _ _)), (proj2 (Z.leb_le _ _)) by lia. cbn [andb mbind result_bind require].
  unfold insert_batch, on_table, at_index. rewrite Hm. cbn [mbind result_bind]. rewrite SetSequence_batch.
  change (batch_bytes seq ([] ++ [u])) with (record_of (seq, [u])). rewrite E. cbn [mbind result_bind]. eexists _, _. split; [done|].
  cbn [fst snd set_mems last_sequence_ mem_ memlist_ current_memtable_num_ num_flush_not_started_ sstable files mems Recovery.mem_ Recovery.draws].
  set (w' := Increase u seq i). pose proof (omap_insert_perm pending ws j (Insert u seq i) w' Hj) as P.
  pose proof (omap_insert_perm at_increase ws j (Insert u seq i) w' Hj) as Q. cbn in P, Q.
  assert (∀ k, uncounted (<[j := w']> ws) k = (if decide (i = k) then 1 else 0) + uncounted ws k) as Hun by (intros k; by apply uncounted_cons).
  eapply (inv_table d ws fs a vss i m vs _ (set_table n m t) (vs ++ [version_of seq u])); try done.
  - destruct T as [T1 T2 T3 T4 T5 T6 T7 T8 T9 T10 T11 T12]. split; try done.
    + apply Forall_app_2; [done|]. constructor; [|done]. by destruct u.
    + rewrite Hun, decide_True by done. rewrite len_app. change (len [version_of seq u]) with 1. cbn [seq_count set_table]. lia.
    + intros Hf. destruct (T10 Hf). congruence.
    + apply Forall_app_2; [done|]. constructor; [|done]. by destruct u.
  - congruence.
  - intros k Hk. by rewrite Hun, decide_False.
  - rewrite P, fmap_app. replace (v_seq <$> [version_of seq u]) with [seq] by (by destruct u). cbn. solve_Permutation.
  - set_solver.
  - by rewrite length_insert.
  - intros w [->|?]%elem_of_insert ?; [|done]. split; [|by intros u' [= <-]]. split; [done|]. eexists.
    split; [apply list_lookup_insert_eq; by eapply lookup_lt_Some|]. apply elem_of_app. right. by left.
  - intros v Hv. eapply finished_move; [done|by left|done].
  - intros v Hv Hnv. apply elem_of_app in Hv as [?|Hv]; [done|]. apply list_elem_of_singleton in Hv as ->. right. exists w'. split; [|done].
    eapply list_elem_of_lookup_2, list_lookup_insert_eq, lookup_lt_Some, Hj.
Qed.

End writer_steps.

(** ** Steps of flush jobs *)

Lemma bind_insert {A B} (f : A → list B) (l : list A) j x y :
  l !! j = Some x → f y ++ (l ≫= f) ≡ₚ f x ++ (<[j := y]> l ≫= f).
Proof.
  intros Hj. rewrite <- (take_drop_middle l j x Hj) at 1. rewrite insert_take_drop by (by eapply lookup_lt_Some).
  rewrite !bind_app. cbn. solve_Permutation.
Qed.

Section flusher_steps.
Context (n fuel : nat).

(** A step that changes nothing. *)
Lemma inv_flusher d ws fs a vss j f f' :
  inv n d ws fs a vss → fs !! j = Some f → held f' = held f → flusher_ok n d f' → inv n d ws (<[j := f']> fs) a vss.
Proof.
  intros [] Hj Hh Hok. split; try done.
  - intros x [->|Hx]%elem_of_insert; auto.
  - pose proof (bind_insert held fs j f f' Hj) as P. rewrite Hh in P. apply Permutation_app_inv_l in P. by rewrite <- P.
Qed.

(** A step that changes the state of one memtable. *)
Lemma inv_state d ws fs a vss i m vs st num sst fs' :
  inv n d ws fs a vss → mems n d !! i = Some m → vss !! i = Some vs →
  let m' := SetFlushState n m st in
  let d' := MkDb n (last_sequence_ n d) (<[i := m']> (mems n d)) (mem_ n d) (memlist_ n d) (current_memtable_num_ n d) num
    sst (files n d) (draws n d) in
  table_ok n d' ws i m' vs → (∀ k, k ≠ i → sst !! k = sstable n d !! k) →
  num = len (filter (λ k, requested n (mems n d') k = true) (memlist_ n d)) →
  (∀ f, f ∈ fs' → flusher_ok n d' f) → NoDup (fs' ≫= held) → inv n d' ws fs' a vss.
Proof.
  intros I Hm Hvs m' d' T Hsst Hnum Hfs Hnd. pose proof (lookup_lt_Some _ _ _ Hm) as Hl.
  pose proof I as [H1 H2 H3 H4 H5 H6 H7 H8 H9 H10 H11 H12 H13 H14 H15 H16 H17 H18 H19]. split; try done.
  - cbn. by rewrite length_insert.
  - intros k mk vk Hmk Hvk. cbn [mems d'] in Hmk. destruct (decide (k = i)) as [->|Hne].
    + rewrite list_lookup_insert_eq in Hmk by done. simplify_eq. done.
    + rewrite list_lookup_insert_ne in Hmk by done. eapply table_frame; eauto.
  - intros k f x Hf Hx. cbn [files mems d'] in Hf, Hx. destruct (decide (k = i)) as [->|].
    + rewrite list_lookup_insert_eq in Hx by done. injection Hx as <-. by apply (H16 i f m).
    + rewrite list_lookup_insert_ne in Hx by done. by eapply H16.
Qed.

Lemma requested_insert (ms : list (memtable n)) i m k :
  (i < length ms)%nat → requested n (<[i := m]> ms) k = if decide (k = i) then CheckFlush_Requested n m else requested n ms k.
Proof.
  intros Hi. unfold requested. destruct (decide (k = i)) as [->|]; [by rewrite list_lookup_insert_eq|by rewrite list_lookup_insert_ne].
Qed.

(** ** Picking a memtable *)

Lemma pick_loop_spec (d : db n) l :
  (∀ k, k ∈ l → is_Some (mems n d !! k)) → filter (λ k, requested n (mems n d) k = true) l ≠ [] →
  ∃ i m, i ∈ l ∧ mems n d !! i = Some m ∧ flush_state n m = FLUSH_REQUESTED ∧
    pick_loop n l 0 d = Ok ([i], MkDb n (last_sequence_ n d) (<[i := SetFlushState n m FLUSH_PROCESSING]> (mems n d)) (mem_ n d)
      (memlist_ n d) (current_memtable_num_ n d) (int32 (num_flush_not_started_ n d - 1)) (sstable n d) (files n d) (draws n d)).
Proof.
  induction l as [|k l IH]; intros Hl Hne; [done|]. destruct (Hl k) as [m Hm]; [by left|]. cbn [pick_loop]. unfold at_index.
  rewrite Hm. cbn [mbind result_bind]. destruct (CheckFlush_Requested n m) eqn:E.
  - rewrite (set_state_eq n d k m) by done. cbn [mbind result_bind]. exists k, m. split; [by left|]. split; [done|].
    split; [by apply bool_decide_eq_true_1 in E|done].
  - rewrite filter_cons_False in Hne by (unfold requested; rewrite Hm, E; done).
    destruct IH as (i & m' & Hi & ?); [intros x Hx; apply Hl; by right|done|]. exists i, m'. split; [by right|done].
Qed.

Lemma filter_less (f g : nat → bool) l i :
  NoDup l → i ∈ l → f i = true → g i = false → (∀ k, k ≠ i → g k = f k) →
  len (filter (λ k, g k = true) l) = len (filter (λ k, f k = true) l) - 1.
Proof.
  intros Hnd Hi Hf Hg Hfg. apply elem_of_Permutation in Hi as [l' P]. rewrite P in Hnd. apply NoDup_cons in Hnd as [Hni _].
  unfold len. rewrite P. rewrite filter_cons_False by (rewrite Hg; done). rewrite filter_cons_True by done.
  rewrite (filter_same g f l') by (intros k Hk; apply Hfg; by intros ->). cbn. lia.
Qed.

Lemma memlist_NoDup d ws fs a vss : inv n d ws fs a vss → NoDup (memlist_ n d).
Proof. intros I. rewrite (iv_memlist _ _ _ _ _ _ I). rewrite reverse_Permutation. apply NoDup_seq. Qed.

(** The memtables that jobs hold are being flushed. *)
Lemma held_processing d ws fs a vss i :
  inv n d ws fs a vss → i ∈ fs ≫= held → ∃ m, mems n d !! i = Some m ∧ flush_state n m = FLUSH_PROCESSING.
Proof.
  intros I (f & Hi & Hf)%list_elem_of_bind. pose proof (iv_flushers _ _ _ _ _ _ I f Hf) as Hok.
  destruct f; cbn [flusher_ok held] in *; try by apply not_elem_of_nil in Hi.
  all: destruct Hok as (i' & m & -> & Hm & Hst); apply list_elem_of_singleton in Hi as ->; exists m; naive_solver.
Qed.

(** Jobs do not notice what happens to a memtable they do not hold. *)
Lemma flusher_other d d' f i :
  flusher_ok n d f → i ∉ held f → (∀ k, k ≠ i → mems n d' !! k = mems n d !! k) → flusher_ok n d' f.
Proof.
  intros Hok Hni Hk. destruct f; cbn [flusher_ok held] in *; try done.
  all: destruct Hok as (i' & m & -> & Hm & Hst); exists i', m; rewrite Hk by (intros ->; apply Hni; by left); naive_solver.
Qed.

Lemma Pick_ok d ws fs a vss j :
  inv n d ws fs a vss → fs !! j = Some FIdle → ∃ d' f', flusher_step n fuel d FIdle = Ok (d', f') ∧ inv n d' ws (<[j := f']> fs) a vss.
Proof.
  intros I Hj. cbn [flusher_step]. unfold IsFlushPending, Immutable_FlushTrigger.
  destruct (Z.leb_spec 1 (num_flush_not_started_ n d)) as [Hp|]; [|eexists _, _; split; [done|]; by eapply inv_flusher].
  pose proof (iv_requested _ _ _ _ _ _ I) as Hreq. unfold PickMemtablesToFlush.
  destruct (pick_loop_spec d (reverse (memlist_ n d))) as (i & m & Hi & Hm & Hst & ->).
  { intros k Hk. rewrite elem_of_reverse, (in_memlist I) in Hk. destruct (table_at I k) as (? & ? & -> & _); [lia|done]. }
  { intros E. rewrite Hreq in Hp. unfold len in Hp. rewrite <- (reverse_Permutation (memlist_ n d)), E in Hp. cbn in Hp. lia. }
  rewrite elem_of_reverse in Hi. cbn [mbind result_bind]. eexists _, _. split; [done|].
  pose proof (requested_length I) as Hle. pose proof (iv_small _ _ _ _ _ _ I) as Hsm. unfold Immutable_StopWritesTrigger in Hsm.
  rewrite int32_small by lia. pose proof (lookup_lt_Some _ _ _ Hm) as Hl. destruct (at_table I i m Hm) as [_ (vs & Hvs & T)].
  assert (i ∉ fs ≫= held) as Hfree.
  { intros (m' & Hm' & E)%(held_processing _ _ _ _ _ _ I). congruence. }
  pose proof (bind_insert held fs j FIdle (Picked [i]) Hj) as P. cbn in P.
  apply (inv_state d ws fs a vss i m vs FLUSH_PROCESSING); try done.
  - destruct T as [T1 T2 T3 T4 T5 T6 T7 T8 T9 T10 T11 T12]. split; try done; [by eapply mem_rel_table| |].
    + cbn. rewrite T8, Hst. by split; intros [=].
    + intros Hf. specialize (T9 Hf). congruence.
  - rewrite Hreq. symmetry. cbn [mems]. apply (filter_less (requested n (mems n d)) _ _ i); [by eapply memlist_NoDup|done| | |].
    + unfold requested, CheckFlush_Requested. by rewrite Hm, Hst.
    + by rewrite requested_insert, decide_True.
    + intros k Hk. by rewrite requested_insert, decide_False.
  - intros f [->|Hf]%elem_of_insert.
    + exists i. eexists. split; [done|]. split; [by apply list_lookup_insert_eq|done].
    + eapply flusher_other; [by apply (iv_flushers _ _ _ _ _ _ I)| |].
      * intros Hif. apply Hfree, list_elem_of_bind. eauto.
      * intros k Hk. cbn. by rewrite list_lookup_insert_ne.
  - rewrite <- P. apply NoDup_cons. split; [done|apply (iv_held _ _ _ _ _ _ I)].
Qed.

(** ** Waiting and building *)

Context (Hfuel : SZ + 30 < Z.of_nat fuel).

Lemma build_ok d ws fs a vss j f :
  inv n d ws fs a vss → fs !! j = Some f → match f with Picked _ | Ready _ => True | _ => False end →
  ∃ f', flusher_step n fuel d f = Ok (d, f') ∧ inv n d ws (<[j := f']> fs) a vss.
Proof.
  intros I Hj Hf. pose proof (iv_flushers _ _ _ _ _ _ I f (list_elem_of_lookup_2 _ _ _ Hj)) as Hok.
  destruct f as [|l|l| |]; try done; cbn [flusher_step flusher_ok] in *.
  - destruct Hok as (i & m & -> & Hm & Hst). destruct (at_table I i m Hm) as [_ (vs & _ & T)].
    cbn [no_pending_writer]. unfold at_index. rewrite Hm. cbn [mbind result_bind]. rewrite (to_full _ _ _ _ _ _ T). cbn [andb].
    destruct (able_to_flush n m) eqn:Ha; cbn [negb mbind result_bind]; (eexists; split; [done|]); eapply inv_flusher; try done; by exists i, m.
  - destruct Hok as (i & m & -> & Hm & Hst & Ha). cbn [for_tables]. rewrite (set_state_eq n d i m) by done. cbn [mbind result_bind].
    assert (SetFlushState n m FLUSH_PROCESSING = m) as -> by (rewrite <- Hst; by destruct m).
    rewrite list_insert_id by done. assert (set_mems n d (mems n d) = d) as -> by (by destruct d).
    destruct (at_table I i m Hm) as [_ (vs & Hvs & T)]. pose proof (vs_length I i m vs Hvs T) as Hl.
    rewrite (BuildTable_ok n fuel _ i m vs Hm (to_rel _ _ _ _ _ _ T) (to_keys _ _ _ _ _ _ T)) by (unfold len in Hl; lia).
    cbn [mbind result_bind]. eexists. split; [done|].
    eapply inv_flusher; try done. by exists i, m.
Qed.

Lemma Mark_ok d ws fs a vss j l sst :
  inv n d ws fs a vss → fs !! j = Some (Built l sst) →
  ∃ d', flusher_step n fuel d (Built l sst) = Ok (d', Marked) ∧ inv n d' ws (<[j := Marked]> fs) a vss.
Proof.
  intros I Hj. destruct (iv_flushers _ _ _ _ _ _ I _ (list_elem_of_lookup_2 _ _ _ Hj)) as (i & m & -> & Hm & Hst & Ha & ->).
  destruct (at_table I i m Hm) as [_ (vs & Hvs & T)]. pose proof (lookup_lt_Some _ _ _ Hm) as Hl.
  cbn [flusher_step]. rewrite !bool_decide_eq_true_2 by done.
  cbn [require mbind result_bind for_tables]. unfold mark_flushed, on_table, at_index. rewrite Hm. cbn [mbind result_bind].
  unfold MarkFlushed. rewrite bool_decide_eq_true_2 by done. cbn [require mbind result_bind]. eexists. split; [done|].
  pose proof (bind_insert held fs j _ Marked Hj) as P. cbn in P. pose proof (iv_held _ _ _ _ _ _ I) as Hnd. rewrite P in Hnd.
  apply NoDup_cons in Hnd as [Hfree Hnd].
  apply (inv_state d ws fs a vss i m vs FLUSH_FINISHED); try done.
  - destruct T as [T1 T2 T3 T4 T5 T6 T7 T8 T9 T10 T11 T12]. split; try done; [by eapply mem_rel_table| |].
    + cbn. rewrite T8, Hst. by split; intros [=].
    + intros _. split; [done|]. cbn. by rewrite lookup_insert_eq.
  - intros k Hk. by rewrite lookup_insert_ne.
  - cbn [set_mems num_flush_not_started_]. rewrite (iv_requested _ _ _ _ _ _ I). do 2 f_equal. apply filter_same. intros k _. cbn [mems set_mems].
    rewrite requested_insert by done. case_decide as E; [|done]. subst k. unfold requested, CheckFlush_Requested. rewrite Hm, Hst. done.
  - intros f Hf. assert (i ∉ held f) as Hni.
    { intros Hi. apply Hfree, list_elem_of_bind. eauto. }
    apply elem_of_insert in Hf as [->|Hf]; [done|]. eapply flusher_other; [by apply (iv_flushers _ _ _ _ _ _ I)|done|].
    intros k Hk. cbn. by rewrite list_lookup_insert_ne.
Qed.

(** ** Installing *)

(** The flushed memtables at the old end of the list. *)
Lemma finished_spec d ws fs a vss k :
  inv n d ws fs a vss → ∀ K, (K + k ≤ mem_ n d)%nat →
  ∃ batch, finished_tables n d (seq K k) = Ok batch ∧ (length batch ≤ k)%nat ∧
    ∀ x sst, batch !! x = Some sst → ∃ m, mems n d !! (K + x)%nat = Some m ∧ flush_state n m = FLUSH_FINISHED ∧ sst = flushed m.
Proof.
  intros I. induction k as [|k IH]; intros K HK; [by exists []|]. cbn [seq finished_tables].
  destruct (table_at I K) as (m & vs & Hm & _ & T); [lia|]. unfold at_index. rewrite Hm. cbn [mbind result_bind].
  unfold CheckFlushFinished. case_bool_decide as Hst; [|by exists []; split; [|split; [cbn; lia|]]].
  destruct (to_finished _ _ _ _ _ _ T Hst) as [_ ->]. destruct (IH (S K)) as (batch & -> & Hlen & Hb); [lia|].
  cbn [mbind result_bind]. eexists. split; [done|]. split; [cbn; lia|]. intros [|x] sst Hx; cbn in Hx.
  - injection Hx as <-. exists m. by rewrite Nat.add_0_r.
  - destruct (Hb x sst Hx) as (m' & ? & ?). exists m'. by rewrite <- Nat.add_succ_comm.
Qed.

Lemma Install_ok d ws fs a vss j :
  inv n d ws fs a vss → fs !! j = Some Marked → ∃ d', flusher_step n fuel d Marked = Ok (d', FIdle) ∧ inv n d' ws (<[j := FIdle]> fs) a vss.
Proof.
  intros I Hj. pose proof I as [H1 H2 H3 H4 H5 H6 H7 H8 H9 H10 H11 H12 H13 H14 H15 H16 H17 H18 H19].
  set (K := length (files n d)) in *. set (C := mem_ n d) in *. cbn [flusher_step]. unfold install.
  assert (reverse (memlist_ n d) = seq K (C - K)) as Erev by (by rewrite H5, reverse_involutive). rewrite Erev.
  destruct (finished_spec _ _ _ _ _ (C - K) I K) as (batch & -> & Hlen & Hb); [fold C; lia|]. cbn [mbind result_bind].
  set (c := length batch) in *. eexists. split; [done|].
  assert (length (memlist_ n d) = (C - K)%nat) as Hml by (by rewrite H5, length_reverse, length_seq).
  assert (memlist_ n d = reverse (seq (K + c) (C - K - c)) ++ reverse (seq K c)) as Esplit.
  { rewrite H5, <- reverse_app, <- seq_app. do 2 f_equal. lia. }
  assert (take (length (memlist_ n d) - c) (memlist_ n d) = reverse (seq (K + c) (C - K - c))) as ->.
  { rewrite Hml, Esplit. apply take_app_length'. by rewrite length_reverse, length_seq. }
  apply (inv_flusher _ _ _ _ _ _ Marked); try done.
  split; cbn [mems mem_ memlist_ current_memtable_num_ num_flush_not_started_ sstable files last_sequence_]; fold K C; try done.
  - intros i m vs Hm Hvs. destruct (H3 i m vs Hm Hvs) as [T1 T2 T3 T4 T5 T6 T7 T8 T9 T10 T11 T12]. split; try done.
    cbn [files]. rewrite length_app. fold K c. intros Hi. destruct (decide (i < K)%nat) as [|Hk]; [by apply T9|].
    destruct (lookup_lt_is_Some_2 batch (i - K)%nat) as [sst Hx]; [fold c; lia|]. destruct (Hb _ _ Hx) as (m' & Hm' & Hst & _).
    replace (K + (i - K))%nat with i in Hm' by lia. by simplify_eq.
  - rewrite length_app. fold K c. lia.
  - rewrite length_app. fold K c. do 2 f_equal. lia.
  - rewrite H6. unfold len. rewrite Hml, length_reverse, length_seq. fold C. unfold len, Immutable_StopWritesTrigger in H18.
    rewrite wrap_small by (split; lia). lia.
  - rewrite H7, Esplit, filter_app, len_app. enough (filter (λ i, requested n (mems n d) i = true) (reverse (seq K c)) = []) as ->.
    { change (len (@nil nat)) with 0. lia. }
    apply filter_none. intros i Hi. apply elem_of_reverse, elem_of_seq in Hi.
    destruct (lookup_lt_is_Some_2 batch (i - K)%nat) as [sst Hx]; [fold c; lia|]. destruct (Hb _ _ Hx) as (m' & Hm' & Hst & _).
    replace (K + (i - K))%nat with i in Hm' by lia. unfold requested, CheckFlush_Requested. by rewrite Hm', Hst.
  - intros i f m Hf Hm. apply lookup_app_Some in Hf as [Hf|[Hge Hf]]; [by eapply H16|].
    destruct (Hb _ _ Hf) as (m' & Hm' & _ & ->). fold K in Hge, Hm'. replace (K + (i - K))%nat with i in Hm' by lia. by simplify_eq.
  - rewrite Esplit, len_app in H18. pose proof (len_pos (reverse (seq K c))). lia.
Qed.

End flusher_steps.

(** ** Runs *)

Section runs.
Context (n fuel : nat) (heights : nat → nat) (Hh : ∀ i, (1 ≤ heights i ≤ 12)%nat) (Hfuel : SZ + 30 < Z.of_nat fuel).

(** A step, as long as there are sequence numbers. *)
Definition counted_step (s s' : sys n) : Prop :=
  sys_step n fuel heights s s' ∧ last_sequence_ n (database n s') ≤ kMaxSequenceNumber.

Definition sys_inv (s : sys n) (vss : list (list version)) : Prop :=
  inv n (database n s) (writers n s) (flushers n s) (acked n s) vss.

Lemma writer_ok_step level0 imm_num d ws fs a vss j w :
  inv n d ws fs a vss → ws !! j = Some w →
  ∃ d' w', writer_step n fuel heights level0 imm_num d w = Ok (d', w') ∧
    (w ≠ Idle → last_sequence_ n d' ≤ kMaxSequenceNumber → ∃ vss', inv n d' (<[j := w']> ws) fs (ack w ++ a) vss').
Proof.
  intros I Hj. destruct w as [|u|u seq dl|u seq i dl|u seq dl|u seq dl|u seq o|u seq i|u seq i|u seq i|u seq i].
  - by eexists _, _.
  - destruct (Start_ok n fuel heights level0 imm_num d ws fs a vss j u I Hj) as (d' & E & H). eexists _, _. split; [done|]. eauto.
  - destruct (search_ok n fuel heights level0 imm_num d ws fs a vss j _ I Hj) as (w' & E & H); [done|]. eexists _, _. split; [done|]. eauto.
  - destruct (search_ok n fuel heights level0 imm_num d ws fs a vss j _ I Hj) as (w' & E & H); [done|]. eexists _, _. split; [done|]. eauto.
  - destruct (search_ok n fuel heights level0 imm_num d ws fs a vss j _ I Hj) as (w' & E & H); [done|]. eexists _, _. split; [done|]. eauto.
  - destruct (Switch_ok n fuel heights level0 imm_num d ws fs a vss j u seq dl I Hj) as (d' & w' & vss' & E & H). eexists _, _. split; [done|]. eauto.
  - destruct (search_ok n fuel heights level0 imm_num d ws fs a vss j _ I Hj) as (w' & E & H); [done|]. eexists _, _. split; [done|]. eauto.
  - destruct (Insert_ok n fuel heights Hh Hfuel level0 imm_num d ws fs a vss j u seq i I Hj) as (d' & vss' & E & H). eexists _, _. split; [done|]. eauto.
  - destruct (Increase_ok n fuel heights level0 imm_num d ws fs a vss j u seq i I Hj) as (d' & vss' & E & H). eexists _, _. split; [done|]. eauto.
  - destruct (Check_ok n fuel heights level0 imm_num d ws fs a vss j u seq i I Hj) as (E & H). eexists _, _. split; [done|]. eauto.
  - destruct (Able_ok n fuel heights level0 imm_num d ws fs a vss j u seq i I Hj) as (d' & vss' & E & H). eexists _, _. split; [done|]. eauto.
Qed.

Lemma flusher_ok_step d ws fs a vss j f :
  inv n d ws fs a vss → fs !! j = Some f → ∃ d' f', flusher_step n fuel d f = Ok (d', f') ∧ inv n d' ws (<[j := f']> fs) a vss.
Proof.
  intros I Hj. destruct f as [|l|l|l sst|].
  - by eapply Pick_ok.
  - destruct (build_ok n fuel Hfuel d ws fs a vss j _ I Hj) as (f' & ? & ?); [done|]. eauto.
  - destruct (build_ok n fuel Hfuel d ws fs a vss j _ I Hj) as (f' & ? & ?); [done|]. eauto.
  - destruct (Mark_ok n fuel d ws fs a vss j l sst I Hj) as (d' & ? & ?). eauto.
  - destruct (Install_ok n fuel d ws fs a vss j I Hj) as (d' & ? & ?). eauto.
Qed.

Lemma step_inv s s' vss : sys_inv s vss → counted_step s s' → ∃ vss', sys_inv s' vss'.
Proof.
  unfold sys_inv. intros I [Hs Hmax]. inversion Hs as [d ws fs a j u Hj Hu|d ws fs a j w l0 num d' w' Hj Hne E|d ws fs a j f d' f' Hj E];
    subst; cbn [database writers flushers acked] in *.
  - exists vss. apply (inv_move n d ws fs a vss j Idle); try done; [by left|]. by intros u' [= <-].
  - destruct (writer_ok_step l0 num d ws fs a vss j w I Hj) as (d1 & w1 & E1 & H). rewrite E in E1. injection E1 as <- <-. by apply H.
  - destruct (flusher_ok_step d ws fs a vss j f I Hj) as (d1 & f1 & E1 & H). rewrite E in E1. injection E1 as <- <-. eauto.
Qed.

(** A database that has just been opened, with threads that do nothing yet. *)
Definition start (d : db n) (W F : nat) : sys n := MkSys n d (replicate W Idle) (replicate F FIdle) [].

Lemma start_inv d W F : open_db n = Ok d → Z.of_nat W ≤ SZ → sys_inv (start d W F) [[]].
Proof.
  intros E HW. unfold open_db in E. destruct (make_memtable_rel n) as (m & Em & Hm). rewrite Em in E. cbn [mbind result_bind] in E.
  unfold make_memtable in Em. apply bind_Ok in Em as (t & _ & [= <-]). injection E as <-.
  assert (∀ {A} (f : writer → option A), f Idle = None → omap f (replicate W Idle) = []) as Hnil.
  { intros A f Hf. induction W as [|W IH]; cbn; [done|]. rewrite Hf, IH; [done|lia]. }
  split; cbn [database writers flushers acked start mems mem_ memlist_ current_memtable_num_ num_flush_not_started_ sstable files last_sequence_]; try done.
  - intros [|i] x vs Hx Hvs; [|done]. injection Hx as <-. injection Hvs as <-. split; try done.
    + eapply mem_rel_table; [exact Hm|done].
    + cbn [seq_count Ref SetLargestSeq SetFirstSeq]. unfold uncounted. by rewrite Hnil.
    + cbn. lia.
  - by rewrite Hnil.
  - by left.
  - unfold len. by rewrite length_replicate.
  - intros w Hw. by apply elem_of_replicate in Hw as [-> _].
  - intros w u Hw. by apply elem_of_replicate in Hw as [-> _].
  - intros f Hf. by apply elem_of_replicate in Hf as [-> _].
  - enough (replicate F FIdle ≫= held = []) as -> by constructor. clear. induction F; [done|]. cbn. done.
  - intros v Hv. by apply not_elem_of_nil in Hv.
  - intros [|i] vs v Hvs Hv; [|done]. injection Hvs as <-. by apply not_elem_of_nil in Hv.
Qed.

Lemma run_inv d W F s : open_db n = Ok d → Z.of_nat W ≤ SZ → rtc counted_step (start d W F) s → ∃ vss, sys_inv s vss.
Proof.
  intros E HW. revert s. apply rtc_ind_r; [exists [[]]; by apply start_inv|]. intros s s' _ Hs [vss I]. by eapply step_inv.
Qed.

Lemma version_in_entries i m vs v d ws : table_ok n d ws i m vs → v ∈ vs → version_bytes v ∈ entries m.
Proof.
  intros T Hv. unfold entries. rewrite (mr_contents _ _ _ (to_rel _ _ _ _ _ _ T)). apply list_elem_of_fmap. eauto.
Qed.

Lemma table_superseded d ws fs a vss i m vs v :
  inv n d ws fs a vss → vss !! i = Some vs → table_ok n d ws i m vs → v ∈ vs → superseded (flushed m) v.
Proof. intros I Hvs T Hv. apply (flushed_superseded n m vs); [apply T|by eapply distinct_seqs, (vs_NoDup I)|done]. Qed.

(** C4: no write is lost.  In a database opened on an empty directory, writers of
    user keys of at least eight bytes ([write_ok]) take sequence numbers and put
    their updates into memtables, making new ones, while flush jobs turn memtables
    into tables and drop them; there are no more writers than numbers in a
    memtable, and the sequence numbers do not run out ([counted_step]).  Then in
    every state that can be reached, whatever thread goes next, its step fails no
    assertion and follows no null pointer; a write whose call has returned is in
    a memtable that readers look at or, once that has been dropped, in the table
    made from it unless a newer write of the key is there; and a table is made of
    one version for every sequence number of its memtable and holds the newest
    of every key. *)
Theorem writes_not_lost d0 W F s :
  open_db n = Ok d0 → Z.of_nat W ≤ MEMTABLE_SEQ_SIZE → rtc counted_step (start d0 W F) s →
  let d := database n s in
  (∀ j w level0 imm_num, writers n s !! j = Some w → ∃ d' w', writer_step n fuel heights level0 imm_num d w = Ok (d', w')) ∧
  (∀ j f, flushers n s !! j = Some f → ∃ d' f', flusher_step n fuel d f = Ok (d', f')) ∧
  (∀ v, v ∈ acked n s → ∃ i m, mems n d !! i = Some m ∧ version_bytes v ∈ entries m ∧
    match files n d !! i with Some f => superseded f v | None => i ∈ mem_ n d :: memlist_ n d end) ∧
  (∀ i f, files n d !! i = Some f → ∃ vs ks,
    v_seq <$> vs ≡ₚ seqZ (MEMTABLE_SEQ_SIZE * Z.of_nat i) MEMTABLE_SEQ_SIZE ∧
    f = kv_of <$> ks ∧ ∀ v, v ∈ ks ↔ newest (v_key v) kMaxSequenceNumber vs = Some v).
Proof.
  intros E HW Hrun d. destruct (run_inv d0 W F s E HW Hrun) as [vss I]. unfold sys_inv in I. fold d in I. split_and!.
  - intros j w level0 imm_num Hj. destruct (writer_ok_step level0 imm_num d _ _ _ vss j w I Hj) as (d' & w' & ? & _). eauto.
  - intros j f Hj. destruct (flusher_ok_step d _ _ _ vss j f I Hj) as (d' & f' & ? & _). eauto.
  - intros v Hv. destruct (iv_acked _ _ _ _ _ _ I v Hv) as (i & vs & Hvs & Hin). pose proof (lookup_lt_Some _ _ _ Hvs) as Hlt.
    rewrite (iv_vss _ _ _ _ _ _ I) in Hlt. destruct (table_at I i) as (m & vs' & Hm & Hvs' & T); [lia|]. simplify_eq.
    exists i, m. split; [done|]. pose proof (version_in_entries i m _ v d _ T Hin) as He. split; [done|].
    destruct (files n d !! i) as [f|] eqn:Ef; [rewrite (iv_files _ _ _ _ _ _ I i f m Ef Hm); by eapply table_superseded|].
    apply lookup_ge_None in Ef. apply elem_of_cons. rewrite (in_memlist I). destruct (decide (i = mem_ n d)); [by left|right; lia].
  - intros i f Hf. pose proof (lookup_lt_Some _ _ _ Hf) as Hlt. pose proof (iv_installed _ _ _ _ _ _ I).
    destruct (table_at I i) as (m & vs & Hm & Hvs & T); [lia|]. rewrite (iv_files _ _ _ _ _ _ I i f m Hf Hm).
    destruct (flushed_spec n m vs (to_rel _ _ _ _ _ _ T) (distinct_seqs vs (vs_NoDup I i vs Hvs))) as (ks & -> & _ & Hks).
    exists vs, ks. split; [|done]. apply (vs_full I i m vs Hvs T).
    apply (to_finished _ _ _ _ _ _ T), (to_installed _ _ _ _ _ _ T), Hlt.
Qed.

(** ** Reads *)

(** The versions in a list of memtables. *)
Definition live (vss : list (list version)) (l : list nat) : list version := l ≫= λ i, default [] (vss !! i).

Lemma elem_of_live vss l v : v ∈ live vss l ↔ ∃ i vs, i ∈ l ∧ vss !! i = Some vs ∧ v ∈ vs.
Proof.
  unfold live. rewrite list_elem_of_bind. split.
  - intros (i & Hv & Hi). destruct (vss !! i) as [vs|] eqn:E; [|by apply not_elem_of_nil in Hv]. by exists i, vs.
  - intros (i & vs & Hi & E & Hv). exists i. by rewrite E.
Qed.

Lemma live_take vss K k : (K + k ≤ length vss)%nat → live vss (seq K k) = concat (take k (drop K vss)).
Proof.
  revert K. induction k as [|k IH]; intros K Hl; [done|]. cbn [seq]. unfold live in *. cbn [mbind list_bind].
  destruct (lookup_lt_is_Some_2 vss K) as [vs Hvs]; [lia|]. rewrite Hvs, (drop_S vss vs K Hvs). cbn [default take concat].
  f_equal. apply IH. lia.
Qed.

Lemma live_sorted d ws fs a vss i l v w :
  inv n d ws fs a vss → (∀ k, k ∈ l → (k < i)%nat) → (i ≤ mem_ n d)%nat →
  v ∈ live vss [i] → w ∈ live vss l → v_seq w < v_seq v.
Proof.
  intros I Hl Hi (i' & vs & ->%list_elem_of_singleton & Hvs & Hv)%elem_of_live (k & vk & Hk & Hvk & Hw)%elem_of_live.
  specialize (Hl k Hk). destruct (table_at I i Hi) as (m & vs' & _ & Hvs' & T). destruct (table_at I k) as (mk & vk' & _ & Hvk' & Tk); [lia|].
  simplify_eq. pose proof (proj1 (Forall_forall _ _) (to_range _ _ _ _ _ _ T) v Hv).
  pose proof (proj1 (Forall_forall _ _) (to_range _ _ _ _ _ _ Tk) w Hw). cbn in *. szlia.
Qed.

Lemma reverse_seq_sorted K k : StronglySorted (λ x y, y < x)%nat (reverse (seq K k)).
Proof.
  induction k as [|k IH]; [constructor|]. rewrite seq_S, reverse_app. cbn. constructor; [done|].
  apply Forall_forall. intros x. rewrite elem_of_reverse, elem_of_seq. lia.
Qed.

Lemma GetFromList_ok d ws fs a vss k s key l :
  inv n d ws fs a vss → version_ok n (MkVersion s kTypeValue k []) → make_lookup k s = Ok key →
  StronglySorted (λ x y, y < x)%nat l → (∀ i, i ∈ l → (i ≤ mem_ n d)%nat) →
  GetFromList n fuel (mems n d) l key = Ok (answer_of <$> newest k s (live vss l)).
Proof.
  intros I Hok Hkey Hs Hl.
  induction Hs as [|i l Hs IH Hi]; [done|]. cbn [GetFromList].
  destruct (table_at I i) as (m & vs & Hm & Hvs & T); [apply Hl; by left|]. unfold at_index. rewrite Hm. cbn [mbind result_bind].
  assert (distinct vs) as Hd by (apply distinct_seqs; by eapply (vs_NoDup I)).
  pose proof (vs_length I i m vs Hvs T) as Hlen. unfold len in Hlen.
  pose proof (Get_rel n k s Hok m vs fuel (to_rel _ _ _ _ _ _ T) Hd ltac:(lia)) as HG. rewrite Hkey in HG. cbn [mbind result_bind] in HG.
  rewrite HG. cbn [mbind result_bind]. change (live vss (i :: l)) with (default [] (vss !! i) ++ live vss l). rewrite Hvs. cbn [default id].
  rewrite newest_app.
  - destruct (newest k s vs); [done|]. cbn. apply IH. intros j Hj. apply Hl. by right.
  - rewrite Forall_forall in Hi. intros v w Hv Hw _. apply Z.lt_le_incl. eapply (live_sorted _ _ _ _ _ i l); [done|exact Hi|apply Hl; by left| |done].
    apply elem_of_live. exists i, vs. split; [by left|done].
Qed.

(** ** How a database grows *)

Definition grows (d d' : db n) : Prop := (mem_ n d ≤ mem_ n d')%nat ∧ files n d `prefix_of` files n d'.

#[local] Instance grows_preorder : PreOrder grows.
Proof. split; [by intros d|]. intros d1 d2 d3 [? H] [? H']. split; [lia|by etrans]. Qed.

Ltac unbind := repeat match goal with
  | H : _ ≫= _ = Ok _ |- _ => apply bind_Ok in H as (? & ? & H)
  | H : (let '(_, _) := ?x in _) = Ok _ |- _ => destruct x
  | H : (if ?b then _ else _) = Ok _ |- _ => destruct b
  | H : match ?x with _ => _ end = Ok _ |- _ => destruct x
  | H : Ok _ = Ok _ |- _ => injection H as ?; subst
  | H : Err _ = Ok _ |- _ => discriminate H
  end.

Lemma on_table_same {A} d i (f : memtable n → result (A * memtable n)) p d' :
  on_table n d i f = Ok (p, d') → mem_ n d' = mem_ n d ∧ files n d' = files n d ∧ length (mems n d') = length (mems n d).
Proof. unfold on_table. intros E. unbind. split_and!; [done|done|apply length_insert]. Qed.

Lemma set_state_same d i st d' : set_state n d i st = Ok d' → mem_ n d' = mem_ n d ∧ files n d' = files n d ∧ length (mems n d') = length (mems n d).
Proof. unfold set_state. intros E. unbind. by eapply on_table_same. Qed.

Lemma for_tables_same (P : db n → db n → Prop) `{!PreOrder P} f l : (∀ d i d', f d i = Ok d' → P d d') → ∀ d d', for_tables n d l f = Ok d' → P d d'.
Proof.
  intros Hf. induction l as [|i l IH]; intros d d' E; cbn in E; [injection E as <-; reflexivity|].
  unbind. etrans; [by eapply Hf|by apply IH].
Qed.

Lemma same_grows d d' : mem_ n d' = mem_ n d ∧ files n d' = files n d ∧ length (mems n d') = length (mems n d) → grows d d'.
Proof. intros (E1 & E2 & _). split; [lia|by rewrite E2]. Qed.

Lemma pick_loop_grows l : ∀ k d p d', pick_loop n l k d = Ok (p, d') → grows d d'.
Proof.
  induction l as [|i l IH]; intros k d p d' E; cbn in E; [injection E as _ <-; reflexivity|]. unbind.
  - etrans; [by eapply same_grows, set_state_same|]. by split.
  - etrans; [by eapply same_grows, set_state_same|]. etrans; [|by eapply IH]. by split.
  - by eapply IH.
Qed.

Lemma writer_grows level0 imm_num d w d' w' :
  length (mems n d) = S (mem_ n d) → writer_step n fuel heights level0 imm_num d w = Ok (d', w') → grows d d'.
Proof.
  intros Hl E. destruct w as [|u|u seq dl|u seq i dl|u seq dl|u seq dl|u seq o|u seq i|u seq i|u seq i|u seq i]; cbn [writer_step] in E.
  - by unbind.
  - unfold AssignSequnceNumbers in E. by unbind.
  - by unbind.
  - by unbind.
  - by unbind.
  - unfold switch_memtable, Add in E. unbind; [|done].
    repeat match goal with H : set_state _ _ _ _ = Ok _ |- _ => apply set_state_same in H as (? & ? & ?) end. cbn in *. split; cbn; [lia|].
    eapply eq_ind; [reflexivity|congruence].
  - by unbind.
  - unfold insert_batch in E. unbind. etrans; [by eapply same_grows, on_table_same|]. by split.
  - unbind. by eapply same_grows, on_table_same.
  - by unbind.
  - unbind. by eapply same_grows, on_table_same.
Qed.

Lemma flusher_grows d f d' f' : flusher_step n fuel d f = Ok (d', f') → grows d d'.
Proof.
  intros E. destruct f as [|l|l|l sst|]; cbn [flusher_step] in E; unbind; try done.
  - by eapply pick_loop_grows.
  - eapply for_tables_same; [apply _| |done]. intros y i y' Hy. eapply same_grows, set_state_same, Hy.
  - eapply for_tables_same; [apply _| |done]. intros y i y' Hy. unfold mark_flushed in Hy. unbind.
    etrans; [by eapply same_grows, on_table_same|]. by split.
  - unfold install in *. unbind. split; [done|]. cbn. by eexists.
Qed.

Lemma run_grows s1 s vss : sys_inv s1 vss → rtc counted_step s1 s → grows (database n s1) (database n s).
Proof.
  intros I Hrun. revert vss I. induction Hrun as [s|s s' s'' Hs _ IH]; intros vss I; [done|]. destruct (step_inv _ _ _ I Hs) as [vss' I'].
  etrans; [|by eapply IH]. destruct Hs as [Hs _]. pose proof (iv_mems _ _ _ _ _ _ I) as Hl.
  inversion Hs; subst; cbn [database] in *; [done|by eapply writer_grows|by eapply flusher_grows].
Qed.

(** C12: reads through a super version.  A reader holds a super version that was
    installed in an earlier state [s1]: the memtables there were then.  In every
    state [s] reached since, what it finds for a key at a snapshot in the current
    memtable of the super version and its immutable ones, newest first, is the
    newest version of the key that is not newer than the snapshot, among versions
    [vs] with distinct sequence numbers.  Besides writes that are about to return
    these are all of those whose calls have returned, but for those of memtables
    that had been dropped in [s1], whose tables have them or newer ones of the
    same key, and for those that went to a memtable made after [s1]. *)
Theorem reads_see_writes d0 W F s1 s :
  open_db n = Ok d0 → Z.of_nat W ≤ MEMTABLE_SEQ_SIZE → rtc counted_step (start d0 W F) s1 → rtc counted_step s1 s →
  let sv := super_version n (database n s1) in
  ∃ vs, NoDup (v_seq <$> vs) ∧
    (∀ v, v ∈ acked n s → v ∈ vs ∨ (∃ i f, files n (database n s1) !! i = Some f ∧ superseded f v) ∨
      MEMTABLE_SEQ_SIZE * Z.of_nat (S (sv_mem sv)) ≤ v_seq v) ∧
    (∀ v, v ∈ vs → v ∈ acked n s ∨ ∃ w, w ∈ writers n s ∧ inserted w = [v]) ∧
    ∀ k snapshot, 0 ≤ snapshot ≤ kMaxSequenceNumber → Forall byte k → (length k ≤ n)%nat → len k + 8 < 2 ^ 32 →
      get_in_memory n fuel (database n s) sv k snapshot = Ok (answer_of <$> newest k snapshot vs).
Proof.
  intros E HW Hrun1 Hrun sv. destruct (run_inv d0 W F s1 E HW Hrun1) as [vss1 I1].
  destruct (run_inv d0 W F s E HW (transitivity Hrun1 Hrun)) as [vss I]. destruct (run_grows s1 s vss1 I1 Hrun) as [HC HF].
  unfold sys_inv in I, I1. set (d := database n s) in *. set (d1 := database n s1) in *.
  set (C := mem_ n d1) in *. set (K := length (files n d1)). pose proof (iv_installed _ _ _ _ _ _ I1) as HK. fold C K in HK.
  assert (C :: memlist_ n d1 = reverse (seq K (S C - K))) as El.
  { rewrite (iv_memlist _ _ _ _ _ _ I1). fold C K. replace (S C - K)%nat with (S (C - K)) by lia. rewrite seq_S, reverse_app. cbn. f_equal. lia. }
  exists (live vss (C :: memlist_ n d1)). split_and!.
  - assert (∃ x y, concat vss ≡ₚ x ++ live vss (C :: memlist_ n d1) ++ y) as (x & y & P).
    { exists (concat (take K vss)), (concat (drop (S C) vss)). rewrite <- (take_drop K vss) at 1. rewrite concat_app. apply Permutation_app_head.
      rewrite <- (take_drop (S C - K) (drop K vss)), concat_app, drop_drop. replace (K + (S C - K))%nat with (S C) by lia. apply Permutation_app_tail.
      unfold live. rewrite El, reverse_Permutation. rewrite <- (live_take vss K (S C - K)); [done|]. rewrite (iv_vss _ _ _ _ _ _ I). lia. }
    pose proof (seqs_NoDup I) as (_ & _ & Hnd)%NoDup_app. rewrite P, !fmap_app in Hnd. apply NoDup_app in Hnd as (_ & _ & Hnd).
    by apply NoDup_app in Hnd as (? & _).
  - intros v Hv. destruct (iv_acked _ _ _ _ _ _ I v Hv) as (i & vs & Hvs & Hin). pose proof (lookup_lt_Some _ _ _ Hvs) as Hlt.
    rewrite (iv_vss _ _ _ _ _ _ I) in Hlt. destruct (table_at I i) as (m & vs' & Hm & Hvs' & T); [lia|]. simplify_eq.
    destruct (decide (i < K)%nat) as [Hi|Hi]; [right; left|destruct (decide (i ≤ C)%nat) as [Hc|Hc]; [left|right; right]].
    + destruct (lookup_lt_is_Some_2 (files n d1) i Hi) as [f Hf]. exists i, f. split; [done|].
      rewrite (iv_files _ _ _ _ _ _ I i f m (prefix_lookup_Some _ _ _ _ Hf HF) Hm). by eapply table_superseded.
    + apply elem_of_live. exists i, vs. split; [|done]. rewrite El, elem_of_reverse, elem_of_seq. lia.
    + pose proof (proj1 (Forall_forall _ _) (to_range _ _ _ _ _ _ T) v Hin) as Hr. cbn in Hr. change (sv_mem sv) with C. szlia.
  - intros v (i & vs & _ & Hvs & Hv)%elem_of_live. exact (iv_written _ _ _ _ _ _ I i vs v Hvs Hv).
  - intros k sn Hsn Hk Hl Hkl. assert (version_ok n (MkVersion sn kTypeValue k [])) as Hok by (by split).
    destruct (make_lookup_ok n k sn Hok) as (key & Hkey & _). unfold get_in_memory. rewrite Hkey. cbn [mbind result_bind].
    change (m ← at_index (mems n d) (sv_mem sv); a ← Get n m fuel key;
      match a with Some a => Ok (Some a) | None => GetFromList n fuel (mems n d) (sv_imm sv) key end)
      with (GetFromList n fuel (mems n d) (C :: memlist_ n d1) key).
    apply (GetFromList_ok d (writers n s) (flushers n s) (acked n s)); try done.
    + rewrite El. apply reverse_seq_sorted.
    + intros i Hi. rewrite El, elem_of_reverse, elem_of_seq in Hi. lia.
Qed.

(** ** A run: a writer puts a key, and the call returns *)

Definition sample_update : update := UPut [1; 2; 3; 4; 5; 6; 7; 8] [9].

Lemma sample_step d ws fs a w w' d' vss :
  sys_inv (MkSys n d ws fs a) vss → ws !! 0%nat = Some w → w ≠ Idle → writer_step n fuel heights 0 0 d w = Ok (d', w') →
  last_sequence_ n d' ≤ kMaxSequenceNumber →
  ∃ vss', sys_inv (MkSys n d' (<[0%nat := w']> ws) fs (ack w ++ a)) vss' ∧
    counted_step (MkSys n d ws fs a) (MkSys n d' (<[0%nat := w']> ws) fs (ack w ++ a)).
Proof.
  intros I Hw Hne E Hmax. assert (counted_step (MkSys n d ws fs a) (MkSys n d' (<[0%nat := w']> ws) fs (ack w ++ a))) as Hs
    by (split; [by eapply step_writer|done]).
  destruct (step_inv _ _ _ I Hs) as [vss' ?]. eauto.
Qed.

Lemma write_run :
  (8 ≤ n)%nat → ∃ d0 s, open_db n = Ok d0 ∧ rtc counted_step (start d0 1 1) s ∧ acked n s = [MkVersion 0 kTypeValue [1; 2; 3; 4; 5; 6; 7; 8] [9]].
Proof.
  intros Hn. destruct (make_memtable_rel n) as (m & Em & _). set (m0 := Ref n (SetLargestSeq n (SetFirstSeq n m 0) (MEMTABLE_SEQ_SIZE - 1))).
  set (D := λ k, MkDb n k [m0] 0 [] 0 0 ∅ [] 0). assert (open_db n = Ok (D 0)) as E0 by (unfold open_db; by rewrite Em).
  pose proof (start_inv (D 0) 1 1 E0 ltac:(done)) as I. exists (D 0).
  assert (counted_step (start (D 0) 1 1) (MkSys n (D 0) [Start sample_update] [FIdle] [])) as S0.
  { split; [|done]. apply (step_call n fuel heights (D 0) [Idle] [FIdle] [] 0%nat); [done|].
    repeat split; try (by repeat constructor); cbn; lia. }
  destruct (step_inv _ _ _ I S0) as [v0 I0].
  destruct (sample_step (D 0) _ _ _ (Start sample_update) (Reload sample_update 0 false) (D 1) _ I0) as (v1 & I1 & S1); try done.
  destruct (sample_step (D 1) _ _ _ (Reload sample_update 0 false) (Loop sample_update 0 0 false) (D 1) _ I1) as (v2 & I2 & S2); try done.
  destruct (sample_step (D 1) _ _ _ (Loop sample_update 0 0 false) (Find sample_update 0 (Some 0%nat)) (D 1) _ I2) as (v3 & I3 & S3); try done.
  destruct (sample_step (D 1) _ _ _ (Find sample_update 0 (Some 0%nat)) (Insert sample_update 0 0) (D 1) _ I3) as (v4 & I4 & S4); try done.
  destruct (Insert_ok n fuel heights Hh Hfuel 0 0 _ _ _ _ _ 0 sample_update 0 0 I4) as (d5 & v5 & E5 & I5); [done|].
  destruct (sample_step _ _ _ _ _ _ _ _ I4 eq_refl ltac:(done) E5) as (_ & _ & S5); [apply (iv_bounds _ _ _ _ _ _ I5)|].
  destruct (Increase_ok n fuel heights 0 0 _ _ _ _ _ 0 sample_update 0 0 I5) as (d6 & v6 & E6 & I6); [done|].
  destruct (sample_step _ _ _ _ _ _ _ v5 I5 eq_refl ltac:(done) E6) as (_ & _ & S6); [apply (iv_bounds _ _ _ _ _ _ I6)|].
  destruct (Check_ok n fuel heights 0 0 _ _ _ _ _ 0 sample_update 0 0 I6) as (E7 & I7); [done|].
  destruct (sample_step _ _ _ _ _ _ _ v6 I6 eq_refl ltac:(done) E7) as (_ & _ & S7); [apply (iv_bounds _ _ _ _ _ _ I7)|].
  destruct (Able_ok n fuel heights 0 0 _ _ _ _ _ 0 sample_update 0 0 I7) as (d8 & v8 & E8 & I8); [done|].
  destruct (sample_step _ _ _ _ _ _ _ v6 I7 eq_refl ltac:(done) E8) as (_ & _ & S8); [apply (iv_bounds _ _ _ _ _ _ I8)|].
  eexists. split; [exact E0|]. split.
  { eapply rtc_l; [exact S0|]. eapply rtc_l; [exact S1|]. eapply rtc_l; [exact S2|]. eapply rtc_l; [exact S3|].
    eapply rtc_l; [exact S4|]. eapply rtc_l; [exact S5|]. eapply rtc_l; [exact S6|].
    eapply rtc_l; [exact S7|]. eapply rtc_l; [exact S8|]. apply rtc_refl. }
  reflexivity.
Qed.

End runs.

Definition sample_fuel : nat := Z.to_nat (SZ + 31).

Lemma sample_fuel_ok : SZ + 30 < Z.of_nat sample_fuel.
Proof. unfold sample_fuel. rewrite Z2Nat.id by done. lia. Qed.

Lemma sample_heights_ok (i : nat) : (1 ≤ (λ _ : nat, 2) i ≤ 12)%nat.
Proof. cbn. lia. Qed.

(** A call that has returned, its version still in memory. *)
Lemma writes_not_lost_witness :
  ∃ s, acked 8 s = [MkVersion 0 kTypeValue [1; 2; 3; 4; 5; 6; 7; 8] [9]] ∧
    ∀ v, v ∈ acked 8 s → ∃ i m, mems 8 (database 8 s) !! i = Some m ∧ version_bytes v ∈ entries m.
Proof.
  destruct (write_run 8 sample_fuel (λ _, 2%nat) sample_heights_ok sample_fuel_ok ltac:(lia)) as (d0 & s & E & Hrun & Ha).
  exists s. split; [done|].
  destruct (writes_not_lost 8 sample_fuel (λ _, 2%nat) sample_heights_ok sample_fuel_ok d0 1 1 s E ltac:(done) Hrun) as (_ & _ & H & _).
  intros v Hv. destruct (H v Hv) as (i & m & ? & ? & _). eauto.
Defined.

(** The key is found once the call has returned, through the super version of the
    start. *)
Lemma reads_see_writes_witness :
  ∃ s1 s vs, acked 8 s = [MkVersion 0 kTypeValue [1; 2; 3; 4; 5; 6; 7; 8] [9]] ∧
    get_in_memory 8 sample_fuel (database 8 s) (super_version 8 (database 8 s1)) [1; 2; 3; 4; 5; 6; 7; 8] 0 =
      Ok (answer_of <$> newest [1; 2; 3; 4; 5; 6; 7; 8] 0 vs).
Proof.
  destruct (write_run 8 sample_fuel (λ _, 2%nat) sample_heights_ok sample_fuel_ok ltac:(lia)) as (d0 & s & E & Hrun & Ha).
  destruct (reads_see_writes 8 sample_fuel (λ _, 2%nat) sample_heights_ok sample_fuel_ok d0 1 1 _ s E ltac:(done) (rtc_refl _ _) Hrun) as (vs & _ & _ & _ & H).
  eexists _, s, vs. split; [done|]. apply H; [done|by repeat constructor|cbn; lia|done].
Defined.
