(* ===== verification/LsmBlock.v ===== *)
(** * dLSM: blocks of sorted entries

    [BlockBuilder] of [dLSM/table/block_builder.cc], [Block] of [table/block.cc]
    and [Block::Iter] of [table/block.h].  A block holds entries whose keys are
    stored without the prefix they share with the key before, except at restart
    points, whose offsets follow the entries.  Positions are offsets in the block;
    the key of an iterator is the string that its [IterKey] stands for.

    A debug build is modelled, with the assertions and the fields they use. *)
From S2P Require Import Prelude LsmCoding LsmFile.
Import Coding.

Module Block.

Section comparator.
Context (comparator_ : list Z → list Z → result Z).

(** ** Building *)

(** [buffer] are the bytes of the slice that the builder writes through. *)
Record builder := MkBuilder {
  buffer : list Z;
  restarts_ : list Z;
  counter_ : Z;
  finished_ : bool;
  last_key_ : list Z
}.

Definition make_builder (block_restart_interval : Z) : result builder :=
  require (1 <=? block_restart_interval);; Ok (MkBuilder [] [0] 0 false []).

Definition Reset_Forward (s : builder) : builder := MkBuilder [] [0] 0 false [].

(** The slice is moved to other bytes. *)
Definition Reset_Buffer (s : builder) (data : list Z) : builder :=
  MkBuilder data (restarts_ s) (counter_ s) (finished_ s) (last_key_ s).
Definition Move_buffer (s : builder) : builder := Reset_Buffer s [].

Definition empty (s : builder) : bool := len (buffer s) =? 0.

Definition CurrentSizeEstimate (s : builder) : Z := len (buffer s) + len (restarts_ s) * 4 + 4.

Definition Finish (s : builder) : list Z * builder :=
  let buf := PutFixed32 (fold_left PutFixed32 (restarts_ s) (buffer s)) (u32 (len (restarts_ s))) in
  (buf, MkBuilder buf (restarts_ s) (counter_ s) true (last_key_ s)).

(** [while ((shared < min_length) && (last_key_piece[shared] == key[shared]))]. *)
Fixpoint shared_length (a b : list Z) : Z :=
  match a, b with
  | x :: a, y :: b => if x =? y then shared_length a b + 1 else 0
  | _, _ => 0
  end.

Definition Add (block_restart_interval : Z) (s : builder) (key value : list Z) : result builder :=
  require (8 <=? len key);;
  require (negb (finished_ s));;
  require (counter_ s <=? block_restart_interval);;
  ordered ← (if empty s then Ok true else c ← comparator_ key (last_key_ s); Ok (0 <? c));
  require ordered;;
  let '(shared, restarts, counter) :=
    if counter_ s <? block_restart_interval then (shared_length (last_key_ s) key, restarts_ s, counter_ s)
    else (0, restarts_ s ++ [u32 (len (buffer s))], 0) in
  let non_shared := len key - shared in
  let buf := PutVarint32 (PutVarint32 (PutVarint32 (buffer s) (u32 shared)) (u32 non_shared)) (u32 (len value)) in
  let buf := (buf ++ zdrop shared key) ++ value in
  let last_key := ztake shared (last_key_ s) ++ zdrop shared key in
  require (bool_decide (last_key = key));;
  Ok (MkBuilder buf restarts (int32 (counter + 1)) (finished_ s) last_key).

(** ** The block *)

Record block := MkBlock { data_ : list Z; size_ : Z; restart_offset_ : option Z }.

Definition NumRestarts (data : list Z) (size : Z) : result Z :=
  require (4 <=? size);; DecodeFixed32 (zdrop (size - 4) data).

Definition make_block (contents : list Z) : result block :=
  let size := len contents in
  if size <? 4 then Ok (MkBlock contents 0 None)
  else
    let max_restarts_allowed := (size - 4) / 4 in
    num ← NumRestarts contents size;
    require (num <=? max_restarts_allowed);;
    Ok (MkBlock contents size (Some (u32 (size - (1 + num) * 4)))).

(** ** The iterator *)

(** What an iterator is made with. *)
Record source := MkSource { data : list Z; restarts : Z; num_restarts : Z }.

(** [value_] is the offset and the size of the value, unset at first. *)
Record iter := MkIter {
  current_ : Z;
  restart_index_ : Z;
  key_ : list Z;
  value_ : option (Z * Z);
  last_key : list Z;
  num_entries : Z
}.

Definition DecodeEntry (bytes : list Z) (p limit : Z) : option (Z * Z * Z * Z) :=
  if limit - p <? 3 then None
  else
    let at_p := zdrop p (ztake limit bytes) in
    let decoded :=
      match at_p with
      | shared :: non_shared :: value_length :: rest =>
          if Z.lor (Z.lor shared non_shared) value_length <? 128 then Some (shared, non_shared, value_length, rest)
          else
            '(shared, q) ← GetVarint32Ptr at_p;
            '(non_shared, q) ← GetVarint32Ptr q;
            '(value_length, q) ← GetVarint32Ptr q;
            Some (shared, non_shared, value_length, q)
      | _ => None
      end in
    '(shared, non_shared, value_length, q) ← decoded;
    if u32 (len q) <? u32 (non_shared + value_length) then None else Some (shared, non_shared, value_length, limit - len q).

Section iterator.
Context (b : source).

Definition make_iter : result iter :=
  require (0 <? num_restarts b);; Ok (MkIter (restarts b) (num_restarts b) [] None [] 0).

Definition set_pos (it : iter) (current restart_index : Z) : iter :=
  MkIter current restart_index (key_ it) (value_ it) (last_key it) (num_entries it).
Definition set_entry (it : iter) (key : list Z) (value : Z * Z) : iter :=
  MkIter (current_ it) (restart_index_ it) key (Some value) (last_key it) (num_entries it).

(** A value that was never set does not point into the block. *)
Definition NextEntryOffset (it : iter) : result Z :=
  match value_ it with Some (off, size) => Ok (u32 (off + size)) | None => Err OutOfBounds end.

Definition GetRestartPoint (index : Z) : result Z :=
  require (index <? num_restarts b);; DecodeFixed32 (zdrop (restarts b + index * 4) (data b)).

Definition SeekToRestartPoint (it : iter) (index : Z) : result iter :=
  offset ← GetRestartPoint index;
  require (offset <=? restarts b);;
  Ok (set_entry (set_pos it (current_ it) index) [] (offset, 0)).

Definition Valid (it : iter) : bool := current_ it <? restarts b.

Definition key (it : iter) : result (list Z) := require (Valid it);; Ok (key_ it).

Definition value (it : iter) : result (list Z) :=
  require (Valid it);;
  match value_ it with Some (off, size) => Ok (ztake size (zdrop off (data b))) | None => Err OutOfBounds end.

(** The iterator is past the last entry. *)
Definition invalidate (it : iter) : iter := set_pos it (restarts b) (num_restarts b).

(** [while (restart_index_ + 1 < num_restarts_ && ...)]. *)
Fixpoint restart_loop (fuel : nat) (current index : Z) : result Z :=
  match fuel with
  | O => Err OutOfFuel
  | S fuel =>
      if index + 1 <? num_restarts b then
        offset ← GetRestartPoint (index + 1);
        if offset <? current then restart_loop fuel current (index + 1) else Ok index
      else Ok index
  end.

(** [CorruptionError] begins with [assert(false)]. *)
Definition CorruptionError {A} : result A := Err AssertionFailure.

Definition ParseNextKey (it : iter) : result (bool * iter) :=
  current ← NextEntryOffset it;
  let it := set_pos it current (restart_index_ it) in
  if restarts b <=? current then Ok (false, invalidate it)
  else
    match DecodeEntry (data b) current (restarts b) with
    | None => CorruptionError
    | Some (shared, non_shared, value_length, p) =>
        if len (key_ it) <? shared then CorruptionError
        else
          let delta := ztake non_shared (zdrop p (data b)) in
          if shared =? 0 then
            index ← restart_loop (S (Z.to_nat (num_restarts b))) current (restart_index_ it);
            Ok (true, set_entry (set_pos it current index) delta (p + non_shared, value_length))
          else Ok (true, set_entry it (ztake shared (key_ it) ++ delta) (p + non_shared, value_length))
    end.

(** Every entry takes three bytes at least. *)
Definition entry_fuel : nat := S (length (data b)).

Definition Next (it : iter) : result iter :=
  require (Valid it);;
  '(_, it) ← ParseNextKey it;
  first ← at_index (key_ it) 0;
  require (negb (first =? 85) && negb (first =? 86));;
  ordered ← (if 0 <? num_entries it then c ← comparator_ (key_ it) (last_key it); Ok (0 <=? c) else Ok true);
  require ordered;;
  let it := MkIter (current_ it) (restart_index_ it) (key_ it) (value_ it) (key_ it) (num_entries it + 1) in
  require (negb (Valid it) || negb (len (key_ it) =? 0));;
  Ok it.

(** [None] where there is no entry before the current one. *)
Fixpoint back_loop (fuel : nat) (original index : Z) : result (option Z) :=
  match fuel with
  | O => Err OutOfFuel
  | S fuel =>
      offset ← GetRestartPoint index;
      if original <=? offset then if index =? 0 then Ok None else back_loop fuel original (index - 1) else Ok (Some index)
  end.

(** [ParseNextKey() && NextEntryOffset() < limit], until it is false. *)
Fixpoint skip_loop (fuel : nat) (limit : Z) (it : iter) : result iter :=
  match fuel with
  | O => Err OutOfFuel
  | S fuel =>
      '(more, it) ← ParseNextKey it;
      if more : bool then next ← NextEntryOffset it; if next <? limit then skip_loop fuel limit it else Ok it else Ok it
  end.

Definition Prev (it : iter) : result iter :=
  require (Valid it);;
  let original := current_ it in
  index ← back_loop (S (Z.to_nat (restart_index_ it))) original (restart_index_ it);
  match index with
  | None => Ok (invalidate it)
  | Some index => it ← SeekToRestartPoint it index; skip_loop entry_fuel original it
  end.

(** The binary search among the restart points. *)
Fixpoint search_loop (fuel : nat) (target : list Z) (left right : Z) : result Z :=
  match fuel with
  | O => Err OutOfFuel
  | S fuel =>
      if left <? right then
        let mid := u32 (left + right + 1) / 2 in
        region_offset ← GetRestartPoint mid;
        match DecodeEntry (data b) region_offset (restarts b) with
        | None => CorruptionError
        | Some (shared, non_shared, _, key_ptr) =>
            if negb (shared =? 0) then CorruptionError
            else
              c ← comparator_ (ztake non_shared (zdrop key_ptr (data b))) target;
              if c <? 0 then search_loop fuel target mid right else search_loop fuel target left (mid - 1)
        end
      else Ok left
  end.

(** The linear search for the first key not before the target. *)
Fixpoint scan_loop (fuel : nat) (target : list Z) (it : iter) : result iter :=
  match fuel with
  | O => Err OutOfFuel
  | S fuel =>
      '(more, it) ← ParseNextKey it;
      if more : bool then c ← comparator_ (key_ it) target; if 0 <=? c then Ok it else scan_loop fuel target it else Ok it
  end.

Definition Seek (it : iter) (target : list Z) : result iter :=
  let last := num_restarts b - 1 in
  current_key_compare ← (if Valid it then comparator_ (key_ it) target else Ok 0);
  if Valid it && (current_key_compare =? 0) then Ok it
  else
    let left := if Valid it && (current_key_compare <? 0) then restart_index_ it else 0 in
    let right := if Valid it && (0 <? current_key_compare) then restart_index_ it else last in
    left ← search_loop (S (Z.to_nat (num_restarts b))) target left right;
    require ((current_key_compare =? 0) || Valid it);;
    let skip_seek := (left =? restart_index_ it) && (current_key_compare <? 0) in
    it ← (if skip_seek then Ok it else SeekToRestartPoint it left);
    scan_loop entry_fuel target it.

Definition SeekToFirst (it : iter) : result iter :=
  it ← SeekToRestartPoint it 0;
  '(_, it) ← ParseNextKey it;
  k ← key it;
  require (negb (len k =? 0));;
  Ok it.

Definition SeekToLast (it : iter) : result iter :=
  it ← SeekToRestartPoint it (num_restarts b - 1);
  skip_loop entry_fuel (restarts b) it.

End iterator.

(** [Block::NewIterator]; [None] is the empty iterator. *)
Definition NewIterator (bl : block) : result (option (source * iter)) :=
  num ← NumRestarts (data_ bl) (size_ bl);
  require (num <=? 64 * 1024 * 1024);;
  if num =? 0 then Ok None
  else
    match restart_offset_ bl with
    | Some off => let b := MkSource (data_ bl) off num in it ← make_iter b; Ok (Some (b, it))
    | None => Err OutOfBounds
    end.

End comparator.

End Block.
Import Block.

(** ** Comparators *)

(** An order of the keys that are [good]. *)
Class KeyOrder (cmp : list Z → list Z → result Z) := {
  good : list Z → Prop;
  key_rank : list Z → Z;
  cmp_rank a b : good a → good b → ∃ c, cmp a b = Ok c ∧ Z.sgn c = Z.sgn (key_rank a - key_rank b);
}.

(** ** Entries *)

Definition header (s : Z) (k v : list Z) : list Z := EncodeVarint32 s ++ EncodeVarint32 (len k - s) ++ EncodeVarint32 (len v).
Definition entry_bytes (s : Z) (k v : list Z) : list Z := header s k v ++ zdrop s k ++ v.

Lemma EncodeVarint32_cases v :
  fits 32 v → ∃ c l, EncodeVarint32 v = c :: l ∧ 0 ≤ c ∧ (c < 128 → c = v ∧ l = []).
Proof.
  intros Hv. rewrite EncodeVarint32_septets by done. cbn [septets]. unfold fits in Hv.
  destruct (Z.ltb_spec v 128); eexists _, _; (split; [done|]); [split; [lia|done]|].
  assert (0 ≤ v mod 128) by (apply Z.mod_pos_bound; lia). split; [lia|]. lia.
Qed.

Lemma lor_small a b : 0 ≤ a → 0 ≤ b → (Z.lor a b <? 128) = (a <? 128) && (b <? 128).
Proof.
  intros Ha Hb. pose proof (Z.log2_lor a b Ha Hb) as H. assert (0 ≤ Z.lor a b) by (by apply Z.lor_nonneg).
  assert (∀ x, 0 ≤ x → x < 128 ↔ Z.log2 x < 7) as Hx.
  { intros x Hx0. destruct (decide (x = 0)) as [->|]; [done|]. rewrite (Z.log2_lt_pow2 x 7) by lia. done. }
  destruct (Z.ltb_spec (Z.lor a b) 128) as [Hl|Hl], (Z.ltb_spec a 128) as [Hl1|Hl1], (Z.ltb_spec b 128) as [Hl2|Hl2]; try done; exfalso;
    repeat match goal with Hl : ?x < 128 |- _ => apply Hx in Hl; [|done] | Hl : 128 ≤ ?x |- _ => apply Z.le_ngt in Hl; rewrite Hx in Hl by done end; lia.
Qed.

Lemma header_bytes s k v :
  fits 32 s → fits 32 (len k - s) → fits 32 (len v) → Forall byte (header s k v) ∧ 3 ≤ len (header s k v).
Proof.
  intros F1 F2 F3. destruct (EncodeVarint32_bytes _ F1) as [B1 L1], (EncodeVarint32_bytes _ F2) as [B2 L2], (EncodeVarint32_bytes _ F3) as [B3 L3].
  unfold header. split; [by repeat apply Forall_app_2|]. rewrite !len_app. unfold len in *. lia.
Qed.

(** The three lengths of an entry, decoded on the short path or the long one. *)
Lemma decode_lengths s k v Q :
  fits 32 s → fits 32 (len k - s) → fits 32 (len v) →
  match header s k v ++ Q with
  | shared :: non_shared :: value_length :: rest =>
      if Z.lor (Z.lor shared non_shared) value_length <? 128 then Some (shared, non_shared, value_length, rest)
      else
        '(shared, q) ← GetVarint32Ptr (header s k v ++ Q);
        '(non_shared, q) ← GetVarint32Ptr q;
        '(value_length, q) ← GetVarint32Ptr q;
        Some (shared, non_shared, value_length, q)
  | _ => None
  end = Some (s, len k - s, len v, Q).
Proof.
  intros F1 F2 F3. destruct (header_bytes s k v F1 F2 F3) as [HB HL].
  destruct (EncodeVarint32_cases s F1) as (c1 & l1 & E1 & _ & Q1). destruct (EncodeVarint32_cases _ F2) as (c2 & l2 & E2 & _ & Q2).
  destruct (EncodeVarint32_cases _ F3) as (c3 & l3 & E3 & _ & Q3).
  pose proof (GetVarint32_Encode s (EncodeVarint32 (len k - s) ++ EncodeVarint32 (len v) ++ Q) F1) as G1.
  pose proof (GetVarint32_Encode _ (EncodeVarint32 (len v) ++ Q) F2) as G2. pose proof (GetVarint32_Encode _ Q F3) as G3.
  unfold GetVarint32 in G1, G2, G3.
  assert (header s k v ++ Q = EncodeVarint32 s ++ EncodeVarint32 (len k - s) ++ EncodeVarint32 (len v) ++ Q) as EH
    by (unfold header; by rewrite <- !app_assoc).
  assert (GetVarint32Ptr (header s k v ++ Q) = Some (s, EncodeVarint32 (len k - s) ++ EncodeVarint32 (len v) ++ Q)) as -> by (by rewrite EH).
  destruct (header s k v) as [|b0 [|b1 [|b2 r]]]; try (unfold len in HL; cbn in HL; lia). cbn [app].
  apply Forall_cons in HB as [H0 HB]. apply Forall_cons in HB as [H1 HB]. apply Forall_cons in HB as [H2 _]. unfold byte, fits in H0, H1, H2.
  destruct (Z.lor (Z.lor b0 b1) b2 <? 128) eqn:T; [|cbn; rewrite G2; cbn; by rewrite G3].
  rewrite !lor_small in T by (try apply Z.lor_nonneg; lia).
  apply andb_true_iff in T as [[T0%Z.ltb_lt T1%Z.ltb_lt]%andb_true_iff T2%Z.ltb_lt].
  rewrite E1, E2, E3 in EH. injection EH as -> EH. destruct (Q1 T0) as [-> ->]. injection EH as -> EH. destruct (Q2 T1) as [-> ->].
  injection EH as -> EH. destruct (Q3 T2) as [-> ->]. cbn in EH. by rewrite EH.
Qed.

Lemma DecodeEntry_bytes pre s k v rest tail :
  0 ≤ s ≤ len k → len k < 2 ^ 32 → len (pre ++ entry_bytes s k v ++ rest) < 2 ^ 32 →
  DecodeEntry (pre ++ entry_bytes s k v ++ rest ++ tail) (len pre) (len (pre ++ entry_bytes s k v ++ rest)) =
    Some (s, len k - s, len v, len pre + len (header s k v)).
Proof.
  intros Hs Hk Hl. pose proof (len_pos pre). pose proof (len_pos v). pose proof (len_pos rest). unfold entry_bytes in *.
  assert (len (zdrop s k) = len k - s) as Hd by (rewrite len_zdrop; lia).
  rewrite !len_app, Hd in Hl. pose proof (len_pos (header s k v)).
  assert (fits 32 s ∧ fits 32 (len k - s) ∧ fits 32 (len v)) as (F1 & F2 & F3) by (unfold fits; lia).
  destruct (header_bytes s k v F1 F2 F3) as [_ H3].
  unfold DecodeEntry. rewrite (proj2 (Z.ltb_ge _ _)) by (rewrite !len_app, Hd; lia).
  replace (pre ++ (header s k v ++ zdrop s k ++ v) ++ rest ++ tail) with ((pre ++ (header s k v ++ zdrop s k ++ v) ++ rest) ++ tail)
    by (by rewrite <- !app_assoc).
  rewrite (ztake_app _ (pre ++ _ ++ rest) tail) by done. rewrite zdrop_app by done.
  replace ((header s k v ++ zdrop s k ++ v) ++ rest) with (header s k v ++ zdrop s k ++ v ++ rest) by (by rewrite <- !app_assoc).
  rewrite (decode_lengths s k v _ F1 F2 F3). cbn [mbind option_bind].
  rewrite !len_app, Hd, !wrap_small by (split; lia). rewrite (proj2 (Z.ltb_ge _ _)) by lia. repeat f_equal. lia.
Qed.

(** ** The layout of a block *)

Section layout.
Context (kvs : list (list Z * list Z)) (sh : list Z) (rs : list nat).

Definition ebs : list (list Z) := zip_with (λ s kv, entry_bytes s kv.1 kv.2) sh kvs.

(** Where an entry begins. *)
Definition off (i : nat) : Z := len (concat (take i ebs)).

Definition trailer : list Z := concat (EncodeFixed32 <$> (off <$> rs)) ++ EncodeFixed32 (len rs).

Definition contents : list Z := concat ebs ++ trailer.

(** Entries share [sh] bytes with the key before; [rs] are the entries at the
    restart points. *)
Record layout : Prop := {
  ly_length : length sh = length kvs;
  ly_within i s kv : sh !! i = Some s → kvs !! i = Some kv → 0 ≤ s ≤ len kv.1;
  ly_keys i kv : kvs !! i = Some kv → len kv.1 < 2 ^ 32;
  ly_shared i s kv kv' : sh !! S i = Some s → kvs !! i = Some kv → kvs !! S i = Some kv' → s ≤ len kv.1 ∧ ztake s kv.1 = ztake s kv'.1;
  ly_first : rs !! 0%nat = Some 0%nat;
  ly_restart r i : rs !! r = Some i → i = 0%nat ∨ (i < length kvs)%nat;
  ly_unshared r i s : rs !! r = Some i → sh !! i = Some s → s = 0;
  ly_ascending r r' i i' : (r < r')%nat → rs !! r = Some i → rs !! r' = Some i' → (i < i')%nat;
  ly_small : len contents < 2 ^ 32;
}.

Context (Hl : layout).

Definition src : source := MkSource contents (off (length kvs)) (len rs).

Lemma length_ebs : length ebs = length kvs.
Proof using Hl. unfold ebs. rewrite length_zip_with, (ly_length Hl). lia. Qed.

Lemma off_end : off (length kvs) = len (concat ebs).
Proof using Hl. unfold off. by rewrite <- length_ebs, firstn_all. Qed.

Lemma shared_at i kv : kvs !! i = Some kv → ∃ s, sh !! i = Some s ∧ ebs !! i = Some (entry_bytes s kv.1 kv.2) ∧ 0 ≤ s ≤ len kv.1.
Proof using Hl.
  intros Hi. destruct (lookup_lt_is_Some_2 sh i) as [s Hs]; [rewrite (ly_length Hl); by eapply lookup_lt_Some|].
  exists s. split; [done|]. split; [|by eapply (ly_within Hl)]. unfold ebs. rewrite lookup_zip_with, Hs, Hi. done.
Qed.

Lemma off_S i kv s : kvs !! i = Some kv → sh !! i = Some s → off (S i) = off i + len (entry_bytes s kv.1 kv.2).
Proof using Hl.
  intros Hi Hs. destruct (shared_at i kv Hi) as (s' & Hs' & He & _). rewrite Hs in Hs'. injection Hs' as <-.
  unfold off. rewrite (take_S_r _ _ _ He), concat_app, len_app. cbn. by rewrite app_nil_r.
Qed.

Lemma off_step i kv : kvs !! i = Some kv → off i + 3 ≤ off (S i).
Proof using Hl.
  intros Hi. destruct (shared_at i kv Hi) as (s & Hs & He & Hw). rewrite (off_S i kv s Hi Hs). unfold entry_bytes. rewrite !len_app.
  assert (len (entry_bytes s kv.1 kv.2) < 2 ^ 32) as Hb.
  { pose proof (ly_small Hl) as H. unfold contents in H. rewrite len_app in H. pose proof (len_pos trailer).
    rewrite <- (take_drop_middle ebs i _ He), concat_app in H. cbn [concat] in H. rewrite !len_app in H.
    pose proof (len_pos (concat (take i ebs))). pose proof (len_pos (concat (drop (S i) ebs))). lia. }
  unfold entry_bytes in Hb. rewrite !len_app, len_zdrop in Hb by lia. pose proof (len_pos kv.2). pose proof (len_pos (header s kv.1 kv.2)).
  pose proof (ly_keys Hl i kv Hi). destruct (header_bytes s kv.1 kv.2) as [_ H3]; [unfold fits; lia..|]. pose proof (len_pos (zdrop s kv.1)). lia.
Qed.

Lemma off_0 : off 0 = 0.
Proof. done. Qed.

Lemma off_lt i j : (i < j ≤ length kvs)%nat → off i < off j.
Proof using Hl.
  intros [Hij Hj]. induction Hij as [|j Hij IH].
  - destruct (lookup_lt_is_Some_2 kvs i) as [kv Hi]; [lia|]. pose proof (off_step i kv Hi). lia.
  - destruct (lookup_lt_is_Some_2 kvs j) as [kv Hi]; [lia|]. pose proof (off_step j kv Hi). unfold lt in IH. specialize (IH ltac:(lia)). lia.
Qed.

Lemma off_le i j : (i ≤ j ≤ length kvs)%nat → off i ≤ off j.
Proof using Hl. intros H. destruct (decide (i = j)) as [->|]; [lia|]. pose proof (off_lt i j ltac:(lia)). lia. Qed.

Lemma off_bound i : (i ≤ length kvs)%nat → 0 ≤ off i < 2 ^ 32.
Proof using Hl.
  intros Hi. pose proof (off_le i (length kvs) ltac:(lia)) as H. rewrite off_end in H. pose proof (ly_small Hl) as Hs. unfold contents in Hs.
  rewrite len_app in Hs. pose proof (len_pos trailer). split; [apply len_pos|lia].
Qed.

(** What is decoded at the beginning of an entry. *)
Lemma decode_at i k v s :
  kvs !! i = Some (k, v) → sh !! i = Some s →
  ∃ p, DecodeEntry contents (off i) (off (length kvs)) = Some (s, len k - s, len v, p) ∧
    ztake (len k - s) (zdrop p contents) = zdrop s k ∧ ztake (len v) (zdrop (p + (len k - s)) contents) = v ∧
    p + (len k - s) + len v = off (S i).
Proof using Hl.
  intros Hi Hs. destruct (shared_at i (k, v) Hi) as (s' & Hs' & He & Hw). rewrite Hs in Hs'. injection Hs' as <-. cbn [fst snd] in *.
  exists (off i + len (header s k v)). assert (len (zdrop s k) = len k - s) as Hd by (rewrite len_zdrop; lia).
  set (pre := concat (take i ebs)). set (rest := concat (drop (S i) ebs)).
  assert (concat ebs = pre ++ entry_bytes s k v ++ rest) as Ec by (rewrite <- (take_drop_middle ebs i _ He) at 1; by rewrite concat_app).
  assert (contents = pre ++ entry_bytes s k v ++ rest ++ trailer) as Ecc by (unfold contents; rewrite Ec; by rewrite <- !app_assoc).
  split_and!.
  - rewrite off_end, Ec, Ecc. apply DecodeEntry_bytes; [done|by apply (ly_keys Hl i (k, v))|]. rewrite <- Ec, <- off_end. apply off_bound. lia.
  - rewrite Ecc. unfold entry_bytes. rewrite !(app_assoc pre), <- !app_assoc, (app_assoc pre).
    rewrite zdrop_app by (by rewrite len_app). by apply ztake_app.
  - rewrite Ecc. unfold entry_bytes. rewrite <- !app_assoc, (app_assoc pre), (app_assoc (pre ++ _)).
    rewrite zdrop_app by (rewrite !len_app, Hd; unfold off, pre; lia). by apply ztake_app.
  - rewrite (off_S i (k, v) s Hi Hs). cbn [fst snd]. unfold entry_bytes. rewrite !len_app, Hd. lia.
Qed.

Lemma restart_at r i : rs !! r = Some i → GetRestartPoint src (Z.of_nat r) = Ok (off i).
Proof using Hl.
  intros Hr. unfold GetRestartPoint, src. cbn [num_restarts restarts data].
  pose proof (lookup_lt_Some _ _ _ Hr). rewrite (proj2 (Z.ltb_lt _ _)) by (unfold len; lia). cbn [require mbind result_bind].
  rewrite off_end. unfold contents. rewrite zdrop_app_ge by lia.
  replace (len (concat ebs) + Z.of_nat r * 4 - len (concat ebs)) with (Z.of_nat r * 4) by lia.
  assert (off i ≤ 2 ^ 32 - 1) as Hb.
  { destruct (ly_restart Hl r i Hr) as [->|]; [done|]. pose proof (off_bound i ltac:(lia)). lia. }
  unfold trailer. rewrite <- (take_drop_middle rs r i Hr). rewrite !fmap_app, concat_app. cbn [fmap list_fmap concat]. rewrite <- !app_assoc.
  rewrite zdrop_app.
  - unfold DecodeFixed32, EncodeFixed32. apply (decode_fixed_encode 4). split; [apply len_pos|lia].
  - assert (∀ l : list nat, len (concat (EncodeFixed32 <$> (off <$> l))) = len l * 4) as ->.
    { intros l. induction l as [|x l IH]; [done|]. cbn [fmap list_fmap concat]. rewrite len_app, IH, len_cons. unfold EncodeFixed32, len.
      rewrite length_le_bytes. lia. }
    unfold len. rewrite length_take. lia.
Qed.

End layout.

(** ** Positions of an iterator *)

Definition debug (it : iter) : list Z * Z := (last_key it, num_entries it).

Section positions.
Context (kvs : list (list Z * list Z)) (sh : list Z) (rs : list nat) (Hl : layout kvs sh rs).
#[local] Notation off := (off kvs sh).
#[local] Notation bytes := (contents kvs sh rs).
#[local] Notation b := (src kvs sh rs).

(** The restart index is at or before the entry. *)
Definition restarts_before (it : iter) (i : nat) : Prop := ∃ r j, restart_index_ it = Z.of_nat r ∧ rs !! r = Some j ∧ (j ≤ i)%nat.

Record at_entry (it : iter) (i : nat) (k v : list Z) : Prop := {
  ae_entry : kvs !! i = Some (k, v);
  ae_current : current_ it = off i;
  ae_key : key_ it = k;
  ae_value : ∃ o, value_ it = Some (o, len v) ∧ o + len v = off (S i) ∧ ztake (len v) (zdrop o bytes) = v;
  ae_restart : restarts_before it i;
}.

(** The next call of [ParseNextKey] takes entry [i]. *)
Record before (it : iter) (i : nat) : Prop := {
  bf_within : (i ≤ length kvs)%nat;
  bf_next : NextEntryOffset it = Ok (off i);
  bf_key s k v : sh !! i = Some s → kvs !! i = Some (k, v) → s ≤ len (key_ it) ∧ ztake s (key_ it) = ztake s k;
  bf_restart : restarts_before it i;
}.

Definition ended (it : iter) : Prop := current_ it = off (length kvs) ∧ restart_index_ it = len rs.

Definition pos_is (it : iter) (o : option nat) : Prop :=
  match o with Some i => ∃ k v, at_entry it i k v | None => ended it end.

Lemma at_before it i k v : at_entry it i k v → before it (S i).
Proof using Hl.
  intros [He Hc Hk (o & Ho & Hn & _) (r & j & Hr & Hj & Hle)]. pose proof (lookup_lt_Some _ _ _ He) as Hi. split; [lia| | |].
  - unfold NextEntryOffset. rewrite Ho, Hn. f_equal. apply wrap_small, (off_bound kvs sh rs Hl (S i)). lia.
  - intros s k' v' Hs Hkv. rewrite Hk. exact (ly_shared _ _ _ Hl i s _ _ Hs He Hkv).
  - exists r, j. split_and!; [done|done|lia].
Qed.

Lemma restart_within r j : rs !! r = Some j → (j ≤ length kvs)%nat.
Proof using Hl. intros Hj. destruct (ly_restart _ _ _ Hl r j Hj) as [->|]; lia. Qed.

Lemma SeekToRestartPoint_ok it r i :
  rs !! r = Some i → ∃ it', SeekToRestartPoint b it (Z.of_nat r) = Ok it' ∧ before it' i ∧ debug it' = debug it.
Proof using Hl.
  intros Hr. pose proof (restart_within r i Hr) as Hi. unfold SeekToRestartPoint. rewrite (restart_at kvs sh rs Hl r i Hr). cbn [mbind result_bind].
  pose proof (off_le kvs sh rs Hl i (length kvs) ltac:(lia)). rewrite (proj2 (Z.leb_le _ _)) by done. cbn [require mbind result_bind].
  eexists. split; [done|]. split; [|done]. split; [done| | |].
  - cbn. rewrite Z.add_0_r. f_equal. apply wrap_small, (off_bound kvs sh rs Hl i Hi).
  - intros s k v Hs _. rewrite (ly_unshared _ _ _ Hl r i s Hr Hs). done.
  - exists r, i. by split_and!.
Qed.

Lemma restart_loop_ok fuel r j i :
  rs !! r = Some j → (j ≤ i ≤ length kvs)%nat → (length rs - r < fuel)%nat →
  ∃ r' j', restart_loop b fuel (off i) (Z.of_nat r) = Ok (Z.of_nat r') ∧ rs !! r' = Some j' ∧ (j' ≤ i)%nat.
Proof using Hl.
  revert r j. induction fuel as [|fuel IH]; intros r j Hr Hj Hf; [lia|]. cbn [restart_loop].
  destruct (Z.ltb_spec (Z.of_nat r + 1) (num_restarts b)) as [Hlt|]; [|exists r, j; split_and!; [done|done|lia]].
  cbn in Hlt. unfold len in Hlt. destruct (lookup_lt_is_Some_2 rs (S r)) as [j2 Hj2]; [lia|].
  replace (Z.of_nat r + 1) with (Z.of_nat (S r)) by lia. rewrite (restart_at kvs sh rs Hl _ _ Hj2). cbn [mbind result_bind].
  destruct (Z.ltb_spec (off j2) (off i)) as [Ho|]; [|exists r, j; split_and!; [done|done|lia]].
  apply (IH (S r) j2 Hj2); [|lia]. destruct (decide (j2 ≤ i)%nat); [lia|].
  pose proof (restart_within _ _ Hj2). pose proof (off_le kvs sh rs Hl i j2 ltac:(lia)). lia.
Qed.

Lemma ParseNextKey_ok it i k v :
  before it i → kvs !! i = Some (k, v) → ∃ it', ParseNextKey b it = Ok (true, it') ∧ at_entry it' i k v ∧ debug it' = debug it.
Proof using Hl.
  intros [Hw Hn Hkey Hres] Hi. pose proof (lookup_lt_Some _ _ _ Hi) as Hlt.
  destruct (shared_at kvs sh rs Hl i _ Hi) as (s & Hs & _ & Hsk). cbn [fst] in Hsk. destruct (Hkey s k v Hs Hi) as [Hsl Hst].
  destruct (decode_at kvs sh rs Hl i k v s Hi Hs) as (p & Hdec & Hdelta & Hval & Hend).
  unfold ParseNextKey. rewrite Hn. cbn [mbind result_bind]. change (restarts b) with (off (length kvs)). change (data b) with bytes.
  change (num_restarts b) with (len rs). pose proof (off_lt kvs sh rs Hl i (length kvs) ltac:(lia)).
  rewrite (proj2 (Z.leb_gt _ _)) by done. rewrite Hdec. cbn [key_ set_pos restart_index_]. rewrite (proj2 (Z.ltb_ge _ _)) by done.
  rewrite Hdelta. destruct Hres as (r & j & Hr & Hj & Hle). destruct (Z.eqb_spec s 0) as [->|Hne].
  - rewrite Hr. destruct (restart_loop_ok (S (Z.to_nat (len rs))) r j i Hj ltac:(lia)) as (r' & j' & -> & Hj' & Hle'); [unfold len; lia|].
    cbn [mbind result_bind]. eexists. split; [done|]. split; [|done]. split; cbn [current_ key_ value_ restart_index_ set_entry set_pos]; [done|done|done| |by exists r', j'].
    eexists. split; [done|]. split; [lia|done].
  - eexists. split; [done|]. split; [|done]. split; cbn [current_ key_ value_ restart_index_ set_entry set_pos]; [done|done| | |by exists r, j].
    + rewrite Hst. apply ztake_zdrop.
    + eexists. split; [done|]. split; [lia|done].
Qed.

Lemma ParseNextKey_end it :
  before it (length kvs) → ∃ it', ParseNextKey b it = Ok (false, it') ∧ ended it' ∧ debug it' = debug it ∧ key_ it' = key_ it.
Proof using Hl.
  intros [_ Hn _ _]. unfold ParseNextKey. rewrite Hn. cbn [mbind result_bind restarts src].
  rewrite (proj2 (Z.leb_le _ _)) by lia. by eexists.
Qed.

Lemma valid_at it i k v : at_entry it i k v → Valid b it = true.
Proof using Hl.
  intros H. pose proof (lookup_lt_Some _ _ _ (ae_entry _ _ _ _ H)). apply Z.ltb_lt. rewrite (ae_current _ _ _ _ H).
  apply (off_lt kvs sh rs Hl). lia.
Qed.

Lemma valid_ended it : ended it → Valid b it = false.
Proof. intros [H _]. apply Z.ltb_ge. rewrite H. done. Qed.

(** ** Scanning to a known entry *)

Lemma entry_fuel_enough : (length kvs < entry_fuel b)%nat.
Proof using Hl.
  unfold entry_fuel. cbn [data src]. enough (length kvs ≤ length bytes)%nat by lia. unfold contents. rewrite length_app.
  enough (Z.of_nat (length kvs) ≤ off (length kvs)) as H by (rewrite (off_end kvs sh rs Hl) in H; unfold len in H; lia).
  assert (∀ i, (i ≤ length kvs)%nat → Z.of_nat i ≤ off i) as H; [|by apply H].
  intros i. induction i as [|i IH]; [done|]. intros Hi. pose proof (off_lt kvs sh rs Hl i (S i) ltac:(lia)). lia.
Qed.

Lemma skip_loop_ok fuel it j e k v :
  before it j → (j ≤ e)%nat → kvs !! e = Some (k, v) → (e - j < fuel)%nat →
  ∃ it', skip_loop b fuel (off (S e)) it = Ok it' ∧ at_entry it' e k v ∧ debug it' = debug it.
Proof using Hl.
  revert it j. induction fuel as [|fuel IH]; intros it j Hb Hj He Hf; [lia|]. cbn [skip_loop].
  pose proof (lookup_lt_Some _ _ _ He). destruct (lookup_lt_is_Some_2 kvs j) as [[k' v'] Hkv]; [lia|].
  destruct (ParseNextKey_ok it j k' v' Hb Hkv) as (it1 & -> & H1 & D1). cbn [mbind result_bind]. pose proof (at_before _ _ _ _ H1) as Hb1.
  rewrite (bf_next _ _ Hb1). cbn [mbind result_bind]. destruct (decide (j = e)) as [->|Hne].
  - rewrite Z.ltb_irrefl. assert (k = k' ∧ v = v') as [-> ->] by (split; congruence). by exists it1.
  - rewrite (proj2 (Z.ltb_lt _ _)) by (apply (off_lt kvs sh rs Hl); lia). destruct (IH it1 (S j) Hb1) as (it2 & -> & H2 & D2); [lia|done|lia|].
    exists it2. split_and!; [done|done|congruence].
Qed.

Lemma back_loop_ok fuel r j i :
  rs !! r = Some j → (j ≤ i ≤ length kvs)%nat → (r < fuel)%nat →
  match i with
  | O => back_loop b fuel (off i) (Z.of_nat r) = Ok None
  | S e => ∃ r' j', back_loop b fuel (off i) (Z.of_nat r) = Ok (Some (Z.of_nat r')) ∧ rs !! r' = Some j' ∧ (j' ≤ e)%nat
  end.
Proof using Hl.
  revert r j. induction fuel as [|fuel IH]; intros r j Hr Hj Hf; [lia|]. cbn [back_loop]. rewrite (restart_at kvs sh rs Hl _ _ Hr). cbn [mbind result_bind].
  destruct (Z.leb_spec (off i) (off j)) as [Ho|Ho].
  - assert (j = i) as ->. { destruct (decide (j = i)); [done|]. pose proof (off_lt kvs sh rs Hl j i ltac:(lia)). lia. }
    destruct r as [|r]; cbn -[Z.of_nat].
    + rewrite (ly_first _ _ _ Hl) in Hr. injection Hr as <-. done.
    + rewrite (proj2 (Z.eqb_neq _ _)) by lia. replace (Z.of_nat (S r) - 1) with (Z.of_nat r) by lia.
      destruct (lookup_lt_is_Some_2 rs r) as [j' Hj']; [apply lookup_lt_Some in Hr; lia|].
      pose proof (ly_ascending _ _ _ Hl r (S r) j' i ltac:(lia) Hj' Hr). apply (IH r j' Hj'); lia.
  - assert (j ≠ i) by (intros ->; lia). destruct i as [|e]; [lia|]. exists r, j. split_and!; [done|done|lia].
Qed.

Lemma Prev_ok it i k v :
  at_entry it i k v → ∃ it', Prev b it = Ok it' ∧ pos_is it' (match i with O => None | S e => Some e end) ∧ debug it' = debug it.
Proof using Hl.
  intros H. unfold Prev. rewrite (valid_at it i k v H). cbn [require mbind result_bind]. pose proof (lookup_lt_Some _ _ _ (ae_entry _ _ _ _ H)) as Hi.
  destruct (ae_restart _ _ _ _ H) as (r & j & Hr & Hj & Hle). rewrite (ae_current _ _ _ _ H), Hr.
  pose proof (back_loop_ok (S (Z.to_nat (Z.of_nat r))) r j i Hj ltac:(lia) ltac:(lia)) as HB. destruct i as [|e].
  - rewrite HB. cbn [mbind result_bind]. by eexists.
  - destruct HB as (r' & j' & -> & Hj' & Hle'). cbn [mbind result_bind].
    destruct (SeekToRestartPoint_ok it r' j' Hj') as (it1 & -> & H1 & D1). cbn [mbind result_bind].
    destruct (lookup_lt_is_Some_2 kvs e) as [[k' v'] He]; [lia|]. pose proof entry_fuel_enough.
    destruct (skip_loop_ok (entry_fuel b) it1 j' e k' v' H1 Hle' He) as (it2 & -> & H2 & D2); [lia|].
    exists it2. split_and!; [done|by exists k', v'|congruence].
Qed.

Lemma SeekToLast_ok it :
  ∃ it', SeekToLast b it = Ok it' ∧ pos_is it' (match length kvs with O => None | S e => Some e end) ∧ debug it' = debug it.
Proof using Hl.
  unfold SeekToLast. pose proof (lookup_lt_Some _ _ _ (ly_first _ _ _ Hl)) as Hrs. cbn [num_restarts src restarts].
  replace (len rs - 1) with (Z.of_nat (length rs - 1)) by (unfold len; lia).
  destruct (lookup_lt_is_Some_2 rs (length rs - 1)) as [j Hj]; [lia|]. destruct (SeekToRestartPoint_ok it _ j Hj) as (it1 & -> & H1 & D1).
  cbn [mbind result_bind]. pose proof entry_fuel_enough as Hf. pose proof (restart_within _ _ Hj) as Hw.
  destruct (length kvs) as [|e] eqn:E.
  - assert (j = 0%nat) as -> by lia. rewrite <- E in H1. destruct (ParseNextKey_end it1 H1) as (it2 & Hp & H2 & D2 & _).
    unfold entry_fuel at 1. cbn [skip_loop]. rewrite Hp. cbn [mbind result_bind]. exists it2. split_and!; [done|done|congruence].
  - destruct (lookup_lt_is_Some_2 kvs e) as [[k v] He]; [lia|].
    assert (j ≤ e)%nat by (destruct (ly_restart _ _ _ Hl _ _ Hj); lia).
    destruct (skip_loop_ok (entry_fuel b) it1 j e k v H1) as (it2 & -> & H2 & D2); [done|done|lia|].
    exists it2. split_and!; [done|by exists k, v|congruence].
Qed.

End positions.

(** ** Searching *)

Section order.
Context (cmp : list Z → list Z → result Z) `{!KeyOrder cmp}.
Context (kvs : list (list Z * list Z)) (sh : list Z) (rs : list nat) (Hl : layout kvs sh rs).
Context (Hgood : Forall (λ kv, good kv.1) kvs) (Hasc : ascending (λ kv, key_rank kv.1) kvs).
#[local] Notation off := (off kvs sh).
#[local] Notation b := (src kvs sh rs).
#[local] Notation at_entry := (at_entry kvs sh rs).
#[local] Notation before := (before kvs sh rs).
#[local] Notation pos_is := (pos_is kvs sh rs).

Section target.
Context (t : list Z) (Ht : good t).

(** The keys before entry [i] are before the target. *)
Definition passed (i : nat) : Prop := ∀ j kv, (j < i)%nat → kvs !! j = Some kv → key_rank kv.1 < key_rank t.

Definition seek_pos : option nat := first_index (λ kv, key_rank t <=? key_rank kv.1) kvs.

Lemma passed_next i k v : kvs !! i = Some (k, v) → key_rank k < key_rank t → passed (S i).
Proof using Hasc.
  intros Hi Hk j kv Hj Hkv. destruct (decide (j = i)) as [->|]; [by simplify_eq|].
  pose proof (ascending_lookup _ _ j i _ _ Hasc ltac:(lia) Hkv Hi) as H. cbn in H. lia.
Qed.

Lemma passed_le i j : (i ≤ j)%nat → passed j → passed i.
Proof. intros Hij Hp x kv Hx. apply Hp. lia. Qed.

Lemma seek_pos_at i k v : kvs !! i = Some (k, v) → passed i → key_rank t ≤ key_rank k → seek_pos = Some i.
Proof.
  intros Hi Hp Hk. apply first_index_Some. split; [exists (k, v); split; [done|by apply Z.leb_le]|].
  intros j kv Hj Hkv. apply Z.leb_gt. by eapply Hp.
Qed.

Lemma seek_pos_end : passed (length kvs) → seek_pos = None.
Proof.
  intros Hp. apply first_index_None. intros j kv Hkv. apply Z.leb_gt. eapply Hp; [by eapply lookup_lt_Some|done].
Qed.

Lemma good_at i k v : kvs !! i = Some (k, v) → good k.
Proof using Hgood. intros Hi. exact (proj1 (Forall_lookup _ _) Hgood i _ Hi). Qed.

Lemma scan_loop_ok fuel it i :
  before it i → passed i → (length kvs - i < fuel)%nat →
  ∃ it', scan_loop cmp b fuel t it = Ok it' ∧ pos_is it' seek_pos ∧ debug it' = debug it.
Proof using Hl Hgood Hasc Ht.
  revert it i. induction fuel as [|fuel IH]; intros it i Hb Hp Hf; [lia|]. cbn [scan_loop].
  destruct (kvs !! i) as [[k v]|] eqn:Hi.
  - destruct (ParseNextKey_ok kvs sh rs Hl it i k v Hb Hi) as (it1 & -> & H1 & D1). cbn [mbind result_bind].
    destruct (cmp_rank (key_ it1) t) as (c & -> & Hc); [rewrite (ae_key _ _ _ _ _ _ _ H1); by eapply good_at|done|].
    rewrite (ae_key _ _ _ _ _ _ _ H1) in Hc. cbn [mbind result_bind]. destruct (Z.leb_spec 0 c).
    + exists it1. split; [done|]. split; [|done]. rewrite (seek_pos_at i k v Hi Hp) by lia. by exists k, v.
    + pose proof (lookup_lt_Some _ _ _ Hi). destruct (IH it1 (S i)) as (it2 & -> & H2 & D2); [by eapply at_before|eapply passed_next; [done|lia]|lia|].
      exists it2. split_and!; [done|done|congruence].
  - apply lookup_ge_None in Hi. pose proof (bf_within _ _ _ _ _ Hb). assert (i = length kvs) as -> by lia.
    destruct (ParseNextKey_end kvs sh rs Hl it Hb) as (it1 & -> & H1 & D1 & _). cbn [mbind result_bind]. exists it1.
    split; [done|]. split; [|done]. by rewrite seek_pos_end.
Qed.

Lemma restarts_fit : 4 * len rs < 2 ^ 32.
Proof using Hl.
  pose proof (ly_small _ _ _ Hl) as H. unfold contents, trailer in H. rewrite !len_app in H. pose proof (len_pos (concat (ebs kvs sh))).
  enough (len (concat (EncodeFixed32 <$> (off <$> rs))) = 4 * len rs) by (pose proof (len_pos (EncodeFixed32 (len rs))); lia).
  generalize rs. intros l. induction l as [|x l IH]; [done|]. cbn [fmap list_fmap concat]. rewrite len_app, IH, len_cons. unfold EncodeFixed32, len.
  rewrite length_le_bytes. lia.
Qed.

Lemma search_loop_ok fuel l r jl :
  rs !! l = Some jl → passed jl → (l ≤ r < length rs)%nat → (r - l < fuel)%nat →
  ∃ l' j', search_loop cmp b fuel t (Z.of_nat l) (Z.of_nat r) = Ok (Z.of_nat l') ∧ rs !! l' = Some j' ∧ passed j'.
Proof using Hl Hgood Hasc Ht.
  revert l r jl. induction fuel as [|fuel IH]; intros l r jl Hjl Hp Hr Hf; [lia|]. cbn [search_loop].
  destruct (Z.ltb_spec (Z.of_nat l) (Z.of_nat r)) as [Hlt|]; [|by exists l, jl].
  pose proof restarts_fit as Hfit. unfold len in Hfit. rewrite wrap_small by (split; lia).
  set (m := ((l + r + 1) / 2)%nat). assert (Z.of_nat m = (Z.of_nat l + Z.of_nat r + 1) / 2) as Em.
  { unfold m. rewrite Nat2Z.inj_div. f_equal. lia. }
  rewrite <- Em. clearbody m. assert (l < m ≤ r)%nat as Hm by (Z.to_euclidean_division_equations; lia).
  destruct (lookup_lt_is_Some_2 rs m) as [j Hj]; [lia|]. rewrite (restart_at kvs sh rs Hl m j Hj). cbn [mbind result_bind].
  assert (0 < j < length kvs)%nat as Hjk.
  { pose proof (ly_ascending _ _ _ Hl l m jl j ltac:(lia) Hjl Hj). destruct (ly_restart _ _ _ Hl m j Hj); lia. }
  destruct (lookup_lt_is_Some_2 kvs j) as [[k v] Hkv]; [lia|]. destruct (shared_at kvs sh rs Hl j _ Hkv) as (s & Hs & _ & _).
  assert (s = 0) as -> by (by eapply (ly_unshared _ _ _ Hl)). destruct (decode_at kvs sh rs Hl j k v 0 Hkv Hs) as (p & Hd & Hk & _ & _).
  change (data b) with (contents kvs sh rs). change (restarts b) with (off (length kvs)). rewrite Hd. cbn [negb Z.eqb]. rewrite Hk.
  change (zdrop 0 k) with k. destruct (cmp_rank k t) as (c & -> & Hc); [by eapply good_at|done|]. cbn [mbind result_bind].
  destruct (Z.ltb_spec c 0).
  - apply (IH m r j); [done| |lia|lia]. eapply passed_le; [|eapply (passed_next j k v); [done|lia]]. lia.
  - replace (Z.of_nat m - 1) with (Z.of_nat (m - 1)) by lia. apply (IH l (m - 1)%nat jl); [done|done|lia|lia].
Qed.

(** The search from restart points [l] to [r], and the scan behind it. *)
Lemma seek_from it l r jl :
  rs !! l = Some jl → passed jl → (l ≤ r < length rs)%nat →
  ∃ l', search_loop cmp b (S (Z.to_nat (num_restarts b))) t (Z.of_nat l) (Z.of_nat r) = Ok (Z.of_nat l') ∧
    ∃ it1 it', SeekToRestartPoint b it (Z.of_nat l') = Ok it1 ∧ scan_loop cmp b (entry_fuel b) t it1 = Ok it' ∧
      pos_is it' seek_pos ∧ debug it' = debug it.
Proof using Hl Hgood Hasc Ht.
  intros Hj Hp Hr. change (num_restarts b) with (len rs).
  destruct (search_loop_ok (S (Z.to_nat (len rs))) l r jl Hj Hp Hr) as (l' & j' & -> & Hj' & Hp'); [unfold len; lia|]. exists l'. split; [done|].
  destruct (SeekToRestartPoint_ok kvs sh rs Hl it l' j' Hj') as (it1 & -> & H1 & D1). pose proof (entry_fuel_enough kvs sh rs Hl) as Hf.
  destruct (scan_loop_ok (entry_fuel b) it1 j' H1 Hp') as (it2 & E2 & H2 & D2); [lia|]. exists it1, it2. split_and!; [done|done|done|congruence].
Qed.

Lemma passed_0 : passed 0.
Proof. intros j kv Hj. lia. Qed.

Lemma Seek_ok it o : pos_is it o → ∃ it', Seek cmp b it t = Ok it' ∧ pos_is it' seek_pos ∧ debug it' = debug it.
Proof using Hl Hgood Hasc Ht.
  intros Hpos. pose proof (lookup_lt_Some _ _ _ (ly_first _ _ _ Hl)) as Hrs. unfold Seek. destruct o as [i|]; cycle 1.
  { rewrite (valid_ended kvs sh rs it Hpos). cbn [mbind result_bind andb]. change (num_restarts b - 1) with (len rs - 1).
    replace (len rs - 1) with (Z.of_nat (length rs - 1)) by (unfold len; lia).
    destruct (seek_from it 0 (length rs - 1) 0 (ly_first _ _ _ Hl) passed_0 ltac:(lia)) as (l' & E & it1 & it2 & E1 & E2 & H2 & D2).
    change (Z.of_nat 0) with 0 in E. rewrite E. cbn [mbind result_bind Z.eqb orb require]. rewrite andb_false_r, E1. cbn [mbind result_bind].
    eauto. }
  destruct Hpos as (k & v & H). rewrite (valid_at kvs sh rs Hl it i k v H). destruct (ae_restart _ _ _ _ _ _ _ H) as (r & j & Hr & Hj & Hle).
  pose proof (ae_entry _ _ _ _ _ _ _ H) as Hkv. pose proof (lookup_lt_Some _ _ _ Hj).
  destruct (cmp_rank k t) as (c & Ec & Hc); [by eapply good_at|done|]. rewrite (ae_key _ _ _ _ _ _ _ H), Ec. cbn [mbind result_bind andb].
  destruct (Z.eqb_spec c 0) as [->|Hne].
  { exists it. split; [done|]. split; [|done]. rewrite (seek_pos_at i k v Hkv); [by exists k, v| |lia]. intros x kv Hx Hxkv.
    pose proof (ascending_lookup _ _ x i _ _ Hasc Hx Hxkv Hkv) as Hlt. cbn in Hlt. lia. }
  rewrite Hr. change (num_restarts b - 1) with (len rs - 1). replace (len rs - 1) with (Z.of_nat (length rs - 1)) by (unfold len; lia).
  destruct (Z.ltb_spec c 0) as [Hc0|Hc0].
  - rewrite (proj2 (Z.ltb_ge 0 c)) by lia.
    assert (passed (S i)) as Hpass by (eapply passed_next; [done|lia]).
    destruct (seek_from it r (length rs - 1) j Hj (passed_le j (S i) ltac:(lia) Hpass) ltac:(lia)) as (l' & E & it1 & it2 & E1 & E2 & H2 & D2).
    rewrite E. cbn [mbind result_bind orb require]. rewrite andb_true_r. destruct (Z.eqb_spec (Z.of_nat l') (Z.of_nat r)).
    + cbn [mbind result_bind]. apply (scan_loop_ok _ it (S i)); [by eapply at_before|done|]. pose proof (entry_fuel_enough kvs sh rs Hl). lia.
    + rewrite E1. cbn [mbind result_bind]. eauto.
  - rewrite (proj2 (Z.ltb_lt 0 c)) by lia.
    destruct (seek_from it 0 r 0 (ly_first _ _ _ Hl) passed_0 ltac:(lia)) as (l' & E & it1 & it2 & E1 & E2 & H2 & D2).
    change (Z.of_nat 0) with 0 in E. rewrite E. cbn [mbind result_bind orb require]. rewrite andb_false_r, E1. cbn [mbind result_bind]. eauto.
Qed.

End target.
End order.
