(* ===== verification/LsmBlockRefine.v ===== *)
(** * dLSM: a block is a sorted list with a cursor

    A block that was built from entries in ascending order, opened, and used
    through any sequence of calls of its iterator behaves as a position in the
    list of the entries, with the assertions of a debug build. *)
From S2P Require Import Prelude LsmCoding LsmFile LsmFormat LsmMemTable LsmBlock.
Import Coding Format Block.

(** ** A cursor in a list *)

(** [seen] is the key that the last call of [Next] arrived at. *)
Record cursor := MkCursor { pos : option nat; seen : option (list Z) }.

Inductive call := CSeek (target : list Z) | CSeekToFirst | CSeekToLast | CNext | CPrev.

Section cursor.
Context (cmp : list Z → list Z → result Z) `{!KeyOrder cmp} (kvs : list (list Z * list Z)).

(** [Next] insists on keys that do not begin with the letters U or V, and on
    keys not before the one that the last [Next] arrived at. *)
Definition cursor_next (c : cursor) : result cursor :=
  match pos c with
  | None => Err AssertionFailure
  | Some i =>
      let more := (S i <? length kvs)%nat in
      kv ← at_index kvs (if more then S i else i);
      first ← at_index kv.1 0;
      require (negb (first =? 85) && negb (first =? 86));;
      require (match seen c with Some l => key_rank l <=? key_rank kv.1 | None => true end);;
      Ok (MkCursor (if more then Some (S i) else None) (Some kv.1))
  end.

Definition cursor_step (c : cursor) (x : call) : result cursor :=
  match x with
  | CSeek t => Ok (MkCursor (first_index (λ kv, key_rank t <=? key_rank kv.1) kvs) (seen c))
  | CSeekToFirst => require (0 <? length kvs)%nat;; Ok (MkCursor (Some 0%nat) (seen c))
  | CSeekToLast => Ok (MkCursor (match length kvs with O => None | S e => Some e end) (seen c))
  | CNext => cursor_next c
  | CPrev =>
      match pos c with
      | None => Err AssertionFailure
      | Some i => Ok (MkCursor (match i with O => None | S e => Some e end) (seen c))
      end
  end.

Fixpoint cursor_run (c : cursor) (xs : list call) : result (list (option (list Z * list Z))) :=
  match xs with
  | [] => Ok []
  | x :: xs => c ← cursor_step c x; os ← cursor_run c xs; Ok ((pos c ≫= λ i, kvs !! i) :: os)
  end.

End cursor.

(** ** The calls of an iterator *)

Section iterator.
Context (cmp : list Z → list Z → result Z) (b : source).

Definition iter_step (it : iter) (x : call) : result iter :=
  match x with
  | CSeek t => Seek cmp b it t
  | CSeekToFirst => SeekToFirst b it
  | CSeekToLast => SeekToLast b it
  | CNext => Next cmp b it
  | CPrev => Prev b it
  end.

(** What a client reads. *)
Definition observe (it : iter) : result (option (list Z * list Z)) :=
  if Valid b it then k ← key b it; v ← value b it; Ok (Some (k, v)) else Ok None.

Fixpoint iter_run (it : iter) (xs : list call) : result (list (option (list Z * list Z))) :=
  match xs with
  | [] => Ok []
  | x :: xs => it ← iter_step it x; o ← observe it; os ← iter_run it xs; Ok (o :: os)
  end.

End iterator.

Section refinement.
Context (cmp : list Z → list Z → result Z) `{!KeyOrder cmp}.
Context (kvs : list (list Z * list Z)) (sh : list Z) (rs : list nat) (Hl : layout kvs sh rs).
Context (Hgood : Forall (λ kv, good kv.1) kvs) (Hasc : ascending (λ kv, key_rank kv.1) kvs) (Hne : Forall (λ kv, 0 < len kv.1) kvs).
#[local] Notation b := (src kvs sh rs).

Definition abs (it : iter) (c : cursor) : Prop :=
  pos_is kvs sh rs it (pos c) ∧
  match seen c with None => num_entries it = 0 | Some l => 0 < num_entries it ∧ last_key it = l ∧ good l end.

Lemma abs_move it it' c o : abs it c → debug it' = debug it → pos_is kvs sh rs it' o → abs it' (MkCursor o (seen c)).
Proof. intros [_ Hd] [= E1 E2] Hp. split; [done|]. cbn. by rewrite E1, E2. Qed.

Lemma observe_ok it o : pos_is kvs sh rs it o → observe b it = Ok (o ≫= λ i, kvs !! i).
Proof using Hl.
  intros Hp. unfold observe, key, value. destruct o as [i|]; [|by rewrite (valid_ended kvs sh rs it Hp)].
  destruct Hp as (k & v & H). rewrite (valid_at kvs sh rs Hl it i k v H). cbn [require mbind result_bind].
  destruct (ae_value _ _ _ _ _ _ _ H) as (o & -> & _ & Hv). change (data b) with (contents kvs sh rs). rewrite Hv. cbn.
  by rewrite (ae_entry _ _ _ _ _ _ _ H), (ae_key _ _ _ _ _ _ _ H).
Qed.

Lemma pos_same it it' o :
  pos_is kvs sh rs it o → current_ it' = current_ it → restart_index_ it' = restart_index_ it → key_ it' = key_ it → value_ it' = value_ it →
  pos_is kvs sh rs it' o.
Proof.
  intros Hp E1 E2 E3 E4. destruct o as [i|]; [|unfold pos_is, ended in *; by rewrite E1, E2].
  destruct Hp as (k & v & [H1 H2 H3 H4 H5]). exists k, v. split; [done|congruence|congruence|by rewrite E4|].
  unfold restarts_before in *. by rewrite E2.
Qed.

(** Where [ParseNextKey] gets from an entry. *)
Lemma parse_from it i k v :
  at_entry kvs sh rs it i k v →
  let more := (S i <? length kvs)%nat in
  ∃ it' kv, ParseNextKey b it = Ok (more, it') ∧ kvs !! (if more then S i else i) = Some kv ∧ key_ it' = kv.1 ∧
    debug it' = debug it ∧ pos_is kvs sh rs it' (if more then Some (S i) else None).
Proof using Hl.
  intros H. pose proof (at_before kvs sh rs Hl it i k v H) as Hb. pose proof (lookup_lt_Some _ _ _ (ae_entry _ _ _ _ _ _ _ H)) as Hi.
  destruct (Nat.ltb_spec (S i) (length kvs)) as [Hlt|Hge]; cbn zeta.
  - destruct (lookup_lt_is_Some_2 kvs (S i) Hlt) as [[k' v'] Hkv].
    destruct (ParseNextKey_ok kvs sh rs Hl it (S i) k' v' Hb Hkv) as (it' & E & H' & D). exists it', (k', v').
    split_and!; [done|done|apply (ae_key _ _ _ _ _ _ _ H')|done|by exists k', v'].
  - assert (S i = length kvs) as Ei by lia. rewrite Ei in Hb. destruct (ParseNextKey_end kvs sh rs Hl it Hb) as (it' & E & H' & D & Hk).
    exists it', (k, v). split_and!; [done|apply (ae_entry _ _ _ _ _ _ _ H)| |done|done]. rewrite Hk. apply (ae_key _ _ _ _ _ _ _ H).
Qed.

Lemma Next_ok it c :
  abs it c → match cursor_next cmp kvs c with Ok c' => ∃ it', Next cmp b it = Ok it' ∧ abs it' c' | Err e => Next cmp b it = Err e end.
Proof using Hl Hgood.
  intros [Hp Hd]. unfold cursor_next, Next. destruct (pos c) as [i|]; [|by rewrite (valid_ended kvs sh rs it Hp)].
  destruct Hp as (k & v & H). rewrite (valid_at kvs sh rs Hl it i k v H). cbn [require mbind result_bind].
  destruct (parse_from it i k v H) as (it1 & kv & -> & Hkv & Hk & [= E1 E2] & Hp1). cbv zeta. rewrite (proj2 (at_index_Ok _ _ _) Hkv). cbn [mbind result_bind].
  assert (good kv.1) as Hg by (exact (proj1 (Forall_lookup _ _) Hgood _ _ Hkv)). rewrite <- Hk in *.
  destruct (at_index (key_ it1) 0) as [x|e] eqn:Ex; [|done]. cbn [mbind result_bind]. destruct (negb (x =? 85) && _); [|done]. cbn [require mbind result_bind].
  assert (len (key_ it1) ≠ 0) as Hlen by (intros E%len_zero; by rewrite E in Ex).
  destruct (seen c) as [l|].
  - destruct Hd as (Hn & Hlast & Hgl). rewrite E1, E2, (proj2 (Z.ltb_lt _ _)), Hlast by done.
    destruct (cmp_rank (key_ it1) l Hg Hgl) as (r & -> & Hr). cbn [mbind result_bind].
    replace (0 <=? r) with (key_rank l <=? key_rank (key_ it1)) by (apply eq_true_iff_eq; rewrite !Z.leb_le; lia).
    destruct (_ <=? _); [|done]. cbn [require mbind result_bind key_]. rewrite (proj2 (Z.eqb_neq _ _)) by done. rewrite orb_true_r. eexists.
    split; [done|]. split; [|cbn; split; [lia|by split]]. by apply (pos_same it1).
  - rewrite E2, Hd. cbn [Z.ltb Z.compare mbind result_bind require key_]. rewrite (proj2 (Z.eqb_neq _ _)) by done. rewrite orb_true_r. eexists.
    split; [done|]. split; [by apply (pos_same it1)|cbn; split; [lia|by split]].
Qed.

Lemma SeekToFirst_ok it :
  if (0 <? length kvs)%nat then ∃ it', SeekToFirst b it = Ok it' ∧ pos_is kvs sh rs it' (Some 0%nat) ∧ debug it' = debug it
  else SeekToFirst b it = Err AssertionFailure.
Proof using Hl Hne.
  destruct (SeekToRestartPoint_ok kvs sh rs Hl it 0 0 (ly_first _ _ _ Hl)) as (it1 & E1 & H1 & D1). change (Z.of_nat 0) with 0 in E1.
  unfold SeekToFirst. rewrite E1. cbn [mbind result_bind]. destruct (kvs !! 0%nat) as [[k v]|] eqn:H0.
  - pose proof (lookup_lt_Some _ _ _ H0). rewrite (proj2 (Nat.ltb_lt _ _)) by done.
    destruct (ParseNextKey_ok kvs sh rs Hl it1 0 k v H1 H0) as (it2 & -> & H2 & D2). cbn [mbind result_bind]. unfold key.
    rewrite (valid_at kvs sh rs Hl it2 0 k v H2). cbn [require mbind result_bind]. rewrite (ae_key _ _ _ _ _ _ _ H2).
    pose proof (proj1 (Forall_lookup _ _) Hne _ _ H0) as Hk. cbn in Hk. rewrite (proj2 (Z.eqb_neq _ _)) by lia. exists it2.
    split; [done|]. split; [by exists k, v|congruence].
  - apply lookup_ge_None in H0. rewrite (proj2 (Nat.ltb_ge _ _)) by done. assert (length kvs = 0%nat) as E0 by lia. rewrite <- E0 in H1.
    destruct (ParseNextKey_end kvs sh rs Hl it1 H1) as (it2 & -> & H2 & _). cbn [mbind result_bind]. unfold key.
    by rewrite (valid_ended kvs sh rs it2 H2).
Qed.

Definition call_ok (x : call) : Prop := match x with CSeek t => good t | _ => True end.

Lemma step_ok it c x :
  abs it c → call_ok x →
  match cursor_step cmp kvs c x with Ok c' => ∃ it', iter_step cmp b it x = Ok it' ∧ abs it' c' | Err e => iter_step cmp b it x = Err e end.
Proof using Hl Hgood Hasc Hne.
  intros Ha Hx. destruct x as [t| | | |]; cbn [cursor_step iter_step].
  - destruct (Seek_ok cmp kvs sh rs Hl Hgood Hasc t Hx it _ (proj1 Ha)) as (it' & E & H & D). exists it'. split; [done|]. by eapply abs_move.
  - pose proof (SeekToFirst_ok it) as H. destruct (0 <? length kvs)%nat; [|done]. destruct H as (it' & E & H & D).
    exists it'. split; [done|]. by eapply abs_move.
  - destruct (SeekToLast_ok kvs sh rs Hl it) as (it' & E & H & D). exists it'. split; [done|]. by eapply abs_move.
  - by apply Next_ok.
  - destruct Ha as [Hp Hd]. destruct (pos c) as [i|] eqn:Ec; [|unfold Prev; by rewrite (valid_ended kvs sh rs it Hp)].
    destruct Hp as (k & v & H). destruct (Prev_ok kvs sh rs Hl it i k v H) as (it' & E & Hp' & D). exists it'. split; [done|].
    eapply abs_move; [|done|done]. split; [rewrite Ec; by exists k, v|done].
Qed.

Lemma run_ok it c xs : abs it c → Forall call_ok xs → iter_run cmp b it xs = cursor_run cmp kvs c xs.
Proof using Hl Hgood Hasc Hne.
  intros Ha Hxs. revert it c Ha. induction Hxs as [|x xs Hx Hxs IH]; intros it c Ha; [done|]. cbn [iter_run cursor_run].
  pose proof (step_ok it c x Ha Hx) as H. destruct (cursor_step cmp kvs c x) as [c'|e]; [|by rewrite H].
  destruct H as (it' & -> & Ha'). cbn [mbind result_bind]. rewrite (observe_ok it' _ (proj1 Ha')). cbn [mbind result_bind].
  by rewrite (IH it' c' Ha').
Qed.

End refinement.

(** ** Building *)

Fixpoint add_all (cmp : list Z → list Z → result Z) (interval : Z) (s : builder) (kvs : list (list Z * list Z)) : result builder :=
  match kvs with
  | [] => Ok s
  | (k, v) :: kvs => s ← Add cmp interval s k v; add_all cmp interval s kvs
  end.

(** A block of the entries, opened. *)
Definition open_block (cmp : list Z → list Z → result Z) (interval : Z) (kvs : list (list Z * list Z)) : result (option (source * iter)) :=
  s ← make_builder interval;
  s ← add_all cmp interval s kvs;
  bl ← make_block (Finish s).1;
  NewIterator bl.

(** A bound of the bytes of a block. *)
Definition size_bound (kvs : list (list Z * list Z)) : Z := foldr (λ kv n, len kv.1 + len kv.2 + 19 + n) 8 kvs.

Lemma size_bound_app l m : size_bound (l ++ m) = size_bound l + size_bound m - 8.
Proof. unfold size_bound. induction l as [|kv l IH]; cbn; [lia|]. rewrite IH. lia. Qed.

Lemma size_bound_pos l : 8 ≤ size_bound l.
Proof. induction l as [|kv l IH]; cbn; [lia|]. unfold size_bound in IH. pose proof (len_pos kv.1). pose proof (len_pos kv.2). lia. Qed.

Lemma size_bound_elem kv l : kv ∈ l → len kv.1 + len kv.2 + 27 ≤ size_bound l.
Proof.
  intros H. induction l as [|x l IH]; [by apply not_elem_of_nil in H|]. cbn. fold (size_bound l). pose proof (size_bound_pos l).
  apply elem_of_cons in H as [->|H]; [lia|]. specialize (IH H). pose proof (len_pos x.1). pose proof (len_pos x.2). lia.
Qed.

Lemma shared_length_spec a c :
  0 ≤ shared_length a c ≤ len a ∧ shared_length a c ≤ len c ∧ ztake (shared_length a c) a = ztake (shared_length a c) c.
Proof.
  revert c. unfold len. induction a as [|x a IH]; intros [|y c]; cbn [shared_length length]; try (split_and!; [lia|lia|lia|done]).
  destruct (Z.eqb_spec x y) as [->|]; [|split_and!; [lia|lia|lia|done]]. destruct (IH c) as ((H1 & H2) & H3 & H4). split_and!; [lia|lia|lia|].
  unfold ztake in *. replace (Z.to_nat (shared_length a c + 1)) with (S (Z.to_nat (shared_length a c))) by lia. cbn [take]. by rewrite H4.
Qed.

Lemma len_entry_bytes s k v :
  0 ≤ s ≤ len k → len k < 2 ^ 32 → len v < 2 ^ 32 → len (entry_bytes s k v) ≤ len k + len v + 15.
Proof.
  intros Hs Hk Hv. pose proof (len_pos v). unfold entry_bytes, header. rewrite !len_app, len_zdrop by lia.
  destruct (EncodeVarint32_bytes s) as [_ L1]; [unfold fits; lia|]. destruct (EncodeVarint32_bytes (len k - s)) as [_ L2]; [unfold fits; lia|].
  destruct (EncodeVarint32_bytes (len v)) as [_ L3]; [unfold fits; lia|]. unfold len in *. lia.
Qed.

Lemma len_fixed32 (l : list Z) : len (concat (EncodeFixed32 <$> l)) = 4 * len l.
Proof.
  induction l as [|x l IH]; [done|]. cbn [fmap list_fmap concat]. rewrite len_app, IH, len_cons. unfold EncodeFixed32, len. rewrite length_le_bytes. lia.
Qed.

(** The bytes of a block are within the bound. *)
Lemma contents_bound kvs sh rs :
  length sh = length kvs → (∀ i s kv, sh !! i = Some s → kvs !! i = Some kv → 0 ≤ s ≤ len kv.1) → (length rs ≤ S (length kvs))%nat →
  size_bound kvs < 2 ^ 32 → len (contents kvs sh rs) ≤ size_bound kvs.
Proof.
  intros Hlen Hw Hrs Hb. assert (len (concat (ebs kvs sh)) + 4 * len kvs + 8 ≤ size_bound kvs) as H.
  { clear rs Hrs. revert sh Hlen Hw Hb. induction kvs as [|[k v] kvs IH]; intros [|s sh] Hlen Hw Hb; try done. unfold ebs in *. cbn in *.
    fold (size_bound kvs) in *. pose proof (size_bound_pos kvs). pose proof (len_pos k). pose proof (len_pos v).
    specialize (IH sh ltac:(lia) (λ i, Hw (S i)) ltac:(lia)).
    pose proof (len_entry_bytes s k v (Hw 0%nat s (k, v) eq_refl eq_refl) ltac:(lia) ltac:(lia)). rewrite len_app, len_cons. lia. }
  assert (len (off kvs sh <$> rs) = len rs) as E1 by (unfold len; by rewrite length_fmap).
  assert (len (EncodeFixed32 (len rs)) = 4) as E2 by (unfold len, EncodeFixed32; by rewrite length_le_bytes).
  assert (len rs ≤ len kvs + 1) by (unfold len; lia). unfold contents, trailer. rewrite !len_app, len_fixed32, E1, E2. lia.
Qed.

Section builder.
Context (cmp : list Z → list Z → result Z) `{!KeyOrder cmp} (interval : Z) (Hint : 1 ≤ interval < 2 ^ 31).

(** What the builder has after some entries. *)
Record building (s : builder) (done : list (list Z * list Z)) (sh : list Z) (rs : list nat) : Prop := {
  bd_layout : layout done sh rs;
  bd_buffer : buffer s = concat (ebs done sh);
  bd_restarts : restarts_ s = off done sh <$> rs;
  bd_count : (length rs ≤ S (length done))%nat;
  bd_counter : 0 ≤ counter_ s ≤ interval;
  bd_fresh : done = [] → counter_ s = 0;
  bd_open : finished_ s = false;
  bd_last : last_key_ s = from_option fst [] (last done);
}.

Lemma building_start : ∃ s, make_builder interval = Ok s ∧ building s [] [] [0%nat].
Proof using Hint.
  unfold make_builder. rewrite (proj2 (Z.leb_le _ _)) by lia. eexists. split; [done|]. split; try done; [|cbn; lia].
  split; try done.
  - intros [|r] i; [|done]. cbn. intros [= <-]. by left.
  - intros [|r] [|r'] i i' ?; cbn; [lia|done|done|done].
Qed.

Lemma ebs_snoc (done : list (list Z * list Z)) sh s k v :
  length sh = length done → ebs (done ++ [(k, v)]) (sh ++ [s]) = ebs done sh ++ [entry_bytes s k v].
Proof. intros H. unfold ebs. by rewrite zip_with_app. Qed.

Lemma off_snoc (done : list (list Z * list Z)) sh s k v i :
  length sh = length done → (i ≤ length done)%nat → off (done ++ [(k, v)]) (sh ++ [s]) i = off done sh i.
Proof.
  intros H Hi. unfold off. rewrite ebs_snoc by done. rewrite take_app_le; [done|]. unfold ebs. rewrite length_zip_with. lia.
Qed.

(** The layout with one more entry, at a restart point or not. *)
Lemma layout_snoc done sh rs k v s (restart : bool) :
  layout done sh rs → (length rs ≤ S (length done))%nat → size_bound (done ++ [(k, v)]) < 2 ^ 32 →
  (if restart then s = 0 ∧ done ≠ []
   else s ≤ len (from_option fst [] (last done)) ∧ ztake s (from_option fst [] (last done)) = ztake s k) →
  0 ≤ s ≤ len k →
  layout (done ++ [(k, v)]) (sh ++ [s]) (if restart then rs ++ [length done] else rs).
Proof.
  intros Hl Hrs Hb Hs Hsk. pose proof (ly_length _ _ _ Hl) as Hlen.
  assert (∀ i s' kv, (sh ++ [s]) !! i = Some s' → (done ++ [(k, v)]) !! i = Some kv → 0 ≤ s' ≤ len kv.1) as Hw.
  { intros i s' kv H1 H2. destruct (decide (i < length done)%nat).
    - rewrite lookup_app_l in H1 by lia. rewrite lookup_app_l in H2 by lia. by eapply (ly_within _ _ _ Hl).
    - rewrite lookup_app_r in H1 by lia. rewrite lookup_app_r in H2 by lia. rewrite Hlen in H1. destruct (i - length done)%nat; [|done].
      by simplify_eq/=. }
  assert (∀ r i, (if restart then rs ++ [length done] else rs) !! r = Some i →
    rs !! r = Some i ∨ (r = length rs ∧ i = length done ∧ restart = true)) as Hold.
  { intros r i Hr. destruct restart; [|by left]. apply lookup_app_Some in Hr as [?|[Hr ?]]; [by left|right].
    assert (r - length rs = 0)%nat as E by (destruct (r - length rs)%nat; done). rewrite E in *. simplify_eq/=. split; [lia|done]. }
  split.
  - rewrite !length_app. cbn. lia.
  - exact Hw.
  - intros i kv Hkv%list_elem_of_lookup_2%size_bound_elem. pose proof (len_pos kv.2). lia.
  - intros i s' kv kv' H1 H2 H3. pose proof (lookup_lt_Some _ _ _ H3) as Hi. rewrite length_app in Hi. cbn in Hi.
    rewrite lookup_app_l in H2 by lia. destruct (decide (S i < length done)%nat).
    + rewrite lookup_app_l in H1 by lia. rewrite lookup_app_l in H3 by lia. by eapply (ly_shared _ _ _ Hl).
    + rewrite lookup_app_r in H1 by lia. rewrite lookup_app_r in H3 by lia. replace (S i - length sh)%nat with 0%nat in H1 by lia.
      replace (S i - length done)%nat with 0%nat in H3 by lia. simplify_eq/=. destruct restart; [destruct Hs as [-> _]; split; [apply len_pos|done]|].
      assert (last done = Some kv) as E by (rewrite last_lookup; by replace (pred (length done)) with i by lia). by rewrite E in Hs.
  - destruct restart; [|apply (ly_first _ _ _ Hl)]. rewrite lookup_app_l; [apply (ly_first _ _ _ Hl)|]. by eapply lookup_lt_Some, (ly_first _ _ _ Hl).
  - intros r i Hr. rewrite length_app. apply Hold in Hr as [Hr|(_ & -> & _)]; [|right; cbn; lia]. destruct (ly_restart _ _ _ Hl r i Hr); [by left|right; lia].
  - intros r i s' Hr Hs'. apply Hold in Hr as [Hr|(_ & -> & ->)].
    + destruct (decide (i < length done)%nat) as [Hi|Hi]; [rewrite lookup_app_l in Hs' by lia; by eapply (ly_unshared _ _ _ Hl)|].
      destruct (ly_restart _ _ _ Hl r i Hr) as [->|]; [|lia]. assert (done = []) as -> by (by destruct done; [|cbn in Hi; lia]).
      destruct sh; [|done]. injection Hs' as <-. destruct restart; [by destruct Hs|]. destruct Hs as [Hs _]. cbn in Hs. rewrite len_nil in Hs. lia.
    + rewrite <- Hlen, list_lookup_middle in Hs' by done. injection Hs' as <-. by destruct Hs.
  - intros r r' i i' Hrr Hr Hr'. apply Hold in Hr, Hr'. destruct Hr' as [Hr'|(-> & -> & E)].
    + destruct Hr as [Hr|(-> & _ & _)]; [by eapply (ly_ascending _ _ _ Hl)|]. apply lookup_lt_Some in Hr'. lia.
    + destruct Hr as [Hr|(-> & _ & _)]; [|lia]. rewrite E in Hs. destruct Hs as [_ Hne].
      destruct (ly_restart _ _ _ Hl r i Hr) as [->|]; [|done]. destruct done; [done|cbn; lia].
  - eapply Z.le_lt_trans; [|exact Hb]. apply contents_bound; [rewrite !length_app; cbn; lia|exact Hw| |done].
    rewrite length_app. destruct restart; rewrite ?length_app; cbn; lia.
Qed.

Lemma Add_ok s done sh rs k v :
  building s done sh rs → size_bound (done ++ [(k, v)]) < 2 ^ 32 → 8 ≤ len k → good k → Forall (λ kv, good kv.1) done →
  ascending (λ kv, key_rank kv.1) (done ++ [(k, v)]) →
  ∃ s' sh' rs', Add cmp interval s k v = Ok s' ∧ building s' (done ++ [(k, v)]) sh' rs'.
Proof using Hint KeyOrder0.
  intros [Hl Hbuf Hres Hcount Hctr Hfresh Hopen Hlast] Hb Hk Hg Hgs Hasc. pose proof (ly_length _ _ _ Hl) as Hlen.
  unfold Add. rewrite (proj2 (Z.leb_le 8 _)), Hopen, (proj2 (Z.leb_le (counter_ s) _)) by lia. cbn [require mbind result_bind negb].
  assert ((if empty s then Ok true else c ← cmp k (last_key_ s); Ok (0 <? c)) = Ok true) as ->.
  { unfold empty. destruct (Z.eqb_spec (len (buffer s)) 0); [done|]. destruct (last done) as [kv|] eqn:E.
    - rewrite Hlast. apply last_Some in E as [l' ->]. cbn [from_option]. apply Forall_app in Hgs as [_ [Hgkv _]%Forall_cons].
      destruct (cmp_rank k kv.1 Hg Hgkv) as (c & -> & Hc). cbn. rewrite (proj2 (Z.ltb_lt _ _)); [done|].
      pose proof (StronglySorted_app_1_elem_of _ _ _ kv (k, v) Hasc ltac:(apply elem_of_app; right; by left) ltac:(by left)) as H.
      cbn in H. lia.
    - apply last_None in E as ->. rewrite Hbuf in n. destruct sh; [|done]. done. }
  cbn [require mbind result_bind].
  pose proof (size_bound_elem (k, v) (done ++ [(k, v)]) ltac:(apply elem_of_app; right; by left)) as Hkv. cbn in Hkv. pose proof (len_pos k). pose proof (len_pos v).
  set (restart := negb (counter_ s <? interval)). set (n := if restart then 0 else shared_length (last_key_ s) k).
  assert (0 ≤ n ≤ len (last_key_ s) ∧ n ≤ len k ∧ ztake n (last_key_ s) = ztake n k) as (Hn1 & Hn2 & Hn3).
  { subst n. destruct restart; [pose proof (len_pos (last_key_ s)); split_and!; [lia|lia|lia|done]|apply shared_length_spec]. }
  assert (layout (done ++ [(k, v)]) (sh ++ [n]) (if restart then rs ++ [length done] else rs)) as Hl'.
  { apply layout_snoc; [done|done|done| |lia]. rewrite <- Hlast. unfold n, restart in *. destruct (Z.ltb_spec (counter_ s) interval); cbn [negb] in *.
    - split; [lia|done]. - split; [done|]. intros ->. specialize (Hfresh eq_refl). lia. }
  replace (if counter_ s <? interval then (shared_length (last_key_ s) k, restarts_ s, counter_ s) else (0, restarts_ s ++ [u32 (len (buffer s))], 0))
    with (n, (if restart then restarts_ s ++ [u32 (len (buffer s))] else restarts_ s), if restart then 0 else counter_ s)
    by (unfold n, restart; by destruct (counter_ s <? interval)).
  rewrite Hn3, ztake_zdrop, bool_decide_eq_true_2 by done. cbn [require mbind result_bind]. eexists _, (sh ++ [n]), _. split; [done|].
  pose proof (off_end done sh rs Hl) as Hend. pose proof (off_bound done sh rs Hl (length done) ltac:(lia)) as Hbound.
  split; cbn [buffer restarts_ counter_ finished_ last_key_]; [exact Hl'| | | | | |done|by rewrite last_snoc].
  - rewrite ebs_snoc, concat_app by done. cbn [concat]. rewrite app_nil_r, Hbuf, !wrap_small by (split; lia). unfold PutVarint32, entry_bytes, header.
    by rewrite <- !app_assoc.
  - assert (off (done ++ [(k, v)]) (sh ++ [n]) <$> rs = off done sh <$> rs) as E.
    { apply list_fmap_ext. intros r i Hr. apply off_snoc; [done|]. by eapply (restart_within done sh rs). }
    destruct restart; rewrite ?fmap_app, E, <- Hres; [|done]. cbn. rewrite off_snoc, Hend, Hbuf, wrap_small by (done || lia || (split; lia)). done.
  - rewrite length_app. destruct restart; rewrite ?length_app; cbn; lia.
  - unfold restart. destruct (Z.ltb_spec (counter_ s) interval); cbn [negb]; rewrite int32_small; lia.
  - intros E. by destruct done.
Qed.

Lemma add_all_ok kvs s done sh rs :
  building s done sh rs → size_bound (done ++ kvs) < 2 ^ 32 → Forall (λ kv, 8 ≤ len kv.1) kvs → Forall (λ kv, good kv.1) (done ++ kvs) →
  ascending (λ kv, key_rank kv.1) (done ++ kvs) →
  ∃ s' sh' rs', add_all cmp interval s kvs = Ok s' ∧ building s' (done ++ kvs) sh' rs'.
Proof using Hint KeyOrder0.
  revert s done sh rs. induction kvs as [|[k v] kvs IH]; intros s done sh rs Hbd Hb H8 Hg Hasc; cbn [add_all].
  { rewrite app_nil_r. by eexists _, _, _. }
  apply Forall_cons in H8 as [Hk H8]. rewrite cons_middle, app_assoc in Hb, Hg, Hasc |- *.
  pose proof Hg as Hg'. apply Forall_app in Hg' as [[Hgd [Hgk _]%Forall_cons]%Forall_app _].
  destruct (Add_ok s done sh rs k v Hbd) as (s1 & sh1 & rs1 & -> & Hbd1); try done.
  { rewrite size_bound_app in Hb. pose proof (size_bound_pos kvs). lia. }
  { by apply StronglySorted_app_1_l in Hasc. }
  cbn [mbind result_bind]. by apply (IH s1 (done ++ [(k, v)]) sh1 rs1).
Qed.

Lemma fold_PutFixed32 l buf : fold_left PutFixed32 l buf = buf ++ concat (EncodeFixed32 <$> l).
Proof. revert buf. induction l as [|x l IH]; intros buf; cbn; [by rewrite app_nil_r|]. rewrite IH. unfold PutFixed32. by rewrite <- app_assoc. Qed.

Lemma NumRestarts_ok kvs sh rs : layout kvs sh rs → NumRestarts (contents kvs sh rs) (len (contents kvs sh rs)) = Ok (len rs).
Proof.
  intros Hl. unfold NumRestarts. set (E := concat (ebs kvs sh) ++ concat (EncodeFixed32 <$> (off kvs sh <$> rs))).
  assert (contents kvs sh rs = E ++ EncodeFixed32 (len rs) ++ []) as -> by (unfold contents, trailer, E; by rewrite app_nil_r, app_assoc).
  assert (len (EncodeFixed32 (len rs) ++ []) = 4) as E4 by (unfold len, EncodeFixed32; by rewrite app_nil_r, length_le_bytes).
  rewrite len_app, E4. pose proof (len_pos E). rewrite (proj2 (Z.leb_le _ _)) by lia. cbn [require mbind result_bind]. rewrite zdrop_app by lia.
  apply (decode_fixed_encode 4). pose proof (restarts_fit kvs sh rs Hl). pose proof (len_pos rs). split; lia.
Qed.

(** A finished block can be opened. *)
Lemma finished_opens s kvs sh rs :
  building s kvs sh rs → len kvs < 2 ^ 26 →
  (Finish s).1 = contents kvs sh rs ∧ ∃ bl it, make_block (contents kvs sh rs) = Ok bl ∧ 0 < size_ bl ∧
    NewIterator bl = Ok (Some (src kvs sh rs, it)) ∧ ended kvs sh rs it ∧ num_entries it = 0.
Proof.
  intros [Hl Hbuf Hres Hcount _ _ _ _] Hn. pose proof (restarts_fit kvs sh rs Hl) as Hfit. pose proof (len_pos rs). split.
  { cbn [Finish fst]. unfold PutFixed32. rewrite fold_PutFixed32, Hbuf, Hres. unfold contents, trailer.
    replace (len (off kvs sh <$> rs)) with (len rs) by (unfold len; by rewrite length_fmap). rewrite wrap_small by (split; lia). by rewrite app_assoc. }
  pose proof (NumRestarts_ok kvs sh rs Hl) as HN. set (size := len (contents kvs sh rs)) in *. assert (size = off kvs sh (length kvs) + 4 * len rs + 4) as Hsize.
  { unfold size, contents, trailer. rewrite !len_app, len_fixed32, (off_end kvs sh rs Hl). unfold EncodeFixed32, len.
    rewrite length_fmap, length_le_bytes. lia. }
  pose proof (off_bound kvs sh rs Hl (length kvs) ltac:(lia)) as Hoff.
  unfold make_block. fold size. rewrite (proj2 (Z.ltb_ge _ _)) by lia. rewrite HN. cbn [mbind result_bind].
  rewrite (proj2 (Z.leb_le _ _)) by (apply Z.div_le_lower_bound; lia). cbn [require mbind result_bind].
  replace (u32 (size - (1 + len rs) * 4)) with (off kvs sh (length kvs)) by (rewrite wrap_small; [lia|split; lia]).
  eexists _, _. split; [done|]. split; [cbn [size_]; lia|].
  unfold NewIterator. cbn [data_ size_ restart_offset_]. rewrite HN. cbn [mbind result_bind].
  assert (0 < len rs) as Hpos by (pose proof (lookup_lt_Some _ _ _ (ly_first _ _ _ Hl)); unfold len; lia).
  rewrite (proj2 (Z.leb_le _ _)) by (unfold len in *; lia). cbn [require mbind result_bind]. rewrite (proj2 (Z.eqb_neq _ _)) by lia.
  unfold make_iter. cbn [num_restarts restarts]. rewrite (proj2 (Z.ltb_lt _ _)) by done. done.
Qed.

Lemma open_block_ok kvs :
  size_bound kvs < 2 ^ 32 → len kvs < 2 ^ 26 → Forall (λ kv, 8 ≤ len kv.1) kvs → Forall (λ kv, good kv.1) kvs →
  ascending (λ kv, key_rank kv.1) kvs →
  ∃ sh rs it, open_block cmp interval kvs = Ok (Some (src kvs sh rs, it)) ∧ layout kvs sh rs ∧ ended kvs sh rs it ∧ num_entries it = 0.
Proof using Hint KeyOrder0.
  intros Hb Hn H8 Hg Hasc. destruct building_start as (s0 & E0 & Hbd0). destruct (add_all_ok kvs s0 [] [] [0%nat] Hbd0 Hb H8 Hg Hasc) as (s & sh & rs & E & Hbd).
  destruct (finished_opens s kvs sh rs Hbd Hn) as (Ef & bl & it & Eb & _ & Ei & Hend & Hz).
  unfold open_block. rewrite E0. cbn [mbind result_bind]. rewrite E. cbn [mbind result_bind]. rewrite Ef, Eb. cbn [mbind result_bind].
  exists sh, rs, it. split_and!; try done. apply Hbd.
Qed.

End builder.

(** ** Internal keys *)

Definition internal_rank (n : nat) (k : list Z) : Z :=
  lexrank n (take (length k - 8) k) * 2 ^ 64 + (2 ^ 64 - 1 - le_num (drop (length k - 8) k)).

(** The order of internal keys whose user keys have [n] bytes at most. *)
#[export] Instance InternalOrder (n : nat) : KeyOrder InternalCompare.
Proof.
  refine {| good k := Forall byte k ∧ (8 ≤ length k ≤ n + 8)%nat; key_rank := internal_rank n |}.
  intros a b [Ha [Hla Hna]] [Hb [Hlb Hnb]]. destruct (internal_form a Ha Hla) as (u & x & -> & Hx & Hu).
  destruct (internal_form b Hb Hlb) as (v & y & -> & Hy & Hv). rewrite InternalCompare_internal by done. eexists. split; [done|].
  rewrite length_internal in Hna. rewrite length_internal in Hnb.
  assert (∀ w z, fits 64 z → internal_rank n (internal w z) = lexrank n w * 2 ^ 64 + (2 ^ 64 - 1 - z)) as Hr.
  { intros w z Hz. unfold internal_rank. rewrite length_internal, Nat.add_sub. unfold internal. rewrite take_app_length, drop_app_length.
    unfold EncodeFixed64. by rewrite (le_num_le_bytes 8). }
  rewrite !Hr by done. cbn [Compare BytewiseComparator].
  pose proof (lexrank_compare n u v Hu Hv ltac:(lia) ltac:(lia)) as Hc. unfold fits in Hx, Hy.
  destruct (Z.eqb_spec (slice_compare u v) 0) as [->%slice_compare_eq|Hne].
  - destruct (Z.ltb_spec y x), (Z.ltb_spec x y); lia.
  - rewrite Hc. nia.
Defined.

(** C5: a block is a sorted list.  Entries that are added to a builder in ascending
    order, with any restart interval, give a block that can be opened; and any
    sequence of [Seek], [SeekToFirst], [SeekToLast], [Next] and [Prev] on its
    iterator reads the keys and values at the position of a cursor in the list of
    the entries, where a seek finds the first key that is not before the target.
    The calls fail where the cursor does, and only there. *)
Theorem block_iterator cmp `{!KeyOrder cmp} interval kvs :
  1 ≤ interval < 2 ^ 31 → size_bound kvs < 2 ^ 32 → len kvs < 2 ^ 26 → Forall (λ kv, 8 ≤ len kv.1) kvs → Forall (λ kv, good kv.1) kvs →
  ascending (λ kv, key_rank kv.1) kvs →
  ∃ b it, open_block cmp interval kvs = Ok (Some (b, it)) ∧
    ∀ calls, Forall (call_ok cmp) calls → iter_run cmp b it calls = cursor_run cmp kvs (MkCursor None None) calls.
Proof.
  intros Hi Hb Hn H8 Hg Hasc. destruct (open_block_ok cmp interval Hi kvs Hb Hn H8 Hg Hasc) as (sh & rs & it & E & Hl & Hend & Hz).
  exists (src kvs sh rs), it. split; [done|]. intros calls Hcalls. apply run_ok; try done.
  eapply Forall_impl; [exact H8|]. intros kv Hk. cbn in *. lia.
Qed.

Definition sample_block : list (list Z * list Z) :=
  [([97; 98; 99] ++ EncodeFixed64 513, [1]); ([97; 98; 100] ++ EncodeFixed64 257, [2]); ([97; 98; 100] ++ EncodeFixed64 1, [3]);
   ([98] ++ EncodeFixed64 769, [4])].

Lemma block_iterator_witness :
  ∃ b it, open_block InternalCompare 2 sample_block = Ok (Some (b, it)) ∧
    iter_run InternalCompare b it [CSeek ([97; 98; 100] ++ EncodeFixed64 256); CNext; CPrev; CPrev; CSeek [98; 0; 0; 0; 0; 0; 0; 0; 0]; CSeekToFirst]
    = Ok [Some ([97; 98; 100] ++ EncodeFixed64 1, [3]); Some ([98] ++ EncodeFixed64 769, [4]); Some ([97; 98; 100] ++ EncodeFixed64 1, [3]);
        Some ([97; 98; 100] ++ EncodeFixed64 257, [2]); None; Some ([97; 98; 99] ++ EncodeFixed64 513, [1])].
Proof.
  assert (∀ k, forallb (λ x, (0 <=? x) && (x <? 256)) k = true → (8 <=? length k)%nat = true → (length k <=? 12)%nat = true →
    @good InternalCompare (InternalOrder 4) k) as Hgood.
  { intros k Hb H8%Nat.leb_le H12%Nat.leb_le. split; [|lia]. apply Forall_forall. intros x Hx. rewrite forallb_forall in Hb.
    specialize (Hb x (proj1 (list_elem_of_In _ _) Hx)). apply andb_true_iff in Hb as [?%Z.leb_le ?%Z.ltb_lt]. by split. }
  destruct (@block_iterator InternalCompare (InternalOrder 4) 2 sample_block) as (b & it & E & H).
  - lia.
  - by vm_compute.
  - by vm_compute.
  - repeat constructor; by vm_compute.
  - repeat apply Forall_cons_2; try apply Forall_nil_2; by apply Hgood.
  - repeat constructor; by vm_compute.
  - exists b, it. split; [exact E|]. rewrite H; [by vm_compute|]. repeat apply Forall_cons_2; try apply Forall_nil_2; try exact I; by apply Hgood.
Defined.
