(* ===== verification/LsmFilter.v ===== *)
(** * dLSM: Bloom filters

    The hash of [dLSM/util/hash.cc], the filter policy of [util/bloom.cc], the
    probes of [util/bloom_impl.h], and the filter of a table,
    [table/full_filter_block.cc].  Bits are set in a buffer of the RDMA manager
    whatever it held before.  Cache lines have 64 bytes. *)
From S2P Require Import Prelude LsmCoding LsmFile.
Import Coding.

Module Filter.

(** ** The hash *)

(** The number that a signed character stands for. *)
Definition int8 (c : Z) : Z := if c <? 128 then c else c - 256.

Definition hash_m : Z := 0xc6a4a793.

Fixpoint Hash_loop (fuel : nat) (data : list Z) (h : Z) : Z :=
  match fuel, data with
  | S fuel, a :: b :: c :: d :: data =>
      let w := le_num [a; b; c; d] in
      let h := u32 (u32 (h + w) * hash_m) in
      Hash_loop fuel data (Z.lxor h (Z.shiftr h 16))
  | _, _ =>
      let add h c shift := u32 (h + u32 (Z.shiftl (u32 (int8 c)) shift)) in
      let finish h := let h := u32 (h * hash_m) in Z.lxor h (Z.shiftr h 24) in
      match data with
      | [a; b; c] => finish (add (add (add h c 16) b 8) a 0)
      | [a; b] => finish (add (add h b 8) a 0)
      | [a] => finish (add h a 0)
      | _ => h
      end
  end.

Definition Hash (data : list Z) (seed : Z) : Z := Hash_loop (length data) data (u32 (Z.lxor seed (len data * hash_m))).

Definition BloomHash (key : list Z) : Z := Hash key 0xbc9f1d34.

(** ** Probes *)

(** [(int)(bits_per_key * 0.69)], between 1 and 30. *)
Definition ChooseNumProbes (bits_per_key : Z) : Z :=
  let num_probes := bits_per_key * 69 / 100 in
  if num_probes <? 1 then 1 else if 30 <? num_probes then 30 else num_probes.

(** Rotation to the right by 17 bits. *)
Definition delta (h : Z) : Z := Z.lor (Z.shiftr h 17) (u32 (Z.shiftl h 15)).

Definition byte_at (data : list Z) (i : Z) : result Z := if i <? 0 then Err OutOfBounds else at_index data (Z.to_nat i).

(** [data[i] |= 1 << bit] and [data[i] & (1 << bit)]. *)
Definition set_bit (data : list Z) (i bit : Z) : result (list Z) :=
  c ← byte_at data i; Ok (<[Z.to_nat i := Z.lor c (Z.shiftl 1 bit)]> data).
Definition test_bit (data : list Z) (i bit : Z) : result bool :=
  c ← byte_at data i; Ok (negb (Z.land c (Z.shiftl 1 bit) =? 0)).

(** The loops over the probes; [spot] is the byte and the bit for a hash. *)
Section probes.
Context (spot : Z → Z * Z) (d : Z).

Fixpoint add_probes (num_probes : nat) (h : Z) (data : list Z) : result (list Z) :=
  match num_probes with
  | O => Ok data
  | S n => data ← set_bit data (spot h).1 (spot h).2; add_probes n (u32 (h + d)) data
  end.

Fixpoint match_probes (num_probes : nat) (h : Z) (data : list Z) : result bool :=
  match num_probes with
  | O => Ok true
  | S n => b ← test_bit data (spot h).1 (spot h).2; if b : bool then match_probes n (u32 (h + d)) data else Ok false
  end.

End probes.

Definition CACHE_LINE_SIZE : Z := 64.

(** The remainder of a division by zero is undefined. *)
Definition GetLine (h num_lines : Z) : result Z := if num_lines =? 0 then Err OutOfBounds else Ok (h mod num_lines).

(** A bit within the cache line at [offset]. *)
Definition line_spot (offset log2_cache_line_bytes h : Z) : Z * Z :=
  let bitpos := Z.land h (Z.shiftl 1 (log2_cache_line_bytes + 3) - 1) in (offset + bitpos / 8, bitpos mod 8).

(** [LegacyLocalityBloomImpl<false>]. *)
Definition AddHash (h num_lines : Z) (num_probes : nat) (data : list Z) (log2_cache_line_bytes : Z) : result (list Z) :=
  line ← GetLine h num_lines;
  add_probes (line_spot (u32 (Z.shiftl line log2_cache_line_bytes)) log2_cache_line_bytes) (delta h) num_probes h data.

Definition PrepareHashMayMatch (h num_lines log2_cache_line_bytes : Z) : result Z :=
  line ← GetLine h num_lines; Ok (u32 (Z.shiftl line log2_cache_line_bytes)).

Definition HashMayMatchPrepared (h : Z) (num_probes : nat) (data : list Z) (byte_offset log2_cache_line_bytes : Z) : result bool :=
  match_probes (line_spot byte_offset log2_cache_line_bytes) (delta h) num_probes h data.

(** ** The filter of a table *)

(** [buffer] is the memory from where [result] points to. *)
Record builder := MkBuilder {
  mr_length : Z;
  buffer : list Z;
  bits_per_key_ : Z;
  num_probes_ : Z;
  hash_entries_ : list Z
}.

Definition make_builder (buf : list Z) (bloombits_per_key : Z) : builder :=
  MkBuilder (len buf) buf bloombits_per_key (ChooseNumProbes bloombits_per_key) [].

Definition set_hashes (s : builder) (hs : list Z) : builder :=
  MkBuilder (mr_length s) (buffer s) (bits_per_key_ s) (num_probes_ s) hs.

Definition RestartBlock (s : builder) : builder := set_hashes s [].

Definition AddKey (s : builder) (key : list Z) : builder :=
  let hash := BloomHash key in
  if bool_decide (last (hash_entries_ s) = Some hash) then s else set_hashes s (hash_entries_ s ++ [hash]).

Definition GetTotalBitsForLocality (total_bits : Z) : Z :=
  let num_lines := u32 (total_bits + CACHE_LINE_SIZE * 8 - 1) / (CACHE_LINE_SIZE * 8) in
  let num_lines := if num_lines mod 2 =? 0 then num_lines + 1 else num_lines in
  u32 (num_lines * (CACHE_LINE_SIZE * 8)).

(** The bits, the lines, and the bytes of the whole filter. *)
Definition CalculateSpace (s : builder) (num_entry : Z) : result (Z * Z * Z) :=
  require (negb (bits_per_key_ s =? 0));;
  '(total_bits, num_lines) ← (if negb (num_entry =? 0) then
      let total_bits := GetTotalBitsForLocality (u32 (num_entry * bits_per_key_ s)) in
      require ((0 <? total_bits) && (total_bits mod 8 =? 0));;
      Ok (total_bits, total_bits / (CACHE_LINE_SIZE * 8))
    else Ok (0, 0));
  Ok (total_bits, num_lines, total_bits / 8 + 5).

Fixpoint add_hashes (hs : list Z) (num_lines total_bits num_probes : Z) (data : list Z) : result (list Z) :=
  match hs with
  | [] => Ok data
  | h :: hs =>
      require ((0 <? num_lines) && (0 <? total_bits));;
      data ← AddHash h num_lines (Z.to_nat num_probes) data 6;
      add_hashes hs num_lines total_bits num_probes data
  end.

(** The filter and the builder; the estimate of false positives that may be
    printed is left out. *)
Definition Finish (s : builder) : result (list Z * builder) :=
  '(total_bits, num_lines, _) ← CalculateSpace s (len (hash_entries_ s));
  require (total_bits mod 8 =? 0);;
  require (total_bits / 8 + 5 <=? mr_length s);;
  data ← (if negb (total_bits =? 0) && negb (num_lines =? 0) then add_hashes (hash_entries_ s) num_lines total_bits (num_probes_ s) (buffer s)
          else Ok (buffer s));
  let n := total_bits / 8 in
  require (n + 5 <=? len data);;
  let result := ztake n data ++ [num_probes_ s] ++ EncodeFixed32 num_lines in
  Ok (result, MkBuilder (mr_length s) (result ++ zdrop (n + 5) data) (bits_per_key_ s) (num_probes_ s) []).

(** The slice is moved to other memory, or back to the registered buffer. *)
Definition Move_buffer (s : builder) (memory : list Z) : builder :=
  MkBuilder (mr_length s) memory (bits_per_key_ s) (num_probes_ s) (hash_entries_ s).
Definition Reset (s : builder) (mr_memory : list Z) : builder := Move_buffer s mr_memory.

Record reader := MkReader { data_ : list Z; probes_ : Z; num_lines_ : Z; log2_cache_line_size_ : Z }.

Definition make_reader (contents : list Z) : result reader :=
  let len_with_meta := u32 (len contents) in
  c ← byte_at contents (len_with_meta - 5);
  let num_probes := int8 c in
  if num_probes <? 1 then Ok (MkReader contents num_probes 0 0)
  else
    let n := len_with_meta - 5 in
    require (0 <? n);;
    num_lines ← DecodeFixed32 (zdrop (len_with_meta - 4) contents);
    if u32 (num_lines * CACHE_LINE_SIZE) =? n then Ok (MkReader contents num_probes num_lines 6)
    else if (num_lines =? 0) || negb (n mod num_lines =? 0) then Err AssertionFailure
    else Ok (MkReader contents num_probes num_lines 0).

Definition KeyMayMatch (r : reader) (key : list Z) : result bool :=
  let hash := BloomHash key in
  byte_offset ← PrepareHashMayMatch hash (num_lines_ r) (log2_cache_line_size_ r);
  HashMayMatchPrepared hash (Z.to_nat (probes_ r)) (data_ r) byte_offset (log2_cache_line_size_ r).

(** ** The filter policy *)

Module Policy.

(** A bit of the whole array. *)
Definition bit_spot (init_size bits h : Z) : Z * Z := let bitpos := h mod bits in (init_size + bitpos / 8, bitpos mod 8).

Fixpoint create_loop (keys : list (list Z)) (init_size bits : Z) (k : nat) (array : list Z) : result (list Z) :=
  match keys with
  | [] => Ok array
  | key :: keys =>
      let h := BloomHash key in
      array ← add_probes (bit_spot init_size bits) (delta h) k h array;
      create_loop keys init_size bits k array
  end.

(** [memory] is what [dst] points to, [init_size] the size of [dst]. *)
Definition CreateFilter (bits_per_key : Z) (keys : list (list Z)) (memory : list Z) (init_size : Z) : result (list Z) :=
  let k := ChooseNumProbes bits_per_key in
  let bits := u64 (len keys * bits_per_key) in
  let bits := if bits <? 64 then 64 else bits in
  let bytes := (bits + 7) / 8 in
  let bits := bytes * 8 in
  require (init_size + bytes <? 1024 * 1024 * 1024);;
  array ← create_loop keys init_size bits (Z.to_nat k) memory;
  require (init_size + bytes + 1 <=? len array);;
  Ok (ztake (init_size + bytes) array ++ [k]).

Definition KeyMayMatch (key bloom_filter : list Z) : result bool :=
  let n := len bloom_filter in
  if n <? 2 then Ok false
  else
    let bits := (n - 1) * 8 in
    c ← byte_at bloom_filter (n - 1);
    let k := u64 (int8 c) in
    if 30 <? k then Ok true
    else let h := BloomHash key in match_probes (bit_spot 0 bits) (delta h) (Z.to_nat k) h bloom_filter.

End Policy.

End Filter.
Import Filter.

(** ** Bits of a buffer *)

Definition bit_set (data : list Z) (p : Z * Z) : Prop := ∃ c, byte_at data p.1 = Ok c ∧ Z.testbit c p.2 = true.

Definition inside (n : Z) (p : Z * Z) : Prop := 0 ≤ p.1 < n ∧ 0 ≤ p.2.

Lemma byte_at_Ok data i c : 0 ≤ i → byte_at data i = Ok c ↔ data !! Z.to_nat i = Some c.
Proof. intros Hi. unfold byte_at. rewrite (proj2 (Z.ltb_ge _ _)) by done. apply at_index_Ok. Qed.

Lemma byte_land_bit c b : 0 ≤ b → negb (Z.land c (Z.shiftl 1 b) =? 0) = Z.testbit c b.
Proof.
  intros Hb. rewrite Z.shiftl_1_l. destruct (Z.testbit c b) eqn:E.
  - apply negb_true_iff, Z.eqb_neq. intros H. apply (f_equal (λ x, Z.testbit x b)) in H.
    rewrite Z.land_spec, E, Z.pow2_bits_true, Z.bits_0 in H by done. done.
  - apply negb_false_iff, Z.eqb_eq. apply Z.bits_inj'. intros i Hi. rewrite Z.land_spec, Z.bits_0, Z.pow2_bits_eqb by done.
    destruct (Z.eqb_spec b i) as [->|]; [by rewrite E|apply andb_false_r].
Qed.

Lemma test_bit_set data p : 0 ≤ p.2 → bit_set data p → test_bit data p.1 p.2 = Ok true.
Proof. intros Hb (c & E & Hc). unfold test_bit. rewrite E. cbn. by rewrite byte_land_bit, Hc. Qed.

Lemma set_bit_ok data p :
  inside (len data) p →
  ∃ data', set_bit data p.1 p.2 = Ok data' ∧ len data' = len data ∧ bit_set data' p ∧ ∀ q, 0 ≤ q.1 → bit_set data q → bit_set data' q.
Proof.
  destruct p as [i b]. unfold inside, len. cbn [fst snd]. intros [Hi Hb].
  destruct (lookup_lt_is_Some_2 data (Z.to_nat i)) as [c Hc]; [lia|]. unfold set_bit. rewrite (proj2 (byte_at_Ok data i c ltac:(lia)) Hc).
  cbn [mbind result_bind]. eexists. split; [done|]. split; [by rewrite length_insert|]. unfold bit_set. cbn [fst snd]. split.
  - exists (Z.lor c (Z.shiftl 1 b)). split; [apply byte_at_Ok; [lia|]; apply list_lookup_insert_eq; lia|].
    by rewrite Z.lor_spec, Z.shiftl_1_l, Z.pow2_bits_true, orb_true_r.
  - intros [j b'] Hj (c' & Hc' & Ht). cbn [fst snd] in *. apply byte_at_Ok in Hc'; [|done]. destruct (decide (Z.to_nat i = Z.to_nat j)) as [E|E].
    + rewrite <- E in Hc'. assert (c' = c) as -> by congruence. exists (Z.lor c (Z.shiftl 1 b)). split; [|by rewrite Z.lor_spec, Ht].
      apply byte_at_Ok; [done|]. rewrite <- E. apply list_lookup_insert_eq. lia.
    + exists c'. split; [|done]. apply byte_at_Ok; [done|]. by rewrite list_lookup_insert_ne.
Qed.

Lemma set_bit_byte data i b data' : Forall byte data → 0 ≤ b < 8 → set_bit data i b = Ok data' → Forall byte data'.
Proof.
  intros Hd Hb. unfold set_bit, byte_at. destruct (i <? 0); [done|]. destruct (at_index data (Z.to_nat i)) as [c|] eqn:E; [|done]. intros [= <-].
  apply Forall_insert; [done|]. apply at_index_Ok in E. pose proof (Forall_lookup_1 _ _ _ _ Hd E) as Hc. unfold byte in *.
  assert (fits 8 (Z.shiftl 1 b)) as Hs.
  { rewrite Z.shiftl_1_l. split; [lia|]. apply (Z.pow_lt_mono_r 2); lia. }
  rewrite <- (wrap_small 8 c), <- (wrap_small 8 (Z.shiftl 1 b)), <- wrap_lor by done. apply wrap_fits. lia.
Qed.

(** ** Probes that were added match *)

Section probes.
Context (spot : Z → Z * Z) (d : Z).

Lemma match_mono n h data data' :
  (∀ x, 0 ≤ (spot x).2) → (∀ x, bit_set data (spot x) → bit_set data' (spot x)) →
  match_probes spot d n h data = Ok true → match_probes spot d n h data' = Ok true.
Proof.
  intros Hb Hd. revert h. induction n as [|n IH]; intros h; [done|]. cbn [match_probes]. unfold test_bit at 1.
  destruct (byte_at data (spot h).1) as [c|] eqn:E; [|done]. cbn. rewrite byte_land_bit by done. destruct (Z.testbit c (spot h).2) eqn:T; [|done].
  intros H. rewrite test_bit_set; [|done|apply Hd; by exists c]. cbn. by apply IH.
Qed.

Lemma add_probes_ok n h data :
  (∀ x, inside (len data) (spot x)) →
  ∃ data', add_probes spot d n h data = Ok data' ∧ len data' = len data ∧ (∀ q, 0 ≤ q.1 → bit_set data q → bit_set data' q) ∧
    match_probes spot d n h data' = Ok true.
Proof.
  intros Hin. revert h data Hin. induction n as [|n IH]; intros h data Hin; [by exists data|]. cbn [add_probes match_probes].
  destruct (set_bit_ok data (spot h) (Hin h)) as (data1 & -> & L1 & B1 & P1). cbn [mbind result_bind].
  destruct (IH (u32 (h + d)) data1) as (data2 & -> & L2 & P2 & M2); [by rewrite L1|]. exists data2. split_and!; [done|congruence|auto|].
  rewrite test_bit_set; [done|apply Hin|]. apply P2; [apply Hin|done].
Qed.

Lemma add_probes_byte n h data data' :
  (∀ x, 0 ≤ (spot x).2 < 8) → Forall byte data → add_probes spot d n h data = Ok data' → Forall byte data'.
Proof.
  intros Hb. revert h data. induction n as [|n IH]; intros h data Hd; cbn [add_probes]; [by intros [= <-]|].
  destruct (set_bit data _ _) as [data1|] eqn:E; [|done]. apply IH. by eapply set_bit_byte.
Qed.

Lemma match_probes_ok n h data : (∀ x, inside (len data) (spot x)) → ∃ b, match_probes spot d n h data = Ok b.
Proof.
  intros Hin. revert h. induction n as [|n IH]; intros h; [by exists true|]. cbn [match_probes]. destruct (Hin h) as [H1 H2].
  unfold test_bit. destruct (lookup_lt_is_Some_2 data (Z.to_nat (spot h).1)) as [c Hc]; [unfold len in *; lia|].
  rewrite (proj2 (byte_at_Ok data (spot h).1 c (proj1 H1)) Hc). cbn. destruct (negb _); [apply IH|by exists false].
Qed.

End probes.

Lemma line_spot_bit offset x : 0 ≤ (line_spot offset 6 x).2 < 8.
Proof. apply Z.mod_pos_bound. lia. Qed.

Lemma add_hashes_byte hs num_lines bits k data data' :
  Forall byte data → add_hashes hs num_lines bits k data = Ok data' → Forall byte data'.
Proof.
  revert data. induction hs as [|h hs IH]; intros data Hd; cbn [add_hashes]; [by intros [= <-]|]. destruct (require _); [|done]. cbn [mbind result_bind].
  unfold AddHash. destruct (GetLine h num_lines) as [line|]; [|done]. cbn [mbind result_bind]. destruct (add_probes _ _ _ _ _) as [data1|] eqn:E; [|done].
  apply IH. eapply add_probes_byte; [|exact Hd|exact E]. intros x. apply line_spot_bit.
Qed.

Lemma line_spot_inside num_lines h x :
  0 < num_lines → num_lines * 64 < 2 ^ 32 → 0 ≤ h → inside (num_lines * 64) (line_spot (u32 (Z.shiftl (h mod num_lines) 6)) 6 x).
Proof.
  intros Hn Hs Hh. pose proof (Z.mod_pos_bound h num_lines Hn). unfold line_spot, inside. cbn [fst snd].
  rewrite Z.shiftl_mul_pow2 by lia. rewrite wrap_small by (split; lia). change (Z.shiftl 1 (6 + 3) - 1) with (Z.ones 9). rewrite Z.land_ones by lia.
  pose proof (Z.mod_pos_bound x (2 ^ 9) ltac:(lia)) as Hx. pose proof (Z.mod_pos_bound (x mod 2 ^ 9) 8 ltac:(lia)).
  assert (0 ≤ (x mod 2 ^ 9) / 8 < 64) by (split; [apply Z.div_pos; lia|apply Z.div_lt_upper_bound; lia]). lia.
Qed.

(** A hash matches a buffer of [num_lines] lines. *)
Definition hash_matches (num_lines : Z) (k : nat) (data : list Z) (h : Z) : Prop :=
  match_probes (line_spot (u32 (Z.shiftl (h mod num_lines) 6)) 6) (delta h) k h data = Ok true.

Lemma add_hashes_ok hs num_lines bits k data :
  0 < num_lines → 0 < bits → num_lines * 64 < 2 ^ 32 → num_lines * 64 ≤ len data → Forall (λ h, 0 ≤ h) hs → 0 ≤ k →
  ∃ data', add_hashes hs num_lines bits k data = Ok data' ∧ len data' = len data ∧
    (∀ q, 0 ≤ q.1 → bit_set data q → bit_set data' q) ∧ Forall (hash_matches num_lines (Z.to_nat k) data') hs.
Proof.
  intros Hn Hbits Hs Hd Hhs Hk. revert data Hd. induction Hhs as [|h hs Hh Hhs IH]; intros data Hd; [by exists data|]. cbn [add_hashes].
  rewrite !(proj2 (Z.ltb_lt _ _)) by done. cbn [andb require mbind result_bind]. unfold AddHash, GetLine.
  rewrite (proj2 (Z.eqb_neq _ _)) by lia. cbn [mbind result_bind].
  assert (∀ x, inside (num_lines * 64) (line_spot (u32 (Z.shiftl (h mod num_lines) 6)) 6 x)) as Hin by (intros; by apply line_spot_inside).
  destruct (add_probes_ok (line_spot (u32 (Z.shiftl (h mod num_lines) 6)) 6) (delta h) (Z.to_nat k) h data) as (data1 & E1 & L1 & P1 & M1).
  { intros x. destruct (Hin x) as [H1 H2]. split; [lia|done]. }
  rewrite E1. cbn [mbind result_bind]. destruct (IH data1) as (data2 & -> & L2 & P2 & M2); [lia|]. exists data2.
  split_and!; [done|congruence|auto|]. constructor; [|done]. eapply match_mono; [| |exact M1].
  - intros x. apply Hin. - intros x. apply P2, Hin.
Qed.

(** ** The filter of a table *)

Lemma ChooseNumProbes_range b : 1 ≤ ChooseNumProbes b ≤ 30.
Proof. unfold ChooseNumProbes. destruct (Z.ltb_spec (b * 69 / 100) 1), (Z.ltb_spec 30 (b * 69 / 100)); lia. Qed.

Lemma lxor_nonneg_shift x n : 0 ≤ x → 0 ≤ n → 0 ≤ Z.lxor x (Z.shiftr x n).
Proof. intros Hx Hn. apply Z.lxor_nonneg. rewrite Z.shiftr_nonneg. done. Qed.

Lemma Hash_loop_nonneg fuel data h : 0 ≤ h → 0 ≤ Hash_loop fuel data h.
Proof.
  assert (∀ x, 0 ≤ u32 x) as Hu by (intros x; apply Z.mod_pos_bound; lia).
  revert data h. induction fuel as [|fuel IH]; intros data h Hh; cbn [Hash_loop].
  - destruct data as [|a [|b [|c [|]]]]; try done; by apply lxor_nonneg_shift.
  - destruct data as [|a [|b [|c [|e data]]]]; try done; try (by apply lxor_nonneg_shift). apply IH. by apply lxor_nonneg_shift.
Qed.

Lemma BloomHash_nonneg key : 0 ≤ BloomHash key.
Proof. apply Hash_loop_nonneg, Z.mod_pos_bound. lia. Qed.

Definition add_keys (s : builder) (keys : list (list Z)) : builder := fold_left AddKey keys s.

Lemma add_keys_spec keys s :
  let s' := add_keys s keys in
  mr_length s' = mr_length s ∧ buffer s' = buffer s ∧ bits_per_key_ s' = bits_per_key_ s ∧ num_probes_ s' = num_probes_ s ∧
  len (hash_entries_ s) ≤ len (hash_entries_ s') ≤ len (hash_entries_ s) + len keys ∧
  (∀ h, h ∈ hash_entries_ s → h ∈ hash_entries_ s') ∧ (∀ k, k ∈ keys → BloomHash k ∈ hash_entries_ s') ∧
  (Forall (λ h, 0 ≤ h) (hash_entries_ s) → Forall (λ h, 0 ≤ h) (hash_entries_ s')).
Proof.
  revert s. induction keys as [|k keys IH]; intros s; cbn [add_keys fold_left].
  { cbn. rewrite len_nil. split_and!; try done; try lia. intros k Hk. by apply not_elem_of_nil in Hk. }
  destruct (IH (AddKey s k)) as (H1 & H2 & H3 & H4 & H5 & H6 & H7 & H8). unfold add_keys in *. rewrite H1, H2, H3, H4, len_cons. clear H1 H2 H3 H4.
  assert (BloomHash k ∈ hash_entries_ (AddKey s k) ∧ (∀ h, h ∈ hash_entries_ s → h ∈ hash_entries_ (AddKey s k)) ∧
    len (hash_entries_ s) ≤ len (hash_entries_ (AddKey s k)) ≤ len (hash_entries_ s) + 1 ∧
    (Forall (λ h, 0 ≤ h) (hash_entries_ s) → Forall (λ h, 0 ≤ h) (hash_entries_ (AddKey s k)))) as (G1 & G2 & G3 & G4).
  { unfold AddKey. case_bool_decide as E; cbn [hash_entries_ set_hashes].
    - split_and!; [|done|lia|lia|done]. apply last_Some in E as [l ->]. apply elem_of_app. right. by left.
    - rewrite len_app, len_cons, len_nil. split_and!; [apply elem_of_app; right; by left| |lia|lia|].
      + intros h Hh. apply elem_of_app. by left. + intros H. apply Forall_app_2; [done|]. constructor; [apply BloomHash_nonneg|done]. }
  assert (mr_length (AddKey s k) = mr_length s ∧ buffer (AddKey s k) = buffer s ∧ bits_per_key_ (AddKey s k) = bits_per_key_ s ∧
    num_probes_ (AddKey s k) = num_probes_ s) as (-> & -> & -> & ->) by (unfold AddKey; by case_bool_decide).
  split_and!; try done; try lia; [auto| |auto]. intros k' [->|Hk']%elem_of_cons; auto.
Qed.

Lemma GetTotalBits_spec x :
  0 ≤ x → x + 1536 < 2 ^ 32 → ∃ n, GetTotalBitsForLocality x = n * 512 ∧ 0 < n ∧ n * 512 ≤ x + 1023.
Proof.
  intros H0 Hx. unfold GetTotalBitsForLocality, CACHE_LINE_SIZE. change (64 * 8) with 512. rewrite (wrap_small 32 (x + 512 - 1)) by (split; lia).
  pose proof (Z.div_mod (x + 512 - 1) 512 ltac:(lia)) as E. pose proof (Z.mod_pos_bound (x + 512 - 1) 512 ltac:(lia)) as Hm.
  set (m := (x + 512 - 1) / 512) in *. assert (0 ≤ m) by (apply Z.div_pos; lia).
  exists (if m mod 2 =? 0 then m + 1 else m). destruct (Z.eqb_spec (m mod 2) 0) as [E2|E2].
  - rewrite wrap_small by (split; lia). split_and!; [done|lia|lia].
  - assert (m ≠ 0) by (intros ->; done). rewrite wrap_small by (split; lia). split_and!; [done|lia|lia].
Qed.

Lemma bit_set_ztake m data tail p : 0 ≤ p.1 < m → bit_set data p → bit_set (ztake m data ++ tail) p.
Proof.
  intros Hp (c & Hc & Ht). exists c. split; [|done]. apply byte_at_Ok in Hc; [|lia]. apply byte_at_Ok; [lia|].
  pose proof (lookup_lt_Some _ _ _ Hc). unfold ztake. rewrite lookup_app_l by (rewrite length_take; lia). rewrite lookup_take_lt; [done|lia].
Qed.

(** A finished filter of [n] lines is opened by a reader. *)
Lemma make_reader_ok data n k :
  0 < n → n * 64 + 5 < 2 ^ 32 → n * 64 ≤ len data → 1 ≤ k ≤ 30 →
  let f := ztake (n * 64) data ++ [k] ++ EncodeFixed32 n in make_reader f = Ok (MkReader f k n 6).
Proof.
  intros Hn Hs Hd Hk f. assert (len (ztake (n * 64) data) = n * 64) as Ht by (rewrite len_ztake; lia).
  assert (len (EncodeFixed32 n) = 4) as E4 by (unfold len, EncodeFixed32; by rewrite length_le_bytes).
  assert (len f = n * 64 + 5) as Hf by (unfold f; rewrite !len_app, Ht, E4; change (len [k]) with 1; lia).
  unfold make_reader. rewrite Hf, wrap_small by (split; lia). rewrite (proj2 (byte_at_Ok f (n * 64 + 5 - 5) k ltac:(lia))); cycle 1.
  { unfold f. rewrite lookup_app_r by (unfold len in Ht; lia). unfold len in Ht. by replace (Z.to_nat _ - _)%nat with 0%nat by lia. }
  cbn [mbind result_bind]. unfold int8. rewrite (proj2 (Z.ltb_lt k 128)), (proj2 (Z.ltb_ge k 1)), (proj2 (Z.ltb_lt 0 _)) by lia. cbn [require mbind result_bind].
  assert (zdrop (n * 64 + 5 - 4) f = EncodeFixed32 n ++ []) as ->.
  { unfold f. rewrite app_assoc, app_nil_r. apply zdrop_app. rewrite len_app, Ht. change (len [k]) with 1. lia. }
  assert (DecodeFixed32 (EncodeFixed32 n ++ []) = Ok n) as -> by (apply (decode_fixed_encode 4); split; lia). cbn [mbind result_bind].
  unfold CACHE_LINE_SIZE. rewrite wrap_small by (split; lia). by rewrite (proj2 (Z.eqb_eq _ _)) by lia.
Qed.

(** ** The filter policy *)

Lemma bit_spot_inside init bits x : 0 ≤ init → 0 < bits → bits mod 8 = 0 → inside (init + bits / 8) (Policy.bit_spot init bits x).
Proof.
  intros Hi Hb Hm. unfold Policy.bit_spot, inside. cbn [fst snd]. pose proof (Z.mod_pos_bound x bits Hb) as Hx.
  pose proof (Z.mod_pos_bound (x mod bits) 8 ltac:(lia)). assert (0 ≤ (x mod bits) / 8) by (apply Z.div_pos; lia).
  assert ((x mod bits) / 8 < bits / 8) by (apply Z.div_lt_upper_bound; [lia|]; pose proof (Z.div_mod bits 8 ltac:(lia)); lia). lia.
Qed.

Lemma create_loop_ok keys init bits k array :
  0 ≤ init → 0 < bits → bits mod 8 = 0 → init + bits / 8 ≤ len array →
  ∃ array', Policy.create_loop keys init bits k array = Ok array' ∧ len array' = len array ∧
    (∀ q, 0 ≤ q.1 → bit_set array q → bit_set array' q) ∧
    Forall (λ key, match_probes (Policy.bit_spot init bits) (delta (BloomHash key)) k (BloomHash key) array' = Ok true) keys.
Proof.
  intros Hi Hb Hm. revert array. induction keys as [|key keys IH]; intros array Hl; [by exists array|]. cbn [Policy.create_loop].
  assert (∀ x, inside (init + bits / 8) (Policy.bit_spot init bits x)) as Hin by (intros; by apply bit_spot_inside).
  destruct (add_probes_ok (Policy.bit_spot init bits) (delta (BloomHash key)) k (BloomHash key) array) as (a1 & -> & L1 & P1 & M1).
  { intros x. destruct (Hin x) as [H1 H2]. split; [lia|done]. }
  cbn [mbind result_bind]. destruct (IH a1) as (a2 & -> & L2 & P2 & M2); [lia|]. exists a2. split_and!; [done|congruence|auto|].
  constructor; [|done]. eapply match_mono; [| |exact M1]. - intros x. apply Hin. - intros x. apply P2, Hin.
Qed.

(** The bits of a filter that begins at [init]. *)
Lemma match_shift init bits d n h data :
  0 ≤ init → 0 < bits → match_probes (Policy.bit_spot init bits) d n h data = Ok true →
  match_probes (Policy.bit_spot 0 bits) d n h (zdrop init data) = Ok true.
Proof.
  intros Hi Hb. revert h. induction n as [|n IH]; intros h; [done|]. cbn [match_probes]. set (i := (h mod bits) / 8). set (bit := (h mod bits) mod 8).
  change (Policy.bit_spot init bits h) with (init + i, bit). change (Policy.bit_spot 0 bits h) with (0 + i, bit). cbn [fst snd].
  assert (0 ≤ i) by (apply Z.div_pos; [apply Z.mod_pos_bound; lia|lia]).
  assert (test_bit (zdrop init data) (0 + i) bit = test_bit data (init + i) bit) as ->.
  { unfold test_bit, byte_at. rewrite !(proj2 (Z.ltb_ge _ _)) by lia. unfold at_index, zdrop. rewrite lookup_drop.
    by replace (Z.to_nat init + Z.to_nat (0 + i))%nat with (Z.to_nat (init + i)) by lia. }
  destruct (test_bit data (init + i) bit) as [[]|]; cbn; [apply IH|done|done].
Qed.

Lemma policy_no_false_negatives bits_per_key keys memory init_size :
  let bytes := (Z.max 64 (len keys * bits_per_key) + 7) / 8 in
  0 ≤ bits_per_key → 0 ≤ init_size → init_size + bytes < 1024 * 1024 * 1024 → init_size + bytes + 1 ≤ len memory →
  ∃ dst, Policy.CreateFilter bits_per_key keys memory init_size = Ok dst ∧
    ∀ key, key ∈ keys → Policy.KeyMayMatch key (zdrop init_size dst) = Ok true.
Proof.
  intros bytes Hbits Hi Hs Hmem. pose proof (ChooseNumProbes_range bits_per_key) as Hk. set (k := ChooseNumProbes bits_per_key) in *.
  pose proof (len_pos keys). assert (0 ≤ len keys * bits_per_key) by nia.
  assert (8 ≤ bytes) as Hbytes by (unfold bytes; Z.to_euclidean_division_equations; lia).
  assert (len keys * bits_per_key < 2 ^ 34) by (unfold bytes in Hs; Z.to_euclidean_division_equations; lia).
  unfold Policy.CreateFilter. fold k. rewrite wrap_small by (split; lia).
  replace (if len keys * bits_per_key <? 64 then 64 else len keys * bits_per_key) with (Z.max 64 (len keys * bits_per_key))
    by (destruct (Z.ltb_spec (len keys * bits_per_key) 64); lia).
  fold bytes. rewrite (proj2 (Z.ltb_lt _ _)) by done. cbn [require mbind result_bind].
  destruct (create_loop_ok keys init_size (bytes * 8) (Z.to_nat k) memory) as (a & -> & L & _ & M); [done|lia|apply Z.mod_mul; lia|rewrite Z.div_mul; lia|].
  cbn [mbind result_bind]. rewrite L, (proj2 (Z.leb_le _ _)) by done. cbn [require mbind result_bind]. eexists. split; [done|]. intros key Hkey.
  set (f := zdrop init_size (ztake (init_size + bytes) a ++ [k])). assert (len (ztake (init_size + bytes) a) = init_size + bytes) as Lt by (rewrite len_ztake; lia).
  assert (len f = bytes + 1) as Lf by (unfold f; rewrite len_zdrop, len_app, Lt by lia; change (len [k]) with 1; lia).
  unfold Policy.KeyMayMatch. rewrite Lf, (proj2 (Z.ltb_ge _ _)) by lia.
  rewrite (proj2 (byte_at_Ok f (bytes + 1 - 1) k ltac:(lia))); cycle 1.
  { unfold f, zdrop. rewrite lookup_drop, lookup_app_r by (unfold len in Lt; lia). unfold len in Lt. by replace (_ + _ - _)%nat with 0%nat by lia. }
  cbn [mbind result_bind]. unfold int8. rewrite (proj2 (Z.ltb_lt k 128)), wrap_small, (proj2 (Z.ltb_ge 30 k)) by (lia || (split; lia)).
  rewrite Forall_forall in M. rewrite Z.add_simpl_r. apply match_shift; [done|lia|]. eapply match_mono; [| |by apply M].
  - intros x. apply (bit_spot_inside init_size); [done|lia|apply Z.mod_mul; lia].
  - intros x. apply bit_set_ztake. destruct (bit_spot_inside init_size (bytes * 8) x Hi) as [Hx _]; [lia|apply Z.mod_mul; lia|].
    rewrite Z.div_mul in Hx by lia. done.
Qed.

(** ** The filter of a table has no false negatives *)

(** A filter that has been finished: what its reader answers, its size and its
    bytes. *)
Lemma finished_filter memory bits_per_key keys :
  1 ≤ bits_per_key → keys ≠ [] → len keys * bits_per_key + 1536 < 2 ^ 32 → len keys * bits_per_key / 8 + 133 ≤ len memory →
  ∃ filter s r, Finish (add_keys (make_builder memory bits_per_key) keys) = Ok (filter, s) ∧ make_reader filter = Ok r ∧
    (∀ k, k ∈ keys → KeyMayMatch r k = Ok true) ∧ (∀ k, ∃ b, KeyMayMatch r k = Ok b) ∧
    5 < len filter ≤ len keys * bits_per_key / 8 + 133 ∧ (Forall byte memory → Forall byte filter).
Proof.
  intros Hbits Hne Hsmall Hmem. destruct (add_keys_spec keys (make_builder memory bits_per_key)) as (E1 & E2 & E3 & E4 & E5 & _ & E7 & E8).
  set (s := add_keys _ keys) in *. cbn in E1, E2, E3, E4, E5, E8. specialize (E8 (Forall_nil_2 _)). rewrite len_nil in E5.
  pose proof (ChooseNumProbes_range bits_per_key) as Hp. set (hs := hash_entries_ s) in *. set (k := ChooseNumProbes bits_per_key) in *.
  assert (1 ≤ len hs) as Hhs.
  { destruct keys as [|key keys]; [done|]. pose proof (E7 key (list_elem_of_here _ _)) as H. destruct hs as [|h hs']; [by apply not_elem_of_nil in H|].
    rewrite len_cons. pose proof (len_pos hs'). lia. }
  destruct (GetTotalBits_spec (len hs * bits_per_key)) as (n & En & Hn & Hnb); [nia|nia|].
  assert (n * 512 ≤ len keys * bits_per_key + 1023) as Hn' by nia. clear Hnb.
  assert (n * 64 + 5 ≤ len memory) as Hfit by (Z.to_euclidean_division_equations; lia).
  unfold Finish, CalculateSpace. fold hs. rewrite E1, E2, E3, E4, (proj2 (Z.eqb_neq bits_per_key 0)), (proj2 (Z.eqb_neq (len hs) 0)) by lia. cbn [negb require mbind result_bind].
  rewrite wrap_small, En by (split; nia). assert ((n * 512) mod 8 = 0) as Hm by (Z.to_euclidean_division_equations; lia). rewrite Hm.
  rewrite (proj2 (Z.ltb_lt _ _)) by lia. cbn [andb Z.eqb require mbind result_bind]. change (CACHE_LINE_SIZE * 8) with 512. rewrite Z.div_mul, Hm by lia. cbn [Z.eqb require mbind result_bind].
  replace (n * 512 / 8) with (n * 64) by (Z.to_euclidean_division_equations; lia). rewrite (proj2 (Z.leb_le _ (len memory))) by done. cbn [require mbind result_bind].
  rewrite (proj2 (Z.eqb_neq _ _)), (proj2 (Z.eqb_neq n 0)) by lia. cbn [negb andb].
  destruct (add_hashes_ok hs n (n * 512) k memory) as (data & Ed & L & _ & M); [lia|lia|lia|lia|done|lia|]. rewrite Ed. cbn [mbind result_bind].
  rewrite L, (proj2 (Z.leb_le _ _)) by done. cbn [require mbind result_bind]. eexists _, _, _. split; [done|].
  split; [apply make_reader_ok; lia|]. set (filter := ztake (n * 64) data ++ [k] ++ EncodeFixed32 n).
  assert (len (ztake (n * 64) data) = n * 64) as Lt by (rewrite len_ztake; lia).
  assert (len filter = n * 64 + 5) as Lf by (unfold filter; rewrite !len_app, Lt; unfold EncodeFixed32, len; rewrite length_le_bytes; cbn; lia).
  assert (∀ key, KeyMayMatch (MkReader filter k n 6) key =
    match_probes (line_spot (u32 (Z.shiftl (BloomHash key mod n) 6)) 6) (delta (BloomHash key)) (Z.to_nat k) (BloomHash key) filter) as Ek.
  { intros key. unfold KeyMayMatch, PrepareHashMayMatch, GetLine. cbn [data_ probes_ num_lines_ log2_cache_line_size_]. by rewrite (proj2 (Z.eqb_neq _ _)) by lia. }
  split_and!; [| |lia|Z.to_euclidean_division_equations; lia|].
  - intros key Hkey. rewrite Ek. rewrite Forall_forall in M. specialize (M (BloomHash key) (E7 key Hkey)).
    pose proof (BloomHash_nonneg key). eapply match_mono; [| |exact M].
    + intros x. by apply (line_spot_inside n); [lia|lia|].
    + intros x. apply bit_set_ztake. by apply line_spot_inside; [lia|lia|].
  - intros key. rewrite Ek. apply match_probes_ok. intros x. destruct (line_spot_inside n (BloomHash key) x) as [Hx Hx']; [lia|lia|apply BloomHash_nonneg|].
    split; [|done]. lia.
  - intros Hb. apply Forall_app_2; [apply Forall_take; by eapply add_hashes_byte|]. apply Forall_app_2; [|apply le_bytes_byte].
    constructor; [|done]. unfold byte, fits. lia.
Qed.

(** C26: a filter has no false negatives.  Whatever the memory held, once the keys
    of a table have been added and the filter has been finished, a reader of the
    filter lets every one of the keys through, and it answers for any other key. *)
Theorem filter_no_false_negatives memory bits_per_key keys :
  1 ≤ bits_per_key → keys ≠ [] → len keys * bits_per_key + 1536 < 2 ^ 32 → len keys * bits_per_key / 8 + 133 ≤ len memory →
  ∃ filter s r, Finish (add_keys (make_builder memory bits_per_key) keys) = Ok (filter, s) ∧ make_reader filter = Ok r ∧
    (∀ k, k ∈ keys → KeyMayMatch r k = Ok true) ∧ ∀ k, ∃ b, KeyMayMatch r k = Ok b.
Proof.
  intros Hbits Hne Hsmall Hmem. destruct (finished_filter memory bits_per_key keys Hbits Hne Hsmall Hmem) as (f & s & r & Hf & Hr & Hin & Hall & _).
  exists f, s, r. done.
Qed.

(** Two keys in a buffer that is not blank, and a key that is kept out. *)
Lemma filter_no_false_negatives_witness :
  ∃ filter s r, Finish (add_keys (make_builder (replicate 200 16) 10) [[97; 98; 99]; [200; 1]]) = Ok (filter, s) ∧ make_reader filter = Ok r ∧
    KeyMayMatch r [200; 1] = Ok true ∧ KeyMayMatch r [98] = Ok false.
Proof.
  destruct (filter_no_false_negatives (replicate 200 16) 10 [[97; 98; 99]; [200; 1]]) as (f & s & r & E1 & E2 & H & _); [lia|done|done|done|].
  exists f, s, r. split; [exact E1|]. split; [exact E2|]. split; [apply H; right; by left|].
  assert (f = match Finish (add_keys (make_builder (replicate 200 16) 10) [[97; 98; 99]; [200; 1]]) with Ok (f, _) => f | Err _ => [] end) as Ef by (by rewrite E1).
  vm_compute in Ef. rewrite Ef in E2. vm_compute in E2. injection E2 as <-. by vm_compute.
Defined.
