(* ===== verification/LsmTable.v ===== *)
(** * dLSM: tables in remote memory

    [TableBuilder_BACS] of [dLSM/table/table_builder_bacs.cpp], which serialises
    entries into registered buffers and has the network card write them to remote
    memory while it goes on, with [BlockHandle] and the reading functions of
    [table/format.cc], [Table::Open] and [Table::InternalGet] of [table/table.cc]
    for byte-addressable tables, the polling of [util/rdma.cc] and [SaveValue] of
    [db/version_set.h].

    The card is given by its documented behaviour: it carries out the posted
    writes of a queue pair in order, each by copying what the local buffer holds
    at that time, and reports them later, in order.  Slots of local and remote
    memory that the RDMA manager hands out are fresh and hold any bytes. *)
From S2P Require Import Prelude LsmCoding LsmCrc32c LsmFile LsmFormat LsmBlock LsmFilter.
Import Coding Crc32c Format.

Module Table.

(** ** Handles *)

Definition kBlockTrailerSize : Z := 5.
Definition kNoCompression : Z := 0.

Record BlockHandle := MkHandle { handle_offset : Z; handle_size : Z }.

Definition EncodeTo (h : BlockHandle) : result (list Z) :=
  require (negb (handle_offset h =? 2 ^ 64 - 1));;
  require (negb (handle_size h =? 2 ^ 64 - 1));;
  Ok (PutVarint64 (PutVarint64 [] (handle_offset h)) (handle_size h)).

Definition DecodeFrom (input : list Z) : option (BlockHandle * list Z) :=
  '(offset, input) ← GetVarint64 input;
  '(size, input) ← GetVarint64 input;
  Some (MkHandle offset size, input).

(** ** Registered memory and the card *)

(** A memory region: a slot, a position in it and a length. *)
Record mr := MkMr { mr_slot : nat; mr_pos : Z; mr_length : Z }.

Record write := MkWrite { w_src : nat; w_dst : nat; w_size : Z }.

(** [local] and [remote] are the slots in use; [queue] the writes that have been
    posted and not been carried out, [carried] those without a completion in the
    completion queue yet, [completions] the ones that can be polled. *)
Record card := MkCard {
  local : list (list Z);
  remote : list (list Z);
  queue : list write;
  carried : nat;
  completions : nat
}.

(** The first bytes of a memory are overwritten from position [pos] on. *)
Definition overwrite (pos : Z) (bytes memory : list Z) : result (list Z) :=
  if (0 <=? pos) && (pos + len bytes <=? len memory)
  then Ok (ztake pos memory ++ bytes ++ zdrop (pos + len bytes) memory) else Err OutOfBounds.

Definition carry (c : card) : result card :=
  match queue c with
  | [] => Ok c
  | w :: queue =>
      src ← at_index (local c) (w_src w);
      dst ← at_index (remote c) (w_dst w);
      if len src <? w_size w then Err OutOfBounds
      else
        dst ← overwrite 0 (ztake (w_size w) src) dst;
        Ok (MkCard (local c) (<[w_dst w := dst]> (remote c)) queue (S (carried c)) (completions c))
  end.

Definition complete (c : card) : card :=
  match carried c with
  | O => c
  | S k => MkCard (local c) (remote c) (queue c) k (S (completions c))
  end.

(** [ibv_poll_cq]. *)
Definition poll_cq (c : card) (num_entries : nat) : nat * card :=
  let k := (num_entries `min` completions c)%nat in
  (k, MkCard (local c) (remote c) (queue c) (carried c) (completions c - k)).

(** [RDMA_Write] without polling. *)
Definition RDMA_Write (c : card) (dst src : nat) (msg_size : Z) : card :=
  MkCard (local c) (remote c) (queue c ++ [MkWrite src dst msg_size]) (carried c) (completions c).

Definition RDMA_Read (remote : list (list Z)) (m : mr) (n : Z) : result (list Z) :=
  slot ← at_index remote (mr_slot m);
  if (0 <=? mr_pos m) && (mr_pos m + n <=? len slot) then Ok (ztake n (zdrop (mr_pos m) slot)) else Err OutOfBounds.

Definition set_local (c : card) (i : nat) (memory : list Z) : card :=
  MkCard (<[i := memory]> (local c)) (remote c) (queue c) (carried c) (completions c).

(** [Slice::append] on a buffer that the slice is at the beginning of. *)
Definition append (c : card) (buff : nat * Z) (bytes : list Z) : result (card * (nat * Z)) :=
  memory ← at_index (local c) buff.1;
  memory ← overwrite buff.2 bytes memory;
  Ok (set_local c buff.1 memory, (buff.1, buff.2 + len bytes)).

(** ** The builder *)

(** [FlushBuffer] and so on are the sizes of the chunks of that type. *)
Record options := MkOptions {
  FlushBuffer : Z;
  IndexChunk : Z;
  FilterChunk : Z;
  DataChunk : Z;
  filter_policy : bool;
  bloom_bits : Z;
  paranoid_checks : bool
}.

(** The buffers that the entries are serialised into: a ring in which those from
    [data_inuse_start] to [data_inuse_end] have been posted. *)
Record ring := MkRing { local_data_mr : list nat; data_inuse_start : Z; data_inuse_end : Z }.

(** [data_buff] is the buffer of the slice and its size.  Buffers 0 and 1 are
    those of the index and of the filter.  The maps are ordered by key. *)
Record rep := MkRep {
  bufs : ring;
  data_buff : nat * Z;
  offset_last_flushed : Z;
  offset : Z;
  index_block : Block.builder;
  filter_block : option Filter.builder;
  last_key : list Z;
  num_entries : Z;
  closed : bool;
  remote_data_mrs : list (Z * mr);
  remote_dataindex_mrs : list (Z * mr);
  remote_filter_mrs : list (Z * mr)
}.

(** [std::map::insert]: a key that is there keeps its value. *)
Fixpoint map_insert (k : Z) (m : mr) (l : list (Z * mr)) : list (Z * mr) :=
  match l with
  | [] => [(k, m)]
  | (k', m') :: l => if k <? k' then (k, m) :: (k', m') :: l else if k =? k' then (k', m') :: l else (k', m') :: map_insert k m l
  end.

Section builder.
Context (opt : options) (local_slot remote_slot : Z → nat → list Z) (block_address trailer_address : nat).

Definition Allocate_Local_RDMA_Slot (c : card) (size : Z) : nat * card :=
  let i := length (local c) in
  (i, MkCard (local c ++ [local_slot size i]) (remote c) (queue c) (carried c) (completions c)).

Definition Allocate_Remote_RDMA_Slot (c : card) (size : Z) : nat * card :=
  let i := length (remote c) in
  (i, MkCard (local c) (remote c ++ [remote_slot size i]) (queue c) (carried c) (completions c)).

(** The constructor.  The second buffers for the index and the filter, which are
    never used, are left out. *)
Definition make_rep (remote0 : list (list Z)) : result (rep * card) :=
  let '(index_mr, c) := Allocate_Local_RDMA_Slot (MkCard [] remote0 [] 0 0) (IndexChunk opt) in
  let '(filter_mr, c) := Allocate_Local_RDMA_Slot c (FilterChunk opt) in
  let c := set_local c filter_mr (replicate (Z.to_nat (FilterChunk opt)) 0) in
  let '(data0, c) := Allocate_Local_RDMA_Slot c (FlushBuffer opt) in
  let '(data1, c) := Allocate_Local_RDMA_Slot c (FlushBuffer opt) in
  index ← Block.make_builder 1;
  memory ← at_index (local c) filter_mr;
  let filter := if filter_policy opt then Some (Filter.RestartBlock (Filter.make_builder memory (bloom_bits opt))) else None in
  Ok (MkRep (MkRing [data0; data1] (-1) (-1)) (data0, 0) 0 0 index filter [] 0 false [] [] [], c).

(** The buffers of the ring after those in use. *)
Definition next_index (i : Z) (l : list nat) : Z := if i =? len l - 1 then 0 else i + 1.

(** The ring when the buffer that is being filled is posted: how many writes are
    taken off, the buffer, and whether one more has to be inserted. *)
Definition insert_buffer (r : ring) (i : nat) : ring :=
  let s := Z.to_nat (data_inuse_start r) in
  MkRing (take s (local_data_mr r) ++ [i] ++ drop s (local_data_mr r)) (data_inuse_start r + 1)
    (if data_inuse_start r =? 0 then data_inuse_end r + 1 else data_inuse_end r).

Definition post_data (r : ring) (c : card) (dst : nat) (msg_size : Z) : result (ring * card) :=
  if data_inuse_start r =? -1 then
    require ((data_inuse_end r =? -1) && (len (local_data_mr r) =? 2));;
    src ← at_index (local_data_mr r) 0;
    Ok (MkRing (local_data_mr r) 0 0, RDMA_Write c dst src msg_size)
  else
    let size := len (local_data_mr r) in
    let '(poll_num, c) := poll_cq c 5 in
    let start := data_inuse_start r + Z.of_nat poll_num in
    let start := if size <=? start then start - size else start in
    let fin := next_index (data_inuse_end r) (local_data_mr r) in
    src ← at_index (local_data_mr r) (Z.to_nat fin);
    let c := RDMA_Write c dst src msg_size in
    let r := MkRing (local_data_mr r) start fin in
    if (start - fin =? 1) || (fin - start =? size - 1) then
      let '(i, c) := Allocate_Local_RDMA_Slot c (FlushBuffer opt) in Ok (insert_buffer r i, c)
    else Ok (r, c).

Definition FlushData (r : rep) (c : card) : result (rep * card) :=
  let msg_size := u64 (offset r - offset_last_flushed r) in
  let '(slot, c) := Allocate_Remote_RDMA_Slot c (FlushBuffer opt) in
  '(b, c) ← post_data (bufs r) c slot msg_size;
  require (forallb (λ m, negb (mr_slot m.2 =? slot)%nat) (remote_data_mrs r));;
  let mrs := map_insert (u32 (offset r)) (MkMr slot 0 msg_size) (remote_data_mrs r) in
  let next := next_index (data_inuse_end b) (local_data_mr b) in
  require (negb (next =? data_inuse_start b));;
  buff ← at_index (local_data_mr b) (Z.to_nat next);
  Ok (MkRep b (buff, 0) (offset r) (offset r) (index_block r) (filter_block r) (last_key r) (num_entries r) (closed r) mrs
    (remote_dataindex_mrs r) (remote_filter_mrs r), c).

Definition kv_size (key value : list Z) : Z := len key + len value + 8.

Definition Add (r : rep) (c : card) (key value : list Z) : result (rep * card) :=
  require (negb (closed r));;
  ordered ← (if 0 <? num_entries r then o ← InternalCompare key (last_key r); Ok (0 <? o) else Ok true);
  require ordered;;
  '(r, c) ← (if FlushBuffer opt <? u64 (offset r - offset_last_flushed r + kv_size key value) then FlushData r c else Ok (r, c));
  handle_encoding ← EncodeTo (MkHandle (offset r) (kv_size key value));
  index ← Block.Add InternalCompare 1 (index_block r) key handle_encoding;
  user_key ← ExtractUserKey key;
  let filter := (λ f, Filter.AddKey f user_key) <$> filter_block r in
  '(c, buff) ← append c (data_buff r) (EncodeFixed32 (u32 (len key)));
  '(c, buff) ← append c buff (EncodeFixed32 (u32 (len value)));
  '(c, buff) ← append c buff key;
  '(c, buff) ← append c buff value;
  Ok (MkRep (bufs r) buff (offset_last_flushed r) (u64 (offset r + kv_size key value)) index filter key (num_entries r + 1) (closed r)
    (remote_data_mrs r) (remote_dataindex_mrs r) (remote_filter_mrs r), c).

(** The type and the checksum behind a block. *)
Definition trailer (contents : list Z) : list Z :=
  let crc := Value block_address contents in
  let crc := Extend trailer_address crc [kNoCompression] in
  [kNoCompression] ++ EncodeFixed32 (Mask crc).

(** The bytes of a finished block are put into its buffer. *)
Definition put_block (c : card) (i : nat) (contents : list Z) : result card :=
  memory ← at_index (local c) i;
  require (len contents <=? len memory);;
  memory ← overwrite 0 contents memory;
  Ok (set_local c i memory).

Definition FinishDataIndexBlock (c : card) (block : Block.builder) : result (Z * Block.builder * card) :=
  let '(raw, block) := Block.Finish block in
  let contents := raw ++ trailer raw in
  c ← put_block c 0 contents;
  Ok (len contents, Block.Reset_Forward block, c).

Definition FinishFilterBlock (c : card) (block : Filter.builder) : result (Z * Filter.builder * card) :=
  '(raw, block) ← Filter.Finish block;
  require (negb (len raw =? 0));;
  let contents := raw ++ trailer raw in
  c ← put_block c 1 contents;
  Ok (len contents, Filter.Reset block (Filter.buffer block), c).

(** [FlushDataIndex] and [FlushFilter]: a finished block is posted. *)
Definition next_key (l : list (Z * mr)) : Z := match last l with Some (k, _) => k + 1 | None => 1 end.

Definition flush_block (c : card) (i : nat) (chunk msg_size : Z) (mrs : list (Z * mr)) : list (Z * mr) * card :=
  let '(slot, c) := Allocate_Remote_RDMA_Slot c chunk in
  (map_insert (next_key mrs) (MkMr slot 0 msg_size) mrs, RDMA_Write c slot i msg_size).

(** [Finish] up to the wait for the completions, with their number. *)
Definition Finish_post (r : rep) (c : card) : result (Z * rep * card) :=
  '(r, c) ← (if 0 <? u64 (offset r - offset_last_flushed r) then FlushData r c else Ok (r, c));
  require (negb (closed r));;
  '(filter, filter_mrs, c) ←
    match filter_block r with
    | Some f =>
        '(msg_size, f, c) ← FinishFilterBlock c f;
        let '(mrs, c) := flush_block c 1 (FilterChunk opt) msg_size (remote_filter_mrs r) in
        Ok (Some (Filter.Move_buffer f (Filter.buffer f)), mrs, c)
    | None => Ok (None, remote_filter_mrs r, c)
    end;
  '(msg_size, index, c) ← FinishDataIndexBlock c (index_block r);
  let '(index_mrs, c) := flush_block c 0 (FlushBuffer opt) msg_size (remote_dataindex_mrs r) in
  let start := data_inuse_start (bufs r) in
  let fin := data_inuse_end (bufs r) in
  let num_of_poll := if 0 <=? fin - start + 1 then fin - start + 1 else len (local_data_mr (bufs r)) - start + fin + 1 in
  let num_of_poll := if filter_block r then num_of_poll + 2 else num_of_poll + 1 in
  Ok (num_of_poll,
      MkRep (bufs r) (data_buff r) (offset_last_flushed r) (offset r) (Block.Move_buffer index) filter (last_key r) (num_entries r) true
        (remote_data_mrs r) index_mrs filter_mrs, c).

(** A turn of the loop of [poll_completion]: what is left to be polled; after the
    last one nothing more may turn up. *)
Definition poll_turn (c : card) (num_entries poll_num : Z) : result (option Z * card) :=
  let '(k, c) := poll_cq c (Z.to_nat num_entries) in
  let poll_num := poll_num + Z.of_nat k in
  if poll_num <? num_entries then Ok (Some poll_num, c)
  else
    require (poll_num =? num_entries);;
    let '(check_poll_number, c) := poll_cq c 1 in
    require (check_poll_number =? 0)%nat;;
    Ok (None, c).

(** ** Building a table *)

(** What [FlushJob::BuildTable] does with the builder: the entries are added, the
    builder posts the last writes and waits, and the size is checked. *)
Inductive phase := Adding (todo : list (list Z * list Z)) | Waiting (num_of_poll poll_num : Z) | Finished.

Record job := MkJob { j_rep : rep; j_card : card; j_phase : phase }.

Definition file_size (mrs : list (Z * mr)) : Z := foldr (λ m, Z.add (mr_length m.2)) 0 mrs.

Definition builder_step (s : job) : result job :=
  match j_phase s with
  | Adding ((key, value) :: todo) => '(r, c) ← Add (j_rep s) (j_card s) key value; Ok (MkJob r c (Adding todo))
  | Adding [] => '(num_of_poll, r, c) ← Finish_post (j_rep s) (j_card s); Ok (MkJob r c (Waiting num_of_poll 0))
  | Waiting num_of_poll poll_num =>
      '(more, c) ← poll_turn (j_card s) num_of_poll poll_num;
      match more with
      | Some poll_num => Ok (MkJob (j_rep s) c (Waiting num_of_poll poll_num))
      | None => require (offset (j_rep s) =? file_size (remote_data_mrs (j_rep s)));; Ok (MkJob (j_rep s) c Finished)
      end
  | Finished => Ok s
  end.

(** The builder and the card take their steps in any order. *)
Inductive job_step : job → job → Prop :=
| step_builder s s' : builder_step s = Ok s' → job_step s s'
| step_carry s c : carry (j_card s) = Ok c → job_step s (MkJob (j_rep s) c (j_phase s))
| step_complete s : job_step s (MkJob (j_rep s) (complete (j_card s)) (j_phase s)).

End builder.

(** ** Reading *)

(** [Table_Type]; [invalid_table_type_] is 0. *)
Definition block_based : Z := 1.
Definition byte_addressable : Z := 2.

(** What is kept of a table: its type and the maps of its regions. *)
Record metadata := MkMeta { meta_type : Z; data_mrs : list (Z * mr); dataindex_mrs : list (Z * mr); filter_mrs : list (Z * mr) }.

Record table := MkTable { t_index : Block.block; t_filter : option Filter.reader; t_meta : metadata }.

Section reader.
Context (opt : options) (block_address : nat) (remote : list (list Z)).

(** [std::map::upper_bound]; past the end there is nothing to read. *)
Fixpoint upper_bound (position : Z) (l : list (Z * mr)) : result (Z * mr) :=
  match l with
  | [] => Err OutOfBounds
  | (k, m) :: l => if position <? k then Ok (k, m) else upper_bound position l
  end.

Definition Find_Remote_MR (remote_data_blocks : list (Z * mr)) (h : BlockHandle) : result mr :=
  '(k, m) ← upper_bound (handle_offset h) remote_data_blocks;
  let position := u64 (handle_offset h - u64 (k - mr_length m)) in
  Ok (MkMr (mr_slot m) (mr_pos m + position) (mr_length m)).

Definition ReadKVPair (remote_data_blocks : list (Z * mr)) (h : BlockHandle) : result (list Z) :=
  let n := handle_size h in
  require (u64 (n + kBlockTrailerSize) <=? DataChunk opt);;
  m ← Find_Remote_MR remote_data_blocks h;
  RDMA_Read remote m n.

(** Whether the checksum behind the [n] bytes of a block is right. *)
Definition checksum_ok (data : list Z) (n : Z) : result bool :=
  masked ← DecodeFixed32 (zdrop (n + 1) data);
  Ok (Value block_address (ztake (n + 1) data) =? Unmask masked).

Definition ReadDataIndexBlock (m : mr) : result (list Z) :=
  let n := u64 (mr_length m - kBlockTrailerSize) in
  require (0 <? n);;
  require (u64 (n + kBlockTrailerSize) <? IndexChunk opt);;
  data ← RDMA_Read remote m (n + kBlockTrailerSize);
  ok ← (if paranoid_checks opt then checksum_ok data n else Ok true);
  require ok;;
  type ← at_index data (Z.to_nat n);
  require (type =? kNoCompression);;
  Ok (ztake n data).

(** [None] where the status is not OK. *)
Definition ReadFilterBlock (m : mr) : result (option (list Z)) :=
  let n := u64 (mr_length m - kBlockTrailerSize) in
  require (u64 (n + kBlockTrailerSize) <? FilterChunk opt);;
  data ← RDMA_Read remote m (n + kBlockTrailerSize);
  ok ← (if paranoid_checks opt then checksum_ok data n else Ok true);
  if ok : bool then
    type ← at_index data (Z.to_nat n);
    if type =? kNoCompression then require (negb (len (ztake n data) =? 0));; Ok (Some (ztake n data)) else Ok None
  else Ok None.

Definition ReadFilter (meta : metadata) : result (option Filter.reader) :=
  if filter_policy opt then
    '(_, m) ← at_index (filter_mrs meta) 0;
    block ← ReadFilterBlock m;
    match block with Some data => r ← Filter.make_reader data; Ok (Some r) | None => Ok None end
  else Ok None.

Definition Open (meta : metadata) : result table :=
  '(_, m) ← at_index (dataindex_mrs meta) 0;
  index_block_contents ← ReadDataIndexBlock m;
  index_block ← Block.make_block index_block_contents;
  require (0 <? Block.size_ index_block);;
  filter ← ReadFilter meta;
  Ok (MkTable index_block filter meta).

Inductive SaverState := kNotFound | kFound | kDeleted | kCorrupt.

Record Saver := MkSaver { state : SaverState; saver_user_key : list Z; saver_value : list Z }.

Definition SaveValue (s : Saver) (ikey v : list Z) : result Saver :=
  parsed ← ParseInternalKey ikey;
  match parsed with
  | None => Ok (MkSaver kCorrupt (saver_user_key s) (saver_value s))
  | Some p =>
      if slice_compare (user_key p) (saver_user_key s) =? 0 then
        match type p with
        | kTypeValue => Ok (MkSaver kFound (saver_user_key s) v)
        | kTypeDeletion => Ok (MkSaver kDeleted (saver_user_key s) (saver_value s))
        end
      else Ok s
  end.

(** The entry that a handle points at is fetched and given to [SaveValue]. *)
Definition fetch (t : table) (handle : list Z) (s : Saver) : result Saver :=
  match DecodeFrom handle with
  | None => Err OutOfBounds
  | Some (bhandle, _) =>
      KV ← ReadKVPair (data_mrs (t_meta t)) bhandle;
      match GetFixed32 KV with
      | Some (key_size, KV) =>
          match GetFixed32 KV with
          | Some (value_size, KV) =>
              require (u32 (key_size + value_size) =? len KV);;
              require (key_size <=? len KV);;
              let key := ztake key_size KV in
              let value := zdrop key_size KV in
              require (len value =? value_size);;
              SaveValue s key value
          | None => Err OutOfBounds
          end
      | None => Err OutOfBounds
      end
  end.

(** The lookup in the index of a byte-addressable table. *)
Definition get_byte_addressable (t : table) (k : list Z) (s : Saver) : result Saver :=
  opened ← Block.NewIterator (t_index t);
  match opened with
  | None => Ok s
  | Some (b, iiter) =>
      iiter ← Block.Seek InternalCompare b iiter k;
      if Block.Valid b iiter then
        ikey ← Block.key b iiter;
        parsed_key ← ParseInternalKey ikey;
        let continue (s : Saver) := handle ← Block.value b iiter; fetch t handle s in
        match parsed_key with
        | None => continue (MkSaver kCorrupt (saver_user_key s) (saver_value s))
        | Some p => if negb (slice_compare (user_key p) (saver_user_key s) =? 0) then Ok s else continue s
        end
      else Ok s
  end.

(** The lookup in a block-based table is left out. *)
Definition InternalGet (t : table) (k : list Z) (s : Saver) : result Saver :=
  user ← ExtractUserKey k;
  may_match ← match t_filter t with Some f => Filter.KeyMayMatch f user | None => Ok true end;
  if negb may_match then Ok s
  else if meta_type (t_meta t) =? block_based then Err Unmodelled
  else get_byte_addressable t k s.

End reader.

End Table.
