(* ===== verification/LsmTableBuild.v ===== *)
(** * dLSM: building a table

    The buffers of the table builder form a ring.  A buffer is reused only when
    its write has been reported, so that the card always copies the entries that
    were serialised into the buffer, however late it comes to do so. *)
From S2P Require Import Prelude LsmCoding LsmCrc32c LsmFile LsmFormat LsmBlock LsmBlockRefine LsmFilter LsmTable.
Import Coding Crc32c Format Table.

(** ** The ring *)

(** The element [j] places behind position [start] of a ring [l1 ++ l2]. *)
Lemma rotation_lookup {A} (l1 l2 : list A) (j : Z) :
  0 ≤ j < len (l1 ++ l2) → (l1 ++ l2) !! Z.to_nat ((len l1 + j) mod len (l1 ++ l2)) = (l2 ++ l1) !! Z.to_nat j.
Proof.
  rewrite len_app. intros Hj. pose proof (len_pos l1). pose proof (len_pos l2). unfold len in *. destruct (decide (j < len l2)) as [Hc|Hc]; unfold len in *.
  - rewrite Z.mod_small, lookup_app_r, (lookup_app_l l2) by lia. f_equal. lia.
  - replace ((_ + j) mod _) with (j - Z.of_nat (length l2)) by (apply (Z.mod_unique _ _ 1); lia).
    rewrite lookup_app_l, (lookup_app_r l2) by lia. f_equal. lia.
Qed.

Lemma next_index_mod (x : Z) (l : list nat) : 0 < len l → next_index ((x - 1) mod len l) l = x mod len l.
Proof.
  intros Hl. unfold next_index. pose proof (Z.mod_pos_bound (x - 1) (len l) Hl) as Hb. pose proof (Z.div_mod (x - 1) (len l) ltac:(lia)) as Hd.
  destruct (Z.eqb_spec ((x - 1) mod len l) (len l - 1)) as [E|E].
  - apply (Z.mod_unique _ _ ((x - 1) / len l + 1)); lia.
  - apply (Z.mod_unique _ _ ((x - 1) / len l)); lia.
Qed.

(** The buffers [out] have been posted and not been polled, [cur] is being filled. *)
Definition ring_used (r : ring) (out : list nat) (cur : nat) : Prop :=
  ∃ l1 l2 rest, local_data_mr r = l1 ++ l2 ∧ l2 ≠ [] ∧ data_inuse_start r = len l1 ∧ l2 ++ l1 = out ++ cur :: rest ∧
    data_inuse_end r = (len l1 + len out - 1) mod len (l1 ++ l2).

(** Nothing is posted before the first flush. *)
Definition ring_inv (r : ring) (out : list nat) (cur : nat) : Prop :=
  NoDup (local_data_mr r) ∧
  ((data_inuse_start r = -1 ∧ data_inuse_end r = -1 ∧ out = [] ∧ ∃ b, local_data_mr r = [cur; b]) ∨ ring_used r out cur).

Lemma ring_cur r out cur : ring_inv r out cur → cur ∈ local_data_mr r ∧ cur ∉ out ∧ NoDup out ∧ ∀ i, i ∈ out → i ∈ local_data_mr r.
Proof.
  intros [Hnd [(_ & _ & -> & b & E)|(l1 & l2 & rest & E & _ & _ & R & _)]].
  - rewrite E. split; [by left|]. split; [apply not_elem_of_nil|]. split; [constructor|]. intros i Hi. by apply not_elem_of_nil in Hi.
  - assert (local_data_mr r ≡ₚ out ++ cur :: rest) as P by (rewrite E, <- R; apply Permutation_app_comm).
    rewrite P in Hnd. apply NoDup_app in Hnd as (Ho & Hd & _). split_and!; [|intros Hc; apply (Hd cur Hc); by left|done|].
    + rewrite P. apply elem_of_app. right. by left.
    + intros i Hi. rewrite P. apply elem_of_app. by left.
Qed.

(** The buffer after the last one posted. *)
Lemma rotation_next l1 l2 out cur rest :
  l2 ++ l1 = out ++ cur :: rest →
  let l := l1 ++ l2 in
  next_index ((len l1 + len out - 1) mod len l) l = (len l1 + len out) mod len l ∧
  l !! Z.to_nat ((len l1 + len out) mod len l) = Some cur ∧ (out ≠ [] → l2 ≠ [] → (len l1 + len out) mod len l ≠ len l1).
Proof.
  intros R l. assert (len l = len out + 1 + len rest) as Hl.
  { unfold l. assert (len (l1 ++ l2) = len (l2 ++ l1)) as -> by (rewrite !len_app; lia). rewrite R, len_app, len_cons. lia. }
  pose proof (len_pos out). pose proof (len_pos rest). pose proof (len_pos l1). split_and!.
  - apply next_index_mod. lia.
  - unfold l in *. rewrite rotation_lookup, R by lia. unfold len. by rewrite Nat2Z.id, list_lookup_middle.
  - intros Ho H2. assert (0 < len out) by (destruct out; [done|rewrite len_cons; pose proof (len_pos out); lia]).
    assert (0 < len l2) by (destruct l2; [done|rewrite len_cons; pose proof (len_pos l2); lia]).
    assert (len l = len l1 + len l2) by (unfold l; apply len_app). intros E.
    pose proof (Z.div_mod (len l1 + len out) (len l) ltac:(lia)) as D. rewrite E in D.
    assert ((len l1 + len out) / len l < 1 ∨ 1 ≤ (len l1 + len out) / len l) as [|] by lia; nia.
Qed.

Lemma ring_next r out cur :
  ring_used r out cur → out ≠ [] →
  let next := next_index (data_inuse_end r) (local_data_mr r) in
  next ≠ data_inuse_start r ∧ local_data_mr r !! Z.to_nat next = Some cur.
Proof.
  intros (l1 & l2 & rest & -> & H2 & -> & R & ->) Ho. destruct (rotation_next l1 l2 out cur rest R) as (-> & ? & Hne). auto.
Qed.

(** How many writes [Finish] waits for. *)
Lemma ring_count r out cur :
  ring_used r out cur → out ≠ [] →
  let start := data_inuse_start r in let fin := data_inuse_end r in
  (if 0 <=? fin - start + 1 then fin - start + 1 else len (local_data_mr r) - start + fin + 1) = len out.
Proof.
  intros (l1 & l2 & rest & -> & H2 & -> & R & ->) Ho. cbv zeta.
  assert (len (l1 ++ l2) = len out + 1 + len rest) as Hl.
  { assert (len (l1 ++ l2) = len (l2 ++ l1)) as -> by (rewrite !len_app; lia). rewrite R, len_app, len_cons. lia. }
  assert (0 < len out) by (destruct out; [done|rewrite len_cons; pose proof (len_pos out); lia]).
  assert (0 < len l2) by (destruct l2; [done|rewrite len_cons; pose proof (len_pos l2); lia]).
  pose proof (len_app l1 l2). pose proof (len_pos rest). pose proof (len_pos l1).
  destruct (decide (len l1 + len out - 1 < len (l1 ++ l2))).
  - rewrite Z.mod_small by lia. rewrite (proj2 (Z.leb_le _ _)) by lia. lia.
  - assert ((len l1 + len out - 1) mod len (l1 ++ l2) = len l1 + len out - 1 - len (l1 ++ l2)) as ->
      by (symmetry; apply (Z.mod_unique _ _ 1); lia). rewrite (proj2 (Z.leb_gt _ _)) by lia. lia.
Qed.

(** Taking the first [k] buffers off the ones in use. *)
Lemma rotation_advance {A} (l1 l2 : list A) (k : nat) :
  l2 ≠ [] → (k ≤ length (l1 ++ l2))%nat →
  let start := len l1 + Z.of_nat k in
  ∃ l1' l2', l1' ++ l2' = l1 ++ l2 ∧ l2' ≠ [] ∧ l2' ++ l1' = drop k (l2 ++ l1) ++ take k (l2 ++ l1) ∧
    len l1' = (if len (l1 ++ l2) <=? start then start - len (l1 ++ l2) else start) ∧
    (len l1' - (len l1 + Z.of_nat k)) mod len (l1 ++ l2) = 0.
Proof.
  intros H2 Hk start. rewrite length_app in Hk. assert (0 < length l2)%nat by (destruct l2; [done|cbn; lia]).
  rewrite len_app. unfold start, len. destruct (Z.leb_spec (Z.of_nat (length l1) + Z.of_nat (length l2)) (Z.of_nat (length l1) + Z.of_nat k)).
  - exists (take (k - length l2) l1), (drop (k - length l2) l1 ++ l2). split_and!.
    + by rewrite app_assoc, take_drop.
    + intros [_ E]%app_nil. by rewrite E in H2.
    + rewrite drop_app_ge, take_app_ge, <- app_assoc by lia. done.
    + rewrite length_take. lia.
    + rewrite length_take. replace (_ - _) with (-1 * (Z.of_nat (length l1) + Z.of_nat (length l2))) by lia. apply Z.mod_mul. lia.
  - exists (l1 ++ take k l2), (drop k l2). split_and!.
    + by rewrite <- app_assoc, take_drop.
    + intros E%(f_equal length). rewrite length_drop in E. cbn in E. lia.
    + rewrite drop_app_le, take_app_le, <- app_assoc by lia. done.
    + rewrite length_app, length_take. lia.
    + rewrite length_app, length_take. replace (_ - _) with 0 by lia. apply Z.mod_0_l. lia.
Qed.

(** One more buffer is wanted when all of them have been posted. *)
Lemma ring_full (l1 l2 out rest : list nat) :
  l2 ≠ [] → out ≠ [] → l2 ++ l1 = out ++ rest →
  let size := len (l1 ++ l2) in let fin := (len l1 + len out - 1) mod size in
  (len l1 - fin =? 1) || (fin - len l1 =? size - 1) = bool_decide (rest = []).
Proof.
  intros H2 Ho R size fin. assert (size = len out + len rest) as Hs.
  { unfold size. assert (len (l1 ++ l2) = len (l2 ++ l1)) as -> by (rewrite !len_app; lia). by rewrite R, len_app. }
  assert (0 < len out) by (destruct out; [done|rewrite len_cons; pose proof (len_pos out); lia]).
  assert (0 < len l2) by (destruct l2; [done|rewrite len_cons; pose proof (len_pos l2); lia]).
  assert (size = len l1 + len l2) by (unfold size; apply len_app). pose proof (len_pos rest). pose proof (len_pos l1).
  assert (fin = if decide (len l1 + len out - 1 < size) then len l1 + len out - 1 else len l1 + len out - 1 - size) as ->.
  { unfold fin. case_decide; symmetry; [symmetry; apply Z.mod_small; lia|]. apply (Z.mod_unique _ _ 1); lia. }
  destruct rest as [|x rest].
  - rewrite len_nil in *. rewrite bool_decide_eq_true_2 by done. apply orb_true_iff. rewrite !Z.eqb_eq. case_decide; lia.
  - rewrite len_cons in *. rewrite bool_decide_eq_false_2 by done. pose proof (len_pos rest). apply orb_false_iff. rewrite !Z.eqb_neq. case_decide; lia.
Qed.

Lemma ring_insert r l1 l2 out i :
  local_data_mr r = l1 ++ l2 → l2 ≠ [] → data_inuse_start r = len l1 → l2 ++ l1 = out → out ≠ [] →
  data_inuse_end r = (len l1 + len out - 1) mod len (l1 ++ l2) → ring_used (insert_buffer r i) out i.
Proof.
  intros E H2 Es R Ho Ee. exists (l1 ++ [i]), l2, []. unfold insert_buffer. cbv zeta. rewrite E, Es, Ee. replace (Z.to_nat (len l1)) with (length l1) by (unfold len; lia).
  rewrite take_app_length, drop_app_length. cbn [local_data_mr data_inuse_start data_inuse_end].
  assert (len (l1 ++ l2) = len out) as Hl by (rewrite <- R, !len_app; lia). rewrite Hl.
  assert (0 < len out) by (destruct out; [done|rewrite len_cons; pose proof (len_pos out); lia]).
  assert (0 < len l2) by (destruct l2; [done|rewrite len_cons; pose proof (len_pos l2); lia]).
  rewrite len_app in Hl. pose proof (len_pos l1). split_and!; [by rewrite <- app_assoc|done|by rewrite len_app, len_cons, len_nil|by rewrite app_assoc, R|].
  rewrite !len_app. change (len [i]) with 1. destruct (Z.eqb_spec (len l1) 0) as [E0|E0].
  - rewrite E0, !Z.mod_small by lia. lia.
  - transitivity (len l1 - 1); [symmetry; apply (Z.mod_unique _ _ 1); lia|]. apply (Z.mod_unique _ _ 1); lia.
Qed.

Section post.
Context (opt : options) (local_slot : Z → nat → list Z).

(** What posting the current buffer does: some of the outstanding writes are
    polled, and the next buffer is one of the ring or a new one. *)
Lemma post_data_ok r c out cur dst sz :
  ring_inv r out cur → (completions c ≤ length out)%nat → Forall (λ i, i < length (local c))%nat (local_data_mr r) →
  ∃ r' k cur' ext, let c' := MkCard (local c ++ ext) (remote c) (queue c ++ [MkWrite cur dst sz]) (carried c) (completions c - k) in
    post_data opt local_slot r c dst sz = Ok (r', c') ∧ (k ≤ completions c)%nat ∧
    NoDup (local_data_mr r') ∧ ring_used r' (drop k out ++ [cur]) cur' ∧
    ((ext = [] ∧ local_data_mr r' = local_data_mr r) ∨
     (ext = [local_slot (FlushBuffer opt) (length (local c))] ∧ local_data_mr r' ≡ₚ length (local c) :: local_data_mr r)).
Proof.
  intros [Hnd [(Es & Ee & -> & b & Eb)|(l1 & l2 & rest & El & H2 & Es & R & Ee)]] Hc Hlt; unfold post_data; rewrite Es.
  - exists (MkRing (local_data_mr r) 0 0), 0%nat, b, []. rewrite Ee, Eb in *. cbn. split_and!; [|lia|done| |by left].
    + f_equal. f_equal. unfold RDMA_Write. by rewrite app_nil_r, Nat.sub_0_r.
    + exists [], [cur; b], []. done.
  - pose proof (len_pos l1). rewrite (proj2 (Z.eqb_neq _ _)) by lia. unfold poll_cq. set (k := (5 `min` completions c)%nat).
    assert (length (l1 ++ l2) = length out + S (length rest))%nat as Hsize.
    { rewrite (length_app l1), Nat.add_comm, <- (length_app l2), R. by rewrite length_app. }
    destruct (rotation_advance l1 l2 k H2) as (l1' & l2' & El' & H2' & R' & Es' & Em); [lia|].
    rewrite El in *. rewrite <- Es'. destruct (rotation_next l1 l2 out cur rest R) as (En & Ecur & _). rewrite Ee, En. unfold at_index. rewrite Ecur.
    cbn [mbind result_bind]. rewrite R, drop_app_le, take_app_le in R' by lia.
    assert (l2' ++ l1' = (drop k out ++ [cur]) ++ rest ++ take k out) as R'' by (rewrite R', <- !app_assoc; done).
    assert ((len l1 + len out) mod len (l1 ++ l2) = (len l1' + len (drop k out ++ [cur]) - 1) mod len (l1' ++ l2')) as Efin.
    { rewrite El'. replace (len l1' + len (drop k out ++ [cur]) - 1) with (len l1 + len out + (len l1' - (len l1 + Z.of_nat k))).
      - by rewrite <- (Zplus_mod_idemp_r (len l1' - _)), Em, Z.add_0_r.
      - rewrite len_app. change (len [cur]) with 1. unfold len. rewrite length_drop. lia. }
    rewrite Efin, <- El'. rewrite (ring_full l1' l2' (drop k out ++ [cur]) (rest ++ take k out)) by (done || by intros [_ ?]%app_nil).
    set (r1 := MkRing (l1' ++ l2') (len l1') _). case_bool_decide as E0.
    + exists (insert_buffer r1 (length (local c))), k, (length (local c)), [local_slot (FlushBuffer opt) (length (local c))].
      rewrite E0, app_nil_r in R''.
      assert (local_data_mr (insert_buffer r1 (length (local c))) ≡ₚ length (local c) :: l1' ++ l2') as P.
      { cbn [insert_buffer local_data_mr r1 data_inuse_start]. unfold len. rewrite Nat2Z.id, take_app_length, drop_app_length. solve_Permutation. }
      split_and!; [done|lia| | |right; split; [done|]].
      * rewrite P. constructor; [|by rewrite El']. rewrite El'. intros Hi%(proj1 (Forall_forall _ _) Hlt). cbn in Hi. lia.
      * apply (ring_insert r1 l1' l2'); try done. by intros [_ ?]%app_nil.
      * by rewrite P, El'.
    + destruct (rest ++ take k out) as [|cur' rest'] eqn:Er; [done|]. exists r1, k, cur', []. rewrite app_nil_r. cbn [local_data_mr r1].
      split_and!; [done|lia|by rewrite El'| |by left; rewrite El']. by exists l1', l2', rest'.
Qed.

End post.

(** ** The card *)

Definition total (c : card) (polled : nat) : nat := (polled + completions c + carried c)%nat.

(** The steps that the card has still to make, and the polls. *)
Definition load (c : card) : nat := (3 * length (queue c) + 2 * carried c + completions c)%nat.

(** [posted] lists the writes of a builder with the bytes that each is meant to
    bring to remote memory, [polled] of which have been polled.  A write that has
    been carried out is in place; for one that has not, the buffer still holds
    the bytes. *)
Record card_inv (posted : list (write * list Z)) (polled : nat) (c : card) : Prop := {
  ci_total : (total c polled ≤ length posted)%nat;
  ci_queue : queue c = (drop (total c polled) posted).*1;
  ci_dst : NoDup ((λ p, w_dst p.1) <$> posted);
  ci_size : ∀ i w bs, posted !! i = Some (w, bs) → len bs = w_size w;
  ci_slot : ∀ i w bs, posted !! i = Some (w, bs) → ∃ slot, remote c !! w_dst w = Some slot ∧ w_size w ≤ len slot;
  ci_done : ∀ i w bs slot, posted !! i = Some (w, bs) → (i < total c polled)%nat → remote c !! w_dst w = Some slot → ztake (w_size w) slot = bs;
  ci_wait : ∀ i w bs, posted !! i = Some (w, bs) → (total c polled ≤ i)%nat →
    ∃ memory, local c !! w_src w = Some memory ∧ ztake (w_size w) memory = bs;
}.

Lemma overwrite_0 bs memory : len bs ≤ len memory → overwrite 0 bs memory = Ok (bs ++ zdrop (len bs) memory).
Proof. intros H. unfold overwrite. rewrite (proj2 (Z.leb_le _ (len memory))) by lia. done. Qed.

Section card.
Context (posted : list (write * list Z)) (polled : nat) (c : card) (I : card_inv posted polled c).

Lemma carry_ok : ∃ c', carry c = Ok c' ∧ card_inv posted polled c' ∧ local c' = local c ∧ length (remote c') = length (remote c) ∧
  completions c' = completions c ∧ (length (queue c) + carried c = length (queue c') + carried c')%nat ∧
  (queue c ≠ [] → (length (queue c') < length (queue c))%nat) ∧ (queue c = [] → c' = c).
Proof using I.
  destruct I as [It Iq Id Isz Is Ido Iw]. unfold carry. destruct (queue c) as [|w q] eqn:Eq.
  { exists c. split_and!; try done; by rewrite Eq. }
  destruct (posted !! total c polled) as [[w' bs]|] eqn:Ep; cycle 1.
  { apply lookup_ge_None in Ep. rewrite drop_ge in Iq by lia. done. }
  rewrite (drop_S _ _ _ Ep) in Iq. injection Iq as -> ->. destruct (Iw _ _ _ Ep) as (memory & Em & Hm); [lia|].
  destruct (Is _ _ _ Ep) as (slot & Esl & Hsl). pose proof (Isz _ _ _ Ep) as Hsz. pose proof (len_pos bs).
  unfold at_index. rewrite Em, Esl. cbn [mbind result_bind]. assert (w_size w' ≤ len memory) as Hlm.
  { rewrite <- Hsz, <- Hm. etrans; [apply len_ztake_len|done]. }
  rewrite (proj2 (Z.ltb_ge _ _)), Hm, overwrite_0 by lia. cbn [mbind result_bind]. eexists. split; [done|].
  split; [|cbn; rewrite length_insert; split_and!; try done; lia].
  assert (∀ i w bs', posted !! i = Some (w, bs') → w_dst w = w_dst w' → i = total c polled) as Hinj.
  { intros i w bs' Hi E. eapply NoDup_lookup; [exact Id| |]; rewrite list_lookup_fmap; [by rewrite Hi|rewrite Ep; cbn; by rewrite E]. }
  pose proof (lookup_lt_Some _ _ _ Ep) as Hlt. split; unfold total in *; cbn [completions carried queue remote local]; try done.
  - lia.
  - f_equal. f_equal. lia.
  - intros i w b Hi. destruct (Is i w b Hi) as (sl & Hs & Hl). destruct (decide (w_dst w = w_dst w')) as [E|E].
    + rewrite E, list_lookup_insert_eq by (by eapply lookup_lt_Some). eexists. split; [done|].
      rewrite len_app, len_zdrop by lia. rewrite E in Hs. simplify_eq. lia.
    + rewrite list_lookup_insert_ne by done. eauto.
  - intros i w b sl Hi Hlt' Hs. destruct (decide (w_dst w = w_dst w')) as [E|E].
    + pose proof (Hinj i w b Hi E) as ->. simplify_eq. rewrite list_lookup_insert_eq in Hs by (by eapply lookup_lt_Some). injection Hs as <-.
      by apply ztake_app.
    + rewrite list_lookup_insert_ne in Hs by done. eapply Ido; [done| |done]. destruct (decide (i = total c polled)) as [->|]; [|unfold total in *; lia].
      unfold total in *. simplify_eq.
  - intros i w b Hi Hle. eapply Iw; [done|lia].
Qed.

Lemma complete_ok : card_inv posted polled (complete c) ∧ local (complete c) = local c ∧ remote (complete c) = remote c.
Proof using I.
  destruct I as [It Iq Id Isz Is Ido Iw]. unfold complete. destruct (carried c) as [|k] eqn:Ec; [done|]. split; [|done].
  unfold total in *. rewrite Ec in *.
  assert (∀ x, (x + S (completions c) + k = x + completions c + S k)%nat) as E by lia.
  split; unfold total; cbn [completions carried queue remote local]; rewrite ?E; try done.
Qed.

(** Memory that the card is not going to read. *)
Lemma set_local_ok i memory :
  (∀ p, p ∈ drop (total c polled) posted → w_src p.1 ≠ i) → card_inv posted polled (set_local c i memory).
Proof using I.
  intros Hi. destruct I. split; try done. intros j w bs Hj Hle. change (total (set_local c i memory) polled) with (total c polled) in Hle.
  destruct (ci_wait0 j w bs Hj Hle) as (m & Hm & E). exists m. split; [|done]. unfold set_local; cbn [local]. rewrite list_lookup_insert_ne; [done|]. intros ->. apply (Hi (w, bs)); [|done].
  apply (list_elem_of_lookup_2 _ (j - total c polled)). rewrite lookup_drop. rewrite <- Hj. f_equal. lia.
Qed.

(** More memory is in use. *)
Lemma more_memory ext ext' : card_inv posted polled (MkCard (local c ++ ext) (remote c ++ ext') (queue c) (carried c) (completions c)).
Proof using I.
  destruct I. split; try done; cbn [local remote].
  - intros i w bs Hi. destruct (ci_slot0 i w bs Hi) as (sl & Hs & ?). exists sl. split; [|done]. by apply lookup_app_l_Some.
  - intros i w bs sl Hi Hlt Hs. destruct (ci_slot0 i w bs Hi) as (sl' & Hs' & ?). eapply ci_done0; [done|done|].
    rewrite lookup_app_l in Hs; [done|by eapply lookup_lt_Some].
  - intros i w bs Hi Hle. destruct (ci_wait0 i w bs Hi Hle) as (m & Hm & ?). exists m. split; [|done]. by apply lookup_app_l_Some.
Qed.

Lemma polled_ok k :
  (k ≤ completions c)%nat → card_inv posted (polled + k) (MkCard (local c) (remote c) (queue c) (carried c) (completions c - k)).
Proof using I.
  intros Hk. assert (total (MkCard (local c) (remote c) (queue c) (carried c) (completions c - k)) (polled + k) = total c polled) as E
    by (unfold total; cbn; lia).
  destruct I. split; rewrite ?E; done.
Qed.

Lemma posted_ok w bs memory slot :
  local c !! w_src w = Some memory → ztake (w_size w) memory = bs → len bs = w_size w → remote c !! w_dst w = Some slot → w_size w ≤ len slot →
  (∀ p, p ∈ posted → w_dst p.1 ≠ w_dst w) →
  card_inv (posted ++ [(w, bs)]) polled (MkCard (local c) (remote c) (queue c ++ [w]) (carried c) (completions c)).
Proof using I.
  intros Hm Hb Hl Hs Hsl Hd. destruct I as [It Iq Id Isz Is Ido Iw]. unfold total in *.
  assert (∀ i w' b', (posted ++ [(w, bs)]) !! i = Some (w', b') → posted !! i = Some (w', b') ∨ (i = length posted ∧ w' = w ∧ b' = bs)) as Hcase.
  { intros i w' b' [?|[Hi E]]%lookup_app_Some; [by left|right]. destruct (i - length posted)%nat eqn:Ei; [|done]. cbn in E. simplify_eq. split; [lia|done]. }
  split; unfold total; cbn [completions carried queue remote local].
  - rewrite length_app. lia.
  - rewrite drop_app_le, fmap_app by lia. cbn. by rewrite Iq.
  - rewrite fmap_app. apply NoDup_app. split; [done|]. split; [|apply NoDup_singleton].
    intros x (p & -> & Hp)%list_elem_of_fmap [Hx|Hx]%elem_of_cons; [|by apply not_elem_of_nil in Hx]. by apply (Hd p Hp).
  - intros i w' b' [?|(-> & -> & ->)]%Hcase; eauto.
  - intros i w' b' [?|(-> & -> & ->)]%Hcase; eauto.
  - intros i w' b' sl [?|(-> & -> & ->)]%Hcase; [by eauto|lia].
  - intros i w' b' [?|(-> & -> & ->)]%Hcase; eauto.
Qed.

End card.

(** ** Entries *)

Notation kv := (list Z * list Z)%type.

Definition kv_bytes (e : kv) : list Z := EncodeFixed32 (len e.1) ++ EncodeFixed32 (len e.2) ++ e.1 ++ e.2.
Definition data_bytes (kvs : list kv) : list Z := concat (kv_bytes <$> kvs).

Lemma len_kv_bytes e : len (kv_bytes e) = kv_size e.1 e.2.
Proof. unfold kv_bytes, kv_size. rewrite !len_app. unfold EncodeFixed32, len. rewrite !length_le_bytes. lia. Qed.

Lemma data_bytes_app l m : data_bytes (l ++ m) = data_bytes l ++ data_bytes m.
Proof. unfold data_bytes. by rewrite fmap_app, concat_app. Qed.

Lemma data_bytes_cons e l : data_bytes (e :: l) = kv_bytes e ++ data_bytes l.
Proof. done. Qed.

Lemma data_bytes_one e : data_bytes [e] = kv_bytes e.
Proof. apply app_nil_r. Qed.

Lemma data_bytes_pos kvs : kvs ≠ [] → 0 < len (data_bytes kvs).
Proof.
  destruct kvs as [|e kvs]; [done|]. intros _. rewrite data_bytes_cons, len_app, len_kv_bytes. unfold kv_size.
  pose proof (len_pos e.1). pose proof (len_pos e.2). pose proof (len_pos (data_bytes kvs)). lia.
Qed.

Definition handle_bytes (offset size : Z) : list Z := EncodeVarint64 offset ++ EncodeVarint64 size.

(** The entries of the index for a table that begins at [base]. *)
Fixpoint index_kvs (base : Z) (kvs : list kv) : list kv :=
  match kvs with
  | [] => []
  | e :: kvs => (e.1, handle_bytes base (kv_size e.1 e.2)) :: index_kvs (base + kv_size e.1 e.2) kvs
  end.

Lemma index_kvs_app base l m : index_kvs base (l ++ m) = index_kvs base l ++ index_kvs (base + len (data_bytes l)) m.
Proof.
  revert base. induction l as [|e l IH]; intros base; cbn [app index_kvs].
  - change (len (data_bytes [])) with 0. by rewrite Z.add_0_r.
  - rewrite IH, data_bytes_cons, len_app, len_kv_bytes, Z.add_assoc. done.
Qed.

Lemma index_kvs_keys base l : (index_kvs base l).*1 = l.*1.
Proof. revert base. induction l as [|e l IH]; intros base; [done|]. cbn. by rewrite IH. Qed.

(** The regions of a table that begins at [base]. *)
Fixpoint regions (base : Z) (posted : list (write * list Z)) : list (Z * mr) :=
  match posted with
  | [] => []
  | (w, bs) :: posted => (base + len bs, MkMr (w_dst w) 0 (len bs)) :: regions (base + len bs) posted
  end.

Lemma regions_snoc base posted w bs :
  regions base (posted ++ [(w, bs)]) =
    let k := base + len (concat posted.*2) + len bs in regions base posted ++ [(k, MkMr (w_dst w) 0 (len bs))].
Proof.
  revert base. induction posted as [|[w' b'] posted IH]; intros base; cbn [app regions fmap list_fmap concat snd].
  - cbv zeta. change (len (@nil Z)) with 0. by rewrite Z.add_0_r.
  - rewrite IH, len_app. cbv zeta. do 4 f_equal. cbn [snd]. lia.
Qed.

Lemma regions_keys base posted k m : (k, m) ∈ regions base posted → k ≤ base + len (concat posted.*2) ∧ ∃ p, p ∈ posted ∧ mr_slot m = w_dst p.1.
Proof.
  revert base. induction posted as [|[w b] posted IH]; intros base; cbn [regions]; intros H; [by apply not_elem_of_nil in H|].
  cbn [fmap list_fmap concat snd]. rewrite len_app. pose proof (len_pos (concat posted.*2)).
  apply elem_of_cons in H as [[= -> ->]|H].
  - cbn [snd]. split; [lia|]. exists (w, b). split; [by left|done].
  - destruct (IH _ H) as (H1 & p & H2 & H3). cbn [snd]. split; [lia|]. exists p. split; [by right|done].
Qed.

Lemma map_insert_last k m l : Forall (λ e, e.1 < k) l → map_insert k m l = l ++ [(k, m)].
Proof.
  intros H. induction H as [|[k' m'] l Hk H IH]; [done|]. cbn in *. rewrite (proj2 (Z.ltb_ge _ _)), (proj2 (Z.eqb_neq _ _)) by lia. by rewrite IH.
Qed.

Lemma file_size_regions base posted : file_size (regions base posted) = len (concat posted.*2).
Proof.
  revert base. induction posted as [|[w b] posted IH]; intros base; [done|]. cbn [regions file_size foldr fmap list_fmap concat snd].
  unfold file_size in IH. rewrite IH, len_app. done.
Qed.

(** ** The builder *)

Definition user_of (key : list Z) : list Z := take (length key - 8) key.

Section build.
Context (opt : options) (local_slot remote_slot : Z → nat → list Z) (block_address trailer_address : nat) (n : nat).
Context (Hlocal : ∀ size i, 0 ≤ size → len (local_slot size i) = size) (Hremote : ∀ size i, 0 ≤ size → len (remote_slot size i) = size).

(** Entries that the chunks have room for. *)
Record room (kvs : list kv) : Prop := {
  rm_entry : Forall (λ e, kv_size e.1 e.2 ≤ FlushBuffer opt ∧ kv_size e.1 e.2 + kBlockTrailerSize ≤ DataChunk opt) kvs;
  rm_data : len (data_bytes kvs) < 2 ^ 32;
  rm_flush : FlushBuffer opt < 2 ^ 32;
  rm_index : size_bound (index_kvs 0 kvs) + kBlockTrailerSize < IndexChunk opt;
  rm_index_flush : size_bound (index_kvs 0 kvs) + kBlockTrailerSize ≤ FlushBuffer opt;
  rm_index_chunk : IndexChunk opt < 2 ^ 32;
  rm_count : len kvs < 2 ^ 26;
  rm_bits : filter_policy opt = true → 1 ≤ bloom_bits opt;
  rm_bits_all : filter_policy opt = true → len kvs * bloom_bits opt + 1536 < 2 ^ 32;
  rm_filter : filter_policy opt = true → len kvs * bloom_bits opt / 8 + 133 + kBlockTrailerSize < FilterChunk opt;
  rm_chunk : 0 ≤ FilterChunk opt;
}.

(** Internal keys in ascending order. *)
Record sorted_kvs (kvs : list kv) : Prop := {
  so_keys : Forall (λ e, Forall byte e.1 ∧ (8 ≤ length e.1 ≤ n + 8)%nat) kvs;
  so_order : ascending (λ e, internal_rank n e.1) kvs;
}.

Definition new_filter (done : list kv) : option Filter.builder :=
  if filter_policy opt
  then Some (add_keys (Filter.make_builder (replicate (Z.to_nat (FilterChunk opt)) 0) (bloom_bits opt)) ((λ e, user_of e.1) <$> done)) else None.

Definition out (posted : list (write * list Z)) (polled : nat) : list nat := (λ p, w_src p.1) <$> drop polled posted.

(** The entries [done] have been added: those of [groups] have been posted, a
    group with each write, and [rest] is in the current buffer [cur]. *)
Record adding (r : rep) (c : card) (done : list kv) (groups : list (list kv)) (rest : list kv) (posted : list (write * list Z)) (polled cur : nat) : Prop := {
  ad_done : done = concat groups ++ rest;
  ad_groups : Forall (λ g, g ≠ []) groups;
  ad_posted : posted.*2 = data_bytes <$> groups;
  ad_card : card_inv posted polled c;
  ad_ring : ring_inv (bufs r) (out posted polled) cur;
  ad_bufs : Forall (λ i, (2 ≤ i)%nat ∧ ∃ memory, local c !! i = Some memory ∧ len memory = FlushBuffer opt) (local_data_mr (bufs r));
  ad_cur : ∃ memory, local c !! cur = Some memory ∧ ztake (len (data_bytes rest)) memory = data_bytes rest;
  ad_buff : data_buff r = (cur, len (data_bytes rest));
  ad_index_mr : ∃ memory, local c !! 0%nat = Some memory ∧ len memory = IndexChunk opt;
  ad_filter_mr : ∃ memory, local c !! 1%nat = Some memory ∧ len memory = FilterChunk opt;
  ad_mrs : remote_data_mrs r = regions 0 posted;
  ad_flushed : offset_last_flushed r = len (concat posted.*2);
  ad_offset : offset r = len (data_bytes done);
  ad_index : ∃ sh rs, building 1 (index_block r) (index_kvs 0 done) sh rs;
  ad_filter : filter_block r = new_filter done;
  ad_last : last_key r = from_option fst [] (last done);
  ad_entries : num_entries r = len done;
  ad_open : closed r = false;
  ad_maps : remote_dataindex_mrs r = [] ∧ remote_filter_mrs r = [];
}.

Lemma concat_groups groups : concat (data_bytes <$> groups) = data_bytes (concat groups).
Proof. induction groups as [|g groups IH]; [done|]. rewrite fmap_cons. cbn [concat]. by rewrite IH, data_bytes_app. Qed.

Lemma out_length posted polled c : card_inv posted polled c → (completions c ≤ length (out posted polled))%nat.
Proof. intros I. pose proof (ci_total _ _ _ I) as H. unfold total in H. unfold out. rewrite length_fmap, length_drop. lia. Qed.

Lemma drop_out posted polled k p : (polled + k ≤ length posted)%nat → drop k (out posted polled) ++ [w_src p.1] = out (posted ++ [p]) (polled + k).
Proof. intros H. unfold out. rewrite drop_app_le, fmap_app, <- fmap_drop, drop_drop by lia. done. Qed.

(** The current buffer is posted. *)
Lemma FlushData_ok r c done groups rest posted polled cur :
  adding r c done groups rest posted polled cur → rest ≠ [] → len (data_bytes done) < 2 ^ 32 → len (data_bytes rest) ≤ FlushBuffer opt →
  ∃ r' c' posted' polled' cur', FlushData opt local_slot remote_slot r c = Ok (r', c') ∧
    adding r' c' done (groups ++ [rest]) [] posted' polled' cur' ∧ ring_used (bufs r') (out posted' polled') cur' ∧ out posted' polled' ≠ [] ∧
    (load c' ≤ 3 + load c)%nat.
Proof using Hlocal Hremote.
  intros A Hne Hb Hfit. destruct A as [Adone Agr Apo Aca Ari Abu (memory & Am & Amb) Abuf Aim Afm Amrs Aflu Aoff Aind Afil Ala Aen Aop Ama].
  set (bs := data_bytes rest) in *. pose proof (data_bytes_pos rest Hne) as Hpos. fold bs in Hpos.
  assert (len (data_bytes done) = len (concat posted.*2) + len bs) as Hlen.
  { rewrite Adone, data_bytes_app, len_app, Apo, concat_groups. done. }
  pose proof (len_pos (concat posted.*2)). unfold FlushData, Allocate_Remote_RDMA_Slot. rewrite Aoff, Aflu. rewrite (wrap_small 64) by (split; lia).
  replace (len (data_bytes done) - len (concat posted.*2)) with (len bs) by lia.
  set (slot := length (remote c)). set (c1 := MkCard (local c) (remote c ++ [remote_slot (FlushBuffer opt) slot]) (queue c) (carried c) (completions c)).
  assert (card_inv posted polled c1) as I1.
  { pose proof (more_memory posted polled c Aca [] [remote_slot (FlushBuffer opt) slot]) as H'. by rewrite app_nil_r in H'. }
  assert (Forall (λ i, i < length (local c1))%nat (local_data_mr (bufs r))) as Hlt.
  { eapply Forall_impl; [exact Abu|]. intros i (_ & m & Hm & _). by eapply lookup_lt_Some. }
  destruct (post_data_ok opt local_slot (bufs r) c1 (out posted polled) cur slot (len bs) Ari (out_length _ _ _ I1) Hlt)
    as (b' & k & cur' & ext & -> & Hk & Hnd & Hused & Hext). cbn [mbind result_bind].
  set (w := MkWrite cur slot (len bs)). assert (Forall (λ p, (w_dst p.1 < slot)%nat) posted) as Hfresh.
  { apply Forall_forall. intros [w' b] (i & Hi)%list_elem_of_lookup. destruct (ci_slot _ _ _ Aca i w' b Hi) as (sl & Hs & _). by eapply lookup_lt_Some. }
  assert (forallb (λ m, negb (mr_slot m.2 =? slot)%nat) (remote_data_mrs r) = true) as ->.
  { apply forallb_forall. intros [key m] Hm%list_elem_of_In. rewrite Amrs in Hm. destruct (regions_keys _ _ _ _ Hm) as (_ & p & Hp & E).
    cbn [snd]. rewrite E. apply negb_true_iff, Nat.eqb_neq. pose proof (proj1 (Forall_forall _ _) Hfresh p Hp). cbn in *. lia. }
  cbn [require mbind result_bind]. destruct (ring_next b' _ cur' Hused) as [Hn1 Hn2]; [by intros [_ ?]%app_nil|].
  rewrite (proj2 (Z.eqb_neq _ _)) by done. cbn [negb require mbind result_bind]. unfold at_index. rewrite Hn2. cbn [mbind result_bind].
  assert (polled + k ≤ length posted)%nat as Hpk by (pose proof (ci_total _ _ _ I1) as Ht; unfold total in Ht; lia).
  pose proof (drop_out posted polled k (w, bs) Hpk) as Ed. change (w_src (w, bs).1) with cur in Ed. rewrite Ed in Hused. clear Ed.
  eexists _, _, (posted ++ [(w, bs)]), (polled + k)%nat, cur'. split; [done|].
  change (local c1) with (local c) in *. change (queue c1) with (queue c) in *. change (carried c1) with (carried c) in *.
  change (completions c1) with (completions c) in *. cbn [completions carried queue local] in *.
  split; [|split_and!; [done|intros E; apply (f_equal length) in E; unfold out in E; rewrite length_fmap, length_drop, length_app in E; cbn in E; lia|unfold load; cbn; rewrite length_app; cbn; lia]].
  assert (remote c1 !! slot = Some (remote_slot (FlushBuffer opt) slot)) as Hsl by (apply list_lookup_middle; done).
  assert (Forall (λ i, (2 ≤ i)%nat ∧ ∃ m, (local c ++ ext) !! i = Some m ∧ len m = FlushBuffer opt) (local_data_mr b')) as Hb'.
  { assert (Forall (λ i, (2 ≤ i)%nat ∧ ∃ m, (local c ++ ext) !! i = Some m ∧ len m = FlushBuffer opt) (local_data_mr (bufs r))) as Hold.
    { eapply Forall_impl; [exact Abu|]. intros i (H2 & m & Hm & El). split; [done|]. exists m. split; [by apply lookup_app_l_Some|done]. }
    destruct Hext as [[_ ->]|[-> ->]]; [done|]. constructor; [|done]. destruct Afm as (m & Hm & _). apply lookup_lt_Some in Hm. split; [lia|].
    eexists. split; [by apply list_lookup_middle|]. apply Hlocal. lia. }
  split; cbn [bufs data_buff offset_last_flushed offset index_block filter_block last_key num_entries closed remote_data_mrs
    remote_dataindex_mrs remote_filter_mrs local]; try done.
  - by rewrite concat_app, app_nil_r, Adone; cbn [concat]; rewrite app_nil_r.
  - apply Forall_app_2; [done|]. by constructor.
  - rewrite !fmap_app, Apo. done.
  - pose proof (more_memory _ _ _ (polled_ok _ _ _ I1 k Hk) ext []) as I2. cbn [local remote queue carried completions] in I2. rewrite app_nil_r in I2.
    refine (posted_ok _ _ _ I2 w bs memory _ _ Amb eq_refl Hsl _ _); cbn [local w_src w]; [by apply lookup_app_l_Some|rewrite Hremote; [done|lia]|].
    intros p Hp. pose proof (proj1 (Forall_forall _ _) Hfresh p Hp). cbn in *. lia.
  - split; [done|by right].
  - destruct (ring_cur b' (out (posted ++ [(w, bs)]) (polled + k)) cur') as (Hin & _); [split; [done|by right]|].
    destruct (proj1 (Forall_forall _ _) Hb' cur' Hin) as (_ & m & Hm & _). by exists m.
  - destruct Aim as (m & Hm & ?). exists m. split; [by apply lookup_app_l_Some|done].
  - destruct Afm as (m & Hm & ?). exists m. split; [by apply lookup_app_l_Some|done].
  - rewrite Amrs, wrap_small, map_insert_last, regions_snoc; [|apply Forall_forall; intros [key m] [Hk' _]%regions_keys; cbn; lia|split; lia].
    cbv zeta. do 4 f_equal; lia.
  - rewrite fmap_app, concat_app, len_app, Hlen. cbn. rewrite app_nil_r. done.
Qed.

(** ** Adding an entry *)

Lemma drop_total c polled (all : list (write * list Z)) p : p ∈ drop (total c polled) all → p ∈ drop polled all.
Proof.
  intros (j & Hj)%list_elem_of_lookup. apply (list_elem_of_lookup_2 _ (completions c + carried c + j)). rewrite lookup_drop in Hj |- *.
  rewrite <- Hj. f_equal. unfold total. lia.
Qed.

Lemma room_prefix l m : room (l ++ m) → room l.
Proof.
  intros [H1 H2 H3 H4 H5 H6 H7 H8 H9 H10 H11]. rewrite index_kvs_app, size_bound_app in H4, H5. rewrite data_bytes_app, len_app in H2. rewrite len_app in H7, H9, H10.
  pose proof (size_bound_pos (index_kvs (0 + len (data_bytes l)) m)). pose proof (len_pos (data_bytes m)). pose proof (len_pos m). pose proof (len_pos l).
  apply Forall_app in H1 as [H1 _]. split; try done; try lia.
  - intros E. specialize (H8 E). specialize (H9 E). nia.
  - intros E. specialize (H8 E). specialize (H10 E). assert (len l * bloom_bits opt / 8 ≤ (len l + len m) * bloom_bits opt / 8) by (apply Z.div_le_mono; nia). lia.
Qed.

Lemma sorted_prefix l m : sorted_kvs (l ++ m) → sorted_kvs l.
Proof. intros [[Hk _]%Forall_app Ho]. split; [done|]. by apply StronglySorted_app_1_l in Ho. Qed.

Lemma append_ok c cur size m pre bytes :
  (cur < length (local c))%nat → len m = size → ztake (len pre) m = pre → len pre + len bytes ≤ size →
  ∃ m', append (set_local c cur m) (cur, len pre) bytes = Ok (set_local c cur m', (cur, len (pre ++ bytes))) ∧ len m' = size ∧
    ztake (len (pre ++ bytes)) m' = pre ++ bytes.
Proof.
  intros Hlt Hm Hp Hb. pose proof (len_pos pre). pose proof (len_pos bytes). unfold append, at_index, set_local. cbn [fst snd local remote queue carried completions].
  rewrite list_lookup_insert_eq by done. cbn [mbind result_bind]. unfold overwrite. rewrite (proj2 (Z.leb_le 0 _)), (proj2 (Z.leb_le _ (len m))) by lia.
  cbn [andb mbind result_bind local]. rewrite list_insert_insert_eq. eexists. rewrite Hp, len_app. split; [done|]. split.
  - rewrite !len_app, len_zdrop by lia. lia.
  - rewrite app_assoc. apply ztake_app. by rewrite len_app.
Qed.

(** Making room, if need be. *)
Lemma make_room r c done groups rest posted polled cur e :
  adding r c done groups rest posted polled cur → room (done ++ [e]) → len (data_bytes rest) ≤ FlushBuffer opt →
  ∃ r' c' groups' rest' posted' polled' cur',
    (if FlushBuffer opt <? u64 (offset r - offset_last_flushed r + kv_size e.1 e.2) then FlushData opt local_slot remote_slot r c else Ok (r, c)) = Ok (r', c') ∧
    adding r' c' done groups' rest' posted' polled' cur' ∧ len (data_bytes rest') + kv_size e.1 e.2 ≤ FlushBuffer opt ∧
    (load c' ≤ 3 + load c)%nat.
Proof using Hlocal Hremote.
  intros A R Hr. pose proof (rm_data _ R) as Hd. rewrite data_bytes_app, len_app in Hd. pose proof (rm_flush _ R).
  assert (kv_size e.1 e.2 ≤ FlushBuffer opt) as He by (apply rm_entry, Forall_app in R as [_ [[? _] _]%Forall_cons]; done).
  assert (0 < kv_size e.1 e.2) by (unfold kv_size; pose proof (len_pos e.1); pose proof (len_pos e.2); lia).
  assert (offset r - offset_last_flushed r = len (data_bytes rest)) as Eo.
  { rewrite (ad_offset _ _ _ _ _ _ _ _ A), (ad_flushed _ _ _ _ _ _ _ _ A), (ad_posted _ _ _ _ _ _ _ _ A), concat_groups.
    rewrite (ad_done _ _ _ _ _ _ _ _ A), data_bytes_app, len_app. lia. }
  pose proof (len_pos (data_bytes rest)). pose proof (len_pos (data_bytes [e])). rewrite Eo, wrap_small by (split; lia).
  destruct (Z.ltb_spec (FlushBuffer opt) (len (data_bytes rest) + kv_size e.1 e.2)) as [Hlt|Hge].
  - destruct (FlushData_ok r c done groups rest posted polled cur A) as (r' & c' & posted' & polled' & cur' & E & A' & _ & _ & Hm).
    { intros ->. change (len (data_bytes [])) with 0 in *. lia. } { lia. } { done. }
    exists r', c', (groups ++ [rest]), [], posted', polled', cur'. split_and!; [done|done|change (len (data_bytes [])) with 0; lia|done].
  - exists r, c, groups, rest, posted, polled, cur. split_and!; try done. lia.
Qed.

Lemma new_filter_snoc done e : new_filter (done ++ [e]) = (λ f, Filter.AddKey f (user_of e.1)) <$> new_filter done.
Proof. unfold new_filter, add_keys. destruct (filter_policy opt); [|done]. cbn. by rewrite fmap_app, fold_left_app. Qed.

Lemma ordered_next done k v :
  sorted_kvs (done ++ [(k, v)]) →
  (if 0 <? len done then o ← InternalCompare k (from_option fst [] (last done)); Ok (0 <? o) else Ok true) = Ok true.
Proof.
  intros [Hk Ho]. destruct (last done) as [e|] eqn:El; cycle 1.
  { apply last_None in El as ->. done. }
  apply last_Some in El as [l ->]. cbn [from_option]. rewrite len_app. change (len [e]) with 1. pose proof (len_pos l). rewrite (proj2 (Z.ltb_lt _ _)) by lia.
  apply Forall_app in Hk as [[_ [He _]%Forall_cons]%Forall_app [Hk _]%Forall_cons].
  destruct (cmp_rank (KeyOrder := InternalOrder n) k e.1 Hk He) as (o & -> & Hc). cbn [mbind result_bind]. do 2 f_equal. apply Z.ltb_lt.
  pose proof (StronglySorted_app_1_elem_of _ _ _ e (k, v) Ho ltac:(apply elem_of_app; right; by left) ltac:(by left)) as Hlt.
  cbn in Hlt, Hc. lia.
Qed.

Lemma ascending_keys (l : list kv) : ascending (λ e, internal_rank n e.1) l ↔ StronglySorted Z.lt (internal_rank n <$> l.*1).
Proof. rewrite ascending_fmap, <- list_fmap_compose. done. Qed.

Lemma index_Add s done sh rs k v :
  building 1 s (index_kvs 0 done) sh rs → room (done ++ [(k, v)]) → sorted_kvs (done ++ [(k, v)]) →
  let h := handle_bytes (len (data_bytes done)) (kv_size k v) in
  EncodeTo (MkHandle (len (data_bytes done)) (kv_size k v)) = Ok h ∧
  ∃ s' sh' rs', Block.Add InternalCompare 1 s k h = Ok s' ∧ building 1 s' (index_kvs 0 (done ++ [(k, v)])) sh' rs'.
Proof.
  intros Hb R So h. pose proof (rm_data _ R) as Hd. rewrite data_bytes_app, data_bytes_one, len_app, len_kv_bytes in Hd. cbn [fst snd] in Hd.
  pose proof (len_pos (data_bytes done)). pose proof (len_pos k). pose proof (len_pos v). split.
  { unfold EncodeTo. cbn [handle_offset handle_size]. unfold kv_size in *. rewrite !(proj2 (Z.eqb_neq _ _)) by lia. done. }
  assert (index_kvs 0 (done ++ [(k, v)]) = index_kvs 0 done ++ [(k, h)]) as Ei by (rewrite index_kvs_app, Z.add_0_l; done).
  pose proof (rm_index _ R) as Hi. pose proof (rm_index_chunk _ R). unfold kBlockTrailerSize in Hi. rewrite Ei in *. destruct So as [Hk Ho].
  apply Forall_app in Hk as [Hks [[Hk1 Hk2] _]%Forall_cons]. cbn in Hk1, Hk2.
  assert (Forall (λ e : kv, Forall byte e.1 ∧ (8 ≤ length e.1 ≤ n + 8)%nat) (index_kvs 0 done)) as Hgs.
  { assert (Forall (λ x, Forall byte x ∧ (8 ≤ length x ≤ n + 8)%nat) (index_kvs 0 done).*1) as Hf by (rewrite index_kvs_keys; by apply Forall_fmap).
    by apply Forall_fmap in Hf. }
  eapply (Add_ok InternalCompare (KeyOrder0 := InternalOrder n)); [lia|done|lia|unfold len; lia|split; done|done|].
  rewrite <- Ei. apply ascending_keys. by rewrite index_kvs_keys; apply ascending_keys.
Qed.

(** The bytes of an entry are appended to the current buffer. *)
Lemma append_entry c cur memory pre k v :
  local c !! cur = Some memory → len memory = FlushBuffer opt → ztake (len pre) memory = pre → len pre + kv_size k v ≤ FlushBuffer opt →
  kv_size k v < 2 ^ 32 →
  ∃ m, ('(c, buff) ← append c (cur, len pre) (EncodeFixed32 (u32 (len k)));
        '(c, buff) ← append c buff (EncodeFixed32 (u32 (len v)));
        '(c, buff) ← append c buff k;
        append c buff v) = Ok (set_local c cur m, (cur, len (pre ++ kv_bytes (k, v)))) ∧
    len m = FlushBuffer opt ∧ ztake (len (pre ++ kv_bytes (k, v))) m = pre ++ kv_bytes (k, v).
Proof.
  intros Hm Hl Hp Hs Hf. unfold kv_size in *. pose proof (len_pos k). pose proof (len_pos v). rewrite !wrap_small by (split; lia).
  assert (∀ x, len (EncodeFixed32 x) = 4) as E4 by (intros x; unfold len, EncodeFixed32; by rewrite length_le_bytes).
  assert (c = set_local c cur memory) as Ec by (unfold set_local; rewrite list_insert_id by done; by destruct c).
  replace (append c (cur, len pre) _) with (append (set_local c cur memory) (cur, len pre) (EncodeFixed32 (len k))) by (by rewrite <- Ec).
  pose proof (lookup_lt_Some _ _ _ Hm) as Hlt. unfold kv_bytes. cbn [fst snd].
  destruct (append_ok c cur _ memory pre (EncodeFixed32 (len k)) Hlt Hl Hp) as (m1 & -> & L1 & P1); [rewrite E4; lia|]. cbn [mbind result_bind].
  destruct (append_ok c cur _ m1 _ (EncodeFixed32 (len v)) Hlt L1 P1) as (m2 & -> & L2 & P2); [rewrite len_app, !E4; lia|]. cbn [mbind result_bind].
  destruct (append_ok c cur _ m2 _ k Hlt L2 P2) as (m3 & -> & L3 & P3); [rewrite !len_app, !E4; lia|]. cbn [mbind result_bind].
  destruct (append_ok c cur _ m3 _ v Hlt L3 P3) as (m4 & -> & L4 & P4); [rewrite !len_app, !E4; lia|]. exists m4. rewrite <- !app_assoc in *. done.
Qed.

Lemma table_Add_ok r c done groups rest posted polled cur k v :
  adding r c done groups rest posted polled cur → room (done ++ [(k, v)]) → sorted_kvs (done ++ [(k, v)]) → len (data_bytes rest) ≤ FlushBuffer opt →
  ∃ r' c' groups' rest' posted' polled' cur', Add opt local_slot remote_slot r c k v = Ok (r', c') ∧
    adding r' c' (done ++ [(k, v)]) groups' rest' posted' polled' cur' ∧ rest' ≠ [] ∧ len (data_bytes rest') ≤ FlushBuffer opt ∧
    (load c' ≤ 3 + load c)%nat.
Proof using Hlocal Hremote.
  intros A R So Hr. unfold Add. rewrite (ad_open _ _ _ _ _ _ _ _ A), (ad_entries _ _ _ _ _ _ _ _ A), (ad_last _ _ _ _ _ _ _ _ A), (ordered_next done k v So).
  cbn [negb require mbind result_bind]. destruct (make_room r c done groups rest posted polled cur (k, v) A R Hr)
    as (r1 & c1 & groups1 & rest1 & posted1 & polled1 & cur1 & E1 & A1 & Hr1 & Hm1). cbn [fst snd] in E1, Hr1. rewrite E1. cbn [mbind result_bind].
  clear A E1 Hr. destruct A1 as [Adone Agr Apo Aca Ari Abu (memory & Am & Amb) Abuf Aim Afm Amrs Aflu Aoff (sh & rs & Aind) Afil Ala Aen Aop Ama].
  destruct (index_Add (index_block r1) done sh rs k v Aind R So) as (Eh & ib & sh' & rs' & Eib & Hib). rewrite Aoff, Eh. cbn [mbind result_bind]. rewrite Eib.
  cbn [mbind result_bind]. assert ((8 ≤ length k)%nat) as Hk8 by (apply so_keys, Forall_app in So as [_ [[_ Hk] _]%Forall_cons]; cbn in Hk; lia).
  unfold ExtractUserKey. rewrite (proj2 (Nat.leb_le _ _)) by done. cbn [require mbind result_bind]. rewrite Abuf.
  destruct (ring_cur _ _ _ Ari) as (Hcin & Hcout & _ & Hsub). destruct (proj1 (Forall_forall _ _) Abu cur1 Hcin) as (Hc2 & m0 & Hm0 & Hl0). simplify_eq.
  pose proof (rm_data _ R) as Hd. rewrite data_bytes_app, data_bytes_one, len_app, len_kv_bytes in Hd. cbn [fst snd] in Hd.
  pose proof (len_pos (data_bytes (concat groups1 ++ rest1))). pose proof (len_pos k). pose proof (len_pos v).
  destruct (append_entry c1 cur1 memory (data_bytes rest1) k v Am Hl0 Amb Hr1 ltac:(lia)) as (m & Em & Lm & Pm).
  destruct (append c1 _ _) as [[ca ba]|]; [|done]. cbn [mbind result_bind] in *. destruct (append ca _ _) as [[cb bb]|]; [|done]. cbn [mbind result_bind] in *.
  destruct (append cb _ _) as [[cc bc]|]; [|done]. cbn [mbind result_bind] in *. rewrite Em. cbn [mbind result_bind]. clear ca ba cb bb cc bc Em.
  assert (data_bytes (rest1 ++ [(k, v)]) = data_bytes rest1 ++ kv_bytes (k, v)) as Er by (by rewrite data_bytes_app, data_bytes_one).
  eexists _, _, groups1, (rest1 ++ [(k, v)]), posted1, polled1, cur1. split; [done|]. split; [|split_and!].
  2: by intros [_ ?]%app_nil. 2: by rewrite Er, len_app, len_kv_bytes. 2: exact Hm1.
  pose proof (lookup_lt_Some _ _ _ Am) as Hlt.
  split; cbn [bufs data_buff offset_last_flushed offset index_block filter_block last_key num_entries closed remote_data_mrs
    remote_dataindex_mrs remote_filter_mrs local set_local]; try done.
  - by rewrite app_assoc.
  - apply set_local_ok; [done|]. intros p Hp%drop_total <-. apply Hcout, list_elem_of_fmap. by exists p.
  - eapply Forall_impl; [exact Abu|]. intros i (H2 & mi & Hmi & Hli). split; [done|]. destruct (decide (i = cur1)) as [->|].
    + exists m. split; [by apply list_lookup_insert_eq|done]. + exists mi. by rewrite list_lookup_insert_ne.
  - exists m. rewrite list_lookup_insert_eq by done. split; [done|]. by rewrite Er.
  - by rewrite Er.
  - destruct Aim as (mi & ? & ?). exists mi. rewrite list_lookup_insert_ne by lia. done.
  - destruct Afm as (mi & ? & ?). exists mi. rewrite list_lookup_insert_ne by lia. done.
  - rewrite (data_bytes_app (_ ++ rest1) [(k, v)]), len_app, data_bytes_one, len_kv_bytes. apply wrap_small. cbn [fst snd]. unfold kv_size in *. split; lia.
  - by exists sh', rs'.
  - by rewrite new_filter_snoc, Afil.
  - by rewrite last_snoc.
  - rewrite len_app. change (len [(k, v)]) with 1. lia.
Qed.

(** ** Finishing *)

(** The writes [all] that bring a table to remote memory; [posted] are those of
    its entries, in groups. *)
Record posted_table (kvs : list kv) (r : rep) (posted all : list (write * list Z)) : Prop := {
  pt_groups : ∃ groups, concat groups = kvs ∧ Forall (λ g, g ≠ []) groups ∧ posted.*2 = data_bytes <$> groups;
  pt_data : remote_data_mrs r = regions 0 posted;
  pt_offset : offset r = len (data_bytes kvs);
  pt_index : ∃ s sh rs w, building 1 s (index_kvs 0 kvs) sh rs ∧
    let raw := contents (index_kvs 0 kvs) sh rs in let block := raw ++ trailer block_address trailer_address raw in
    (w, block) ∈ all ∧ remote_dataindex_mrs r = [(1, MkMr (w_dst w) 0 (len block))];
  pt_filter : filter_policy opt = true → ∃ f raw f' w, new_filter kvs = Some f ∧ Filter.Finish f = Ok (raw, f') ∧
    let block := raw ++ trailer block_address trailer_address raw in
    (w, block) ∈ all ∧ remote_filter_mrs r = [(1, MkMr (w_dst w) 0 (len block))];
  pt_posted : posted `prefix_of` all;
}.

Lemma len_trailer raw : len (trailer block_address trailer_address raw) = kBlockTrailerSize.
Proof. unfold trailer, len, EncodeFixed32. rewrite length_app, length_le_bytes. done. Qed.

(** A finished block is put into its buffer and posted. *)
Lemma post_block c all polled i memory block chunk :
  card_inv all polled c → local c !! i = Some memory → len block ≤ len memory → len block ≤ chunk →
  (∀ p, p ∈ drop polled all → w_src p.1 ≠ i) →
  let slot := length (remote c) in let w := MkWrite i slot (len block) in
  ∃ c1 c2, put_block c i block = Ok c1 ∧ flush_block remote_slot c1 i chunk (len block) [] = ([(1, MkMr slot 0 (len block))], c2) ∧
    card_inv (all ++ [(w, block)]) polled c2 ∧ (∀ j, j ≠ i → local c2 !! j = local c !! j) ∧
    queue c2 = queue c ++ [w] ∧ carried c2 = carried c ∧ completions c2 = completions c.
Proof using Hremote.
  intros I Hm Hb Hc Hs slot w. pose proof (len_pos block). unfold put_block, at_index. rewrite Hm. cbn [mbind result_bind].
  rewrite (proj2 (Z.leb_le _ _)) by done. cbn [require mbind result_bind]. rewrite overwrite_0 by done. cbn [mbind result_bind].
  set (m' := block ++ zdrop (len block) memory). eexists _, _. split; [done|]. unfold flush_block, Allocate_Remote_RDMA_Slot. cbn [remote set_local local queue carried completions].
  split; [done|]. split; [|split_and!; try done; intros j Hj; cbn; by rewrite list_lookup_insert_ne].
  pose proof (set_local_ok all polled c I i m' (λ p Hp, Hs p (drop_total _ _ _ _ Hp))) as I1. pose proof (more_memory _ _ _ I1 [] [remote_slot chunk slot]) as I2. rewrite app_nil_r in I2.
  refine (posted_ok _ _ _ I2 w block m' (remote_slot chunk slot) _ _ eq_refl _ _ _); cbn [local set_local remote w w_src w_dst w_size].
  - apply list_lookup_insert_eq. by eapply lookup_lt_Some.
  - by apply ztake_app.
  - by apply list_lookup_middle.
  - rewrite Hremote; [done|lia].
  - intros [w' b] (j & Hj)%list_elem_of_lookup. destruct (ci_slot _ _ _ I j w' b Hj) as (sl & Hsl & _). apply lookup_lt_Some in Hsl. cbn. lia.
Qed.

Lemma out_ge posted polled r c cur i p :
  ring_inv (bufs r) (out posted polled) cur → (i < 2)%nat →
  Forall (λ i, (2 ≤ i)%nat ∧ ∃ memory, local c !! i = Some memory ∧ len memory = FlushBuffer opt) (local_data_mr (bufs r)) →
  p ∈ drop polled posted → w_src p.1 ≠ i.
Proof.
  intros Hr Hi Hb Hp E. destruct (ring_cur _ _ _ Hr) as (_ & _ & _ & Hsub).
  destruct (proj1 (Forall_forall _ _) Hb (w_src p.1)) as [H2 _]; [|lia]. apply Hsub, list_elem_of_fmap. by exists p.
Qed.

Lemma index_length s kvs sh rs :
  building 1 s (index_kvs 0 kvs) sh rs → room kvs → len (contents (index_kvs 0 kvs) sh rs) ≤ size_bound (index_kvs 0 kvs).
Proof.
  intros [Hl _ _ Hc _ _ _ _] R. pose proof (rm_index _ R). pose proof (rm_index_chunk _ R). unfold kBlockTrailerSize in *.
  apply contents_bound; [apply Hl|apply Hl|done|lia].
Qed.

(** The filter of the entries is finished. *)
Lemma filter_finishes kvs :
  room kvs → kvs ≠ [] → filter_policy opt = true →
  ∃ f raw f', new_filter kvs = Some f ∧ Filter.Finish f = Ok (raw, f') ∧ 5 < len raw ∧ len raw + kBlockTrailerSize < FilterChunk opt.
Proof.
  intros R Hne Hp. unfold new_filter. rewrite Hp. pose proof (rm_filter _ R Hp). unfold kBlockTrailerSize in *. pose proof (rm_chunk _ R).
  assert (∀ l : list kv, len ((λ e, user_of e.1) <$> l) = len l) as El by (intros l; unfold len; by rewrite length_fmap).
  destruct (finished_filter (replicate (Z.to_nat (FilterChunk opt)) 0) (bloom_bits opt) ((λ e, user_of e.1) <$> kvs)) as (raw & f' & _ & E & _ & _ & _ & Hl & _).
  - by apply rm_bits in R.
  - by destruct kvs.
  - rewrite El. by apply rm_bits_all in R.
  - rewrite El. unfold len at 2. rewrite length_replicate. lia.
  - rewrite El in Hl. eexists _, raw, f'. split; [done|]. split; [done|]. lia.
Qed.

(** The filter, if there is one, is finished and posted. *)
Lemma post_filter r c kvs posted polled :
  card_inv posted polled c → filter_block r = new_filter kvs → room kvs → kvs ≠ [] → (polled ≤ length posted)%nat →
  (∃ memory, local c !! 1%nat = Some memory ∧ len memory = FilterChunk opt) → (∀ p, p ∈ drop polled posted → w_src p.1 ≠ 1%nat) →
  ∃ f mrs c' tail,
    match filter_block r with
    | Some f =>
        '(msg_size, f, c) ← FinishFilterBlock block_address trailer_address c f;
        let '(mrs, c) := flush_block remote_slot c 1 (FilterChunk opt) msg_size [] in Ok (Some (Filter.Move_buffer f (Filter.buffer f)), mrs, c)
    | None => Ok (None, [], c)
    end = Ok (f, mrs, c') ∧ card_inv (posted ++ tail) polled c' ∧
    (filter_policy opt = true → ∃ f raw f' w, new_filter kvs = Some f ∧ Filter.Finish f = Ok (raw, f') ∧
      let block := raw ++ trailer block_address trailer_address raw in (w, block) ∈ tail ∧ mrs = [(1, MkMr (w_dst w) 0 (len block))]) ∧
    local c' !! 0%nat = local c !! 0%nat ∧ Forall (λ p, w_src p.1 = 1%nat) tail ∧
    length tail = (if filter_policy opt then 1 else 0)%nat ∧
    (load c' ≤ 3 + load c)%nat.
Proof using Hremote.
  intros I Ef R Hne Hle (mf & Hmf & Lmf) Hs. rewrite Ef. destruct (filter_policy opt) eqn:Hp; cycle 1.
  { unfold new_filter. rewrite Hp. exists None, [], c, []. rewrite app_nil_r. split_and!; try done. lia. }
  destruct (filter_finishes kvs R Hne Hp) as (f & raw & f' & E & Efin & Hl & Hc). rewrite E. unfold FinishFilterBlock. rewrite Efin. cbn [mbind result_bind].
  rewrite (proj2 (Z.eqb_neq _ _)) by lia. cbn [negb require mbind result_bind]. set (block := raw ++ trailer block_address trailer_address raw).
  assert (len block = len raw + kBlockTrailerSize) as Lb by (unfold block; by rewrite len_app, len_trailer).
  destruct (post_block c posted polled 1 mf block (FilterChunk opt) I Hmf) as (c2 & c3 & -> & E3 & I3 & L3 & Q3 & K3 & C3); [lia|lia|done|].
  cbn [mbind result_bind]. rewrite E3. set (w := MkWrite 1 _ _) in *. eexists _, _, c3, [(w, block)]. split; [done|]. split; [exact I3|]. split_and!.
  - intros _. exists f, raw, f', w. split_and!; try done. by left.
  - by apply L3.
  - by constructor.
  - done.
  - unfold load in *. rewrite Q3, K3, C3, length_app. cbn [length]. lia.
Qed.

Lemma Finish_post_ok r c kvs groups rest posted polled cur :
  adding r c kvs groups rest posted polled cur → room kvs → rest ≠ [] → len (data_bytes rest) ≤ FlushBuffer opt →
  ∃ num r' c' posted' all polled', Finish_post opt local_slot remote_slot block_address trailer_address r c = Ok (num, r', c') ∧
    posted_table kvs r' posted' all ∧ card_inv all polled' c' ∧ num = Z.of_nat (length all - polled') ∧ (polled' < length all)%nat ∧
    (load c' ≤ 9 + load c)%nat.
Proof using Hlocal Hremote.
  intros A R Hne Hr. pose proof (rm_data _ R) as Hd. pose proof (data_bytes_pos rest Hne) as Hpos. pose proof (rm_index_flush _ R) as Hif. pose proof (rm_index _ R) as Hii.
  assert (kvs ≠ []) as Hkvs by (rewrite (ad_done _ _ _ _ _ _ _ _ A); by intros [_ ?]%app_nil).
  assert (offset r - offset_last_flushed r = len (data_bytes rest)) as Eo.
  { rewrite (ad_offset _ _ _ _ _ _ _ _ A), (ad_flushed _ _ _ _ _ _ _ _ A), (ad_posted _ _ _ _ _ _ _ _ A), concat_groups.
    rewrite (ad_done _ _ _ _ _ _ _ _ A), data_bytes_app, len_app. lia. }
  unfold Finish_post. pose proof (rm_flush _ R). rewrite Eo, wrap_small, (proj2 (Z.ltb_lt _ _)) by (done || (split; lia)).
  destruct (FlushData_ok r c kvs groups rest posted polled cur A Hne Hd Hr) as (r1 & c1 & posted1 & polled1 & cur1 & -> & A1 & U1 & Ho1 & Hm1).
  cbn [mbind result_bind]. rewrite (ad_open _ _ _ _ _ _ _ _ A1). cbn [negb require mbind result_bind].
  destruct (ad_maps _ _ _ _ _ _ _ _ A1) as [-> ->]. destruct (ad_index _ _ _ _ _ _ _ _ A1) as (sh & rs & Hib).
  pose proof (ring_count _ _ _ U1 Ho1) as Hcount. cbv zeta in Hcount. rewrite Hcount.
  assert (Z.of_nat (length posted1 - polled1) = len (out posted1 polled1)) as Hlen by (unfold out, len; rewrite length_fmap, length_drop; done).
  assert (polled1 < length posted1)%nat as Hlt.
  { destruct (decide (polled1 < length posted1)%nat); [done|]. destruct Ho1. unfold out. by rewrite drop_ge by lia. }
  pose proof (ad_card _ _ _ _ _ _ _ _ A1) as I1. pose proof (index_length _ _ _ _ Hib R) as Hil.
  destruct (finished_opens 1 (index_block r1) _ sh rs Hib) as (Efin & _).
  { pose proof (rm_count _ R). assert (len (index_kvs 0 kvs) = len kvs) as ->; [|done]. unfold len. f_equal. rewrite <- (length_fmap fst), index_kvs_keys. apply length_fmap. }
  set (raw := contents (index_kvs 0 kvs) sh rs) in *. set (block := raw ++ trailer block_address trailer_address raw).
  assert (len block = len raw + kBlockTrailerSize) as Lb by (unfold block; by rewrite len_app, len_trailer).
  destruct (ad_index_mr _ _ _ _ _ _ _ _ A1) as (mi & Hmi & Lmi). destruct (ad_filter_mr _ _ _ _ _ _ _ _ A1) as (mf & Hmf & Lmf).
  assert (∀ i p, (i < 2)%nat → p ∈ drop polled1 posted1 → w_src p.1 ≠ i) as Hsrc.
  { intros i p Hi Hp. eapply out_ge; [apply (ad_ring _ _ _ _ _ _ _ _ A1)|done|apply (ad_bufs _ _ _ _ _ _ _ _ A1)|done]. }
  destruct (post_filter r1 c1 kvs posted1 polled1 I1 (ad_filter _ _ _ _ _ _ _ _ A1) R Hkvs ltac:(lia)) as (f & mrs & c2 & tail & E2 & I2 & Hmrs & L2 & Ht & Hk2 & Hm2);
    [by exists mf|intros p Hp; apply Hsrc; [lia|done]|]. rewrite E2. cbn [mbind result_bind]. unfold FinishDataIndexBlock.
  destruct (Block.Finish (index_block r1)) as [raw' ib] eqn:Eib. cbn [fst] in Efin. subst raw'. fold block.
  destruct (post_block c2 (posted1 ++ tail) polled1 0 mi block (FlushBuffer opt) I2) as (c3 & c4 & -> & E4 & I4 & _ & Q4 & K4 & C4); [by rewrite L2|lia|lia| |].
  { intros p. rewrite drop_app_le by lia. intros [Hp|Hp]%elem_of_app; [by apply Hsrc; [lia|]|]. by rewrite (proj1 (Forall_forall _ _) Ht p Hp). }
  cbn [mbind result_bind]. rewrite E4. set (w := MkWrite 0 _ _) in *. eexists _, _, _, posted1, _, polled1. split; [done|]. split; [|split_and!; [exact I4| | |]].
  - split; cbn [offset remote_data_mrs remote_dataindex_mrs remote_filter_mrs].
    + exists (groups ++ [rest]). split_and!; [|apply (ad_groups _ _ _ _ _ _ _ _ A1)|apply (ad_posted _ _ _ _ _ _ _ _ A1)].
      by rewrite (ad_done _ _ _ _ _ _ _ _ A), concat_app; cbn [concat]; rewrite app_nil_r.
    + apply (ad_mrs _ _ _ _ _ _ _ _ A1).
    + apply (ad_offset _ _ _ _ _ _ _ _ A1).
    + exists (index_block r1), sh, rs, w. split; [done|]. split; [|done]. apply elem_of_app. right. by left.
    + intros Hp. destruct (Hmrs Hp) as (f0 & fraw & f' & wf & E0 & Ef' & Hin & ->). exists f0, fraw, f', wf. split_and!; try done.
      apply elem_of_app. left. apply elem_of_app. by right.
    + rewrite <- app_assoc. by apply prefix_app_r.
  - rewrite !length_app, <- Hlen, Hk2. cbn [length]. rewrite (ad_filter _ _ _ _ _ _ _ _ A1). unfold new_filter. destruct (filter_policy opt); lia.
  - rewrite !length_app. lia.
  - unfold load in *. rewrite Q4, K4, C4, length_app. cbn [length]. lia.
Qed.

(** ** Runs *)

Definition job_inv (kvs : list kv) (s : job) : Prop :=
  match j_phase s with
  | Adding todo => ∃ done groups rest posted polled cur, kvs = done ++ todo ∧
      adding (j_rep s) (j_card s) done groups rest posted polled cur ∧ (done = [] ∨ rest ≠ []) ∧ len (data_bytes rest) ≤ FlushBuffer opt
  | Waiting num poll_num => ∃ posted all polled, posted_table kvs (j_rep s) posted all ∧ card_inv all polled (j_card s) ∧
      num - poll_num = Z.of_nat (length all - polled) ∧ (polled < length all)%nat ∧ 0 ≤ poll_num
  | Finished => ∃ posted all polled, posted_table kvs (j_rep s) posted all ∧ card_inv all polled (j_card s) ∧ total (j_card s) polled = length all
  end.

(** What is left to do: every step that changes anything lowers it. *)
Definition measure (s : job) : nat :=
  (match j_phase s with Adding todo => 4 * length todo + 11 | Waiting _ _ => 1 | Finished => 0 end +
   load (j_card s))%nat.

Lemma make_rep_ok remote0 kvs :
  room kvs → ∃ r c, make_rep opt local_slot remote0 = Ok (r, c) ∧ adding r c [] [] [] [] 0 2.
Proof using Hlocal. clear Hremote remote_slot.
  intros R. pose proof (rm_chunk _ R) as Hc. pose proof (rm_index _ R) as Hi. pose proof (rm_index_flush _ R) as Hf. pose proof (size_bound_pos (index_kvs 0 kvs)).
  unfold kBlockTrailerSize in *. destruct (building_start 1 ltac:(lia)) as (s0 & E0 & Hs0). unfold make_rep, Allocate_Local_RDMA_Slot, set_local.
  cbn [local remote queue carried completions length app]. rewrite E0. cbn [mbind result_bind at_index lookup list_lookup insert list_insert fst snd]. eexists _, _. split; [done|].
  split; cbn [bufs data_buff offset_last_flushed offset index_block filter_block last_key num_entries closed remote_data_mrs
    remote_dataindex_mrs remote_filter_mrs local local_data_mr]; try done.
  - split; try done. constructor.
  - split; [repeat constructor; set_solver|]. left. split_and!; try done. by exists 3%nat.
  - repeat constructor; eexists; (split; [done|]); apply Hlocal; lia.
  - by eexists.
  - eexists. split; [done|]. apply Hlocal. lia.
  - eexists. split; [done|]. unfold len. rewrite length_replicate. lia.
  - by exists [], [0%nat].
Qed.

(** The card keeps the invariant. *)
Lemma adding_card r c c' done groups rest posted polled cur :
  adding r c done groups rest posted polled cur → card_inv posted polled c' → local c' = local c →
  adding r c' done groups rest posted polled cur.
Proof. intros [] I E. split; rewrite ?E; done. Qed.

Lemma job_card kvs s c' :
  job_inv kvs s → (∀ posted polled, card_inv posted polled (j_card s) → card_inv posted polled c' ∧ (total (j_card s) polled ≤ total c' polled)%nat) →
  local c' = local (j_card s) → job_inv kvs (MkJob (j_rep s) c' (j_phase s)).
Proof.
  intros J Hc Hl. unfold job_inv in *. cbn [j_phase j_rep j_card]. destruct (j_phase s) as [todo|num poll_num|].
  - destruct J as (done & groups & rest & posted & polled & cur & E & A & H1 & H2). exists done, groups, rest, posted, polled, cur. split_and!; try done.
    eapply adding_card; [exact A| |done]. by apply Hc, (ad_card _ _ _ _ _ _ _ _ A).
  - destruct J as (posted & all & polled & P & I & H). exists posted, all, polled. split; [done|]. split; [by apply Hc|done].
  - destruct J as (posted & all & polled & P & I & H). exists posted, all, polled. destruct (Hc _ _ I) as [I' Ht]. pose proof (ci_total _ _ _ I').
    split_and!; [done|done|lia].
Qed.

(** What a turn of the wait does. *)
Lemma poll_turn_ok all polled c num poll_num :
  card_inv all polled c → num - poll_num = Z.of_nat (length all - polled) → (polled < length all)%nat → 0 ≤ poll_num →
  let c' := MkCard (local c) (remote c) (queue c) (carried c) 0 in
  card_inv all (polled + completions c) c' ∧
  if (polled + completions c <? length all)%nat then poll_turn c num poll_num = Ok (Some (poll_num + Z.of_nat (completions c)), c')
  else poll_turn c num poll_num = Ok (None, c') ∧ total c' (polled + completions c) = length all.
Proof.
  intros I Hn Hlt Hp c'. pose proof (ci_total _ _ _ I) as Ht. unfold total in Ht. pose proof (polled_ok all polled c I (completions c) ltac:(lia)) as I'.
  rewrite Nat.sub_diag in I'. split; [done|]. unfold poll_turn, poll_cq. rewrite Nat.min_r, Nat.sub_diag by lia. fold c'.
  destruct (Nat.ltb_spec (polled + completions c) (length all)).
  - by rewrite (proj2 (Z.ltb_lt _ _)) by lia.
  - rewrite (proj2 (Z.ltb_ge _ _)), (proj2 (Z.eqb_eq _ _)) by lia. cbn. split; [done|]. unfold total. cbn. lia.
Qed.

Lemma builder_step_ok kvs s :
  job_inv kvs s → room kvs → sorted_kvs kvs → kvs ≠ [] →
  ∃ s', builder_step opt local_slot remote_slot block_address trailer_address s = Ok s' ∧ job_inv kvs s' ∧
    ((measure s' < measure s)%nat ∨ s' = s ∧ (queue (j_card s) = [] → carried (j_card s) = 0%nat → j_phase s = Finished)).
Proof using Hlocal Hremote.
  destruct s as [r c ph]. intros J R So Hne. unfold builder_step. cbn [j_rep j_card j_phase] in *. destruct ph as [[|[k v] todo]|num poll_num|].
  - destruct J as (done & groups & rest & posted & polled & cur & E & A & H1 & H2). rewrite app_nil_r in E. subst done. cbn [j_rep j_card] in *.
    destruct (Finish_post_ok r c kvs groups rest posted polled cur A R) as (num & r' & c' & posted' & all & polled' & -> & P & I & En & Hlt & Hm); [naive_solver|done|].
    cbn [mbind result_bind]. eexists. split; [done|]. split; [|left; unfold measure; cbn [j_phase j_card length]; lia].
    exists posted', all, polled'. split_and!; try done. lia.
  - destruct J as (done & groups & rest & posted & polled & cur & E & A & H1 & H2). cbn [j_rep j_card] in *. rewrite cons_middle, app_assoc in E.
    rewrite E in R, So. apply room_prefix in R. apply sorted_prefix in So.
    destruct (table_Add_ok r c done groups rest posted polled cur k v A R So H2) as (r' & c' & groups' & rest' & posted' & polled' & cur' & -> & A' & Hr' & Hl' & Hm).
    cbn [mbind result_bind]. eexists. split; [done|]. split; [|left; unfold measure; cbn [j_phase j_card length]; lia].
    exists (done ++ [(k, v)]), groups', rest', posted', polled', cur'. split_and!; try done. by right.
  - destruct J as (posted & all & polled & P & I & En & Hlt & Hp). cbn [j_rep j_card] in *.
    destruct (poll_turn_ok all polled c num poll_num I En Hlt Hp) as [I' Hturn]. destruct (Nat.ltb_spec (polled + completions c) (length all)) as [Hc|Hc].
    + rewrite Hturn. cbn [mbind result_bind]. eexists. split; [done|]. split.
      { exists posted, all, (polled + completions c)%nat. split_and!; try done; lia. }
      destruct (completions c) as [|k] eqn:Ek; [right|left; unfold measure, load; cbn [j_phase j_card queue carried completions]; lia].
      rewrite Z.add_0_r. split; [destruct c; cbn in *; by subst|]. intros Eq Ec. pose proof (ci_queue _ _ _ I) as Hq. cbn [j_card] in *.
      unfold total in Hq. rewrite Eq, Ec, Ek in Hq. apply (f_equal length) in Hq. rewrite length_fmap, length_drop in Hq. cbn in Hq. lia.
    + destruct Hturn as [-> Ht]. cbn [mbind result_bind].
      assert (offset r =? file_size (remote_data_mrs r) = true) as ->.
      { destruct (pt_groups _ _ _ _ P) as (groups & Eg & _ & Ep). rewrite (pt_offset _ _ _ _ P), (pt_data _ _ _ _ P), file_size_regions, Ep, concat_groups, Eg.
        apply Z.eqb_refl. }
      cbn [require mbind result_bind]. eexists. split; [done|]. split; [by exists posted, all, (polled + completions c)%nat|].
      left. unfold measure, load. cbn [j_phase j_card queue carried completions]. lia.
  - exists (MkJob r c Finished). split_and!; try done. right. done.
Qed.

Lemma job_card_inv kvs s : job_inv kvs s → ∃ posted polled, card_inv posted polled (j_card s).
Proof. intros J. unfold job_inv in J. destruct (j_phase s); destruct J as (? & J); naive_solver eauto using ad_card. Qed.

Lemma job_step_ok kvs s s' :
  job_inv kvs s → room kvs → sorted_kvs kvs → kvs ≠ [] → job_step opt local_slot remote_slot block_address trailer_address s s' →
  job_inv kvs s' ∧ (s' = s ∨ (measure s' < measure s)%nat).
Proof using Hlocal Hremote.
  intros J R So Hne St. destruct St as [s s' E|s c' E|s].
  - destruct (builder_step_ok kvs s J R So Hne) as (s1 & E1 & J1 & Hm). assert (s1 = s') as -> by congruence.
    split; [done|]. destruct Hm as [Hm|[Hm _]]; auto.
  - destruct (job_card_inv kvs s J) as (posted & polled & I). destruct (carry_ok posted polled (j_card s) I) as (c1 & E1 & _ & Hl & _ & Hc & Hs & Hq & He).
    assert (c1 = c') as -> by congruence. split.
    + apply job_card; [done| |done]. intros posted' polled' I'. destruct (carry_ok posted' polled' (j_card s) I') as (c2 & E2 & I2 & _).
      assert (c2 = c') as -> by congruence.
      split; [done|]. unfold total. destruct (queue (j_card s)) eqn:Eq; [by rewrite He|]. specialize (Hq ltac:(done)). lia.
    + destruct (decide (queue (j_card s) = [])) as [Eq|Eq]; [left; rewrite He by done; by destruct s|right]. specialize (Hq Eq).
      unfold measure, load. cbn [j_phase j_card]. lia.
  - destruct (job_card_inv kvs s J) as (posted & polled & I). destruct (complete_ok posted polled (j_card s) I) as (_ & Hl & _). split.
    + apply job_card; [done| |done]. intros posted' polled' I'. destruct (complete_ok posted' polled' (j_card s) I') as (I2 & _). split; [done|].
      unfold total, complete. destruct (carried (j_card s)); cbn; lia.
    + unfold complete. destruct (carried (j_card s)) as [|k] eqn:Ek; [left; by destruct s|right]. unfold measure, load. cbn. lia.
Qed.

End build.
