(* ===== verification/LsmTableGet.v ===== *)
(** * dLSM: reading a table back

    A table that has been built can be opened, and a lookup in it finds the
    newest version of a key, whatever the interleaving of the builder and the
    network card was. *)
From S2P Require Import Prelude LsmCoding LsmCrc32c LsmFile LsmFormat LsmBlock LsmBlockRefine LsmFilter LsmMemTable LsmFlush LsmTable LsmTableBuild.
Import Coding Crc32c Format Table.

Lemma first_index_fmap {A B} (p : B → bool) (f : A → B) (l : list A) : first_index p (f <$> l) = first_index (λ x, p (f x)) l.
Proof. induction l as [|x l IH]; [done|]. cbn. by rewrite IH. Qed.

(** ** Finding an entry *)

(** An entry never straddles two regions. *)
Lemma upper_bound_entry groups posted base l1 e l2 :
  posted.*2 = data_bytes <$> groups → concat groups = l1 ++ e :: l2 →
  ∃ k w pre post, (w, pre ++ kv_bytes e ++ post) ∈ posted ∧
    upper_bound (base + len (data_bytes l1)) (regions base posted) = Ok (k, MkMr (w_dst w) 0 (len (pre ++ kv_bytes e ++ post))) ∧
    base ≤ k - len (pre ++ kv_bytes e ++ post) ∧ k ≤ base + len (data_bytes (concat groups)) ∧
    base + len (data_bytes l1) - (k - len (pre ++ kv_bytes e ++ post)) = len pre.
Proof.
  revert posted base l1. induction groups as [|g groups IH]; intros [|[w bs] posted] base l1 Ep Ec; try done; [by destruct l1|].
  cbn [fmap list_fmap snd] in Ep. injection Ep as -> Ep. cbn [concat] in Ec |- *. cbn [regions upper_bound]. rewrite (data_bytes_app g).
  rewrite len_app. pose proof (len_pos (data_bytes (concat groups))) as Hrest. pose proof (len_pos (data_bytes l1)) as Hl1. pose proof (len_pos (data_bytes g)) as Hg.
  destruct (decide (length l1 < length g)%nat) as [Hlt|Hge].
  - assert (∃ g', g = l1 ++ e :: g') as [g' ->].
    { pose proof (f_equal (take (length g)) Ec) as E. rewrite take_app_length, take_app_ge in E by lia.
      destruct (length g - length l1)%nat as [|m] eqn:Em; [lia|]. cbn in E. by eexists. }
    assert (data_bytes (l1 ++ e :: g') = data_bytes l1 ++ kv_bytes e ++ data_bytes g') as Eb by (by rewrite data_bytes_app, data_bytes_cons).
    assert (len (data_bytes l1) < len (data_bytes (l1 ++ e :: g'))) as Hpos.
    { rewrite data_bytes_app, len_app. pose proof (data_bytes_pos (e :: g') ltac:(done)). lia. }
    exists (base + len (data_bytes (l1 ++ e :: g'))), w, (data_bytes l1), (data_bytes g'). rewrite <- Eb.
    rewrite (proj2 (Z.ltb_lt _ _)) by lia. split_and!; [by left|done|lia|lia|lia].
  - assert (∃ l, l1 = g ++ l) as [l ->].
    { exists (drop (length g) l1). pose proof (f_equal (take (length g)) Ec) as E. rewrite take_app_length, take_app_le in E by lia.
      rewrite E at 1. by rewrite take_drop. }
    rewrite <- app_assoc in Ec. apply app_inv_head in Ec. rewrite data_bytes_app, len_app in *. pose proof (len_pos (data_bytes l)).
    rewrite (proj2 (Z.ltb_ge _ _)) by lia. destruct (IH posted (base + len (data_bytes g)) l Ep Ec) as (k & w' & pre & post & Hin & E & H1 & H2 & H3).
    exists k, w', pre, post. rewrite Z.add_assoc, E. split_and!; [by right|done|lia|lia|lia].
Qed.

Lemma index_kvs_lookup base kvs i e :
  kvs !! i = Some e → index_kvs base kvs !! i = Some (e.1, handle_bytes (base + len (data_bytes (take i kvs))) (kv_size e.1 e.2)).
Proof.
  revert base i. induction kvs as [|x kvs IH]; intros base [|i] He; try done.
  - injection He as ->. cbn [index_kvs lookup list_lookup take]. change (len (data_bytes [])) with 0. by rewrite Z.add_0_r.
  - cbn [index_kvs take lookup list_lookup]. rewrite (IH _ i He), data_bytes_cons, len_app, len_kv_bytes, Z.add_assoc. done.
Qed.

(** Checksums of blocks. *)
Lemma checksum_right block_address trailer_address raw :
  Forall byte raw → checksum_ok block_address (raw ++ trailer block_address trailer_address raw) (len raw) = Ok true.
Proof.
  intros Hb. unfold checksum_ok, trailer. rewrite app_assoc, zdrop_app, ztake_app by (rewrite len_app; done).
  assert (Forall byte [kNoCompression]) as H0 by (repeat constructor; done). unfold Value.
  rewrite (Extend_crc32c _ _ raw), !Extend_crc32c by (done || by apply crc32c_fits || by apply Forall_app_2). rewrite crc32c_app.
  destruct (Unmask_Mask (crc32c 0 (raw ++ [kNoCompression]))) as [Eu Hf]; [apply crc32c_fits; [done|by apply Forall_app_2]|].
  rewrite <- (app_nil_r (EncodeFixed32 _)). unfold EncodeFixed32, DecodeFixed32. rewrite decode_fixed_encode by done. cbn [mbind result_bind].
  by rewrite Eu, Z.eqb_refl.
Qed.

Lemma EncodeVarint64_byte v : fits 64 v → Forall byte (EncodeVarint64 v).
Proof. intros Hv. rewrite EncodeVarint64_septets by done. apply septets_byte. unfold fits in Hv. cbn. lia. Qed.

Lemma index_kvs_byte base kvs :
  0 ≤ base → base + len (data_bytes kvs) < 2 ^ 64 → Forall (λ e, Forall byte e.1) kvs → Forall (λ e, Forall byte e.1 ∧ Forall byte e.2) (index_kvs base kvs).
Proof.
  intros H0 Hs Hk. revert base H0 Hs. induction Hk as [|e kvs He Hk IH]; intros base H0 Hs; [constructor|]. cbn [index_kvs].
  rewrite data_bytes_cons, len_app, len_kv_bytes in Hs. pose proof (len_pos (data_bytes kvs)). pose proof (len_pos e.1). pose proof (len_pos e.2). unfold kv_size in *.
  constructor; [|apply IH; lia]. split; [done|]. apply Forall_app_2; apply EncodeVarint64_byte; split; lia.
Qed.

Lemma contents_byte kvs sh rs :
  layout kvs sh rs → Forall (λ e, Forall byte e.1 ∧ Forall byte e.2) kvs → Forall (λ e, len e.2 < 2 ^ 32) kvs → Forall byte (contents kvs sh rs).
Proof.
  intros Hl Hb Hv. unfold contents. apply Forall_app_2.
  - apply Forall_concat, Forall_lookup. intros i x Hx. unfold ebs in Hx. apply lookup_zip_with_Some in Hx as (s & e & -> & Hs & He).
    pose proof (ly_within _ _ _ Hl i s e Hs He). pose proof (ly_keys _ _ _ Hl i e He). destruct (proj1 (Forall_lookup _ _) Hb i e He).
    pose proof (proj1 (Forall_lookup _ _) Hv i e He). pose proof (len_pos e.2). cbn in *. unfold entry_bytes, header.
    repeat apply Forall_app_2; try done; [..|by apply Forall_drop]; apply EncodeVarint32_bytes; split; lia.
  - unfold LsmBlock.trailer. apply Forall_app_2; [|apply le_bytes_byte]. apply Forall_concat, Forall_fmap, Forall_forall. intros. apply le_bytes_byte.
Qed.

(** ** A finished table *)

(** Every write is in place. *)
Definition in_place (all : list (write * list Z)) (mem : list (list Z)) : Prop :=
  ∀ w bs, (w, bs) ∈ all → ∃ slot, mem !! w_dst w = Some slot ∧ ztake (len bs) slot = bs.

Lemma carried_in_place all polled c : card_inv all polled c → total c polled = length all → in_place all (remote c).
Proof.
  intros I Hall w bs (i & Hi)%list_elem_of_lookup. destruct (ci_slot _ _ _ I i w bs Hi) as (slot & Hs & Hl). exists slot. split; [done|].
  rewrite (ci_size _ _ _ I i w bs Hi). eapply (ci_done _ _ _ I); [exact Hi| |exact Hs]. pose proof (lookup_lt_Some _ _ _ Hi). lia.
Qed.

Section finished.
Context (opt : options) (block_address trailer_address : nat) (n : nat).
Context (kvs : list kv) (r : rep) (posted all : list (write * list Z)) (mem : list (list Z)).
Context (P : posted_table opt block_address trailer_address kvs r posted all) (I : in_place all mem).
Context (R : room opt kvs) (So : sorted_kvs n kvs) (Hne : kvs ≠ []).

(** The metadata of a table that this builder made. *)
Definition meta_of (r : rep) : metadata := MkMeta byte_addressable (remote_data_mrs r) (remote_dataindex_mrs r) (remote_filter_mrs r).

Lemma read_carried w pre x post L :
  (w, pre ++ x ++ post) ∈ all → RDMA_Read mem (MkMr (w_dst w) (len pre) L) (len x) = Ok x.
Proof using I.
  intros Hin. destruct (I w _ Hin) as (slot & Hs & Hd).
  assert (∃ rest, slot = (pre ++ x ++ post) ++ rest) as [rest ->] by (eexists; rewrite <- Hd at 1; by rewrite ztake_zdrop).
  unfold RDMA_Read, at_index. cbn [mr_slot mr_pos]. rewrite Hs. cbn [mbind result_bind].
  pose proof (len_pos pre). pose proof (len_pos post). pose proof (len_pos rest). rewrite !len_app.
  rewrite (proj2 (Z.leb_le 0 _)), (proj2 (Z.leb_le (len pre + len x) _)) by lia. cbn [andb]. rewrite <- !app_assoc, zdrop_app by done. by rewrite ztake_app.
Qed.

Lemma fetch_ok t l1 e l2 s :
  data_mrs (t_meta t) = remote_data_mrs r → kvs = l1 ++ e :: l2 →
  fetch opt mem t (handle_bytes (len (data_bytes l1)) (kv_size e.1 e.2)) s = SaveValue s e.1 e.2.
Proof using P I R.
  intros Et Ek. destruct (pt_groups _ _ _ _ _ _ _ P) as (groups & Eg & _ & Ep).
  destruct (upper_bound_entry groups posted 0 l1 e l2 Ep (eq_trans Eg Ek)) as (k & w & pre & post & Hin & Eu & H1 & H2 & H3).
  rewrite Eg in H2. rewrite Z.add_0_l in *.
  pose proof (rm_data _ _ R) as Hd. pose proof (rm_entry _ _ R) as He.
  assert (e ∈ kvs) as Hine by (rewrite Ek; apply elem_of_app; right; by left). destruct (proj1 (Forall_forall _ _) He e Hine) as [He1 He2].
  assert (len (data_bytes kvs) = len (data_bytes l1) + kv_size e.1 e.2 + len (data_bytes l2)) as El.
  { rewrite Ek, data_bytes_app, data_bytes_cons, !len_app, len_kv_bytes. lia. }
  pose proof (len_pos (data_bytes l1)). pose proof (len_pos (data_bytes l2)). pose proof (len_pos e.1). pose proof (len_pos e.2). pose proof (len_pos pre).
  assert (0 ≤ kv_size e.1 e.2) as Hkv by (unfold kv_size; lia). unfold fetch, DecodeFrom, handle_bytes, kBlockTrailerSize in *.
  rewrite GetVarint64_Encode by (split; lia). cbn [mbind option_bind]. rewrite <- (app_nil_r (EncodeVarint64 (kv_size _ _))), GetVarint64_Encode by (split; lia).
  cbn [mbind option_bind]. unfold ReadKVPair, Find_Remote_MR, kBlockTrailerSize. cbn [handle_size handle_offset].
  rewrite wrap_small, (proj2 (Z.leb_le _ _)) by (done || (split; lia)). cbn [require mbind result_bind]. rewrite Et, (pt_data _ _ _ _ _ _ _ P), Eu.
  cbn [mbind result_bind mr_length mr_slot mr_pos]. rewrite (wrap_small 64 (k - _)) by (split; lia). rewrite H3, wrap_small by (split; lia).
  rewrite Z.add_0_l, <- len_kv_bytes. erewrite read_carried by (by eapply elem_of_prefix, pt_posted). cbn [mbind result_bind]. unfold kv_bytes, EncodeFixed32, kv_size, GetFixed32 in *.
  rewrite get_fixed_encode by (split; lia). rewrite get_fixed_encode by (split; lia). rewrite len_app, wrap_small, Z.eqb_refl, (proj2 (Z.leb_le _ _)) by (lia || (split; lia)).
  cbn [require mbind result_bind]. by rewrite ztake_app, zdrop_app, Z.eqb_refl by done.
Qed.

Lemma block_type raw : at_index (raw ++ trailer block_address trailer_address raw) (Z.to_nat (len raw)) = Ok kNoCompression.
Proof.
  unfold at_index, len. rewrite Nat2Z.id, lookup_app_r, Nat.sub_diag by lia. done.
Qed.

Lemma paranoid_right raw :
  Forall byte raw →
  (if paranoid_checks opt then checksum_ok block_address (raw ++ trailer block_address trailer_address raw) (len raw) else Ok true) = Ok true.
Proof. intros Hb. destruct (paranoid_checks opt); [|done]. by apply checksum_right. Qed.

(** A whole block is read. *)
Lemma read_block w raw :
  let block := raw ++ trailer block_address trailer_address raw in
  (w, block) ∈ all → len block < 2 ^ 64 →
  u64 (len block - kBlockTrailerSize) = len raw ∧ u64 (len raw + kBlockTrailerSize) = len block ∧
  RDMA_Read mem (MkMr (w_dst w) 0 (len block)) (len raw + kBlockTrailerSize) = Ok block.
Proof using I.
  intros block Hin Hl. assert (len block = len raw + kBlockTrailerSize) as Lb by (unfold block; by rewrite len_app, len_trailer).
  pose proof (len_pos raw). pose proof (len_pos block). rewrite <- Lb. split; [|split].
  - rewrite Lb, Z.add_simpl_r. apply wrap_small. unfold kBlockTrailerSize in *. split; lia.
  - apply wrap_small. split; lia.
  - apply (read_carried w [] block []). by rewrite app_nil_r.
Qed.

Definition index_opened (t : table) (sh : list Z) (rs : list nat) (it : Block.iter) : Prop :=
  layout (index_kvs 0 kvs) sh rs ∧ Block.NewIterator (t_index t) = Ok (Some (src (index_kvs 0 kvs) sh rs, it)) ∧
  ended (index_kvs 0 kvs) sh rs it ∧ Block.num_entries it = 0.

Definition filter_right (o : option Filter.reader) : Prop :=
  match o with
  | Some f => (∀ e, e ∈ kvs → Filter.KeyMayMatch f (user_of e.1) = Ok true) ∧ ∀ k, ∃ b, Filter.KeyMayMatch f k = Ok b
  | None => True
  end.

Lemma ReadFilter_ok : ∃ o, ReadFilter opt block_address mem (meta_of r) = Ok o ∧ filter_right o.
Proof using P I R Hne.
  unfold ReadFilter. destruct (filter_policy opt) eqn:Hp; [|by exists None].
  destruct (pt_filter _ _ _ _ _ _ _ P Hp) as (f & raw & f' & w & Ef & Efin & Hin & Em). cbn [meta_of filter_mrs]. rewrite Em.
  cbn [at_index lookup list_lookup mbind result_bind]. unfold ReadFilterBlock.
  pose proof (rm_filter _ _ R Hp) as Hf. pose proof (rm_chunk _ _ R). unfold new_filter in Ef. rewrite Hp in Ef. injection Ef as <-.
  set (keys := (λ e, user_of e.1) <$> kvs) in *. assert (len keys = len kvs) as El by (unfold len, keys; by rewrite length_fmap).
  destruct (finished_filter (replicate (Z.to_nat (FilterChunk opt)) 0) (bloom_bits opt) keys) as (raw' & s & rd & E & Er & Hm & Ha & Hl & Hb).
  { by apply (rm_bits _ _ R). } { by intros Ek%fmap_nil_inv. } { rewrite El. by apply (rm_bits_all _ _ R). }
  { rewrite El. unfold kBlockTrailerSize in Hf. unfold len at 2. rewrite length_replicate. lia. }
  rewrite E in Efin. injection Efin as -> ->. rewrite El in Hl. pose proof (rm_bits_all _ _ R Hp).
  assert (len kvs * bloom_bits opt / 8 < 2 ^ 32) by (apply Z.div_lt_upper_bound; lia).
  assert (len (raw ++ trailer block_address trailer_address raw) = len raw + kBlockTrailerSize) as Lb by (by rewrite len_app, len_trailer).
  destruct (read_block w raw Hin) as (E1 & E2 & E3); [rewrite Lb; unfold kBlockTrailerSize in *; lia|]. cbn [mr_length]. rewrite E1, E2, E3.
  rewrite Lb, (proj2 (Z.ltb_lt _ _)) by lia. cbn [require mbind result_bind].
  rewrite paranoid_right by (by apply Hb, Forall_replicate). cbn [mbind result_bind]. rewrite block_type. cbn [mbind result_bind]. rewrite ztake_app by done. change (kNoCompression =? kNoCompression) with true.
  rewrite (proj2 (Z.eqb_neq _ _)) by lia. cbn [negb require mbind result_bind]. rewrite Er. exists (Some rd). split; [done|]. split; [|done]. intros e He. apply Hm, list_elem_of_fmap. by exists e.
Qed.

Lemma Open_ok :
  ∃ t sh rs it, Open opt block_address mem (meta_of r) = Ok t ∧ t_meta t = meta_of r ∧ index_opened t sh rs it ∧ filter_right (t_filter t).
Proof using P I R Hne So.
  destruct (pt_index _ _ _ _ _ _ _ P) as (s & sh & rs & w & Hb & Hin & Em). set (raw := contents (index_kvs 0 kvs) sh rs) in *.
  assert (len (index_kvs 0 kvs) = len kvs) as Ek by (unfold len; f_equal; rewrite <- (length_fmap fst), index_kvs_keys; apply length_fmap).
  destruct (finished_opens 1 s _ sh rs Hb) as (_ & bl & it & Ebl & Hsz & Eit & Hend & Hz); [rewrite Ek; apply (rm_count _ _ R)|]. fold raw in Ebl.
  pose proof (index_length _ _ _ _ _ Hb R) as Hil. fold raw in Hil. pose proof (rm_index _ _ R) as Hi. pose proof (rm_index_chunk _ _ R).
  assert (4 ≤ len raw) as H4.
  { unfold raw, contents, LsmBlock.trailer. rewrite !len_app. unfold EncodeFixed32, len at 3. rewrite length_le_bytes. pose proof (len_pos (concat (ebs (index_kvs 0 kvs) sh))).
    pose proof (len_pos (concat ((λ x, le_bytes 4 x) <$> (off (index_kvs 0 kvs) sh <$> rs)))). lia. }
  assert (len (raw ++ trailer block_address trailer_address raw) = len raw + kBlockTrailerSize) as Lb by (by rewrite len_app, len_trailer).
  destruct (read_block w raw Hin) as (E1 & E2 & E3); [rewrite Lb; unfold kBlockTrailerSize in *; lia|].
  assert (Forall byte raw) as Hbyte.
  { pose proof (rm_data _ _ R). apply contents_byte; [apply Hb| |].
    - apply index_kvs_byte; [done|lia|]. eapply Forall_impl; [apply (so_keys _ _ So)|]. by intros e [? _].
    - apply Forall_forall. intros e He%size_bound_elem. pose proof (len_pos e.1). unfold kBlockTrailerSize in *. lia. }
  destruct ReadFilter_ok as (o & Eo & Ho). unfold Open. cbn [meta_of dataindex_mrs]. rewrite Em. cbn [at_index lookup list_lookup mbind result_bind].
  unfold ReadDataIndexBlock. cbn [mr_length]. rewrite E1, E2, E3, Lb, (proj2 (Z.ltb_lt 0 _)), (proj2 (Z.ltb_lt _ (IndexChunk opt))) by lia.
  cbn [require mbind result_bind].
  rewrite paranoid_right by done. cbn [require mbind result_bind]. rewrite block_type. cbn [mbind result_bind]. rewrite ztake_app by done. change (kNoCompression =? kNoCompression) with true.
  cbn [require mbind result_bind]. rewrite Ebl. cbn [mbind result_bind]. rewrite (proj2 (Z.ltb_lt _ _)) by done. cbn [require mbind result_bind]. rewrite Eo.
  cbn [mbind result_bind]. eexists _, sh, rs, it. split; [done|]. split; [done|]. split; [|done]. split_and!; try done. apply Hb.
Qed.

(** ** Lookups *)

Lemma index_seek t sh rs it k :
  index_opened t sh rs it → Forall byte k → (8 ≤ length k ≤ n + 8)%nat →
  let b := src (index_kvs 0 kvs) sh rs in
  ∃ it', Block.Seek InternalCompare b it k = Ok it' ∧
  match first_index (λ e, internal_rank n k <=? internal_rank n e.1) kvs with
  | Some i => ∃ e, kvs !! i = Some e ∧ Block.Valid b it' = true ∧ Block.key b it' = Ok e.1 ∧
      Block.value b it' = Ok (handle_bytes (len (data_bytes (take i kvs))) (kv_size e.1 e.2))
  | None => Block.Valid b it' = false
  end.
Proof using So. clear P I R Hne.
  intros (Hl & _ & Hend & Hz) Hb Hk b. destruct So as [Hkeys Ho].
  assert (∀ p : list Z → bool, first_index (λ e, p e.1) (index_kvs 0 kvs) = first_index (λ e, p e.1) kvs) as Hfi.
  { intros p. rewrite <- !(first_index_fmap p fst). by rewrite index_kvs_keys. }
  assert (Forall (λ e : kv, Forall byte e.1 ∧ (8 ≤ length e.1 ≤ n + 8)%nat) (index_kvs 0 kvs)) as Hg.
  { assert (Forall (λ x, Forall byte x ∧ (8 ≤ length x ≤ n + 8)%nat) (index_kvs 0 kvs).*1) as Hf by (rewrite index_kvs_keys; by apply Forall_fmap).
    by apply Forall_fmap in Hf. }
  pose proof (step_ok InternalCompare (KeyOrder0 := InternalOrder n) (index_kvs 0 kvs) sh rs Hl Hg) as H.
  specialize (H ltac:(apply ascending_keys; rewrite index_kvs_keys; by apply ascending_keys)).
  specialize (H ltac:(eapply Forall_impl; [exact Hg|]; intros e [_ He]; unfold len; cbn in *; lia) it (MkCursor None None) (CSeek k)).
  destruct H as (it' & E & [Hp _]); [by split|by split|]. exists it'. split; [exact E|]. cbn [cursor_step pos] in Hp.
  change (@key_rank InternalCompare (InternalOrder n)) with (internal_rank n) in Hp. rewrite (Hfi (λ x, internal_rank n k <=? internal_rank n x)) in Hp.
  pose proof (observe_ok _ _ _ Hl it' _ Hp) as Hobs. fold b in Hobs. destruct (first_index _ kvs) as [i|] eqn:Ei.
  - apply first_index_lt in Ei as Hi. destruct (lookup_lt_is_Some_2 _ _ Hi) as [e He]. exists e. split; [done|]. cbn [mbind option_bind] in Hobs.
    rewrite (index_kvs_lookup 0 kvs i e He), Z.add_0_l in Hobs.
    unfold observe in Hobs. destruct (Block.Valid b it'); [|discriminate]. destruct (Block.key b it') as [x|]; [|discriminate]. cbn [mbind result_bind] in Hobs.
    destruct (Block.value b it') as [y|]; [|discriminate]. cbn [mbind result_bind] in Hobs. by injection Hobs as -> ->.
  - by apply (valid_ended _ _ _ it').
Qed.

Section versions.
Context (ks : list version) (Eks : kvs = kv_of <$> ks) (Hok : Forall (version_ok n) ks) (Hd : distinct ks).

(** What [SaveValue] does for a version of the key that is looked for. *)
Definition saved (s : Saver) (v : version) : Saver :=
  match v_type v with
  | kTypeValue => MkSaver kFound (saver_user_key s) (v_value v)
  | kTypeDeletion => MkSaver kDeleted (saver_user_key s) (saver_value s)
  end.

Lemma internal_rank_internal u z : fits 64 z → internal_rank n (internal u z) = lexrank n u * 2 ^ 64 + (2 ^ 64 - 1 - z).
Proof. clear.
  intros Hz. unfold internal_rank. rewrite length_internal, Nat.add_sub. unfold internal. rewrite take_app_length, drop_app_length.
  unfold EncodeFixed64. by rewrite (le_num_le_bytes 8).
Qed.

Lemma user_of_internal u z : user_of (internal u z) = u.
Proof. clear. unfold user_of. rewrite length_internal, Nat.add_sub. apply take_app_length. Qed.

Lemma SaveValue_version v s :
  version_ok n v → SaveValue s (kv_of v).1 (kv_of v).2 = Ok (if bool_decide (v_key v = saver_user_key s) then saved s v else s).
Proof. clear.
  intros Hv. unfold SaveValue, kv_of. cbn [fst snd]. rewrite (ParseInternalKey_version n v Hv). cbn [mbind result_bind user_key type].
  destruct (Z.eqb_spec (slice_compare (v_key v) (saver_user_key s)) 0) as [E|E]; rewrite slice_compare_eq in E.
  - rewrite bool_decide_eq_true_2 by done. unfold saved. by destruct (v_type v).
  - by rewrite bool_decide_eq_false_2.
Qed.

(** A lookup gives [SaveValue] the first entry that is not before the target, if
    its user key is the right one. *)
Lemma InternalGet_first t sh rs it k z s :
  index_opened t sh rs it → t_meta t = meta_of r → filter_right (t_filter t) → Forall byte k → (length k ≤ n)%nat → fits 64 z → saver_user_key s = k →
  InternalGet opt mem t (internal k z) s =
    Ok (match first_index (λ v, internal_rank n (internal k z) <=? rank_v n v) ks ≫= (ks !!.) with
        | Some v => if bool_decide (v_key v = k) then saved s v else s
        | None => s
        end).
Proof using P I R So Eks Hok.
  intros Ho Em Hf Hk Hn Hz Es. unfold InternalGet. rewrite ExtractUserKey_internal. cbn [mbind result_bind].
  set (found := first_index _ ks ≫= _).
  assert (∀ v, found = Some v → v ∈ ks ∧ version_ok n v) as Hfound.
  { intros v Hv. unfold found in Hv. destruct (first_index _ ks); [|done]. apply list_elem_of_lookup_2 in Hv. split; [done|]. by eapply Forall_forall in Hok. }
  assert (∃ b, match t_filter t with Some f => Filter.KeyMayMatch f k | None => Ok true end = Ok b ∧ (b = false → ∀ v, v ∈ ks → v_key v ≠ k)) as (b & -> & Hb).
  { destruct (t_filter t) as [f|]; [|by exists true]. destruct Hf as [Hyes Hans]. destruct (Hans k) as [b Eb]. exists b. split; [done|]. intros -> v Hv <-.
    specialize (Hyes (kv_of v) ltac:(rewrite Eks; by apply list_elem_of_fmap_2)). unfold kv_of in Hyes. cbn [fst] in Hyes. rewrite user_of_internal in Hyes. congruence. }
  cbn [mbind result_bind]. destruct b; cbn [negb]; cycle 1.
  { destruct found as [v|]; [|done]. rewrite bool_decide_eq_false_2; [done|]. by apply Hb, Hfound. }
  rewrite Em. change (meta_type (meta_of r) =? block_based) with false. cbv iota. unfold get_byte_addressable.
  destruct Ho as (Hl & Ei & Hrest). rewrite Ei. cbn [mbind result_bind].
  destruct (index_seek t sh rs it (internal k z)) as (it' & -> & Hseek); [exact (conj Hl (conj Ei Hrest))| |rewrite length_internal; lia|].
  { apply Forall_app_2; [done|apply le_bytes_byte]. }
  cbn [mbind result_bind].
  assert (first_index (λ e, internal_rank n (internal k z) <=? internal_rank n e.1) kvs = first_index (λ v, internal_rank n (internal k z) <=? rank_v n v) ks) as Efi.
  { rewrite Eks, first_index_fmap. apply first_index_ext. intros v Hv. unfold kv_of. cbn [fst]. pose proof (proj1 (Forall_forall _ _) Hok v Hv) as Hvo.
    by rewrite (internal_rank_internal (v_key v)), rank_v_eq by (done || by eapply v_tag_fits). }
  rewrite Efi in Hseek. subst found. destruct (first_index _ ks) as [i|]; cycle 1. { by rewrite Hseek. }
  destruct Hseek as (e & He & -> & -> & ->). cbn [mbind result_bind option_bind]. pose proof He as Hv. rewrite Eks, list_lookup_fmap in Hv.
  destruct (ks !! i) as [v|] eqn:Ev; [|done]. injection Hv as <-. destruct (Hfound v Ev) as [_ Hvo].
  pose proof (ParseInternalKey_version n v Hvo : ParseInternalKey (kv_of v).1 = _) as ->. cbn [mbind result_bind user_key].
  rewrite (fetch_ok t (take i kvs) (kv_of v) (drop (S i) kvs)); [|by rewrite Em|symmetry; by apply take_drop_middle].
  rewrite SaveValue_version by done. rewrite Es. destruct (Z.eqb_spec (slice_compare (v_key v) k) 0) as [E|E]; rewrite slice_compare_eq in E; [done|].
  by rewrite bool_decide_eq_false_2.
Qed.

Lemma first_newest k seq s :
  version_ok n (MkVersion seq kTypeValue k []) → ascending (rank_v n) ks →
  match first_index (λ v, internal_rank n (internal k (seq * 256 + 1)) <=? rank_v n v) ks ≫= (ks !!.) with
  | Some v => if bool_decide (v_key v = k) then saved s v else s
  | None => s
  end = from_option (saved s) s (newest k seq ks).
Proof using Hok Hd. clear P I R So Hne Eks.
  intros Hk Ha. pose proof (seek_tag_fits n k seq Hk) as Hz. unfold seek_tag in Hz. rewrite internal_rank_internal by done. rewrite Forall_forall in Hok.
  destruct (first_index _ ks) as [i|] eqn:Ei; cbn [mbind option_bind]; cycle 1.
  { rewrite first_index_None in Ei. rewrite newest_none; [done|]. intros w (j & Hj)%list_elem_of_lookup Hw. specialize (Ei j w Hj).
    apply Z.leb_gt in Ei. pose proof (rank_visible n k seq w ltac:(eapply Hok, list_elem_of_lookup_2; done) Hw). unfold seek_tag in *. lia. }
  apply first_index_Some in Ei as [(v & Hv & Hr%Z.leb_le) Hbefore]. rewrite Hv. pose proof (list_elem_of_lookup_2 _ _ _ Hv) as Hin.
  assert (∀ w, w ∈ ks → visible k seq w → rank_v n v ≤ rank_v n w) as Hless.
  { intros w Hw Hvis. pose proof (rank_visible n k seq w (Hok w Hw) Hvis) as Hrw. apply list_elem_of_lookup in Hw as [j Hj]. unfold seek_tag in Hrw.
    destruct (decide (j < i)%nat) as [Hlt|Hge]; [specialize (Hbefore j w Hlt Hj); apply Z.leb_gt in Hbefore; lia|].
    destruct (decide (j = i)) as [->|]; [by simplify_eq|]. pose proof (ascending_lookup _ _ i j _ _ Ha ltac:(lia) Hv Hj). lia. }
  case_bool_decide as Ek.
  - rewrite (newest_eq k seq ks v); [done|done|done|by apply (rank_same_key n); auto|]. intros w Hw Hwv. specialize (Hless w Hw Hwv).
    destruct Hwv as [Hwk _]. rewrite !rank_v_eq, Ek, Hwk in Hless by auto. unfold v_tag in Hless. destruct (v_type v), (v_type w); cbn in Hless; lia.
  - rewrite newest_none; [done|]. intros w Hw Hwv. specialize (Hless w Hw Hwv).
    pose proof (rank_other_key n k seq Hk v (Hok v Hin) Ek Hr). pose proof (rank_visible n k seq w (Hok w Hw) Hwv). lia.
Qed.

End versions.

End finished.

(** ** Tables of versions *)

Section table.
Context (opt : options) (local_slot remote_slot : Z → nat → list Z) (block_address trailer_address : nat) (n : nat).
Context (Hlocal : ∀ size i, 0 ≤ size → len (local_slot size i) = size) (Hremote : ∀ size i, 0 ≤ size → len (remote_slot size i) = size).

(** Versions in the order of a table. *)
Record in_order (ks : list version) : Prop := {
  io_some : ks ≠ [];
  io_ok : Forall (version_ok n) ks;
  io_order : ascending (rank_v n) ks;
  io_distinct : distinct ks;
}.

Lemma in_order_sorted ks : in_order ks → sorted_kvs n (kv_of <$> ks).
Proof.
  intros [_ Hok Ho _]. rewrite Forall_forall in Hok. split.
  - apply Forall_fmap, Forall_forall. intros v Hv. specialize (Hok v Hv). cbn. rewrite length_internal. pose proof (ok_short _ _ Hok). split; [|lia].
    apply Forall_app_2; [apply Hok|apply le_bytes_byte].
  - apply ascending_fmap. rewrite <- list_fmap_compose. apply ascending_fmap in Ho.
    erewrite list_fmap_ext; [exact Ho|]. intros i v Hv%list_elem_of_lookup_2. cbn. pose proof (Hok v Hv).
    rewrite internal_rank_internal, rank_v_eq by (done || by eapply v_tag_fits). done.
Qed.

Lemma job_start remote0 kvs :
  room opt kvs → ∃ r c, make_rep opt local_slot remote0 = Ok (r, c) ∧ job_inv opt block_address trailer_address kvs (MkJob r c (Adding kvs)).
Proof using Hlocal. clear Hremote remote_slot.
  intros R. destruct (make_rep_ok opt local_slot Hlocal remote0 kvs R) as (r & c & E & A). exists r, c. split; [done|].
  exists [], [], [], [], 0%nat, 2%nat. split_and!; [done|done|by left|]. change (len (data_bytes [])) with 0.
  pose proof (rm_index_flush _ _ R). pose proof (size_bound_pos (index_kvs 0 kvs)). unfold kBlockTrailerSize in *. lia.
Qed.

#[local] Notation job_step := (job_step opt local_slot remote_slot block_address trailer_address).
#[local] Notation builder_step := (builder_step opt local_slot remote_slot block_address trailer_address).
#[local] Notation job_inv := (job_inv opt block_address trailer_address).

(** A step that does something. *)
Definition changing_step (s s' : job) : Prop := job_step s s' ∧ s' ≠ s.

Section run.
Context (kvs : list kv) (R : room opt kvs) (So : sorted_kvs n kvs) (Hne : kvs ≠ []).

Lemma job_run s s' : job_inv kvs s → rtc job_step s s' → job_inv kvs s'.
Proof using Hlocal Hremote R So Hne.
  intros J Hr. induction Hr as [|s s1 s2 Hs _ IH]; [done|]. apply IH.
  exact (proj1 (job_step_ok opt local_slot remote_slot block_address trailer_address n Hlocal Hremote kvs s s1 J R So Hne Hs)).
Qed.

Lemma job_terminates s : job_inv kvs s → sn changing_step s.
Proof using Hlocal Hremote R So Hne.
  remember (measure s) as m eqn:Em. revert s Em. induction (lt_wf m) as [m _ IH]. intros s -> J. constructor. intros s' [Hs Hc].
  destruct (job_step_ok opt local_slot remote_slot block_address trailer_address n Hlocal Hremote kvs s s' J R So Hne Hs) as [J' [->|Hm]]; [done|].
  by eapply IH.
Qed.

Lemma job_stops s : job_inv kvs s → (∀ s', ~ changing_step s s') → j_phase s = Finished.
Proof using Hlocal Hremote R So Hne.
  intros J Hstop. destruct (builder_step_ok opt local_slot remote_slot block_address trailer_address n Hlocal Hremote kvs s J R So Hne) as (s1 & E1 & _ & [Hm|[-> Hfin]]).
  { destruct (Hstop s1). split; [by constructor|]. intros ->. lia. }
  destruct (job_card_inv opt block_address trailer_address kvs s J) as (posted & polled & I). destruct (carry_ok posted polled (j_card s) I) as (c & Ec & _ & _ & _ & _ & _ & Hq & _). apply Hfin.
  - destruct (decide (queue (j_card s) = [])) as [|Eq]; [done|]. destruct (Hstop (MkJob (j_rep s) c (j_phase s))). split; [by constructor|].
    intros E%(f_equal (λ s, length (queue (j_card s)))). cbn in E. specialize (Hq Eq). lia.
  - destruct (decide (carried (j_card s) = 0%nat)) as [|Ek]; [done|]. destruct (Hstop (MkJob (j_rep s) (complete (j_card s)) (j_phase s))). split; [apply step_complete|].
    intros E%(f_equal (λ s, completions (j_card s))). unfold complete in E. cbn in E. destruct (carried (j_card s)); [done|]. cbn in E. lia.
Qed.

End run.

(** The table of the versions is in remote memory, at these regions. *)
Definition stored (meta : metadata) (mem : list (list Z)) (ks : list version) : Prop :=
  ∃ r posted all, posted_table opt block_address trailer_address (kv_of <$> ks) r posted all ∧ in_place all mem ∧
    room opt (kv_of <$> ks) ∧ in_order ks ∧ meta = meta_of r.

Lemma stored_get meta mem ks :
  stored meta mem ks →
  ∃ t, Open opt block_address mem meta = Ok t ∧
    ∀ k snapshot s, version_ok n (MkVersion snapshot kTypeValue k []) → saver_user_key s = k →
      InternalGet opt mem t (internal k (snapshot * 256 + 1)) s = Ok (from_option (saved s) s (newest k snapshot ks)).
Proof. clear Hlocal Hremote local_slot remote_slot.
  intros (r & posted & all & P & I & R & Ho & ->). pose proof (in_order_sorted ks Ho) as So.
  assert (kv_of <$> ks ≠ []) as Hne by (intros E0%fmap_nil_inv; by apply Ho).
  destruct (Open_ok opt block_address trailer_address n _ _ _ _ _ P I R So Hne) as (t & sh & rs & it & Et & Em & Hi & Hf).
  exists t. split; [done|]. intros k snapshot s Hk Hs. pose proof Hk as [_ Hkb Hkn _ _]. cbn in Hkb, Hkn.
  rewrite (InternalGet_first opt block_address trailer_address n _ _ _ _ _ P I R So ks eq_refl (io_ok _ Ho) t sh rs it k _ s Hi Em Hf Hkb Hkn)
    by (done || exact (seek_tag_fits n k snapshot Hk)).
  f_equal. apply first_newest; [apply Ho|apply Ho|done|apply Ho].
Qed.

Lemma stored_more meta mem mem' ks : stored meta mem ks → mem `prefix_of` mem' → stored meta mem' ks.
Proof. clear Hlocal Hremote local_slot remote_slot.
  intros (r & posted & all & P & I & R & Ho & E) Hm. exists r, posted, all. split_and!; try done. intros w bs (slot & Hs & Ht)%I.
  exists slot. split; [by eapply prefix_lookup_Some|done].
Qed.

Lemma finished_stored remote0 ks r c s :
  room opt (kv_of <$> ks) → in_order ks → make_rep opt local_slot remote0 = Ok (r, c) →
  rtc job_step (MkJob r c (Adding (kv_of <$> ks))) s → j_phase s = Finished → stored (meta_of (j_rep s)) (remote (j_card s)) ks.
Proof using Hlocal Hremote.
  intros R Ho E Hs Hp. pose proof (in_order_sorted ks Ho) as So. assert (kv_of <$> ks ≠ []) as Hne by (intros E0%fmap_nil_inv; by apply Ho).
  destruct (job_start remote0 _ R) as (r0 & c0 & E0 & J). rewrite E in E0. injection E0 as <- <-.
  pose proof (job_run _ R So Hne _ _ J Hs) as Js. unfold LsmTableBuild.job_inv in Js. rewrite Hp in Js. destruct Js as (posted & all & polled & P & I & Hall).
  exists (j_rep s), posted, all. split_and!; try done. by eapply carried_in_place.
Qed.

(** C7: building a table never goes wrong and never hangs.  For entries that the
    chunks have room for and any order in which the builder and the network card
    take their steps, no assertion of the builder fails and no write of the card
    is out of bounds; only finitely many steps change anything, and when none
    does any more, the table is finished. *)
Theorem table_build remote0 ks :
  room opt (kv_of <$> ks) → in_order ks →
  ∃ r c, make_rep opt local_slot remote0 = Ok (r, c) ∧
    let start := MkJob r c (Adding (kv_of <$> ks)) in
    sn changing_step start ∧
    ∀ s, rtc job_step start s →
      (∃ s' c', builder_step s = Ok s' ∧ carry (j_card s) = Ok c') ∧
      ((∀ s', ~ changing_step s s') → j_phase s = Finished).
Proof using Hlocal Hremote.
  intros R Ho. pose proof (in_order_sorted ks Ho) as So. assert (kv_of <$> ks ≠ []) as Hne by (intros E%fmap_nil_inv; by apply Ho).
  destruct (job_start remote0 _ R) as (r & c & E & J). exists r, c. split; [done|]. split; [by eapply job_terminates|].
  intros s Hs. pose proof (job_run _ R So Hne _ _ J Hs) as Js. split; [|by apply (job_stops _ R So Hne)].
  destruct (builder_step_ok opt local_slot remote_slot block_address trailer_address n Hlocal Hremote _ s Js R So Hne) as (s1 & E1 & _).
  destruct (job_card_inv opt block_address trailer_address _ s Js) as (posted & polled & I). destruct (carry_ok posted polled (j_card s) I) as (c1 & Ec & _).
  by exists s1, c1.
Qed.

(** C6: a table answers for the newest version.  However the steps of the builder
    and of the card interleave, a table that has been finished can be opened, its
    checksums being right, and a lookup of a key at a snapshot saves the value, or
    the deletion, of the newest version of the key that the snapshot sees, and
    leaves the saver alone if there is none.  The filter hides no key. *)
Theorem table_get remote0 ks r c s :
  room opt (kv_of <$> ks) → in_order ks → make_rep opt local_slot remote0 = Ok (r, c) →
  rtc job_step (MkJob r c (Adding (kv_of <$> ks))) s → j_phase s = Finished →
  ∃ t, Open opt block_address (remote (j_card s)) (meta_of (j_rep s)) = Ok t ∧
    ∀ k snapshot, version_ok n (MkVersion snapshot kTypeValue k []) →
      let saver := MkSaver kNotFound k [] in
      InternalGet opt (remote (j_card s)) t (internal k (snapshot * 256 + 1)) saver =
        Ok (from_option (saved saver) saver (newest k snapshot ks)).
Proof using Hlocal Hremote.
  intros R Ho E Hs Hp. destruct (stored_get _ _ _ (finished_stored remote0 ks r c s R Ho E Hs Hp)) as (t & Et & Hget).
  exists t. split; [done|]. intros k snapshot Hk saver. by apply Hget.
Qed.

End table.

(** ** A sample *)

Definition sample_options : options := MkOptions 140 256 256 256 true 10 true.
Definition sample_slot (size : Z) (i : nat) : list Z := replicate (Z.to_nat size) (Z.of_nat i).

Definition sample_versions : list version :=
  [MkVersion 7 kTypeValue [97] (replicate 60 1); MkVersion 3 kTypeValue [97] (replicate 60 2); MkVersion 5 kTypeDeletion [98] [];
   MkVersion 4 kTypeValue [98] (replicate 60 3)].

Lemma len_sample_slot size i : 0 ≤ size → len (sample_slot size i) = size.
Proof. intros H. unfold len, sample_slot. rewrite length_replicate. lia. Qed.

Lemma sample_room : room sample_options (kv_of <$> sample_versions).
Proof. split; try by vm_compute. repeat constructor; by vm_compute. Qed.

Lemma sample_order : in_order 2 sample_versions.
Proof.
  split; [done| | |apply (bool_decide_unpack _); by vm_compute].
  - repeat constructor; by vm_compute.
  - repeat constructor; by vm_compute.
Qed.

(** A run in which the card lags behind the builder: [true] is a step of the
    builder, [false] one of the card. *)
Definition sample_turn (b : bool) (s : job) : result job :=
  if b then builder_step sample_options sample_slot sample_slot 0 3 s
  else c ← carry (j_card s); Ok (MkJob (j_rep s) (complete c) (j_phase s)).

Fixpoint sample_run (bs : list bool) (s : job) : result job :=
  match bs with [] => Ok s | b :: bs => s ← sample_turn b s; sample_run bs s end.

Lemma sample_run_steps bs s s' : sample_run bs s = Ok s' → rtc (job_step sample_options sample_slot sample_slot 0 3) s s'.
Proof.
  revert s. induction bs as [|b bs IH]; intros s; cbn [sample_run]; [by intros [= <-]|]. intros (s1 & E & Hr)%bind_Ok. destruct b; cbn [sample_turn] in E.
  - eapply rtc_l; [by apply step_builder|]. by apply IH.
  - apply bind_Ok in E as (c & Ec & [= <-]). eapply rtc_l; [by apply step_carry|]. eapply rtc_l; [apply step_complete|]. by apply IH.
Qed.

Definition sample_schedule : list bool := [true; true; true; false; true; true; false; false; true; false; false; false; false; true; true].

Lemma table_build_witness :
  ∃ r c, make_rep sample_options sample_slot [] = Ok (r, c) ∧
    sn (changing_step sample_options sample_slot sample_slot 0 3) (MkJob r c (Adding (kv_of <$> sample_versions))).
Proof.
  destruct (table_build sample_options sample_slot sample_slot 0 3 2 len_sample_slot len_sample_slot [] sample_versions sample_room sample_order) as (r & c & E & H).
  exists r, c. split; [exact E|apply H].
Defined.

Lemma sample_key x : byte x → version_ok 2 (MkVersion 6 kTypeValue [x] []).
Proof. intros Hx. split; try by vm_compute. by constructor. cbn. lia. Qed.

Lemma table_get_witness :
  ∃ s t, Open sample_options 0 (remote (j_card s)) (meta_of (j_rep s)) = Ok t ∧ len (remote_data_mrs (j_rep s)) = 3 ∧
    InternalGet sample_options (remote (j_card s)) t (internal [97] (6 * 256 + 1)) (MkSaver kNotFound [97] []) = Ok (MkSaver kFound [97] (replicate 60 2)) ∧
    InternalGet sample_options (remote (j_card s)) t (internal [98] (6 * 256 + 1)) (MkSaver kNotFound [98] []) = Ok (MkSaver kDeleted [98] []).
Proof.
  destruct (make_rep sample_options sample_slot []) as [[r c]|] eqn:E; [|by vm_compute in E].
  destruct (sample_run sample_schedule (MkJob r c (Adding (kv_of <$> sample_versions)))) as [s|] eqn:Es; cycle 1.
  { exfalso. revert Es. vm_compute in E. injection E as <- <-. by vm_compute. }
  assert (j_phase s = Finished ∧ len (remote_data_mrs (j_rep s)) = 3) as [Hp Hl].
  { revert Es. vm_compute in E. injection E as <- <-. intros Es. vm_compute in Es. by injection Es as <-. }
  destruct (table_get sample_options sample_slot sample_slot 0 3 2 len_sample_slot len_sample_slot [] sample_versions r c s sample_room sample_order E (sample_run_steps _ _ _ Es) Hp)
    as (t & Et & H).
  exists s, t. split; [exact Et|]. split; [exact Hl|]. split.
  - rewrite (H [97] 6); [by vm_compute|]. by apply sample_key.
  - rewrite (H [98] 6); [by vm_compute|]. by apply sample_key.
Defined.
