(* ===== verification/LsmEdit.v ===== *)
(** * dLSM: metadata of tables and version edits

    [RemoteMemTableMetaData] and [VersionEdit] of [dLSM/db/version_edit.h] and
    [db/version_edit.cc], with the format in which compute and memory nodes
    exchange them. *)
From S2P Require Import Prelude LsmCoding LsmFile LsmFormat.
Import Coding Format.

Module Edit.

Definition kNumLevels : Z := 6.

(** A field that must be there: where the input ends too early, the code goes on
    with whatever the variable holds. *)
Definition field {A} (o : option A) : result A := match o with Some a => Ok a | None => Err OutOfBounds end.

(** ** Metadata of tables *)

Record ibv_mr := MkIbvMr { context : Z; pd : Z; addr : Z; length_ : Z; handle : Z; lkey : Z; rkey : Z }.

Definition invalid_table_type_ : Z := 0.

(** Maps are ordered by key. *)
Record RemoteMemTableMetaData := MkFile {
  level : Z;
  table_type : Z;
  number : Z;
  creator_node_id : Z;
  shard_target_node_id : Z;
  file_size : Z;
  smallest : list Z;
  largest : list Z;
  remote_data_mrs : list (Z * ibv_mr);
  remote_dataindex_mrs : list (Z * ibv_mr);
  remote_filter_mrs : list (Z * ibv_mr);
  allowed_seeks : Z;
  UnderCompaction : bool
}.

(** [InternalKey::Encode]. *)
Definition key_Encode (rep_ : list Z) : result (list Z) := require (negb (len rep_ =? 0));; Ok rep_.

Definition mr_serialization (dst : list Z) (mr : ibv_mr) : list Z :=
  PutFixed32 (PutFixed32 (PutFixed64 (PutFixed64 dst (addr mr)) (length_ mr)) (lkey mr)) (rkey mr).

Definition put_mrs (dst : list Z) (mrs : list (Z * ibv_mr)) : list Z :=
  fold_left (λ dst e, mr_serialization (PutFixed32 dst e.1) e.2) mrs dst.

Definition file_EncodeTo (dst : list Z) (f : RemoteMemTableMetaData) : result (list Z) :=
  let dst := PutFixed64 dst (level f) in
  let dst := PutFixed32 dst (table_type f) in
  let dst := PutFixed64 dst (number f) in
  let dst := dst ++ [creator_node_id f; shard_target_node_id f] in
  let dst := PutFixed64 dst (file_size f) in
  small ← key_Encode (smallest f);
  large ← key_Encode (largest f);
  let dst := PutLengthPrefixedSlice (PutLengthPrefixedSlice dst small) large in
  let dst := PutFixed64 dst (len (remote_data_mrs f)) in
  let dst := PutFixed64 dst (len (remote_dataindex_mrs f)) in
  let dst := PutFixed64 dst (len (remote_filter_mrs f)) in
  '(_, first) ← at_index (remote_data_mrs f) 0;
  let dst := PutFixed32 (PutFixed64 (PutFixed64 dst (context first)) (pd first)) (handle first) in
  Ok (put_mrs (put_mrs (put_mrs dst (remote_data_mrs f)) (remote_dataindex_mrs f)) (remote_filter_mrs f)).

(** [std::map::insert]: a key that is there keeps its value. *)
Fixpoint map_insert {A} (k : Z) (m : A) (l : list (Z * A)) : list (Z * A) :=
  match l with
  | [] => [(k, m)]
  | (k', m') :: l => if k <? k' then (k, m) :: (k', m') :: l else if k =? k' then (k', m') :: l else (k', m') :: map_insert k m l
  end.

(** [count] regions are read; those of the index must not be at offset 0. *)
Fixpoint get_mrs (nonzero : bool) (ctx p hdl : Z) (count : nat) (mrs : list (Z * ibv_mr)) (src : list Z) : result (list (Z * ibv_mr) * list Z) :=
  match count with
  | O => Ok (mrs, src)
  | S count =>
      '(offset, src) ← field (GetFixed32 src);
      '(a, src) ← field (GetFixed64 src);
      '(n, src) ← field (GetFixed64 src);
      '(lk, src) ← field (GetFixed32 src);
      '(rk, src) ← field (GetFixed32 src);
      require (negb nonzero || negb (offset =? 0));;
      get_mrs nonzero ctx p hdl count (map_insert offset (MkIbvMr ctx p a n hdl lk rk) mrs) src
  end.

(** Into metadata that has just been made. *)
Definition file_DecodeFrom (src : list Z) : result (RemoteMemTableMetaData * list Z) :=
  '(lvl, src) ← field (GetFixed64 src);
  require (lvl <? kNumLevels);;
  '(type, src) ← field (GetFixed32 src);
  require (negb (type =? invalid_table_type_));;
  '(num, src) ← field (GetFixed64 src);
  creator ← at_index src 0;
  shard ← at_index src 1;
  let src := drop 2 src in
  require (shard <? 36);;
  '(fsize, src) ← field (GetFixed64 src);
  '(small, src) ← field (GetLengthPrefixedSlice src);
  '(large, src) ← field (GetLengthPrefixedSlice src);
  '(data_num, src) ← field (GetFixed64 src);
  '(dataindex_num, src) ← field (GetFixed64 src);
  '(filter_num, src) ← field (GetFixed64 src);
  '(ctx, src) ← field (GetFixed64 src);
  '(p, src) ← field (GetFixed64 src);
  '(hdl, src) ← field (GetFixed32 src);
  require ((data_num <? 1000) && (0 <? data_num));;
  '(data, src) ← get_mrs false ctx p hdl (Z.to_nat data_num) [] src;
  '(index, src) ← get_mrs true ctx p hdl (Z.to_nat dataindex_num) [] src;
  require (negb (len index =? 0));;
  '(filter, src) ← get_mrs false ctx p hdl (Z.to_nat filter_num) [] src;
  require (negb (len filter =? 0));;
  Ok (MkFile lvl type num creator shard fsize small large data index filter (2 ^ 30) false, src).

(** ** Edits *)

(** A field with its flag is an option. *)
Record VersionEdit := MkEdit {
  comparator_ : option (list Z);
  log_number_ : option Z;
  prev_log_number_ : option Z;
  next_file_number_ : option Z;
  last_sequence_ : option Z;
  compact_pointers_ : list (Z * list Z);
  deleted_files_ : list (Z * Z * Z);
  new_files_ : list (Z * RemoteMemTableMetaData)
}.

Definition empty_edit : VersionEdit := MkEdit None None None None None [] [] [].

(** The compaction pointers are not cleared. *)
Definition Clear (e : VersionEdit) : VersionEdit := MkEdit None None None None None (compact_pointers_ e) [] [].

Definition SetComparatorName (e : VersionEdit) (name : list Z) : VersionEdit :=
  MkEdit (Some name) (log_number_ e) (prev_log_number_ e) (next_file_number_ e) (last_sequence_ e) (compact_pointers_ e) (deleted_files_ e) (new_files_ e).
Definition SetLogNumber (e : VersionEdit) (num : Z) : VersionEdit :=
  MkEdit (comparator_ e) (Some num) (prev_log_number_ e) (next_file_number_ e) (last_sequence_ e) (compact_pointers_ e) (deleted_files_ e) (new_files_ e).
Definition SetPrevLogNumber (e : VersionEdit) (num : Z) : VersionEdit :=
  MkEdit (comparator_ e) (log_number_ e) (Some num) (next_file_number_ e) (last_sequence_ e) (compact_pointers_ e) (deleted_files_ e) (new_files_ e).
Definition SetNextFile (e : VersionEdit) (num : Z) : VersionEdit :=
  MkEdit (comparator_ e) (log_number_ e) (prev_log_number_ e) (Some num) (last_sequence_ e) (compact_pointers_ e) (deleted_files_ e) (new_files_ e).
Definition SetLastSequence (e : VersionEdit) (seq : Z) : VersionEdit :=
  MkEdit (comparator_ e) (log_number_ e) (prev_log_number_ e) (next_file_number_ e) (Some seq) (compact_pointers_ e) (deleted_files_ e) (new_files_ e).
Definition SetCompactPointer (e : VersionEdit) (lvl : Z) (key : list Z) : VersionEdit :=
  MkEdit (comparator_ e) (log_number_ e) (prev_log_number_ e) (next_file_number_ e) (last_sequence_ e) (compact_pointers_ e ++ [(lvl, key)])
    (deleted_files_ e) (new_files_ e).
Definition AddFile (e : VersionEdit) (lvl : Z) (f : RemoteMemTableMetaData) : VersionEdit :=
  MkEdit (comparator_ e) (log_number_ e) (prev_log_number_ e) (next_file_number_ e) (last_sequence_ e) (compact_pointers_ e) (deleted_files_ e)
    (new_files_ e ++ [(lvl, f)]).

(** Tables are compared by address there; the flushes of a node give each table a
    number of its own. *)
Definition AddFileIfNotExist (e : VersionEdit) (lvl : Z) (f : RemoteMemTableMetaData) : VersionEdit :=
  if existsb (λ x, number x.2 =? number f) (new_files_ e) then e else if 0 <? file_size f then AddFile e lvl f else e.

(** The order of a set of tuples. *)
Definition tuple_compare (a b : Z * Z * Z) : comparison :=
  let '(a1, a2, a3) := a in
  let '(b1, b2, b3) := b in
  match a1 ?= b1 with Eq => match a2 ?= b2 with Eq => a3 ?= b3 | c => c end | c => c end.

(** [std::set::insert]. *)
Fixpoint set_insert (x : Z * Z * Z) (l : list (Z * Z * Z)) : list (Z * Z * Z) :=
  match l with
  | [] => [x]
  | y :: l => match tuple_compare x y with Lt => x :: y :: l | Eq => y :: l | Gt => y :: set_insert x l end
  end.

Definition set_deleted (e : VersionEdit) (l : list (Z * Z * Z)) : VersionEdit :=
  MkEdit (comparator_ e) (log_number_ e) (prev_log_number_ e) (next_file_number_ e) (last_sequence_ e) (compact_pointers_ e) l (new_files_ e).

Definition RemoveFile (e : VersionEdit) (lvl file node_id : Z) : VersionEdit := set_deleted e (set_insert (lvl, file, node_id) (deleted_files_ e)).

(** The numbers of the new files, from [file_number_end] on. *)
Definition set_number (f : RemoteMemTableMetaData) (n : Z) : RemoteMemTableMetaData :=
  MkFile (level f) (table_type f) n (creator_node_id f) (shard_target_node_id f) (file_size f) (smallest f) (largest f)
    (remote_data_mrs f) (remote_dataindex_mrs f) (remote_filter_mrs f) (allowed_seeks f) (UnderCompaction f).

Fixpoint number_files (n : Z) (l : list (Z * RemoteMemTableMetaData)) : list (Z * RemoteMemTableMetaData) :=
  match l with [] => [] | (lvl, f) :: l => (lvl, set_number f n) :: number_files (u64 (n + 1)) l end.

Definition SetFileNumbers (e : VersionEdit) (file_number_end : Z) : VersionEdit :=
  MkEdit (comparator_ e) (log_number_ e) (prev_log_number_ e) (next_file_number_ e) (last_sequence_ e) (compact_pointers_ e) (deleted_files_ e)
    (number_files file_number_end (new_files_ e)).

Definition IsTrival (e : VersionEdit) : bool := len (deleted_files_ e) =? 1.

Definition GetTrivalFile (e : VersionEdit) : result (Z * Z * Z) := at_index (deleted_files_ e) 0.

(** ** The format *)

Definition kComparator : Z := 1.
Definition kLogNumber : Z := 2.
Definition kNextFileNumber : Z := 3.
Definition kLastSequence : Z := 4.
Definition kCompactPointer : Z := 5.
Definition kDeletedFile : Z := 6.
Definition kNewFile : Z := 7.
Definition kPrevLogNumber : Z := 9.

Definition put_number (tag : Z) (o : option Z) (dst : list Z) : list Z :=
  match o with Some n => PutVarint64 (PutVarint32 dst tag) n | None => dst end.

Fixpoint put_pointers (l : list (Z * list Z)) (dst : list Z) : result (list Z) :=
  match l with
  | [] => Ok dst
  | (lvl, key) :: l => k ← key_Encode key; put_pointers l (PutLengthPrefixedSlice (PutVarint32 (PutVarint32 dst kCompactPointer) (u32 lvl)) k)
  end.

Definition put_deleted (l : list (Z * Z * Z)) (dst : list Z) : list Z :=
  fold_left (λ dst d, let '(lvl, num, node) := d in PutVarint64 (PutVarint32 (PutVarint32 dst kDeletedFile) (u32 lvl)) num ++ [node]) l dst.

Fixpoint put_new (l : list (Z * RemoteMemTableMetaData)) (dst : list Z) : result (list Z) :=
  match l with
  | [] => Ok dst
  | (lvl, f) :: l => dst ← file_EncodeTo (PutVarint32 (PutVarint32 dst kNewFile) (u32 lvl)) f; put_new l dst
  end.

Definition EncodeTo (e : VersionEdit) (dst : list Z) : result (list Z) :=
  let dst := match comparator_ e with Some name => PutLengthPrefixedSlice (PutVarint32 dst kComparator) name | None => dst end in
  let dst := put_number kLogNumber (log_number_ e) dst in
  let dst := put_number kPrevLogNumber (prev_log_number_ e) dst in
  let dst := put_number kNextFileNumber (next_file_number_ e) dst in
  let dst := put_number kLastSequence (last_sequence_ e) dst in
  dst ← put_pointers (compact_pointers_ e) dst;
  put_new (new_files_ e) (put_deleted (deleted_files_ e) dst).

Definition GetInternalKey (input : list Z) : option (list Z * list Z) :=
  '(str, input) ← GetLengthPrefixedSlice input;
  if len str =? 0 then None else Some (str, input).

Definition GetLevel (input : list Z) : option (Z * list Z) :=
  '(v, input) ← GetVarint32 input;
  if v <? kNumLevels then Some (v, input) else None.

(** What is wrong with an edit. *)
Inductive message :=
| comparator_name | log_number | previous_log_number | next_file_number | last_sequence_number | compaction_pointer | deleted_file
| new_file_entry | unknown_tag | invalid_tag.

(** A field behind its tag: the edit and what is left, or a message. *)
Definition parsed {A} (o : option (A * list Z)) (msg : message) (k : A → VersionEdit) : result (VersionEdit * list Z + message) :=
  Ok (match o with Some (a, input) => inl (k a, input) | None => inr msg end).

Definition decode_tag (tag : Z) (e : VersionEdit) (input : list Z) : result (VersionEdit * list Z + message) :=
  if tag =? kComparator then parsed (GetLengthPrefixedSlice input) comparator_name (SetComparatorName e)
  else if tag =? kLogNumber then parsed (GetVarint64 input) log_number (SetLogNumber e)
  else if tag =? kPrevLogNumber then parsed (GetVarint64 input) previous_log_number (SetPrevLogNumber e)
  else if tag =? kNextFileNumber then parsed (GetVarint64 input) next_file_number (SetNextFile e)
  else if tag =? kLastSequence then parsed (GetVarint64 input) last_sequence_number (SetLastSequence e)
  else if tag =? kCompactPointer then
    parsed ('(lvl, input) ← GetLevel input; '(key, input) ← GetInternalKey input; Some ((lvl, key), input)) compaction_pointer
      (λ p, SetCompactPointer e p.1 p.2)
  else if tag =? kDeletedFile then
    match ('(lvl, input) ← GetLevel input; '(num, input) ← GetVarint64 input; Some ((lvl, num), input)) with
    | Some ((lvl, num), input) => node_id ← at_index input 0; Ok (inl (RemoveFile e lvl num node_id, drop 1 input))
    | None => Ok (inr deleted_file)
    end
  else if tag =? kNewFile then
    match GetLevel input with
    | Some (lvl, input) => '(f, input) ← file_DecodeFrom input; Ok (inl (AddFile e lvl f, input))
    | None => Ok (inr new_file_entry)
    end
  else Ok (inr unknown_tag).

(** How decoding ends: with a status, or the process ends after too many fields. *)
Inductive outcome := Decoded (e : VersionEdit) | Corruption (m : message) | Exited.

Fixpoint decode_loop (fuel : nat) (counter : Z) (e : VersionEdit) (input : list Z) : result outcome :=
  match fuel with
  | O => Err OutOfFuel
  | S fuel =>
      match GetVarint32 input with
      | None => Ok (if len input =? 0 then Decoded e else Corruption invalid_tag)
      | Some (tag, input) =>
          r ← decode_tag tag e input;
          if 100000 <? counter + 1 then Ok Exited
          else match r with inl (e, input) => decode_loop fuel (counter + 1) e input | inr msg => Ok (Corruption msg) end
      end
  end.

Definition DecodeFrom (e : VersionEdit) (src : list Z) : result outcome := decode_loop (S (length src)) 0 (Clear e) src.

End Edit.
Import Edit.

(** ** The bytes of table metadata *)

Definition mr_bytes (mr : ibv_mr) : list Z := EncodeFixed64 (addr mr) ++ EncodeFixed64 (length_ mr) ++ EncodeFixed32 (lkey mr) ++ EncodeFixed32 (rkey mr).
Definition mrs_bytes (mrs : list (Z * ibv_mr)) : list Z := concat ((λ e, EncodeFixed32 e.1 ++ mr_bytes e.2) <$> mrs).
Definition slice_bytes (s : list Z) : list Z := EncodeVarint32 (len s) ++ s.

Definition file_bytes (first : ibv_mr) (f : RemoteMemTableMetaData) : list Z :=
  EncodeFixed64 (level f) ++ EncodeFixed32 (table_type f) ++ EncodeFixed64 (number f) ++ [creator_node_id f; shard_target_node_id f] ++
  EncodeFixed64 (file_size f) ++ slice_bytes (smallest f) ++ slice_bytes (largest f) ++ EncodeFixed64 (len (remote_data_mrs f)) ++
  EncodeFixed64 (len (remote_dataindex_mrs f)) ++ EncodeFixed64 (len (remote_filter_mrs f)) ++ EncodeFixed64 (context first) ++ EncodeFixed64 (pd first) ++
  EncodeFixed32 (handle first) ++ mrs_bytes (remote_data_mrs f) ++ mrs_bytes (remote_dataindex_mrs f) ++ mrs_bytes (remote_filter_mrs f).

(** Regions of one memory node, at ascending offsets. *)
Record mrs_ok (first : ibv_mr) (mrs : list (Z * ibv_mr)) : Prop := {
  mo_order : ascending fst mrs;
  mo_fits : Forall (λ e, fits 32 e.1 ∧ fits 64 (addr e.2) ∧ fits 64 (length_ e.2) ∧ fits 32 (lkey e.2) ∧ fits 32 (rkey e.2)) mrs;
  mo_same : Forall (λ e, context e.2 = context first ∧ pd e.2 = pd first ∧ handle e.2 = handle first) mrs;
}.

Record file_ok (f : RemoteMemTableMetaData) : Prop := {
  fo_level : 0 ≤ level f < kNumLevels;
  fo_type : fits 32 (table_type f) ∧ table_type f ≠ invalid_table_type_;
  fo_number : fits 64 (number f);
  fo_creator : byte (creator_node_id f);
  fo_shard : 0 ≤ shard_target_node_id f < 36;
  fo_size : fits 64 (file_size f);
  fo_smallest : 0 < len (smallest f) < 2 ^ 32;
  fo_largest : 0 < len (largest f) < 2 ^ 32;
  fo_first : ∃ first, snd <$> head (remote_data_mrs f) = Some first ∧ fits 64 (context first) ∧ fits 64 (pd first) ∧ fits 32 (handle first) ∧
    mrs_ok first (remote_data_mrs f) ∧ mrs_ok first (remote_dataindex_mrs f) ∧ mrs_ok first (remote_filter_mrs f);
  fo_data : len (remote_data_mrs f) < 1000;
  fo_index : 0 < len (remote_dataindex_mrs f) < 2 ^ 64 ∧ Forall (λ e, e.1 ≠ 0) (remote_dataindex_mrs f);
  fo_filter : 0 < len (remote_filter_mrs f) < 2 ^ 64;
}.

(** What a node makes of metadata it receives. *)
Definition received (f : RemoteMemTableMetaData) : RemoteMemTableMetaData :=
  MkFile (level f) (table_type f) (number f) (creator_node_id f) (shard_target_node_id f) (file_size f) (smallest f) (largest f)
    (remote_data_mrs f) (remote_dataindex_mrs f) (remote_filter_mrs f) (2 ^ 30) false.

Lemma put_mrs_bytes dst mrs : put_mrs dst mrs = dst ++ mrs_bytes mrs.
Proof.
  unfold put_mrs, mrs_bytes. revert dst. induction mrs as [|e mrs IH]; intros dst; [by rewrite app_nil_r|]. cbn [fold_left fmap list_fmap concat].
  rewrite IH. unfold mr_serialization, mr_bytes, PutFixed32, PutFixed64. by rewrite <- !app_assoc.
Qed.

Lemma put_slice dst s : len s < 2 ^ 32 → PutLengthPrefixedSlice dst s = dst ++ slice_bytes s.
Proof.
  intros Hs. pose proof (len_pos s). unfold PutLengthPrefixedSlice, slice_bytes, PutVarint32. rewrite wrap_small by (unfold len in *; split; lia). by rewrite <- app_assoc.
Qed.

Lemma get_slice s rest : len s < 2 ^ 32 → GetLengthPrefixedSlice (slice_bytes s ++ rest) = Some (s, rest).
Proof. intros Hs. rewrite <- (app_nil_l (slice_bytes s)), <- put_slice by done. by apply GetLengthPrefixed_Put. Qed.

Lemma file_EncodeTo_ok dst f first :
  file_ok f → snd <$> head (remote_data_mrs f) = Some first → file_EncodeTo dst f = Ok (dst ++ file_bytes first f).
Proof.
  intros Hf Hfirst. pose proof (fo_smallest _ Hf). pose proof (fo_largest _ Hf). unfold file_EncodeTo, key_Encode.
  rewrite !(proj2 (Z.eqb_neq _ _)) by lia. cbn [negb require mbind result_bind]. rewrite !put_slice by lia.
  destruct (remote_data_mrs f) as [|[o m] mrs] eqn:E; [done|]. cbn in Hfirst. injection Hfirst as ->. cbn [at_index lookup list_lookup mbind result_bind].
  rewrite !put_mrs_bytes. unfold file_bytes, PutFixed64, PutFixed32. rewrite E. by rewrite <- !app_assoc.
Qed.

Lemma map_insert_end {A} k (m : A) l : Forall (λ e, e.1 < k) l → map_insert k m l = l ++ [(k, m)].
Proof.
  intros H. induction H as [|[k' m'] l Hk H IH]; [done|]. cbn in *. rewrite (proj2 (Z.ltb_ge _ _)), (proj2 (Z.eqb_neq _ _)) by lia. by rewrite IH.
Qed.

Lemma get_mrs_ok nonzero first done mrs rest :
  mrs_ok first (done ++ mrs) → (nonzero = true → Forall (λ e, e.1 ≠ 0) mrs) →
  get_mrs nonzero (context first) (pd first) (handle first) (length mrs) done (mrs_bytes mrs ++ rest) = Ok (done ++ mrs, rest).
Proof.
  revert done. induction mrs as [|[o m] mrs IH]; intros done Hok Hnz; [by rewrite app_nil_r|].
  pose proof (mo_fits _ _ Hok) as Hf. apply Forall_app in Hf as [_ [(F1 & F2 & F3 & F4 & F5) _]%Forall_cons]. cbn [fst snd] in *.
  pose proof (mo_same _ _ Hok) as Hsame. apply Forall_app in Hsame as [_ [(S1 & S2 & S3) _]%Forall_cons]. cbn [fst snd] in *.
  unfold mrs_bytes. cbn [length get_mrs fmap list_fmap concat fst snd]. unfold mr_bytes. rewrite <- !app_assoc.
  unfold EncodeFixed32, EncodeFixed64, GetFixed32, GetFixed64. do 5 (rewrite get_fixed_encode by done; cbn [field mbind result_bind]).
  assert (negb nonzero || negb (o =? 0) = true) as ->.
  { destruct nonzero; [|done]. specialize (Hnz eq_refl). apply Forall_cons in Hnz as [Hnz _]. cbn in Hnz. by rewrite (proj2 (Z.eqb_neq _ _)). }
  cbn [require mbind result_bind]. rewrite <- S1, <- S2, <- S3. replace (MkIbvMr _ _ _ _ _ _ _) with m by (by destruct m).
  rewrite map_insert_end.
  - rewrite S1, S2, S3. rewrite cons_middle, app_assoc in Hok. replace (done ++ (o, m) :: mrs) with ((done ++ [(o, m)]) ++ mrs) by (by rewrite <- app_assoc).
    apply IH; [done|]. intros E. by apply Hnz, Forall_cons in E as [_ ?].
  - apply Forall_forall. intros e He. pose proof (mo_order _ _ Hok) as Ho.
    exact (StronglySorted_app_1_elem_of _ _ _ e (o, m) Ho He ltac:(by left)).
Qed.

Lemma file_DecodeFrom_ok f first rest :
  file_ok f → snd <$> head (remote_data_mrs f) = Some first → file_DecodeFrom (file_bytes first f ++ rest) = Ok (received f, rest).
Proof.
  intros [Hl [Ht Hti] Hn Hc Hs Hz Hsm Hla (first' & E1 & Fc & Fp & Fh & Md & Mi & Mf) Hd [Hi Hi0] Hfi] E. rewrite E in E1. injection E1 as <-.
  assert (0 < len (remote_data_mrs f)) as Hd0 by (destruct (remote_data_mrs f); [done|]; rewrite len_cons; pose proof (len_pos l); lia).
  assert (∀ l : list (Z * ibv_mr), Z.to_nat (len l) = length l) as El by (intros l; apply Nat2Z.id).
  unfold file_DecodeFrom, file_bytes, kNumLevels in *. rewrite <- !app_assoc. unfold EncodeFixed32, EncodeFixed64, GetFixed32, GetFixed64.
  rewrite get_fixed_encode by (split; lia). cbn [field mbind result_bind]. rewrite (proj2 (Z.ltb_lt _ _)) by lia. cbn [require mbind result_bind].
  rewrite get_fixed_encode by done. cbn [field mbind result_bind]. rewrite (proj2 (Z.eqb_neq _ _)) by done. cbn [negb require mbind result_bind].
  rewrite get_fixed_encode by done. cbn [field mbind result_bind at_index lookup list_lookup app drop]. rewrite (proj2 (Z.ltb_lt _ 36)) by lia. cbn [require mbind result_bind].
  rewrite drop_0, get_fixed_encode by done. cbn [field mbind result_bind]. rewrite get_slice by lia. cbn [field mbind result_bind]. rewrite get_slice by lia.
  cbn [field mbind result_bind]. do 6 (rewrite get_fixed_encode by (done || (split; lia)); cbn [field mbind result_bind]).
  rewrite (proj2 (Z.ltb_lt _ 1000)), (proj2 (Z.ltb_lt 0 _)) by lia. cbn [andb require mbind result_bind].
  rewrite (El (remote_data_mrs f)), (get_mrs_ok false first []) by done. cbn [mbind result_bind app].
  rewrite (El (remote_dataindex_mrs f)), (get_mrs_ok true first []) by done. cbn [mbind result_bind app]. rewrite (proj2 (Z.eqb_neq (len (remote_dataindex_mrs f)) _)) by lia.
  cbn [negb require mbind result_bind]. rewrite (El (remote_filter_mrs f)), (get_mrs_ok false first []) by done. cbn [mbind result_bind app].
  rewrite (proj2 (Z.eqb_neq (len (remote_filter_mrs f)) _)) by lia. done.
Qed.

(** ** Edits as sequences of calls *)

Inductive edit_op :=
| OComparator (name : list Z) | OLogNumber (n : Z) | OPrevLogNumber (n : Z) | ONextFile (n : Z) | OLastSequence (n : Z)
| OCompactPointer (lvl : Z) (key : list Z) | ORemoveFile (lvl file node : Z) | OAddFile (lvl : Z) (f : RemoteMemTableMetaData).

Definition apply_op (e : VersionEdit) (op : edit_op) : VersionEdit :=
  match op with
  | OComparator name => SetComparatorName e name
  | OLogNumber n => SetLogNumber e n
  | OPrevLogNumber n => SetPrevLogNumber e n
  | ONextFile n => SetNextFile e n
  | OLastSequence n => SetLastSequence e n
  | OCompactPointer lvl key => SetCompactPointer e lvl key
  | ORemoveFile lvl file node => RemoveFile e lvl file node
  | OAddFile lvl f => AddFile e lvl f
  end.

Definition op_ok (op : edit_op) : Prop :=
  match op with
  | OComparator name => len name < 2 ^ 32
  | OLogNumber n | OPrevLogNumber n | ONextFile n | OLastSequence n => fits 64 n
  | OCompactPointer lvl key => 0 ≤ lvl < kNumLevels ∧ 0 < len key < 2 ^ 32
  | ORemoveFile lvl file node => 0 ≤ lvl < kNumLevels ∧ fits 64 file ∧ byte node
  | OAddFile lvl f => 0 ≤ lvl < kNumLevels ∧ file_ok f
  end.

Definition first_mr (f : RemoteMemTableMetaData) : ibv_mr := default (MkIbvMr 0 0 0 0 0 0 0) (snd <$> head (remote_data_mrs f)).

Definition op_bytes (op : edit_op) : list Z :=
  match op with
  | OComparator name => EncodeVarint32 kComparator ++ slice_bytes name
  | OLogNumber n => EncodeVarint32 kLogNumber ++ EncodeVarint64 n
  | OPrevLogNumber n => EncodeVarint32 kPrevLogNumber ++ EncodeVarint64 n
  | ONextFile n => EncodeVarint32 kNextFileNumber ++ EncodeVarint64 n
  | OLastSequence n => EncodeVarint32 kLastSequence ++ EncodeVarint64 n
  | OCompactPointer lvl key => EncodeVarint32 kCompactPointer ++ EncodeVarint32 lvl ++ slice_bytes key
  | ORemoveFile lvl file node => EncodeVarint32 kDeletedFile ++ EncodeVarint32 lvl ++ EncodeVarint64 file ++ [node]
  | OAddFile lvl f => EncodeVarint32 kNewFile ++ EncodeVarint32 lvl ++ file_bytes (first_mr f) f
  end.

Definition op_received (op : edit_op) : edit_op := match op with OAddFile lvl f => OAddFile lvl (received f) | _ => op end.

Lemma first_mr_ok f : file_ok f → snd <$> head (remote_data_mrs f) = Some (first_mr f).
Proof. intros Hf. destruct (fo_first _ Hf) as (first & E & _). unfold first_mr. by rewrite E. Qed.

Lemma GetLevel_ok lvl rest : 0 ≤ lvl < kNumLevels → GetLevel (EncodeVarint32 lvl ++ rest) = Some (lvl, rest).
Proof.
  intros Hl. unfold GetLevel, kNumLevels in *. rewrite GetVarint32_Encode by (split; lia). cbn [mbind option_bind]. by rewrite (proj2 (Z.ltb_lt _ _)) by lia.
Qed.

Ltac tag_case :=
  cbn [Z.eqb kComparator kLogNumber kPrevLogNumber kNextFileNumber kLastSequence kCompactPointer kDeletedFile kNewFile Pos.eqb].

(** A field is decoded to the call that sets it. *)
Lemma decode_op op e rest :
  op_ok op → ∃ tag input, GetVarint32 (op_bytes op ++ rest) = Some (tag, input) ∧ decode_tag tag e input = Ok (inl (apply_op e (op_received op), rest)).
Proof.
  intros Hop. destruct op as [name|n|n|n|n|lvl key|lvl file node|lvl f]; cbn [op_bytes op_ok op_received apply_op] in *; rewrite <- !app_assoc;
    (eexists _, _; split; [by apply GetVarint32_Encode|]); unfold decode_tag, parsed.
  - tag_case. by rewrite get_slice.
  - tag_case. by rewrite GetVarint64_Encode.
  - tag_case. by rewrite GetVarint64_Encode.
  - tag_case. by rewrite GetVarint64_Encode.
  - tag_case. by rewrite GetVarint64_Encode.
  - tag_case. destruct Hop as [Hl Hk]. rewrite GetLevel_ok by done.
    cbn [mbind option_bind]. unfold GetInternalKey. rewrite get_slice by lia. cbn [mbind option_bind]. by rewrite (proj2 (Z.eqb_neq _ _)) by lia.
  - tag_case. destruct Hop as (Hl & Hf & Hn).
    rewrite GetLevel_ok by done. cbn [mbind option_bind]. rewrite GetVarint64_Encode by done. done.
  - tag_case. destruct Hop as [Hl Hf].
    rewrite GetLevel_ok by done. rewrite (file_DecodeFrom_ok f) by (done || by apply first_mr_ok). done.
Qed.

Lemma op_bytes_pos op : op_ok op → (0 < length (op_bytes op))%nat.
Proof.
  intros _. assert (∀ v l, fits 32 v → (0 < length (EncodeVarint32 v ++ l))%nat) as H.
  { intros v l Hv. destruct (EncodeVarint32_bytes v Hv) as [_ Hb]. rewrite length_app. lia. }
  destruct op; by apply H.
Qed.

Lemma decode_ops ops fuel counter e :
  Forall op_ok ops → (length (concat (op_bytes <$> ops)) < fuel)%nat → counter + len ops ≤ 100000 →
  decode_loop fuel counter e (concat (op_bytes <$> ops)) = Ok (Decoded (fold_left apply_op (op_received <$> ops) e)).
Proof.
  revert fuel counter e. induction ops as [|op ops IH]; intros [|fuel] counter e Hok Hf Hc; try lia; cbn [decode_loop fmap list_fmap concat fold_left]; [done|].
  apply Forall_cons in Hok as [Hop Hok]. destruct (decode_op op e (concat (op_bytes <$> ops)) Hop) as (tag & input & -> & ->). cbn [mbind result_bind].
  rewrite len_cons in Hc. pose proof (len_pos ops). rewrite (proj2 (Z.ltb_ge _ _)) by lia. apply IH; [done| |lia].
  cbn in Hf. rewrite length_app in Hf. pose proof (op_bytes_pos op Hop). lia.
Qed.

(** The calls that an edit amounts to. *)
Definition opt_op {A} (f : A → edit_op) (o : option A) : list edit_op := match o with Some a => [f a] | None => [] end.

Definition ops_of (e : VersionEdit) : list edit_op :=
  opt_op OComparator (comparator_ e) ++ opt_op OLogNumber (log_number_ e) ++ opt_op OPrevLogNumber (prev_log_number_ e) ++
  opt_op ONextFile (next_file_number_ e) ++ opt_op OLastSequence (last_sequence_ e) ++ ((λ p, OCompactPointer p.1 p.2) <$> compact_pointers_ e) ++
  ((λ d, ORemoveFile d.1.1 d.1.2 d.2) <$> deleted_files_ e) ++ ((λ p, OAddFile p.1 p.2) <$> new_files_ e).

Lemma put_pointers_ok l dst :
  Forall op_ok ((λ p, OCompactPointer p.1 p.2) <$> l) → put_pointers l dst = Ok (dst ++ concat (op_bytes <$> ((λ p, OCompactPointer p.1 p.2) <$> l))).
Proof.
  revert dst. induction l as [|[lvl key] l IH]; intros dst Hok; [by rewrite app_nil_r|]. cbn [fmap list_fmap] in Hok. apply Forall_cons in Hok as [[Hl Hk] Hok]. cbn [fst snd] in *.
  cbn [put_pointers]. unfold key_Encode. rewrite (proj2 (Z.eqb_neq _ _)) by lia. cbn [negb require mbind result_bind]. rewrite IH by done. f_equal.
  unfold kNumLevels in Hl. rewrite put_slice, wrap_small by (lia || (split; lia)). unfold PutVarint32. cbn [fmap list_fmap concat op_bytes fst snd]. by rewrite <- !app_assoc.
Qed.

Lemma put_deleted_ok l dst :
  Forall op_ok ((λ d, ORemoveFile d.1.1 d.1.2 d.2) <$> l) → put_deleted l dst = dst ++ concat (op_bytes <$> ((λ d, ORemoveFile d.1.1 d.1.2 d.2) <$> l)).
Proof.
  revert dst. unfold put_deleted. induction l as [|[[lvl num] node] l IH]; intros dst Hok; [by rewrite app_nil_r|]. cbn [fmap list_fmap] in Hok.
  apply Forall_cons in Hok as [(Hl & _) Hok]. cbn [fst snd] in *. cbn [fold_left]. rewrite IH by done. unfold kNumLevels in Hl. rewrite wrap_small by (split; lia).
  unfold PutVarint32, PutVarint64. cbn [fmap list_fmap concat op_bytes fst snd]. by rewrite <- !app_assoc.
Qed.

Lemma put_new_ok l dst :
  Forall op_ok ((λ p, OAddFile p.1 p.2) <$> l) → put_new l dst = Ok (dst ++ concat (op_bytes <$> ((λ p, OAddFile p.1 p.2) <$> l))).
Proof.
  revert dst. induction l as [|[lvl f] l IH]; intros dst Hok; [by rewrite app_nil_r|]. cbn [fmap list_fmap] in Hok. apply Forall_cons in Hok as [[Hl Hf] Hok]. cbn [fst snd] in *.
  cbn [put_new]. rewrite (file_EncodeTo_ok _ f (first_mr f)) by (done || by apply first_mr_ok). cbn [mbind result_bind]. rewrite IH by done. f_equal.
  unfold kNumLevels in Hl. rewrite wrap_small by (split; lia). unfold PutVarint32. cbn [fmap list_fmap concat op_bytes fst snd]. by rewrite <- !app_assoc.
Qed.

Lemma EncodeTo_ok e dst : Forall op_ok (ops_of e) → EncodeTo e dst = Ok (dst ++ concat (op_bytes <$> ops_of e)).
Proof.
  intros Hok. unfold ops_of in *. rewrite !Forall_app in Hok. destruct Hok as (Hc & _ & _ & _ & _ & Hp & Hd & Hn). unfold EncodeTo.
  rewrite put_pointers_ok by done. cbn [mbind result_bind]. rewrite put_deleted_ok, put_new_ok by done. f_equal. rewrite !fmap_app, !concat_app, !app_assoc. do 3 f_equal.
  assert (∀ tag f o d, (∀ n, op_bytes (f n) = EncodeVarint32 tag ++ EncodeVarint64 n) → put_number tag o d = d ++ concat (op_bytes <$> opt_op f o)) as Hnum.
  { intros tag f [n|] d Hf; cbn; [|by rewrite app_nil_r]. rewrite app_nil_r, Hf. unfold PutVarint64, PutVarint32. by rewrite <- app_assoc. }
  rewrite (Hnum _ OLastSequence), (Hnum _ ONextFile), (Hnum _ OPrevLogNumber), (Hnum _ OLogNumber) by done. do 4 f_equal.
  destruct (comparator_ e) as [name|]; cbn; [|by rewrite app_nil_r]. apply Forall_cons in Hc as [Hc _]. rewrite app_nil_r, put_slice by done.
  unfold PutVarint32. by rewrite <- app_assoc.
Qed.

(** ** Sets of deleted files *)

Definition tuple_lt (a b : Z * Z * Z) : Prop :=
  a.1.1 < b.1.1 ∨ (a.1.1 = b.1.1 ∧ (a.1.2 < b.1.2 ∨ (a.1.2 = b.1.2 ∧ a.2 < b.2))).

Lemma tuple_compare_spec a b : CompareSpec (a = b) (tuple_lt a b) (tuple_lt b a) (tuple_compare a b).
Proof.
  destruct a as [[a1 a2] a3], b as [[b1 b2] b3]. unfold tuple_compare, tuple_lt. cbn.
  destruct (Z.compare_spec a1 b1); [|constructor; lia|constructor; lia]. destruct (Z.compare_spec a2 b2); [|constructor; lia|constructor; lia].
  destruct (Z.compare_spec a3 b3); constructor; [congruence|lia|lia].
Qed.

Lemma set_insert_end x l : Forall (λ y, tuple_lt y x) l → set_insert x l = l ++ [x].
Proof.
  intros H. induction H as [|y l Hy H IH]; [done|]. cbn. destruct (tuple_compare_spec x y) as [->|Hl|_]; [|exfalso; unfold tuple_lt in *; lia|by rewrite IH].
  unfold tuple_lt in Hy. lia.
Qed.

Lemma set_insert_elem x l y : y ∈ set_insert x l ↔ y = x ∨ y ∈ l.
Proof.
  induction l as [|z l IH]; cbn; [by rewrite list_elem_of_singleton, elem_of_nil; naive_solver|].
  destruct (tuple_compare_spec x z) as [->|_|_]; rewrite !elem_of_cons; [naive_solver|naive_solver|rewrite IH; naive_solver].
Qed.

Lemma set_insert_sorted x l : StronglySorted tuple_lt l → StronglySorted tuple_lt (set_insert x l).
Proof.
  intros H. induction H as [|y l H IH Hy]; [by repeat constructor|]. cbn. destruct (tuple_compare_spec x y) as [->|Hl|Hg]; [by constructor| |].
  - constructor; [by constructor|]. constructor; [done|]. eapply Forall_impl; [exact Hy|]. intros z Hz. unfold tuple_lt in *. lia.
  - constructor; [done|]. apply Forall_forall. intros z [->|Hz]%set_insert_elem; [done|]. by eapply Forall_forall in Hy.
Qed.

Lemma length_set_insert x l : (length (set_insert x l) ≤ S (length l))%nat.
Proof. induction l as [|y l IH]; cbn; [lia|]. destruct (tuple_compare x y); cbn; lia. Qed.

(** ** Round trip *)

(** Edits as they are built, and what arrives of them in [e0]. *)
Record edit_ok (e : VersionEdit) : Prop := { eo_ops : Forall op_ok (ops_of e); eo_deleted : StronglySorted tuple_lt (deleted_files_ e) }.

Definition arrived (e0 e : VersionEdit) : VersionEdit :=
  MkEdit (comparator_ e) (log_number_ e) (prev_log_number_ e) (next_file_number_ e) (last_sequence_ e) (compact_pointers_ e0 ++ compact_pointers_ e)
    (deleted_files_ e) ((λ p, (p.1, received p.2)) <$> new_files_ e).

Lemma apply_op_ok e op : edit_ok e → op_ok op → edit_ok (apply_op e op) ∧ (length (ops_of (apply_op e op)) ≤ S (length (ops_of e)))%nat.
Proof.
  intros [Ho Hd] Hop. unfold ops_of in Ho. rewrite !Forall_app in Ho. destruct Ho as (H1 & H2 & H3 & H4 & H5 & H6 & H7 & H8). split.
  - destruct op; (split; [unfold ops_of; rewrite !Forall_app; cbn [apply_op SetComparatorName SetLogNumber SetPrevLogNumber SetNextFile SetLastSequence SetCompactPointer
      RemoveFile set_deleted AddFile comparator_ log_number_ prev_log_number_ next_file_number_ last_sequence_ compact_pointers_ deleted_files_ new_files_]|]);
      try (split_and!; done || by apply Forall_singleton); try exact Hd;
      try (rewrite fmap_app, Forall_app; split_and!; done || by apply Forall_singleton).
    + split_and!; try done. apply Forall_fmap, Forall_forall. intros d [->|Hin]%set_insert_elem; [done|]. rewrite Forall_fmap, Forall_forall in H7. by apply H7.
    + by apply set_insert_sorted.
  - unfold ops_of. rewrite !length_app, !length_fmap. destruct op; cbn; rewrite ?length_app; cbn; repeat case_match; cbn; try lia.
    all: pose proof (length_set_insert (lvl, file, node) (deleted_files_ e)); lia.
Qed.

Lemma run_ops_ok ops e :
  edit_ok e → Forall op_ok ops →
  edit_ok (fold_left apply_op ops e) ∧ (length (ops_of (fold_left apply_op ops e)) ≤ length (ops_of e) + length ops)%nat.
Proof.
  intros He Hops. revert e He. induction Hops as [|op ops Hop Hops IH]; intros e He; cbn; [split; [done|lia]|].
  destruct (apply_op_ok e op He Hop) as [He' Hl]. destruct (IH _ He') as [H1 H2]. split; [done|lia].
Qed.

Lemma apply_pointers l e :
  fold_left apply_op (op_received <$> ((λ p, OCompactPointer p.1 p.2) <$> l)) e =
  MkEdit (comparator_ e) (log_number_ e) (prev_log_number_ e) (next_file_number_ e) (last_sequence_ e) (compact_pointers_ e ++ l) (deleted_files_ e) (new_files_ e).
Proof.
  revert e. induction l as [|[lvl key] l IH]; intros e; cbn [fmap list_fmap fold_left]; [rewrite app_nil_r; by destruct e|]. rewrite IH. cbn. by rewrite <- app_assoc.
Qed.

Lemma apply_deleted l e :
  StronglySorted tuple_lt (deleted_files_ e ++ l) →
  fold_left apply_op (op_received <$> ((λ d, ORemoveFile d.1.1 d.1.2 d.2) <$> l)) e = set_deleted e (deleted_files_ e ++ l).
Proof.
  revert e. induction l as [|[[lvl num] node] l IH]; intros e Hs; cbn [fmap list_fmap fold_left]; [rewrite app_nil_r; by destruct e|].
  rewrite cons_middle, app_assoc in Hs. rewrite IH; cbn [apply_op op_received RemoveFile set_deleted deleted_files_ fst snd]; rewrite set_insert_end; try done.
  - unfold set_deleted. cbn. by rewrite <- app_assoc.
  - apply Forall_forall. intros y Hy. apply StronglySorted_app_1_l in Hs.
    exact (StronglySorted_app_1_elem_of _ _ _ y (lvl, num, node) Hs Hy ltac:(by left)).
  - apply Forall_forall. intros y Hy. apply StronglySorted_app_1_l in Hs.
    exact (StronglySorted_app_1_elem_of _ _ _ y (lvl, num, node) Hs Hy ltac:(by left)).
Qed.

Lemma apply_new l e :
  fold_left apply_op (op_received <$> ((λ p, OAddFile p.1 p.2) <$> l)) e =
  MkEdit (comparator_ e) (log_number_ e) (prev_log_number_ e) (next_file_number_ e) (last_sequence_ e) (compact_pointers_ e) (deleted_files_ e)
    (new_files_ e ++ ((λ p, (p.1, received p.2)) <$> l)).
Proof.
  revert e. induction l as [|[lvl f] l IH]; intros e; cbn [fmap list_fmap fold_left]; [rewrite app_nil_r; by destruct e|]. rewrite IH. cbn. by rewrite <- app_assoc.
Qed.

Lemma apply_ops_of e0 e : edit_ok e → fold_left apply_op (op_received <$> ops_of e) (Clear e0) = arrived e0 e.
Proof.
  intros [_ Hd]. unfold ops_of. rewrite !fmap_app, !fold_left_app, apply_new, apply_deleted, apply_pointers.
  - destruct e as [[] [] [] [] [] p d l]; done.
  - rewrite apply_pointers. destruct e as [[] [] [] [] [] p d l]; exact Hd.
Qed.

(** C32: an edit arrives as it was sent.  Whatever calls build an edit, up to the
    hundred thousand fields the decoder puts up with, it can be encoded, and
    decoding the bytes gives the same comparator, numbers, deleted files and new
    files, the latter as fresh metadata.  The compaction pointers are added to
    those that the receiving edit holds.  The new files are tables in remote
    memory with data, index and filter regions, at least one of each, fewer than
    1000 of data and no index region at offset 0; all these regions have the
    context, protection domain and handle of the first data region, since only
    those are sent. *)
Theorem edit_roundtrip ops e0 :
  Forall op_ok ops → len ops ≤ 100000 →
  let e := fold_left apply_op ops empty_edit in
  ∃ bytes, EncodeTo e [] = Ok bytes ∧ DecodeFrom e0 bytes = Ok (Decoded (arrived e0 e)).
Proof.
  intros Hok Hlen e. destruct (run_ops_ok ops empty_edit) as [He Hl]; [by repeat constructor|done|]. fold e in He, Hl.
  eexists. split; [apply EncodeTo_ok, He|]. cbn [app]. unfold DecodeFrom. rewrite decode_ops, apply_ops_of; [done|done|apply He|lia|].
  change (length (ops_of empty_edit)) with 0%nat in Hl. unfold len in *. lia.
Qed.

Definition sample_mr (a : Z) : ibv_mr := MkIbvMr 11 12 a 4096 3 77 78.
Definition sample_file : RemoteMemTableMetaData :=
  MkFile 1 2 9 1 0 5000 [97; 1; 0; 0; 0; 0; 0; 0; 0] [98; 1; 0; 0; 0; 0; 0; 0; 0] [(4000, sample_mr 1000); (5000, sample_mr 9000)] [(1, sample_mr 20000)]
    [(1, sample_mr 30000)] 5 true.

Lemma sample_mrs_ok mrs :
  ascending fst mrs → Forall (λ e : Z * ibv_mr, fits 32 e.1 ∧ ∃ a, e.2 = sample_mr a ∧ fits 64 a) mrs → mrs_ok (sample_mr 1000) mrs.
Proof.
  intros Ho Hm. split; [done| |]; (eapply Forall_impl; [exact Hm|]); intros [o m] (Hf & a & -> & Ha); cbn in *; [|done]. split_and!; try done; split; lia.
Qed.

Lemma sample_file_ok : file_ok sample_file.
Proof.
  split; cbn; try (unfold kNumLevels, byte; lia || (split; lia)).
  - unfold invalid_table_type_. split; [split; lia|lia].
  - done.
  - done.
  - exists (sample_mr 1000). cbn. split_and!; try done; try (split; lia).
    all: apply sample_mrs_ok; repeat constructor; cbn; try lia; eexists; (split; [done|split; lia]).
  - split; [done|]. by repeat constructor.
  - done.
Qed.

Lemma edit_roundtrip_witness :
  ∃ bytes, EncodeTo (fold_left apply_op [ORemoveFile 1 7 0; ORemoveFile 0 9 1; OAddFile 1 sample_file; OLastSequence 300] empty_edit) [] = Ok bytes ∧
    len bytes = 219 ∧
    DecodeFrom empty_edit bytes =
      Ok (Decoded (MkEdit None None None None (Some 300) [] [(0, 9, 1); (1, 7, 0)] [(1, received sample_file)])).
Proof.
  destruct (edit_roundtrip [ORemoveFile 1 7 0; ORemoveFile 0 9 1; OAddFile 1 sample_file; OLastSequence 300] empty_edit) as (bytes & E & H).
  - repeat apply Forall_cons_2; try apply Forall_nil_2; [| |split; [by vm_compute|exact sample_file_ok]|]; cbn [op_ok]; split_and?; by vm_compute.
  - by vm_compute.
  - exists bytes. split; [exact E|]. split; [|exact H]. vm_compute in E. by injection E as <-.
Defined.
