(* ===== verification/LsmVersion.v ===== *)
(** * dLSM: versions

    [FindFile], [Version] and [VersionSet::Builder] of [dLSM/db/version_set.cc]:
    the tables of each level, how edits change them, and lookups in them.  The
    scores that [Finalize] computes, reference counts and the list of live
    versions are left out; metadata of tables are values, so that what the code
    changes in metadata that versions share changes in the new version. *)
From S2P Require Import Prelude LsmCoding LsmFile LsmFormat LsmTable LsmEdit.
Import Coding Format.
Import Edit.

Module VersionSet.

#[local] Notation file := RemoteMemTableMetaData.

Record Version := MkVersionOf { levels_ : list (list file); in_progress : list (list file) }.

Definition empty_version : Version := MkVersionOf (replicate (Z.to_nat kNumLevels) []) (replicate (Z.to_nat kNumLevels) []).

(** [InternalKey::user_key]. *)
Definition smallest_user (f : file) : result (list Z) := ExtractUserKey (smallest f).
Definition largest_user (f : file) : result (list Z) := ExtractUserKey (largest f).

(** ** Searching a level *)

Fixpoint find_loop (fuel : nat) (files : list file) (key : list Z) (l r : Z) : result Z :=
  match fuel with
  | O => Err OutOfFuel
  | S fuel =>
      if l <? r then
        let mid := u32 (l + r) / 2 in
        f ← at_index files (Z.to_nat mid);
        u ← largest_user f;
        require (0 <? len u);;
        c ← InternalCompare (largest f) key;
        if c <? 0 then find_loop fuel files key (mid + 1) r else find_loop fuel files key l mid
      else Ok r
  end.

(** With no file, [right] wraps around. *)
Definition FindFile (files : list file) (key : list Z) : result Z :=
  find_loop (S (length files)) files key 0 (u32 (len files - 1)).

Definition AfterFile (k : option (list Z)) (f : file) : result bool :=
  match k with None => Ok false | Some k => l ← largest_user f; Ok (0 <? slice_compare k l) end.
Definition BeforeFile (k : option (list Z)) (f : file) : result bool :=
  match k with None => Ok false | Some k => s ← smallest_user f; Ok (slice_compare k s <? 0) end.

Fixpoint any_overlap (files : list file) (smallest_user_key largest_user_key : option (list Z)) : result bool :=
  match files with
  | [] => Ok false
  | f :: files =>
      after ← AfterFile smallest_user_key f;
      before ← (if after : bool then Ok true else BeforeFile largest_user_key f);
      if before : bool then any_overlap files smallest_user_key largest_user_key else Ok true
  end.

Definition SomeFileOverlapsRange (disjoint_sorted_files : bool) (files : list file) (smallest_user_key largest_user_key : option (list Z)) : result bool :=
  if negb disjoint_sorted_files then any_overlap files smallest_user_key largest_user_key
  else
    index ← match smallest_user_key with
            | None => Ok 0
            | Some k => small_key ← AppendInternalKey [] (MkParsed k kMaxSequenceNumber kValueTypeForSeek); FindFile files small_key
            end;
    if len files <=? index then Ok false
    else f ← at_index files (Z.to_nat index); before ← BeforeFile largest_user_key f; Ok (negb before).

Definition OverlapInLevel (v : Version) (lvl : nat) (smallest_user_key largest_user_key : option (list Z)) : result bool :=
  files ← at_index (levels_ v) lvl; SomeFileOverlapsRange (0 <? lvl)%nat files smallest_user_key largest_user_key.

Fixpoint FindFileByNumber (files : list file) (file_number node_id : Z) : result file :=
  match files with
  | [] => Err AssertionFailure
  | f :: files => if (number f =? file_number) && (creator_node_id f =? node_id) then Ok f else FindFileByNumber files file_number node_id
  end.

(** ** Lookups *)

(** [std::sort] with [NewestFirst]. *)
Definition NewestFirst (a b : file) : bool := number b <? number a.

Fixpoint sort_insert (f : file) (l : list file) : list file :=
  match l with [] => [f] | g :: l => if NewestFirst g f then g :: sort_insert f l else f :: g :: l end.

Definition sort_newest (l : list file) : list file := foldr sort_insert [] l.

(** The tables of level 0 whose range has the key. *)
Fixpoint covering (user : list Z) (files : list file) : result (list file) :=
  match files with
  | [] => Ok []
  | f :: files =>
      s ← smallest_user f;
      inside ← (if 0 <=? slice_compare user s then l ← largest_user f; Ok (slice_compare user l <=? 0) else Ok false);
      rest ← covering user files;
      Ok (if inside : bool then f :: rest else rest)
  end.

Section overlapping.
Context {S : Type} (func : S → Z → file → result (bool * S)).

(** Whether to go on, and the state. *)
Fixpoint search_files (s : S) (lvl : Z) (files : list file) : result (bool * S) :=
  match files with
  | [] => Ok (true, s)
  | f :: files => '(more, s) ← func s lvl f; if more : bool then search_files s lvl files else Ok (false, s)
  end.

Fixpoint search_levels (s : S) (user internal_key : list Z) (lvl : Z) (levels : list (list file)) : result (bool * S) :=
  match levels with
  | [] => Ok (true, s)
  | files :: levels =>
      if len files =? 0 then search_levels s user internal_key (lvl + 1) levels
      else
        index ← FindFile files internal_key;
        '(more, s) ←
          (if index <? len files then
             f ← at_index files (Z.to_nat index);
             small ← smallest_user f;
             if slice_compare user small <? 0 then Ok (true, s) else func s lvl f
           else Ok (true, s));
        if more : bool then search_levels s user internal_key (lvl + 1) levels else Ok (false, s)
  end.

Definition ForEachOverlapping (v : Version) (s : S) (user internal_key : list Z) : result S :=
  level0 ← at_index (levels_ v) 0;
  tmp ← covering user level0;
  '(more, s) ← search_files s 0 (sort_newest tmp);
  if more : bool then '(_, s) ← search_levels s user internal_key 1 (drop 1 (levels_ v)); Ok s else Ok s.

End overlapping.

Section get.

(** [TableCache::Get] on the state of the cache: whether the status is OK, what
    was saved, and the cache afterwards. *)
Context {C : Type} (table_get : C → file → list Z → Table.Saver → result (bool * Table.Saver * C)).

Inductive status := StatusOK | StatusNotFound | StatusCorruption | StatusTable.

Record GetState := MkGetState {
  g_saver : Table.Saver;
  g_seek_file : option (file * Z);
  g_last_file_read : option (file * Z);
  g_status : status;
  g_found : bool;
  g_cache : C
}.

Definition Match (ikey : list Z) (s : GetState) (lvl : Z) (f : file) : result (bool * GetState) :=
  let seek := match g_seek_file s with None => g_last_file_read s | Some x => Some x end in
  '(ok, saver, cache) ← table_get (g_cache s) f ikey (g_saver s);
  let next st found := MkGetState saver seek (Some (f, lvl)) st found cache in
  Ok (if negb ok then (false, next StatusTable true)
      else
        match Table.state saver with
        | Table.kNotFound => (true, next StatusOK (g_found s))
        | Table.kFound => (false, next StatusOK true)
        | Table.kDeleted => (false, next StatusOK (g_found s))
        | Table.kCorrupt => (false, next StatusCorruption true)
        end).

(** The status, the value, the statistics and the cache. *)
Definition Get (v : Version) (k : LookupKey) (value : list Z) (cache : C) : result (status * list Z * option (file * Z) * C) :=
  let user := lookup_user_key k in
  let ikey := internal_key k in
  s ← ForEachOverlapping (Match ikey) v (MkGetState (Table.MkSaver Table.kNotFound user value) None None StatusOK false cache) user ikey;
  Ok (if g_found s then g_status s else StatusNotFound, Table.saver_value (g_saver s), g_seek_file s, g_cache s).

End get.

(** ** Tables *)

(** Tables opened before, by number alone. *)
Abbreviation table_cache := (gmap Z Table.table).

Section cache.
Context (opt : Table.options) (block_address : nat) (slot_of : Z → nat) (mem : list (list Z)).

(** [evict] is what the cache of [util/cache.cc] drops when an entry is inserted. *)
Context (evict : table_cache → table_cache).

(** [slot_of] gives the slot at a remote address. *)
Definition region (m : ibv_mr) : Table.mr := Table.MkMr (slot_of (addr m)) 0 (length_ m).

Definition regions_of (mrs : list (Z * ibv_mr)) : list (Z * Table.mr) := (λ e, (e.1, region e.2)) <$> mrs.

Definition meta_of_file (f : file) : Table.metadata :=
  Table.MkMeta (table_type f) (regions_of (remote_data_mrs f)) (regions_of (remote_dataindex_mrs f)) (regions_of (remote_filter_mrs f)).

Definition FindTable (cache : table_cache) (f : file) : result (Table.table * table_cache) :=
  match cache !! number f with
  | Some t => Ok (t, cache)
  | None => t ← Table.Open opt block_address mem (meta_of_file f); Ok (t, evict (<[number f := t]> cache))
  end.

Definition TableCache_Get (cache : table_cache) (f : file) (k : list Z) (s : Table.Saver) : result (bool * Table.Saver * table_cache) :=
  '(t, cache) ← FindTable cache f;
  s ← Table.InternalGet opt mem t k s;
  Ok (true, s, cache).

End cache.

(** ** Edits *)

Definition BySmallestKey (f1 f2 : file) : result bool :=
  a ← key_Encode (smallest f1);
  b ← key_Encode (smallest f2);
  r ← InternalCompare a b;
  Ok (if negb (r =? 0) then r <? 0 else number f1 <? number f2).

(** [deleted_files] is ordered by number; [added_files] by [BySmallestKey]. *)
Record LevelState := MkLevel { deleted_files : list (Z * Z); added_files : list file }.

Fixpoint multimap_insert (k x : Z) (l : list (Z * Z)) : list (Z * Z) :=
  match l with [] => [(k, x)] | (k', x') :: l => if k <? k' then (k, x) :: (k', x') :: l else (k', x') :: multimap_insert k x l end.

(** [std::set::insert]: an equivalent element stays. *)
Fixpoint file_insert (f : file) (l : list file) : result (list file) :=
  match l with
  | [] => Ok [f]
  | g :: l =>
      before ← BySmallestKey f g;
      if before : bool then Ok (f :: g :: l)
      else after ← BySmallestKey g f; if after : bool then l ← file_insert f l; Ok (g :: l) else Ok (g :: l)
  end.

Definition is_deleted (ls : LevelState) (f : file) : bool :=
  existsb (λ d, (d.1 =? number f) && (d.2 =? creator_node_id f)) (deleted_files ls).

(** An array with an entry for each level. *)
Definition at_level {A} (l : list A) (lvl : Z) : result A := if lvl <? 0 then Err OutOfBounds else at_index l (Z.to_nat lvl).

Fixpoint apply_deleted_files (l : list (Z * Z * Z)) (ls : list LevelState) : result (list LevelState) :=
  match l with
  | [] => Ok ls
  | (lvl, num, node_id) :: l =>
      s ← at_level ls lvl;
      apply_deleted_files l (<[Z.to_nat lvl := MkLevel (multimap_insert num node_id (deleted_files s)) (added_files s)]> ls)
  end.

Definition set_seeks (f : file) (seeks : Z) (under : bool) : file :=
  MkFile (level f) (table_type f) (number f) (creator_node_id f) (shard_target_node_id f) (file_size f) (smallest f) (largest f)
    (remote_data_mrs f) (remote_dataindex_mrs f) (remote_filter_mrs f) seeks under.

(** Seeks are stored as [int] first.  A deleted file that is added again is
    erased through an iterator that the loop then advances. *)
Definition seeks_of (f : file) : Z := let n := u64 (int32 (file_size f / 16384)) in if n <? 100 then 100 else n.

Fixpoint apply_new_files (l : list (Z * file)) (ls : list LevelState) : result (list LevelState) :=
  match l with
  | [] => Ok ls
  | (lvl, f) :: l =>
      require (lvl =? level f);;
      s ← at_level ls lvl;
      if is_deleted s f then Err OutOfBounds
      else
        added ← file_insert (set_seeks f (seeks_of f) (UnderCompaction f)) (added_files s);
        apply_new_files l (<[Z.to_nat lvl := MkLevel (deleted_files s) added]> ls)
  end.

Definition new_levels : list LevelState := replicate (Z.to_nat kNumLevels) (MkLevel [] []).

(** The compaction pointers are set by [set_pointers]. *)
Definition Apply (e : VersionEdit) : result (list LevelState) :=
  ls ← apply_deleted_files (deleted_files_ e) new_levels; apply_new_files (new_files_ e) ls.

(** The files of a level so far and how many were dropped. *)
Record saving := MkSaving { s_files : list file; s_progress : list file; number_deleted : Z }.

Fixpoint no_number (num : Z) (files : list file) : bool :=
  match files with [] => true | f :: files => negb (number f =? num) && no_number num files end.

Definition MaybeAddFile (ls : LevelState) (lvl : Z) (v : saving) (f : file) : result saving :=
  let hits := len (filter (λ d, d.1 = number f ∧ d.2 = creator_node_id f) (deleted_files ls)) in
  if 0 <? hits then Ok (MkSaving (s_files v) (s_progress v) (number_deleted v + hits))
  else
    _ ← (match last (s_files v) with
         | None => Ok tt
         | Some g =>
             _ ← (if 0 <? lvl then a ← key_Encode (largest g); b ← key_Encode (smallest f); c ← InternalCompare a b; require (c <? 0) else Ok tt);
             _ ← (if lvl =? 0 then require (no_number (number f) (s_files v)) else Ok tt);
             a ← key_Encode (smallest g);
             b ← key_Encode (smallest f);
             c ← InternalCompare a b;
             require (negb (c =? 0))
         end);
    Ok (MkSaving (s_files v ++ [f]) (if UnderCompaction f then s_progress v ++ [f] else s_progress v) (number_deleted v)).

Fixpoint add_all_files (ls : LevelState) (lvl : Z) (v : saving) (files : list file) : result saving :=
  match files with [] => Ok v | f :: files => v ← MaybeAddFile ls lvl v f; add_all_files ls lvl v files end.

(** [std::upper_bound] in a sorted range: the files in front of it and behind. *)
Fixpoint split_upper (f : file) (base : list file) : result (list file * list file) :=
  match base with
  | [] => Ok ([], [])
  | g :: base =>
      after ← BySmallestKey f g;
      if after : bool then Ok ([], g :: base) else '(front, behind) ← split_upper f base; Ok (g :: front, behind)
  end.

Fixpoint merge_files (ls : LevelState) (lvl : Z) (v : saving) (base added : list file) : result saving :=
  match added with
  | [] => add_all_files ls lvl v base
  | f :: added =>
      let f := set_seeks f (allowed_seeks f) false in
      '(front, behind) ← split_upper f base;
      v ← add_all_files ls lvl v front;
      v ← MaybeAddFile ls lvl v f;
      merge_files ls lvl v behind added
  end.

(** The check of a debug build. *)
Fixpoint no_overlap (files : list file) : result unit :=
  match files with
  | f :: (g :: _) as rest =>
      a ← key_Encode (largest f);
      b ← key_Encode (smallest g);
      c ← InternalCompare a b;
      require (c <? 0);;
      no_overlap rest
  | _ => Ok tt
  end.

Fixpoint save_levels (lvl : Z) (base : list (list file)) (ls : list LevelState) (deleted : Z) : result (list (list file) * list (list file) * Z) :=
  match base, ls with
  | files :: base, s :: ls =>
      v ← merge_files s lvl (MkSaving [] [] deleted) files (added_files s);
      _ ← (if 0 <? lvl then no_overlap (s_files v) else Ok tt);
      '(levels, progress, deleted) ← save_levels (lvl + 1) base ls (number_deleted v);
      Ok (s_files v :: levels, s_progress v :: progress, deleted)
  | _, _ => Ok ([], [], deleted)
  end.

Definition SaveTo (base : Version) (ls : list LevelState) : result Version :=
  '(levels, progress, deleted) ← save_levels 0 (levels_ base) ls 0;
  let supposed := foldr (λ s, Z.add (len (deleted_files s))) 0 ls in
  require (deleted =? supposed);;
  Ok (MkVersionOf levels progress).

(** The part of the version set that edits change. *)
Record VersionSet := MkVersionSet { current : Version; last_sequence : Z; compact_index_ : list (list Z) }.

Fixpoint set_pointers (l : list (Z * list Z)) (index : list (list Z)) : result (list (list Z)) :=
  match l with
  | [] => Ok index
  | (lvl, key) :: l => _ ← at_level index lvl; k ← key_Encode key; set_pointers l (<[Z.to_nat lvl := k]> index)
  end.

(** The scores that [Finalize] gives the levels, which only compactions read, and
    the list and reference counts of the versions are left out. *)
Definition LogAndApply (vs : VersionSet) (e : VersionEdit) : result (VersionSet * VersionEdit) :=
  let e := SetLastSequence e (last_sequence vs) in
  index ← set_pointers (compact_pointers_ e) (compact_index_ vs);
  ls ← Apply e;
  v ← SaveTo (current vs) ls;
  Ok (MkVersionSet v (last_sequence vs) index, e).

(** The edit that [TryInstallMemtableFlushResults] makes of the tables of the
    memtables that are flushed, from the oldest on. *)
Definition flush_edit (tables : list file) : VersionEdit := foldl (λ e f, AddFileIfNotExist e 0 f) empty_edit tables.

End VersionSet.
