(* ===== verification/LsmVersionGet.v ===== *)
(** * dLSM: lookups in a version

    Where newer versions of a key are in upper levels, and in tables with greater
    numbers within level 0, a lookup finds the newest version that its snapshot
    sees; tables that are numbered the other way around give an older one. *)
From S2P Require Import Prelude LsmCoding LsmFile LsmFormat LsmBlock LsmBlockRefine LsmMemTable LsmFlush LsmTable LsmTableBuild LsmTableGet LsmEdit LsmVersion.
Import Coding Format Edit VersionSet.

#[local] Notation file := RemoteMemTableMetaData.

(** ** Searching a level *)

Section find.
Context (n : nat).

(** An internal key with a user key of at most [n] bytes, or of at least one. *)
Definition key_good (k : list Z) : Prop := Forall byte k ∧ (8 ≤ length k ≤ n + 8)%nat.
Definition key_ok (k : list Z) : Prop := key_good k ∧ (8 < length k)%nat.

#[local] Notation rank k := (internal_rank n k).

Lemma compare_rank a b : key_good a → key_good b → ∃ c, InternalCompare a b = Ok c ∧ Z.sgn c = Z.sgn (rank a - rank b).
Proof. intros Ha Hb. by apply (cmp_rank (KeyOrder := InternalOrder n)). Qed.

Lemma user_key_ok k : key_good k → ExtractUserKey k = Ok (user_of k) ∧ Forall byte (user_of k) ∧ (length (user_of k) ≤ n)%nat.
Proof.
  intros [Hb Hl]. unfold ExtractUserKey, user_of. rewrite (proj2 (Nat.leb_le _ _)) by lia. rewrite length_take. split_and!; [done|by apply Forall_take|lia].
Qed.

Section files.
Context (files : list file) (key : list Z) (Hkeys : Forall (λ f, key_ok (largest f)) files) (Hkey : key_good key).
Context (Hasc : ascending (λ f, rank (largest f)) files).

Lemma find_loop_ok fuel l r :
  0 ≤ l ≤ r → r < len files → len files < 2 ^ 31 → r - l < Z.of_nat fuel →
  (∀ j f, (Z.of_nat j < l) → files !! j = Some f → rank (largest f) < rank key) →
  (r = len files - 1 ∨ ∃ f, files !! Z.to_nat r = Some f ∧ rank key ≤ rank (largest f)) →
  find_loop fuel files key l r =
    Ok (match first_index (λ f, rank key <=? rank (largest f)) files with Some i => Z.of_nat i | None => len files - 1 end).
Proof using Hkeys Hkey Hasc.
  revert l r. induction fuel as [|fuel IH]; intros l r Hl Hr Hs Hf Hleft Hright; [lia|]. cbn [find_loop]. destruct (Z.ltb_spec l r) as [Hlt|Hge].
  - rewrite wrap_small by (split; lia). set (mid := (l + r) / 2). assert (l ≤ mid < r) as Hmid by (unfold mid; Z.to_euclidean_division_equations; lia).
    destruct (lookup_lt_is_Some_2 files (Z.to_nat mid)) as [f Ef]; [unfold len in *; lia|]. unfold at_index. rewrite Ef. cbn [mbind result_bind].
    pose proof (proj1 (Forall_lookup _ _) Hkeys _ _ Ef) as Hk. cbn in Hk. destruct Hk as [Hk H8]. destruct (user_key_ok _ Hk) as [Eu _]. unfold largest_user. rewrite Eu.
    cbn [mbind result_bind]. rewrite (proj2 (Z.ltb_lt _ _)) by (unfold len, user_of; rewrite length_take; lia). cbn [require mbind result_bind].
    destruct (compare_rank (largest f) key Hk Hkey) as (c & -> & Hc). cbn [mbind result_bind]. destruct (Z.ltb_spec c 0).
    + apply IH; try lia; [|done]. intros j g Hj Eg. destruct (decide (Z.of_nat j = mid)) as [E|].
      * assert (Z.to_nat mid = j) as Ej by lia. rewrite Ej in Ef. simplify_eq. lia.
      * destruct (decide (Z.of_nat j < l)); [by eapply Hleft|]. pose proof (ascending_lookup _ _ j (Z.to_nat mid) _ _ Hasc ltac:(lia) Eg Ef) as H1. cbn in H1. lia.
    + apply IH; try lia; [done|]. right. exists f. split; [done|lia].
  - assert (l = r) as -> by lia. f_equal. destruct Hright as [->|(f & Ef & Hrank)].
    + destruct (first_index _ files) as [i|] eqn:Ei; [|done]. pose proof (first_index_lt _ _ _ Ei). apply first_index_Some in Ei as [(f & Ef & Hrank%Z.leb_le) _].
      destruct (decide (Z.of_nat i < len files - 1)) as [Hi|]; [|unfold len in *; lia]. specialize (Hleft i f Hi Ef). lia.
    + replace (first_index _ files) with (Some (Z.to_nat r)); [lia|]. symmetry. apply first_index_Some. split; [exists f; split; [done|by apply Z.leb_le]|].
      intros j g Hj Eg. apply Z.leb_gt. eapply Hleft; [|done]. lia.
Qed.

(** The first file that does not end before the key, or the last one. *)
Lemma FindFile_ok :
  files ≠ [] → len files < 2 ^ 31 →
  FindFile files key =
    Ok (match first_index (λ f, rank key <=? rank (largest f)) files with Some i => Z.of_nat i | None => len files - 1 end).
Proof using Hkeys Hkey Hasc.
  intros Hne Hs. assert (0 < len files) by (destruct files; [done|]; rewrite len_cons; pose proof (len_pos l); lia).
  unfold FindFile. rewrite wrap_small by (split; lia). apply find_loop_ok; try lia. unfold len. lia.
Qed.

End files.

End find.

(** ** The newest of several lists *)

Lemma newest_perm k s vs ws : distinct vs → vs ≡ₚ ws → newest k s vs = newest k s ws.
Proof.
  intros Hd Hp. symmetry. pose proof (newest_spec k s vs) as H. destruct (newest k s vs) as [v|].
  - destruct H as (Hv & Hvis & Hmax). apply newest_eq; [unfold distinct in *; by rewrite <- Hp|by rewrite <- Hp|done|].
    intros w Hw. apply Hmax. by rewrite Hp.
  - apply newest_none. intros w Hw. apply H. by rewrite Hp.
Qed.

Lemma newest_app_none k s A B : newest k s B = None → newest k s (A ++ B) = newest k s A.
Proof. intros HB. induction A as [|a A IH]; [done|]. cbn [app newest]. by rewrite IH. Qed.

Lemma newest_none_app k s A B : newest k s A = None → newest k s (A ++ B) = newest k s B.
Proof.
  intros HA. induction A as [|a A IH]; [done|]. cbn [app newest] in *. destruct (bool_decide (v_key a = k) && (v_seq a <=? s)); [|by apply IH].
  destruct (newest k s A) as [w|]; [by destruct (v_seq a <? v_seq w)|done].
Qed.

Lemma newest_concat_none k s (held : file → list version) files :
  (∀ f, f ∈ files → newest k s (held f) = None) → newest k s (concat (held <$> files)) = None.
Proof.
  induction files as [|f files IH]; intros H; [done|]. cbn [fmap list_fmap concat]. rewrite newest_none_app by (apply H; by left).
  apply IH. intros g Hg. apply H. by right.
Qed.

(** The first answer in a list of probes. *)
Definition first_answer {A B} (f : A → option B) (l : list A) : option B := head (omap f l).

Lemma first_answer_app {A B} (f : A → option B) l m :
  first_answer f (l ++ m) = match first_answer f l with Some x => Some x | None => first_answer f m end.
Proof. unfold first_answer. rewrite omap_app. by destruct (omap f l). Qed.

Lemma first_answer_cons {A B} (f : A → option B) x l : first_answer f (x :: l) = match f x with Some y => Some y | None => first_answer f l end.
Proof. unfold first_answer. cbn. by destruct (f x). Qed.

Lemma first_answer_fmap {A B C} (f : B → option C) (g : A → B) l : first_answer f (g <$> l) = first_answer (λ x, f (g x)) l.
Proof. induction l as [|x l IH]; [done|]. cbn [fmap list_fmap]. by rewrite !first_answer_cons, IH. Qed.

Lemma newest_concat k s (held : file → list version) files :
  StronglySorted (λ f g, not_older (held f) (held g)) files →
  newest k s (concat (held <$> files)) = first_answer (λ f, newest k s (held f)) files.
Proof.
  intros Hs. induction Hs as [|f files Hs IH Hf]; [done|]. cbn [fmap list_fmap concat]. rewrite first_answer_cons, newest_app, IH; [done|].
  intros v w Hv (ks & Hw & (g & -> & Hg)%list_elem_of_fmap)%elem_of_concat. rewrite Forall_forall in Hf. by apply (Hf g Hg).
Qed.

(** ** Probes *)

Section search.
Context {S : Type} (func : S → Z → file → result (bool * S)).

Fixpoint search_probes (s : S) (ps : list (Z * file)) : result (bool * S) :=
  match ps with
  | [] => Ok (true, s)
  | (lvl, f) :: ps => '(more, s) ← func s lvl f; if more : bool then search_probes s ps else Ok (false, s)
  end.

Lemma search_files_probes s lvl files : search_files func s lvl files = search_probes s ((λ f, (lvl, f)) <$> files).
Proof.
  revert s. induction files as [|f files IH]; intros s; [done|]. cbn. destruct (func s lvl f) as [[[] s']|]; cbn; [apply IH|done|done].
Qed.

Lemma search_probes_app s ps qs :
  search_probes s (ps ++ qs) = ('(more, s) ← search_probes s ps; if more : bool then search_probes s qs else Ok (false, s)).
Proof.
  revert s. induction ps as [|[lvl f] ps IH]; intros s; cbn [app search_probes]; [done|].
  destruct (func s lvl f) as [[[] s']|]; cbn [mbind result_bind]; [apply IH|done|done].
Qed.

End search.

(** ** Tables in a version *)

Section tables.
Context (n : nat) {C : Type} (table_get : C → file → list Z → Table.Saver → result (bool * Table.Saver * C)) (good : C → Prop)
  (held : file → list version).
#[local] Notation rank k := (internal_rank n k).

(** What a table promises while the cache is good: to save the newest version
    that a snapshot sees. *)
Definition answers (f : file) : Prop :=
  ∀ c k seq value, good c → version_ok n (MkVersion seq kTypeValue k []) →
    let s := Table.MkSaver Table.kNotFound k value in
    ∃ c', table_get c f (internal k (seq * 256 + 1)) s = Ok (true, from_option (saved s) s (newest k seq (held f)), c') ∧ good c'.

Record table_in (f : file) : Prop := {
  ti_small : key_ok n (smallest f);
  ti_large : key_ok n (largest f);
  ti_order : in_order n (held f);
  ti_range : ∀ v, v ∈ held f → rank (smallest f) ≤ rank_v n v ≤ rank (largest f);
}.

(** A level other than the first: tables one behind the other, each up to its
    largest key. *)
Record level_in (files : list file) : Prop := {
  li_tables : Forall table_in files;
  li_sorted : StronglySorted (λ f g, rank (largest f) < rank (smallest g)) files;
  li_last : ∀ f, f ∈ files → ∃ v, v ∈ held f ∧ rank_v n v = rank (largest f);
  li_count : len files < 2 ^ 31;
}.

Lemma rank_user a b : key_good n a → key_good n b → rank a ≤ rank b → lexrank n (user_of a) ≤ lexrank n (user_of b).
Proof.
  intros [Ha La] [Hb Lb]. destruct (internal_form a Ha ltac:(lia)) as (u & x & -> & Hx & _). destruct (internal_form b Hb ltac:(lia)) as (w & y & -> & Hy & _).
  rewrite !internal_rank_internal, !user_of_internal by done. unfold fits in *. nia.
Qed.

Lemma version_rank v : version_ok n v → rank (internal (v_key v) (v_tag v)) = rank_v n v ∧ key_good n (internal (v_key v) (v_tag v)).
Proof.
  intros Hv. rewrite internal_rank_internal, rank_v_eq by (done || by eapply v_tag_fits). split; [done|]. destruct Hv. unfold key_good. rewrite length_internal.
  split; [|lia]. apply Forall_app_2; [done|apply le_bytes_byte].
Qed.

Section lookup.
Context (k : list Z) (seq : Z) (Hk : version_ok n (MkVersion seq kTypeValue k [])).
#[local] Notation target := (internal k (seq * 256 + 1)).
#[local] Notation find := (newest k seq).

Lemma target_good : key_good n target.
Proof using Hk.
  destruct Hk as [_ Hb Hn _ _]. cbn in *. unfold key_good. rewrite length_internal. split; [|lia]. apply Forall_app_2; [done|apply le_bytes_byte].
Qed.

Lemma target_rank : rank target = lexrank n k * 2 ^ 64 + (2 ^ 64 - 1 - seek_tag seq).
Proof using Hk. apply internal_rank_internal. exact (seek_tag_fits n k seq Hk). Qed.

Lemma held_ok f v : table_in f → v ∈ held f → version_ok n v.
Proof. intros Hf Hv. exact (proj1 (Forall_forall _ _) (io_ok _ _ (ti_order _ Hf)) v Hv). Qed.

Lemma visible_rank f v : table_in f → v ∈ held f → visible k seq v → rank target ≤ rank_v n v < (lexrank n k + 1) * 2 ^ 64.
Proof using Hk. intros Hf Hv Hvis. rewrite target_rank. apply rank_visible; [by eapply held_ok|done]. Qed.

Definition inside (f : file) : bool := (0 <=? slice_compare k (user_of (smallest f))) && (slice_compare k (user_of (largest f)) <=? 0).

Lemma key_user : Forall byte k ∧ (length k ≤ n)%nat.
Proof using Hk. destruct Hk as [_ Hb Hn _ _]. done. Qed.

Lemma compare_user a : key_good n a → Z.sgn (slice_compare k (user_of a)) = Z.sgn (lexrank n k - lexrank n (user_of a)).
Proof using Hk. intros Ha. destruct (user_key_ok n a Ha) as (_ & Hb & Hl), key_user. by apply lexrank_compare. Qed.

(** A table that has a visible version covers the key. *)
Lemma visible_inside f v : table_in f → v ∈ held f → visible k seq v → inside f = true.
Proof using Hk.
  intros Hf Hv [Ek _]. destruct (version_rank v (held_ok f v Hf Hv)) as [Er Hg]. destruct (ti_range _ Hf v Hv) as [H1 H2]. rewrite <- Er in H1, H2.
  apply rank_user in H1; [|apply Hf|done]. apply rank_user in H2; [|done|apply Hf]. rewrite user_of_internal, Ek in H1, H2.
  pose proof (compare_user (smallest f) (proj1 (ti_small _ Hf))) as C1. pose proof (compare_user (largest f) (proj1 (ti_large _ Hf))) as C2.
  unfold inside. rewrite (proj2 (Z.leb_le 0 _)), (proj2 (Z.leb_le _ 0)) by lia. done.
Qed.

Lemma outside_none f : table_in f → inside f = false → find (held f) = None.
Proof using Hk. intros Hf Hi. apply newest_none. intros w Hw Hvis. by rewrite (visible_inside f w Hf Hw Hvis) in Hi. Qed.

Lemma covering_ok files : Forall table_in files → covering k files = Ok (filter (λ f, inside f = true) files).
Proof using Hk.
  intros H. induction H as [|f files Hf H IH]; [done|]. cbn [covering]. unfold smallest_user, largest_user.
  rewrite (proj1 (user_key_ok n _ (proj1 (ti_small _ Hf)))), (proj1 (user_key_ok n _ (proj1 (ti_large _ Hf)))). cbn [mbind result_bind].
  assert ((if 0 <=? slice_compare k (user_of (smallest f)) then Ok (slice_compare k (user_of (largest f)) <=? 0) else Ok false) = Ok (inside f)) as E.
  { unfold inside. by destruct (0 <=? slice_compare k (user_of (smallest f))). }
  rewrite E, IH. cbn [mbind result_bind]. rewrite filter_cons. destruct (inside f); [by rewrite decide_True|by rewrite decide_False].
Qed.

(** *** Level 0 *)

Lemma newest_insert_perm f l : sort_insert f l ≡ₚ f :: l.
Proof. clear. induction l as [|g l IH]; [done|]. cbn. destruct (NewestFirst g f); [|done]. rewrite IH. apply perm_swap. Qed.

Lemma sort_newest_perm l : sort_newest l ≡ₚ l.
Proof. clear. induction l as [|f l IH]; [done|]. cbn. by rewrite newest_insert_perm, IH. Qed.

Lemma sort_insert_sorted f l :
  StronglySorted (λ f g, number g ≤ number f) l → StronglySorted (λ f g, number g ≤ number f) (sort_insert f l).
Proof. clear.
  intros H. induction H as [|g l H IH Hg]; [by repeat constructor|]. cbn. unfold NewestFirst. destruct (Z.ltb_spec (number f) (number g)).
  - constructor; [done|]. apply Forall_forall. intros x. rewrite newest_insert_perm. intros [->|Hx]%elem_of_cons; [lia|]. by eapply Forall_forall in Hg.
  - constructor; [by constructor|]. constructor; [done|]. eapply Forall_impl; [exact Hg|]. cbn. lia.
Qed.

Lemma sort_newest_sorted l : StronglySorted (λ f g, number g ≤ number f) (sort_newest l).
Proof. clear. induction l as [|f l IH]; [constructor|]. by apply sort_insert_sorted. Qed.

Record level0_in (files : list file) : Prop := {
  l0_tables : Forall table_in files;
  l0_numbers : NoDup (number <$> files);
  l0_newer : ∀ f g, f ∈ files → g ∈ files → number g < number f → not_older (held f) (held g);
  l0_distinct : distinct (concat (held <$> files));
}.

Lemma sort_not_older l :
  NoDup (number <$> l) → (∀ f g, f ∈ l → g ∈ l → number g < number f → not_older (held f) (held g)) →
  StronglySorted (λ f g, not_older (held f) (held g)) (sort_newest l).
Proof. clear.
  intros Hnd Hn. pose proof (sort_newest_perm l) as P. setoid_rewrite <- P in Hn. rewrite <- P in Hnd. pose proof (sort_newest_sorted l) as Hs. clear P.
  induction Hs as [|f fs Hs IH Hf]; [constructor|]. cbn [fmap list_fmap] in Hnd. apply NoDup_cons in Hnd as [Hnot Hnd].
  constructor; [apply IH; [done|intros; apply Hn; [by right|by right|done]]|]. apply Forall_forall. intros g Hg. apply Hn; [by left|by right|].
  pose proof (proj1 (Forall_forall _ _) Hf g Hg) as Hle. cbn in Hle. destruct (decide (number g = number f)) as [E|]; [|lia].
  destruct Hnot. rewrite <- E. by apply list_elem_of_fmap_2.
Qed.

Lemma concat_perm (l m : list file) : l ≡ₚ m → concat (held <$> l) ≡ₚ concat (held <$> m).
Proof. clear. intros P. induction P as [|f l m P IH|f g l|l m o P1 IH1 P2 IH2]; cbn; [done|by rewrite IH| |by rewrite IH1]. rewrite !app_assoc. by rewrite (Permutation_app_comm (held g)). Qed.

Lemma level0_newest files :
  level0_in files → find (concat (held <$> files)) = first_answer (λ f, find (held f)) (sort_newest (filter (λ f, inside f = true) files)).
Proof using Hk.
  intros [Ht Hnum Hnew Hdis]. set (ins := filter (λ f, inside f = true) files). set (outs := filter (λ f, ¬ inside f = true) files).
  assert (files ≡ₚ ins ++ outs) as P by (symmetry; apply filter_app_complement).
  rewrite (newest_perm k seq _ (concat (held <$> (ins ++ outs))) Hdis) by (by apply concat_perm). rewrite fmap_app, concat_app, newest_app_none.
  - rewrite <- newest_concat.
    + apply newest_perm; [|by apply concat_perm; rewrite sort_newest_perm]. unfold distinct in *. rewrite (concat_perm _ _ P), fmap_app, concat_app, fmap_app in Hdis.
      by apply NoDup_app in Hdis as [? _].
    + apply sort_not_older.
      * rewrite P, fmap_app in Hnum. by apply NoDup_app in Hnum as [? _].
      * intros f g Hf Hg. apply Hnew; rewrite P; apply elem_of_app; by left.
  - apply newest_concat_none. intros f [Hi Hf]%list_elem_of_filter. apply outside_none; [by eapply Forall_forall in Ht|by apply not_true_is_false].
Qed.

(** *** Other levels *)

Definition found_file (files : list file) : nat :=
  match first_index (λ f, rank target <=? rank (largest f)) files with Some i => i | None => pred (length files) end.

Definition level_probe (files : list file) : list file :=
  match files !! found_file files with
  | Some f => if slice_compare k (user_of (smallest f)) <? 0 then [] else [f]
  | None => []
  end.

Fixpoint level_probes (lvl : Z) (levels : list (list file)) : list (Z * file) :=
  match levels with [] => [] | files :: levels => ((λ f, (lvl, f)) <$> level_probe files) ++ level_probes (lvl + 1) levels end.

Lemma file_range f : table_in f → rank (smallest f) ≤ rank (largest f).
Proof. clear. intros Hf. destruct (held f) as [|v l] eqn:E; [by destruct (io_some _ _ (ti_order _ Hf))|]. pose proof (ti_range _ Hf v ltac:(rewrite E; by left)). lia. Qed.

Lemma level_ascending files : level_in files → ascending (λ f, rank (largest f)) files.
Proof. clear.
  intros [Ht Hs _ _]. induction Hs as [|f files Hs IH Hf]; [constructor|]. apply Forall_cons in Ht as [_ Ht]. constructor; [by apply IH|].
  apply Forall_forall. intros g Hg. pose proof (proj1 (Forall_forall _ _) Hf g Hg) as H. cbn in H. pose proof (file_range g ltac:(by eapply Forall_forall in Ht)). cbn. lia.
Qed.

Lemma FindFile_level files : level_in files → files ≠ [] → FindFile files target = Ok (Z.of_nat (found_file files)) ∧ (found_file files < length files)%nat.
Proof using Hk.
  intros Hl Hne. assert (length files ≠ 0)%nat by (by destruct files). rewrite (FindFile_ok n).
  - unfold found_file. destruct (first_index _ files) as [i|] eqn:Ei; [by apply first_index_lt in Ei|]. unfold len. split; [f_equal; lia|lia].
  - eapply Forall_impl; [apply (li_tables _ Hl)|]. intros f Hf. apply Hf.
  - apply target_good.
  - by apply level_ascending.
  - done.
  - apply Hl.
Qed.

Lemma search_levels_probes {S} (func : S → Z → file → result (bool * S)) levels lvl s :
  Forall level_in levels → search_levels func s k target lvl levels = search_probes func s (level_probes lvl levels).
Proof using Hk.
  intros H. revert lvl s. induction H as [|files levels Hl H IH]; intros lvl s; [done|]. cbn [search_levels level_probes].
  rewrite search_probes_app. destruct files as [|f0 files0] eqn:Ef.
  - change (len (@nil file) =? 0) with true. cbn. apply IH.
  - rewrite <- Ef in *. rewrite (proj2 (Z.eqb_neq _ _)) by (rewrite Ef, len_cons; pose proof (len_pos files0); lia).
    destruct (FindFile_level files Hl ltac:(by rewrite Ef)) as [-> Hlt]. cbn [mbind result_bind]. rewrite (proj2 (Z.ltb_lt _ _)) by (unfold len; lia). rewrite Nat2Z.id.
    unfold level_probe, at_index. destruct (lookup_lt_is_Some_2 _ _ Hlt) as [f Hf]. rewrite Hf. cbn [mbind result_bind].
    pose proof (proj1 (Forall_lookup _ _) (li_tables _ Hl) _ _ Hf) as Hin. unfold smallest_user. rewrite (proj1 (user_key_ok n _ (proj1 (ti_small _ Hin)))). cbn [mbind result_bind].
    destruct (slice_compare k (user_of (smallest f)) <? 0); cbn [fmap list_fmap search_probes mbind result_bind]; [apply IH|].
    destruct (func s lvl f) as [[[] s']|]; cbn; [apply IH|done|done].
Qed.

(** Nothing is visible in front of the file that is found, nor behind it unless
    the file has a visible version. *)
Lemma before_none files g : level_in files → g ∈ take (found_file files) files → find (held g) = None.
Proof using Hk.
  intros Hl Hg. pose proof (list_elem_of_lookup_1 _ _ Hg) as [j Hj]. apply lookup_take_Some in Hj as [Hj Hlt].
  pose proof (proj1 (Forall_lookup _ _) (li_tables _ Hl) _ _ Hj) as Hin. apply newest_none. intros w Hw Hvis.
  pose proof (visible_rank g w Hin Hw Hvis). pose proof (ti_range _ Hin w Hw).
  assert (rank (largest g) < rank target); [|lia]. unfold found_file in Hlt. destruct (first_index _ files) as [i|] eqn:Ei.
  - apply first_index_Some in Ei as [_ Hb]. by apply Z.leb_gt, (Hb j g).
  - rewrite first_index_None in Ei. by apply Z.leb_gt, (Ei j g).
Qed.

Lemma after_none files f g :
  level_in files → files !! found_file files = Some f → g ∈ drop (S (found_file files)) files → find (held f) = None → find (held g) = None.
Proof using Hk.
  intros Hl Hf Hg En. pose proof (list_elem_of_lookup_1 _ _ Hg) as [j Hj]. rewrite lookup_drop in Hj. unfold found_file in *. pose proof (lookup_lt_Some _ _ _ Hj).
  destruct (first_index _ files) as [i|] eqn:Ei; [|lia]. apply first_index_Some in Ei as [(f' & Ef' & Hr%Z.leb_le) _]. assert (f' = f) as -> by congruence.
  pose proof (proj1 (Forall_lookup _ _) (li_tables _ Hl) _ _ Hj) as Hing. pose proof (proj1 (Forall_lookup _ _) (li_tables _ Hl) _ _ Hf) as Hinf.
  apply newest_none. intros w Hw Hvis. pose proof (visible_rank g w Hing Hw Hvis) as Hwr. pose proof (ti_range _ Hing w Hw).
  destruct (li_last _ Hl f ltac:(by eapply list_elem_of_lookup_2)) as (v & Hv & Ev). pose proof (held_ok f v Hinf Hv) as Hvo.
  assert (rank (largest f) < rank (smallest g)) as Hfg.
  { pose proof (li_sorted _ Hl) as Hs. rewrite <- (take_drop_middle files _ f Hf) in Hs. apply StronglySorted_app_1_r in Hs.
    apply StronglySorted_inv in Hs as [_ Hs]. by eapply Forall_forall in Hs. }
  pose proof (newest_spec k seq (held f)) as Hnone. rewrite En in Hnone. rewrite target_rank, <- Ev in Hr.
  assert (v_key v ≠ k) as Hne by (intros E; apply (Hnone v Hv); by apply (rank_same_key n)).
  pose proof (rank_other_key n k seq Hk v Hvo Hne Hr). lia.
Qed.

(** The newest version of a level is in the file that is found. *)
Lemma level_newest files : level_in files → find (concat (held <$> files)) = first_answer (λ f, find (held f)) (level_probe files).
Proof using Hk.
  intros Hl. destruct (decide (files = [])) as [->|Hne]; [done|]. destruct (FindFile_level files Hl Hne) as [_ Hlt]. unfold level_probe.
  destruct (lookup_lt_is_Some_2 _ _ Hlt) as [f Hf]. rewrite Hf. pose proof (li_tables _ Hl) as Ht. rewrite Forall_forall in Ht.
  pose proof (Ht f ltac:(by eapply list_elem_of_lookup_2)) as Hin.
  assert (find (concat (held <$> files)) = find (held f)) as ->; cycle 1.
  { destruct (Z.ltb_spec (slice_compare k (user_of (smallest f))) 0) as [Hc|Hc]; [|unfold first_answer; cbn; by destruct (find (held f))].
    apply outside_none; [done|]. unfold inside. by rewrite (proj2 (Z.leb_gt _ _)). }
  pose proof (li_sorted _ Hl) as Hs. rewrite <- (take_drop_middle files _ f Hf), fmap_app, fmap_cons, concat_app. rewrite <- (take_drop_middle files _ f Hf) in Hs.
  cbn [concat]. apply StronglySorted_app_1_r, StronglySorted_inv in Hs as [_ Hs]. rewrite newest_none_app.
  - rewrite newest_app.
    + destruct (find (held f)) eqn:En; [done|]. apply newest_concat_none. intros g Hg. by eapply after_none.
    + intros v w Hv (vs & Hw & (g & -> & Hg)%list_elem_of_fmap)%elem_of_concat Ek. pose proof (proj1 (Forall_forall _ _) Hs g Hg) as Hfg. cbn in Hfg.
      assert (table_in g) as Hing by (apply Ht; rewrite <- (take_drop (S (found_file files)) files); apply elem_of_app; by right).
      pose proof (ti_range _ Hin v Hv). pose proof (ti_range _ Hing w Hw). assert (rank_v n v < rank_v n w) as Hr by lia.
      pose proof (held_ok f v Hin Hv). pose proof (held_ok g w Hing Hw). rewrite !rank_v_eq, Ek in Hr by done. unfold v_tag in Hr. destruct (v_type v), (v_type w); cbn in Hr; lia.
  - apply newest_concat_none. intros g Hg. by eapply before_none.
Qed.

(** *** All levels *)

Record version_in (v : Version) : Prop := {
  vi_levels : ∃ level0 levels, levels_ v = level0 :: levels ∧ level0_in level0 ∧ Forall level_in levels;
  vi_newer : StronglySorted (λ a b, not_older (concat (held <$> a)) (concat (held <$> b))) (levels_ v);
}.

Definition all_held (v : Version) : list version := concat ((λ files, concat (held <$> files)) <$> levels_ v).

Lemma newest_levels levels :
  Forall level_in levels → StronglySorted (λ a b, not_older (concat (held <$> a)) (concat (held <$> b))) levels →
  ∀ lvl, find (concat ((λ files, concat (held <$> files)) <$> levels)) = first_answer (λ p, find (held p.2)) (level_probes lvl levels).
Proof using Hk.
  intros Hl Hs. induction Hs as [|files levels Hs IH Hf]; intros lvl; [done|]. apply Forall_cons in Hl as [Hfiles Hl]. cbn [fmap list_fmap concat level_probes].
  rewrite first_answer_app, newest_app, (IH Hl (lvl + 1)), level_newest; [|done|].
  - by rewrite first_answer_fmap.
  - intros v w Hv (vs & Hw & (g & -> & Hg)%list_elem_of_fmap)%elem_of_concat. rewrite Forall_forall in Hf. by apply (Hf g Hg).
Qed.

(** The answer of a lookup. *)
Definition get_answer (value : list Z) (o : option version) : status * list Z :=
  match o with
  | Some w => match v_type w with kTypeValue => (StatusOK, v_value w) | kTypeDeletion => (StatusNotFound, value) end
  | None => (StatusNotFound, value)
  end.

Lemma search_match value ps s :
  Forall (λ p, answers p.2) ps → g_saver s = Table.MkSaver Table.kNotFound k value → g_found s = false → good (g_cache s) →
  ∃ more s', search_probes (Match table_get target) s ps = Ok (more, s') ∧
    more = negb (bool_decide (is_Some (first_answer (λ p, find (held p.2)) ps))) ∧
    (if g_found s' then g_status s' else StatusNotFound, Table.saver_value (g_saver s')) = get_answer value (first_answer (λ p, find (held p.2)) ps) ∧
    (more = true → g_saver s' = g_saver s ∧ g_found s' = false) ∧ good (g_cache s').
Proof using Hk.
  intros Ha. revert s. induction Ha as [|[lvl f] ps Hf Ha IH]; intros s Es Ef Hc; cbn [search_probes].
  { exists true, s. split; [done|]. split; [done|]. rewrite Ef, Es. done. }
  cbn [snd] in Hf. unfold Match. destruct (Hf (g_cache s) k seq value Hc Hk) as (c' & E & Hc'). rewrite Es, E. cbn [mbind result_bind negb]. rewrite first_answer_cons. cbn [snd].
  destruct (find (held f)) as [w|]; cbn [from_option].
  - unfold saved, get_answer. cbn [Table.saver_user_key Table.saver_value]. rewrite bool_decide_eq_true_2 by done.
    destruct (v_type w); cbn; eexists _, _; (split; [done|]); (split; [done|]); (split; [|by split]); cbn; [by rewrite Ef|done].
  - cbn [Table.state]. edestruct IH as (more & s' & -> & Hm & Hv & Hk' & Hg); [| | |exists more, s'; split; [done|]; split; [done|]; split; [exact Hv|]]; [done|done|done|].
    split; [|done]. intros ->. by apply Hk'.
Qed.

Lemma level_probes_answer levels lvl : (∀ f, f ∈ concat levels → answers f) → Forall (λ p, answers p.2) (level_probes lvl levels).
Proof. clear Hk.
  revert lvl. induction levels as [|files levels IH]; intros lvl H; [constructor|]. cbn [level_probes concat] in *. apply Forall_app.
  split; [|apply IH; intros f Hf; apply H, elem_of_app; by right].
  apply Forall_fmap. unfold level_probe. destruct (files !! found_file files) as [f|] eqn:Ef; [|constructor].
  destruct (slice_compare k (user_of (smallest f)) <? 0); [constructor|]. apply Forall_singleton, H, elem_of_app. left. by eapply list_elem_of_lookup_2.
Qed.

Lemma lookup_internal lkey : make_lookup k seq = Ok lkey → lookup_user_key lkey = k ∧ internal_key lkey = target.
Proof using Hk.
  intros E. destruct (make_lookup_ok n k seq Hk) as (lkey' & E' & Hu & _). assert (lkey' = lkey) as -> by congruence. split; [done|].
  unfold make_lookup in E. destruct Hk as [Hs _ _ _ _]. cbn in Hs. change kValueTypeForSeek with kTypeValue in E.
  destruct (PackSequenceAndType_spec seq kTypeValue Hs) as [Ep _]. rewrite Ep in E. cbn [mbind result_bind] in E. injection E as <-.
  unfold internal_key. cbn [lookup_bytes kstart]. by rewrite drop_app_length.
Qed.

Lemma Get_newest v value c :
  version_in v → (∀ f, f ∈ concat (levels_ v) → answers f) → good c →
  ∃ stats c', (lkey ← make_lookup k seq; Get table_get v lkey value c) = Ok (get_answer value (find (all_held v)), stats, c') ∧ good c'.
Proof using Hk.
  intros [(l0 & levels & El & H0 & Hl) Hs] Hanswer Hc. destruct (make_lookup_ok n k seq Hk) as (lkey & E & _). rewrite E. cbn [mbind result_bind].
  destruct (lookup_internal lkey E) as [Eu Ei]. unfold Get. rewrite Eu, Ei. unfold ForEachOverlapping. rewrite El. cbn [at_index lookup list_lookup mbind result_bind drop].
  rewrite (covering_ok l0 (l0_tables _ H0)). cbn [mbind result_bind]. rewrite search_files_probes. set (ps0 := _ <$> sort_newest _).
  set (s0 := MkGetState _ _ _ _ _ _). rewrite El in Hs. apply StronglySorted_inv in Hs as [Hs Hf].
  assert (find (all_held v) = first_answer (λ p, find (held p.2)) (ps0 ++ level_probes 1 levels)) as ->.
  { unfold all_held. rewrite El. cbn [fmap list_fmap concat]. rewrite first_answer_app, newest_app, (newest_levels levels Hl Hs 1), level0_newest; [|done|].
    - unfold ps0. by rewrite first_answer_fmap.
    - intros x w Hv (vs & Hw & (g & -> & Hg)%list_elem_of_fmap)%elem_of_concat. rewrite Forall_forall in Hf. by apply (Hf g Hg). }
  assert (Forall (λ p, answers p.2) (ps0 ++ level_probes 1 levels)) as Hans.
  { rewrite El in Hanswer. apply Forall_app. split.
    - apply Forall_fmap. rewrite sort_newest_perm. apply Forall_forall. intros f [_ Hin]%list_elem_of_filter. apply Hanswer, elem_of_app. by left.
    - apply level_probes_answer. intros f Hin. apply Hanswer, elem_of_app. by right. }
  apply Forall_app in Hans as [Ha0 Ha1]. destruct (search_match value ps0 s0 Ha0) as (more & s1 & -> & Hm & Hv & Hmore & Hc1); [done|done|done|]. cbn [mbind result_bind].
  rewrite first_answer_app. destruct more.
  - destruct (Hmore eq_refl) as [Es Ef]. rewrite drop_0, search_levels_probes by done.
    destruct (search_match value (level_probes 1 levels) s1 Ha1) as (more & s2 & -> & _ & Hv2 & _ & Hc2); [done|done|done|]. cbn [mbind result_bind].
    exists (g_seek_file s2), (g_cache s2). rewrite Hv2. split; [|done].
    symmetry in Hm. apply negb_true_iff, bool_decide_eq_false in Hm. destruct (first_answer _ ps0); [by destruct Hm|done].
  - exists (g_seek_file s1), (g_cache s1). cbn [mbind result_bind]. rewrite Hv. split; [|done]. symmetry in Hm. apply negb_false_iff, bool_decide_eq_true in Hm as [x ->]. done.
Qed.

End lookup.

End tables.

(** ** Versions over tables in remote memory *)

Section stored.
Context (opt : Table.options) (block_address trailer_address n : nat) (slot_of : Z → nat) (mem : list (list Z)) (held : file → list version).
Context (evict : table_cache → table_cache) (Hevict : ∀ c, evict c ⊆ c).

(** The table is byte-addressable and in remote memory. *)
Definition table_stored (f : file) : Prop := stored opt block_address trailer_address n (meta_of_file slot_of f) mem (held f).

(** What the cache has under the number of one of the files was opened from it. *)
Definition cache_ok (files : list file) (c : table_cache) : Prop :=
  ∀ f t, f ∈ files → c !! number f = Some t → Table.Open opt block_address mem (meta_of_file slot_of f) = Ok t.

Lemma cache_empty files : cache_ok files ∅.
Proof. intros f t _. by rewrite lookup_empty. Qed.

(** Of two files with the same number the cache has one. *)
Lemma number_inj (files : list file) f g : NoDup (number <$> files) → f ∈ files → g ∈ files → number f = number g → f = g.
Proof.
  intros Hd [i Hi]%list_elem_of_lookup [j Hj]%list_elem_of_lookup E. assert (i = j) as ->; [|congruence].
  eapply NoDup_lookup; [exact Hd| |]; rewrite list_lookup_fmap; [by rewrite Hi|]. by rewrite Hj, E.
Qed.

#[local] Notation cached_get := (TableCache_Get opt block_address slot_of mem evict).

Lemma stored_answers files f :
  NoDup (number <$> files) → f ∈ files → table_stored f → answers n cached_get (cache_ok files) held f.
Proof using Hevict.
  intros Hd Hin Hf c k seq value Hc Hk s. destruct (stored_get opt block_address trailer_address n _ _ _ Hf) as (t & Et & Hget).
  assert (∃ c', FindTable opt block_address slot_of mem evict c f = Ok (t, c') ∧ cache_ok files c') as (c' & E & Hc').
  { unfold FindTable. destruct (c !! number f) as [t'|] eqn:El.
    - pose proof (Hc f t' Hin El) as E. rewrite Et in E. injection E as <-. by exists c.
    - rewrite Et. eexists. split; [done|]. intros g u Hg Hu. pose proof (lookup_weaken _ _ _ _ Hu (Hevict _)) as Hi.
      apply lookup_insert_Some in Hi as [[En <-]|[_ Hi]]; [|by apply Hc]. by rewrite <- (number_inj files f g Hd Hin Hg En). }
  exists c'. split; [|done]. unfold TableCache_Get. rewrite E. cbn [mbind result_bind]. by rewrite (Hget k seq s Hk eq_refl).
Qed.

(** C8: a lookup in the tables finds the newest version.  In a version of
    byte-addressable tables in remote memory, no two with the same number, with
    newer versions of a key in upper levels and within level 0 in tables with
    greater numbers, a lookup through the cache of opened tables, which knows
    tables by their number and drops any entries, never fails an assertion and
    returns the value of the newest version of the key that the snapshot sees, or
    says that there is none or that it is a deletion; the entries of the cache
    stay right. *)
Theorem version_get v k seq value c :
  version_in n held v → (∀ f, f ∈ concat (levels_ v) → table_stored f) → NoDup (number <$> concat (levels_ v)) →
  version_ok n (MkVersion seq kTypeValue k []) → cache_ok (concat (levels_ v)) c →
  ∃ stats c', (lkey ← make_lookup k seq; Get cached_get v lkey value c) = Ok (get_answer value (newest k seq (all_held held v)), stats, c') ∧
    cache_ok (concat (levels_ v)) c'.
Proof using Hevict. intros Hv Ht Hd Hk Hc. eapply Get_newest; [done|done| |done]. intros f Hf. apply stored_answers; auto. Qed.

(** C37: the numbers of the tables of level 0 decide.  Where, of two
    byte-addressable tables of level 0, the one with the older version of a key
    has the greater number, a lookup returns the older version, although both are
    visible.  The number of a table is drawn when its flush begins to write it, in
    no fixed order with the other flush threads. *)
Theorem level0_stale_read v f g levels k seq value a b c :
  levels_ v = [f; g] :: levels → table_in n held f → table_in n held g → table_stored f → table_stored g →
  version_ok n (MkVersion seq kTypeValue k []) → newest k seq (held f) = Some a → newest k seq (held g) = Some b → v_seq b < v_seq a →
  number f < number g → cache_ok [f; g] c →
  ∃ stats c', (lkey ← make_lookup k seq; Get cached_get v lkey value c) = Ok (get_answer value (Some b), stats, c').
Proof using Hevict.
  intros El Hf Hg Sf Sg Hk Ea Eb _ Hnum Hc. destruct (make_lookup_ok n k seq Hk) as (lkey & E & _). rewrite E. cbn [mbind result_bind].
  destruct (lookup_internal n k seq Hk lkey E) as [Eu Ei]. unfold Get. rewrite Eu, Ei. unfold ForEachOverlapping. rewrite El.
  cbn [at_index lookup list_lookup mbind result_bind]. rewrite (covering_ok n held k seq Hk) by (constructor; [done|by apply Forall_singleton]). cbn [mbind result_bind].
  assert (∀ x y, table_in n held x → newest k seq (held x) = Some y → inside k x = true) as Hin.
  { intros x y Hx Ey. pose proof (newest_spec k seq (held x)) as Hy. rewrite Ey in Hy. destruct Hy as (Hy & Hvis & _). by apply (visible_inside n held k seq Hk x y). }
  rewrite !filter_cons_True, filter_nil by (by eapply Hin). unfold sort_newest. cbn [foldr sort_insert]. unfold NewestFirst. rewrite (proj2 (Z.ltb_lt _ _)) by done.
  assert (∀ x, x ∈ [f; g] → table_stored x → answers n cached_get (cache_ok [f; g]) held x) as Ha.
  { intros x Hx. apply stored_answers; [|done]. cbn. repeat constructor; [|apply not_elem_of_nil]. intros ?%list_elem_of_singleton. lia. }
  rewrite search_files_probes. destruct (search_match n cached_get (cache_ok [f; g]) held k seq Hk value ((λ f, (0, f)) <$> [g; f])
    (MkGetState (Table.MkSaver Table.kNotFound k value) None None StatusOK false c)) as (more & s & -> & Hm & Hv & _); [|done|done|done|].
  { constructor; [|apply Forall_singleton]; apply Ha; set_solver. }
  rewrite first_answer_fmap, first_answer_cons in Hm, Hv. cbn [snd] in Hm, Hv. rewrite Eb in Hm, Hv. cbn in Hm. subst more. cbn [mbind result_bind].
  exists (g_seek_file s), (g_cache s). by rewrite Hv.
Qed.

End stored.

(** ** Two sample tables *)

Definition sample_newer : list version := [MkVersion 9 kTypeValue [97] [42]; MkVersion 8 kTypeDeletion [98] []].

Lemma sample_newer_room : room sample_options (kv_of <$> sample_newer).
Proof. split; try by vm_compute. repeat constructor; by vm_compute. Qed.

Lemma sample_newer_order : in_order 2 sample_newer.
Proof. split; [done| | |apply (bool_decide_unpack _); by vm_compute]; repeat constructor; by vm_compute. Qed.

Definition sample_table (remote0 : list (list Z)) (ks : list version) : option Table.job :=
  match Table.make_rep sample_options sample_slot remote0 with
  | Ok (r, c) =>
      match sample_run (concat (replicate 12 [true; false])) (Table.MkJob r c (Table.Adding (kv_of <$> ks))) with Ok s => Some s | Err _ => None end
  | Err _ => None
  end.

Lemma sample_table_stored remote0 ks s :
  room sample_options (kv_of <$> ks) → in_order 2 ks → sample_table remote0 ks = Some s → Table.j_phase s = Table.Finished →
  stored sample_options 0 3 2 (meta_of (Table.j_rep s)) (Table.remote (Table.j_card s)) ks.
Proof.
  unfold sample_table. intros R Ho. destruct (Table.make_rep _ _ _) as [[r c]|] eqn:E; [|done]. destruct (sample_run _ _) as [s'|] eqn:Es; [|done]. intros [= <-] Hp.
  exact (finished_stored _ _ _ _ _ _ len_sample_slot len_sample_slot _ _ _ _ _ R Ho E (sample_run_steps _ _ _ Es) Hp).
Qed.

Definition sample_mrs (mrs : list (Z * Table.mr)) : list (Z * ibv_mr) :=
  (λ e, (e.1, MkIbvMr 0 0 (Z.of_nat (Table.mr_slot e.2)) (Table.mr_length e.2) 0 0 0)) <$> mrs.

(** The metadata of a table with keys from [97] to [98]. *)
Definition sample_file (number first last : Z) (s : Table.job) : file :=
  let r := Table.j_rep s in
  MkFile 0 Table.byte_addressable number 0 1 600 (internal [97] first) (internal [98] last) (sample_mrs (Table.remote_data_mrs r)) (sample_mrs (Table.remote_dataindex_mrs r))
    (sample_mrs (Table.remote_filter_mrs r)) 100 false.

Definition sample_old_file (number : Z) : Table.job → file := sample_file number (7 * 256 + 1) (4 * 256 + 1).
Definition sample_new_file (number : Z) : Table.job → file := sample_file number (9 * 256 + 1) (8 * 256).

(** Which table is the one with the number 2? *)
Definition sample_held (newer : bool) (f : file) : list version := if Bool.eqb (number f =? 2) newer then sample_newer else sample_versions.

(** Both tables in one remote memory, the newer one built behind the older one. *)
Lemma sample_tables :
  ∃ old new, let mem := Table.remote (Table.j_card new) in
    ∀ newer : bool, let o := if newer then 1 else 2 in
      table_stored sample_options 0 3 2 Z.to_nat mem (sample_held newer) (sample_old_file o old) ∧
      table_stored sample_options 0 3 2 Z.to_nat mem (sample_held newer) (sample_new_file (3 - o) new).
Proof.
  destruct (sample_table [] sample_versions) as [old|] eqn:E1; [|by vm_compute in E1].
  destruct (sample_table (Table.remote (Table.j_card old)) sample_newer) as [new|] eqn:E2; cycle 1.
  { exfalso. revert E2. vm_compute in E1. injection E1 as <-. by vm_compute. }
  exists old, new. cbn zeta. intros newer. unfold table_stored.
  assert (Table.j_phase old = Table.Finished ∧ Table.j_phase new = Table.Finished ∧ Table.remote (Table.j_card old) `prefix_of` Table.remote (Table.j_card new) ∧
    ∀ i j, meta_of_file Z.to_nat (sample_old_file i old) = meta_of (Table.j_rep old) ∧ meta_of_file Z.to_nat (sample_new_file j new) = meta_of (Table.j_rep new))
    as (P1 & P2 & Hmem & Hm).
  { revert E2. vm_compute in E1. injection E1 as <-. intros E2. vm_compute in E2. injection E2 as <-.
    split; [done|]. split; [done|]. split; [|intros i j; split; by vm_compute]. apply (bool_decide_unpack _). by vm_compute. }
  rewrite !(fun i => proj1 (Hm i 0)), !(fun j => proj2 (Hm 0 j)). split.
  - eapply stored_more; [|exact Hmem]. destruct newer; by apply (sample_table_stored _ _ _ sample_room sample_order E1).
  - destruct newer; by apply (sample_table_stored _ _ _ sample_newer_room sample_newer_order E2).
Qed.

Lemma sample_table_in newer o old new :
  o = (if newer : bool then 1 else 2) → table_in 2 (sample_held newer) (sample_old_file o old) ∧ table_in 2 (sample_held newer) (sample_new_file (3 - o) new).
Proof.
  intros ->. assert (∀ x t, byte x → fits 64 t → key_ok 2 (internal [x] t)) as Hkey.
  { intros x t Hx Ht. split; [split|]; [|rewrite length_internal; cbn; lia..]. apply Forall_app_2; [by constructor|apply le_bytes_byte]. }
  split; split; try (by apply Hkey; unfold byte, fits; lia).
  - destruct newer; exact sample_order.
  - destruct newer; apply (proj1 (Forall_forall _ _)); repeat constructor; by vm_compute.
  - destruct newer; exact sample_newer_order.
  - destruct newer; apply (proj1 (Forall_forall _ _)); repeat constructor; by vm_compute.
Qed.

Lemma sample_snapshot x : byte x → version_ok 2 (MkVersion 10 kTypeValue [x] []).
Proof. intros Hx. split; try by vm_compute. by constructor. cbn. lia. Qed.

Definition sample_version (newer : bool) (old new : Table.job) : Version :=
  let o := if newer then 1 else 2 in MkVersionOf ([sample_old_file o old; sample_new_file (3 - o) new] :: replicate 5 []) [].

Lemma sample_not_older : not_older sample_newer sample_versions.
Proof.
  intros v w Hv Hw. revert v Hv w Hw. refine (proj1 (Forall_forall _ _) _).
  repeat apply Forall_cons_2; try apply Forall_nil_2; refine (proj1 (Forall_forall _ _) _); repeat apply Forall_cons_2; try apply Forall_nil_2; cbn; lia || done.
Qed.

Lemma sample_version_in old new : version_in 2 (sample_held true) (sample_version true old new).
Proof.
  destruct (sample_table_in true 1 old new eq_refl) as [To Tn]. split.
  - eexists _, _. split; [done|]. split.
    + split.
      * by apply Forall_cons_2; [|apply Forall_singleton].
      * apply (bool_decide_unpack _). by vm_compute.
      * intros f g [->|[->|[]%elem_of_nil]%elem_of_cons]%elem_of_cons [->|[->|[]%elem_of_nil]%elem_of_cons]%elem_of_cons; cbn [number sample_old_file sample_new_file sample_file];
          try lia. intros _. exact sample_not_older.
      * apply (bool_decide_unpack _). by vm_compute.
    + apply Forall_replicate. by split; [constructor|constructor|intros f ?%elem_of_nil|].
  - repeat constructor; intros x w ? ?%elem_of_nil; done.
Qed.

Lemma version_get_witness :
  ∃ mem v stats1 stats2 stats3 c1 c2 c3, let get := Get (TableCache_Get sample_options 0 Z.to_nat mem (λ c, c)) in
    (lkey ← make_lookup [97] 10; get v lkey [] ∅) = Ok (StatusOK, [42], stats1, c1) ∧
    (lkey ← make_lookup [98] 10; get v lkey [] c1) = Ok (StatusNotFound, [], stats2, c2) ∧
    (lkey ← make_lookup [97] 6; get v lkey [] c2) = Ok (StatusOK, replicate 60 2, stats3, c3).
Proof.
  destruct sample_tables as (old & new & Hs). specialize (Hs true). cbn zeta in Hs. destruct Hs as [So Sn].
  set (mem := Table.remote (Table.j_card new)) in *. set (v := sample_version true old new).
  assert (∀ f, f ∈ concat (levels_ v) → table_stored sample_options 0 3 2 Z.to_nat mem (sample_held true) f) as Ht.
  { cbn. intros f [->|[->|[]%elem_of_nil]%elem_of_cons]%elem_of_cons; done. }
  assert (NoDup (number <$> concat (levels_ v))) as Hd by (apply (bool_decide_unpack _); by vm_compute).
  destruct (version_get sample_options 0 3 2 Z.to_nat mem (sample_held true) (λ c, c) (λ c, reflexivity c) v [97] 10 [] ∅
    (sample_version_in old new) Ht Hd (sample_snapshot 97 ltac:(done)) (cache_empty _ _ _ _ _)) as (s1 & c1 & E1 & H1).
  destruct (version_get sample_options 0 3 2 Z.to_nat mem (sample_held true) (λ c, c) (λ c, reflexivity c) v [98] 10 [] c1
    (sample_version_in old new) Ht Hd (sample_snapshot 98 ltac:(done)) H1) as (s2 & c2 & E2 & H2).
  destruct (version_get sample_options 0 3 2 Z.to_nat mem (sample_held true) (λ c, c) (λ c, reflexivity c) v [97] 6 [] c2
    (sample_version_in old new) Ht Hd (sample_key 97 ltac:(done)) H2) as (s3 & c3 & E3 & _).
  exists mem, v, s1, s2, s3, c1, c2, c3. cbn zeta. rewrite E1, E2, E3. split_and!; by vm_compute.
Defined.

Lemma level0_stale_read_witness :
  ∃ mem v stats c, (lkey ← make_lookup [97] 10; Get (TableCache_Get sample_options 0 Z.to_nat mem (λ c, c)) v lkey [] ∅) = Ok (StatusOK, replicate 60 1, stats, c).
Proof.
  destruct sample_tables as (old & new & Hs). specialize (Hs false). cbn zeta in Hs. destruct Hs as [So Sn].
  destruct (sample_table_in false 2 old new eq_refl) as [To Tn].
  set (v := MkVersionOf [[sample_new_file 1 new; sample_old_file 2 old]] []).
  destruct (level0_stale_read sample_options 0 3 2 Z.to_nat _ (sample_held false) (λ c, c) (λ c, reflexivity c) v _ _ [] [97] 10 [] (MkVersion 9 kTypeValue [97] [42])
    (MkVersion 7 kTypeValue [97] (replicate 60 1)) ∅ eq_refl Tn To Sn So (sample_snapshot 97 ltac:(done)) eq_refl eq_refl ltac:(done) ltac:(done) (cache_empty _ _ _ _ _))
    as (stats & c & E).
  exists (Table.remote (Table.j_card new)), v, stats, c. exact E.
Defined.
