(* ===== verification/LsmVersionEdit.v ===== *)
(** * dLSM: applying an edit to a version

    The builder of a version merges the tables that an edit adds with those of the
    version before it, level by level, and leaves out the deleted ones.  The
    result is proved to be exactly those tables, in order, with no assertion of
    the builder failing; installing a flushed table keeps the invariant of lookups
    and makes its versions visible. *)
From S2P Require Import Prelude LsmCoding LsmFile LsmFormat LsmBlock LsmBlockRefine LsmMemTable LsmFlush LsmTable LsmTableBuild LsmTableGet LsmEdit LsmVersion LsmVersionGet.
Import Coding Format Edit VersionSet.

#[local] Notation file := RemoteMemTableMetaData.

(** ** Filtered lists *)

Section filtered.
Context {A : Type} (P : A → Prop) `{∀ x, Decision (P x)}.

Lemma filter_all (l : list A) : (∀ x, x ∈ l → P x) → filter P l = l.
Proof. induction l as [|x l IH]; intros Hl; [done|]. rewrite filter_cons_True by (apply Hl; by left). rewrite IH; [done|]. intros y Hy. apply Hl. by right. Qed.

Lemma filter_sorted (R : A → A → Prop) (l : list A) : StronglySorted R l → StronglySorted R (filter P l).
Proof.
  intros Hs. induction Hs as [|x l Hs IH Hx]; [constructor|]. rewrite filter_cons. case_decide; [|done]. constructor; [done|].
  apply Forall_forall. intros y [_ Hy]%list_elem_of_filter. by eapply Forall_forall in Hx.
Qed.

End filtered.

Lemma sorted_weaken {A} (R S : A → A → Prop) (l : list A) : (∀ x y, R x y → S x y) → StronglySorted R l → StronglySorted S l.
Proof. intros HRS Hs. induction Hs as [|x l Hs IH Hx]; constructor; [done|]. eapply Forall_impl; [exact Hx|]. apply HRS. Qed.

(** ** The order of tables *)

Section builder.
Context (n : nat).
#[local] Notation rank k := (internal_rank n k).

Definition file_ok (f : file) : Prop := key_ok n (smallest f) ∧ key_ok n (largest f).

Definition before (f g : file) : bool :=
  (rank (smallest f) <? rank (smallest g)) || ((rank (smallest f) =? rank (smallest g)) && (number f <? number g)).

Definition not_after (f g : file) : Prop := before g f = false.

Lemma not_after_trans f g h : not_after f g → not_after g h → not_after f h.
Proof. unfold not_after, before. lia. Qed.

Lemma key_Encode_ok k : key_ok n k → key_Encode k = Ok k.
Proof. intros [_ H]. unfold key_Encode, len. rewrite (proj2 (Z.eqb_neq _ _)) by lia. done. Qed.

Lemma BySmallestKey_ok f g : file_ok f → file_ok g → BySmallestKey f g = Ok (before f g).
Proof.
  intros [Hf _] [Hg _]. unfold BySmallestKey. rewrite !key_Encode_ok by done. cbn [mbind result_bind].
  destruct (compare_rank n _ _ (proj1 Hf) (proj1 Hg)) as (c & -> & Hc). cbn [mbind result_bind]. f_equal. unfold before.
  destruct (Z.eqb_spec c 0) as [->|]; cbn [negb]; destruct (Z.ltb_spec (rank (smallest f)) (rank (smallest g))), (Z.eqb_spec (rank (smallest f)) (rank (smallest g))); lia.
Qed.

(** ** Adding files to a level *)

(** The tables of a level that the assertions of the builder accept. *)
Definition apart (lvl : Z) (f g : file) : Prop :=
  rank (smallest f) < rank (smallest g) ∧ (0 < lvl → rank (largest f) < rank (smallest g)) ∧ (lvl = 0 → number f ≠ number g).

Definition ordered (lvl : Z) (files : list file) : Prop := Forall file_ok files ∧ StronglySorted (apart lvl) files.

Definition hits (ls : LevelState) (f : file) : Z := len (filter (λ d, d.1 = number f ∧ d.2 = creator_node_id f) (deleted_files ls)).

Definition kept (ls : LevelState) (f : file) : bool := hits ls f =? 0.

Lemma hits_pos ls f : 0 ≤ hits ls f.
Proof. unfold hits, len. lia. Qed.

Lemma no_number_ok num files : Forall (λ f, number f ≠ num) files → no_number num files = true.
Proof. induction 1 as [|f files Hf _ IH]; [done|]. cbn. rewrite IH, (proj2 (Z.eqb_neq _ _)) by done. done. Qed.

Lemma ordered_last lvl files f g : ordered lvl (files ++ [f]) → last files = Some g → apart lvl g f ∧ file_ok g ∧ file_ok f.
Proof.
  intros [Hok Hs] (fs & ->)%last_Some. rewrite Forall_forall in Hok. split; [|split; apply Hok; set_solver].
  eapply StronglySorted_app_1_elem_of; [exact Hs|set_solver|set_solver].
Qed.

Lemma MaybeAddFile_kept ls lvl v f :
  kept ls f = true → 0 ≤ lvl → ordered lvl (s_files v ++ [f]) →
  MaybeAddFile ls lvl v f = Ok (MkSaving (s_files v ++ [f]) (if UnderCompaction f then s_progress v ++ [f] else s_progress v) (number_deleted v)).
Proof.
  intros Hk%Z.eqb_eq Hl Ho. unfold MaybeAddFile. fold (hits ls f). rewrite Hk. cbn [Z.ltb Z.compare]. destruct (last (s_files v)) as [g|] eqn:El; [|done].
  destruct (ordered_last _ _ _ _ Ho El) as ((Hs & Hlg & Hn) & [Gs Gl] & [Fs Fl]). rewrite !key_Encode_ok by done. cbn [mbind result_bind].
  destruct (compare_rank n _ _ (proj1 Gs) (proj1 Fs)) as (c & -> & Hc). destruct (compare_rank n _ _ (proj1 Gl) (proj1 Fs)) as (d & -> & Hd). cbn [mbind result_bind].
  rewrite (proj2 (Z.eqb_neq c 0)) by lia. cbn [negb]. destruct (Z.ltb_spec 0 lvl).
  - specialize (Hlg ltac:(done)). rewrite (proj2 (Z.ltb_lt d 0)) by lia. rewrite (proj2 (Z.eqb_neq lvl 0)) by lia. done.
  - assert (lvl = 0) as -> by lia. cbn [Z.eqb]. rewrite no_number_ok; [done|]. apply Forall_forall. intros h Hh.
    destruct Ho as [_ Ho]. destruct (StronglySorted_app_1_elem_of _ _ _ h f Ho Hh ltac:(by left)) as (_ & _ & Hne). by apply Hne.
Qed.

Lemma MaybeAddFile_deleted ls lvl v f :
  kept ls f = false → MaybeAddFile ls lvl v f = Ok (MkSaving (s_files v) (s_progress v) (number_deleted v + hits ls f)).
Proof. intros Hk%Z.eqb_neq. pose proof (hits_pos ls f). unfold MaybeAddFile. fold (hits ls f). by rewrite (proj2 (Z.ltb_lt 0 _)) by lia. Qed.

Definition all_hits (ls : LevelState) (files : list file) : Z := foldr (λ f, Z.add (hits ls f)) 0 files.

Lemma all_hits_app ls fs gs : all_hits ls (fs ++ gs) = all_hits ls fs + all_hits ls gs.
Proof. unfold all_hits. induction fs as [|f fs IH]; cbn; [done|]. rewrite IH. lia. Qed.

(** What a level is after some files have been offered to it. *)
Definition save (ls : LevelState) (v : saving) (files : list file) : saving :=
  let more := filter (λ f, kept ls f = true) files in
  MkSaving (s_files v ++ more) (s_progress v ++ filter (λ f, UnderCompaction f = true) more) (number_deleted v + all_hits ls files).

Lemma save_app ls v fs gs : save ls (save ls v fs) gs = save ls v (fs ++ gs).
Proof. unfold save. cbn. by rewrite !filter_app, !app_assoc, all_hits_app, Z.add_assoc. Qed.

Lemma add_all_files_ok ls lvl v files :
  0 ≤ lvl → ordered lvl (s_files (save ls v files)) → add_all_files ls lvl v files = Ok (save ls v files).
Proof.
  intros Hl. revert v. induction files as [|f files IH]; intros v Ho; cbn [add_all_files].
  { unfold save. cbn. rewrite !app_nil_r, Z.add_0_r. by destruct v. }
  change (f :: files) with ([f] ++ files) in *. rewrite <- save_app in Ho |- *.
  assert (MaybeAddFile ls lvl v f = Ok (save ls v [f])) as ->.
  { destruct (kept ls f) eqn:Hk.
    - rewrite MaybeAddFile_kept; [|done|done|].
      + unfold save. rewrite filter_cons_True, filter_nil by done. cbn [s_files]. rewrite filter_cons. f_equal.
        apply Z.eqb_eq in Hk. cbn. rewrite Hk, !Z.add_0_r. destruct (UnderCompaction f); [by rewrite decide_True|by rewrite decide_False, app_nil_r].
      + destruct Ho as [Hok Hs]. unfold save in Hok, Hs. cbn [s_files] in Hok, Hs. rewrite filter_cons_True, filter_nil in Hok, Hs by done.
        split; [by apply Forall_app in Hok as [? _]|by eapply StronglySorted_app_1_l].
    - rewrite MaybeAddFile_deleted by done. unfold save. rewrite filter_cons_False by congruence. cbn. by rewrite !app_nil_r, Z.add_0_r. }
  cbn [mbind result_bind]. by apply IH.
Qed.

(** ** Merging *)

Definition settled (f : file) : file := set_seeks f (allowed_seeks f) false.

Fixpoint cut (f : file) (base : list file) : list file * list file :=
  match base with
  | [] => ([], [])
  | g :: base' => if before f g then ([], base) else let '(front, behind) := cut f base' in (g :: front, behind)
  end.

Fixpoint weave (base added : list file) : list file :=
  match added with
  | [] => base
  | f :: added => let '(front, behind) := cut (settled f) base in front ++ settled f :: weave behind added
  end.

Lemma settled_ok f : file_ok f → file_ok (settled f).
Proof. done. Qed.

Lemma split_upper_ok f base : file_ok f → Forall file_ok base → split_upper f base = Ok (cut f base).
Proof.
  intros Hf H. induction H as [|g base Hg H IH]; [done|]. cbn [split_upper cut]. rewrite (BySmallestKey_ok f g) by done. cbn [mbind result_bind].
  destruct (before f g); [done|]. rewrite IH. by destruct (cut f base).
Qed.

Lemma cut_app f base : let '(front, behind) := cut f base in base = front ++ behind ∧ Forall (λ g, not_after g f) front.
Proof.
  induction base as [|g base IH]; [by split|]. cbn [cut]. destruct (before f g) eqn:Eb; [by split|]. destruct (cut f base) as [front behind].
  destruct IH as [-> IH]. split; [done|by constructor].
Qed.

Lemma cut_behind f base : StronglySorted not_after base → Forall (λ g, not_after f g) (cut f base).2.
Proof.
  intros H. induction H as [|g base H IH Hg]; [constructor|]. cbn [cut]. destruct (before f g) eqn:Eb.
  - assert (not_after f g) as Hfg by (unfold not_after, before in *; lia). constructor; [done|]. eapply Forall_impl; [exact Hg|]. intros h. by apply not_after_trans.
  - by destruct (cut f base).
Qed.

Lemma weave_perm base added : weave base added ≡ₚ base ++ (settled <$> added).
Proof.
  revert base. induction added as [|f added IH]; intros base; cbn [weave fmap list_fmap]; [by rewrite app_nil_r|].
  pose proof (cut_app (settled f) base) as H. destruct (cut (settled f) base) as [front behind]. destruct H as [-> _]. rewrite IH, <- app_assoc.
  apply Permutation_app_head. by rewrite Permutation_middle.
Qed.

Lemma weave_sorted base added : StronglySorted not_after base → StronglySorted not_after added → StronglySorted not_after (weave base added).
Proof.
  revert base. induction added as [|f added IH]; intros base Hb Ha; cbn [weave]; [done|].
  pose proof (cut_app (settled f) base) as Hc. pose proof (cut_behind (settled f) base Hb) as Hd. destruct (cut (settled f) base) as [front behind]. cbn [snd] in Hd.
  destruct Hc as [-> Hfront]. apply StronglySorted_app in Hb as (Hfb & Hb1 & Hb2). apply StronglySorted_inv in Ha as [Ha Hfa].
  assert (∀ x, x ∈ weave behind added → not_after (settled f) x) as Hx.
  { intros x. rewrite weave_perm. intros [Hin|(y & -> & Hy)%list_elem_of_fmap]%elem_of_app; [|].
    - exact (proj1 (Forall_forall _ _) Hd x Hin).
    - exact (proj1 (Forall_forall _ _) Hfa y Hy). }
  apply StronglySorted_app_2; [|done|].
  - rewrite Forall_forall in Hfront. intros x y Hin [->|Hy]%elem_of_cons; [by apply Hfront|]. eapply not_after_trans; [by apply Hfront|by apply Hx].
  - constructor; [by apply IH|]. apply Forall_forall. exact Hx.
Qed.

Lemma merge_files_ok ls lvl v base added :
  0 ≤ lvl → Forall file_ok base → Forall file_ok added → ordered lvl (s_files (save ls v (weave base added))) →
  merge_files ls lvl v base added = Ok (save ls v (weave base added)).
Proof.
  intros Hl Hb Ha. revert base v Hb. induction Ha as [|f added Hf Ha IH]; intros base v Hb Ho; cbn [merge_files weave] in *; [by apply add_all_files_ok|].
  fold (settled f). rewrite (split_upper_ok (settled f) base) by done. pose proof (cut_app (settled f) base) as Hc.
  destruct (cut (settled f) base) as [front behind]. destruct Hc as [-> _]. cbn [mbind result_bind]. apply Forall_app in Hb as [_ Hb].
  replace (front ++ settled f :: weave behind added) with ((front ++ [settled f]) ++ weave behind added) in * by (by rewrite <- app_assoc).
  rewrite <- save_app in Ho |- *. rewrite <- (IH behind) by done.
  assert (ordered lvl (s_files (save ls v (front ++ [settled f])))) as Ho1.
  { destruct Ho as [Hok Hs]. unfold save in Hok at 1, Hs at 1. cbn [s_files] in Hok, Hs. split; [by apply Forall_app in Hok as [? _]|by eapply StronglySorted_app_1_l]. }
  pose proof (add_all_files_ok ls lvl v _ Hl Ho1) as E. clear -E Hl.
  assert (∀ fs gs w, add_all_files ls lvl w (fs ++ gs) = (w ← add_all_files ls lvl w fs; add_all_files ls lvl w gs)) as Happ.
  { clear. induction fs as [|x fs IH]; intros gs w; [done|]. cbn. destruct (MaybeAddFile ls lvl w x); [apply IH|done]. }
  rewrite Happ in E. apply bind_Ok in E as (w & -> & E). cbn [add_all_files mbind result_bind] in *. apply bind_Ok in E as (w' & -> & [= <-]). done.
Qed.

Lemma no_overlap_ok files : Forall file_ok files → StronglySorted (λ f g, rank (largest f) < rank (smallest g)) files → no_overlap files = Ok tt.
Proof.
  intros Hok H. induction H as [|f files H IH Hf]; [done|]. apply Forall_cons in Hok as [[_ Hl] Hok]. destruct files as [|g files]; [done|].
  apply Forall_cons in Hf as [Hlt _]. destruct (proj1 (Forall_cons _ _ _) Hok) as [[Hs _] _]. change (no_overlap (f :: g :: files)) with
    (a ← key_Encode (largest f); b ← key_Encode (smallest g); c ← InternalCompare a b; require (c <? 0);; no_overlap (g :: files)).
  rewrite !key_Encode_ok by done. cbn [mbind result_bind].
  destruct (compare_rank n _ _ (proj1 Hl) (proj1 Hs)) as (c & -> & Hc). cbn [mbind result_bind]. rewrite (proj2 (Z.ltb_lt c 0)) by lia. cbn [require mbind result_bind]. by apply IH.
Qed.

(** ** One level *)

(** The number of a table and the node that made it. *)
Definition id (f : file) : Z * Z := (number f, creator_node_id f).

(** What the tables of a level have to be for the builder: in which order does
    not matter. *)
Record spread (lvl : Z) (files : list file) : Prop := {
  sp_smallest : NoDup ((λ f, rank (smallest f)) <$> files);
  sp_number : lvl = 0 → NoDup (number <$> files);
  sp_apart : 0 < lvl → ∀ f g, f ∈ files → g ∈ files → rank (smallest f) < rank (smallest g) → rank (largest f) < rank (smallest g);
}.

Lemma spread_perm lvl l m : l ≡ₚ m → spread lvl l → spread lvl m.
Proof.
  intros P [H1 H2 H3]. split.
  - by rewrite <- P.
  - intros E. rewrite <- P. by apply H2.
  - intros Hl f g. rewrite <- P. by apply H3.
Qed.

Lemma spread_tail lvl f l : spread lvl (f :: l) → spread lvl l.
Proof.
  intros [H1 H2 H3]. split.
  - by apply NoDup_cons in H1 as [_ ?].
  - intros E. specialize (H2 E). by apply NoDup_cons in H2 as [_ ?].
  - intros Hl x y Hx Hy. apply H3; [done|by right|by right].
Qed.

Lemma spread_ordered lvl l : Forall file_ok l → StronglySorted not_after l → spread lvl l → ordered lvl l.
Proof.
  intros Hok Hs Hp. split; [done|]. induction Hs as [|f l Hs IH Hf]; [constructor|]. apply Forall_cons in Hok as [_ Hok].
  constructor; [apply IH; [done|by eapply spread_tail]|]. apply Forall_forall. intros g Hg. destruct Hp as [H1 H2 H3].
  pose proof (proj1 (Forall_forall _ _) Hf g Hg) as Hfg. cbn in Hfg. cbn [fmap list_fmap] in H1, H2. apply NoDup_cons in H1 as [Hne _].
  assert (rank (smallest f) < rank (smallest g)) as Hlt.
  { unfold not_after, before in Hfg. destruct (decide (rank (smallest f) = rank (smallest g))) as [E|]; [|lia]. destruct Hne. rewrite E. by apply (list_elem_of_fmap_2 (λ f, rank (smallest f))). }
  split; [done|]. split.
  - intros Hl. apply H3; [done|by left|by right|done].
  - intros E Hn. specialize (H2 E). apply NoDup_cons in H2 as [Hnot _]. destruct Hnot. rewrite Hn. by apply list_elem_of_fmap_2.
Qed.

Lemma hits_cons d ds a f : hits (MkLevel (d :: ds) a) f = (if decide (d = id f) then 1 else 0) + hits (MkLevel ds a) f.
Proof.
  unfold hits, id. cbn [deleted_files]. rewrite filter_cons. destruct d as [x y]. cbn [fst snd].
  destruct (decide (x = number f ∧ y = creator_node_id f)), (decide ((x, y) = (number f, creator_node_id f))); unfold len; cbn [length]; naive_solver lia.
Qed.

Lemma kept_spec ls f : kept ls f = true ↔ id f ∉ deleted_files ls.
Proof.
  destruct ls as [ds a]. unfold kept. cbn [deleted_files]. rewrite Z.eqb_eq. induction ds as [|d ds IH]; [split; [intros _; apply not_elem_of_nil|done]|].
  rewrite hits_cons, not_elem_of_cons, <- IH. pose proof (hits_pos (MkLevel ds a) f). destruct (decide (d = id f)); naive_solver lia.
Qed.

Lemma all_hits_perm ls fs gs : fs ≡ₚ gs → all_hits ls fs = all_hits ls gs.
Proof. intros P. unfold all_hits. induction P; cbn; lia. Qed.

Lemma all_hits_none ls fs : (∀ f, f ∈ fs → id f ∉ deleted_files ls) → all_hits ls fs = 0.
Proof.
  induction fs as [|f fs IH]; intros H; [done|]. cbn. fold (all_hits ls fs). rewrite IH by (intros g Hg; apply H; by right).
  assert (kept ls f = true) as Hk by (apply kept_spec, H; by left). apply Z.eqb_eq in Hk. lia.
Qed.

(** Every deletion finds one table. *)
Lemma all_hits_ids ds a fs : NoDup (id <$> fs) → (∀ d, d ∈ ds → d ∈ id <$> fs) → all_hits (MkLevel ds a) fs = len ds.
Proof.
  intros Hn. induction ds as [|d ds IH]; intros Hd; [by apply all_hits_none; intros; apply not_elem_of_nil|].
  unfold len. rewrite length_cons, Nat2Z.inj_succ. fold (len ds). rewrite <- IH by (intros x Hx; apply Hd; by right).
  assert (d ∈ id <$> fs) as Hin by (apply Hd; by left). clear IH Hd.
  assert (∀ gs, d ∉ id <$> gs → all_hits (MkLevel (d :: ds) a) gs = all_hits (MkLevel ds a) gs) as Hout.
  { induction gs as [|g gs IH]; [done|]. cbn [fmap list_fmap]. rewrite not_elem_of_cons. intros [Hg Hgs]. cbn. rewrite hits_cons, decide_False by done. specialize (IH Hgs). unfold all_hits in IH. lia. }
  induction fs as [|f fs IH]; [by apply elem_of_nil in Hin|]. cbn [fmap list_fmap] in Hn, Hin. apply NoDup_cons in Hn as [Hf Hn]. cbn. rewrite hits_cons.
  fold (all_hits (MkLevel (d :: ds) a) fs) (all_hits (MkLevel ds a) fs). apply elem_of_cons in Hin as [->|Hin].
  - rewrite decide_True, Hout by done. lia.
  - rewrite decide_False by (intros ->; done). rewrite IH by done. lia.
Qed.

(** A level of the version and what an edit does to it. *)
Record level_fits (lvl : Z) (files : list file) (s : LevelState) : Prop := {
  lf_base : Forall file_ok files;
  lf_base_sorted : StronglySorted not_after files;
  lf_added : Forall file_ok (added_files s);
  lf_added_sorted : StronglySorted not_after (added_files s);
  lf_ids : NoDup (id <$> files);
  lf_deleted : ∀ d, d ∈ deleted_files s → d ∈ id <$> files;
  lf_fresh : ∀ f, f ∈ added_files s → id f ∉ deleted_files s;
  lf_spread : spread lvl (filter (λ f, kept s f = true) files ++ (settled <$> added_files s));
}.

Definition level_files (s : LevelState) (files : list file) : list file := filter (λ f, kept s f = true) (weave files (added_files s)).
Definition level_progress (s : LevelState) (files : list file) : list file := filter (λ f, UnderCompaction f = true) (level_files s files).

Lemma level_files_perm lvl files s :
  level_fits lvl files s → level_files s files ≡ₚ filter (λ f, kept s f = true) files ++ (settled <$> added_files s).
Proof.
  intros H. unfold level_files. rewrite weave_perm, filter_app. apply Permutation_app_head. rewrite filter_all; [done|].
  intros f (g & -> & Hg)%list_elem_of_fmap. apply kept_spec. by apply (lf_fresh _ _ _ H g).
Qed.

Lemma level_files_ordered lvl files s : level_fits lvl files s → ordered lvl (level_files s files).
Proof.
  intros H. pose proof (level_files_perm _ _ _ H) as P. apply spread_ordered.
  - rewrite P. apply Forall_app. split; [|apply Forall_fmap; exact (lf_added _ _ _ H)].
    apply Forall_forall. intros f [_ Hf]%list_elem_of_filter. exact (proj1 (Forall_forall _ _) (lf_base _ _ _ H) f Hf).
  - apply filter_sorted, weave_sorted; apply H.
  - eapply spread_perm; [symmetry; exact P|apply H].
Qed.

Lemma level_saved lvl files s deleted :
  level_fits lvl files s → 0 ≤ lvl →
  merge_files s lvl (MkSaving [] [] deleted) files (added_files s) =
    Ok (MkSaving (level_files s files) (level_progress s files) (deleted + len (deleted_files s))).
Proof.
  intros H Hl. pose proof (level_files_ordered _ _ _ H) as Ho. rewrite merge_files_ok; [|done|apply H|apply H|exact Ho].
  unfold save. cbn [s_files s_progress number_deleted app]. do 2 f_equal.
  rewrite (all_hits_perm _ _ _ (weave_perm _ _)), all_hits_app, (all_hits_none s (settled <$> added_files s)).
  - destruct s as [ds a]. rewrite all_hits_ids; [cbn; lia|apply H|apply H].
  - intros f (g & -> & Hg)%list_elem_of_fmap. by apply (lf_fresh _ _ _ H g).
Qed.

Lemma save_levels_ok base ls lvl deleted :
  0 ≤ lvl → length base = length ls → (∀ i files s, base !! i = Some files → ls !! i = Some s → level_fits (lvl + Z.of_nat i) files s) →
  save_levels lvl base ls deleted =
    Ok (zip_with level_files ls base, zip_with level_progress ls base, deleted + foldr (λ s, Z.add (len (deleted_files s))) 0 ls).
Proof.
  revert ls lvl deleted. induction base as [|files base IH]; intros [|s ls] lvl deleted Hl Hlen H; try done; cbn [save_levels].
  { cbn. by rewrite Z.add_0_r. }
  assert (level_fits lvl files s) as Hf by (rewrite <- (Z.add_0_r lvl); by apply (H 0%nat)). rewrite level_saved by done. cbn [mbind result_bind s_files s_progress number_deleted].
  destruct (level_files_ordered _ _ _ Hf) as [Hok Hs].
  assert ((if 0 <? lvl then no_overlap (level_files s files) else Ok tt) = Ok tt) as ->.
  { destruct (Z.ltb_spec 0 lvl); [|done]. apply no_overlap_ok; [done|]. eapply sorted_weaken; [|exact Hs]. intros f g (_ & Hfg & _). by apply Hfg. }
  cbn [mbind result_bind]. rewrite IH; [|lia|cbn in Hlen; lia|].
  - cbn [mbind result_bind zip_with foldr]. do 2 f_equal. lia.
  - intros i fs s' Hb Hs'. replace (lvl + 1 + Z.of_nat i) with (lvl + Z.of_nat (S i)) by lia. by apply H.
Qed.

Lemma SaveTo_ok base ls :
  length (levels_ base) = length ls → (∀ i files s, levels_ base !! i = Some files → ls !! i = Some s → level_fits (Z.of_nat i) files s) →
  SaveTo base ls = Ok (MkVersionOf (zip_with level_files ls (levels_ base)) (zip_with level_progress ls (levels_ base))).
Proof. intros Hlen H. unfold SaveTo. rewrite save_levels_ok by (done || lia). cbn [mbind result_bind]. by rewrite Z.add_0_l, Z.eqb_refl. Qed.

(** ** The edit *)

Definition precedes (f g : file) : Prop := before f g = true.

Lemma file_insert_ok f l :
  file_ok f → Forall file_ok l → StronglySorted precedes l → rank (smallest f) ∉ (λ f, rank (smallest f)) <$> l →
  ∃ l', file_insert f l = Ok l' ∧ l' ≡ₚ f :: l ∧ StronglySorted precedes l'.
Proof.
  intros Hf Hok Hs. induction Hs as [|g l Hs IH Hg]; intros Hne; [exists [f]; split; [done|]; split; [done|by repeat constructor]|].
  apply Forall_cons in Hok as [Gok Hok]. cbn [fmap list_fmap] in Hne. apply not_elem_of_cons in Hne as [Hfg Hne].
  cbn [file_insert]. rewrite !BySmallestKey_ok by done. cbn [mbind result_bind]. destruct (before f g) eqn:Eb.
  - exists (f :: g :: l). split; [done|]. split; [done|]. constructor; [by constructor|]. constructor; [done|].
    eapply Forall_impl; [exact Hg|]. intros h. unfold precedes, before in *. lia.
  - assert (before g f = true) as -> by (unfold before in *; lia). destruct (IH Hok Hne) as (l' & -> & P & Hs'). cbn [mbind result_bind].
    exists (g :: l'). split; [done|]. split; [rewrite P; apply perm_swap|]. constructor; [done|]. rewrite P. constructor; [|done]. unfold precedes, before in *. lia.
Qed.

Lemma multimap_insert_perm k x l : multimap_insert k x l ≡ₚ (k, x) :: l.
Proof. induction l as [|[k' x'] l IH]; [done|]. cbn. destruct (k <? k'); [done|]. rewrite IH. apply perm_swap. Qed.

(** What an edit deletes from a level and adds to it. *)
Definition deletions (lvl : Z) (l : list (Z * Z * Z)) : list (Z * Z) := (λ d, (d.1.2, d.2)) <$> filter (λ d, d.1.1 = lvl) l.
Definition additions (lvl : Z) (l : list (Z * file)) : list file :=
  (λ e, set_seeks e.2 (seeks_of e.2) (UnderCompaction e.2)) <$> filter (λ e, e.1 = lvl) l.

Definition in_levels (lvl : Z) (m : nat) : Prop := 0 ≤ lvl < Z.of_nat m.

Lemma at_level_Some {A} (l : list A) lvl x : 0 ≤ lvl → l !! Z.to_nat lvl = Some x → at_level l lvl = Ok x.
Proof. intros Hl E. unfold at_level. rewrite (proj2 (Z.ltb_ge _ _)) by done. by apply at_index_Ok. Qed.

Lemma in_levels_lookup {A} (l : list A) lvl : in_levels lvl (length l) → is_Some (l !! Z.to_nat lvl).
Proof. intros H. apply lookup_lt_is_Some. unfold in_levels in H. lia. Qed.

Lemma apply_deleted_files_ok l ls :
  Forall (λ d, in_levels d.1.1 (length ls)) l →
  ∃ ls', apply_deleted_files l ls = Ok ls' ∧ length ls' = length ls ∧
    ∀ i s', ls' !! i = Some s' →
      ∃ s, ls !! i = Some s ∧ deleted_files s' ≡ₚ deleted_files s ++ deletions (Z.of_nat i) l ∧ added_files s' = added_files s.
Proof.
  revert ls. induction l as [|[[lvl num] node] l IH]; intros ls H; cbn [apply_deleted_files].
  { exists ls. split; [done|]. split; [done|]. intros i s' E. exists s'. split; [done|]. by rewrite app_nil_r. }
  apply Forall_cons in H as [Hl H]. cbn [fst] in Hl. destruct (in_levels_lookup ls lvl Hl) as [s Es]. rewrite (at_level_Some ls lvl s) by (done || apply Hl).
  cbn [mbind result_bind]. edestruct (IH (<[Z.to_nat lvl := MkLevel (multimap_insert num node (deleted_files s)) (added_files s)]> ls)) as (ls' & E & Hlen & Hls).
  { by rewrite length_insert. }
  exists ls'. split; [exact E|]. rewrite length_insert in Hlen. split; [done|]. intros i s' E'. destruct (Hls i s' E') as (s1 & E1 & Hd & Ha).
  unfold deletions. rewrite filter_cons. cbn [fst]. unfold in_levels in Hl. apply list_lookup_insert_Some in E1 as [(<- & <- & _)|[Hne E1]].
  - exists s. split; [done|]. cbn [deleted_files added_files] in Hd, Ha. rewrite decide_True by lia. split; [|done]. cbn [fmap list_fmap fst snd].
    rewrite Hd, multimap_insert_perm. fold (deletions (Z.of_nat (Z.to_nat lvl)) l). cbn [app]. by rewrite Permutation_middle.
  - exists s1. split; [done|]. by rewrite decide_False by lia.
Qed.

Record taking (more : list file) (s : LevelState) : Prop := {
  tk_ok : Forall file_ok (added_files s);
  tk_sorted : StronglySorted precedes (added_files s);
  tk_smallest : NoDup ((λ f, rank (smallest f)) <$> (added_files s ++ more));
  tk_fresh : ∀ f, f ∈ more → id f ∉ deleted_files s;
}.

Lemma is_deleted_false s f : id f ∉ deleted_files s → is_deleted s f = false.
Proof.
  intros H. unfold is_deleted. apply not_true_is_false. intros (d & Hd & [E1%Z.eqb_eq E2%Z.eqb_eq]%andb_true_iff)%existsb_exists. apply H.
  destruct d as [x y]. cbn in E1, E2. subst x y. by apply list_elem_of_In.
Qed.

Lemma taking_insert f more s : file_ok f → taking (f :: more) s →
  ∃ added, file_insert f (added_files s) = Ok added ∧ added ≡ₚ f :: added_files s ∧ taking more (MkLevel (deleted_files s) added).
Proof.
  intros Hf [Hok Hs Hn Hd]. rewrite fmap_app in Hn. cbn [fmap list_fmap] in Hn.
  pose proof Hn as (_ & Hdis & _)%NoDup_app.
  destruct (file_insert_ok f (added_files s) Hf Hok Hs) as (added & E & P & Hs').
  { intros Hin. apply (Hdis _ Hin). by left. }
  exists added. split; [done|]. split; [done|]. split; cbn [added_files deleted_files].
  - rewrite P. by constructor.
  - done.
  - rewrite P, fmap_app. cbn [fmap list_fmap app]. rewrite (Permutation_middle ((λ f, rank (smallest f)) <$> added_files s) (_ <$> more) (rank (smallest f))). done.
  - intros g Hg. apply Hd. by right.
Qed.

Lemma apply_new_files_ok l ls :
  Forall (λ e, in_levels e.1 (length ls) ∧ level e.2 = e.1 ∧ file_ok e.2) l →
  (∀ i s, ls !! i = Some s → taking (additions (Z.of_nat i) l) s) →
  ∃ ls', apply_new_files l ls = Ok ls' ∧ length ls' = length ls ∧
    ∀ i s', ls' !! i = Some s' →
      ∃ s, ls !! i = Some s ∧ deleted_files s' = deleted_files s ∧ added_files s' ≡ₚ added_files s ++ additions (Z.of_nat i) l ∧ taking [] s'.
Proof.
  revert ls. induction l as [|[lvl f] l IH]; intros ls H Ht; cbn [apply_new_files].
  { exists ls. split; [done|]. split; [done|]. intros i s' E. exists s'. rewrite app_nil_r. split_and!; try done. by apply (Ht i). }
  apply Forall_cons in H as [(Hl & El & Hf) H]. cbn [fst snd] in Hl, El, Hf. rewrite El, Z.eqb_refl. cbn [require mbind result_bind].
  destruct (in_levels_lookup ls lvl Hl) as [s Es]. rewrite (at_level_Some ls lvl s) by (done || apply Hl). cbn [mbind result_bind].
  assert (Z.of_nat (Z.to_nat lvl) = lvl) as Elvl by (unfold in_levels in Hl; lia).
  set (f' := set_seeks f (seeks_of f) (UnderCompaction f)). pose proof (Ht _ _ Es) as Hs. rewrite Elvl in Hs.
  assert (additions lvl ((lvl, f) :: l) = f' :: additions lvl l) as Ea by (unfold additions; by rewrite filter_cons_True). rewrite Ea in Hs.
  rewrite (is_deleted_false s f) by (apply (tk_fresh _ _ Hs f'); by left).
  destruct (taking_insert f' _ s Hf Hs) as (added & -> & P & Hs'). cbn [mbind result_bind].
  destruct (IH (<[Z.to_nat lvl := MkLevel (deleted_files s) added]> ls)) as (ls' & E & Hlen & Hls).
  - by rewrite length_insert.
  - intros i s1 [(<- & <- & _)|[Hne E1]]%list_lookup_insert_Some; [by rewrite Elvl|].
    specialize (Ht i s1 E1). unfold additions in Ht. rewrite filter_cons_False in Ht by (cbn [fst]; lia). done.
  - exists ls'. split; [exact E|]. rewrite length_insert in Hlen. split; [done|]. intros i s' E'. destruct (Hls i s' E') as (s1 & E1 & Hd & Ha & Htk).
    apply list_lookup_insert_Some in E1 as [(<- & <- & _)|[Hne E1]].
    + exists s. split; [done|]. split; [done|]. split; [|done]. rewrite Elvl in *. rewrite Ha, Ea. cbn [added_files]. rewrite P. cbn [app]. by rewrite Permutation_middle.
    + exists s1. split; [done|]. split; [done|]. split; [|done]. rewrite Ha. unfold additions at 2. rewrite filter_cons_False by (cbn [fst]; lia). done.
Qed.

(** The invariant of versions, and the edits that keep it. *)
Definition levels : nat := Z.to_nat kNumLevels.

Record version_fits (v : Version) : Prop := {
  vf_levels : length (levels_ v) = levels;
  vf_ordered : ∀ i files, levels_ v !! i = Some files → ordered (Z.of_nat i) files;
  vf_ids : ∀ i files, levels_ v !! i = Some files → NoDup (id <$> files);
}.

(** The tables of a level after an edit. *)
Definition after (lvl : Z) (files : list file) (e : VersionEdit) : list file :=
  filter (λ f, id f ∉ deletions lvl (deleted_files_ e)) files ++ (settled <$> additions lvl (new_files_ e)).

Record edit_fits (v : Version) (e : VersionEdit) : Prop := {
  ef_deleted : Forall (λ d, in_levels d.1.1 levels) (deleted_files_ e);
  ef_present : ∀ i files d, levels_ v !! i = Some files → d ∈ deletions (Z.of_nat i) (deleted_files_ e) → d ∈ id <$> files;
  ef_new : Forall (λ x, in_levels x.1 levels ∧ level x.2 = x.1 ∧ file_ok x.2) (new_files_ e);
  ef_fresh : ∀ lvl f, f ∈ additions lvl (new_files_ e) → id f ∉ deletions lvl (deleted_files_ e);
  ef_spread : ∀ i files, levels_ v !! i = Some files → spread (Z.of_nat i) (after (Z.of_nat i) files e);
  ef_ids : ∀ i files, levels_ v !! i = Some files → NoDup (id <$> after (Z.of_nat i) files e);
  ef_pointers : Forall (λ p, in_levels p.1 levels ∧ p.2 ≠ []) (compact_pointers_ e);
}.

Record edit_applied (v : Version) (e : VersionEdit) (v' : Version) : Prop := {
  ea_fits : version_fits v';
  ea_files : ∀ i files, levels_ v !! i = Some files → ∃ files', levels_ v' !! i = Some files' ∧ files' ≡ₚ after (Z.of_nat i) files e;
  ea_progress : ∀ i files, levels_ v' !! i = Some files → in_progress v' !! i = Some (filter (λ f, UnderCompaction f = true) files);
}.

Lemma Apply_ok v e : version_fits v → edit_fits v e →
  ∃ ls, Apply e = Ok ls ∧ length ls = levels ∧
    ∀ i files s, levels_ v !! i = Some files → ls !! i = Some s →
      level_fits (Z.of_nat i) files s ∧ deleted_files s ≡ₚ deletions (Z.of_nat i) (deleted_files_ e) ∧ added_files s ≡ₚ additions (Z.of_nat i) (new_files_ e).
Proof.
  intros Hv He. unfold Apply. destruct (apply_deleted_files_ok (deleted_files_ e) new_levels) as (ls1 & -> & Hl1 & H1).
  { unfold new_levels. rewrite length_replicate. exact (ef_deleted _ _ He). }
  unfold new_levels in Hl1, H1. rewrite length_replicate in Hl1. fold levels in Hl1, H1.
  assert (∀ i s, ls1 !! i = Some s → added_files s = [] ∧ deleted_files s ≡ₚ deletions (Z.of_nat i) (deleted_files_ e)) as H1'.
  { intros i s E. destruct (H1 i s E) as (s0 & [-> _]%lookup_replicate & Hd & Ha). done. }
  cbn [mbind result_bind]. destruct (apply_new_files_ok (new_files_ e) ls1) as (ls & -> & Hl & H2).
  { rewrite Hl1. exact (ef_new _ _ He). }
  { intros i s E. destruct (H1' i s E) as [Ea Hd]. destruct (lookup_lt_is_Some_2 (levels_ v) i) as [files Ef].
    { rewrite (vf_levels _ Hv), <- Hl1. by eapply lookup_lt_Some. }
    destruct (ef_spread _ _ He i files Ef) as [Hn _ _]. unfold after in Hn. rewrite fmap_app in Hn. apply NoDup_app in Hn as (_ & _ & Hn). rewrite <- list_fmap_compose in Hn.
    split; rewrite ?Ea; [constructor|constructor|exact Hn|]. intros f Hf. rewrite Hd. by apply (ef_fresh _ _ He). }
  exists ls. split; [done|]. split; [congruence|]. intros i files s Ef Es. destruct (H2 i s Es) as (s1 & Es1 & Ed & Ha & Ht). destruct (H1' i s1 Es1) as [Ea Hd].
  rewrite Ea in Ha. cbn [app] in Ha. rewrite <- Ed in Hd. split; [|done]. destruct (vf_ordered _ Hv i files Ef) as [Hok Hs]. split; try (done || apply Ht).
  - eapply sorted_weaken; [|exact Hs]. intros f g (Hfg & _). unfold not_after, before. lia.
  - eapply sorted_weaken; [|apply Ht]. intros f g Hfg. unfold precedes, not_after, before in *. lia.
  - by apply (vf_ids _ Hv i).
  - intros d. rewrite Hd. by apply (ef_present _ _ He).
  - intros f. rewrite Hd, Ha. apply (ef_fresh _ _ He).
  - eapply spread_perm; [|exact (ef_spread _ _ He i files Ef)]. unfold after. apply Permutation_app; [|by rewrite Ha].
    rewrite (list_filter_iff (λ f, kept s f = true) (λ f, id f ∉ deletions (Z.of_nat i) (deleted_files_ e))); [done|]. intros f. rewrite kept_spec. by rewrite Hd.
Qed.

Lemma set_pointers_ok l index :
  Forall (λ p, in_levels p.1 (length index) ∧ p.2 ≠ []) l → set_pointers l index = Ok (foldl (λ index p, <[Z.to_nat p.1 := p.2]> index) index l).
Proof.
  revert index. induction l as [|[lvl key] l IH]; intros index H; [done|]. apply Forall_cons in H as [[Hl Hk] H]. cbn [fst snd] in Hl, Hk. cbn [set_pointers foldl].
  destruct (in_levels_lookup index lvl Hl) as [x Ex]. rewrite (at_level_Some index lvl x) by (done || apply Hl). cbn [mbind result_bind].
  assert (key_Encode key = Ok key) as -> by (destruct key; [done|]; done). cbn [mbind result_bind]. apply IH. by rewrite length_insert.
Qed.

Lemma SaveTo_applied v e ls :
  length ls = levels → version_fits v → edit_fits v e →
  (∀ i files s, levels_ v !! i = Some files → ls !! i = Some s →
    level_fits (Z.of_nat i) files s ∧ deleted_files s ≡ₚ deletions (Z.of_nat i) (deleted_files_ e) ∧ added_files s ≡ₚ additions (Z.of_nat i) (new_files_ e)) →
  ∃ v', SaveTo v ls = Ok v' ∧ edit_applied v e v'.
Proof.
  intros Hl Hv He H. rewrite SaveTo_ok; [|by rewrite Hl; apply Hv|intros; by apply H]. eexists. split; [done|].
  assert (∀ i files s, levels_ v !! i = Some files → ls !! i = Some s → level_files s files ≡ₚ after (Z.of_nat i) files e) as Hafter.
  { intros i files s Ef Es. destruct (H i files s Ef Es) as (Hf & Hd & Ha). rewrite (level_files_perm _ _ _ Hf). unfold after. apply Permutation_app; [|by rewrite Ha].
    rewrite (list_filter_iff (λ f, kept s f = true) (λ f, id f ∉ deletions (Z.of_nat i) (deleted_files_ e))); [done|]. intros f. rewrite kept_spec. by rewrite Hd. }
  split; [split|..]; cbn [levels_ in_progress].
  - rewrite length_zip_with, Hl, (vf_levels _ Hv). lia.
  - intros i files' (s & files & -> & Es & Ef)%lookup_zip_with_Some. by apply level_files_ordered, H.
  - intros i files' (s & files & -> & Es & Ef)%lookup_zip_with_Some. rewrite (Hafter i files s) by done. by apply (ef_ids _ _ He).
  - intros i files Ef. destruct (lookup_lt_is_Some_2 ls i) as [s Es]; [rewrite Hl, <- (vf_levels _ Hv); by eapply lookup_lt_Some|].
    exists (level_files s files). split; [|by apply Hafter]. apply lookup_zip_with_Some. eauto.
  - intros i files' (s & files & -> & Es & Ef)%lookup_zip_with_Some. apply lookup_zip_with_Some. exists s, files. done.
Qed.

Lemma LogAndApply_ok vs e :
  version_fits (current vs) → edit_fits (current vs) e → length (compact_index_ vs) = levels →
  ∃ v, LogAndApply vs e =
      Ok (MkVersionSet v (last_sequence vs) (foldl (λ index p, <[Z.to_nat p.1 := p.2]> index) (compact_index_ vs) (compact_pointers_ e)),
          SetLastSequence e (last_sequence vs)) ∧
    edit_applied (current vs) e v.
Proof.
  intros Hv He Hi. assert (edit_fits (current vs) (SetLastSequence e (last_sequence vs))) as He' by (destruct He; by split).
  unfold LogAndApply. rewrite set_pointers_ok by (rewrite Hi; exact (ef_pointers _ _ He')). cbn [mbind result_bind].
  destruct (Apply_ok _ _ Hv He') as (ls & -> & Hl & H). cbn [mbind result_bind]. destruct (SaveTo_applied _ _ ls Hl Hv He' H) as (v & -> & Ha).
  exists v. split; [done|]. destruct Ha as [H1 H2 H3]. by split.
Qed.

(** C10: an edit is applied to the tables.  For an edit that deletes tables of the
    version and adds tables that leave every level free of overlaps, no assertion
    of the builder fails, and each level of the new version has exactly the tables
    that were not deleted and those that were added, ordered by their keys; the
    tables still in a compaction are listed, the compaction pointers are set, and
    the new version satisfies what the next edit needs. *)
Theorem log_and_apply vs e :
  version_fits (current vs) → edit_fits (current vs) e → length (compact_index_ vs) = Z.to_nat kNumLevels →
  ∃ v, LogAndApply vs e =
      Ok (MkVersionSet v (last_sequence vs) (foldl (λ index p, <[Z.to_nat p.1 := p.2]> index) (compact_index_ vs) (compact_pointers_ e)),
          SetLastSequence e (last_sequence vs)) ∧
    version_fits v ∧
    (∀ i files, levels_ (current vs) !! i = Some files → ∃ files', levels_ v !! i = Some files' ∧ files' ≡ₚ after (Z.of_nat i) files e) ∧
    (∀ i files, levels_ v !! i = Some files → in_progress v !! i = Some (filter (λ f, UnderCompaction f = true) files)).
Proof. intros Hv He Hi. destruct (LogAndApply_ok vs e Hv He Hi) as (v & E & [H1 H2 H3]). by exists v. Qed.

End builder.

(** ** Installing a flushed table *)

Section flush.
Context (n : nat) (held : file → list version) (Hheld : ∀ f seeks under, held (set_seeks f seeks under) = held f).
#[local] Notation rank k := (internal_rank n k).

Definition flushed (f : file) : file := settled (set_seeks f (seeks_of f) (UnderCompaction f)).

Lemma held_flushed f : held (flushed f) = held f.
Proof using Hheld. unfold flushed, settled. by rewrite !Hheld. Qed.

#[local] Notation held_in := (λ files, concat (held <$> files)).

Lemma held_in_flushed fs : held_in (flushed <$> fs) = held_in fs.
Proof using Hheld. cbn beta. rewrite <- list_fmap_compose. f_equal. apply list_fmap_ext. intros i f _. apply held_flushed. Qed.

(** The tables of a flush, from the oldest on, and the version it changes. *)
Record flush_fits (v : Version) (fs : list file) : Prop := {
  ff_tables : ∀ f, f ∈ fs → level f = 0 ∧ 0 < file_size f ∧ table_in n held f;
  ff_newer_number : ∀ files f g, levels_ v !! 0%nat = Some files → f ∈ fs → g ∈ files → number g < number f;
  ff_smallest : ∀ files, levels_ v !! 0%nat = Some files → NoDup ((λ f, rank (smallest f)) <$> (files ++ fs));
  ff_order : StronglySorted (λ f g, number f < number g ∧ not_older (held g) (held f)) fs;
  ff_newer : not_older (held_in fs) (all_held held v);
  ff_distinct : distinct (held_in fs ++ all_held held v);
}.

Lemma ff_numbers v fs : flush_fits v fs → NoDup (number <$> fs).
Proof.
  clear. intros [_ _ _ Hs _ _]. induction Hs as [|f fs Hs IH Hf]; cbn; constructor; [|done].
  intros (g & E & Hg)%list_elem_of_fmap. destruct (proj1 (Forall_forall _ _) Hf g Hg). lia.
Qed.

Lemma add_files_ok fs gs e :
  new_files_ e = pair 0 <$> gs → NoDup (number <$> (gs ++ fs)) → (∀ f, f ∈ fs → 0 < file_size f) →
  let e' := foldl (λ e f, AddFileIfNotExist e 0 f) e fs in
  new_files_ e' = pair 0 <$> (gs ++ fs) ∧ deleted_files_ e' = deleted_files_ e ∧ compact_pointers_ e' = compact_pointers_ e.
Proof.
  clear. revert gs e. induction fs as [|f fs IH]; intros gs e Eg Hn Hz; cbn zeta; [rewrite app_nil_r; done|]. cbn [foldl].
  replace (gs ++ f :: fs) with ((gs ++ [f]) ++ fs) in * by (by rewrite <- app_assoc).
  assert (existsb (λ x, number x.2 =? number f) (new_files_ e) = false) as Ef.
  { apply not_true_is_false. rewrite Eg. intros (x & Hx%list_elem_of_In & E%Z.eqb_eq)%existsb_exists. apply list_elem_of_fmap in Hx as (g & -> & Hg). cbn in E.
    rewrite !fmap_app in Hn. apply NoDup_app in Hn as [(_ & Hn & _)%NoDup_app _]. apply (Hn (number g)); [by apply list_elem_of_fmap_2|]. rewrite E. by left. }
  assert (AddFileIfNotExist e 0 f = AddFile e 0 f) as -> by (unfold AddFileIfNotExist; rewrite Ef, (proj2 (Z.ltb_lt 0 _)) by (apply Hz; by left); done).
  apply (IH (gs ++ [f]) (AddFile e 0 f)); [cbn; by rewrite Eg, fmap_app|done|]. intros g Hg. apply Hz. by right.
Qed.

Lemma flush_edit_files v fs :
  flush_fits v fs → new_files_ (flush_edit fs) = pair 0 <$> fs ∧ deleted_files_ (flush_edit fs) = [] ∧ compact_pointers_ (flush_edit fs) = [].
Proof. clear. intros Hf. apply (add_files_ok fs [] empty_edit); [done|by eapply ff_numbers|]. intros f H. by apply (ff_tables _ _ Hf). Qed.

Lemma flush_after v i files fs : flush_fits v fs → after (Z.of_nat i) files (flush_edit fs) = files ++ (if decide (i = 0%nat) then flushed <$> fs else []).
Proof.
  clear. intros (En & Ed & _)%flush_edit_files. unfold after, additions. rewrite En, Ed. rewrite filter_all by (intros; apply not_elem_of_nil). f_equal. destruct i.
  - rewrite decide_True, filter_all by (done || by intros x (f & -> & _)%list_elem_of_fmap). by rewrite <- !list_fmap_compose.
  - rewrite decide_False by done. assert (filter (λ x : Z * file, x.1 = Z.of_nat (S i)) (pair 0 <$> fs) = []) as ->; [|done].
    clear. induction fs as [|f fs IH]; [done|]. cbn [fmap list_fmap]. rewrite filter_cons_False by (cbn; lia). exact IH.
Qed.

Lemma table_in_flushed f : table_in n held f → table_in n held (flushed f).
Proof using Hheld. intros [H1 H2 H3 H4]. split; rewrite ?held_flushed; done. Qed.

Lemma ordered_spread lvl files : ordered n lvl files → spread n lvl files.
Proof.
  clear. intros [Hok Hs]. split.
  - induction Hs as [|f l Hs IH Hf]; cbn; constructor; [|apply IH; by apply Forall_cons in Hok as [_ ?]].
    intros (g & E & Hg)%list_elem_of_fmap. pose proof (proj1 (Forall_forall _ _) Hf g Hg) as (Hlt & _). cbn in E, Hlt. lia.
  - intros ->. induction Hs as [|f l Hs IH Hf]; cbn; constructor; [|apply IH; by apply Forall_cons in Hok as [_ ?]].
    intros (g & E & Hg)%list_elem_of_fmap. pose proof (proj1 (Forall_forall _ _) Hf g Hg) as (_ & _ & Hne). by apply Hne.
  - intros Hl. induction Hs as [|f l Hs IH Hf]; intros x y Hx Hy Hlt; [by apply elem_of_nil in Hx|]. apply Forall_cons in Hok as [_ Hok]. rewrite Forall_forall in Hf.
    apply elem_of_cons in Hx as [->|Hx], Hy as [->|Hy].
    + lia.
    + by apply (Hf y Hy).
    + destruct (Hf x Hx) as (? & _). lia.
    + by apply IH.
Qed.

Lemma flush_edit_fits v fs : version_fits n v → flush_fits v fs → edit_fits n v (flush_edit fs).
Proof.
  clear Hheld. intros Hv Hf. pose proof (flush_edit_files _ _ Hf) as (En & Ed & Ep). split; rewrite ?En, ?Ed, ?Ep; try done.
  - intros i files d _ []%elem_of_nil.
  - apply Forall_forall. intros x (f & -> & Hx)%list_elem_of_fmap. destruct (ff_tables _ _ Hf f Hx) as (El & _ & Ht). split; [done|]. split; [done|]. split; apply Ht.
  - intros lvl g _. apply not_elem_of_nil.
  - intros i files E. rewrite (flush_after v) by done. pose proof (ordered_spread _ _ (vf_ordered _ _ Hv i files E)) as Hs.
    destruct (decide (i = 0%nat)) as [->|]; [|by rewrite app_nil_r]. destruct Hs as [_ H2 _]. split; [..|done].
    + pose proof (ff_smallest _ _ Hf files E) as H. rewrite fmap_app in H |- *. by rewrite <- list_fmap_compose.
    + intros _. rewrite fmap_app, <- list_fmap_compose. apply NoDup_app. split; [by apply H2|]. split; [|by eapply ff_numbers].
      intros x (g & -> & Hg)%list_elem_of_fmap (f & Hin & Hx)%list_elem_of_fmap. pose proof (ff_newer_number _ _ Hf files f g E Hx Hg). cbn in Hin. lia.
  - intros i files E. rewrite (flush_after v) by done. pose proof (vf_ids _ _ Hv i files E) as Hi. destruct (decide (i = 0%nat)) as [->|]; [|by rewrite app_nil_r].
    rewrite fmap_app, <- list_fmap_compose. apply NoDup_app. split; [done|]. split.
    + intros x (g & -> & Hg)%list_elem_of_fmap (f & [= Hin _] & Hx)%list_elem_of_fmap. pose proof (ff_newer_number _ _ Hf files f g E Hx Hg). lia.
    + apply (NoDup_fmap_1 fst). rewrite <- list_fmap_compose. by eapply ff_numbers.
Qed.

(** The levels behind the first are permuted at most. *)
Lemma level_in_perm lvl l m : l ≡ₚ m → 0 < lvl → ordered n lvl m → level_in n held l → level_in n held m.
Proof.
  clear. intros P Hl [_ Hs] [H1 _ H3 H4]. split.
  - by rewrite <- P.
  - eapply sorted_weaken; [|exact Hs]. intros f g (_ & Hfg & _). by apply Hfg.
  - intros f. rewrite <- P. apply H3.
  - unfold len in *. by rewrite <- P.
Qed.

Lemma flush_levels v fs v' l0 rest :
  version_fits n v → flush_fits v fs → edit_applied n v (flush_edit fs) v' → levels_ v = l0 :: rest →
  ∃ l0' rest', levels_ v' = l0' :: rest' ∧ (flushed <$> fs) ++ l0 ≡ₚ l0' ∧ Forall2 (≡ₚ) rest rest'.
Proof.
  clear. intros Hv Hf [Hv' Hfiles _] El. destruct (Hfiles 0%nat l0) as (l0' & E0 & P0); [by rewrite El|]. destruct (levels_ v') as [|x rest'] eqn:El'; [done|]. injection E0 as ->.
  exists l0', rest'. split; [done|]. rewrite (flush_after v) in P0 by done. rewrite decide_True in P0 by done. split; [rewrite P0; apply Permutation_app_comm|].
  apply Forall2_same_length_lookup_2.
  - pose proof (vf_levels _ _ Hv) as H1. pose proof (vf_levels _ _ Hv') as H2. rewrite El in H1. rewrite El' in H2. cbn in H1, H2. lia.
  - intros i l m E1 E2. destruct (Hfiles (S i) l) as (m' & E & P); [by rewrite El|]. change (rest' !! i = Some m') in E. rewrite E2 in E. injection E as <-.
    rewrite (flush_after v), decide_False, app_nil_r in P by done. done.
Qed.

Lemma not_older_perm A A' B B' : A ≡ₚ A' → B ≡ₚ B' → not_older A B → not_older A' B'.
Proof. clear. intros PA PB H v w. rewrite <- PA, <- PB. apply H. Qed.

Lemma newer_perm rest rest' :
  Forall2 (≡ₚ) rest rest' → StronglySorted (λ a b, not_older (held_in a) (held_in b)) rest → StronglySorted (λ a b, not_older (held_in a) (held_in b)) rest'.
Proof.
  clear. intros P. induction P as [|l m rest rest' P0 P IH]; [done|]. intros [Hs Hf]%StronglySorted_inv. constructor; [by apply IH|].
  apply (Forall2_Forall_r _ _ _ _ P). eapply Forall_impl; [exact Hf|]. cbn. intros x Hx y Hy. eapply not_older_perm; [by apply concat_perm|by apply concat_perm|exact Hx].
Qed.

Lemma held_levels_perm rest rest' : Forall2 (≡ₚ) rest rest' → concat (held_in <$> rest) ≡ₚ concat (held_in <$> rest').
Proof. clear. induction 1 as [|l m rest rest' P0 P IH]; [done|]. cbn [fmap list_fmap concat]. by rewrite IH, (concat_perm held l m P0). Qed.

Lemma sorted_either {A} (R : A → A → Prop) (l : list A) x y : StronglySorted R l → x ∈ l → y ∈ l → x = y ∨ R x y ∨ R y x.
Proof.
  clear. intros Hs. induction Hs as [|z l Hs IH Hz]; [by intros ?%elem_of_nil|]. rewrite Forall_forall in Hz.
  intros [->|Hx]%elem_of_cons [->|Hy]%elem_of_cons; [by left|right; left; by apply Hz|right; right; by apply Hz|by apply IH].
Qed.

Lemma elem_of_held_in v f fs : v ∈ held f → f ∈ fs → v ∈ held_in fs.
Proof. clear. intros Hv Hf. apply elem_of_concat. exists (held f). split; [done|]. by apply list_elem_of_fmap_2. Qed.

Lemma flush_level0 v fs l0 rest l0' :
  levels_ v = l0 :: rest → flush_fits v fs → (flushed <$> fs) ++ l0 ≡ₚ l0' → level0_in n held l0 → level0_in n held l0'.
Proof using Hheld.
  intros El Hf P [H1 H2 H3 H4]. assert (∀ f g, f ∈ fs → g ∈ l0 → number g < number f) as Hn by (intros f g; apply (ff_newer_number _ _ Hf); by rewrite El). split.
  - rewrite <- P. apply Forall_app. split; [|done]. apply Forall_fmap, Forall_forall. intros f Hin. by apply table_in_flushed, (ff_tables _ _ Hf).
  - rewrite <- P, fmap_app, <- list_fmap_compose. apply NoDup_app. split; [by apply (ff_numbers _ _ Hf)|]. split; [|done].
    intros x (f & -> & Hx)%list_elem_of_fmap (g & Eg & Hg)%list_elem_of_fmap. specialize (Hn f g Hx Hg). cbn in Eg. lia.
  - intros x y. rewrite <- P. intros [(f & -> & Hx)%list_elem_of_fmap|Hx]%elem_of_app [(g & -> & Hy)%list_elem_of_fmap|Hy]%elem_of_app Hlt; rewrite ?held_flushed.
    + change (number g < number f) in Hlt. destruct (sorted_either _ fs f g (ff_order _ _ Hf) Hx Hy) as [->|[[]|[_ ?]]]; [lia|lia|done].
    + intros a b Ha Hb. apply (ff_newer _ _ Hf); [by apply (elem_of_held_in a f)|]. unfold all_held. rewrite El. apply elem_of_app. left. by apply (elem_of_held_in b y).
    + specialize (Hn g x Hy Hx). change (number (flushed g)) with (number g) in Hlt. lia.
    + by apply H3.
  - pose proof (ff_distinct _ _ Hf) as Hd. unfold all_held in Hd. rewrite El in Hd. unfold distinct in *. cbn [fmap list_fmap concat] in Hd. rewrite app_assoc, fmap_app in Hd.
    apply NoDup_app in Hd as [Hd _]. rewrite <- (concat_perm held _ _ P), fmap_app, concat_app. by rewrite (held_in_flushed fs).
Qed.

Lemma flush_version_in v fs v' :
  version_in n held v → version_fits n v → flush_fits v fs → edit_applied n v (flush_edit fs) v' →
  version_in n held v' ∧ held_in fs ++ all_held held v ≡ₚ all_held held v'.
Proof using Hheld.
  intros [(l0 & rest & El & H0 & Hl) Hs] Hv Hf Ha. destruct (flush_levels v fs v' l0 rest Hv Hf Ha El) as (l0' & rest' & El' & P0 & P).
  assert (held_in fs ++ held_in l0 ≡ₚ held_in l0') as Ph by (cbn beta; rewrite <- (concat_perm held _ _ P0), fmap_app, concat_app; by rewrite (held_in_flushed fs)).
  pose proof (ff_newer _ _ Hf) as Fo. unfold all_held in Fo |- *. rewrite El in Fo, Hs |- *. rewrite El'. cbn [fmap list_fmap concat] in Fo |- *.
  apply StronglySorted_inv in Hs as [Hs Hs0]. split; [split|].
  - exists l0', rest'. split; [done|]. split; [by apply (flush_level0 v fs l0 rest)|].
    apply Forall_lookup. intros i m Em. destruct (Forall2_lookup_r _ _ _ _ _ P Em) as (l & El2 & Pl).
    apply (level_in_perm (Z.of_nat (S i)) l m Pl); [lia| |by eapply Forall_lookup_1]. apply (vf_ordered _ _ (ea_fits _ _ _ _ Ha)). by rewrite El'.
  - rewrite El'. constructor; [by eapply newer_perm|]. apply (Forall2_Forall_r _ _ _ _ P). rewrite Forall_forall in Hs0 |- *. intros x Hx y Hy.
    eapply not_older_perm; [exact Ph|by apply concat_perm|]. intros v1 w1 [Hv1|Hv1]%elem_of_app Hw1; [|by apply (Hs0 x Hx)].
    apply Fo; [done|]. apply elem_of_app. right. apply elem_of_concat. exists (held_in x). split; [done|]. by apply (list_elem_of_fmap_2 held_in).
  - rewrite <- Ph, <- (held_levels_perm _ _ P). by rewrite app_assoc.
Qed.

Lemma flush_members v fs v' g :
  version_in n held v → version_fits n v → flush_fits v fs → edit_applied n v (flush_edit fs) v' → g ∈ concat (levels_ v') →
  (∃ f, f ∈ fs ∧ g = flushed f) ∨ g ∈ concat (levels_ v).
Proof.
  clear. intros [(l0 & rest & El & _) _] Hv Hf Ha Hg. destruct (flush_levels _ fs v' l0 rest Hv Hf Ha El) as (l0' & rest' & El' & P0 & Pr).
  rewrite El' in Hg. rewrite El. cbn [concat] in Hg |- *. apply elem_of_app in Hg as [Hg|(m & Hg & Hm)%elem_of_concat].
  - rewrite <- P0 in Hg. apply elem_of_app in Hg as [(f & -> & Hf')%list_elem_of_fmap|Hg]; [left; by exists f|right; apply elem_of_app; by left].
  - apply list_elem_of_lookup in Hm as [i Hm]. destruct (Forall2_lookup_r _ _ _ _ _ Pr Hm) as (l & Hl & Pl). rewrite <- Pl in Hg.
    right. apply elem_of_app. right. apply elem_of_concat. exists l. split; [done|]. by eapply list_elem_of_lookup_2.
Qed.

Lemma flush_numbers v fs v' :
  version_in n held v → version_fits n v → flush_fits v fs → edit_applied n v (flush_edit fs) v' →
  number <$> fs ++ concat (levels_ v) ≡ₚ number <$> concat (levels_ v').
Proof.
  clear. intros [(l0 & rest & El & _) _] Hv Hf Ha. destruct (flush_levels _ fs v' l0 rest Hv Hf Ha El) as (l0' & rest' & El' & P0 & Pr).
  rewrite El, El'. cbn [concat]. rewrite !fmap_app, <- P0, fmap_app, <- list_fmap_compose, <- app_assoc. do 2 apply Permutation_app_head.
  apply fmap_Permutation. clear El El'. induction Pr as [|l m rest rest' P _ IH]; [done|]. cbn. by rewrite P, IH.
Qed.

Context (opt : Table.options) (block_address trailer_address : nat) (slot_of : Z → nat) (mem : list (list Z)).
Context (evict : table_cache → table_cache) (Hevict : ∀ c, evict c ⊆ c).
#[local] Notation in_memory f := (table_stored opt block_address trailer_address n slot_of mem held f).
#[local] Notation cached files c := (cache_ok opt block_address slot_of mem files c).

(** C9: flushed tables become visible.  Installing the edit of a flush, whose
    byte-addressable tables have numbers that no other table has, greater than
    those of all tables of level 0, the newer the greater, and hold no version
    older than one of the same key before them, fails no assertion, keeps the
    invariants of the version, and makes a lookup in the new version, through a
    cache of opened tables whose entries are right, return the newest version of
    the key that the snapshot sees among those of the flushed tables and of all
    the tables before. *)
Theorem flush_install vs fs :
  version_in n held (current vs) → version_fits n (current vs) → length (compact_index_ vs) = Z.to_nat kNumLevels →
  flush_fits (current vs) fs → (∀ f, f ∈ fs ++ concat (levels_ (current vs)) → in_memory f) →
  NoDup (number <$> fs ++ concat (levels_ (current vs))) →
  ∃ vs' e, LogAndApply vs (flush_edit fs) = Ok (vs', e) ∧ version_in n held (current vs') ∧ version_fits n (current vs') ∧
    NoDup (number <$> concat (levels_ (current vs'))) ∧
    ∀ k seq value c, version_ok n (MkVersion seq kTypeValue k []) → cached (fs ++ concat (levels_ (current vs))) c →
      ∃ stats c', (lkey ← make_lookup k seq; Get (TableCache_Get opt block_address slot_of mem evict) (current vs') lkey value c) =
        Ok (get_answer value (newest k seq (concat (held <$> fs) ++ all_held held (current vs))), stats, c') ∧ cached (concat (levels_ (current vs'))) c'.
Proof using Hheld Hevict.
  intros Hin Hv Hi Hf Sv Hd. destruct (LogAndApply_ok n vs (flush_edit fs) Hv (flush_edit_fits _ _ Hv Hf) Hi) as (v & E & Ha).
  destruct (flush_version_in _ _ _ Hin Hv Hf Ha) as [Hin' P]. eexists _, _. split; [exact E|]. cbn [current]. split; [exact Hin'|]. split; [apply Ha|].
  assert (NoDup (number <$> concat (levels_ v))) as Hd' by (by rewrite <- (flush_numbers _ _ _ Hin Hv Hf Ha)). split; [done|].
  intros k seq value c Hk Hc. rewrite (newest_perm k seq _ (all_held held v)); [|apply Hf|exact P]. eapply Get_newest; [done|done|..].
  - intros g Hg. apply (stored_answers opt block_address trailer_address); [done|done|done|].
    destruct (flush_members _ _ _ g Hin Hv Hf Ha Hg) as [(f & Hx & ->)|Hx]; [|apply Sv, elem_of_app; by right].
    unfold table_stored. rewrite held_flushed. apply (Sv f), elem_of_app. by left.
  - intros g t Hg Et. destruct (flush_members _ _ _ g Hin Hv Hf Ha Hg) as [(f & Hx & ->)|Hx]; [|apply Hc; [apply elem_of_app; by right|done]].
    apply (Hc f t); [apply elem_of_app; by left|done].
Qed.

End flush.

(** ** Samples *)

Definition sample_meta (lvl number : Z) (first last : list Z) : file := MkFile lvl Table.byte_addressable number 0 1 600 first last [] [] [] 100 false.

(** A table of level 0 and one of level 1, and the edit of their compaction. *)
Definition sample_upper : file := sample_meta 0 7 (internal [97] (9 * 256 + 1)) (internal [98] (8 * 256)).
Definition sample_lower : file := sample_meta 1 5 (internal [97] (3 * 256 + 1)) (internal [99] (2 * 256 + 1)).
Definition sample_merged : file := sample_meta 1 8 (internal [97] (3 * 256 + 1)) (internal [99] (2 * 256 + 1)).

Definition sample_current : VersionSet := MkVersionSet (MkVersionOf ([sample_upper] :: [sample_lower] :: replicate 4 []) (replicate 6 [])) 9 (replicate 6 []).

Definition sample_compaction : VersionEdit :=
  AddFile (RemoveFile (RemoveFile (SetCompactPointer empty_edit 0 (internal [98] (8 * 256))) 0 7 0) 1 5 0) 1 sample_merged.

Lemma sample_meta_ok lvl number x y s t : byte x → byte y → file_ok 2 (sample_meta lvl number (internal [x] s) (internal [y] t)).
Proof.
  intros Hx Hy. assert (∀ z u, byte z → key_ok 2 (internal [z] u)) as Hkey; [|by split; apply Hkey].
  intros z u Hz. split; [split|]; [|rewrite length_internal; cbn; lia..]. apply Forall_app_2; [by constructor|apply le_bytes_byte].
Qed.

Lemma singleton_ordered n lvl f : file_ok n f → ordered n lvl [f].
Proof. intros Hf. split; [by apply Forall_singleton|by repeat constructor]. Qed.

Lemma nil_ordered n lvl : ordered n lvl [].
Proof. split; constructor. Qed.

Lemma sample_fits : version_fits 2 (current sample_current).
Proof.
  split; [done|..]; intros [|[|i]] files; cbn [levels_ current sample_current lookup list_lookup].
  - intros [= <-]. by apply singleton_ordered, sample_meta_ok.
  - intros [= <-]. by apply singleton_ordered, sample_meta_ok.
  - intros [-> _]%lookup_replicate. apply nil_ordered.
  - intros [= <-]. apply NoDup_singleton.
  - intros [= <-]. apply NoDup_singleton.
  - intros [-> _]%lookup_replicate. constructor.
Qed.

Lemma sample_compaction_fits : edit_fits 2 (current sample_current) sample_compaction.
Proof.
  assert (∀ i files, levels_ (current sample_current) !! i = Some files →
    after (Z.of_nat i) files sample_compaction = if decide (i = 1%nat) then [settled (set_seeks sample_merged 100 false)] else []) as Hafter.
  { intros [|[|i]] files; cbn [levels_ current sample_current lookup list_lookup]; [by intros [= <-]..|]. intros [-> Hi]%lookup_replicate.
    do 4 (destruct i as [|i]; [done|]). lia. }
  split; try (intros i files E; rewrite (Hafter i files E)).
  - by repeat constructor.
  - intros [|[|i]] files d; cbn [levels_ current sample_current lookup list_lookup]; [intros [= <-]..|intros [-> Hi]%lookup_replicate].
    + intros [->|[]%elem_of_nil]%elem_of_cons. by left.
    + intros [->|[]%elem_of_nil]%elem_of_cons. by left.
    + do 4 (destruct i as [|i]; [intros []%elem_of_nil|]). lia.
  - apply Forall_singleton. split; [done|]. split; [done|]. by apply sample_meta_ok.
  - intros lvl f. destruct (decide (lvl = 1)) as [->|Hne].
    + intros [->|[]%elem_of_nil]%elem_of_cons. apply (bool_decide_unpack _). by vm_compute.
    + unfold additions. change (new_files_ sample_compaction) with [(1, sample_merged)]. rewrite filter_cons_False, filter_nil by (cbn; congruence). intros []%elem_of_nil.
  - case_decide; [|by apply ordered_spread, nil_ordered]. apply ordered_spread, singleton_ordered, settled_ok. by apply (sample_meta_ok 1 8).
  - case_decide; [apply NoDup_singleton|constructor].
  - by apply Forall_singleton.
Qed.

Lemma log_and_apply_witness :
  ∃ v index e, LogAndApply sample_current sample_compaction = Ok (MkVersionSet v 9 index, e) ∧ levels_ v !! 0%nat = Some [] ∧
    levels_ v !! 1%nat = Some [set_seeks sample_merged 100 false].
Proof.
  destruct (log_and_apply 2 sample_current sample_compaction sample_fits sample_compaction_fits eq_refl) as (v & E & _ & H & _).
  eexists v, _, _. split; [exact E|]. destruct (H 0%nat _ eq_refl) as (l0 & E0 & P0). destruct (H 1%nat _ eq_refl) as (l1 & E1 & P1).
  rewrite E0, E1. split; f_equal.
  - apply Permutation_nil_r. exact P0.
  - apply Permutation_singleton_r. exact P1.
Defined.

(** A version with one table, into which the table of newer versions is flushed. *)
Definition sample_before (old : Table.job) : VersionSet :=
  MkVersionSet (MkVersionOf ([sample_old_file 1 old] :: replicate 5 []) (replicate 6 [])) 9 (replicate 6 []).

Lemma sample_before_in old : version_in 2 (sample_held true) (current (sample_before old)) ∧ version_fits 2 (current (sample_before old)).
Proof.
  destruct (sample_table_in true 1 old old eq_refl) as [To _]. split; split.
  - eexists _, _. split; [done|]. split; [split|].
    + by apply Forall_singleton.
    + apply NoDup_singleton.
    + intros f g [->|[]%elem_of_nil]%elem_of_cons [->|[]%elem_of_nil]%elem_of_cons. lia.
    + apply (bool_decide_unpack _). by vm_compute.
    + apply Forall_replicate. by split; [constructor|constructor|intros f ?%elem_of_nil|].
  - repeat constructor; intros x w ? ?%elem_of_nil; done.
  - done.
  - intros [|i] files; cbn [levels_ current sample_before lookup list_lookup]; [intros [= <-]|intros [-> _]%lookup_replicate; apply nil_ordered].
    apply singleton_ordered. split; apply To.
  - intros [|i] files; cbn [levels_ current sample_before lookup list_lookup]; [intros [= <-]; apply NoDup_singleton|intros [-> _]%lookup_replicate; constructor].
Qed.

Lemma sample_flush_fits old new : flush_fits 2 (sample_held true) (current (sample_before old)) [sample_new_file 2 new].
Proof.
  destruct (sample_table_in true 1 old new eq_refl) as [To Tn]. split.
  - intros f [->|[]%elem_of_nil]%elem_of_cons. done.
  - intros files f g [= <-] [->|[]%elem_of_nil]%elem_of_cons [->|[]%elem_of_nil]%elem_of_cons. by vm_compute.
  - intros files [= <-]. apply (bool_decide_unpack _). by vm_compute.
  - by repeat constructor.
  - change (not_older sample_newer sample_versions). exact sample_not_older.
  - apply (bool_decide_unpack _). by vm_compute.
Qed.

Lemma flush_install_witness :
  ∃ mem vs fs vs' e stats c, LogAndApply vs (flush_edit fs) = Ok (vs', e) ∧
    (lkey ← make_lookup [97] 10; Get (TableCache_Get sample_options 0 Z.to_nat mem (λ c, c)) (current vs') lkey [] ∅) = Ok (StatusOK, [42], stats, c).
Proof.
  destruct sample_tables as (old & new & Hs). specialize (Hs true). cbn zeta in Hs. destruct Hs as [So Sn]. destruct (sample_before_in old) as [Hin Hv].
  destruct (flush_install 2 (sample_held true) ltac:(done) sample_options 0 3 Z.to_nat (Table.remote (Table.j_card new)) (λ c, c) (λ c, reflexivity c)
    (sample_before old) [sample_new_file 2 new] Hin Hv eq_refl (sample_flush_fits old new)) as (vs' & e & E & _ & _ & _ & H).
  { intros f [->|[->|[]%elem_of_nil]%elem_of_cons]%elem_of_cons; [exact Sn|exact So]. }
  { apply (bool_decide_unpack _). by vm_compute. }
  destruct (H [97] 10 [] ∅ (sample_snapshot 97 ltac:(done)) (cache_empty _ _ _ _ _)) as (stats & c & Eg & _).
  eexists _, _, _, vs', e, stats, c. split; [exact E|]. rewrite Eg. by vm_compute.
Defined.
